(* ===== verification/_CoqProject ===== *)
-Q . S2P
Prelude.v
RustStr.v
OrdMap.v
PatchParser.v
PatchGrammar.v
SeekSequence.v
Utf8.v
TextFile.v
FileSystem.v
FileUpdate.v
ApplyPatch.v
AbsolutePath.v
ExecPolicy.v
PolicyBuilder.v
PolicyAmend.v
StreamText.v
TaggedLine.v
InlineTag.v
AssistantText.v
HeadTail.v
Truncate.v
Readiness.v
Template.v
Normalize.v
Fragments.v
RetainedContext.v
Transcript.v
TokenEstimate.v
History.v
Constraint.v
IpAddr.v
NetworkPolicy.v
NetworkConfig.v
NetworkState.v
ConfigToml.v
Fingerprint.v
ShellEnv.v
ConfigLayers.v
ConfigFilters.v
PathUri.v
PathText.v
Permissions.v
SandboxPolicy.v
PermissionScope.v
PermissionProfile.v
PermissionIntersection.v
