(* ===== verification/Prelude.v ===== *)
(** * Hexa engine: a verification library for the core of the coding agent

    Hexa is a coding agent written in Rust.  Its engine, under [src/engine], lets a
    model edit files and run commands.  This library models the parts of the engine
    that decide what happens to the user's files and commands, what a child process and
    the network may see, what is remembered of a conversation and what the user and the
    model get to see, and proves them correct.

    ** Parts and files

    - This file: outcomes of fallible code ([res], with panics), state passing, the
      tactics and the lemmas on lists and machine integers that the others share.
    - [RustStr], [Utf8], [OrdMap]: strings of the standard library as lists of scalar
      values, with byte lengths, slicing, searching, trimming and splitting; their
      encoding; maps that iterate in the order of their keys.
    - Patches.  [PatchParser], [PatchGrammar]: the patch language
      ([apply-patch/src/parser.rs], [streaming_parser.rs]), as the state machine that the
      code is, and a printer for its grammar.  [SeekSequence], [TextFile], [FileUpdate]:
      finding the lines of a chunk ([seek_sequence.rs]), files with their line endings
      ([text_file.rs]) and the new contents of an updated file ([file_update.rs]).
      [FileSystem], [ApplyPatch]: the file system interface ([file-system/src/lib.rs]) as
      a class with laws, with an instance in memory, and the application of a patch on it
      ([apply-patch/src/lib.rs]).
    - Commands.  [AbsolutePath], [ExecPolicy]: absolute paths ([utils/absolute-path]) and
      the policy that decides whether a command may run ([execpolicy/src/rule.rs],
      [policy.rs] and what they use).  [PolicyBuilder], [PolicyAmend]: reading policy
      files ([parser.rs]) and changing them ([amend.rs], [sandbox_migration.rs]).
    - Model output.  [StreamText], [TaggedLine], [InlineTag], [AssistantText]: the parsers
      of streamed text ([utils/stream-parser]); the trait they implement is a class, its
      promises are a class of laws, and the byte adapter is verified against the laws.
    - Tool output.  [HeadTail]: the bounded buffer of command output
      ([core/src/unified_exec/head_tail_buffer.rs]).  [Truncate]: truncation
      ([utils/string], [utils/output-truncation] and the types they use from [protocol]).
    - Conversation.  [Normalize]: the items of a conversation and the passes that prepare
      them ([core/src/context_manager/normalize.rs]).  [Fragments]: text that the program
      adds to messages, and its recognition ([context-fragments], [core/src/context]).
      [RetainedContext], [Transcript]: what outlives compaction
      ([history/src/retained_context.rs]) and what is kept for reviews
      ([guardian-context/src/history.rs]).  [TokenEstimate], [History]: token counts and
      the history itself ([core/src/context_manager/history.rs]).
    - Network.  [IpAddr], [NetworkPolicy]: addresses, hosts and domain patterns
      ([network-proxy/src/policy.rs]).  [NetworkConfig], [NetworkState]: the configuration
      with its managed constraints ([config.rs], [state.rs]) and the shared state of the
      proxy with its concurrent updates ([runtime.rs]).
    - Configuration.  [Constraint]: values with validators ([config/src/constraint.rs]).
      [ConfigToml]: merging of values, aliases and overrides ([merge.rs],
      [key_aliases.rs], [overrides.rs]).  [Fingerprint], [ConfigLayers]: the version of a
      layer ([fingerprint.rs]) and the stack of layers with its merged view and origins
      ([state.rs], [config_layer_source.rs]).  [ConfigFilters]: the environment filters of
      merged layers.
    - Child processes.  [ShellEnv]: the environment of a child, from the policy in the
      configuration to what an exec server computes ([config/src/shell_environment_policy.rs],
      [protocol/src/shell_environment.rs], [core/src/exec_env.rs],
      [core/src/unified_exec/process_manager.rs], [exec-server/src/local_process.rs]).
    - Permissions.  [PathUri], [PathText]: paths of executors as file URIs
      ([utils/path-uri/src/lib.rs], [absolute_path_normalization.rs]) and as native text
      ([api_path_string.rs]).  [Permissions]: the entries of a sandbox policy, their
      resolution and the access of a path; [SandboxPolicy]: workspace policies and the legacy
      policy; [PermissionScope]: the read-deny matcher and the roots of the workspace
      ([protocol/src/permissions.rs], [protocol.rs]).  [PermissionProfile]: the profile of a
      conversation, the partial profiles of commands, and how they are checked, merged and
      intersected ([protocol/src/models.rs], [sandboxing/src/policy_transforms.rs]);
      [PermissionIntersection]: what intersections let be read and written.
    - Utilities.  [Readiness]: a flag that tasks wait on ([utils/readiness]).  [Template]:
      prompt templates ([utils/template]).

    The parts meet where the code's do.  [ApplyPatch] runs the parser, then [FileUpdate]
    on each file, on any file system that keeps the laws.  [PolicyBuilder] builds the
    policies that [ExecPolicy] evaluates.  [AssistantText] composes the two stream parsers
    through their laws.  [History] records through [Truncate], [Fragments],
    [RetainedContext] and [Transcript], and prepares its items with [Normalize].
    [NetworkState] compiles what [NetworkConfig] has validated with the patterns of
    [NetworkPolicy].  [ConfigLayers] merges with [ConfigToml] what passed the check of
    [ShellEnv], and [ConfigFilters] shows that the result passes it too.  [SandboxPolicy] and
    [PermissionScope] build policies that [Permissions] resolves, over the containment of
    [PathUri]; what these assume of the URL library is [UrlLaws], and percent-coding is shown
    to have it.  [PermissionProfile] turns profiles into such policies and intersects a request
    with a grant through the matcher of [PermissionScope]; [PermissionIntersection] proves that
    the patterns among the denials are kept where they reach into what is granted.

    ** Correspondence

    A definition has the name of the function, type or constant that it translates;
    methods of the same name are told apart by a prefix.  A method with a [&mut self]
    receiver returns the new receiver with its result, on the error paths too.  Loops
    are recursive functions on the data they traverse.  A slice or an index out of
    range, a failed [expect] and an arithmetic underflow are [Panic], or [None] where a
    function has no other error.  [usize] is [nat] where it counts elements of a list
    that exists, and [N] with its saturation written out where it saturates; [i32] and
    [i64] are [Z] with their wrap-around, saturation or overflow written out.  A system
    call may fail in any way that its interface allows.  Concurrent code is a step
    relation: in [Readiness] a step is one access to the lock, the flag or the channel,
    and in [NetworkState] one critical section of the lock.

    ** What is proved

    - Patches: the parser accepts the grammar, except for hunks and context headers without
      change lines and names that end in whitespace, and returns what was printed; it only
      accepts complete hunks, and does not depend on how its input is cut.  Applying a
      patch has the abstract effect of its hunks, and on every exit the reported delta, if
      marked exact, replays to the new files and undoes to the old ones, for patches whose
      paths are plain: neither links nor behind links, nor other names of a file.
    - Updates: computing new contents does not panic; untouched lines keep their text
      and endings; context lines are woven through unchanged; the two ways to apply
      replacements agree; a single chunk that stands verbatim in the file, after its change
      context, is replaced there; the search returns the first match of the strictest kind,
      or the one that ends the file.
    - Policies: the decision is the strictest of the covering rules; overlays only
      tighten; an accepted file satisfies its own examples; rules, hosts and host
      executables keep their invariants; appending never loses a rule and the migration
      removes exactly the banned lines.
    - Streams: each parser equals a reader of the whole text for every way to cut it;
      refused bytes are rolled back; the one-pass parser is the composition of its parts.
    - Output: a buffer is a function of the output it has seen; truncation keeps both
      ends as long as the budget allows and never loses images.
    - Conversation: every sequence of operations returns and keeps the bounds; a rollback
      removes exactly the turns it should; injected text is no turn; preparing a history
      balances calls and outputs and is idempotent; evictions take the oldest and are
      announced by a generation.
    - Network: in every reachable state, under interleaved updates and reloads, managed
      denials hold and a host is let through exactly under the stated conditions; adding a
      denied domain blocks every spelling of it; the comparison of patterns with
      ordinary domains is inclusion of the hosts that the compiled patterns match; the address
      classes are ranges.
    - Configuration: a constrained value always passes its validators; a merge goes key by
      key; where no key has a dot, a scalar in force at a path without rules of its own is
      that of the highest layer that touches the path, and the reported origin is that
      layer; changes of user layers keep the order of the stack; layers with valid filters
      merge into valid filters; the last override of a path wins; the version of a layer
      ignores the order of its keys.
    - Child processes: the environment of a child, variable by variable; restricted
      variables reach no child; on Unix, without a snapshot or the managed network, an exec
      server computes the environment of the session for names that are in its own variables
      what they are in the agent's.
    - Permissions: the deepest entry decides the access of a path, and what cannot be
      compared is denied; a workspace policy confines writes and keeps the metadata of its
      roots; denials that are taken over hold and only narrow; the shortcut for full-disk
      access agrees with the entries; the read-deny matcher denies exactly what the entries
      and globs name, and everything when a glob is broken; concrete workspace roots give
      the access of symbolic ones, with plain subpaths; legacy policies survive a round
      trip, except for repeated roots and the working directory among them, and so does
      native path text.
    - Profiles: the intersection of a request and a grant lets nothing be read that either
      does not, by entries or by ordinary patterns, and writes only in directories that
      both write; a partial profile is refused exactly for a granting pattern or a path
      that does not fit, and otherwise loses repetitions only; the read-only intersection
      reads what the profile reads; with additional permissions the deepest of both sets of
      entries decides; a profile is determined by its enforcement and policies.
    - Utilities: at most one caller makes the flag ready; a subscribed waiter is woken; the
      search for a token terminates; parsing a printed template gives it back.
    - Some lemmas state behaviour that a comment or a reader would not expect.  A move of a
      file onto itself deletes it; the search at the end of a file does not fall back; a
      relative program path uses the rules of its base name; a waiter that reads the flag
      too early can miss its wake-up; a file that is added at a link to nothing has an
      exact delta that does not undo it; context headers that follow each other are
      rejected; a record of a blocked request can be lost by an update or a reload; the
      order of the entries decides whether the metadata of a nested writable root is
      protected; the intersection of a request and a grant may write what the request only
      reads, and drops the denial of a pattern that has a brace before its first wildcard;
      the home directory alone as a pattern is read in two ways; a subpath of a workspace
      root that begins with a tilde leaves the root; IPv6 addresses are confused by managed
      allow lists; the origins of replaced array elements remain, and a key with a dot
      takes over the origin of another field.

    ** Bounds and fuel

    [Utf8.utf8_scan] has the length of its input as fuel, and each character takes a byte.
    [PathText.utf8_lossy] has one round more than there are bytes, and each round but the
    last takes one.  [PathUri.last_ancestor] has one round for each segment, which is shown
    to reach the root of a Unix path.  [InlineTag.push_loop] has one round more than there
    are pending characters, and each round but the last removes a delimiter, which is not
    empty; that it then returns is part of what is proved.  [InlineTag.hidden_reference]
    likewise. [Readiness.draw_token] has a number of rounds, and two more than there are
    subscriptions are shown to be enough.  [Transcript.record] is two calls deep, and more
    are shown to give the same.  The evictions of [RetainedContext] and [Transcript] run
    over the list that they shorten.  The parser of [Template] recurses on the text that is
    left.  The limits of the code (records and bytes of the retained context and the
    transcript, 200 blocked requests, the budgets of outputs) are its constants.

    ** Not modelled

    Third-party code is an argument, with its documented behaviour as a class of laws or a
    hypothesis where it matters: Starlark evaluation is the list of builtin calls it makes;
    the watch channel ([WatchLaws]), file systems ([FileSystemLaws], whose laws on a single
    path are those of paths that are no links), globs ([GlobLaws], [DomainGlobLaws],
    [GlobPrefixLaws]), wildcards of variable names ([WildLaws]) and the lengths and pieces
    of encoded JSON ([JsonArray], [JsonWrites]) are classes with instances, and so are URLs
    with their percent-coding ([UrlLaws], [UrlTextLaws], [UrlSlashLaws], [FilePathLaws]);
    [shlex], [serde_json], [Debug] output, UUIDs, SHA-256, [str::to_lowercase], readers of
    enum values and decoders of media are functions.  Each theorem that has such a
    hypothesis has a witness with an instance.

    The unified diff of an update (built by a library), the verification of shell
    invocations of apply_patch (built on tree-sitter), file locking, Windows paths as native
    paths of the host ([PathUri] and [PathText] read and render them, and the theorems on
    containment are about Unix paths), the roots of a policy with symbolic links resolved,
    the wire types of profiles, the tables of requirements, interception and credentials of
    the proxy, snapshots of a shell, and the starting and supervision of processes are left
    out, as is the rest of the engine: the agent loop, servers, user interface, sandboxes
    and persistence.  Those parts are mostly input and output, generated code or wrappers of
    libraries.*)

From stdpp Require Export prelude gmap strings pretty sorting.

(** ** Results, panics and state *)

(** The outcome of a fallible Rust function.  [Ok] and [Err] are the two
    constructors of [std::result::Result]; [Panic] is the outcome of an
    operation that aborts the thread (a slice or an index out of range, an
    arithmetic underflow, an [expect] on [None]). *)
Inductive res (E A : Type) : Type :=
| Ok (a : A)
| Err (e : E)
| Panic.

Arguments Ok {E A} a.
Arguments Err {E A} e.
Arguments Panic {E A}.

Definition res_bind {E A B : Type} (m : res E A) (k : A → res E B) : res E B :=
  match m with
  | Ok a => k a
  | Err e => Err e
  | Panic => Panic
  end.

Definition res_map {E A B : Type} (f : A → B) (m : res E A) : res E B :=
  match m with
  | Ok a => Ok (f a)
  | Err e => Err e
  | Panic => Panic
  end.

Definition res_map_err {E F A : Type} (f : E → F) (m : res E A) : res F A :=
  match m with
  | Ok a => Ok a
  | Err e => Err (f e)
  | Panic => Panic
  end.

(** [Option::ok_or]. *)
Definition ok_or {E A : Type} (e : E) (o : option A) : res E A :=
  match o with Some a => Ok a | None => Err e end.

(** An [Option] whose [None] is an index or a slice out of range. *)
Definition or_panic {E A : Type} (o : option A) : res E A :=
  match o with Some a => Ok a | None => Panic end.

Definition is_ok {E A : Type} (m : res E A) : bool :=
  match m with Ok _ => true | _ => false end.

(** A method with a [&mut self] receiver of type [S] that returns a
    [Result<A, E>]: the receiver after the call is part of the outcome on the
    error paths too. *)
Definition stm (S E A : Type) : Type := S → S * res E A.

Definition stm_ret {S E A : Type} (a : A) : stm S E A := λ s, (s, Ok a).

Definition stm_bind {S E A B : Type} (m : stm S E A) (k : A → stm S E B) : stm S E B :=
  λ s, match m s with
       | (s', Ok a) => k a s'
       | (s', Err e) => (s', Err e)
       | (s', Panic) => (s', Panic)
       end.

Declare Scope rust_scope.
Delimit Scope rust_scope with rust.
Open Scope rust_scope.

Notation "'let?' x ':=' m 'in' k" := (res_bind m (λ x, k))
  (at level 10, x name, m at level 100, k at level 200) : rust_scope.
Notation "'let?' ' p ':=' m 'in' k" := (res_bind m (λ x, match x with p => k end))
  (at level 10, p strict pattern, m at level 100, k at level 200) : rust_scope.
Notation "'do!' x <- m ; k" := (stm_bind m (λ x, k))
  (at level 10, x name, m at level 100, k at level 200) : rust_scope.

(** ** Tactics and hint databases *)

Create HintDb hexa discriminated.

(** Case analysis on the innermost [match], [if] or [decide] of the goal. *)
Ltac split_match :=
  match goal with
  | |- context [match ?x with _ => _ end] =>
      lazymatch x with
      | context [match _ with _ => _ end] => fail
      | _ => destruct x eqn:?
      end
  end.

(** The same in a hypothesis. *)
Ltac split_match_in H :=
  match type of H with
  | context [match ?x with _ => _ end] =>
      lazymatch x with
      | context [match _ with _ => _ end] => fail
      | _ => destruct x eqn:?
      end
  end.

Lemma res_bind_Ok {E A B} (m : res E A) (k : A → res E B) b :
  res_bind m k = Ok b ↔ ∃ a, m = Ok a ∧ k a = Ok b.
Proof. destruct m; naive_solver. Qed.

Lemma existsb_elem {A} (f : A → bool) l l' : (∀ x, x ∈ l ↔ x ∈ l') → existsb f l = existsb f l'.
Proof.
  intros H. apply eq_iff_eq_true. rewrite !existsb_exists. setoid_rewrite <-list_elem_of_In. by setoid_rewrite H.
Qed.

Lemma res_map_err_Ok {E F A} (f : E → F) (m : res E A) a : res_map_err f m = Ok a ↔ m = Ok a.
Proof. destruct m; naive_solver. Qed.

Lemma res_seq_Ok {E B} (m : res E ()) (k : res E B) b :
  res_bind m (λ _, k) = Ok b ↔ m = Ok () ∧ k = Ok b.
Proof. rewrite res_bind_Ok. split; [by intros ([] & ? & ?)|]. intros [? ?]. by exists (). Qed.

Lemma res_each_Ok {E A} (o : option A) (f : A → res E ()) :
  match o with None => Ok () | Some a => f a end = Ok () ↔ ∀ a, o = Some a → f a = Ok ().
Proof. destruct o; naive_solver. Qed.

Lemma res_bind_not_Panic {E A B} (m : res E A) (k : A → res E B) :
  m ≠ Panic → (∀ a, m = Ok a → k a ≠ Panic) → res_bind m k ≠ Panic.
Proof. destruct m; naive_solver. Qed.

Lemma stm_bind_assoc {S E A B C} (m : stm S E A) (f : A → stm S E B)
    (g : B → stm S E C) s :
  stm_bind (stm_bind m f) g s = stm_bind m (λ a, stm_bind (f a) g) s.
Proof. unfold stm_bind. destruct (m s) as [s' [a|e|]]; reflexivity. Qed.

(** ** Machine integers *)

(** [usize] on a 64-bit target, and its saturating operations; subtraction that
    saturates at zero is [N.sub]. *)
Definition USIZE_MAX : N := 18446744073709551615%N.

Definition saturating_add (a b : N) : N := N.min (a + b) USIZE_MAX.
Definition saturating_mul (a b : N) : N := N.min (a * b) USIZE_MAX.

(** Adding up in steps saturates as adding up at once. *)
Lemma saturating_add_min a b : saturating_add (N.min a USIZE_MAX) b = N.min (a + b) USIZE_MAX.
Proof. unfold saturating_add. lia. Qed.

Lemma saturating_add_mins a b :
  saturating_add (N.min a USIZE_MAX) (N.min b USIZE_MAX) = N.min (a + b) USIZE_MAX.
Proof. unfold saturating_add. lia. Qed.

(** ** Lists *)

Section lists.
Context {A : Type}.
Implicit Types l k : list A.

(** [slice[i..j]] with Rust's bounds checks. *)
Definition slice (l : list A) (i j : nat) : option (list A) :=
  if decide (i ≤ j ∧ j ≤ length l) then Some (take (j - i) (drop i l)) else None.

(** The loop [for x in l] of a body that may return early. *)
Fixpoint res_fold {E S : Type} (f : S → A → res E S) (s : S) (l : list A) : res E S :=
  match l with
  | [] => Ok s
  | x :: l' => let? s' := f s x in res_fold f s' l'
  end.

(** [iter.map(f).collect::<Result<Vec<_>, _>>()]. *)
Fixpoint res_mapM {E B : Type} (f : A → res E B) (l : list A) : res E (list B) :=
  match l with
  | [] => Ok []
  | x :: l' => let? y := f x in let? ys := res_mapM f l' in Ok (y :: ys)
  end.

Lemma res_mapM_Ok {E B : Type} (f : A → res E B) l ys :
  res_mapM f l = Ok ys → Forall2 (λ x y, f x = Ok y) l ys.
Proof.
  revert ys. induction l as [|x l IH]; intros ys; simpl; [intros [= <-]; constructor|].
  intros (y & Hy & (ys' & Hys & [= <-])%res_bind_Ok)%res_bind_Ok. constructor; auto.
Qed.

Lemma res_fold_app {E S : Type} (f : S → A → res E S) s l k :
  res_fold f s (l ++ k) = (let? s' := res_fold f s l in res_fold f s' k).
Proof. revert s. induction l as [|x l IH]; intros s; simpl; [done|].
  destruct (f s x); simpl; auto. Qed.

(** An invariant of the loop body is an invariant of the loop. *)
Lemma res_fold_inv {E S : Type} (P : S → Prop) (f : S → A → res E S) l :
  (∀ s x s', P s → x ∈ l → f s x = Ok s' → P s') →
  ∀ s s', P s → res_fold f s l = Ok s' → P s'.
Proof.
  induction l as [|x l IH]; intros Hf s s' Hs; simpl; [naive_solver|].
  intros (s1 & H1 & H2)%res_bind_Ok.
  eapply IH; [|eapply Hf; [done| |done]; left|done].
  intros. eapply Hf; eauto. by right.
Qed.

(** A loop that only checks has checked every element. *)
Lemma res_fold_unit {E : Type} (f : A → res E ()) l :
  res_fold (λ _, f) tt l = Ok tt → ∀ x, x ∈ l → f x = Ok tt.
Proof.
  induction l as [|y l IH]; simpl; [set_solver|].
  intros ([] & Hy & Hl)%res_bind_Ok x [->|Hx]%elem_of_cons; auto.
Qed.

(** A loop that stops at the first element without a property. *)
Lemma res_fold_check {E : Type} (P : A → Prop) `{!∀ x, Decision (P x)} (e : A → E) l :
  res_fold (λ _ x, if decide (P x) then Ok tt else Err (e x)) tt l
  = match head (filter (λ x, ¬ P x) l) with None => Ok tt | Some x => Err (e x) end.
Proof.
  induction l as [|x l IH]; [done|]. cbn [res_fold]. rewrite filter_cons.
  destruct (decide (P x)); simpl; [by rewrite decide_False by tauto|by rewrite decide_True].
Qed.

Lemma last_snoc_inv l x : last l = Some x → ∃ l', l = l' ++ [x].
Proof. by intros ?%last_Some. Qed.

Lemma slice_Some l i j k :
  slice l i j = Some k ↔ i ≤ j ∧ j ≤ length l ∧ k = take (j - i) (drop i l).
Proof. unfold slice. case_decide; naive_solver. Qed.

Lemma filter_nil_Forall (P : A → Prop) `{!∀ x, Decision (P x)} l :
  Forall (λ x, ¬ P x) l ↔ filter P l = [].
Proof.
  induction l as [|x l IH]; [done|]. rewrite Forall_cons, filter_cons, IH. case_decide; naive_solver.
Qed.

Lemma elem_of_concat_fmap {B} (f : B → list A) (l : list B) x :
  x ∈ concat (f <$> l) ↔ ∃ y, y ∈ l ∧ x ∈ f y.
Proof.
  induction l as [|z l IH]; simpl.
  - split; [by intros ?%elem_of_nil|]. by intros (y & ?%elem_of_nil & _).
  - rewrite elem_of_app. setoid_rewrite elem_of_cons. rewrite IH. naive_solver.
Qed.

End lists.
