(* ===== verification/RustStr.v ===== *)
(** * Rust strings

    A [char] is its Unicode scalar value, a [String] or [&str] the list of its
    characters.  Lengths and offsets are in bytes of the UTF-8 encoding, as in
    Rust: [str_len], [find], [split_at_byte].  The functions here are the part
    of [core::str] and [core::char] that the modelled crates call. *)

From S2P Require Import Prelude.

Abbreviation char := N (only parsing).
Abbreviation rstring := (list N) (only parsing).

(** ** Literals and characters *)

(** A literal of the source; the modelled literals are ASCII. *)
Definition str (s : string) : rstring :=
  map Ascii.N_of_ascii (String.list_ascii_of_string s).

Definition LF : char := 10%N.
Definition CR : char := 13%N.
Definition SPACE : char := 32%N.
Definition DQUOTE : char := 34%N.

(** [char::is_whitespace]: the Unicode property White_Space. *)
Definition is_whitespace (c : char) : bool :=
  ((9 <=? c) && (c <=? 13) || (c =? 32) || (c =? 133) || (c =? 160) || (c =? 5760)
   || (8192 <=? c) && (c <=? 8202) || (c =? 8232) || (c =? 8233) || (c =? 8239)
   || (c =? 8287) || (c =? 12288))%N.

(** [char::is_ascii_digit]. *)
Definition is_ascii_digit (c : char) : bool := ((48 <=? c) && (c <=? 57))%N.

(** [char::to_ascii_lowercase]. *)
Definition char_to_ascii_lowercase (c : char) : char :=
  if ((65 <=? c) && (c <=? 90))%N then (c + 32)%N else c.

Definition to_ascii_lowercase (s : rstring) : rstring := map char_to_ascii_lowercase s.

Definition eq_ignore_ascii_case (a b : rstring) : bool :=
  bool_decide (to_ascii_lowercase a = to_ascii_lowercase b).

(** [char::len_utf8]. *)
Definition len_utf8 (c : char) : nat :=
  if (c <? 128)%N then 1 else if (c <? 2048)%N then 2 else if (c <? 65536)%N then 3 else 4.

(** [str::len]. *)
Definition str_len (s : rstring) : nat := sum_list_with len_utf8 s.

(** The two halves of a string at a byte offset; [None] when the offset is not
    on a character boundary or is past the end, where Rust's slicing panics. *)
Fixpoint split_at_byte (s : rstring) (k : nat) : option (rstring * rstring) :=
  match k with
  | 0 => Some ([], s)
  | _ => match s with
         | [] => None
         | c :: s' =>
             if decide (len_utf8 c ≤ k)
             then '(a, b) ← split_at_byte s' (k - len_utf8 c); Some (c :: a, b)
             else None
         end
  end.

(** ** Trimming *)

Fixpoint trim_start_matches (p : char → bool) (s : rstring) : rstring :=
  match s with
  | [] => []
  | c :: s' => if p c then trim_start_matches p s' else s
  end.

Definition trim_end_matches (p : char → bool) (s : rstring) : rstring :=
  reverse (trim_start_matches p (reverse s)).

Definition trim_start (s : rstring) : rstring := trim_start_matches is_whitespace s.
Definition trim_end (s : rstring) : rstring := trim_end_matches is_whitespace s.
Definition trim (s : rstring) : rstring := trim_end (trim_start s).

(** ** Prefixes, suffixes and search *)

Fixpoint strip_prefix (p s : rstring) : option rstring :=
  match p, s with
  | [], _ => Some s
  | c :: p', d :: s' => if (c =? d)%N then strip_prefix p' s' else None
  | _ :: _, [] => None
  end.

Definition strip_suffix (p s : rstring) : option rstring :=
  reverse <$> strip_prefix (reverse p) (reverse s).

Definition starts_with (s p : rstring) : bool := bool_decide (is_Some (strip_prefix p s)).
Definition ends_with (s p : rstring) : bool := bool_decide (is_Some (strip_suffix p s)).

(** The text before the first occurrence of [needle], and the text from it on. *)
Fixpoint find_split (needle s : rstring) : option (rstring * rstring) :=
  match strip_prefix needle s with
  | Some _ => Some ([], s)
  | None => match s with
            | [] => None
            | c :: s' => '(a, b) ← find_split needle s'; Some (c :: a, b)
            end
  end.

(** [str::find] of a string pattern: the byte offset of the first match. *)
Definition find (needle s : rstring) : option nat :=
  (λ '(a, _), str_len a) <$> find_split needle s.

Definition contains (s needle : rstring) : bool := bool_decide (is_Some (find_split needle s)).
Definition contains_char (s : rstring) (c : char) : bool := bool_decide (c ∈ s).

(** [str::split_once] of a character pattern. *)
Fixpoint split_once (c : char) (s : rstring) : option (rstring * rstring) :=
  match s with
  | [] => None
  | d :: s' => if (d =? c)%N then Some ([], s')
               else '(a, b) ← split_once c s'; Some (d :: a, b)
  end.

Definition rsplit_once (c : char) (s : rstring) : option (rstring * rstring) :=
  '(a, b) ← split_once c (reverse s); Some (reverse b, reverse a).

(** ** Lines *)

(** [str::split] of a character pattern: never empty. *)
Fixpoint split_char (c : char) (s : rstring) : list rstring :=
  match s with
  | [] => [[]]
  | d :: s' =>
      if (d =? c)%N then [] :: split_char c s'
      else match split_char c s' with
           | [] => [[d]]
           | l :: ls => (d :: l) :: ls
           end
  end.

(** [str::split_inclusive('\n')]. *)
Fixpoint split_inclusive_lf (s : rstring) : list rstring :=
  match s with
  | [] => []
  | d :: s' =>
      if (d =? LF)%N then [d] :: split_inclusive_lf s'
      else match split_inclusive_lf s' with
           | [] => [[d]]
           | l :: ls => (d :: l) :: ls
           end
  end.

Definition strip_suffix_or_self (p s : rstring) : rstring := default s (strip_suffix p s).

(** [str::lines]: each line without its LF or CRLF ending. *)
Definition line_text (l : rstring) : rstring :=
  match strip_suffix [LF] l with
  | None => l
  | Some l' => strip_suffix_or_self [CR] l'
  end.

Definition lines (s : rstring) : list rstring := line_text <$> split_inclusive_lf s.

(** [[&str]::join]. *)
Fixpoint join (sep : rstring) (ls : list rstring) : rstring :=
  match ls with
  | [] => []
  | [l] => l
  | l :: ls' => l ++ sep ++ join sep ls'
  end.

(** [u64] and [usize] through [Display]. *)
Definition display_N (n : N) : rstring := str (pretty n).
Definition display_nat (n : nat) : rstring := display_N (N.of_nat n).

Global Arguments str : simpl never.

(** ** Lemmas *)

Lemma strip_prefix_Some p s r : strip_prefix p s = Some r ↔ s = p ++ r.
Proof.
  revert s. induction p as [|c p IH]; intros [|d s]; simpl; try naive_solver.
  destruct (N.eqb_spec c d) as [->|]; [rewrite IH|]; naive_solver.
Qed.

Lemma strip_prefix_None p s : strip_prefix p s = None ↔ ∀ r, s ≠ p ++ r.
Proof.
  rewrite eq_None_not_Some. split.
  - intros H r ?%strip_prefix_Some. naive_solver.
  - intros H [r Hr%strip_prefix_Some]. naive_solver.
Qed.

Lemma strip_prefix_app p r : strip_prefix p (p ++ r) = Some r.
Proof. by apply strip_prefix_Some. Qed.

Lemma strip_suffix_Some p s r : strip_suffix p s = Some r ↔ s = r ++ p.
Proof.
  unfold strip_suffix. rewrite fmap_Some. split.
  - intros (x & Hx%strip_prefix_Some & ->).
    apply (f_equal reverse) in Hx. by rewrite reverse_app, !reverse_involutive in Hx.
  - intros ->. exists (reverse r). rewrite reverse_involutive.
    split; [|done]. apply strip_prefix_Some. by rewrite reverse_app.
Qed.

Lemma starts_with_spec s p : starts_with s p = true ↔ ∃ r, s = p ++ r.
Proof.
  unfold starts_with. rewrite bool_decide_eq_true. unfold is_Some.
  by setoid_rewrite strip_prefix_Some.
Qed.

Lemma ends_with_spec s p : ends_with s p = true ↔ ∃ r, s = r ++ p.
Proof.
  unfold ends_with. rewrite bool_decide_eq_true. unfold is_Some.
  by setoid_rewrite strip_suffix_Some.
Qed.

Lemma len_utf8_pos c : 1 ≤ len_utf8 c ≤ 4.
Proof. unfold len_utf8. repeat case_match; lia. Qed.

Lemma str_len_app a b : str_len (a ++ b) = str_len a + str_len b.
Proof. apply sum_list_with_app. Qed.

Lemma str_len_length s : length s ≤ str_len s.
Proof. induction s as [|c s IH]; simpl; [done|]. pose proof (len_utf8_pos c). lia. Qed.

Lemma str_len_nil s : str_len s = 0 ↔ s = [].
Proof. split; [|by intros ->]. pose proof (str_len_length s). destruct s; simpl in *; naive_solver lia. Qed.

Lemma split_at_byte_app a b : split_at_byte (a ++ b) (str_len a) = Some (a, b).
Proof.
  induction a as [|c a IH]; simpl; [by destruct b|].
  destruct (len_utf8 c + str_len a) eqn:E; [pose proof (len_utf8_pos c); lia|].
  rewrite <-E. rewrite decide_True by lia.
  replace (len_utf8 c + str_len a - len_utf8 c) with (str_len a) by lia.
  by rewrite IH.
Qed.

Lemma split_at_byte_Some s k a b :
  split_at_byte s k = Some (a, b) ↔ s = a ++ b ∧ str_len a = k.
Proof.
  split; [|by intros [-> <-]; apply split_at_byte_app].
  revert k a. induction s as [|c s IH]; intros [|k] a; simpl; try naive_solver.
  case_decide as Hc; [|done].
  destruct (split_at_byte s _) as [[a' b']|] eqn:E; simpl; [|done].
  intros [= <- <-]. apply IH in E as [-> E]. simpl. split; [done|lia].
Qed.

(** *** Trimming *)

Lemma trim_start_matches_suffix p s :
  ∃ w, s = w ++ trim_start_matches p s ∧ Forall (λ c, p c = true) w.
Proof.
  induction s as [|c s (w & Hw & Hf)]; simpl; [by exists []|].
  destruct (p c) eqn:E; [|by exists []].
  exists (c :: w). simpl. rewrite <-Hw. eauto.
Qed.

Lemma trim_start_matches_head p s c s' :
  trim_start_matches p s = c :: s' → p c = false.
Proof. induction s as [|d s IH]; simpl; [done|]. destruct (p d) eqn:E; naive_solver. Qed.

Lemma trim_start_matches_id p s :
  (∀ c, head s = Some c → p c = false) → trim_start_matches p s = s.
Proof. destruct s as [|c s]; simpl; [done|]. intros H. by rewrite H. Qed.

Lemma trim_start_matches_idem p s :
  trim_start_matches p (trim_start_matches p s) = trim_start_matches p s.
Proof. apply trim_start_matches_id. intros c Hc.
  destruct (trim_start_matches p s) eqn:E; simplify_eq/=. by eapply trim_start_matches_head. Qed.

Lemma trim_end_matches_prefix p s :
  ∃ w, s = trim_end_matches p s ++ w ∧ Forall (λ c, p c = true) w.
Proof.
  destruct (trim_start_matches_suffix p (reverse s)) as (w & Hw & Hf).
  exists (reverse w). split; [|by apply Forall_reverse].
  unfold trim_end_matches. apply (f_equal reverse) in Hw.
  by rewrite reverse_involutive, reverse_app in Hw.
Qed.

Lemma trim_end_matches_id p s :
  (∀ c, last s = Some c → p c = false) → trim_end_matches p s = s.
Proof.
  intros H. unfold trim_end_matches.
  rewrite trim_start_matches_id; [by apply reverse_involutive|].
  intros c Hc. apply H. by rewrite <-head_reverse.
Qed.

Lemma trim_end_matches_last p s c :
  last (trim_end_matches p s) = Some c → p c = false.
Proof.
  unfold trim_end_matches. rewrite last_reverse.
  destruct (trim_start_matches p (reverse s)) eqn:E; simpl; [done|].
  intros [= ->]. by eapply trim_start_matches_head.
Qed.

Lemma trim_id s :
  (∀ c, head s = Some c → is_whitespace c = false) →
  (∀ c, last s = Some c → is_whitespace c = false) → trim s = s.
Proof.
  intros H1 H2. unfold trim, trim_end, trim_start.
  rewrite (trim_start_matches_id _ s) by done. by apply trim_end_matches_id.
Qed.

Lemma trim_start_matches_app p a b :
  trim_start_matches p (a ++ b) =
  match trim_start_matches p a with [] => trim_start_matches p b | t => t ++ b end.
Proof. induction a as [|c a IH]; simpl; [by destruct (trim_start_matches p b)|]. by destruct (p c). Qed.

Lemma trim_start_app a b : trim_start a ≠ [] → trim_start (a ++ b) = trim_start a ++ b.
Proof.
  unfold trim_start. rewrite trim_start_matches_app. by destruct (trim_start_matches _ a).
Qed.

Lemma trim_end_prefix a b : trim_end a `prefix_of` trim_end (a ++ b).
Proof.
  unfold trim_end, trim_end_matches. rewrite reverse_app, trim_start_matches_app.
  destruct (trim_start_matches is_whitespace (reverse b)) as [|c t]; [done|].
  rewrite reverse_app, reverse_involutive. apply prefix_app_r.
  destruct (trim_end_matches_prefix is_whitespace a) as (w & Hw & _). by exists w.
Qed.

(** *** Search *)

Lemma find_split_Some needle s a b :
  find_split needle s = Some (a, b) →
  s = a ++ b ∧ (∃ r, b = needle ++ r) ∧
  ∀ a' r', s = a' ++ needle ++ r' → length a ≤ length a'.
Proof.
  revert a b. induction s as [|c s IH]; intros a b; simpl;
    destruct (strip_prefix needle _) as [r|] eqn:E.
  - intros [= <- <-]. apply strip_prefix_Some in E. simpl. split_and!; eauto with lia.
  - done.
  - intros [= <- <-]. apply strip_prefix_Some in E. simpl. split_and!; eauto with lia.
  - destruct (find_split needle s) as [[a0 b0]|] eqn:E'; simpl; [|done].
    intros [= <- <-]. destruct (IH _ _ eq_refl) as (-> & [r ->] & Hmin).
    split_and!; eauto. intros [|d a'] r'; simpl.
    + intros Heq. by eapply strip_prefix_None in E.
    + intros [= <- Heq]. specialize (Hmin _ _ Heq). lia.
Qed.

Lemma find_split_None needle s :
  find_split needle s = None ↔ ∀ a r, s ≠ a ++ needle ++ r.
Proof.
  induction s as [|c s IH]; simpl; destruct (strip_prefix needle _) as [r|] eqn:E.
  - split; [done|]. intros H. apply strip_prefix_Some in E. by destruct (H [] r).
  - split; [|done]. intros _ [|] r; simpl; [|done]. by apply strip_prefix_None.
  - split; [done|]. intros H. apply strip_prefix_Some in E. by destruct (H [] r).
  - destruct (find_split needle s) as [[a0 b0]|] eqn:E'; simpl.
    + split; [done|]. apply find_split_Some in E' as (-> & [r ->] & _).
      intros H. by destruct (H (c :: a0) r).
    + split; [|done]. intros _ [|d a] r; simpl; [by apply strip_prefix_None|].
      intros [= <- ?]. by eapply (proj1 IH eq_refl).
Qed.

(** The first occurrence is the one found. *)
Lemma find_split_first needle a r :
  (∀ a' r', a ++ needle ++ r = a' ++ needle ++ r' → length a ≤ length a') →
  find_split needle (a ++ needle ++ r) = Some (a, needle ++ r).
Proof.
  intros Hmin. destruct (find_split needle (a ++ needle ++ r)) as [[a' b']|] eqn:E.
  - apply find_split_Some in E as (Heq & [r' ->] & Hmin'). specialize (Hmin _ _ Heq).
    specialize (Hmin' a r eq_refl). apply app_inj_1 in Heq as [<- <-]; [done|lia].
  - by destruct (proj1 (find_split_None _ _) E a r).
Qed.

Lemma split_once_Some c s a b :
  split_once c s = Some (a, b) ↔ s = a ++ c :: b ∧ c ∉ a.
Proof.
  revert a. induction s as [|d s IH]; intros a; simpl.
  { split; [done|]. intros [H _]. by destruct a. }
  destruct (N.eqb_spec d c) as [->|Hd].
  - split; [intros [= <- <-]; set_solver|]. intros [H Hc].
    destruct a as [|e a]; simplify_eq/=; [done|set_solver].
  - destruct (split_once c s) as [[a' b']|] eqn:E; simpl.
    + split.
      * intros [= <- <-]. destruct (proj1 (IH _) eq_refl) as [-> ?]. set_solver.
      * intros [H Hc]. destruct a as [|e a]; simplify_eq/=.
        assert (Some (a', b') = Some (a, b)) as [= -> ->]; [|done].
        apply IH. set_solver.
    + split; [done|]. intros [H Hc]. destruct a as [|e a]; simplify_eq/=.
      assert (None = Some (a, b)) as [=]. apply IH. set_solver.
Qed.

(** *** Lines *)

Lemma split_char_nonempty c s : split_char c s ≠ [].
Proof. destruct s as [|d s]; simpl; [done|]. repeat case_match; done. Qed.

Lemma join_split_char c s : join [c] (split_char c s) = s.
Proof.
  induction s as [|d s IH]; simpl; [done|].
  destruct (N.eqb_spec d c) as [->|].
  - destruct (split_char c s) eqn:E; [by apply split_char_nonempty in E|].
    simpl in *. by rewrite IH.
  - destruct (split_char c s) as [|l ls] eqn:E; [by apply split_char_nonempty in E|].
    rewrite <-IH. by destruct ls.
Qed.

Lemma split_char_no_sep c s : c ∉ s → split_char c s = [s].
Proof.
  induction s as [|d s IH]; simpl; [done|]. intros [??]%not_elem_of_cons.
  destruct (N.eqb_spec d c); [congruence|]. by rewrite IH.
Qed.

Lemma split_char_app c a b : c ∉ a → split_char c (a ++ c :: b) = a :: split_char c b.
Proof.
  induction a as [|d a IH]; simpl; [by rewrite N.eqb_refl|].
  intros [??]%not_elem_of_cons. destruct (N.eqb_spec d c); [congruence|]. by rewrite IH.
Qed.

Lemma split_char_join c ls :
  ls ≠ [] → Forall (λ l, c ∉ l) ls → split_char c (join [c] ls) = ls.
Proof.
  induction ls as [|l ls IH]; [done|]. intros _ [Hl Hls]%Forall_cons.
  destruct ls as [|l' ls]; simpl; [by apply split_char_no_sep|].
  rewrite split_char_app by done. f_equal. by apply IH.
Qed.

Lemma split_char_elem c s l : l ∈ split_char c s → c ∉ l.
Proof.
  revert l. induction s as [|d s IH]; intros l; simpl.
  { intros ->%list_elem_of_singleton. apply not_elem_of_nil. }
  destruct (N.eqb_spec d c) as [->|].
  { intros [->|?]%elem_of_cons; [apply not_elem_of_nil|by apply IH]. }
  destruct (split_char c s) as [|l' ls] eqn:E; intros [->|Hl]%elem_of_cons.
  - by apply not_elem_of_cons; split; [congruence|apply not_elem_of_nil].
  - by apply elem_of_nil in Hl.
  - apply not_elem_of_cons; split; [congruence|]. apply IH. by left.
  - apply IH. by right.
Qed.

Lemma split_inclusive_lf_app l s :
  LF ∉ l → split_inclusive_lf (l ++ (LF :: s)) = (l ++ [LF]) :: split_inclusive_lf s.
Proof.
  induction l as [|c l IH]; [done|]. intros [??]%not_elem_of_cons. simpl.
  destruct (N.eqb_spec c LF); [congruence|]. by rewrite IH.
Qed.

Lemma split_inclusive_lf_last l :
  LF ∉ l → l ≠ [] → split_inclusive_lf l = [l].
Proof.
  induction l as [|c l IH]; [done|]. intros [??]%not_elem_of_cons _. simpl.
  destruct (N.eqb_spec c LF); [congruence|].
  destruct l as [|d l]; [done|]. by rewrite IH.
Qed.

Lemma concat_split_inclusive_lf s : concat (split_inclusive_lf s) = s.
Proof.
  induction s as [|c s IH]; simpl; [done|].
  destruct (N.eqb_spec c LF) as [->|]; simpl; [by rewrite IH|].
  destruct (split_inclusive_lf s) as [|l ls]; simplify_eq/=; by rewrite ?IH.
Qed.

(** The lines that [split_inclusive] returns: all but the last end in a line feed. *)
Inductive inclusive_lines : list rstring → Prop :=
| inclusive_nil : inclusive_lines []
| inclusive_last l : LF ∉ l → l ≠ [] → inclusive_lines [l]
| inclusive_cons l ls : LF ∉ l → inclusive_lines ls → inclusive_lines ((l ++ [LF]) :: ls).

Lemma split_inclusive_lines s : inclusive_lines (split_inclusive_lf s).
Proof.
  induction s as [|c s IH]; simpl; [constructor|]. destruct (N.eqb_spec c LF) as [->|Hc].
  { apply (inclusive_cons []); [set_solver|done]. }
  inversion IH; simplify_eq/=.
  - constructor; set_solver.
  - constructor; set_solver.
  - apply (inclusive_cons (c :: l)); set_solver.
Qed.

Lemma split_inclusive_concat ls : inclusive_lines ls → split_inclusive_lf (concat ls) = ls.
Proof.
  induction 1 as [|l Hl Hne|l ls Hl _ IH]; simpl; [done| |].
  - rewrite app_nil_r. by apply split_inclusive_lf_last.
  - rewrite <-app_assoc. simpl. by rewrite split_inclusive_lf_app, IH.
Qed.

Lemma inclusive_lines_filter (P : rstring → Prop) `{!∀ l, Decision (P l)} ls :
  inclusive_lines ls → inclusive_lines (filter P ls).
Proof.
  induction 1; rewrite ?filter_cons, ?filter_nil; repeat case_decide; by try constructor.
Qed.

(** Text after a line feed starts a line. *)
Lemma split_inclusive_lf_ended a b :
  a = [] ∨ last a = Some LF → split_inclusive_lf (a ++ b) = split_inclusive_lf a ++ split_inclusive_lf b.
Proof.
  intros [->|[a' ->]%last_Some]; [done|]. induction a' as [|c a IH]; [done|]. simpl.
  destruct (c =? LF)%N; [by rewrite IH|]. rewrite IH.
  destruct (split_inclusive_lf (a ++ [LF])) as [|l ls] eqn:E; [|done].
  apply (f_equal (@concat N)) in E. rewrite concat_split_inclusive_lf in E. by destruct a.
Qed.

(** A line of text that survives [lines]: no line feed in it and no carriage
    return at its end. *)
Definition clean_line (l : rstring) : Prop := (LF ∉ l) ∧ last l ≠ Some CR.

Lemma strip_suffix_CR l : last l ≠ Some CR → strip_suffix_or_self [CR] l = l.
Proof.
  unfold strip_suffix_or_self. intros H.
  destruct (strip_suffix [CR] l) as [r|] eqn:E; [|done].
  apply strip_suffix_Some in E as ->. by rewrite last_snoc in H.
Qed.

Lemma line_text_clean l : clean_line l → line_text (l ++ [LF]) = l.
Proof.
  intros [_ H]. unfold line_text. rewrite (proj2 (strip_suffix_Some [LF] _ l)) by done.
  by apply strip_suffix_CR.
Qed.

Lemma line_text_no_lf l : LF ∉ l → line_text l = l.
Proof.
  intros H. unfold line_text. destruct (strip_suffix [LF] l) as [r|] eqn:E; [|done].
  apply strip_suffix_Some in E as ->. set_solver.
Qed.

Lemma lines_join ls l :
  Forall clean_line ls → clean_line l → l ≠ [] → lines (join [LF] (ls ++ [l])) = ls ++ [l].
Proof.
  unfold lines. intros Hls Hl Hne. induction Hls as [|l' ls Hl' Hls IH]; simpl.
  - rewrite split_inclusive_lf_last by (apply Hl || done). simpl.
    by rewrite line_text_no_lf by apply Hl.
  - destruct (ls ++ [l]) as [|l2 ls2] eqn:E; [by destruct ls|].
    rewrite (split_inclusive_lf_app l') by apply Hl'. rewrite fmap_cons.
    by rewrite line_text_clean, IH.
Qed.

Lemma join_cons sep l ls : ls ≠ [] → join sep (l :: ls) = l ++ sep ++ join sep ls.
Proof. by destruct ls. Qed.

Lemma trim_end_cons c s : trim_end (c :: s) = [] ∨ ∃ r, trim_end (c :: s) = c :: r.
Proof.
  destruct (trim_end_matches_prefix is_whitespace (c :: s)) as (w & Hw & _).
  unfold trim_end. destruct (trim_end_matches is_whitespace (c :: s)) as [|d r]; [by left|].
  simplify_eq/=. eauto.
Qed.

Lemma trim_end_id s : (∀ c, last s = Some c → is_whitespace c = false) → trim_end s = s.
Proof. apply trim_end_matches_id. Qed.

Global Arguments strip_prefix : simpl never.
Global Arguments find_split : simpl never.
Global Arguments split_at_byte : simpl never.
Global Arguments trim_end : simpl never.
Global Arguments trim_start : simpl never.
Global Arguments trim : simpl never.
Global Opaque str.

Lemma char_to_ascii_lowercase_idem c :
  char_to_ascii_lowercase (char_to_ascii_lowercase c) = char_to_ascii_lowercase c.
Proof.
  unfold char_to_ascii_lowercase. destruct ((65 <=? c)%N && (c <=? 90)%N) eqn:E; [|by rewrite E].
  apply andb_true_iff in E as [E1%N.leb_le E2%N.leb_le].
  by rewrite (proj2 (N.leb_gt (c + 32) 90)), andb_false_r by lia.
Qed.

Lemma to_ascii_lowercase_idem s : to_ascii_lowercase (to_ascii_lowercase s) = to_ascii_lowercase s.
Proof.
  induction s as [|c s IH]; [done|]. unfold to_ascii_lowercase in *. cbn.
  by rewrite char_to_ascii_lowercase_idem, IH.
Qed.
