(* ===== verification/OrdMap.v ===== *)
(** * Sorted collections of strings

    [BTreeMap<String, V>] and [BTreeSet<String>] of the standard library: finite maps
    and sets whose iteration follows the order of the keys.  Strings compare by their
    bytes, which for UTF-8 is the order of their scalar values. *)

From S2P Require Import Prelude RustStr.

(** [str::cmp]. *)
Fixpoint str_leb (a b : rstring) : bool :=
  match a, b with
  | [], _ => true
  | _ :: _, [] => false
  | x :: a', y :: b' =>
      if (x <? y)%N then true else if (y <? x)%N then false else str_leb a' b'
  end.

Definition str_le (a b : rstring) : Prop := str_leb a b = true.

#[export] Instance str_le_dec : RelDecision str_le.
Proof. intros a b. unfold str_le. apply _. Defined.

Lemma str_leb_cons x y a b :
  str_le (x :: a) (y :: b) ↔ (x < y)%N ∨ x = y ∧ str_le a b.
Proof.
  unfold str_le. simpl. destruct (N.ltb_spec x y), (N.ltb_spec y x); split; intros; try done;
    try lia; auto.
  - right. split; [lia|done].
  - by destruct H1 as [|[_ ?]]; [lia|].
Qed.

#[export] Instance str_le_preorder : PreOrder str_le.
Proof.
  split.
  - intros a. induction a as [|x a IH]; [done|]. apply str_leb_cons. auto.
  - intros a. induction a as [|x a IH]; intros [|y b] [|z c]; try done.
    rewrite !str_leb_cons. intros [?|[-> ?]] [?|[-> ?]]; [left; lia|auto..|].
    right. split; [done|]. by eapply IH.
Qed.

#[export] Instance str_le_antisymm : AntiSymm (=) str_le.
Proof.
  intros a. induction a as [|x a IH]; intros [|y b]; try done.
  rewrite !str_leb_cons. intros [?|[-> ?]] [?|[? ?]]; try lia. f_equal. auto.
Qed.

#[export] Instance str_le_total : Total str_le.
Proof.
  intros a. induction a as [|x a IH]; intros [|y b]; [by left|by left|by right|].
  rewrite !str_leb_cons. destruct (N.lt_trichotomy x y) as [?|[->|?]]; auto.
  destruct (IH b); auto.
Qed.

(** The elements of a set and the keys of a map in iteration order. *)
Definition btree_elements (X : gset rstring) : list rstring := merge_sort str_le (elements X).

Definition btree_keys {V : Type} (m : gmap rstring V) : list rstring := btree_elements (dom m).

(** The entries of a map in iteration order. *)
Definition btree_entries {V : Type} (m : gmap rstring V) : list (rstring * V) :=
  omap (λ k, pair k <$> m !! k) (btree_keys m).

Lemma elem_of_btree_elements X s : s ∈ btree_elements X ↔ s ∈ X.
Proof. unfold btree_elements. by rewrite merge_sort_Permutation, elem_of_elements. Qed.

Lemma btree_elements_sorted X : StronglySorted str_le (btree_elements X).
Proof. apply (StronglySorted_merge_sort _). Qed.

Lemma btree_elements_NoDup X : NoDup (btree_elements X).
Proof. unfold btree_elements. rewrite merge_sort_Permutation. apply NoDup_elements. Qed.

Lemma elem_of_btree_entries {V : Type} (m : gmap rstring V) k v :
  (k, v) ∈ btree_entries m ↔ m !! k = Some v.
Proof.
  unfold btree_entries, btree_keys. rewrite list_elem_of_omap. split.
  - intros (k' & _ & (v' & Hv & [= -> ->])%fmap_Some). done.
  - intros Hv. exists k. rewrite elem_of_btree_elements, elem_of_dom, Hv. eauto.
Qed.

(** The first element of a sorted collection with a property is the least one. *)
Lemma find_least (P : rstring → Prop) `{!∀ s, Decision (P s)} X s :
  head (filter P (btree_elements X)) = Some s ↔
  s ∈ X ∧ P s ∧ ∀ s', s' ∈ X → P s' → str_le s s'.
Proof.
  rewrite <- elem_of_btree_elements. setoid_rewrite <- elem_of_btree_elements.
  pose proof (btree_elements_sorted X) as Hs. pose proof (btree_elements_NoDup X) as Hn.
  induction (btree_elements X) as [|x l IH]; [set_solver|].
  apply StronglySorted_inv in Hs as [Hl Hx]. apply NoDup_cons in Hn as [Hxl Hn].
  rewrite Forall_forall in Hx. rewrite filter_cons. case_decide as HP; simpl.
  - split.
    + intros [= <-]. split_and!; [by left|done|]. intros s' [->|?]%elem_of_cons; [done|]. auto.
    + intros (Hin & Hs & Hle). f_equal. apply (anti_symm str_le).
      * apply elem_of_cons in Hin as [->|?]; [done|]. auto.
      * apply Hle; [by left|done].
  - rewrite IH by done. setoid_rewrite elem_of_cons. naive_solver.
Qed.
