(* ===== verification/PatchParser.v ===== *)
(** * The patch parser of [apply-patch]

    [src/engine/apply-patch/src/parser.rs] (markers, hunks, boundary checks and
    [parse_patch]) and [src/engine/apply-patch/src/streaming_parser.rs] (the
    line-by-line state machine [StreamingPatchParser] that the whole-patch
    parser drives too).  A path is the string it is written with. *)

From S2P Require Import Prelude RustStr.

(** ** Markers (parser.rs) *)

Definition BEGIN_PATCH_MARKER : rstring := str "*** Begin Patch".
Definition END_PATCH_MARKER : rstring := str "*** End Patch".
Definition ADD_FILE_MARKER : rstring := str "*** Add File: ".
Definition DELETE_FILE_MARKER : rstring := str "*** Delete File: ".
Definition UPDATE_FILE_MARKER : rstring := str "*** Update File: ".
Definition MOVE_TO_MARKER : rstring := str "*** Move to: ".
Definition EOF_MARKER : rstring := str "*** End of File".
Definition CHANGE_CONTEXT_MARKER : rstring := str "@@ ".
Definition EMPTY_CHANGE_CONTEXT_MARKER : rstring := str "@@".
Definition ENVIRONMENT_ID_MARKER : rstring := str "*** Environment ID:".

Definition PARSE_IN_STRICT_MODE : bool := false.

(** ** Hunks *)

Inductive ParseError : Type :=
| InvalidPatchError (message : rstring)
| InvalidHunkError (message : rstring) (line_number : nat).

Record UpdateFileChunk : Type := {
  change_context : option rstring;
  old_lines : list rstring;
  new_lines : list rstring;
  context_line_indices : list (nat * nat);
  is_end_of_file : bool;
}.

Inductive Hunk : Type :=
| AddFile (path contents : rstring)
| DeleteFile (path : rstring)
| UpdateFile (path : rstring) (move_path : option rstring) (chunks : list UpdateFileChunk).

Definition hunk_path (h : Hunk) : rstring :=
  match h with
  | AddFile path _ => path
  | DeleteFile path => path
  | UpdateFile _ (Some path) _ => path
  | UpdateFile path None _ => path
  end.

Definition default_chunk : UpdateFileChunk :=
  {| change_context := None; old_lines := []; new_lines := [];
     context_line_indices := []; is_end_of_file := false |}.

Definition push_context_line (c : UpdateFileChunk) (line : rstring) : UpdateFileChunk :=
  {| change_context := change_context c;
     old_lines := old_lines c ++ [line];
     new_lines := new_lines c ++ [line];
     context_line_indices :=
       context_line_indices c ++ [(length (old_lines c), length (new_lines c))];
     is_end_of_file := is_end_of_file c |}.

Definition push_new_line (c : UpdateFileChunk) (line : rstring) : UpdateFileChunk :=
  {| change_context := change_context c; old_lines := old_lines c;
     new_lines := new_lines c ++ [line];
     context_line_indices := context_line_indices c; is_end_of_file := is_end_of_file c |}.

Definition push_old_line (c : UpdateFileChunk) (line : rstring) : UpdateFileChunk :=
  {| change_context := change_context c; old_lines := old_lines c ++ [line];
     new_lines := new_lines c;
     context_line_indices := context_line_indices c; is_end_of_file := is_end_of_file c |}.

Definition mark_end_of_file (c : UpdateFileChunk) : UpdateFileChunk :=
  {| change_context := change_context c; old_lines := old_lines c;
     new_lines := new_lines c;
     context_line_indices := context_line_indices c; is_end_of_file := true |}.

(** ** The streaming parser's state *)

Inductive StreamingParserMode : Type :=
| NotStarted
| StartedPatch
| ModeAddFile
| ModeDeleteFile
| ModeUpdateFile (hunk_line_number : nat)
| EndedPatch.

Record StreamingParserState : Type := {
  mode : StreamingParserMode;
  hunks : list Hunk;
  environment_id : option rstring;
}.

Record StreamingPatchParser : Type := {
  line_buffer : rstring;
  state : StreamingParserState;
  line_number : nat;
}.

Definition parser_default : StreamingPatchParser :=
  {| line_buffer := [];
     state := {| mode := NotStarted; hunks := []; environment_id := None |};
     line_number := 0 |}.

Definition with_mode (p : StreamingPatchParser) (m : StreamingParserMode) : StreamingPatchParser :=
  {| line_buffer := line_buffer p;
     state := {| mode := m; hunks := hunks (state p);
                 environment_id := environment_id (state p) |};
     line_number := line_number p |}.

Definition with_hunks (p : StreamingPatchParser) (hs : list Hunk) : StreamingPatchParser :=
  {| line_buffer := line_buffer p;
     state := {| mode := mode (state p); hunks := hs;
                 environment_id := environment_id (state p) |};
     line_number := line_number p |}.

Definition with_environment_id (p : StreamingPatchParser) (e : rstring) : StreamingPatchParser :=
  {| line_buffer := line_buffer p;
     state := {| mode := mode (state p); hunks := hunks (state p);
                 environment_id := Some e |};
     line_number := line_number p |}.

Definition with_line_buffer (p : StreamingPatchParser) (b : rstring) : StreamingPatchParser :=
  {| line_buffer := b; state := state p; line_number := line_number p |}.

Definition bump_line_number (p : StreamingPatchParser) : StreamingPatchParser :=
  {| line_buffer := line_buffer p; state := state p; line_number := S (line_number p) |}.

Definition push_hunk (p : StreamingPatchParser) (h : Hunk) : StreamingPatchParser :=
  with_hunks p (hunks (state p) ++ [h]).

(** Assignment through [last_mut]. *)
Definition set_last {A} (l : list A) (x : A) : list A := take (pred (length l)) l ++ [x].

Definition chunk_is_empty (c : UpdateFileChunk) : bool :=
  bool_decide (old_lines c = []) && bool_decide (new_lines c = []).

Definition last_chunk_is_empty (chunks : list UpdateFileChunk) : bool :=
  match last chunks with Some c => chunk_is_empty c | None => false end.

(** ** Messages *)

Definition msg_unexpected_line (line : rstring) : rstring :=
  str "Unexpected line found in update hunk: '" ++ line ++
  str "'. Every line should start with ' ' (context line), '+' (added line), or '-' (removed line)".

Definition msg_expected_context (line : rstring) : rstring :=
  str "Expected update hunk to start with a @@ context marker, got: '" ++ line ++ str "'".

Definition msg_no_lines : rstring := str "Update hunk does not contain any lines".

Definition msg_empty_update (path : rstring) : rstring :=
  str "Update file hunk for path '" ++ path ++ str "' is empty".

Definition msg_bad_header (trimmed : rstring) : rstring :=
  str "'" ++ trimmed ++
  str "' is not a valid hunk header. Valid hunk headers: '*** Add File: {path}', '*** Delete File: {path}', '*** Update File: {path}'".

Definition msg_first_line : rstring := str "The first line of the patch must be '*** Begin Patch'".
Definition msg_last_line : rstring := str "The last line of the patch must be '*** End Patch'".
Definition msg_env_twice : rstring := str "apply_patch environment_id cannot be specified more than once".
Definition msg_env_empty : rstring := str "apply_patch environment_id cannot be empty".

(** ** The state machine *)

Definition ensure_update_hunk_is_not_empty (self : StreamingPatchParser) (line : rstring)
    : res ParseError unit :=
  match last (hunks (state self)) with
  | Some (UpdateFile path _ chunks) =>
      match chunks, mode (state self) with
      | [], ModeUpdateFile hunk_line_number =>
          Err (InvalidHunkError (msg_empty_update path) hunk_line_number)
      | _, _ =>
          if last_chunk_is_empty chunks then
            if decide (line = END_PATCH_MARKER)
            then Err (InvalidHunkError msg_no_lines (line_number self))
            else Err (InvalidHunkError (msg_unexpected_line line) (line_number self))
          else Ok tt
      end
  | _ => Ok tt
  end.

(** [ensure_update_hunk_is_not_empty(..)?] followed by a state change. *)
Definition after_ensure (self : StreamingPatchParser) (line : rstring)
    (next : StreamingPatchParser) : StreamingPatchParser * res ParseError bool :=
  match ensure_update_hunk_is_not_empty self line with
  | Ok _ => (next, Ok true)
  | Err e => (self, Err e)
  | Panic => (self, Panic)
  end.

Definition handle_environment_id (self : StreamingPatchParser) (rest : rstring)
    : StreamingPatchParser * res ParseError bool :=
  match environment_id (state self) with
  | Some _ => (self, Err (InvalidPatchError msg_env_twice))
  | None =>
      let id := trim rest in
      if decide (id = []) then (self, Err (InvalidPatchError msg_env_empty))
      else (with_environment_id self id, Ok true)
  end.

Definition handle_headers_only (self : StreamingPatchParser) (trimmed : rstring)
    : StreamingPatchParser * res ParseError bool :=
  if decide (trimmed = END_PATCH_MARKER) then
    after_ensure self trimmed (with_mode self EndedPatch)
  else match strip_prefix ADD_FILE_MARKER trimmed with
  | Some path =>
      after_ensure self trimmed (with_mode (push_hunk self (AddFile path [])) ModeAddFile)
  | None =>
  match strip_prefix DELETE_FILE_MARKER trimmed with
  | Some path =>
      after_ensure self trimmed (with_mode (push_hunk self (DeleteFile path)) ModeDeleteFile)
  | None =>
  match strip_prefix UPDATE_FILE_MARKER trimmed with
  | Some path =>
      after_ensure self trimmed
        (with_mode (push_hunk self (UpdateFile path None [])) (ModeUpdateFile (line_number self)))
  | None => (self, Ok false)
  end end end.

Definition handle_hunk_headers_and_end_patch (self : StreamingPatchParser) (trimmed : rstring)
    : StreamingPatchParser * res ParseError bool :=
  match mode (state self), strip_prefix ENVIRONMENT_ID_MARKER trimmed with
  | StartedPatch, Some rest => handle_environment_id self rest
  | _, _ => handle_headers_only self trimmed
  end.

(** [if self.handle_hunk_headers_and_end_patch(line)? { return Ok(()) }] and
    the code after it. *)
Definition or_header (self : StreamingPatchParser) (line : rstring)
    (k : StreamingPatchParser → StreamingPatchParser * res ParseError unit)
    : StreamingPatchParser * res ParseError unit :=
  match handle_hunk_headers_and_end_patch self line with
  | (s, Ok true) => (s, Ok tt)
  | (s, Ok false) => k s
  | (s, Err e) => (s, Err e)
  | (s, Panic) => (s, Panic)
  end.

Definition process_not_started (self : StreamingPatchParser) (line : rstring)
    : StreamingPatchParser * res ParseError unit :=
  if decide (trim line = BEGIN_PATCH_MARKER) then (with_mode self StartedPatch, Ok tt)
  else (self, Err (InvalidPatchError msg_first_line)).

Definition bad_header (self : StreamingPatchParser) (line : rstring)
    : StreamingPatchParser * res ParseError unit :=
  (self, Err (InvalidHunkError (msg_bad_header (trim line)) (line_number self))).

Definition process_started_patch (self : StreamingPatchParser) (line : rstring)
    : StreamingPatchParser * res ParseError unit :=
  or_header self (trim line) (λ self, bad_header self line).

Definition process_add_file (self : StreamingPatchParser) (line : rstring)
    : StreamingPatchParser * res ParseError unit :=
  or_header self (trim line) (λ self,
    match strip_prefix (str "+") line, last (hunks (state self)) with
    | Some line_to_add, Some (AddFile path contents) =>
        (with_hunks self
           (set_last (hunks (state self)) (AddFile path (contents ++ line_to_add ++ [LF]))),
         Ok tt)
    | _, _ => bad_header self line
    end).

Definition process_delete_file (self : StreamingPatchParser) (line : rstring)
    : StreamingPatchParser * res ParseError unit :=
  or_header self (trim line) (λ self, bad_header self line).

(** [if chunks.is_empty() { chunks.push(default) }] and a change of [last_mut]. *)
Definition change_last_chunk (f : UpdateFileChunk → UpdateFileChunk)
    (chunks : list UpdateFileChunk) : list UpdateFileChunk :=
  let chunks := match chunks with [] => [default_chunk] | _ => chunks end in
  match last chunks with
  | Some c => set_last chunks (f c)
  | None => chunks
  end.

Definition is_context_marker (update_line : rstring) : bool :=
  bool_decide (update_line = EMPTY_CHANGE_CONTEXT_MARKER)
  || starts_with update_line CHANGE_CONTEXT_MARKER.

(** What a line that is not a header does to the fields of the update hunk at
    the end of [hunks]: [Ok (Some ..)] is a change of the fields, [Ok None] a
    line that is skipped. *)
Definition update_hunk_line (line : rstring) (line_number : nat)
    (move_path : option rstring) (chunks : list UpdateFileChunk)
    : res ParseError (option (option rstring * list UpdateFileChunk)) :=
  let update_line := trim_end line in
  let set chunks' := Ok (Some (move_path, chunks')) in
  let unexpected := Err (InvalidHunkError (msg_unexpected_line line) line_number) in
  let expected := Err (InvalidHunkError (msg_expected_context line) line_number) in
  let after_eof :=
    match last chunks with Some c => is_end_of_file c | None => false end in
  if after_eof && bool_decide (update_line = []) then Ok None
  else if after_eof && negb (is_context_marker update_line) then expected
  else match (if bool_decide (chunks = []) && bool_decide (move_path = None)
              then strip_prefix MOVE_TO_MARKER update_line else None) with
  | Some move_to_path => Ok (Some (Some move_to_path, chunks))
  | None =>
  if is_context_marker update_line && last_chunk_is_empty chunks then unexpected
  else if decide (update_line = EMPTY_CHANGE_CONTEXT_MARKER) then
    set (chunks ++ [default_chunk])
  else match strip_prefix CHANGE_CONTEXT_MARKER update_line with
  | Some ctx =>
      set (chunks ++
        [{| change_context := Some ctx; old_lines := []; new_lines := [];
            context_line_indices := []; is_end_of_file := false |}])
  | None =>
  if decide (update_line = EOF_MARKER) then
    if last_chunk_is_empty chunks then Err (InvalidHunkError msg_no_lines line_number)
    else set (match last chunks with
              | Some c => set_last chunks (mark_end_of_file c)
              | None => chunks
              end)
  else match line with
  | [] => set (change_last_chunk (λ c, push_context_line c []) chunks)
  | _ =>
  match strip_prefix (str " ") line with
  | Some l => set (change_last_chunk (λ c, push_context_line c l) chunks)
  | None =>
  match strip_prefix (str "+") line with
  | Some l => set (change_last_chunk (λ c, push_new_line c l) chunks)
  | None =>
  match strip_prefix (str "-") line with
  | Some l => set (change_last_chunk (λ c, push_old_line c l) chunks)
  | None =>
      match last chunks with
      | Some c => if chunk_is_empty c then unexpected else expected
      | None => unexpected
      end
  end end end end end end.

Definition process_update_file (self : StreamingPatchParser) (line : rstring)
    (hunk_line_number : nat) : StreamingPatchParser * res ParseError unit :=
  or_header self (trim_end line) (λ self,
    match last (hunks (state self)) with
    | Some (UpdateFile path move_path chunks) =>
        match update_hunk_line line (line_number self) move_path chunks with
        | Ok (Some (move_path', chunks')) =>
            (with_mode
               (with_hunks self
                  (set_last (hunks (state self)) (UpdateFile path move_path' chunks')))
               (ModeUpdateFile hunk_line_number), Ok tt)
        | Ok None => (self, Ok tt)
        | Err e => (self, Err e)
        | Panic => (self, Panic)
        end
    | _ => (self, Err (InvalidHunkError (msg_unexpected_line line) (line_number self)))
    end).

Definition process_ended_patch (self : StreamingPatchParser) (line : rstring)
    : StreamingPatchParser * res ParseError unit :=
  if decide (trim line = []) then (self, Ok tt)
  else (self, Err (InvalidPatchError msg_last_line)).

Definition process_line (self : StreamingPatchParser) (line : rstring)
    : StreamingPatchParser * res ParseError unit :=
  match mode (state self) with
  | NotStarted => process_not_started self line
  | StartedPatch => process_started_patch self line
  | ModeAddFile => process_add_file self line
  | ModeDeleteFile => process_delete_file self line
  | ModeUpdateFile n => process_update_file self line n
  | EndedPatch => process_ended_patch self line
  end.

(** One character of [push_delta]. *)
Definition push_char (self : StreamingPatchParser) (ch : char)
    : StreamingPatchParser * res ParseError unit :=
  if (ch =? LF)%N then
    let line := strip_suffix_or_self [CR] (line_buffer self) in
    process_line (bump_line_number (with_line_buffer self [])) line
  else (with_line_buffer self (line_buffer self ++ [ch]), Ok tt).

Fixpoint push_delta (self : StreamingPatchParser) (delta : rstring)
    : StreamingPatchParser * res ParseError (list Hunk) :=
  match delta with
  | [] => (self, Ok (hunks (state self)))
  | ch :: delta' =>
      match push_char self ch with
      | (self', Ok _) => push_delta self' delta'
      | (self', Err e) => (self', Err e)
      | (self', Panic) => (self', Panic)
      end
  end.

(** The part of [finish] that handles a last line without a newline. *)
Definition finish_line (self : StreamingPatchParser) : StreamingPatchParser * res ParseError unit :=
  match line_buffer self with
  | [] => (self, Ok tt)
  | line =>
      let self := bump_line_number (with_line_buffer self []) in
      if decide (trim line = END_PATCH_MARKER) then
        match ensure_update_hunk_is_not_empty self (trim line) with
        | Ok _ => (with_mode self EndedPatch, Ok tt)
        | Err e => (self, Err e)
        | Panic => (self, Panic)
        end
      else process_line self line
  end.

Definition finish (self : StreamingPatchParser) : StreamingPatchParser * res ParseError (list Hunk) :=
  match finish_line self with
  | (self, Ok _) =>
      match mode (state self) with
      | EndedPatch => (self, Ok (hunks (state self)))
      | _ => (self, Err (InvalidPatchError msg_last_line))
      end
  | (self, Err e) => (self, Err e)
  | (self, Panic) => (self, Panic)
  end.

(** ** Whole patches (parser.rs) *)

Record ApplyPatchArgs : Type := {
  args_patch : rstring;
  args_hunks : list Hunk;
  args_workdir : option rstring;
  args_environment_id : option rstring;
}.

Inductive ParseMode : Type := Strict | Lenient.

Definition check_start_and_end_lines_strict (first_line last_line : option rstring)
    : res ParseError unit :=
  match trim <$> first_line, trim <$> last_line with
  | Some first, last =>
      if decide (first = BEGIN_PATCH_MARKER) then
        if decide (last = Some END_PATCH_MARKER) then Ok tt
        else Err (InvalidPatchError msg_last_line)
      else Err (InvalidPatchError msg_first_line)
  | None, _ => Err (InvalidPatchError msg_last_line)
  end.

Definition check_patch_boundaries_strict (ls : list rstring) : res ParseError (list rstring) :=
  let? _ := check_start_and_end_lines_strict (head ls) (last ls) in Ok ls.

Definition HEREDOC_STARTS : list rstring :=
  [str "<<EOF"; str "<<'EOF'"; str "<<" ++ [DQUOTE] ++ str "EOF" ++ [DQUOTE]].

Definition check_patch_boundaries_lenient (original_lines : list rstring)
    : res ParseError (list rstring) :=
  match check_patch_boundaries_strict original_lines with
  | Ok ls => Ok ls
  | Panic => Panic
  | Err original_parse_error =>
      match original_lines with
      | first :: ((_ :: _) as rest) =>
          if bool_decide (first ∈ HEREDOC_STARTS)
             && ends_with (default [] (last original_lines)) (str "EOF")
             && bool_decide (4 ≤ length original_lines)
          then check_patch_boundaries_strict (take (pred (length rest)) rest)
          else Err original_parse_error
      | _ => Err original_parse_error
      end
  end.

Definition parse_patch_text (patch : rstring) (m : ParseMode) : res ParseError ApplyPatchArgs :=
  let ls := lines (trim patch) in
  let? patch_lines :=
    match m with
    | Strict => check_patch_boundaries_strict ls
    | Lenient => check_patch_boundaries_lenient ls
    end in
  let patch := join [LF] patch_lines in
  let '(parser, pushed) := push_delta parser_default patch in
  let? _ := pushed in
  let '(parser, finished) := finish parser in
  let? hs := finished in
  Ok {| args_patch := patch; args_hunks := hs; args_workdir := None;
        args_environment_id := environment_id (state parser) |}.

Definition parse_patch (patch : rstring) : res ParseError ApplyPatchArgs :=
  parse_patch_text patch (if PARSE_IN_STRICT_MODE then Strict else Lenient).

(** ** Streaming does not depend on how the text is cut *)

(** A client that feeds the chunks of a stream one by one, stopping at the
    first error. *)
Fixpoint push_deltas (self : StreamingPatchParser) (chunks : list rstring)
    : StreamingPatchParser * res ParseError (list Hunk) :=
  match chunks with
  | [] => (self, Ok (hunks (state self)))
  | c :: cs =>
      match push_delta self c with
      | (self', Ok _) => push_deltas self' cs
      | (self', Err e) => (self', Err e)
      | (self', Panic) => (self', Panic)
      end
  end.

(** ** Well-formed chunks and hunks *)

(** The context indices of a chunk are strictly increasing on both sides and
    point at the same line of [old_lines] and [new_lines]. *)
Definition ctx_lt (a b : nat * nat) : Prop := a.1 < b.1 ∧ a.2 < b.2.

Record chunk_wf (c : UpdateFileChunk) : Prop := {
  chunk_wf_sorted : StronglySorted ctx_lt (context_line_indices c);
  chunk_wf_lines : Forall (λ '(o, n), ∃ l, old_lines c !! o = Some l ∧ new_lines c !! n = Some l)
                     (context_line_indices c);
}.

Definition chunk_ok (c : UpdateFileChunk) : Prop := chunk_wf c ∧ chunk_is_empty c = false.

Definition hunk_ok (h : Hunk) : Prop :=
  match h with
  | UpdateFile _ _ chunks => chunks ≠ [] ∧ Forall chunk_ok chunks
  | _ => True
  end.

(** The chunks of an update hunk that is still being read: only the last one
    may lack lines. *)
Definition chunks_open (cs : list UpdateFileChunk) : Prop :=
  cs = [] ∨ ∃ cs' c, cs = cs' ++ [c] ∧ Forall chunk_ok cs' ∧ chunk_wf c.

(** The invariant of the streaming parser. *)
Definition parser_inv (p : StreamingPatchParser) : Prop :=
  match mode (state p) with
  | NotStarted | StartedPatch => hunks (state p) = []
  | ModeAddFile =>
      ∃ hs path contents, hunks (state p) = hs ++ [AddFile path contents] ∧ Forall hunk_ok hs
  | ModeUpdateFile _ =>
      ∃ hs path mp cs, hunks (state p) = hs ++ [UpdateFile path mp cs] ∧
        Forall hunk_ok hs ∧ chunks_open cs
  | ModeDeleteFile | EndedPatch => Forall hunk_ok (hunks (state p))
  end.

(** *** Lemmas *)

Lemma push_delta_app p a b :
  push_delta p (a ++ b) =
  match push_delta p a with
  | (p', Ok _) => push_delta p' b
  | (p', Err e) => (p', Err e)
  | (p', Panic) => (p', Panic)
  end.
Proof.
  revert p. induction a as [|c a IH]; intros p; simpl; [done|].
  destruct (push_char p c) as [p' [u|e|]]; simpl; auto.
Qed.

Lemma set_last_snoc {A} (l : list A) x y : set_last (l ++ [x]) y = l ++ [y].
Proof.
  unfold set_last. rewrite length_app. simpl.
  replace (pred (length l + 1)) with (length l) by lia. by rewrite take_app_length.
Qed.

Lemma chunk_wf_no_context c : context_line_indices c = [] → chunk_wf c.
Proof. intros H. split; rewrite H; constructor. Qed.

Lemma chunk_wf_default : chunk_wf default_chunk.
Proof. by apply chunk_wf_no_context. Qed.

Lemma ctx_lt_snoc (l : list (nat * nat)) o n :
  StronglySorted ctx_lt l → Forall (λ '(o', n'), o' < o ∧ n' < n) l →
  StronglySorted ctx_lt (l ++ [(o, n)]).
Proof.
  induction 1 as [|a l Hl IH Ha]; simpl; [repeat constructor|].
  intros [Hp Hf]%Forall_cons. constructor; [by apply IH|].
  apply Forall_app; split; [done|]. apply Forall_singleton. by destruct a.
Qed.

Lemma chunk_wf_bounds c :
  chunk_wf c →
  Forall (λ '(o, n), o < length (old_lines c) ∧ n < length (new_lines c)) (context_line_indices c).
Proof.
  intros [_ H]. eapply Forall_impl; [exact H|]. intros [o n] (l & Ho & Hn).
  split; by eapply lookup_lt_Some.
Qed.

Lemma push_context_line_wf c l : chunk_wf c → chunk_wf (push_context_line c l).
Proof.
  intros Hc. pose proof (chunk_wf_bounds _ Hc) as Hb. destruct Hc as [Hs Hl].
  split; simpl; [by apply ctx_lt_snoc|].
  apply Forall_app; split.
  - eapply Forall_impl; [exact Hl|]. intros [o n] (x & Ho & Hn). exists x.
    split; by apply lookup_app_l_Some.
  - repeat constructor. exists l.
    by rewrite !lookup_app_r, !Nat.sub_diag by done.
Qed.

Lemma push_line_wf_aux c old new :
  chunk_wf c → chunk_wf {| change_context := change_context c;
    old_lines := old_lines c ++ old; new_lines := new_lines c ++ new;
    context_line_indices := context_line_indices c; is_end_of_file := is_end_of_file c |}.
Proof.
  intros [Hs Hl]. split; simpl; [done|].
  eapply Forall_impl; [exact Hl|]. intros [o n] (x & Ho & Hn). exists x.
  split; by apply lookup_app_l_Some.
Qed.

Lemma push_new_line_wf c l : chunk_wf c → chunk_wf (push_new_line c l).
Proof. intros H. apply (push_line_wf_aux c [] [l]) in H. by rewrite app_nil_r in H. Qed.

Lemma push_old_line_wf c l : chunk_wf c → chunk_wf (push_old_line c l).
Proof. intros H. apply (push_line_wf_aux c [l] []) in H. by rewrite app_nil_r in H. Qed.

Lemma mark_end_of_file_wf c : chunk_wf c → chunk_wf (mark_end_of_file c).
Proof. by intros [??]. Qed.

#[export] Hint Resolve chunk_wf_default push_context_line_wf push_new_line_wf
  push_old_line_wf mark_end_of_file_wf : hexa.

Lemma change_last_chunk_open f cs :
  (∀ c, chunk_wf c → chunk_wf (f c)) → chunks_open cs → chunks_open (change_last_chunk f cs).
Proof.
  intros Hf [->|(cs' & c & -> & Hcs & Hc)].
  - right. exists [], (f default_chunk). split_and!; eauto with hexa.
  - right. exists cs', (f c). split_and!; auto. unfold change_last_chunk.
    destruct (cs' ++ [c]) eqn:E; [by destruct cs'|]. rewrite <-E.
    by rewrite last_snoc, set_last_snoc.
Qed.

Lemma chunks_open_push cs c :
  chunks_open cs → last_chunk_is_empty cs = false → chunk_wf c → chunks_open (cs ++ [c]).
Proof.
  intros [->|(cs' & d & -> & Hcs & Hd)] Hl Hc; right.
  - exists [], c. by split_and!.
  - exists (cs' ++ [d]), c. unfold last_chunk_is_empty in Hl. rewrite last_snoc in Hl.
    split_and!; [done| |done]. apply Forall_app. split; [done|]. by apply Forall_singleton.
Qed.

Lemma chunks_open_ok cs :
  chunks_open cs → cs ≠ [] → last_chunk_is_empty cs = false → cs ≠ [] ∧ Forall chunk_ok cs.
Proof.
  intros [->|(cs' & d & -> & Hcs & Hd)] Hne Hl; [done|].
  unfold last_chunk_is_empty in Hl. rewrite last_snoc in Hl.
  split; [done|]. apply Forall_app. split; [done|]. by apply Forall_singleton.
Qed.

Lemma is_context_marker_empty : is_context_marker EMPTY_CHANGE_CONTEXT_MARKER = true.
Proof. done. Qed.

Lemma is_context_marker_prefix l r :
  strip_prefix CHANGE_CONTEXT_MARKER l = Some r → is_context_marker l = true.
Proof.
  intros H. unfold is_context_marker, starts_with.
  rewrite (bool_decide_true (is_Some _)) by eauto. by rewrite orb_true_r.
Qed.

Lemma chunks_open_mark cs c :
  chunks_open cs → last cs = Some c → chunks_open (set_last cs (mark_end_of_file c)).
Proof.
  intros [->|(cs' & d & -> & Hcs & Hd)]; [done|].
  rewrite last_snoc, set_last_snoc. intros [= ->].
  right. eexists _, _. split_and!; eauto with hexa.
Qed.

Lemma update_hunk_line_open line n mp cs mp' cs' :
  chunks_open cs → update_hunk_line line n mp cs = Ok (Some (mp', cs')) → chunks_open cs'.
Proof.
  intros Hcs. unfold update_hunk_line. set (ul := trim_end line). clearbody ul.
  intros H. repeat (split_match_in H; try done); simplify_eq/=;
    auto using change_last_chunk_open, chunks_open_mark with hexa.
  all: try match goal with E : strip_prefix CHANGE_CONTEXT_MARKER _ = Some _ |- _ =>
    apply is_context_marker_prefix in E; rewrite E in * end.
  all: apply chunks_open_push; [done|by destruct (last_chunk_is_empty cs) eqn:?; simplify_eq/=|by apply chunk_wf_no_context].
Qed.

(** A header line closes the hunk being read. *)
Lemma ensure_closes p line :
  parser_inv p → ensure_update_hunk_is_not_empty p line = Ok tt → Forall hunk_ok (hunks (state p)).
Proof.
  unfold parser_inv, ensure_update_hunk_is_not_empty.
  destruct (mode (state p)) as [| | | |n|] eqn:Hm; try done.
  1,2: by intros ->.
  - intros (hs & path & ct & -> & Hhs) _. apply Forall_app. split; [done|]. by apply Forall_singleton.
  - intros (hs & path & mp & cs & -> & Hhs & Hcs). rewrite last_snoc.
    intros H. apply Forall_app. split; [done|]. apply Forall_singleton.
    destruct cs as [|c cs]; [done|]. apply chunks_open_ok; [done|done|].
    by repeat split_match_in H.
Qed.

Lemma after_ensure_cases p line next p' r :
  after_ensure p line next = (p', r) →
  p' = next ∧ r = Ok true ∧ ensure_update_hunk_is_not_empty p line = Ok tt ∨
  p' = p ∧ r ≠ Ok true ∧ r ≠ Ok false.
Proof.
  unfold after_ensure.
  destruct (ensure_update_hunk_is_not_empty p line) as [[]| |]; naive_solver.
Qed.

Lemma headers_only_inv p line p' r :
  parser_inv p → handle_headers_only p line = (p', r) → parser_inv p' ∧ (r = Ok false → p' = p).
Proof.
  intros Hp H. unfold handle_headers_only in H.
  repeat split_match_in H; simplify_eq; try done;
    apply after_ensure_cases in H as [(-> & -> & Hen)|(-> & ? & ?)]; try done.
  all: apply ensure_closes in Hen; [|done]; split; [|done]; unfold parser_inv; simpl.
  - done.
  - eexists _, _, _. done.
  - apply Forall_app. split; [done|]. by apply Forall_singleton.
  - eexists _, _, _, _. split_and!; [done|done|by left].
Qed.

Lemma headers_inv p line p' r :
  parser_inv p → handle_hunk_headers_and_end_patch p line = (p', r) →
  parser_inv p' ∧ (r = Ok false → p' = p).
Proof.
  intros Hp. unfold handle_hunk_headers_and_end_patch.
  destruct (mode (state p)) eqn:Hm; try by apply headers_only_inv.
  destruct (strip_prefix _ line) as [rest|]; [|by apply headers_only_inv].
  unfold handle_environment_id. repeat split_match; intros; by simplify_eq.
Qed.

Lemma or_header_inv p line k :
  parser_inv p → parser_inv (k p).1 → parser_inv (or_header p line k).1.
Proof.
  intros Hp Hk. unfold or_header.
  destruct (handle_hunk_headers_and_end_patch p line) as [p' r] eqn:E.
  apply headers_inv in E as [H1 H2]; [|done].
  destruct r as [[]| |]; simpl; try done. by rewrite H2.
Qed.

Lemma process_line_inv p line : parser_inv p → parser_inv (process_line p line).1.
Proof.
  intros Hp. unfold process_line. destruct (mode (state p)) as [| | | |n|] eqn:Hm.
  - unfold process_not_started. case_decide; [|done].
    unfold parser_inv in *. simpl. by rewrite Hm in *.
  - by apply or_header_inv.
  - apply or_header_inv; [done|]. pose proof Hp as Hp'. unfold parser_inv in Hp.
    rewrite Hm in Hp. destruct Hp as (hs & path & ct & Hhs & Hok).
    rewrite Hhs, last_snoc. destruct (strip_prefix _ line); [|done].
    unfold parser_inv. simpl. rewrite Hm, set_last_snoc. eexists _, _, _. done.
  - by apply or_header_inv.
  - apply or_header_inv; [done|]. pose proof Hp as Hp'. unfold parser_inv in Hp.
    rewrite Hm in Hp. destruct Hp as (hs & path & mp & cs & Hhs & Hok & Hcs).
    rewrite Hhs, last_snoc.
    destruct (update_hunk_line _ _ _ _) as [[[mp' cs']|]| |] eqn:E; try done.
    unfold parser_inv. simpl. rewrite set_last_snoc. eexists _, _, _, _.
    split_and!; [done|done|by eapply update_hunk_line_open].
  - unfold process_ended_patch. by case_decide.
Qed.

Lemma parser_inv_buffer p b : parser_inv (with_line_buffer p b) ↔ parser_inv p.
Proof. done. Qed.

Lemma parser_inv_bump p : parser_inv (bump_line_number p) ↔ parser_inv p.
Proof. done. Qed.

Lemma push_delta_inv p delta : parser_inv p → parser_inv (push_delta p delta).1.
Proof.
  revert p. induction delta as [|ch delta IH]; intros p Hp; simpl; [done|].
  assert (parser_inv (push_char p ch).1) as H1.
  { unfold push_char. case_match; [|done]. apply process_line_inv. done. }
  destruct (push_char p ch) as [p' [u|e|]]; simpl in *; auto.
Qed.

Lemma finish_inv p hs : parser_inv p → (finish p).2 = Ok hs → Forall hunk_ok hs.
Proof.
  intros Hp. unfold finish. destruct (finish_line p) as [p' [u|e|]] eqn:E; try done.
  assert (parser_inv p') as Hp'.
  { unfold finish_line in E. destruct (line_buffer p) as [|c l]; [by simplify_eq|].
    case_decide; [|apply (f_equal fst) in E; simpl in E; subst p'; by apply process_line_inv].
    destruct (ensure_update_hunk_is_not_empty _ _) as [[]| |] eqn:En; simplify_eq.
    unfold parser_inv. simpl. by eapply ensure_closes in En. }
  unfold parser_inv in Hp'. destruct (mode (state p')); simpl; naive_solver.
Qed.

Lemma parser_inv_default : parser_inv parser_default.
Proof. done. Qed.

Lemma parse_patch_text_ok patch m args :
  parse_patch_text patch m = Ok args → Forall hunk_ok (args_hunks args).
Proof.
  unfold parse_patch_text.
  intros (ls & _ & H)%res_bind_Ok. revert H.
  destruct (push_delta parser_default (join [LF] ls)) as [p r] eqn:E.
  intros (hs & _ & H)%res_bind_Ok. revert H.
  destruct (finish p) as [p' f] eqn:Ef.
  intros (hs' & -> & [= <-])%res_bind_Ok. simpl.
  apply (finish_inv p); [|by rewrite Ef].
  pose proof (push_delta_inv _ (join [LF] ls) parser_inv_default) as Hinv.
  by rewrite E in Hinv.
Qed.

(** ** Properties *)

(** C7: the parser's state and result after a stream do not depend on how the
    text was cut into deltas: feeding the pieces one at a time, stopping at the
    first error, is the same as one [push_delta] of the whole text. *)
Theorem push_delta_chunk_invariance p chunks :
  push_deltas p chunks = push_delta p (concat chunks).
Proof.
  revert p. induction chunks as [|c cs IH]; intros p; simpl; [done|].
  rewrite push_delta_app. destruct (push_delta p c) as [p' [hs|e|]]; auto.
Qed.

(** C6: every patch [parse_patch] accepts has complete, well-formed hunks: an
    update hunk has at least one chunk, each chunk has at least one line, and
    its context indices are strictly increasing and name equal lines of the old
    and the new side. *)
Theorem parse_patch_hunks_well_formed patch args :
  parse_patch patch = Ok args → Forall hunk_ok (args_hunks args).
Proof. apply parse_patch_text_ok. Qed.

Definition sample_patch : rstring :=
  join [LF] (str <$> ["*** Begin Patch"; "*** Update File: a.rs"; "@@ fn main"; " x"; "-y"; "+z";
                      "*** End Patch"]%string).

Definition sample_args : ApplyPatchArgs :=
  {| args_patch := sample_patch;
     args_hunks := [UpdateFile (str "a.rs") None
       [{| change_context := Some (str "fn main");
           old_lines := [str "x"; str "y"]; new_lines := [str "x"; str "z"];
           context_line_indices := [(0, 0)]; is_end_of_file := false |}]];
     args_workdir := None; args_environment_id := None |}.

Lemma parse_patch_hunks_well_formed_witness : Forall hunk_ok (args_hunks sample_args).
Proof. apply (parse_patch_hunks_well_formed sample_patch). vm_compute. reflexivity. Defined.
