(* ===== verification/PatchGrammar.v ===== *)
(** * The documented patch grammar, and that the parser implements it

    The header of [src/engine/apply-patch/src/parser.rs] gives a Lark grammar
    for patches.  Here that grammar is an abstract syntax with a renderer to
    lines and a denotation as [Hunk]s.  The parser of [PatchParser] accepts the
    rendering of every patch of a fragment of the grammar and returns its
    denotation.  The fragment leaves out what the parser rejects: an update hunk
    without a change, and a context header without change lines, such as the
    first of two headers in a row. *)

From S2P Require Import Prelude RustStr PatchParser.

(** ** Abstract syntax *)

Inductive ChangeLine : Type :=
| LContext (l : rstring)
| LAdded (l : rstring)
| LRemoved (l : rstring).

(** A chunk: its header ([None] for a first chunk without one, [Some None] for
    [@@], [Some (Some c)] for [@@ c]), its lines, and the end-of-file line. *)
Record ChunkAst : Type := {
  ca_header : option (option rstring);
  ca_body : list ChangeLine;
  ca_eof : bool;
}.

Inductive HunkAst : Type :=
| AAdd (path : rstring) (ls : list rstring)
| ADelete (path : rstring)
| AUpdate (path : rstring) (move_to : option rstring) (chunks : list ChunkAst).

Record PatchAst : Type := {
  pa_environment : option rstring;
  pa_hunks : list HunkAst;
}.

(** ** Rendering *)

Definition render_change (c : ChangeLine) : rstring :=
  match c with
  | LContext l => str " " ++ l
  | LAdded l => str "+" ++ l
  | LRemoved l => str "-" ++ l
  end.

Definition render_header (h : option (option rstring)) : list rstring :=
  match h with
  | None => []
  | Some None => [EMPTY_CHANGE_CONTEXT_MARKER]
  | Some (Some c) => [CHANGE_CONTEXT_MARKER ++ c]
  end.

Definition render_chunk (c : ChunkAst) : list rstring :=
  render_header (ca_header c) ++ (render_change <$> ca_body c)
  ++ (if ca_eof c then [EOF_MARKER] else []).

Definition render_hunk (h : HunkAst) : list rstring :=
  match h with
  | AAdd path ls => (ADD_FILE_MARKER ++ path) :: ((λ l, str "+" ++ l) <$> ls)
  | ADelete path => [DELETE_FILE_MARKER ++ path]
  | AUpdate path mv cs =>
      (UPDATE_FILE_MARKER ++ path) ::
      (match mv with Some d => [MOVE_TO_MARKER ++ d] | None => [] end)
      ++ concat (render_chunk <$> cs)
  end.

Definition render_patch (p : PatchAst) : list rstring :=
  BEGIN_PATCH_MARKER ::
  (match pa_environment p with
   | Some e => [ENVIRONMENT_ID_MARKER ++ str " " ++ e]
   | None => []
   end)
  ++ concat (render_hunk <$> pa_hunks p).

Definition render_text (p : PatchAst) : rstring :=
  join [LF] (render_patch p ++ [END_PATCH_MARKER]).

(** ** Denotation *)

Definition push_change (c : UpdateFileChunk) (l : ChangeLine) : UpdateFileChunk :=
  match l with
  | LContext l => push_context_line c l
  | LAdded l => push_new_line c l
  | LRemoved l => push_old_line c l
  end.

Definition header_chunk (h : option (option rstring)) : UpdateFileChunk :=
  {| change_context := mjoin h; old_lines := []; new_lines := [];
     context_line_indices := []; is_end_of_file := false |}.

Definition denote_chunk (c : ChunkAst) : UpdateFileChunk :=
  let d := foldl push_change (header_chunk (ca_header c)) (ca_body c) in
  if ca_eof c then mark_end_of_file d else d.

Definition denote_hunk (h : HunkAst) : Hunk :=
  match h with
  | AAdd path ls => AddFile path (concat ((λ l, l ++ [LF]) <$> ls))
  | ADelete path => DeleteFile path
  | AUpdate path mv cs => UpdateFile path mv (denote_chunk <$> cs)
  end.

(** ** Lexical conditions: what [filename] and the line texts of the grammar are *)

(** A non-empty name on one line that does not end in whitespace. *)
Record name_ok (f : rstring) : Prop := {
  name_ok_lf : LF ∉ f;
  name_ok_last : ∃ c, last f = Some c ∧ is_whitespace c = false;
}.

Definition change_text (l : ChangeLine) : rstring :=
  match l with LContext l | LAdded l | LRemoved l => l end.

Record chunk_ast_ok (c : ChunkAst) : Prop := {
  cao_header : ∀ x, ca_header c = Some (Some x) → name_ok x;
  cao_body : ca_body c ≠ [];
  cao_lines : Forall (λ l, clean_line (change_text l)) (ca_body c);
}.

Definition hunk_ast_ok (h : HunkAst) : Prop :=
  match h with
  | AAdd path ls => name_ok path ∧ Forall clean_line ls
  | ADelete path => name_ok path
  | AUpdate path mv cs =>
      name_ok path ∧ (∀ d, mv = Some d → name_ok d) ∧ cs ≠ [] ∧ Forall chunk_ast_ok cs ∧
      Forall (λ c, ca_header c ≠ None) (tail cs)
  end.

Record patch_ast_ok (p : PatchAst) : Prop := {
  pao_environment : ∀ e, pa_environment p = Some e → name_ok e ∧ trim e = e;
  pao_hunks : Forall hunk_ast_ok (pa_hunks p);
}.

(** ** Feeding lines *)

(** The lines of a text through [process_line], with the line counter. *)
Fixpoint feed (p : StreamingPatchParser) (ls : list rstring) : option StreamingPatchParser :=
  match ls with
  | [] => Some p
  | l :: ls' =>
      match process_line (bump_line_number p) l with
      | (p', Ok _) => feed p' ls'
      | _ => None
      end
  end.

(** Between two hunks. *)
Record ready (p : StreamingPatchParser) (hs : list Hunk) (env : option rstring) : Prop := {
  ready_hunks : hunks (state p) = hs;
  ready_env : environment_id (state p) = env;
  ready_buffer : line_buffer p = [];
  ready_ok : Forall hunk_ok hs;
  ready_mode : mode (state p) ≠ NotStarted ∧ mode (state p) ≠ EndedPatch;
}.

(** Inside an update hunk whose chunks so far are [cs]. *)
Record updating (p : StreamingPatchParser) (hs : list Hunk) (env : option rstring)
    (path : rstring) (mv : option rstring) (cs : list UpdateFileChunk) : Prop := {
  upd_hunks : hunks (state p) = hs ++ [UpdateFile path mv cs];
  upd_env : environment_id (state p) = env;
  upd_buffer : line_buffer p = [];
  upd_mode : ∃ n, mode (state p) = ModeUpdateFile n;
}.

Lemma feed_app p a b : feed p (a ++ b) = (p' ← feed p a; feed p' b).
Proof.
  revert p. induction a as [|l a IH]; intros p; simpl; [done|].
  destruct (process_line _ l) as [p' [| |]]; simpl; auto.
Qed.

(** *** Headers *)

Lemma strip_prefix_head_ne p s a :
  head p = Some a → head s ≠ Some a → strip_prefix p s = None.
Proof.
  intros Hp Hs. apply strip_prefix_None. intros r ->.
  destruct p; simplify_eq/=.
Qed.

Lemma not_header p l : head l ≠ Some 42%N → handle_hunk_headers_and_end_patch p l = (p, Ok false).
Proof.
  intros Hl. unfold handle_hunk_headers_and_end_patch, handle_headers_only.
  rewrite !(strip_prefix_head_ne _ l 42) by done.
  rewrite decide_False by (by intros ->). by destruct (mode _).
Qed.

Lemma marker_trim m f :
  name_ok f → (∃ c, head m = Some c ∧ is_whitespace c = false) →
  trim_end (m ++ f) = m ++ f ∧ trim (m ++ f) = m ++ f.
Proof.
  intros [_ (c & Hc & Hw)] (d & Hd & Hdw).
  assert (∀ c', last (m ++ f) = Some c' → is_whitespace c' = false) as Hl.
  { intros c'. rewrite last_app, Hc. naive_solver. }
  split; [by apply trim_end_id|]. apply trim_id; [|done].
  intros c'. destruct m; simplify_eq/=. naive_solver.
Qed.

Lemma ensure_ready p hs env line :
  ready p hs env → ensure_update_hunk_is_not_empty p line = Ok tt.
Proof.
  intros [Hh _ _ Hok _]. unfold ensure_update_hunk_is_not_empty. rewrite Hh.
  destruct (last hs) as [[]|] eqn:E; try done.
  apply last_Some in E as [hs' ->]. apply Forall_app in Hok as [_ [[Hne Hok] _]%Forall_cons].
  destruct chunks as [|c0 cs0] using rev_ind; [done|].
  apply Forall_app in Hok as [_ [[_ Hc] _]%Forall_cons].
  unfold last_chunk_is_empty. rewrite last_snoc, Hc.
  by destruct (cs0 ++ [c0]) eqn:E; [destruct cs0|].
Qed.

(** A line that is a header in every mode between hunks. *)
Lemma header_line p hs env l p' :
  ready p hs env → trim_end l = l → trim l = l → strip_prefix ENVIRONMENT_ID_MARKER l = None →
  handle_headers_only (bump_line_number p) l = (p', Ok true) →
  process_line (bump_line_number p) l = (p', Ok tt).
Proof.
  intros [_ _ _ _ [Hm1 Hm2]] Ht1 Ht2 Henv Hh. unfold process_line.
  destruct (mode (state (bump_line_number p))) as [| | | |n|] eqn:Hm; try done.
  all: unfold process_started_patch, process_add_file, process_delete_file, process_update_file,
    or_header, handle_hunk_headers_and_end_patch; rewrite ?Ht1, ?Ht2, Hm, ?Henv, Hh; done.
Qed.

Lemma ready_bump p hs env : ready p hs env → ready (bump_line_number p) hs env.
Proof. by intros []. Qed.

Lemma after_ensure_ready p hs env l next :
  ready p hs env → after_ensure (bump_line_number p) l next = (next, Ok true).
Proof.
  intros H. unfold after_ensure. by rewrite (ensure_ready _ hs env) by by apply ready_bump.
Qed.

Lemma feed_add_header p hs env path :
  ready p hs env → name_ok path →
  process_line (bump_line_number p) (ADD_FILE_MARKER ++ path) =
  (with_mode (push_hunk (bump_line_number p) (AddFile path [])) ModeAddFile, Ok tt).
Proof.
  intros Hp Hn. destruct (marker_trim ADD_FILE_MARKER path) as [H1 H2]; [done|by eexists; vm_compute|].
  eapply header_line; [done|done|done|by vm_compute|]. unfold handle_headers_only.
  rewrite decide_False by (by vm_compute). rewrite strip_prefix_app. by eapply after_ensure_ready.
Qed.

Lemma feed_delete_header p hs env path :
  ready p hs env → name_ok path →
  process_line (bump_line_number p) (DELETE_FILE_MARKER ++ path) =
  (with_mode (push_hunk (bump_line_number p) (DeleteFile path)) ModeDeleteFile, Ok tt).
Proof.
  intros Hp Hn. destruct (marker_trim DELETE_FILE_MARKER path) as [H1 H2]; [done|by eexists; vm_compute|].
  eapply header_line; [done|done|done|by vm_compute|]. unfold handle_headers_only.
  rewrite decide_False by (by vm_compute).
  replace (strip_prefix ADD_FILE_MARKER (DELETE_FILE_MARKER ++ path)) with (@None rstring) by by vm_compute.
  rewrite strip_prefix_app. by eapply after_ensure_ready.
Qed.

Lemma feed_update_header p hs env path :
  ready p hs env → name_ok path →
  process_line (bump_line_number p) (UPDATE_FILE_MARKER ++ path) =
  (with_mode (push_hunk (bump_line_number p) (UpdateFile path None []))
     (ModeUpdateFile (line_number (bump_line_number p))), Ok tt).
Proof.
  intros Hp Hn. destruct (marker_trim UPDATE_FILE_MARKER path) as [H1 H2]; [done|by eexists; vm_compute|].
  eapply header_line; [done|done|done|by vm_compute|]. unfold handle_headers_only.
  rewrite decide_False by (by vm_compute).
  replace (strip_prefix ADD_FILE_MARKER (UPDATE_FILE_MARKER ++ path)) with (@None rstring) by by vm_compute.
  replace (strip_prefix DELETE_FILE_MARKER (UPDATE_FILE_MARKER ++ path)) with (@None rstring) by by vm_compute.
  rewrite strip_prefix_app. by eapply after_ensure_ready.
Qed.

(** *** Added files *)

Lemma feed_add_lines p hs env path c ls :
  Forall clean_line ls → mode (state p) = ModeAddFile →
  hunks (state p) = hs ++ [AddFile path c] → environment_id (state p) = env →
  line_buffer p = [] → Forall hunk_ok hs →
  ∃ p', feed p ((λ l, str "+" ++ l) <$> ls) = Some p' ∧
    ready p' (hs ++ [AddFile path (c ++ concat ((λ l, l ++ [LF]) <$> ls))]) env.
Proof.
  intros Hls. revert p c. induction Hls as [|l ls Hl _ IH]; intros p c Hm Hh He Hb Hok.
  { exists p. split; [done|]. simpl. split; try done; [by rewrite app_nil_r| |by rewrite Hm].
    apply Forall_app. split; [done|]. by apply Forall_singleton. }
  rewrite !fmap_cons. cbn [feed concat].
  assert (process_line (bump_line_number p) (str "+" ++ l) =
    (with_hunks (bump_line_number p) (hs ++ [AddFile path (c ++ l ++ [LF])]), Ok tt)) as ->.
  { unfold process_line. simpl. rewrite Hm. unfold process_add_file, or_header.
    rewrite not_header.
    - rewrite strip_prefix_app. simpl. by rewrite Hh, last_snoc, set_last_snoc.
    - unfold trim, trim_start. change (str "+" ++ l) with (43%N :: l).
      rewrite trim_start_matches_id by (by intros ? [= <-]).
      by destruct (trim_end_cons 43%N l) as [->|[r ->]]. }
  destruct (IH (with_hunks (bump_line_number p) (hs ++ [AddFile path (c ++ l ++ [LF])]))
              (c ++ l ++ [LF])) as (p' & Hf & Hr); try done.
  exists p'. split; [done|]. by rewrite <-!app_assoc in *.
Qed.

(** *** Update chunks *)

Lemma render_change_cons cl :
  ∃ c, render_change cl = c :: change_text cl ∧ (c = 32 ∨ c = 43 ∨ c = 45)%N.
Proof. destruct cl; eexists; (split; [reflexivity|naive_solver]). Qed.

Lemma is_context_marker_head l : head l ≠ Some 64%N → is_context_marker l = false.
Proof.
  intros Hl. unfold is_context_marker, starts_with.
  rewrite (strip_prefix_head_ne _ l 64) by done.
  rewrite bool_decide_false by (by intros ->). by rewrite bool_decide_false by (by intros []).
Qed.

Definition last_not_eof (cs : list UpdateFileChunk) : Prop :=
  ∀ c, last cs = Some c → is_end_of_file c = false.

Lemma update_hunk_line_change cl n mv cs :
  last_not_eof cs →
  update_hunk_line (render_change cl) n mv cs =
  Ok (Some (mv, change_last_chunk (λ c, push_change c cl) cs)).
Proof.
  intros Heof. unfold update_hunk_line.
  assert (match last cs with Some c => is_end_of_file c | None => false end = false) as ->.
  { destruct (last cs) eqn:E; [|done]. by apply Heof. }
  destruct (render_change_cons cl) as (c & E & Hc).
  assert (head (trim_end (render_change cl)) ≠ Some 42%N ∧
          head (trim_end (render_change cl)) ≠ Some 64%N) as [H1 H2].
  { rewrite E. destruct (trim_end_cons c (change_text cl)) as [->|[r ->]]; naive_solver. }
  cbn [andb]. rewrite is_context_marker_head by done.
  rewrite !(strip_prefix_head_ne _ (trim_end _) 42), (strip_prefix_head_ne _ (trim_end _) 64) by done.
  rewrite !decide_False by (intros Ht; rewrite Ht in *; done).
  rewrite E. replace (if _ && _ then None else None) with (@None rstring) by by case_match.
  destruct cl; injection E as <-; reflexivity.
Qed.

Lemma update_hunk_line_header h n mv cs :
  last_chunk_is_empty cs = false → (∀ x, h = Some x → name_ok x) →
  ∀ l, render_header (Some h) = [l] →
  update_hunk_line l n mv cs = Ok (Some (mv, cs ++ [header_chunk (Some h)])).
Proof.
  intros Hl Hh l Heq.
  assert (trim_end l = l ∧ is_context_marker l = true ∧ head l = Some 64%N) as (Ht & Hm & Ha).
  { destruct h as [x|]; injection Heq as <-; [|by vm_compute].
    split; [by apply marker_trim; [apply Hh|eexists]|].
    split; [|done]. eapply is_context_marker_prefix, strip_prefix_app. }
  unfold update_hunk_line. rewrite Ht, Hm, Hl, andb_false_r.
  rewrite (bool_decide_false (l = [])) by (by intros ->). rewrite andb_false_r.
  rewrite (strip_prefix_head_ne _ l 42) by (rewrite ?Ha; done).
  replace (if _ && _ then None else None) with (@None rstring) by by case_match.
  cbn [andb]. destruct h as [x|]; injection Heq as <-.
  - rewrite decide_False by (by vm_compute). by rewrite strip_prefix_app.
  - by rewrite decide_True.
Qed.

Lemma update_hunk_line_eof n mv cs c :
  is_end_of_file c = false → chunk_is_empty c = false →
  update_hunk_line EOF_MARKER n mv (cs ++ [c]) = Ok (Some (mv, cs ++ [mark_end_of_file c])).
Proof.
  intros He Hc. unfold update_hunk_line, last_chunk_is_empty.
  rewrite last_snoc, set_last_snoc, He, Hc. cbn [andb].
  rewrite (bool_decide_false (cs ++ [c] = [])) by (by destruct cs). cbn [andb].
  by replace (is_context_marker (trim_end EOF_MARKER)) with false by by vm_compute.
Qed.

Lemma update_hunk_line_move d n :
  name_ok d → update_hunk_line (MOVE_TO_MARKER ++ d) n None [] = Ok (Some (Some d, [])).
Proof.
  intros Hd. destruct (marker_trim MOVE_TO_MARKER d) as [H1 _]; [done|by eexists; vm_compute|].
  unfold update_hunk_line. rewrite H1. cbn [last andb].
  by rewrite !bool_decide_true, strip_prefix_app.
Qed.

(** One line of an update hunk through [process_line]. *)
Lemma feed_update_line p hs env path mv cs l mv' cs' :
  updating p hs env path mv cs → head (trim_end l) ≠ Some 42%N ∨ l = EOF_MARKER ∨
    (∃ d, l = MOVE_TO_MARKER ++ d ∧ name_ok d) →
  update_hunk_line l (line_number (bump_line_number p)) mv cs = Ok (Some (mv', cs')) →
  ∃ p', feed p [l] = Some p' ∧ updating p' hs env path mv' cs'.
Proof.
  intros [Hh He Hb [n Hm]] Hl Hu. cbn [feed].
  assert (handle_hunk_headers_and_end_patch (bump_line_number p) (trim_end l) =
          (bump_line_number p, Ok false)) as Hhead.
  { destruct Hl as [Hl|[->|(d & -> & Hd)]]; [by apply not_header| |].
    - unfold handle_hunk_headers_and_end_patch. simpl. by rewrite Hm.
    - destruct (marker_trim MOVE_TO_MARKER d) as [-> _]; [done|by eexists; vm_compute|].
      unfold handle_hunk_headers_and_end_patch. simpl. by rewrite Hm. }
  unfold process_line. simpl. rewrite Hm. unfold process_update_file, or_header.
  rewrite Hhead. simpl. rewrite Hh, last_snoc. simpl in Hu. rewrite Hu.
  eexists. split; [done|]. split; simpl; eauto. by rewrite set_last_snoc.
Qed.

Lemma change_last_chunk_snoc f cs c : change_last_chunk f (cs ++ [c]) = cs ++ [f c].
Proof.
  unfold change_last_chunk. destruct (cs ++ [c]) eqn:E; [by destruct cs|].
  by rewrite <-E, last_snoc, set_last_snoc.
Qed.

Lemma push_change_nonempty c l : chunk_is_empty (push_change c l) = false.
Proof.
  unfold chunk_is_empty. apply andb_false_iff.
  destruct l; simpl; [left|right|left]; rewrite bool_decide_eq_false;
    by intros [_ [=]]%app_nil.
Qed.

Lemma push_change_eof c l : is_end_of_file (push_change c l) = is_end_of_file c.
Proof. by destruct l. Qed.

Lemma push_change_wf c l : chunk_wf c → chunk_wf (push_change c l).
Proof. destruct l; simpl; auto with hexa. Qed.

Lemma foldl_push_change_wf body c : chunk_wf c → chunk_wf (foldl push_change c body).
Proof. revert c. induction body; simpl; auto using push_change_wf. Qed.

Lemma foldl_push_change_eof body c :
  is_end_of_file (foldl push_change c body) = is_end_of_file c.
Proof. revert c. induction body as [|l body IH]; intros c; simpl; [done|]. by rewrite IH, push_change_eof. Qed.

Lemma foldl_push_change_nonempty body c :
  body ≠ [] → chunk_is_empty (foldl push_change c body) = false.
Proof.
  destruct body as [|l body _] using rev_ind; [done|].
  intros _. rewrite foldl_snoc. apply push_change_nonempty.
Qed.

Lemma denote_chunk_ok c : chunk_ast_ok c → chunk_ok (denote_chunk c).
Proof.
  intros [_ Hb _]. unfold denote_chunk. split.
  - destruct (ca_eof c); [apply mark_end_of_file_wf|];
      apply foldl_push_change_wf; by apply chunk_wf_no_context.
  - pose proof (foldl_push_change_nonempty _ (header_chunk (ca_header c)) Hb).
    by destruct (ca_eof c).
Qed.

(** The lines of a chunk after its first. *)
Lemma feed_body p hs env path mv cs c body :
  updating p hs env path mv (cs ++ [c]) → is_end_of_file c = false →
  ∃ p', feed p (render_change <$> body) = Some p' ∧
    updating p' hs env path mv (cs ++ [foldl push_change c body]).
Proof.
  revert p c. induction body as [|l body IH]; intros p c Hu He; [by exists p|].
  destruct (feed_update_line p hs env path mv (cs ++ [c]) (render_change l) mv
    (cs ++ [push_change c l])) as (p1 & Hf & Hu1); [done| | |].
  - left. destruct (render_change_cons l) as (ch & E & Hch). rewrite E.
    destruct (trim_end_cons ch (change_text l)) as [->|[r ->]]; naive_solver.
  - rewrite update_hunk_line_change, change_last_chunk_snoc; [done|].
    intros c'. rewrite last_snoc. naive_solver.
  - destruct (IH p1 (push_change c l)) as (p2 & Hf2 & Hu2); [done|by rewrite push_change_eof|].
    exists p2. split; [|done].
    change (render_change <$> l :: body) with ([render_change l] ++ (render_change <$> body)).
    by rewrite feed_app, Hf.
Qed.

(** The first line of a chunk: its header, or a change of a first chunk. *)
Lemma feed_chunk_start p hs env path mv cs c :
  updating p hs env path mv cs → last_chunk_is_empty cs = false →
  chunk_ast_ok c → (ca_header c = None → cs = []) →
  ∃ p' body, feed p (render_header (ca_header c) ++ (render_change <$> ca_body c)) =
      feed p' (render_change <$> body) ∧
    ∃ c0, updating p' hs env path mv (cs ++ [c0]) ∧ is_end_of_file c0 = false ∧
      foldl push_change c0 body = foldl push_change (header_chunk (ca_header c)) (ca_body c).
Proof.
  intros Hu Hl Hc Hfirst. destruct (ca_header c) as [h|] eqn:Eh.
  - assert (∃ l, render_header (Some h) = [l] ∧ head (trim_end l) ≠ Some 42%N) as (l & El & Hl42).
    { destruct h as [x|]; eexists; split; [reflexivity| |reflexivity|by vm_compute].
      destruct (marker_trim CHANGE_CONTEXT_MARKER x) as [-> _];
        [by eapply cao_header|by eexists; vm_compute|by vm_compute]. }
    destruct (feed_update_line p hs env path mv cs l mv (cs ++ [header_chunk (Some h)]))
      as (p1 & Hf & Hu1); [done|by left| |].
    { apply update_hunk_line_header; [done| |done]. intros x ->. by eapply cao_header. }
    exists p1, (ca_body c). rewrite El, feed_app, Hf. split; [done|]. eauto.
  - rewrite (Hfirst eq_refl) in *. destruct (ca_body c) as [|l body] eqn:Eb.
    { by destruct (cao_body _ Hc). }
    destruct (feed_update_line p hs env path mv [] (render_change l) mv
      ([] ++ [push_change default_chunk l])) as (p1 & Hf & Hu1); [done| | |].
    + left. destruct (render_change_cons l) as (ch & E & Hch). rewrite E.
      destruct (trim_end_cons ch (change_text l)) as [->|[r ->]]; naive_solver.
    + by rewrite update_hunk_line_change.
    + exists p1, body. rewrite app_nil_l, fmap_cons.
      change (render_change l :: ?x) with ([render_change l] ++ x). rewrite feed_app, Hf.
      split; [done|]. exists (push_change default_chunk l).
      split_and!; [done|by rewrite push_change_eof|done].
Qed.

Lemma feed_chunk p hs env path mv cs c :
  updating p hs env path mv cs → last_chunk_is_empty cs = false →
  chunk_ast_ok c → (ca_header c = None → cs = []) →
  ∃ p', feed p (render_chunk c) = Some p' ∧
    updating p' hs env path mv (cs ++ [denote_chunk c]) ∧
    last_chunk_is_empty (cs ++ [denote_chunk c]) = false.
Proof.
  intros Hu Hl Hc Hfirst.
  destruct (feed_chunk_start p hs env path mv cs c) as (p1 & body & Hf & c0 & Hu1 & He & Hd); [done..|].
  destruct (feed_body p1 hs env path mv cs c0 body) as (p2 & Hf2 & Hu2); [done..|].
  assert (last_chunk_is_empty (cs ++ [denote_chunk c]) = false) as Hle.
  { unfold last_chunk_is_empty. rewrite last_snoc. by apply denote_chunk_ok. }
  unfold render_chunk, denote_chunk in *. rewrite Hd in *.
  rewrite app_assoc, feed_app, Hf, Hf2. cbn [mbind option_bind].
  destruct (ca_eof c); [|by exists p2].
  destruct (feed_update_line p2 hs env path mv (cs ++ [foldl push_change (header_chunk (ca_header c)) (ca_body c)])
    EOF_MARKER mv (cs ++ [mark_end_of_file (foldl push_change (header_chunk (ca_header c)) (ca_body c))]))
    as (p3 & Hf3 & Hu3); [done|naive_solver| |by exists p3].
  apply update_hunk_line_eof; [by rewrite foldl_push_change_eof|].
  apply foldl_push_change_nonempty, Hc.
Qed.

Lemma feed_chunks p hs env path mv cs acs :
  updating p hs env path mv cs → last_chunk_is_empty cs = false →
  Forall chunk_ast_ok acs →
  (∀ c, head acs = Some c → ca_header c = None → cs = []) →
  Forall (λ c, ca_header c ≠ None) (tail acs) →
  ∃ p', feed p (concat (render_chunk <$> acs)) = Some p' ∧
    updating p' hs env path mv (cs ++ (denote_chunk <$> acs)).
Proof.
  intros Hu Hl Hacs. revert p cs Hu Hl.
  induction Hacs as [|c acs Hc Hacs IH]; intros p cs Hu Hl Hfirst Htl.
  { exists p. split; [done|]. simpl. by rewrite app_nil_r. }
  destruct (feed_chunk p hs env path mv cs c) as (p1 & Hf & Hu1 & Hl1); [done..|by apply Hfirst|].
  destruct (IH p1 (cs ++ [denote_chunk c])) as (p2 & Hf2 & Hu2); [done|done| | |].
  - intros c' Hc' Hn. simpl in Htl. destruct acs; simplify_eq/=. by apply Forall_cons in Htl as [??].
  - simpl in Htl. destruct acs; simpl; [done|]. by apply Forall_cons in Htl as [??].
  - exists p2. rewrite fmap_cons. cbn [concat]. rewrite feed_app, Hf. split; [done|].
    rewrite fmap_cons. by rewrite <-app_assoc in Hu2.
Qed.

Lemma updating_ready p hs env path mv cs :
  updating p hs env path mv cs → Forall hunk_ok hs → cs ≠ [] → Forall chunk_ok cs →
  ready p (hs ++ [UpdateFile path mv cs]) env.
Proof.
  intros [Hh He Hb [n Hm]] Hok Hne Hcs. split; try done; [|by rewrite Hm].
  apply Forall_app. split; [done|]. by apply Forall_singleton.
Qed.

Lemma feed_update p hs env path mv acs :
  ready p hs env → hunk_ast_ok (AUpdate path mv acs) →
  ∃ p', feed p (render_hunk (AUpdate path mv acs)) = Some p' ∧
    ready p' (hs ++ [denote_hunk (AUpdate path mv acs)]) env.
Proof.
  intros Hp (Hn & Hmv & Hne & Hacs & Htl). unfold render_hunk. cbn [feed].
  rewrite (feed_update_header p hs env) by done.
  set (p0 := with_mode _ _).
  assert (updating p0 hs env path None []) as Hu0.
  { destruct Hp as [Hh He Hb _ _]. split; try done; [simpl; by rewrite Hh|by eexists]. }
  rewrite feed_app.
  assert (∃ p1, feed p0 (match mv with Some d => [MOVE_TO_MARKER ++ d] | None => [] end) = Some p1
    ∧ updating p1 hs env path mv []) as (p1 & -> & Hu1).
  { destruct mv as [d|]; [|by exists p0].
    apply (feed_update_line p0 hs env path None []); [done|right; right; by eauto|].
    by apply update_hunk_line_move, Hmv. }
  destruct (feed_chunks p1 hs env path mv [] acs) as (p2 & Hf & Hu2); [done..|].
  exists p2. split; [done|]. apply updating_ready; [done|by apply Hp|by destruct acs|].
  apply Forall_fmap. eapply Forall_impl; [done|]. apply denote_chunk_ok.
Qed.

Lemma feed_hunk p hs env h :
  ready p hs env → hunk_ast_ok h →
  ∃ p', feed p (render_hunk h) = Some p' ∧ ready p' (hs ++ [denote_hunk h]) env.
Proof.
  intros Hp Hh. destruct h as [path ls|path|path mv acs]; [| |by apply feed_update].
  - destruct Hh as [Hn Hls]. unfold render_hunk. cbn [feed].
    rewrite (feed_add_header p hs env) by done. destruct Hp as [Hhs He Hb Hok _].
    apply (feed_add_lines _ hs env path []); try done. simpl. by rewrite Hhs.
  - unfold render_hunk. cbn [feed]. rewrite (feed_delete_header p hs env) by done.
    eexists. split; [done|]. destruct Hp as [Hhs He Hb Hok _].
    split; simpl; try done; [by rewrite Hhs|].
    apply Forall_app. split; [done|]. by apply Forall_singleton.
Qed.

Lemma feed_hunks p hs env ahs :
  ready p hs env → Forall hunk_ast_ok ahs →
  ∃ p', feed p (concat (render_hunk <$> ahs)) = Some p' ∧ ready p' (hs ++ (denote_hunk <$> ahs)) env.
Proof.
  intros Hp Hahs. revert p hs Hp. induction Hahs as [|h ahs Hh _ IH]; intros p hs Hp.
  { exists p. split; [done|]. simpl. by rewrite app_nil_r. }
  rewrite !fmap_cons. cbn [concat]. destruct (feed_hunk p hs env h) as (p1 & Hf & Hp1); [done..|].
  destruct (IH _ _ Hp1) as (p2 & Hf2 & Hp2). exists p2. rewrite feed_app, Hf.
  split; [done|]. by rewrite <-app_assoc in Hp2.
Qed.

Lemma feed_environment p e :
  mode (state p) = StartedPatch → environment_id (state p) = None →
  name_ok e → trim e = e →
  process_line (bump_line_number p) (ENVIRONMENT_ID_MARKER ++ str " " ++ e) =
  (with_environment_id (bump_line_number p) e, Ok tt).
Proof.
  intros Hm He Hn Ht. unfold process_line. simpl. rewrite Hm.
  unfold process_started_patch, or_header, handle_hunk_headers_and_end_patch. simpl. rewrite Hm.
  rewrite app_assoc. destruct (marker_trim (ENVIRONMENT_ID_MARKER ++ str " ") e) as [_ ->];
    [done|by eexists; vm_compute|].
  rewrite <-app_assoc, strip_prefix_app. unfold handle_environment_id. simpl. rewrite He.
  assert (trim (str " " ++ e) = e) as -> by done.
  rewrite decide_False; [done|]. intros ->. by destruct Hn as [_ (c & ? & _)].
Qed.

Lemma feed_patch p :
  patch_ast_ok p →
  ∃ s, feed parser_default (render_patch p) = Some s ∧
    ready s (denote_hunk <$> pa_hunks p) (pa_environment p).
Proof.
  intros [He Hh]. unfold render_patch. cbn [feed].
  replace (process_line (bump_line_number parser_default) BEGIN_PATCH_MARKER)
    with (with_mode (bump_line_number parser_default) StartedPatch, @Ok ParseError unit tt)
    by by vm_compute.
  set (p0 := with_mode _ _). rewrite feed_app.
  assert (∃ s, feed p0 (match pa_environment p with
      | Some e => [ENVIRONMENT_ID_MARKER ++ str " " ++ e] | None => [] end) = Some s ∧
      ready s [] (pa_environment p)) as (s & -> & Hs).
  { destruct (pa_environment p) as [e|]; [|by exists p0].
    destruct (He e) as [??]; [done|]. cbn [feed]. rewrite feed_environment by done. by eexists. }
  apply (feed_hunks s []); done.
Qed.

(** *** From lines to text *)

Lemma headers_buffer p l : line_buffer (handle_hunk_headers_and_end_patch p l).1 = line_buffer p.
Proof.
  unfold handle_hunk_headers_and_end_patch, handle_headers_only, after_ensure, handle_environment_id.
  repeat split_match; done.
Qed.

Lemma or_header_buffer p l k :
  (∀ p', line_buffer (k p').1 = line_buffer p') → line_buffer (or_header p l k).1 = line_buffer p.
Proof.
  intros Hk. unfold or_header. pose proof (headers_buffer p l) as Hb.
  destruct (handle_hunk_headers_and_end_patch p l) as [p' [[]| |]]; simpl in *; auto.
  by rewrite Hk.
Qed.

Lemma process_line_buffer p l : line_buffer (process_line p l).1 = line_buffer p.
Proof.
  unfold process_line, process_not_started, process_started_patch, process_add_file,
    process_delete_file, process_update_file, process_ended_patch.
  destruct (mode (state p)); try (apply or_header_buffer; intros p'); repeat split_match; done.
Qed.

Lemma push_delta_buffer p l s :
  LF ∉ l → push_delta p (l ++ s) = push_delta (with_line_buffer p (line_buffer p ++ l)) s.
Proof.
  revert p. induction l as [|c l IH]; intros p Hl; simpl.
  { rewrite app_nil_r. by destruct p. }
  apply not_elem_of_cons in Hl as [Hc Hl]. unfold push_char.
  destruct (N.eqb_spec c LF); [done|]. rewrite IH by done. simpl. by rewrite <-app_assoc.
Qed.

Lemma push_delta_line p l s :
  line_buffer p = [] → clean_line l →
  push_delta p (l ++ (LF :: s)) =
  match process_line (bump_line_number p) l with
  | (p', Ok _) => push_delta p' s
  | (p', Err e) => (p', Err e)
  | (p', Panic) => (p', Panic)
  end.
Proof.
  intros Hb [Hlf Hcr]. rewrite push_delta_buffer by done. cbn [push_delta].
  unfold push_char. rewrite N.eqb_refl. simpl. rewrite Hb, app_nil_l, strip_suffix_CR by done.
  destruct p; simpl in *; subst. done.
Qed.

Lemma push_delta_feed p ls p' l :
  line_buffer p = [] → Forall clean_line ls → LF ∉ l → feed p ls = Some p' →
  push_delta p (join [LF] (ls ++ [l])) = (with_line_buffer p' l, Ok (hunks (state p'))).
Proof.
  intros Hb Hls Hl. revert p Hb. induction Hls as [|l0 ls Hl0 _ IH]; intros p Hb Hf.
  - simplify_eq/=. rewrite <-(app_nil_r l) at 1. rewrite push_delta_buffer by done.
    simpl. by rewrite Hb.
  - cbn [app]. rewrite join_cons by (by destruct ls).
    change (l0 ++ [LF] ++ ?x) with (l0 ++ (LF :: x)). rewrite push_delta_line by done.
    cbn [feed] in Hf. pose proof (process_line_buffer (bump_line_number p) l0) as Hb'.
    destruct (process_line _ l0) as [p1 [[]| |]]; try done. apply IH; [|done]. simpl in Hb'. by rewrite Hb'.
Qed.

Lemma finish_ready p hs env :
  ready p hs env →
  finish (with_line_buffer p END_PATCH_MARKER) = (with_mode (bump_line_number p) EndedPatch, Ok hs).
Proof.
  intros Hp. unfold finish, finish_line.
  assert (bump_line_number (with_line_buffer (with_line_buffer p END_PATCH_MARKER) []) =
    bump_line_number p) as Hq.
  { destruct p as [b s n]. by rewrite <-(ready_buffer _ _ _ Hp). }
  change (line_buffer (with_line_buffer p END_PATCH_MARKER)) with END_PATCH_MARKER.
  destruct END_PATCH_MARKER eqn:E; [by vm_compute in E|]. rewrite <-E in *. rewrite Hq.
  rewrite decide_True by by vm_compute. rewrite (ensure_ready _ hs env) by by apply ready_bump.
  simpl. by rewrite (ready_hunks _ _ _ Hp).
Qed.

(** *** Rendered lines are clean, and the rendered text has its boundaries *)

Lemma clean_app a b : LF ∉ a → clean_line b → b ≠ [] → clean_line (a ++ b).
Proof.
  intros Ha [Hlf Hcr] Hne. split; [by rewrite elem_of_app; intros [?|?]|].
  rewrite last_app. by destruct (last b) eqn:E; [|apply last_None in E].
Qed.

Lemma name_clean f : name_ok f → clean_line f ∧ f ≠ [].
Proof.
  intros [Hlf (c & Hc & Hw)]. split; [split; [done|]|by intros ->].
  rewrite Hc. by intros [= ->].
Qed.

Lemma marker_clean m f : bool_decide (LF ∉ m) = true → name_ok f → clean_line (m ++ f).
Proof. intros Hm%bool_decide_eq_true [? ?]%name_clean. by apply clean_app. Qed.

Lemma change_clean c l : c ≠ LF → c ≠ CR → clean_line l → clean_line (c :: l).
Proof.
  intros H1 H2 [Hlf Hcr]. split; [by apply not_elem_of_cons|].
  destruct l as [|d l]; [simpl; congruence|done].
Qed.

Lemma render_chunk_clean c : chunk_ast_ok c → Forall clean_line (render_chunk c).
Proof.
  intros [Hh _ Hl]. unfold render_chunk. rewrite !Forall_app. split_and!.
  - destruct (ca_header c) as [[x|]|]; try apply Forall_nil_2; apply Forall_singleton.
    + apply marker_clean; [done|]. by apply Hh.
    + by split; [apply (bool_decide_eq_true_1 (LF ∉ EMPTY_CHANGE_CONTEXT_MARKER))|].
  - apply Forall_fmap. eapply Forall_impl; [done|]. intros l Hcl. simpl.
    destruct (render_change_cons l) as (ch & -> & Hch). apply change_clean; [| |done]; naive_solver.
  - destruct (ca_eof c); [|apply Forall_nil_2]. apply Forall_singleton.
    by split; [apply (bool_decide_eq_true_1 (LF ∉ EOF_MARKER))|].
Qed.

Lemma Forall_concat_fmap {A B} (f : A → list B) (P : A → Prop) (Q : B → Prop) l :
  (∀ x, P x → Forall Q (f x)) → Forall P l → Forall Q (concat (f <$> l)).
Proof. intros H. induction 1; simpl; [done|]. apply Forall_app; auto. Qed.

Lemma render_hunk_clean h : hunk_ast_ok h → Forall clean_line (render_hunk h).
Proof.
  destruct h as [path ls|path|path mv cs]; simpl.
  - intros [Hn Hls]. constructor; [by apply marker_clean|]. apply Forall_fmap.
    eapply Forall_impl; [done|]. intros l Hl. by apply (change_clean 43%N).
  - intros Hn. apply Forall_singleton. by apply marker_clean.
  - intros (Hn & Hmv & _ & Hcs & _). constructor; [by apply marker_clean|].
    apply Forall_app. split.
    + destruct mv as [d|]; [|done]. apply Forall_singleton. apply marker_clean; [done|by apply Hmv].
    + by eapply Forall_concat_fmap; [apply render_chunk_clean|].
Qed.

Lemma render_patch_clean p : patch_ast_ok p → Forall clean_line (render_patch p).
Proof.
  intros [He Hh]. unfold render_patch. constructor.
  { by split; [apply (bool_decide_eq_true_1 (LF ∉ BEGIN_PATCH_MARKER))|]. }
  apply Forall_app. split.
  - destruct (pa_environment p) as [e|]; [|done]. apply Forall_singleton. rewrite app_assoc.
    apply marker_clean; [done|by apply He].
  - by eapply Forall_concat_fmap; [apply render_hunk_clean|].
Qed.

Lemma join_snoc_last ls l c : last l = Some c → last (join [LF] (ls ++ [l])) = Some c.
Proof.
  intros Hl. induction ls as [|l0 ls IH]; [done|].
  cbn [app]. rewrite join_cons by (by destruct ls). by rewrite !last_app, IH.
Qed.

Lemma text_trim ls :
  trim (join [LF] (BEGIN_PATCH_MARKER :: ls ++ [END_PATCH_MARKER])) =
  join [LF] (BEGIN_PATCH_MARKER :: ls ++ [END_PATCH_MARKER]).
Proof.
  apply trim_id.
  - rewrite join_cons by (by destruct ls). by intros c [= <-].
  - rewrite app_comm_cons, (join_snoc_last _ _ 104%N) by done. by intros c [= <-].
Qed.

Lemma end_clean : clean_line END_PATCH_MARKER.
Proof. by split; [apply (bool_decide_eq_true_1 (LF ∉ END_PATCH_MARKER))|]. Qed.

#[local] Hint Resolve end_clean : core.

(** A text between the two markers whose lines are fed one by one. *)
Lemma parse_patch_text_feed ls p :
  Forall clean_line (BEGIN_PATCH_MARKER :: ls) →
  feed parser_default (BEGIN_PATCH_MARKER :: ls) = Some p →
  let text := join [LF] (BEGIN_PATCH_MARKER :: ls ++ [END_PATCH_MARKER]) in
  parse_patch text =
  let '(parser, finished) := finish (with_line_buffer p END_PATCH_MARKER) in
  let? hs := finished in
  Ok {| args_patch := text; args_hunks := hs; args_workdir := None;
        args_environment_id := environment_id (state parser) |}.
Proof.
  intros Hclean Hfeed. cbn zeta. unfold parse_patch, parse_patch_text.
  cbn [PARSE_IN_STRICT_MODE]. rewrite text_trim, app_comm_cons, lines_join by done.
  cbn [app].
  assert (check_patch_boundaries_strict (BEGIN_PATCH_MARKER :: ls ++ [END_PATCH_MARKER]) =
    Ok (BEGIN_PATCH_MARKER :: ls ++ [END_PATCH_MARKER])) as Hb.
  { unfold check_patch_boundaries_strict. rewrite app_comm_cons, last_snoc. by vm_compute. }
  unfold check_patch_boundaries_lenient. rewrite Hb. cbn [res_bind].
  pose proof (push_delta_feed parser_default (BEGIN_PATCH_MARKER :: ls) p END_PATCH_MARKER) as Hd.
  cbn [app] in Hd. rewrite Hd; [done|done|done|apply end_clean|done].
Qed.

(** *** An update hunk without chunks *)

Lemma headers_line_number p l : line_number (handle_hunk_headers_and_end_patch p l).1 = line_number p.
Proof.
  unfold handle_hunk_headers_and_end_patch, handle_headers_only, after_ensure, handle_environment_id.
  repeat split_match; done.
Qed.

Lemma or_header_line_number p l k :
  (∀ p', line_number (k p').1 = line_number p') → line_number (or_header p l k).1 = line_number p.
Proof.
  intros Hk. unfold or_header. pose proof (headers_line_number p l) as Hb.
  destruct (handle_hunk_headers_and_end_patch p l) as [p' [[]| |]]; simpl in *; auto.
  by rewrite Hk.
Qed.

Lemma process_line_number p l : line_number (process_line p l).1 = line_number p.
Proof.
  unfold process_line, process_not_started, process_started_patch, process_add_file,
    process_delete_file, process_update_file, process_ended_patch.
  destruct (mode (state p)); try (apply or_header_line_number; intros p'); repeat split_match; done.
Qed.

Lemma feed_line_number p ls p' : feed p ls = Some p' → line_number p' = line_number p + length ls.
Proof.
  revert p. induction ls as [|l ls IH]; intros p; simpl; [intros [= ->]; lia|].
  pose proof (process_line_number (bump_line_number p) l) as Hn.
  destruct (process_line _ l) as [p1 [[]| |]]; try done. intros ->%IH. simpl in *. lia.
Qed.

Lemma feed_empty_update p hs env path :
  ready p hs env → name_ok path →
  ∃ p', feed p [UPDATE_FILE_MARKER ++ path] = Some p' ∧
    finish (with_line_buffer p' END_PATCH_MARKER) =
    (bump_line_number (with_line_buffer p' []),
     Err (InvalidHunkError (msg_empty_update path) (S (line_number p)))).
Proof.
  intros Hp Hn. cbn [feed]. rewrite (feed_update_header p hs env) by done.
  eexists. split; [done|]. unfold finish, finish_line.
  change (line_buffer (with_line_buffer ?p END_PATCH_MARKER)) with END_PATCH_MARKER.
  destruct END_PATCH_MARKER eqn:E; [by vm_compute in E|]. rewrite <-E in *.
  rewrite decide_True by by vm_compute.
  unfold ensure_update_hunk_is_not_empty. simpl. by rewrite last_snoc.
Qed.

(** ** Properties *)

(** C3: the parser accepts a fragment of the documented grammar and means what it says.
    The text of every patch of the grammar in which an update hunk has a chunk, every chunk
    has a change line (so that no context header stands alone or follows another), file names
    and headers do not end in whitespace, and the environment has no whitespace around it,
    parses to the denotation of its hunks and to its environment. *)
Theorem parse_patch_accepts_grammar p :
  patch_ast_ok p →
  parse_patch (render_text p) =
  Ok {| args_patch := render_text p; args_hunks := denote_hunk <$> pa_hunks p;
        args_workdir := None; args_environment_id := pa_environment p |}.
Proof.
  intros Hp. destruct (feed_patch p Hp) as (s & Hf & Hs).
  pose proof (render_patch_clean p Hp) as Hc.
  unfold render_text, render_patch in *. cbn [app] in *.
  rewrite (parse_patch_text_feed _ s), (finish_ready _ _ _ Hs) by done.
  simpl. by rewrite (ready_env _ _ _ Hs).
Qed.

Definition sample_ast : PatchAst :=
  {| pa_environment := Some (str "remote");
     pa_hunks :=
       [AAdd (str "new.txt") [str "hello"; []];
        ADelete (str "old.txt");
        AUpdate (str "a.rs") (Some (str "b.rs"))
          [{| ca_header := None; ca_body := [LContext (str "x"); LRemoved (str "y")]; ca_eof := false |};
           {| ca_header := Some (Some (str "fn f")); ca_body := [LAdded (str "z")]; ca_eof := true |}]] |}.

Ltac solve_name := split; [by apply (bool_decide_eq_true_1 (LF ∉ _))|eexists; by vm_compute].
Ltac solve_clean := split; [by apply (bool_decide_eq_true_1 (LF ∉ _))|done].

Lemma sample_ast_ok : patch_ast_ok sample_ast.
Proof.
  split.
  - intros e [= <-]. split; [solve_name|done].
  - repeat apply Forall_cons_2; try apply Forall_nil_2.
    + split; [solve_name|]. repeat apply Forall_cons_2; try apply Forall_nil_2; solve_clean.
    + solve_name.
    + split; [solve_name|]. split; [intros d [= <-]; solve_name|]. split; [done|].
      split; repeat apply Forall_cons_2; try apply Forall_nil_2; try done.
      * split; [done|done|]. repeat apply Forall_cons_2; try apply Forall_nil_2; solve_clean.
      * split; [intros x [= <-]; solve_name|done|].
        repeat apply Forall_cons_2; try apply Forall_nil_2; solve_clean.
Qed.

Lemma parse_patch_accepts_grammar_witness :
  parse_patch (render_text sample_ast) =
  Ok {| args_patch := render_text sample_ast; args_hunks := denote_hunk <$> pa_hunks sample_ast;
        args_workdir := None; args_environment_id := Some (str "remote") |}.
Proof. apply (parse_patch_accepts_grammar sample_ast sample_ast_ok). Defined.

(** An update hunk without chunks is an error wherever it stands: after any
    complete patch of the grammar, a last hunk that only names a file to update
    (the [change?] of the documented grammar left out) is rejected, with the
    line of its header. *)
Theorem parse_patch_rejects_empty_update p path :
  patch_ast_ok p → name_ok path →
  parse_patch (join [LF] (render_patch p ++ [UPDATE_FILE_MARKER ++ path; END_PATCH_MARKER])) =
  Err (InvalidHunkError (msg_empty_update path) (S (length (render_patch p)))).
Proof.
  intros Hp Hn. destruct (feed_patch p Hp) as (s & Hf & Hs).
  pose proof (feed_line_number _ _ _ Hf) as Hln.
  destruct (feed_empty_update s _ _ path Hs Hn) as (s' & Hf' & Hfin).
  assert (feed parser_default (render_patch p ++ [UPDATE_FILE_MARKER ++ path]) = Some s') as Hf2
    by by rewrite feed_app, Hf.
  assert (Forall clean_line (render_patch p ++ [UPDATE_FILE_MARKER ++ path])) as Hc.
  { apply Forall_app. split; [by apply render_patch_clean|]. apply Forall_singleton.
    by apply marker_clean. }
  unfold render_patch in *. cbn [app] in *.
  change [?a; END_PATCH_MARKER] with ([a] ++ [END_PATCH_MARKER]). rewrite app_assoc.
  rewrite (parse_patch_text_feed _ s'), Hfin by done. simpl in *. by rewrite Hln.
Qed.

Lemma parse_patch_rejects_empty_update_witness :
  parse_patch (join [LF] (render_patch sample_ast ++
    [UPDATE_FILE_MARKER ++ str "c.rs"; END_PATCH_MARKER])) =
  Err (InvalidHunkError (msg_empty_update (str "c.rs")) (S (length (render_patch sample_ast)))).
Proof.
  apply (parse_patch_rejects_empty_update sample_ast (str "c.rs")); [apply sample_ast_ok|solve_name].
Defined.

(** Context headers that follow each other, [( change_context | change_line )+] in the documented
    grammar, are rejected at the second header. *)
Lemma parse_patch_rejects_stacked_headers :
  ∃ m, parse_patch (join [LF] [BEGIN_PATCH_MARKER; UPDATE_FILE_MARKER ++ str "a.rs";
      CHANGE_CONTEXT_MARKER ++ str "class A"; CHANGE_CONTEXT_MARKER ++ str "def f"; str "-x"; str "+y";
      END_PATCH_MARKER]) = Err (InvalidHunkError m 4).
Proof. eexists. by vm_compute. Qed.
