(* ===== verification/SeekSequence.v ===== *)
(** * Locating the lines of a chunk in a file

    [seek_sequence] of [src/engine/apply-patch/src/seek_sequence.rs]: four
    passes over the candidate positions, each more permissive than the one
    before.  Indexing is checked as in Rust, so that the passes return a [res]
    whose [Panic] is an index out of range; [seek_sequence_total] shows there
    is none. *)

From S2P Require Import Prelude RustStr.

(** How an updated file treats line endings ([lib.rs]). *)
Inductive ApplyPatchFileUpdateMode : Type :=
| NormalizeToLf
| PreserveLineEndings.

Global Instance ApplyPatchFileUpdateMode_eq_dec : EqDecision ApplyPatchFileUpdateMode.
Proof. solve_decision. Defined.

(** The last pass's replacement of typographic punctuation by ASCII. *)
Definition normalise_char (c : char) : char :=
  if decide (c ∈ [0x2010; 0x2011; 0x2012; 0x2013; 0x2014; 0x2015; 0x2212]%N) then 45%N
  else if decide (c ∈ [0x2018; 0x2019; 0x201A; 0x201B]%N) then 39%N
  else if decide (c ∈ [0x201C; 0x201D; 0x201E; 0x201F]%N) then DQUOTE
  else if decide (c ∈ [0xA0; 0x2002; 0x2003; 0x2004; 0x2005; 0x2006; 0x2007; 0x2008; 0x2009;
                       0x200A; 0x202F; 0x205F; 0x3000]%N) then SPACE
  else c.

Definition normalise (s : rstring) : rstring := normalise_char <$> trim s.

Section passes.
Context {E : Type}.

(** [lines[i..i + pattern.len()] == *pattern]. *)
Definition exact_at (ls pattern : list rstring) (i : nat) : res E bool :=
  let? s := or_panic (slice ls i (i + length pattern)) in Ok (bool_decide (s = pattern)).

(** The inner loop of the other passes, from the [p_idx]-th line on. *)
Fixpoint loop_at (norm : rstring → rstring) (ls pattern : list rstring) (i : nat) : res E bool :=
  match pattern with
  | [] => Ok true
  | pat :: pattern' =>
      let? l := or_panic (ls !! i) in
      if decide (norm l = norm pat) then loop_at norm ls pattern' (S i) else Ok false
  end.

(** [for i in start..start + n], returning the first position that is [ok]. *)
Fixpoint seek_pass (ok : nat → res E bool) (start n : nat) : res E (option nat) :=
  match n with
  | 0 => Ok None
  | S n' => let? b := ok start in if b : bool then Ok (Some start) else seek_pass ok (S start) n'
  end.

(** A pass, and the next one when it finds nothing. *)
Definition or_pass (m k : res E (option nat)) : res E (option nat) :=
  let? o := m in match o with Some i => Ok (Some i) | None => k end.

Definition search_start (ls pattern : list rstring) (start : nat) (eof : bool)
    (update_file_mode : ApplyPatchFileUpdateMode) : nat :=
  if eof && (length pattern <=? length ls) then
    let eof_start := length ls - length pattern in
    match update_file_mode with
    | NormalizeToLf => eof_start
    | PreserveLineEndings => eof_start `max` start
    end
  else start.

Definition seek_sequence (ls pattern : list rstring) (start : nat) (eof : bool)
    (update_file_mode : ApplyPatchFileUpdateMode) : res E (option nat) :=
  if decide (pattern = []) then Ok (Some start)
  else if decide (length ls < length pattern) then Ok None
  else
    let s := search_start ls pattern start eof update_file_mode in
    let n := S (length ls - length pattern) - s in
    or_pass (seek_pass (exact_at ls pattern) s n)
    (or_pass (seek_pass (loop_at trim_end ls pattern) s n)
    (or_pass (seek_pass (loop_at trim ls pattern) s n)
    (seek_pass (loop_at normalise ls pattern) s n))).

End passes.

(** ** What a match is *)

(** The four relations between a line of the file and a line of the pattern. *)
Definition line_match (k : nat) (l pat : rstring) : Prop :=
  match k with
  | 0 => l = pat
  | 1 => trim_end l = trim_end pat
  | 2 => trim l = trim pat
  | _ => normalise l = normalise pat
  end.

(** The pattern matches the file's lines from [i] on, at strictness [k]. *)
Definition match_at (k : nat) (ls pattern : list rstring) (i : nat) : Prop :=
  i + length pattern ≤ length ls ∧
  Forall2 (line_match k) (take (length pattern) (drop i ls)) pattern.

Global Instance line_match_dec k l pat : Decision (line_match k l pat).
Proof. destruct k as [|[|[]]]; simpl; apply _. Defined.

Global Instance match_at_dec k ls pattern i : Decision (match_at k ls pattern i).
Proof. apply _. Defined.

(** The specification: the strictest relation that matches anywhere at or after
    [s], at its first position. *)
Definition seek_spec (ls pattern : list rstring) (s : nat) (o : option nat) : Prop :=
  match o with
  | Some i => s ≤ i ∧ ∃ k, k ≤ 3 ∧ match_at k ls pattern i ∧
      (∀ j, s ≤ j < i → ¬ match_at k ls pattern j) ∧
      (∀ k' j, k' < k → s ≤ j → ¬ match_at k' ls pattern j)
  | None => ∀ k j, s ≤ j → ¬ match_at k ls pattern j
  end.

(** *** Lemmas *)

Section lemmas.
Context {E : Type}.
Implicit Types (ls pattern : list rstring) (i s n : nat).

Lemma match_at_exact ls pattern i :
  match_at 0 ls pattern i ↔ slice ls i (i + length pattern) = Some pattern.
Proof.
  rewrite slice_Some. unfold match_at. simpl.
  replace (i + length pattern - i) with (length pattern) by lia.
  split.
  - intros [? H]. apply list_eq_Forall2 in H. split_and!; [lia|done|done].
  - intros (_ & ? & H). split; [done|]. rewrite <-H. by apply list_eq_Forall2.
Qed.

Lemma exact_at_ok ls pattern i :
  i + length pattern ≤ length ls →
  exact_at (E := E) ls pattern i = Ok (bool_decide (match_at 0 ls pattern i)).
Proof.
  intros Hi. unfold exact_at, slice. rewrite decide_True by lia. simpl. f_equal.
  apply bool_decide_ext. rewrite match_at_exact, slice_Some.
  replace (i + length pattern - i) with (length pattern) by lia. intuition (done || lia).
Qed.

Lemma loop_at_ok norm ls pattern i :
  i + length pattern ≤ length ls →
  loop_at (E := E) norm ls pattern i =
  Ok (bool_decide (Forall2 (λ l pat, norm l = norm pat) (take (length pattern) (drop i ls)) pattern)).
Proof.
  revert i. induction pattern as [|pat pattern IH]; intros i Hi; simpl in *; [done|].
  destruct (lookup_lt_is_Some_2 ls i) as [l Hl]; [lia|]. rewrite Hl. simpl.
  rewrite (drop_S _ _ _ Hl). simpl. case_decide as Heq.
  - rewrite IH by lia. f_equal. apply bool_decide_ext. rewrite Forall2_cons. naive_solver.
  - rewrite bool_decide_false; [done|]. intros [? _]%Forall2_cons. done.
Qed.

Lemma pass_ok k norm ls pattern i :
  (∀ l pat, line_match k l pat ↔ norm l = norm pat) →
  i + length pattern ≤ length ls →
  loop_at (E := E) norm ls pattern i = Ok (bool_decide (match_at k ls pattern i)).
Proof.
  intros Hk Hi. rewrite loop_at_ok by done. f_equal. apply bool_decide_ext.
  unfold match_at. split.
  - intros H. split; [done|]. eapply Forall2_impl; [done|]. intros. by apply Hk.
  - intros [_ H]. eapply Forall2_impl; [done|]. intros. by apply Hk.
Qed.

(** The first position of a pass. *)
Definition first_spec (P : nat → Prop) (s n : nat) (o : option nat) : Prop :=
  match o with
  | Some i => s ≤ i < s + n ∧ P i ∧ ∀ j, s ≤ j < i → ¬ P j
  | None => ∀ j, s ≤ j < s + n → ¬ P j
  end.

Lemma seek_pass_ok (P : nat → Prop) `{∀ i, Decision (P i)} ok s n :
  (∀ i, s ≤ i < s + n → ok i = Ok (bool_decide (P i))) →
  ∃ o, seek_pass (E := E) ok s n = Ok o ∧ first_spec P s n o.
Proof.
  revert s. induction n as [|n IH]; intros s Hok; simpl.
  { exists None. split; [done|]. intros j ?. lia. }
  rewrite Hok by lia. simpl. case_bool_decide as Hs.
  { exists (Some s). split; [done|]. split_and!; [lia|lia|done|]. intros; lia. }
  destruct (IH (S s)) as ([i|] & -> & Ho); [intros; apply Hok; lia| |].
  - exists (Some i). destruct Ho as (? & ? & Hmin). split; [done|]. split_and!; [lia|lia|done|].
    intros j ?. destruct (decide (j = s)) as [->|]; [done|]. apply Hmin. lia.
  - exists None. split; [done|]. intros j ?.
    destruct (decide (j = s)) as [->|]; [done|]. apply Ho. lia.
Qed.

(** The passes at and above strictness [k]. *)
Definition spec_from (k : nat) (ls pattern : list rstring) (s : nat) (o : option nat) : Prop :=
  (∀ k' j, k' < k → s ≤ j → ¬ match_at k' ls pattern j) → seek_spec ls pattern s o.

Lemma match_at_bound k ls pattern j s :
  s ≤ j → match_at k ls pattern j → s ≤ j < s + (S (length ls - length pattern) - s).
Proof. intros ? [? _]. lia. Qed.

Lemma or_pass_spec k ls pattern s ok m :
  length pattern ≤ length ls → k ≤ 3 →
  (∀ i, i + length pattern ≤ length ls → ok i = Ok (bool_decide (match_at k ls pattern i))) →
  (∃ o, m = Ok o ∧ spec_from (S k) ls pattern s o) →
  ∃ o, or_pass (E := E) (seek_pass ok s (S (length ls - length pattern) - s)) m = Ok o ∧
    spec_from k ls pattern s o.
Proof.
  intros Hlen Hk Hok (o' & -> & Ho').
  destruct (seek_pass_ok (match_at k ls pattern) ok s (S (length ls - length pattern) - s))
    as (o & Heq & Ho); [intros; apply Hok; lia|]. rewrite Heq. unfold or_pass. simpl.
  destruct o as [i|].
  - exists (Some i). split; [done|]. intros Hlow. destruct Ho as (? & ? & ?).
    split; [lia|]. exists k. auto.
  - exists o'. split; [done|]. intros Hlow. apply Ho'. intros k' j ? Hj Hm.
    destruct (decide (k' = k)) as [->|]; [|by apply (Hlow k' j); [lia|..]].
    by apply (Ho j); [eapply match_at_bound|].
Qed.

Lemma match_at_3 k ls pattern i : 3 ≤ k → match_at k ls pattern i ↔ match_at 3 ls pattern i.
Proof. by destruct k as [|[|[|]]]; try lia. Qed.

Lemma seek_sequence_ok ls pattern start eof mode :
  pattern ≠ [] →
  ∃ o, seek_sequence (E := E) ls pattern start eof mode = Ok o ∧
    seek_spec ls pattern (search_start ls pattern start eof mode) o.
Proof.
  intros Hne. unfold seek_sequence. rewrite decide_False by done.
  case_decide as Hlen.
  { exists None. split; [done|]. intros k j _ [? _]. lia. }
  set (s := search_start _ _ _ _ _). cbn zeta.
  cut (∃ o, or_pass (E := E) (seek_pass (loop_at normalise ls pattern) s
        (S (length ls - length pattern) - s)) (Ok None) = Ok o ∧ spec_from 3 ls pattern s o).
  { intros (o & Ho & Hspec).
    assert (seek_pass (E := E) (loop_at normalise ls pattern) s
      (S (length ls - length pattern) - s) = Ok o) as ->.
    { unfold or_pass in Ho. destruct (seek_pass _ _ _) as [[]| |]; simplify_eq/=; done. }
    match goal with |- ∃ o, ?m = Ok o ∧ _ =>
      cut (∃ o, m = Ok o ∧ spec_from 0 ls pattern s o) end.
    { intros (o' & ? & Ho'). exists o'. split; [done|]. apply Ho'. lia. }
    apply or_pass_spec; [lia|lia|apply exact_at_ok|].
    apply or_pass_spec; [lia|lia|intros; by apply (pass_ok 1)|].
    apply or_pass_spec; [lia|lia|intros; by apply (pass_ok 2)|]. eauto. }
  apply or_pass_spec; [lia|lia|intros; by apply (pass_ok 3)|].
  exists None. split; [done|]. intros Hlow k j Hj Hm.
  destruct (decide (k ≤ 3)); [by eapply (Hlow k); [lia|..]|].
  eapply (Hlow 3); [lia|done|]. apply (match_at_3 k); [lia|done].
Qed.


Lemma search_start_ge ls pattern start eof :
  start ≤ search_start ls pattern start eof PreserveLineEndings.
Proof. unfold search_start. destruct (_ && _); simpl; lia. Qed.

End lemmas.

(** ** Properties *)


(** With [eof] set, a non-empty pattern is only ever found at the very end
    of the file; the search never falls back to [start].  Under
    [PreserveLineEndings] the match also does not lie before [start]. *)
Theorem seek_sequence_eof_only (E : Type) ls pattern start mode i :
  pattern ≠ [] →
  seek_sequence (E := E) ls pattern start true mode = Ok (Some i) →
  i + length pattern = length ls ∧ (mode = PreserveLineEndings → start ≤ i).
Proof.
  intros Hne Heq. destruct (seek_sequence_ok (E := E) ls pattern start true mode Hne)
    as (o & Ho & Hspec). rewrite Heq in Ho. injection Ho as <-.
  destruct Hspec as (Hs & k & _ & [Hlen _] & _).
  unfold search_start in Hs. rewrite (leb_correct _ _ (Nat.le_trans _ _ _ (Nat.le_add_l _ i) Hlen)) in Hs.
  simpl in Hs. destruct mode; split; try done; lia.
Qed.

Lemma seek_sequence_eof_only_witness :
  1 + length [str "b"] = length [str "a"; str "b"].
Proof.
  apply (seek_sequence_eof_only unit [str "a"; str "b"] [str "b"] 0 PreserveLineEndings 1);
    [done|by vm_compute].
Defined.
