(* ===== verification/Utf8.v ===== *)
(** * UTF-8

    Bytes, the encoding of a string, and [core::str::from_utf8] with the two
    pieces of information its error carries: the length of the longest valid
    prefix and, unless the input just ends inside a character, the length of
    the invalid sequence. *)

From S2P Require Import Prelude RustStr.

Abbreviation byte := N (only parsing).

Ltac Zify.zify_post_hook ::= Z.to_euclidean_division_equations.

(** A Unicode scalar value: what a Rust [char] can be. *)
Definition is_scalar (c : char) : bool :=
  ((c <? 0xD800) || (0xE000 <=? c) && (c <? 0x110000))%N.

Definition encode_char (c : char) : list byte :=
  (if c <? 0x80 then [c]
   else if c <? 0x800 then [0xC0 + c / 64; 0x80 + c mod 64]
   else if c <? 0x10000 then [0xE0 + c / 4096; 0x80 + (c / 64) mod 64; 0x80 + c mod 64]
   else [0xF0 + c / 262144; 0x80 + (c / 4096) mod 64; 0x80 + (c / 64) mod 64; 0x80 + c mod 64])%N.

(** [str::as_bytes]. *)
Definition encode (s : rstring) : list byte := concat (encode_char <$> s).

(** ** Decoding *)

Definition in_range (lo hi b : byte) : bool := ((lo <=? b) && (b <=? hi))%N.
Definition is_cont (b : byte) : bool := in_range 0x80 0xBF b.

(** Which second bytes may follow a first byte of a 3- or 4-byte sequence. *)
Definition second_ok (b0 b1 : byte) : bool :=
  if (b0 =? 0xE0)%N then in_range 0xA0 0xBF b1
  else if (b0 =? 0xED)%N then in_range 0x80 0x9F b1
  else if (b0 =? 0xF0)%N then in_range 0x90 0xBF b1
  else if (b0 =? 0xF4)%N then in_range 0x80 0x8F b1
  else is_cont b1.

(** The first character of the input. *)
Inductive decoded : Type :=
| DChar (c : char) (rest : list byte)
| DIncomplete
| DInvalid (error_len : nat).

Definition decode_one (b0 : byte) (bs : list byte) : decoded :=
  if (b0 <? 0x80)%N then DChar b0 bs
  else if in_range 0xC2 0xDF b0 then
    match bs with
    | [] => DIncomplete
    | b1 :: bs1 =>
        if is_cont b1 then DChar ((b0 - 0xC0) * 64 + (b1 - 0x80)) bs1 else DInvalid 1
    end
  else if in_range 0xE0 0xEF b0 then
    match bs with
    | [] => DIncomplete
    | b1 :: bs1 =>
        if negb (second_ok b0 b1) then DInvalid 1
        else match bs1 with
        | [] => DIncomplete
        | b2 :: bs2 =>
            if is_cont b2
            then DChar ((b0 - 0xE0) * 4096 + (b1 - 0x80) * 64 + (b2 - 0x80)) bs2
            else DInvalid 2
        end
    end
  else if in_range 0xF0 0xF4 b0 then
    match bs with
    | [] => DIncomplete
    | b1 :: bs1 =>
        if negb (second_ok b0 b1) then DInvalid 1
        else match bs1 with
        | [] => DIncomplete
        | b2 :: bs2 =>
            if negb (is_cont b2) then DInvalid 2
            else match bs2 with
            | [] => DIncomplete
            | b3 :: bs3 =>
                if is_cont b3
                then DChar ((b0 - 0xF0) * 262144 + (b1 - 0x80) * 4096 + (b2 - 0x80) * 64
                            + (b3 - 0x80)) bs3
                else DInvalid 3
            end
        end
    end
  else DInvalid 1.

(** How the scan of an input ends. *)
Inductive utf8_end : Type :=
| UComplete
| UIncomplete
| UInvalid (error_len : nat).

Fixpoint utf8_scan (fuel : nat) (bs : list byte) : rstring * utf8_end :=
  match fuel, bs with
  | 0, _ | _, [] => ([], UComplete)
  | S fuel, b0 :: bs' =>
      match decode_one b0 bs' with
      | DChar c rest => let '(t, e) := utf8_scan fuel rest in (c :: t, e)
      | DIncomplete => ([], UIncomplete)
      | DInvalid n => ([], UInvalid n)
      end
  end.

(** The longest valid prefix and why it ends: a character takes at least a byte,
    so that the length is enough fuel. *)
Definition utf8_prefix (bs : list byte) : rstring * utf8_end := utf8_scan (length bs) bs.

Record Utf8Error : Type := {
  valid_up_to : nat;
  error_len : option nat;
}.

(** [str::from_utf8]. *)
Definition from_utf8 (bs : list byte) : res Utf8Error rstring :=
  match utf8_prefix bs with
  | (t, UComplete) => Ok t
  | (t, UIncomplete) => Err {| valid_up_to := str_len t; error_len := None |}
  | (t, UInvalid n) => Err {| valid_up_to := str_len t; error_len := Some n |}
  end.

(** ** Lemmas *)

Lemma encode_app s t : encode (s ++ t) = encode s ++ encode t.
Proof. unfold encode. by rewrite fmap_app, concat_app. Qed.

Lemma encode_cons c t : encode (c :: t) = encode_char c ++ encode t.
Proof. done. Qed.

Lemma encode_char_length c : length (encode_char c) = len_utf8 c.
Proof. unfold encode_char, len_utf8. repeat case_match; done. Qed.

Lemma encode_length s : length (encode s) = str_len s.
Proof.
  induction s as [|c s IH]; [done|].
  rewrite encode_cons, length_app, IH, encode_char_length. done.
Qed.

(** The three multi-byte encodings by range. *)
Lemma encode_char_2 c :
  (0x80 ≤ c < 0x800)%N → encode_char c = [0xC0 + c / 64; 0x80 + c mod 64]%N.
Proof. intros. unfold encode_char. by rewrite (proj2 (N.ltb_ge _ _)), (proj2 (N.ltb_lt _ _)) by lia. Qed.

Lemma encode_char_3 c :
  (0x800 ≤ c < 0x10000)%N →
  encode_char c = [0xE0 + c / 4096; 0x80 + (c / 64) mod 64; 0x80 + c mod 64]%N.
Proof.
  intros. unfold encode_char.
  by rewrite !(proj2 (N.ltb_ge _ _)), (proj2 (N.ltb_lt _ _)) by lia.
Qed.

Lemma encode_char_4 c :
  (0x10000 ≤ c)%N →
  encode_char c =
  [0xF0 + c / 262144; 0x80 + (c / 4096) mod 64; 0x80 + (c / 64) mod 64; 0x80 + c mod 64]%N.
Proof. intros. unfold encode_char. by rewrite !(proj2 (N.ltb_ge _ _)) by lia. Qed.

(** The boolean range tests of the hypotheses as inequalities. *)
Ltac to_ranges :=
  unfold second_ok, is_scalar, is_cont, in_range in *;
  repeat match goal with
  | H : context [if ?b then _ else _] |- _ => destruct b eqn:?
  | H : negb _ = _ |- _ => rewrite ?negb_true_iff, ?negb_false_iff in H
  | H : _ && _ = true |- _ => apply andb_true_iff in H as [? ?]
  | H : (_ <? _)%N = true |- _ => apply N.ltb_lt in H
  | H : (_ <? _)%N = false |- _ => apply N.ltb_ge in H
  | H : (_ <=? _)%N = true |- _ => apply N.leb_le in H
  | H : (_ =? _)%N = true |- _ => apply N.eqb_eq in H
  | H : (_ =? _)%N = false |- _ => apply N.eqb_neq in H
  | H : (_ <=? _)%N = false |- _ => apply N.leb_gt in H
  | H : _ && _ = false |- _ => apply andb_false_iff in H as [?|?]
  | H : _ || _ = true |- _ => apply orb_true_iff in H as [?|?]
  end.

Ltac solve_ranges :=
  unfold second_ok, is_scalar, is_cont, in_range;
  rewrite ?andb_true_iff, ?orb_true_iff, ?andb_true_iff, ?N.ltb_lt, ?N.leb_le; lia.

Lemma decode_one_sound b0 bs c rest :
  decode_one b0 bs = DChar c rest → is_scalar c = true ∧ b0 :: bs = encode_char c ++ rest.
Proof.
  unfold decode_one. intros H. repeat (split_match_in H; simplify_eq).
  - split; [to_ranges; solve_ranges|]. unfold encode_char. by rewrite Heqb.
  - to_ranges. split; [solve_ranges|]. rewrite encode_char_2 by lia. simpl. repeat f_equal; lia.
  - to_ranges; (split; [solve_ranges|]); rewrite encode_char_3 by lia; simpl; repeat f_equal; lia.
  - to_ranges; (split; [solve_ranges|]); rewrite encode_char_4 by lia; simpl; repeat f_equal; lia.
Qed.

(** The tests of [decode_one] on the bytes of a scalar value. *)
Lemma encoded_2 c :
  (0x80 ≤ c < 0x800)%N → in_range 0xC2 0xDF (0xC0 + c / 64) = true.
Proof. intros. solve_ranges. Qed.

Lemma encoded_3 c :
  (0x800 ≤ c < 0x10000)%N → is_scalar c = true →
  in_range 0xC2 0xDF (0xE0 + c / 4096) = false ∧ in_range 0xE0 0xEF (0xE0 + c / 4096) = true ∧
  second_ok (0xE0 + c / 4096) (0x80 + (c / 64) mod 64) = true.
Proof.
  intros Hc Hs. split_and!.
  - apply andb_false_iff. rewrite !N.leb_gt. lia.
  - solve_ranges.
  - unfold second_ok. repeat case_match; to_ranges; solve_ranges.
Qed.

Lemma encoded_4 c :
  (0x10000 ≤ c)%N → is_scalar c = true →
  in_range 0xC2 0xDF (0xF0 + c / 262144) = false ∧ in_range 0xE0 0xEF (0xF0 + c / 262144) = false ∧
  in_range 0xF0 0xF4 (0xF0 + c / 262144) = true ∧
  second_ok (0xF0 + c / 262144) (0x80 + (c / 4096) mod 64) = true.
Proof.
  intros Hc Hs. assert (c < 0x110000)%N by (to_ranges; lia). split_and!.
  - apply andb_false_iff. rewrite !N.leb_gt. lia.
  - apply andb_false_iff. rewrite !N.leb_gt. lia.
  - solve_ranges.
  - unfold second_ok. repeat case_match; to_ranges; solve_ranges.
Qed.

Lemma is_cont_mod c : is_cont (0x80 + c mod 64) = true.
Proof. solve_ranges. Qed.

Lemma decode_one_complete c rest :
  is_scalar c = true →
  ∃ b0 bs, encode_char c ++ rest = b0 :: bs ∧ decode_one b0 bs = DChar c rest.
Proof.
  intros Hc. destruct (N.ltb_spec c 0x80) as [H1|H1];
    [|destruct (N.ltb_spec c 0x800) as [H2|H2]; [|destruct (N.ltb_spec c 0x10000) as [H3|H3]]].
  - exists c, rest. unfold encode_char, decode_one. by rewrite (proj2 (N.ltb_lt _ _)) by done.
  - rewrite encode_char_2 by done. eexists _, _. split; [reflexivity|]. unfold decode_one.
    rewrite (proj2 (N.ltb_ge _ _)) by lia. rewrite encoded_2, is_cont_mod by done.
    f_equal. lia.
  - destruct (encoded_3 c) as (E1 & E2 & E3); [done..|].
    rewrite encode_char_3 by done. eexists _, _. split; [reflexivity|]. unfold decode_one.
    rewrite (proj2 (N.ltb_ge _ _)) by lia. cbn [app].
    rewrite E1, E2, E3, is_cont_mod. cbn [negb]. f_equal. lia.
  - destruct (encoded_4 c) as (E1 & E2 & E3 & E4); [done..|].
    rewrite encode_char_4 by done. eexists _, _. split; [reflexivity|]. unfold decode_one.
    rewrite (proj2 (N.ltb_ge _ _)) by lia. cbn [app].
    rewrite E1, E2, E3, E4, !is_cont_mod. cbn [negb]. f_equal. lia.
Qed.

(** A sequence that is already invalid stays invalid. *)
Lemma decode_one_invalid b0 bs n bs' :
  decode_one b0 bs = DInvalid n → decode_one b0 (bs ++ bs') = DInvalid n.
Proof.
  unfold decode_one. intros H.
  repeat (split_match_in H; simplify_eq; cbn [app]); by simplify_option_eq.
Qed.

Lemma utf8_scan_fuel n m bs : length bs ≤ n → length bs ≤ m → utf8_scan n bs = utf8_scan m bs.
Proof.
  revert m bs. induction n as [|n IH]; intros m [|b0 bs] Hn Hm; simpl in *;
    try lia; destruct m; simpl in *; try lia; try done.
  destruct (decode_one b0 bs) as [c rest| |] eqn:E; [|done..].
  apply decode_one_sound in E as [_ E]. apply (f_equal length) in E.
  rewrite length_app, encode_char_length in E. simpl in E. pose proof (len_utf8_pos c).
  rewrite (IH m) by lia. done.
Qed.

Lemma utf8_prefix_cons b0 bs :
  utf8_prefix (b0 :: bs) =
  match decode_one b0 bs with
  | DChar c rest => let '(t, e) := utf8_prefix rest in (c :: t, e)
  | DIncomplete => ([], UIncomplete)
  | DInvalid n => ([], UInvalid n)
  end.
Proof.
  unfold utf8_prefix. simpl. destruct (decode_one b0 bs) as [c rest| |] eqn:E; [|done..].
  apply decode_one_sound in E as [_ E]. apply (f_equal length) in E.
  rewrite length_app, encode_char_length in E. simpl in E. pose proof (len_utf8_pos c).
  rewrite (utf8_scan_fuel (length bs) (length rest)) by lia. done.
Qed.

Abbreviation valid_text := (Forall (λ c, is_scalar c = true)).

Lemma utf8_prefix_encode t bs :
  valid_text t →
  utf8_prefix (encode t ++ bs) = let '(t', e) := utf8_prefix bs in (t ++ t', e).
Proof.
  induction 1 as [|c t Hc _ IH]; simpl; [by destruct (utf8_prefix bs)|].
  rewrite encode_cons, <-app_assoc.
  destruct (decode_one_complete c (encode t ++ bs) Hc) as (b0 & bs' & -> & E).
  rewrite utf8_prefix_cons, E, IH. by destruct (utf8_prefix bs).
Qed.

(** The scan splits its input into the text and an undecoded rest. *)
Lemma utf8_prefix_split bs t e :
  utf8_prefix bs = (t, e) →
  ∃ rest, bs = encode t ++ rest ∧ valid_text t ∧ utf8_prefix rest = ([], e) ∧
    (rest = [] ↔ e = UComplete).
Proof.
  remember (length bs) as n eqn:Hn. revert bs t Hn.
  induction n as [n IH] using lt_wf_ind. intros bs t -> H.
  destruct bs as [|b0 bs]; [injection H as <- <-; by exists []|].
  rewrite utf8_prefix_cons in H. destruct (decode_one b0 bs) as [c rest| |k] eqn:E; simplify_eq.
  - apply decode_one_sound in E as [Hc E].
    destruct (utf8_prefix rest) as [t' e'] eqn:E'. injection H as <- <-.
    destruct (IH (length rest)) with (bs := rest) (t := t') as (r & -> & Ht & Hr & Hi); try done.
    { rewrite E, length_app, encode_char_length. pose proof (len_utf8_pos c). lia. }
    exists r. rewrite E, encode_cons, <-app_assoc. split_and!; auto.
  - exists (b0 :: bs). rewrite utf8_prefix_cons, E. done.
  - exists (b0 :: bs). rewrite utf8_prefix_cons, E. done.
Qed.

Lemma utf8_prefix_invalid bs t n bs' :
  utf8_prefix bs = (t, UInvalid n) → utf8_prefix (bs ++ bs') = (t, UInvalid n).
Proof.
  intros (rest & -> & Ht & Hr & _)%utf8_prefix_split.
  rewrite <-app_assoc, utf8_prefix_encode by done.
  assert (utf8_prefix (rest ++ bs') = ([], UInvalid n)) as ->; [|by rewrite app_nil_r].
  destruct rest as [|b0 rest]; [done|]. cbn [app]. rewrite utf8_prefix_cons in *.
  destruct (decode_one b0 rest) as [c r| |k] eqn:E; simplify_eq.
  - destruct (utf8_prefix r); simplify_eq.
  - by rewrite (decode_one_invalid _ _ _ _ E).
Qed.

Lemma from_utf8_encode t : valid_text t → from_utf8 (encode t) = Ok t.
Proof.
  intros Ht. unfold from_utf8. rewrite <-(app_nil_r (encode t)), utf8_prefix_encode by done.
  simpl. by rewrite app_nil_r.
Qed.

Lemma from_utf8_Ok bs t : from_utf8 bs = Ok t ↔ bs = encode t ∧ valid_text t.
Proof.
  split; [|by intros [-> ?]; apply from_utf8_encode].
  unfold from_utf8. destruct (utf8_prefix bs) as [t' []] eqn:E; intros; simplify_eq.
  apply utf8_prefix_split in E as (rest & -> & Ht & _ & Hr).
  rewrite (proj2 Hr), app_nil_r by done. done.
Qed.
