(* ===== verification/TextFile.v ===== *)
(** * Files as lines with their endings

    [SourceFile] of [src/engine/apply-patch/src/text_file.rs]: the split of a
    file's text into lines that remember how each one ended, the replacement of
    ranges of lines, and the way back to text. *)

From S2P Require Import Prelude RustStr.

(** Start index, number of lines replaced, and the new lines. *)
Definition Replacement : Type := nat * nat * list rstring.

Inductive LineEnding : Type := Lf | CrLf | Cr.

Definition as_str (e : LineEnding) : rstring :=
  match e with
  | Lf => [LF]
  | CrLf => [CR; LF]
  | Cr => [CR]
  end.

Record SourceLine : Type := {
  text : rstring;
  ending : option LineEnding;
}.

Record SourceFile : Type := {
  source_lines : list SourceLine;
  preferred_ending : LineEnding;
}.

Definition get_or_insert {A} (o : option A) (a : A) : option A := Some (default a o).

(** The scan of [SourceFile::parse]: [line] is the text from [line_start] to the
    cursor. *)
Fixpoint parse_loop (contents line : rstring) (ls : list SourceLine) (preferred : option LineEnding)
    : list SourceLine * option LineEnding :=
  let push e rest :=
    parse_loop rest [] (ls ++ [{| text := line; ending := Some e |}]) (get_or_insert preferred e) in
  match contents with
  | [] => (match line with
           | [] => ls
           | _ => ls ++ [{| text := line; ending := None |}]
           end, preferred)
  | c :: rest =>
      if (c =? CR)%N then
        match rest with
        | d :: rest' => if (d =? LF)%N then push CrLf rest' else push Cr rest
        | [] => push Cr rest
        end
      else if (c =? LF)%N then push Lf rest
      else parse_loop rest (line ++ [c]) ls preferred
  end.

Definition source_parse (contents : rstring) : SourceFile :=
  let '(ls, preferred) := parse_loop contents [] [] None in
  {| source_lines := ls; preferred_ending := default Lf preferred |}.

Definition line_texts (self : SourceFile) : list rstring := text <$> source_lines self.

(** The loop over the replacements; [source] is what is left of the iterator.
    A start before [source_index] fails the [debug_assert!] and underflows the
    subtraction. *)
Fixpoint splice_source {E} (preferred : LineEnding) (source : list SourceLine) (source_index : nat)
    (replacements : list Replacement) : res E (list SourceLine) :=
  match replacements with
  | [] => Ok source
  | (start_idx, old_len, new_segment) :: replacements' =>
      if decide (source_index ≤ start_idx) then
        let k := start_idx - source_index in
        let? tl := splice_source preferred (drop old_len (drop k source)) (start_idx + old_len)
                     replacements' in
        Ok (take k source
            ++ ((λ t, {| text := t; ending := Some preferred |}) <$> new_segment) ++ tl)
      else Panic
  end.

Definition fill_ending (preferred : LineEnding) (l : SourceLine) : SourceLine :=
  {| text := text l; ending := get_or_insert (ending l) preferred |}.

Definition source_apply_replacements {E} (self : SourceFile) (replacements : list Replacement)
    : res E SourceFile :=
  let? ls := splice_source (preferred_ending self) (source_lines self) 0 replacements in
  Ok {| source_lines := fill_ending (preferred_ending self) <$> ls;
        preferred_ending := preferred_ending self |}.

Definition line_contents (l : SourceLine) : rstring :=
  text l ++ match ending l with Some e => as_str e | None => [] end.

Definition into_contents (self : SourceFile) : rstring := concat (line_contents <$> source_lines self).

(** ** Specifications *)

(** Replacements that are in order, do not overlap and end within [len] lines. *)
Fixpoint chained (idx len : nat) (reps : list Replacement) : Prop :=
  match reps with
  | [] => idx ≤ len
  | (s, l, _) :: reps' => idx ≤ s ∧ chained (s + l) len reps'
  end.

(** The result of a chained list of replacements: what lies between them is kept
    as it is, and each replaced range becomes its new lines. *)
Fixpoint splice {A} (new : rstring → A) (src : list A) (idx : nat) (reps : list Replacement)
    : list A :=
  match reps with
  | [] => src
  | (s, l, seg) :: reps' =>
      take (s - idx) src ++ (new <$> seg) ++ splice new (drop (s - idx + l) src) (s + l) reps'
  end.

Definition no_break (l : rstring) : Prop := (LF ∉ l) ∧ (CR ∉ l).

(** What [parse] returns: no line text contains a break, only the last line may
    lack an ending, and then it is not empty. *)
Fixpoint lines_wf (ls : list SourceLine) : Prop :=
  match ls with
  | [] => True
  | l :: ls' => no_break (text l) ∧ (ending l = None → ls' = [] ∧ text l ≠ []) ∧ lines_wf ls'
  end.

(** ** Lemmas *)

Lemma chained_le idx len reps : chained idx len reps → idx ≤ len.
Proof.
  revert idx. induction reps as [|[[s l] seg] reps IH]; intros idx; simpl; [done|].
  intros [? ?%IH]. lia.
Qed.

Lemma lines_wf_snoc ls l :
  lines_wf ls → Forall (λ l, ending l ≠ None) ls → no_break (text l) →
  (ending l = None → text l ≠ []) → lines_wf (ls ++ [l]).
Proof.
  induction ls as [|l0 ls IH]; intros Hls Hf Hn He; simpl in *; [naive_solver|].
  apply Forall_cons in Hf as [Hf0 Hf]. destruct Hls as (? & ? & ?). split_and!; auto. by intros.
Qed.

Lemma no_break_snoc l c : no_break l → c ≠ CR → c ≠ LF → no_break (l ++ [c]).
Proof.
  intros [H1 H2] ? ?. split; rewrite elem_of_app, list_elem_of_singleton; naive_solver.
Qed.

(** The invariant of the scan: what was read is what the lines and the current
    text say, and the lines read so far all have an ending. *)
Lemma parse_loop_spec contents line ls pref ls' pref' :
  parse_loop contents line ls pref = (ls', pref') →
  no_break line → lines_wf ls → Forall (λ l, ending l ≠ None) ls →
  concat (line_contents <$> ls') = concat (line_contents <$> ls) ++ line ++ contents ∧ lines_wf ls'.
Proof.
  remember (length contents) as n eqn:Hn. revert contents Hn line ls pref.
  induction n as [n IH] using lt_wf_ind. intros contents -> line ls pref H Hnb Hwf Hf.
  assert (∀ e rest, length rest < length contents → contents = as_str e ++ rest →
    parse_loop rest [] (ls ++ [{| text := line; ending := Some e |}]) (get_or_insert pref e)
      = (ls', pref') →
    concat (line_contents <$> ls') = concat (line_contents <$> ls) ++ line ++ contents
    ∧ lines_wf ls') as Hpush.
  { intros e rest Hlen Heq Hp. eapply IH in Hp as [Hp ?]; [|done|done| | |].
    - split; [|done]. rewrite Hp, Heq, fmap_app, concat_app. simpl. unfold line_contents at 2. simpl.
      by rewrite app_nil_r, <-!app_assoc.
    - by split; apply not_elem_of_nil.
    - by apply lines_wf_snoc.
    - apply Forall_app. by rewrite Forall_singleton. }
  destruct contents as [|c rest]; simpl in H.
  - injection H as <- _. destruct line as [|c line]; [by rewrite !app_nil_r|].
    rewrite fmap_app, concat_app. simpl. unfold line_contents at 2. simpl. rewrite !app_nil_r.
    split; [done|]. by apply lines_wf_snoc.
  - destruct (N.eqb_spec c CR) as [->|HCR]; [|destruct (N.eqb_spec c LF) as [->|HLF]].
    + destruct rest as [|d rest]; [by apply (Hpush Cr []); simpl; [lia|..]|].
      destruct (N.eqb_spec d LF) as [->|]; [apply (Hpush CrLf rest)|apply (Hpush Cr (d :: rest))];
        simpl; done || lia.
    + apply (Hpush Lf rest); simpl; done || lia.
    + apply (IH (length rest)) in H as [-> ?]; [|simpl; lia|done|by apply no_break_snoc|done|done].
      by rewrite <-app_assoc.
Qed.

Lemma source_parse_spec contents :
  into_contents (source_parse contents) = contents ∧ lines_wf (source_lines (source_parse contents)).
Proof.
  unfold source_parse, into_contents. destruct (parse_loop contents [] [] None) as [ls pref] eqn:E.
  apply parse_loop_spec in E; [done| |done|constructor]. by split; apply not_elem_of_nil.
Qed.

(** [apply_replacements] computes the splice of its lines. *)
Lemma splice_source_splice {E} pref source idx len reps :
  chained idx len reps → length source + idx = len →
  splice_source (E := E) pref source idx reps =
  Ok (splice (λ t, {| text := t; ending := Some pref |}) source idx reps).
Proof.
  revert source idx. induction reps as [|[[s l] seg] reps IH]; intros source idx Hc Hl; [done|].
  destruct Hc as [Hs Hc]. pose proof (chained_le _ _ _ Hc). simpl. rewrite decide_True by done.
  rewrite drop_drop, IH; [done|done|]. rewrite length_drop. lia.
Qed.

Lemma fmap_splice {A B} (f : A → B) new src idx reps :
  f <$> splice new src idx reps = splice (λ t, f (new t)) (f <$> src) idx reps.
Proof.
  revert src idx. induction reps as [|[[s l] seg] reps IH]; intros src idx; [done|]. simpl.
  rewrite !fmap_app, IH, fmap_take, fmap_drop, <-list_fmap_compose. done.
Qed.

(** The preferred ending is that of the first line. *)
Lemma parse_loop_preferred contents line ls pref ls' pref' :
  parse_loop contents line ls pref = (ls', pref') →
  Forall (λ l, ending l ≠ None) ls → pref = (head ls ≫= ending) → pref' = (head ls' ≫= ending).
Proof.
  remember (length contents) as n eqn:Hn. revert contents Hn line ls pref.
  induction n as [n IH] using lt_wf_ind. intros contents -> line ls pref H Hf Hp.
  assert (∀ e rest, length rest < length contents →
    parse_loop rest [] (ls ++ [{| text := line; ending := Some e |}]) (get_or_insert pref e)
      = (ls', pref') → pref' = (head ls' ≫= ending)) as Hpush.
  { intros e rest Hlen Hpl. apply (IH _ Hlen) in Hpl; [done|done| |].
    - apply Forall_app. by rewrite Forall_singleton.
    - destruct ls as [|l ls]; simplify_eq/=; [done|].
      apply Forall_cons in Hf as [Hf _]. by destruct (ending l). }
  destruct contents as [|c rest]; simpl in H.
  - injection H as <- <-. by destruct line, ls; simplify_eq/=.
  - destruct (N.eqb_spec c CR) as [->|HCR]; [|destruct (N.eqb_spec c LF) as [->|HLF]].
    + destruct rest as [|d rest]; [by eapply (Hpush Cr []); simpl; [lia|]|].
      destruct (N.eqb_spec d LF) as [->|]; [eapply (Hpush CrLf rest)|eapply (Hpush Cr (d :: rest))];
        simpl; done || lia.
    + eapply (Hpush Lf rest); simpl; done || lia.
    + eapply (IH (length rest)) in H; simpl; done || lia.
Qed.

(** ** Properties *)

(** Splitting a file into lines loses nothing: the lines and their endings
    put together again are the file, for every mixture of LF, CRLF and CR; no
    line text contains a line break, only the last line may lack an ending, and
    the preferred ending is that of the first line, LF when it has none. *)
Theorem source_parse_round_trip contents :
  into_contents (source_parse contents) = contents ∧
  lines_wf (source_lines (source_parse contents)) ∧
  preferred_ending (source_parse contents) =
    default Lf (head (source_lines (source_parse contents)) ≫= ending).
Proof.
  destruct (source_parse_spec contents) as [? ?]. split_and!; [done..|].
  unfold source_parse. destruct (parse_loop contents [] [] None) as [ls pref] eqn:E. simpl.
  by rewrite (parse_loop_preferred _ _ _ _ _ _ E).
Qed.
