(* ===== verification/FileSystem.v ===== *)
(** * The file system interface

    The trait [ExecutorFileSystem] of [src/engine/file-system/src/lib.rs] as a
    type class over the state of a file system, with the laws its clients rely
    on for paths without links, and an in-memory implementation with symbolic
    links that satisfies them.  The sandbox context is passed unchanged to every call, so it is part of the instance.
    [PathUri] is used through the operations of the class [PathUriOps]. *)

From S2P Require Import Prelude RustStr Utf8.

(** ** Errors, options and metadata *)

(** [std::io::ErrorKind]: the kinds the modelled code tests or creates. *)
Inductive ErrorKind : Type :=
| NotFound
| PermissionDenied
| AlreadyExists
| InvalidInput
| InvalidData
| Other.

Global Instance ErrorKind_eq_dec : EqDecision ErrorKind.
Proof. solve_decision. Defined.

(** A [std::io::Error]: its kind and what it displays as. *)
Record io_error : Type := { kind : ErrorKind; io_message : rstring }.

Record ReadFileOptions : Type := { read_follow_symlinks : bool }.
Record WriteFileOptions : Type := { write_follow_symlinks : bool }.
Record GetMetadataOptions : Type := { metadata_follow_symlinks : bool }.
Record CreateDirectoryOptions : Type := { create_recursive : bool; create_follow_symlinks : bool }.
Record RemoveOptions : Type :=
  { remove_recursive : bool; remove_force : bool; remove_follow_symlinks : bool }.

Record FileMetadata : Type := {
  is_directory : bool;
  is_file : bool;
  is_symlink : bool;
  size : N;
  created_at_ms : Z;
  modified_at_ms : Z;
}.

(** ** Paths *)

(** The operations on [PathUri] the clients use; a failed [join] is the text of
    its [PathUriParseError]. *)
Class PathUriOps (U : Type) : Type := {
  path_join : U → rstring → res rstring U;
  path_parent : U → option U;
  inferred_native_path_string : U → rstring;
}.

(** ** The operations *)

Class ExecutorFileSystem (U FS : Type) : Type := {
  read_file : FS → U → ReadFileOptions → res io_error (list byte);
  write_file : FS → U → list byte → WriteFileOptions → FS * res io_error unit;
  create_directory : FS → U → CreateDirectoryOptions → FS * res io_error unit;
  get_metadata : FS → U → GetMetadataOptions → res io_error FileMetadata;
  remove : FS → U → RemoveOptions → FS * res io_error unit;
}.

(** The provided method [read_file_text]. *)
Definition read_file_text {U FS} `{ExecutorFileSystem U FS} (s : FS) (path : U) (options : ReadFileOptions)
    : res io_error rstring :=
  let? bytes := read_file s path options in
  res_map_err (λ _, {| kind := InvalidData; io_message := str "invalid utf-8 sequence" |})
    (from_utf8 bytes).

(** ** The laws *)

(** What POSIX says of a path without links, for a file system that nobody else changes.
    [view] is the content of every regular file, under the path where it lies, and a [plain]
    path is one on which no component is a link and that is the only name of its file, if
    there is one.  Nothing is assumed of the other paths, and nothing of what the metadata
    of a path tell about links.  A failed write says nothing about its own path unless it
    failed because the path was not found, and a failed removal may have removed its file.
    No operation makes a link. *)
Class FileSystemLaws (U FS : Type) `{Countable U} `{ExecutorFileSystem U FS} : Type := {
  view : FS → gmap U (list byte);
  plain : FS → U → Prop;
  read_file_Ok s p o b : plain s p → read_file s p o = Ok b → view s !! p = Some b;
  read_file_NotFound s p o e :
    plain s p → read_file s p o = Err e → kind e = NotFound → view s !! p = None;
  write_file_Ok s p b o s' :
    plain s p → write_file s p b o = (s', Ok tt) → view s' = <[p := b]> (view s);
  write_file_NotFound s p b o s' e :
    plain s p → write_file s p b o = (s', Err e) → kind e = NotFound → view s' = view s;
  write_file_plain s p b o q : plain s q → plain (write_file s p b o).1 q;
  create_directory_view s p o : view (create_directory s p o).1 = view s;
  create_directory_plain s p o q : plain s q → plain (create_directory s p o).1 q;
  remove_Ok s p o s' :
    plain s p → remove s p o = (s', Ok tt) → view s' = delete p (view s);
  remove_Err s p o s' e :
    plain s p → remove s p o = (s', Err e) → view s' = view s ∨ view s' = delete p (view s);
  remove_plain s p o q : plain s q → plain (remove s p o).1 q;
}.

(** ** An in-memory file system *)

Module Mem.

(** A path is the list of its segments from the root. *)
Abbreviation Path := (list rstring) (only parsing).

(** [cwd.join(path)] on POSIX paths: an absolute path replaces, [.] and empty
    segments are dropped, [..] goes up, and a NUL is rejected. *)
Fixpoint join_segments (base : Path) (segs : list rstring) : Path :=
  match segs with
  | [] => base
  | s :: segs' =>
      if decide (s = [] ∨ s = str ".") then join_segments base segs'
      else if decide (s = str "..") then join_segments (take (pred (length base)) base) segs'
      else join_segments (base ++ [s]) segs'
  end.

Definition mem_join (base : Path) (path : rstring) : res rstring Path :=
  if decide (0%N ∈ path) then Err (str "invalid path")
  else Ok (join_segments (if starts_with path (str "/") then [] else base) (split_char 47%N path)).

Global Instance path_ops : PathUriOps Path := {|
  path_join := mem_join;
  path_parent p := match p with [] => None | _ => Some (take (pred (length p)) p) end;
  inferred_native_path_string p := str "/" ++ join (str "/") p;
|}.

Inductive node : Type :=
| File (contents : list byte)
| Dir
| Link (target : Path).

Record fs : Type := {
  nodes : gmap Path node;
  read_only : gset Path;   (** paths whose writes and removals are refused *)
}.

Definition not_found : io_error := {| kind := NotFound; io_message := str "No such file or directory" |}.
Definition denied : io_error := {| kind := PermissionDenied; io_message := str "Permission denied" |}.
Definition is_a_directory : io_error := {| kind := Other; io_message := str "Is a directory" |}.

Definition contains_link : io_error :=
  {| kind := InvalidInput; io_message := str "path contains a symbolic link" |}.
Definition link_loop : io_error :=
  {| kind := Other; io_message := str "Too many levels of symbolic links" |}.

Definition lookup_node (s : fs) (p : Path) : option node :=
  match p with [] => Some Dir | _ => nodes s !! p end.

Definition parent_exists (s : fs) (p : Path) : bool :=
  match lookup_node s (take (pred (length p)) p) with Some Dir => true | _ => false end.

Definition set_nodes (s : fs) (ns : gmap Path node) : fs := {| nodes := ns; read_only := read_only s |}.

(** Where a path leads: at most [n] links in its last segment are followed. *)
Fixpoint chase (n : nat) (s : fs) (p : Path) : res io_error Path :=
  match lookup_node s p with
  | Some (Link target) => match n with 0 => Err link_loop | S n => chase n s target end
  | _ => Ok p
  end.

(** With or without following links. *)
Definition locate (follow : bool) (s : fs) (p : Path) : res io_error Path :=
  if follow then chase 40 s p
  else match lookup_node s p with Some (Link _) => Err contains_link | _ => Ok p end.

Definition mem_read (s : fs) (p : Path) (o : ReadFileOptions) : res io_error (list byte) :=
  let? p := locate (read_follow_symlinks o) s p in
  match lookup_node s p with
  | Some (File b) => Ok b
  | Some _ => Err is_a_directory
  | None => Err not_found
  end.

Definition mem_write (s : fs) (p : Path) (b : list byte) (o : WriteFileOptions)
    : fs * res io_error unit :=
  match locate (write_follow_symlinks o) s p with
  | Err e => (s, Err e)
  | Panic => (s, Panic)
  | Ok p =>
      if decide (p ∈ read_only s) then (s, Err denied)
      else match lookup_node s p with
      | Some Dir => (s, Err is_a_directory)
      | _ => if parent_exists s p then (set_nodes s (<[p := File b]> (nodes s)), Ok tt)
             else (s, Err not_found)
      end
  end.

(** [mkdir -p] of the prefixes of a path, shortest first. *)
Definition mkdir_all (ns : gmap Path node) (p : Path) : gmap Path node :=
  foldl (λ ns n, match ns !! take n p with None => <[take n p := Dir]> ns | Some _ => ns end)
    ns (seq 1 (length p)).

Definition mem_create_directory (s : fs) (p : Path) (o : CreateDirectoryOptions)
    : fs * res io_error unit := (set_nodes s (mkdir_all (nodes s) p), Ok tt).

(** A link is followed for everything but [is_symlink]; without following it is an error. *)
Definition mem_metadata (s : fs) (p : Path) (o : GetMetadataOptions) : res io_error FileMetadata :=
  let link := match lookup_node s p with Some (Link _) => true | _ => false end in
  let? p := locate (metadata_follow_symlinks o) s p in
  match lookup_node s p with
  | Some (File b) => Ok {| is_directory := false; is_file := true; is_symlink := link;
                           size := N.of_nat (length b); created_at_ms := 0; modified_at_ms := 0 |}
  | Some _ => Ok {| is_directory := true; is_file := false; is_symlink := link;
                    size := 0; created_at_ms := 0; modified_at_ms := 0 |}
  | None => Err not_found
  end.

(** Removal takes the link itself, or refuses it when links are not followed. *)
Definition mem_remove (s : fs) (p : Path) (o : RemoveOptions) : fs * res io_error unit :=
  if decide (p ∈ read_only s) then (s, Err denied)
  else match lookup_node s p with
  | Some (File _) => (set_nodes s (delete p (nodes s)), Ok tt)
  | Some (Link _) =>
      if remove_follow_symlinks o then (set_nodes s (delete p (nodes s)), Ok tt) else (s, Err contains_link)
  | Some Dir => (s, Err is_a_directory)
  | None => (s, Err not_found)
  end.

Global Instance mem_fs : ExecutorFileSystem Path fs := {|
  read_file := mem_read;
  write_file := mem_write;
  create_directory := mem_create_directory;
  get_metadata := mem_metadata;
  remove := mem_remove;
|}.

(** The files of the tree; a directory or a link has no contents. *)
Definition file_of (n : node) : option (list byte) :=
  match n with File b => Some b | Dir | Link _ => None end.

Definition mem_view (s : fs) : gmap Path (list byte) := omap file_of (delete [] (nodes s)).

Lemma lookup_mem_view s p : mem_view s !! p = lookup_node s p ≫= file_of.
Proof.
  unfold mem_view, lookup_node. rewrite lookup_omap. destruct p as [|x p].
  - by rewrite lookup_delete_eq.
  - by rewrite lookup_delete_ne.
Qed.

Ltac mem_cases :=
  repeat match goal with
  | |- context [decide ?P] => destruct (decide P)
  | H : context [decide ?P] |- _ => destruct (decide P)
  | H : context [match ?x with _ => _ end] |- _ => destruct x eqn:?
  end; simplify_eq/=.

Lemma mem_view_insert s p b :
  p ≠ [] → mem_view (set_nodes s (<[p := File b]> (nodes s))) = <[p := b]> (mem_view s).
Proof.
  intros Hp. apply map_eq. intros q. rewrite lookup_mem_view. unfold set_nodes, lookup_node. simpl.
  destruct (decide (q = p)) as [->|Hq].
  - rewrite !lookup_insert_eq. by destruct p.
  - rewrite !lookup_insert_ne, lookup_mem_view by done. by destruct q.
Qed.

Lemma mem_view_delete s p :
  mem_view (set_nodes s (delete p (nodes s))) = delete p (mem_view s).
Proof.
  apply map_eq. intros q. rewrite lookup_mem_view. unfold set_nodes, lookup_node. simpl.
  destruct (decide (q = p)) as [->|Hq].
  - rewrite !lookup_delete_eq. by destruct p.
  - rewrite !lookup_delete_ne, lookup_mem_view by done. by destruct q.
Qed.

Lemma mkdir_all_files ns p q : mkdir_all ns p !! q ≫= file_of = ns !! q ≫= file_of.
Proof.
  unfold mkdir_all. generalize (seq 1 (length p)). intros l. revert ns.
  induction l as [|n l IH]; intros ns; [done|]. simpl. rewrite IH.
  destruct (ns !! take n p) eqn:E; [done|]. destruct (decide (q = take n p)) as [->|].
  - by rewrite lookup_insert_eq, E.
  - by rewrite lookup_insert_ne.
Qed.

(** A path that is no link. *)
Definition mem_plain (s : fs) (p : Path) : Prop :=
  match lookup_node s p with Some (Link _) => False | _ => True end.

Lemma locate_plain follow s p : mem_plain s p → locate follow s p = Ok p.
Proof. unfold mem_plain, locate, chase. destruct (lookup_node s p) as [[]|], follow; done. Qed.

Lemma mem_plain_set s ns q :
  (∀ t, ns !! q = Some (Link t) → nodes s !! q = Some (Link t)) → mem_plain s q → mem_plain (set_nodes s ns) q.
Proof.
  unfold mem_plain, lookup_node. destruct q as [|x q]; [done|]. simpl.
  destruct (ns !! _) as [[| |t]|]; try done. intros Ht. by rewrite (Ht t eq_refl).
Qed.

Lemma mkdir_all_links ns p q t : mkdir_all ns p !! q = Some (Link t) → ns !! q = Some (Link t).
Proof.
  unfold mkdir_all. generalize (seq 1 (length p)). intros l. revert ns.
  induction l as [|n l IH]; intros ns; [done|]. simpl. intros Hl%IH.
  destruct (ns !! take n p) eqn:E; [done|]. apply lookup_insert_Some in Hl as [[_ ?]|[_ ?]]; done.
Qed.

Lemma mem_write_plain s p b o q : mem_plain s q → mem_plain (mem_write s p b o).1 q.
Proof.
  intros Hq. unfold mem_write. repeat case_match; try done.
  all: apply mem_plain_set; [|done]; intros t [[_ ?]|[_ ?]]%lookup_insert_Some; done.
Qed.

Lemma mem_remove_plain s p o q : mem_plain s q → mem_plain (mem_remove s p o).1 q.
Proof.
  intros Hq. unfold mem_remove. repeat case_match; try done.
  all: apply mem_plain_set; [|done]; intros t [_ ?]%lookup_delete_Some; done.
Qed.

Global Instance mem_laws : FileSystemLaws Path fs.
Proof.
  refine {| view := mem_view; plain := mem_plain |}; simpl.
  - intros s p o b Hp. unfold mem_read. rewrite locate_plain, lookup_mem_view by done. simpl. intros. mem_cases. done.
  - intros s p o e Hp. unfold mem_read. rewrite locate_plain, lookup_mem_view by done. simpl. intros. by mem_cases.
  - intros s p b o s' Hp. unfold mem_write. rewrite locate_plain by done. intros. mem_cases.
    all: apply mem_view_insert; by intros ->.
  - intros s p b o s' e Hp. unfold mem_write. rewrite locate_plain by done. intros. by mem_cases.
  - apply mem_write_plain.
  - intros s p o. apply map_eq. intros q. rewrite !lookup_mem_view. unfold lookup_node.
    destruct q; [done|]. apply mkdir_all_files.
  - intros s p o q. apply mem_plain_set. intros t. apply mkdir_all_links.
  - intros s p o s' Hp. unfold mem_remove, mem_plain in *. intros. mem_cases; [|done]. apply mem_view_delete.
  - intros s p o s' e Hp. unfold mem_remove, mem_plain in *. intros. mem_cases; by auto.
  - apply mem_remove_plain.
Defined.

End Mem.
