(* ===== verification/FileUpdate.v ===== *)
(** * Updating a file from the chunks of a hunk

    [src/engine/apply-patch/src/file_update.rs]: the replacements a list of
    chunks stands for, their application in the two update modes, and the new
    contents of a file.  Indices and subtractions are checked as in a debug
    build: [Panic] is an index out of range, an underflow or a failed
    [debug_assert!]. *)

From S2P Require Import Prelude RustStr PatchParser SeekSequence TextFile FileSystem.

(** ** Errors ([lib.rs]) *)

Record IoError : Type := { io_context : rstring; io_source : io_error }.

Inductive ApplyPatchError : Type :=
| ApplyParseError (e : ParseError)
| ApplyIoError (e : IoError)
| ComputeReplacements (message : rstring)
| PathUriError (message : rstring)
| ImplicitInvocation.

(** ** Replacements *)

Section update.
Variable original_lines : list rstring.
Variable path : rstring.
Variable update_file_mode : ApplyPatchFileUpdateMode.

Definition usize_sub {E} (a b : nat) : res E nat := if decide (b ≤ a) then Ok (a - b) else Panic.

Definition last_is_empty (ls : list rstring) : bool := bool_decide (last ls = Some []).

Definition msg_context (ctx_line : rstring) : rstring :=
  str "Failed to find context '" ++ ctx_line ++ str "' in " ++ path.

Definition msg_expected_lines (old_lines : list rstring) : rstring :=
  str "Failed to find expected lines in " ++ path ++ str ":" ++ [LF] ++ join [LF] old_lines.

(** The search for a chunk's [change_context]. *)
Definition seek_context (chunk : UpdateFileChunk) (line_index : nat) : res ApplyPatchError nat :=
  match change_context chunk with
  | None => Ok line_index
  | Some ctx_line =>
      let? o := seek_sequence original_lines [ctx_line] line_index false update_file_mode in
      match o with
      | Some idx => Ok (idx + 1)
      | None => Err (ComputeReplacements (msg_context ctx_line))
      end
  end.

(** Where a chunk without old lines inserts. *)
Definition insertion_idx : res ApplyPatchError nat :=
  match update_file_mode with
  | NormalizeToLf =>
      if last_is_empty original_lines then usize_sub (length original_lines) 1
      else Ok (length original_lines)
  | PreserveLineEndings => Ok (length original_lines)
  end.

(** The search for a chunk's old lines, with the retry without a last empty line:
    the position, the pattern and the new lines. *)
Definition seek_old_lines (chunk : UpdateFileChunk) (line_index : nat)
    : res ApplyPatchError (option (nat * list rstring * list rstring)) :=
  let pattern := old_lines chunk in
  let new_slice := new_lines chunk in
  let? found := seek_sequence original_lines pattern line_index (is_end_of_file chunk)
                  update_file_mode in
  match found with
  | Some i => Ok (Some (i, pattern, new_slice))
  | None =>
      if last_is_empty pattern then
        let pattern := take (pred (length pattern)) pattern in
        let new_slice :=
          if last_is_empty new_slice then take (pred (length new_slice)) new_slice else new_slice in
        let? found := seek_sequence original_lines pattern line_index (is_end_of_file chunk)
                        update_file_mode in
        Ok ((λ i, (i, pattern, new_slice)) <$> found)
      else Ok None
  end.

(** The loop over [context_line_indices] from [old_start] and [new_start] on,
    and the replacement after it. *)
Fixpoint context_loop (start_idx : nat) (pattern new_slice : list rstring)
    (context : list (nat * nat)) (old_start new_start : nat) (replacements : list Replacement)
    : res ApplyPatchError (list Replacement) :=
  let finish :=
    if decide (old_start ≠ length pattern ∨ new_start ≠ length new_slice) then
      let? l := usize_sub (length pattern) old_start in
      let? seg := or_panic (slice new_slice new_start (length new_slice)) in
      Ok (replacements ++ [(start_idx + old_start, l, seg)])
    else Ok replacements in
  match context with
  | [] => finish
  | (old_context, new_context) :: context' =>
      if decide (length pattern ≤ old_context ∨ length new_slice ≤ new_context) then finish
      else
        let? replacements :=
          if decide (old_start ≠ old_context ∨ new_start ≠ new_context) then
            let? l := usize_sub old_context old_start in
            let? seg := or_panic (slice new_slice new_start new_context) in
            Ok (replacements ++ [(start_idx + old_start, l, seg)])
          else Ok replacements in
        context_loop start_idx pattern new_slice context' (old_context + 1) (new_context + 1)
          replacements
  end.

Definition push_found (chunk : UpdateFileChunk) (start_idx : nat) (pattern new_slice : list rstring)
    (replacements : list Replacement) : res ApplyPatchError (list Replacement) :=
  match update_file_mode with
  | NormalizeToLf => Ok (replacements ++ [(start_idx, length pattern, new_slice)])
  | PreserveLineEndings =>
      context_loop start_idx pattern new_slice (context_line_indices chunk) 0 0 replacements
  end.

(** The body of the loop over the chunks. *)
Definition compute_chunk (st : nat * list Replacement) (chunk : UpdateFileChunk)
    : res ApplyPatchError (nat * list Replacement) :=
  let '(line_index, replacements) := st in
  let? line_index := seek_context chunk line_index in
  if decide (old_lines chunk = []) then
    let? idx := insertion_idx in
    Ok (line_index, replacements ++ [(idx, 0, new_lines chunk)])
  else
    let? found := seek_old_lines chunk line_index in
    match found with
    | Some (start_idx, pattern, new_slice) =>
        let? replacements := push_found chunk start_idx pattern new_slice replacements in
        Ok (start_idx + length pattern, replacements)
    | None => Err (ComputeReplacements (msg_expected_lines (old_lines chunk)))
    end.

(** [sort_by_key] on the start index, which is stable. *)
Fixpoint insert_by_start (r : Replacement) (rs : list Replacement) : list Replacement :=
  match rs with
  | [] => [r]
  | r' :: rs' => if decide (r.1.1 ≤ r'.1.1) then r :: rs else r' :: insert_by_start r rs'
  end.

Definition sort_by_start (rs : list Replacement) : list Replacement := foldr insert_by_start [] rs.

Definition compute_replacements (chunks : list UpdateFileChunk)
    : res ApplyPatchError (list Replacement) :=
  let? ' (_, replacements) := res_fold compute_chunk (0, []) chunks in
  Ok (sort_by_start replacements).

End update.

(** ** The in-place application *)

(** [Vec::insert], which panics past the end. *)
Definition vec_insert {E A} (l : list A) (i : nat) (x : A) : res E (list A) :=
  if decide (i ≤ length l) then Ok (take i l ++ x :: drop i l) else Panic.

(** [for _ in 0..n { if start < lines.len() { lines.remove(start) } }]. *)
Fixpoint remove_lines {A} (n start : nat) (l : list A) : list A :=
  match n with
  | 0 => l
  | S n' => remove_lines n' start (if decide (start < length l) then delete start l else l)
  end.

Fixpoint insert_lines {E A} (i : nat) (new : list A) (l : list A) : res E (list A) :=
  match new with
  | [] => Ok l
  | x :: new' => let? l' := vec_insert l i x in insert_lines (S i) new' l'
  end.

Definition apply_replacement {E} (ls : list rstring) (r : Replacement) : res E (list rstring) :=
  let '(start_idx, old_len, new_segment) := r in
  insert_lines start_idx new_segment (remove_lines old_len start_idx ls).

Definition apply_replacements {E} (ls : list rstring) (replacements : list Replacement)
    : res E (list rstring) :=
  res_fold apply_replacement ls (reverse replacements).

(** ** New contents *)

(** The lines of [NormalizeToLf]. *)
Definition lf_lines (contents : rstring) : list rstring :=
  let original_lines := split_char LF contents in
  if last_is_empty original_lines then take (pred (length original_lines)) original_lines
  else original_lines.

Definition lf_text (new_lines : list rstring) : rstring :=
  join [LF] (if last_is_empty new_lines then new_lines else new_lines ++ [[]]).

(** [derive_new_contents_from_chunks] after the file was read. *)
Definition new_contents (path_text original_contents : rstring) (chunks : list UpdateFileChunk)
    (update_file_mode : ApplyPatchFileUpdateMode) : res ApplyPatchError rstring :=
  match update_file_mode with
  | NormalizeToLf =>
      let original_lines := lf_lines original_contents in
      let? replacements := compute_replacements original_lines path_text update_file_mode chunks in
      let? new_lines := apply_replacements original_lines replacements in
      Ok (lf_text new_lines)
  | PreserveLineEndings =>
      let source_file := source_parse original_contents in
      let original_lines := line_texts source_file in
      let? replacements := compute_replacements original_lines path_text update_file_mode chunks in
      let? source_file := source_apply_replacements source_file replacements in
      Ok (into_contents source_file)
  end.

Record AppliedPatch : Type := { original_contents : rstring; applied_new_contents : rstring }.

Section derive.
Context {U FS : Type} `{PathUriOps U} `{ExecutorFileSystem U FS}.

Definition derive_new_contents_from_chunks (fs : FS) (path : U) (chunks : list UpdateFileChunk)
    (update_file_mode : ApplyPatchFileUpdateMode) (follow_symlinks : bool)
    : res ApplyPatchError AppliedPatch :=
  let? contents :=
    res_map_err (λ err, ApplyIoError
      {| io_context := str "Failed to read file to update " ++ inferred_native_path_string path;
         io_source := err |})
      (read_file_text fs path {| read_follow_symlinks := follow_symlinks |}) in
  let? new := new_contents (inferred_native_path_string path) contents chunks update_file_mode in
  Ok {| original_contents := contents; applied_new_contents := new |}.

End derive.

(** ** Lemmas *)

Abbreviation r_start := (λ r : Replacement, r.1.1).
Abbreviation r_end := (λ r : Replacement, r.1.1 + r.1.2).

Lemma last_is_empty_snoc ls :
  last_is_empty ls = true ↔ ls = take (pred (length ls)) ls ++ [[]].
Proof.
  unfold last_is_empty. rewrite bool_decide_eq_true, last_Some. split.
  - intros [l' ->]. rewrite length_app. simpl.
    replace (pred (length l' + 1)) with (length l') by lia. by rewrite take_app_length.
  - intros ->. eauto.
Qed.

(** *** Locating *)

Section locate.
Context (ls : list rstring) (mode : ApplyPatchFileUpdateMode).

Lemma seek_sequence_bounds {E} pattern start eof :
  start ≤ length ls →
  ∃ o, seek_sequence (E := E) ls pattern start eof mode = Ok o ∧
    ∀ i, o = Some i → i + length pattern ≤ length ls ∧
      (mode = PreserveLineEndings ∨ eof = false → start ≤ i).
Proof.
  intros Hs. destruct (decide (pattern = [])) as [->|Hne].
  { exists (Some start). split; [done|]. intros i [= <-]. simpl. lia. }
  destruct (seek_sequence_ok (E := E) ls pattern start eof mode Hne) as (o & -> & Ho).
  exists o. split; [done|]. intros i ->. destruct Ho as (Hi & k & _ & [Hlen _] & _).
  split; [done|]. intros Hm. unfold search_start in Hi.
  destruct Hm as [->| ->]; [|done]. destruct (_ && _); simpl in Hi; lia.
Qed.

Lemma seek_context_spec path chunk line_index :
  line_index ≤ length ls →
  seek_context ls path mode chunk line_index ≠ Panic ∧
  ∀ k, seek_context ls path mode chunk line_index = Ok k → line_index ≤ k ≤ length ls.
Proof.
  intros Hl. unfold seek_context. destruct (change_context chunk) as [ctx|]; [|naive_solver lia].
  destruct (seek_sequence_bounds (E := ApplyPatchError) [ctx] line_index false Hl) as (o & -> & Ho).
  destruct o as [i|]; simpl; [|done]. destruct (Ho i) as [H1 H2]; [done|]. simpl in H1.
  split; [done|]. intros k [= <-]. specialize (H2 (or_intror eq_refl)). lia.
Qed.

(** The retry drops a last empty line of the pattern, and of the new lines. *)
Definition slice_of (full part : list rstring) : Prop := part = full ∨ full = part ++ [[]].

Lemma seek_old_lines_spec chunk line_index :
  line_index ≤ length ls →
  ∃ o, seek_old_lines ls mode chunk line_index = Ok o ∧
    ∀ i pattern new_slice, o = Some (i, pattern, new_slice) →
      i + length pattern ≤ length ls ∧ (mode = PreserveLineEndings → line_index ≤ i) ∧
      slice_of (old_lines chunk) pattern ∧ slice_of (new_lines chunk) new_slice.
Proof.
  intros Hl. unfold seek_old_lines.
  destruct (seek_sequence_bounds (E := ApplyPatchError) (old_lines chunk) line_index
    (is_end_of_file chunk) Hl) as (o & -> & Ho). simpl.
  destruct o as [i|].
  { eexists. split; [done|]. intros ??? [= <- <- <-].
    destruct (Ho i) as [? ?]; [done|]. unfold slice_of. auto. }
  destruct (last_is_empty (old_lines chunk)) eqn:He; [|by exists None].
  edestruct (seek_sequence_bounds (E := ApplyPatchError)) as (o & -> & Ho'); [done|]. simpl.
  eexists. split; [done|]. intros i pattern new_slice Heq.
  destruct o as [i'|]; simplify_eq/=. destruct (Ho' i) as [? ?]; [done|].
  apply last_is_empty_snoc in He. split_and!; auto; [by right|].
  destruct (last_is_empty (new_lines chunk)) eqn:Hn; [|by left].
  apply last_is_empty_snoc in Hn. by right.
Qed.

Lemma insertion_idx_spec : ∃ i, insertion_idx ls mode = Ok i ∧ i ≤ length ls ∧
  (mode = PreserveLineEndings → i = length ls).
Proof.
  unfold insertion_idx, usize_sub. destruct mode; [|eauto].
  destruct (last_is_empty ls) eqn:E; [|by eexists].
  apply last_is_empty_snoc in E. apply (f_equal length) in E. rewrite length_app in E. simpl in E.
  rewrite decide_True by lia. eexists. split; [done|]. split; [lia|done].
Qed.

End locate.

(** *** Context lines *)

Lemma slice_of_length full part : slice_of full part → length part ≤ length full.
Proof. intros [-> | ->]; rewrite ?length_app; lia. Qed.

Lemma ctx_lt_after oc nc ctx :
  Forall (ctx_lt (oc, nc)) ctx → Forall (λ c : nat * nat, oc + 1 ≤ c.1 ∧ nc + 1 ≤ c.2) ctx.
Proof. intros H. eapply Forall_impl; [done|]. intros c [??]. simpl in *. lia. Qed.

Lemma context_loop_chained start_idx pattern new_slice ctx o n reps :
  StronglySorted ctx_lt ctx → Forall (λ c, o ≤ c.1 ∧ n ≤ c.2) ctx →
  o ≤ length pattern → n ≤ length new_slice →
  ∃ rs, context_loop start_idx pattern new_slice ctx o n reps = Ok (reps ++ rs) ∧
    chained (start_idx + o) (start_idx + length pattern) rs.
Proof.
  assert (∀ reps o n, o ≤ length pattern → n ≤ length new_slice → ∃ rs,
    (if decide (o ≠ length pattern ∨ n ≠ length new_slice) then
      let? l := usize_sub (length pattern) o in
      let? seg := or_panic (slice new_slice n (length new_slice)) in
      Ok (reps ++ [(start_idx + o, l, seg)])
     else Ok reps) = Ok (E := ApplyPatchError) (reps ++ rs) ∧
    chained (start_idx + o) (start_idx + length pattern) rs) as Hfin.
  { intros reps' o' n' Ho Hn. unfold usize_sub, slice. case_decide.
    - rewrite !decide_True by lia. simpl. eexists. split; [done|]. simpl. lia.
    - exists []. rewrite app_nil_r. simpl. split; [done|lia]. }
  intros Hs. revert o n reps. induction Hs as [|[oc nc] ctx Hs IH Hall]; intros o n reps Hge Ho Hn;
    [by apply Hfin|].
  apply Forall_cons in Hge as [[Hoc Hnc] _]. simpl in Hoc, Hnc. cbn [context_loop].
  destruct (decide (length pattern ≤ oc ∨ length new_slice ≤ nc)) as [|Hin]; [by apply Hfin|].
  pose proof (ctx_lt_after _ _ _ Hall) as Hge'.
  unfold usize_sub, slice. case_decide; rewrite ?decide_True by lia; simpl.
  - destruct (IH (oc + 1) (nc + 1) (reps ++ [(start_idx + o, oc - o, take (nc - n) (drop n new_slice))]))
      as (rs & -> & Hc); [done|lia..|].
    eexists. rewrite <-app_assoc. split; [done|]. simpl. split; [done|].
    destruct rs as [|[[s l] seg] rs]; simpl in *; [lia|]. destruct Hc. split; [lia|done].
  - destruct (IH (oc + 1) (nc + 1) reps) as (rs & -> & Hc); [done|lia..|].
    exists rs. split; [done|]. destruct rs as [|[[s l] seg] rs]; simpl in *; [lia|].
    destruct Hc. split; [lia|done].
Qed.

(** *** Ordering the replacements *)

Lemma chained_sorted idx len rs :
  chained idx len rs ↔
  idx ≤ len ∧ StronglySorted (λ a b, r_end a ≤ r_start b) rs ∧
  Forall (λ r, idx ≤ r_start r ∧ r_end r ≤ len) rs.
Proof.
  revert idx. induction rs as [|[[s l] seg] rs IH]; intros idx; simpl.
  { split; [|naive_solver]. intros. split_and!; [done|constructor|constructor]. }
  rewrite IH. split.
  - intros (? & ? & Hs & Hf). split_and!; [lia| |].
    + constructor; [done|]. eapply Forall_impl; [done|]. intros r [??]. simpl in *. lia.
    + constructor; simpl; [lia|]. eapply Forall_impl; [done|]. intros r [??]. lia.
  - intros (? & Hs & Hf). apply StronglySorted_inv in Hs as [Hs Hall].
    apply Forall_cons in Hf as [[??] Hf]. simpl in *. split_and!; [lia|lia|done|].
    apply Forall_forall. intros r Hr. rewrite Forall_forall in Hall, Hf.
    specialize (Hall r Hr). specialize (Hf r Hr). simpl in *. lia.
Qed.

Lemma insert_by_start_perm r rs : insert_by_start r rs ≡ₚ r :: rs.
Proof.
  induction rs as [|r' rs IH]; simpl; [done|]. case_decide; [done|]. rewrite IH. by constructor.
Qed.

Lemma sort_by_start_perm rs : sort_by_start rs ≡ₚ rs.
Proof. induction rs as [|r rs IH]; simpl; [done|]. by rewrite insert_by_start_perm, IH. Qed.

Lemma StronglySorted_insert R r rs :
  StronglySorted R rs → Forall (λ r', r_start r ≤ r_start r' → R r r') rs →
  Forall (λ r', r_start r' < r_start r → R r' r) rs →
  StronglySorted (λ a b, r_start a ≤ r_start b) rs → StronglySorted R (insert_by_start r rs).
Proof.
  induction 1 as [|r' rs Hs IH Hall]; simpl; intros H1 H2 Hle; [by repeat constructor|].
  apply Forall_cons in H1 as [H1 H1']. apply Forall_cons in H2 as [H2 H2'].
  apply StronglySorted_inv in Hle as [Hle Hle'].
  case_decide as Hd.
  - constructor; [by constructor|]. constructor; [auto|].
    rewrite Forall_forall in *. intros x Hx. apply H1'; [done|]. specialize (Hle' x Hx). simpl in *. lia.
  - constructor; [by apply IH|]. rewrite insert_by_start_perm. constructor; [apply H2; lia|done].
Qed.

Lemma sort_by_start_le rs : StronglySorted (λ a b, r_start a ≤ r_start b) (sort_by_start rs).
Proof.
  induction rs as [|r rs IH]; simpl; [constructor|].
  apply StronglySorted_insert; auto; apply Forall_forall; intros; lia.
Qed.

(** Replacements pushed in an order in which an earlier one ends before a later
    one begins, except for insertions at the end, sort into a chain. *)
Lemma sort_by_start_chained len rs :
  StronglySorted (λ a b, r_end a ≤ r_start b ∨ a.1 = (len, 0)) rs →
  Forall (λ r, r_end r ≤ len) rs → chained 0 len (sort_by_start rs).
Proof.
  intros Hs Hf. apply chained_sorted. split_and!; [lia| |].
  - induction Hs as [|r rs Hs IH Hall]; simpl; [constructor|].
    apply Forall_cons in Hf as [Hr Hf].
    apply StronglySorted_insert; [by apply IH|..|apply sort_by_start_le]; rewrite sort_by_start_perm;
      rewrite Forall_forall in *; intros r' Hr'; specialize (Hall r' Hr'); specialize (Hf r' Hr');
      destruct r as [[s l] seg], r' as [[s' l'] seg']; simpl in *; destruct Hall as [?|[= -> ->]]; lia.
  - rewrite sort_by_start_perm. eapply Forall_impl; [done|]. simpl. lia.
Qed.

(** *** The loop over the chunks *)

(** A loop whose body keeps an invariant and does not panic under it. *)
Lemma res_fold_no_panic {E A S} (P : S → Prop) (f : S → A → res E S) l :
  (∀ s x, P s → x ∈ l → f s x ≠ Panic ∧ ∀ s', f s x = Ok s' → P s') →
  ∀ s, P s → res_fold f s l ≠ Panic ∧ ∀ s', res_fold f s l = Ok s' → P s'.
Proof.
  induction l as [|x l IH]; intros Hf s Hs; simpl; [naive_solver|].
  destruct (Hf s x) as [Hp Hok]; [done|by left|].
  destruct (f s x) as [s1|e|]; simpl; [|naive_solver..].
  apply IH; [|by apply Hok]. intros. apply Hf; [done|by right].
Qed.

Lemma chunk_wf_ctx_ge c : Forall (λ x : nat * nat, 0 ≤ x.1 ∧ 0 ≤ x.2) (context_line_indices c).
Proof. apply Forall_forall. intros; lia. Qed.

(** The state of the loop under [PreserveLineEndings]. *)
Record preserve_inv (len : nat) (st : nat * list Replacement) : Prop := {
  pinv_index : st.1 ≤ len;
  pinv_sorted : StronglySorted (λ a b, r_end a ≤ r_start b ∨ a.1 = (len, 0)) st.2;
  pinv_bound : Forall (λ r, r_end r ≤ len) st.2;
  pinv_before : Forall (λ r, r_end r ≤ st.1 ∨ r.1 = (len, 0)) st.2;
}.

Lemma StronglySorted_app_intro {A} (R : A → A → Prop) l k :
  StronglySorted R l → StronglySorted R k → (∀ a b, a ∈ l → b ∈ k → R a b) →
  StronglySorted R (l ++ k).
Proof. intros. by apply StronglySorted_app. Qed.

Lemma preserve_inv_insert len li li' reps new :
  preserve_inv len (li, reps) → li ≤ li' ≤ len →
  preserve_inv len (li', reps ++ [(len, 0, new)]).
Proof.
  intros [Hi Hs Hb Hp] Hle. simpl in *. split; simpl; [lia| | |].
  - apply StronglySorted_app_intro; [done|repeat constructor|].
    intros a b Ha ->%list_elem_of_singleton. left. rewrite Forall_forall in Hb.
    specialize (Hb a Ha). simpl in *. lia.
  - apply Forall_app. split; [done|]. apply Forall_singleton. simpl. lia.
  - apply Forall_app. rewrite Forall_singleton. split; [|by right].
    eapply Forall_impl; [exact Hp|]. simpl. intros r [?|?]; [left; lia|by right].
Qed.

Lemma preserve_inv_found len li i l reps rs :
  preserve_inv len (li, reps) → li ≤ i → i + l ≤ len → chained i (i + l) rs →
  preserve_inv len (i + l, reps ++ rs).
Proof.
  intros [Hi Hs Hb Hp] Hli Hlen (_ & Hrs & Hf)%chained_sorted. simpl in *.
  rewrite Forall_forall in Hb, Hp, Hf. split; simpl; [lia| | |].
  - apply StronglySorted_app_intro; [done| |].
    + clear -Hrs. induction Hrs as [|r rs ? IH Hall]; constructor; [done|].
      eapply Forall_impl; [done|]. intros. by left.
    + intros a b Ha Hb'. destruct (Hp a Ha) as [?|?]; [left|by right].
      specialize (Hf b Hb'). simpl in *. lia.
  - apply Forall_forall. intros r [Hr|Hr]%elem_of_app; [by apply Hb|].
    specialize (Hf r Hr). simpl in *. lia.
  - apply Forall_forall. intros r [Hr|Hr]%elem_of_app.
    + destruct (Hp r Hr); [left; simpl in *; lia|by right].
    + left. specialize (Hf r Hr). simpl in *. lia.
Qed.

Lemma compute_chunk_preserve ls path st chunk :
  chunk_wf chunk → preserve_inv (length ls) st →
  compute_chunk ls path PreserveLineEndings st chunk ≠ Panic ∧
  ∀ st', compute_chunk ls path PreserveLineEndings st chunk = Ok st' → preserve_inv (length ls) st'.
Proof.
  intros Hwf Hst. destruct st as [li reps]. unfold compute_chunk.
  destruct (seek_context_spec ls PreserveLineEndings path chunk li) as [Hnp Hk]; [by apply Hst|].
  destruct (seek_context _ _ _ _ _) as [li'|e|]; [|naive_solver..]. simpl.
  specialize (Hk _ eq_refl). case_decide.
  { split; [done|]. intros st' [= <-]. by eapply preserve_inv_insert. }
  destruct (seek_old_lines_spec ls PreserveLineEndings chunk li') as (o & -> & Ho); [lia|]. simpl.
  destruct o as [[[i pattern] new_slice]|]; [|done].
  destruct (Ho i pattern new_slice) as (H1 & H2 & _ & _); [done|]. specialize (H2 eq_refl).
  destruct (context_loop_chained i pattern new_slice (context_line_indices chunk) 0 0 reps)
    as (rs & -> & Hc); [apply Hwf|apply chunk_wf_ctx_ge|lia..|]. simpl.
  split; [done|]. intros st' [= <-].
  rewrite Nat.add_0_r in Hc. apply preserve_inv_found with li; [done|lia..|done].
Qed.

(** The state of the loop in both modes. *)
Definition starts_inv (len : nat) (st : nat * list Replacement) : Prop :=
  st.1 ≤ len ∧ Forall (λ r, r_start r ≤ len) st.2.

Lemma compute_chunk_lf ls path st chunk :
  starts_inv (length ls) st →
  compute_chunk ls path NormalizeToLf st chunk ≠ Panic ∧
  ∀ st', compute_chunk ls path NormalizeToLf st chunk = Ok st' → starts_inv (length ls) st'.
Proof.
  intros [Hli Hst]. destruct st as [li reps]. unfold compute_chunk. simpl in Hli, Hst.
  destruct (seek_context_spec ls NormalizeToLf path chunk li Hli) as [Hnp Hk].
  destruct (seek_context _ _ _ _ _) as [li'|e|]; [|naive_solver..]. cbn [res_bind].
  specialize (Hk _ eq_refl). case_decide.
  { destruct (insertion_idx_spec ls NormalizeToLf) as (i & -> & Hi & _). simpl.
    split; [done|]. intros st' [= <-]. split; simpl; [lia|].
    apply Forall_app. split; [done|]. by apply Forall_singleton. }
  destruct (seek_old_lines_spec ls NormalizeToLf chunk li') as (o & -> & Ho); [lia|]. simpl.
  destruct o as [[[i pattern] new_slice]|]; [|done].
  destruct (Ho i pattern new_slice) as (H1 & _ & _ & _); [done|].
  split; [done|]. intros st' [= <-]. split; simpl; [lia|].
  apply Forall_app. split; [done|]. apply Forall_singleton. simpl. lia.
Qed.

Lemma compute_replacements_preserve ls path chunks :
  Forall chunk_wf chunks →
  compute_replacements ls path PreserveLineEndings chunks ≠ Panic ∧
  ∀ reps, compute_replacements ls path PreserveLineEndings chunks = Ok reps →
    chained 0 (length ls) reps.
Proof.
  intros Hwf. unfold compute_replacements. rewrite Forall_forall in Hwf.
  destruct (res_fold_no_panic (preserve_inv (length ls))
    (compute_chunk ls path PreserveLineEndings) chunks) with (s := (0, @nil Replacement)) as [Hp Hok].
  { intros. apply compute_chunk_preserve; auto. }
  { split; simpl; [lia|constructor..]. }
  destruct (res_fold _ _ _) as [[li reps]|e|]; simpl; [|naive_solver..].
  split; [done|]. intros reps' [= <-]. destruct (Hok _ eq_refl) as [_ Hs Hb _].
  by apply sort_by_start_chained.
Qed.

Lemma compute_replacements_lf ls path chunks :
  compute_replacements ls path NormalizeToLf chunks ≠ Panic ∧
  ∀ reps, compute_replacements ls path NormalizeToLf chunks = Ok reps →
    StronglySorted (λ a b, r_start a ≤ r_start b) reps ∧ Forall (λ r, r_start r ≤ length ls) reps.
Proof.
  unfold compute_replacements.
  destruct (res_fold_no_panic (starts_inv (length ls))
    (compute_chunk ls path NormalizeToLf) chunks) with (s := (0, @nil Replacement)) as [Hp Hok].
  { intros. by apply compute_chunk_lf. }
  { split; simpl; [lia|constructor]. }
  destruct (res_fold _ _ _) as [[li reps]|e|]; simpl; [|naive_solver..].
  split; [done|]. intros reps' [= <-]. destruct (Hok _ eq_refl) as [_ Hb].
  split; [apply sort_by_start_le|]. by rewrite sort_by_start_perm.
Qed.

(** *** In-place application *)

Lemma remove_lines_spec {A} n start (l : list A) :
  remove_lines n start l = take start l ++ drop (start + n) l.
Proof.
  revert l. induction n as [|n IH]; intros l; simpl.
  { by rewrite Nat.add_0_r, take_drop. }
  rewrite IH. case_decide as Hs.
  - rewrite delete_take_drop. rewrite take_app_le, take_take by (rewrite length_take; lia).
    rewrite drop_app_ge by (rewrite length_take; lia). rewrite length_take, drop_drop.
    f_equal; f_equal; lia.
  - rewrite !(drop_ge l) by lia. done.
Qed.

Lemma insert_lines_spec {E A} i (new l : list A) :
  i ≤ length l → insert_lines (E := E) i new l = Ok (take i l ++ new ++ drop i l).
Proof.
  revert i l. induction new as [|x new IH]; intros i l Hi; simpl; [by rewrite take_drop|].
  unfold vec_insert. rewrite decide_True by done. simpl.
  rewrite IH by (rewrite length_app; simpl; rewrite length_take, length_drop; lia).
  assert (length (take i l) = i) as Ht by (rewrite length_take; lia).
  f_equal. rewrite (take_app_ge _ _ (S i)), (drop_app_ge _ _ (S i)) by lia. rewrite Ht.
  replace (S i - i) with 1 by lia. simpl. rewrite drop_0, take_0. by rewrite <-app_assoc.
Qed.

Lemma apply_replacements_cons {E} ls r reps :
  apply_replacements (E := E) ls (r :: reps) =
  (let? ls' := apply_replacements ls reps in apply_replacement ls' r).
Proof.
  unfold apply_replacements. rewrite reverse_cons, res_fold_app.
  destruct (res_fold _ _ _); simpl; [|done..]. by destruct (apply_replacement _ r).
Qed.

(** In-place application from the last replacement to the first is the splice. *)
Lemma apply_replacements_splice {E} ls idx reps :
  chained idx (length ls) reps →
  apply_replacements (E := E) ls reps = Ok (take idx ls ++ splice id (drop idx ls) idx reps).
Proof.
  revert idx. induction reps as [|[[s l] seg] reps IH]; intros idx Hc.
  { simpl. by rewrite take_drop. }
  destruct Hc as [Hs Hc]. pose proof (chained_le _ _ _ Hc) as Hle.
  rewrite apply_replacements_cons, (IH _ Hc). cbn [res_bind apply_replacement].
  assert (∀ T, take s (take (s + l) ls ++ T) = take s ls) as Htake.
  { intros T. rewrite take_app_le, take_take by (rewrite length_take; lia). f_equal. lia. }
  assert (∀ T, drop (s + l) (take (s + l) ls ++ T) = T) as Hdrop.
  { intros T. rewrite drop_app_ge by (rewrite length_take; lia). rewrite length_take.
    replace (s + l - (s + l) `min` length ls) with 0 by lia. apply drop_0. }
  assert (length (take s ls) = s) as Hlen by (rewrite length_take; lia).
  rewrite remove_lines_spec, Htake, Hdrop, insert_lines_spec by (rewrite length_app; lia).
  rewrite take_app_le, take_take, drop_app_ge, Hlen by (rewrite Hlen; lia).
  rewrite Nat.min_id, Nat.sub_diag, drop_0. simpl. rewrite list_fmap_id, drop_drop.
  replace (idx + (s - idx + l)) with (s + l) by lia. f_equal. rewrite (app_assoc (take idx ls)).
  f_equal. rewrite <-(take_drop idx (take s ls)), take_take, skipn_firstn_comm. f_equal. f_equal. lia.
Qed.

(** Starts within the file, in order, are enough for insertion never to panic. *)
Lemma apply_replacements_total {E} ls k reps :
  StronglySorted (λ a b, r_start a ≤ r_start b) reps →
  Forall (λ r, k ≤ r_start r ≤ length ls) reps → k ≤ length ls →
  ∃ ls', apply_replacements (E := E) ls reps = Ok ls' ∧ take k ls' = take k ls ∧ k ≤ length ls'.
Proof.
  intros Hs. revert k. induction Hs as [|[[s l] seg] reps Hs IH Hall]; intros k Hf Hk.
  { by exists ls. }
  apply Forall_cons in Hf as [[Hks Hsl] Hf]. simpl in Hks, Hsl.
  destruct (IH s) as (ls1 & H1 & Ht & Hl); [|done|].
  { rewrite Forall_forall in *. intros r Hr. specialize (Hall r Hr). specialize (Hf r Hr).
    simpl in *. lia. }
  rewrite apply_replacements_cons, H1. cbn [res_bind apply_replacement].
  assert (length (take s ls1) = s) as Hlen by (rewrite length_take; lia).
  rewrite remove_lines_spec, insert_lines_spec by (rewrite length_app; lia).
  eexists. split; [done|]. rewrite (take_app_le (take s ls1) _ s), take_take, Nat.min_id by lia.
  split.
  - rewrite take_app_le, Ht, take_take by lia. f_equal. lia.
  - rewrite length_app. lia.
Qed.

(** *** What a located chunk does to the lines of a file *)

Section woven.
Context {A : Type} (new_line : rstring → A).

(** The new side of a chunk in which each context line is the file's own line:
    [region] are the lines of the file that the pattern was found at. *)
Fixpoint woven (region : list A) (new_slice : list rstring) (ctx : list (nat * nat)) (o n : nat)
    : list A :=
  match ctx with
  | (oc, nc) :: ctx' =>
      if decide (length region ≤ oc ∨ length new_slice ≤ nc) then new_line <$> drop n new_slice
      else (new_line <$> take (nc - n) (drop n new_slice)) ++ option_list (region !! oc)
           ++ woven region new_slice ctx' (oc + 1) (nc + 1)
  | [] => new_line <$> drop n new_slice
  end.

Lemma splice_app src tl idx rs :
  chained idx (idx + length src) rs →
  splice new_line (src ++ tl) idx rs = splice new_line src idx rs ++ tl.
Proof.
  revert src idx. induction rs as [|[[s l] seg] rs IH]; intros src idx; [done|].
  intros [Hs Hc]. pose proof (chained_le _ _ _ Hc). simpl.
  rewrite take_app_le, drop_app_le by lia. rewrite IH; [by rewrite <-!app_assoc|].
  rewrite length_drop. replace (s + l + (length src - (s - idx + l))) with (idx + length src) by lia.
  done.
Qed.

Lemma splice_skip pre src idx len rs :
  chained (idx + length pre) len rs →
  splice new_line (pre ++ src) idx rs = pre ++ splice new_line src (idx + length pre) rs.
Proof.
  destruct rs as [|[[s l] seg] rs]; [done|]. intros [Hs Hc]. simpl.
  rewrite take_app_ge, drop_app_ge by lia. rewrite <-!app_assoc.
  do 3 f_equal; [lia|]. f_equal. f_equal. lia.
Qed.

(** A chain of replacements inside one region of a file. *)
Lemma splice_region L i l rs :
  i + l ≤ length L → chained i (i + l) rs →
  splice new_line L 0 rs =
  take i L ++ splice new_line (take l (drop i L)) i rs ++ drop (i + l) L.
Proof.
  intros Hl Hc. rewrite <-(take_drop i L) at 1. rewrite <-(take_drop l (drop i L)) at 1.
  assert (length (take i L) = i) as Hi by (rewrite length_take; lia).
  rewrite (splice_skip _ _ 0 (i + l)) by (by rewrite Hi). rewrite Hi. simpl.
  rewrite splice_app, drop_drop; [done|]. rewrite length_take, length_drop.
  replace (l `min` (length L - i)) with l by lia. done.
Qed.

Lemma context_loop_woven start_idx pattern new_slice region ctx o n reps rs :
  length region = length pattern →
  StronglySorted ctx_lt ctx → Forall (λ c, o ≤ c.1 ∧ n ≤ c.2) ctx →
  o ≤ length pattern → n ≤ length new_slice →
  context_loop start_idx pattern new_slice ctx o n reps = Ok (reps ++ rs) →
  splice new_line (drop o region) (start_idx + o) rs = woven region new_slice ctx o n.
Proof.
  intros Hr Hs. assert (∀ reps rs o n, o ≤ length pattern → n ≤ length new_slice →
    (if decide (o ≠ length pattern ∨ n ≠ length new_slice) then
      let? l := usize_sub (length pattern) o in
      let? seg := or_panic (slice new_slice n (length new_slice)) in
      Ok (reps ++ [(start_idx + o, l, seg)])
     else Ok reps) = Ok (E := ApplyPatchError) (reps ++ rs) →
    splice new_line (drop o region) (start_idx + o) rs = new_line <$> drop n new_slice) as Hfin.
  { intros reps' rs' o' n' Ho Hn. unfold usize_sub, slice. case_decide as Hd.
    - rewrite !decide_True by lia. simpl. intros [= <-%app_inv_head]. simpl.
      rewrite Nat.sub_diag, take_0, (drop_ge (drop _ _)) by (rewrite length_drop; lia).
      by rewrite take_ge, app_nil_r by (rewrite length_drop; lia).
    - intros [= Heq]. rewrite <-(app_nil_r reps') in Heq at 1. apply app_inv_head in Heq as <-.
      simpl. rewrite !drop_ge by lia. done. }
  revert o n reps rs. induction Hs as [|[oc nc] ctx Hs IH Hall]; intros o n reps rs Hge Ho Hn;
    [by apply Hfin|].
  apply Forall_cons in Hge as [[Hoc Hnc] _]. simpl in Hoc, Hnc. cbn [context_loop woven].
  rewrite Hr. destruct (decide (length pattern ≤ oc ∨ length new_slice ≤ nc)) as [|Hin];
    [by apply Hfin|].
  pose proof (ctx_lt_after _ _ _ Hall) as Hge'.
  destruct (lookup_lt_is_Some_2 region oc) as [x Hx]; [lia|].
  assert (∀ rs', chained (start_idx + (oc + 1)) (start_idx + length pattern) rs' →
    splice new_line (drop oc region) (start_idx + oc) rs' =
    x :: splice new_line (drop (oc + 1) region) (start_idx + (oc + 1)) rs') as Hskip.
  { intros rs' Hc'. rewrite (drop_S _ _ _ Hx).
    replace (oc + 1) with (S oc) by lia. change (x :: ?l) with ([x] ++ l).
    rewrite (splice_skip _ _ _ (start_idx + length pattern)).
    - simpl. do 2 f_equal. lia.
    - simpl. replace (start_idx + oc + 1) with (start_idx + (oc + 1)) by lia. done. }
  unfold usize_sub, slice. rewrite Hx. case_decide; rewrite ?decide_True by lia; simpl.
  - destruct (context_loop_chained start_idx pattern new_slice ctx (oc + 1) (nc + 1)
      (reps ++ [(start_idx + o, oc - o, take (nc - n) (drop n new_slice))]))
      as (rs' & Heq & Hc); [done|done|lia..|].
    rewrite Heq, <-app_assoc. intros [= <-%app_inv_head]. simpl.
    rewrite Nat.sub_diag, take_0, drop_drop. simpl.
    replace (o + (oc - o)) with oc by lia. replace (start_idx + o + (oc - o)) with (start_idx + oc) by lia.
    rewrite Hskip, (IH _ _ _ _ Hge' ltac:(lia) ltac:(lia) Heq) by done. done.
  - destruct (context_loop_chained start_idx pattern new_slice ctx (oc + 1) (nc + 1) reps)
      as (rs' & Heq & Hc); [done|done|lia..|].
    rewrite Heq. intros [= <-%app_inv_head]. assert (o = oc) as -> by lia. assert (n = nc) as -> by lia.
    rewrite Nat.sub_diag, take_0. simpl.
    rewrite Hskip, (IH _ _ _ _ Hge' ltac:(lia) ltac:(lia) Heq) by done. done.
Qed.

(** Where the file's lines are those of the pattern, weaving is replacing. *)
Lemma woven_exact old new_slice ctx o n :
  StronglySorted ctx_lt ctx → Forall (λ c, o ≤ c.1 ∧ n ≤ c.2) ctx →
  Forall (λ '(oc, nc), ∀ l, old !! oc = Some l → new_slice !! nc = Some l ∨ length new_slice ≤ nc) ctx →
  woven (new_line <$> old) new_slice ctx o n = new_line <$> drop n new_slice.
Proof.
  intros Hs. revert o n. induction Hs as [|[oc nc] ctx Hs IH Hall]; intros o n Hge Hl; [done|].
  apply Forall_cons in Hge as [[Hoc Hnc] _]. apply Forall_cons in Hl as [Hl0 Hl]. simpl in Hoc, Hnc.
  cbn [woven]. rewrite length_fmap. case_decide as Hd; [done|].
  destruct (lookup_lt_is_Some_2 old oc) as [x Hx]; [lia|]. rewrite list_lookup_fmap, Hx. simpl.
  destruct (Hl0 _ Hx) as [Hn|?]; [|lia]. rewrite (IH (oc + 1) (nc + 1)) by (done || by apply ctx_lt_after).
  rewrite <-fmap_cons, <-fmap_app. f_equal. replace (nc + 1) with (S nc) by lia.
  rewrite <-(drop_S _ _ _ Hn). replace (drop nc new_slice) with (drop (nc - n) (drop n new_slice)).
  - apply take_drop.
  - rewrite drop_drop. f_equal. lia.
Qed.

End woven.

(** *** Files all of whose lines end in LF *)

Definition file_text (ls : list rstring) : rstring := concat ((λ l, l ++ [LF]) <$> ls).

Definition lf_line (t : rstring) : SourceLine := {| text := t; ending := Some Lf |}.

Lemma file_text_cons l ls : file_text (l :: ls) = l ++ (LF :: file_text ls).
Proof. unfold file_text. rewrite fmap_cons. simpl. by rewrite <-app_assoc. Qed.

Lemma file_text_split ls : Forall (λ l, LF ∉ l) ls → split_char LF (file_text ls) = ls ++ [[]].
Proof.
  induction 1 as [|l ls Hl _ IH]; [done|]. by rewrite file_text_cons, split_char_app, IH.
Qed.

Lemma lf_lines_file_text ls : Forall (λ l, LF ∉ l) ls → lf_lines (file_text ls) = ls.
Proof.
  intros Hls. unfold lf_lines. rewrite file_text_split by done.
  assert (last_is_empty (ls ++ [[]]) = true) as ->.
  { unfold last_is_empty. by rewrite last_snoc, bool_decide_true. }
  rewrite length_app. simpl. replace (pred (length ls + 1)) with (length ls) by lia.
  apply take_app_length.
Qed.

Lemma join_file_text ls : join [LF] (ls ++ [[]]) = file_text ls.
Proof.
  induction ls as [|l ls IH]; [done|]. cbn [app]. rewrite join_cons by (by destruct ls).
  by rewrite IH, file_text_cons.
Qed.

Lemma lf_text_spec ls : lf_text ls ++ (if last_is_empty ls then [LF] else []) = file_text ls.
Proof.
  unfold lf_text. destruct (last_is_empty ls) eqn:E; [|by rewrite app_nil_r, join_file_text].
  apply last_is_empty_snoc in E. rewrite E, join_file_text. unfold file_text.
  rewrite fmap_app, concat_app. done.
Qed.

Lemma parse_loop_text l rest cur done_ls pref :
  no_break l → parse_loop (l ++ (LF :: rest)) cur done_ls pref =
  parse_loop rest [] (done_ls ++ [lf_line (cur ++ l)]) (get_or_insert pref Lf).
Proof.
  revert cur. induction l as [|c l IH]; intros cur [H1 H2]; [by rewrite app_nil_r|].
  apply not_elem_of_cons in H1 as [H1 H1']. apply not_elem_of_cons in H2 as [H2 H2'].
  cbn [app parse_loop]. rewrite (proj2 (N.eqb_neq c CR)), (proj2 (N.eqb_neq c LF)) by congruence.
  rewrite IH by done. by rewrite <-app_assoc.
Qed.

Lemma source_parse_file_text ls :
  Forall no_break ls →
  source_parse (file_text ls) = {| source_lines := lf_line <$> ls; preferred_ending := Lf |}.
Proof.
  intros Hls. unfold source_parse.
  cut (∀ acc pref, pref = None ∨ pref = Some Lf →
    ∃ pref', parse_loop (file_text ls) [] acc pref = (acc ++ (lf_line <$> ls), pref') ∧
             (pref' = None ∨ pref' = Some Lf)).
  { intros H. destruct (H [] None) as (p' & -> & Hp'); [by left|]. by destruct Hp' as [-> | ->]. }
  induction Hls as [|l ls Hl _ IH]; intros acc pref Hp.
  { exists pref. split; [|done]. simpl. by rewrite app_nil_r. }
  rewrite file_text_cons, parse_loop_text by done.
  destruct (IH (acc ++ [lf_line l]) (get_or_insert pref Lf)) as (p' & Hp' & ?).
  { destruct Hp as [-> | ->]; by right. }
  exists p'. split; [|done]. simpl. rewrite Hp'. by rewrite <-app_assoc.
Qed.

Lemma into_contents_lf ls pref :
  into_contents {| source_lines := lf_line <$> ls; preferred_ending := pref |} = file_text ls.
Proof. unfold into_contents, file_text. simpl. by rewrite <-list_fmap_compose. Qed.

(** *** Single chunks *)

(** The first exact match is what the search returns. *)
Lemma seek_sequence_exact {E} ls pattern start i mode :
  pattern ≠ [] → start ≤ i → match_at 0 ls pattern i →
  (∀ j, start ≤ j < i → ¬ match_at 0 ls pattern j) →
  seek_sequence (E := E) ls pattern start false mode = Ok (Some i).
Proof.
  intros Hne Hs Hm Hmin.
  destruct (seek_sequence_ok (E := E) ls pattern start false mode Hne) as (o & -> & Ho).
  unfold search_start in Ho. cbn [andb] in Ho. f_equal. destruct o as [i'|].
  - destruct Ho as (Hi' & k & _ & Hm' & Hmin' & Hlow). f_equal.
    assert (k = 0) as -> by (destruct k; [done|]; exfalso; by apply (Hlow 0 i); [lia|..]).
    destruct (Nat.lt_trichotomy i i') as [Hlt|[?|Hgt]]; [|done|].
    + exfalso. by apply (Hmin' i); [lia|].
    + exfalso. by apply (Hmin i'); [lia|].
  - exfalso. by apply (Ho 0 i).
Qed.

Lemma compute_single ls path mode c s i pattern new_slice :
  seek_context ls path mode c 0 = Ok s → old_lines c ≠ [] →
  seek_old_lines ls mode c s = Ok (Some (i, pattern, new_slice)) →
  compute_replacements ls path mode [c] =
  (let? rs := push_found mode c i pattern new_slice [] in Ok (sort_by_start rs)).
Proof.
  intros Hctx Hold Hseek. unfold compute_replacements. simpl. rewrite Hctx. simpl.
  rewrite decide_False by done. rewrite Hseek. simpl.
  by destruct (push_found _ _ _ _ _ _).
Qed.

Lemma sort_by_start_id idx len rs : chained idx len rs → sort_by_start rs = rs.
Proof.
  intros (_ & Hs & _)%chained_sorted. induction Hs as [|r rs Hs IH Hall]; [done|].
  simpl. rewrite IH. destruct rs as [|r' rs]; [done|]. simpl.
  apply Forall_cons in Hall as [Hle _]. rewrite decide_True; [done|]. simpl in *. lia.
Qed.

(** The lines of a file after one located chunk, under [PreserveLineEndings]. *)
Lemma single_chunk_preserve {A} (new_line : rstring → A) (L : list A) ls path c s i pattern new_slice :
  length L = length ls → chunk_wf c → seek_context ls path PreserveLineEndings c 0 = Ok s → old_lines c ≠ [] →
  seek_old_lines ls PreserveLineEndings c s = Ok (Some (i, pattern, new_slice)) →
  ∃ reps, compute_replacements ls path PreserveLineEndings [c] = Ok reps ∧
    chained 0 (length ls) reps ∧
    splice new_line L 0 reps =
      take i L ++ woven new_line (take (length pattern) (drop i L)) new_slice
                    (context_line_indices c) 0 0 ++ drop (i + length pattern) L.
Proof.
  intros HL Hwf Hctx Hold Hseek.
  assert (i + length pattern ≤ length ls) as Hlen.
  { apply seek_context_spec in Hctx; [|lia].
    destruct (seek_old_lines_spec ls PreserveLineEndings c s) as (o & Ho & Hb); [lia|].
    rewrite Hseek in Ho. injection Ho as <-. by edestruct Hb. }
  destruct (context_loop_chained i pattern new_slice (context_line_indices c) 0 0 [])
    as (rs & Hrs & Hc); [apply Hwf|apply chunk_wf_ctx_ge|lia..|]. rewrite Nat.add_0_r in Hc.
  rewrite (compute_single _ _ _ _ s i pattern new_slice) by done. cbn [push_found].
  rewrite Hrs. cbn [res_bind app]. rewrite (sort_by_start_id _ _ _ Hc).
  exists rs. split; [done|]. split.
  { apply chained_sorted in Hc as (_ & ? & Hf). apply chained_sorted. split_and!; [lia|done|].
    eapply Forall_impl; [done|]. intros r [??]. simpl in *. lia. }
  rewrite (splice_region new_line L i (length pattern)) by (done || lia). f_equal. f_equal.
  rewrite <-(context_loop_woven new_line i pattern new_slice _ (context_line_indices c) 0 0 [] rs);
    [by rewrite Nat.add_0_r|..|done]; try lia; [|apply Hwf|apply chunk_wf_ctx_ge].
  rewrite length_take, length_drop. lia.
Qed.

Lemma chunk_wf_exact c :
  chunk_wf c →
  Forall (λ '(oc, nc), ∀ l, old_lines c !! oc = Some l →
    new_lines c !! nc = Some l ∨ length (new_lines c) ≤ nc) (context_line_indices c).
Proof.
  intros [_ Hl]. eapply Forall_impl; [done|]. intros [oc nc] (l & H1 & H2) l' Hl'.
  left. congruence.
Qed.

(** A chunk whose old lines stand verbatim in the file, first after [pre]. *)
(** Where the old lines of a chunk may begin: anywhere without a change context, and after the
    first line that is the context with one. *)
Definition context_end (c : UpdateFileChunk) (ls : list rstring) (s : nat) : Prop :=
  match change_context c with
  | None => s = 0
  | Some ctx => ∃ i, s = S i ∧ ls !! i = Some ctx ∧ ∀ j, j < i → ls !! j ≠ Some ctx
  end.

Record exact_chunk (c : UpdateFileChunk) (s : nat) (pre post : list rstring) : Prop := {
  ec_wf : chunk_wf c;
  ec_context : context_end c (pre ++ old_lines c ++ post) s;
  ec_start : s ≤ length pre;
  ec_eof : is_end_of_file c = false;
  ec_old : old_lines c ≠ [];
  ec_first : ∀ j, s ≤ j < length pre → ¬ match_at 0 (pre ++ old_lines c ++ post) (old_lines c) j;
}.

Lemma match_at_line ls l i : match_at 0 ls [l] i ↔ ls !! i = Some l.
Proof.
  unfold match_at. cbn [length]. split.
  - intros [Hi Hf]. destruct (lookup_lt_is_Some_2 ls i) as [x Hx]; [lia|].
    rewrite (drop_S _ _ _ Hx) in Hf. cbn in Hf. apply Forall2_cons in Hf as [-> _]. done.
  - intros Hl. split; [apply lookup_lt_Some in Hl; lia|]. rewrite (drop_S _ _ _ Hl). cbn. by repeat constructor.
Qed.

Lemma exact_chunk_context c s pre post path mode :
  exact_chunk c s pre post → seek_context (pre ++ old_lines c ++ post) path mode c 0 = Ok s.
Proof.
  intros [_ Hc _ _ _ _]. unfold context_end in Hc. unfold seek_context.
  destruct (change_context c) as [ctx|]; [|by rewrite Hc].
  destruct Hc as (i & -> & Hi & Hfirst). rewrite (seek_sequence_exact _ _ _ i); [|done|lia|by apply match_at_line|].
  - cbn [res_bind]. by rewrite Nat.add_1_r.
  - intros j Hj Hm%match_at_line. by apply (Hfirst j); [lia|].
Qed.

Lemma exact_chunk_match c pre post :
  match_at 0 (pre ++ old_lines c ++ post) (old_lines c) (length pre).
Proof.
  split; [rewrite !length_app; lia|]. rewrite drop_app_length, take_app_length.
  by apply list_eq_Forall2.
Qed.

Lemma exact_chunk_seek c s pre post mode :
  exact_chunk c s pre post →
  seek_old_lines (pre ++ old_lines c ++ post) mode c s =
  Ok (Some (length pre, old_lines c, new_lines c)).
Proof.
  intros []. unfold seek_old_lines. rewrite ec_eof0.
  rewrite (seek_sequence_exact _ _ _ (length pre)); [done|done|lia|apply exact_chunk_match|].
  intros j ?. by apply ec_first0.
Qed.

Lemma exact_chunk_lf c s pre post path :
  exact_chunk c s pre post → Forall no_break (pre ++ old_lines c ++ post) →
  new_contents path (file_text (pre ++ old_lines c ++ post)) [c] NormalizeToLf =
  Ok (lf_text (pre ++ new_lines c ++ post)).
Proof.
  intros Hc Hnb. cbn [new_contents]. rewrite lf_lines_file_text.
  2:{ eapply Forall_impl; [done|]. by intros l []. }
  rewrite (compute_single _ _ _ _ s (length pre) (old_lines c) (new_lines c));
    [|by apply exact_chunk_context|apply Hc|by apply exact_chunk_seek].
  cbn [push_found res_bind sort_by_start foldr insert_by_start app].
  rewrite (apply_replacements_splice _ 0); [|simpl; rewrite !length_app; lia].
  cbn [res_bind splice]. rewrite take_0, !drop_0, list_fmap_id, Nat.sub_0_r, take_app_length.
  cbn [app].
  by rewrite <-drop_drop, !drop_app_length.
Qed.

Lemma exact_chunk_preserve c s pre post path :
  exact_chunk c s pre post → Forall no_break (pre ++ old_lines c ++ post) →
  new_contents path (file_text (pre ++ old_lines c ++ post)) [c] PreserveLineEndings =
  Ok (file_text (pre ++ new_lines c ++ post)).
Proof.
  intros Hc Hnb. cbn [new_contents]. rewrite source_parse_file_text by done.
  unfold line_texts. simpl. rewrite <-list_fmap_compose, (list_fmap_id (pre ++ _)).
  destruct (single_chunk_preserve lf_line (lf_line <$> pre ++ old_lines c ++ post)
    (pre ++ old_lines c ++ post) path c s (length pre) (old_lines c) (new_lines c))
    as (reps & Hreps & Hch & Hsp); [by rewrite length_fmap|apply Hc|by apply exact_chunk_context|apply Hc| |].
  { by apply exact_chunk_seek. }
  rewrite Hreps. cbn [res_bind]. unfold source_apply_replacements. cbn [preferred_ending source_lines].
  rewrite (splice_source_splice _ _ 0 (length (pre ++ old_lines c ++ post)));
    [|done|by rewrite length_fmap, Nat.add_0_r].
  cbn [res_bind]. fold lf_line. rewrite Hsp. rewrite !fmap_app at 1.
  rewrite take_app_length' by (by rewrite length_fmap).
  rewrite <-drop_drop, !(drop_app_length' (lf_line <$> pre)) by (by rewrite length_fmap).
  rewrite take_app_length', drop_app_length' by (by rewrite length_fmap).
  rewrite woven_exact; [|apply Hc|apply chunk_wf_ctx_ge|by apply chunk_wf_exact, Hc].
  rewrite drop_0, <-!fmap_app, <-list_fmap_compose.
  by rewrite <-into_contents_lf with (pref := Lf).
Qed.

(** ** Properties *)

(** C4: computing the new contents of a file never panics, in either mode, for
    any file and any chunks the parser can produce: no index or slice is out of
    range, no subtraction underflows, no insertion is past the end, and the
    replacements never overlap where the [debug_assert!] forbids it. *)
Theorem new_contents_no_panic path contents chunks mode :
  Forall chunk_wf chunks → new_contents path contents chunks mode ≠ Panic.
Proof.
  intros Hwf. destruct mode; cbn [new_contents].
  - destruct (compute_replacements_lf (lf_lines contents) path chunks) as [Hp Hok].
    apply res_bind_not_Panic; [done|]. intros reps [Hs Hf]%Hok.
    destruct (apply_replacements_total (E := ApplyPatchError) (lf_lines contents) 0 reps)
      as (ls' & -> & _); [done| |lia|done].
    eapply Forall_impl; [done|]. simpl. lia.
  - destruct (compute_replacements_preserve (line_texts (source_parse contents)) path chunks)
      as [Hp Hok]; [done|].
    apply res_bind_not_Panic; [done|]. intros reps Hc%Hok. unfold source_apply_replacements.
    rewrite (splice_source_splice _ _ 0 (length (line_texts (source_parse contents)))); [done|done|].
    unfold line_texts. rewrite length_fmap. lia.
Qed.

Definition sample_chunk : UpdateFileChunk :=
  {| change_context := None; old_lines := [str "b"; str "c"]; new_lines := [str "b"; str "d"];
     context_line_indices := [(0, 0)]; is_end_of_file := false |}.

Lemma sample_chunk_wf : chunk_wf sample_chunk.
Proof.
  split; simpl; [by repeat constructor|]. apply Forall_singleton. by exists (str "b").
Qed.

Lemma new_contents_no_panic_witness :
  new_contents [] (file_text [str "a"; str "b"; str "c"]) [sample_chunk] PreserveLineEndings ≠ Panic.
Proof.
  apply new_contents_no_panic. apply Forall_singleton. apply sample_chunk_wf.
Defined.

(** Under [PreserveLineEndings] an update touches nothing but what its chunks
    replace: the new file is the old one with an ordered, non-overlapping list
    of line ranges replaced, every other line keeps its text and its ending, and
    inserted lines as well as an unterminated line get the preferred ending. *)
Theorem preserve_keeps_untouched_lines path contents chunks new :
  Forall chunk_wf chunks →
  new_contents path contents chunks PreserveLineEndings = Ok new →
  let f := source_parse contents in
  ∃ reps, chained 0 (length (source_lines f)) reps ∧
    new = concat (line_contents <$> (fill_ending (preferred_ending f) <$>
            splice (λ t, {| text := t; ending := Some (preferred_ending f) |})
              (source_lines f) 0 reps)).
Proof.
  intros Hwf. cbn [new_contents]. intros (reps & Hr & H)%res_bind_Ok.
  apply compute_replacements_preserve in Hr; [|done]. unfold line_texts in Hr.
  rewrite length_fmap in Hr. exists reps. split; [done|]. revert H.
  unfold source_apply_replacements.
  rewrite (splice_source_splice _ _ 0 (length (source_lines (source_parse contents)))) by (done || lia).
  simpl. by intros [= <-].
Qed.

Lemma preserve_keeps_untouched_lines_witness :
  let f := source_parse (file_text [str "a"; str "b"; str "c"]) in
  ∃ reps, chained 0 (length (source_lines f)) reps ∧
    file_text [str "a"; str "b"; str "d"] =
      concat (line_contents <$> (fill_ending (preferred_ending f) <$>
        splice (λ t, {| text := t; ending := Some (preferred_ending f) |}) (source_lines f) 0 reps)).
Proof.
  apply (preserve_keeps_untouched_lines [] (file_text [str "a"; str "b"; str "c"]) [sample_chunk]).
  - apply Forall_singleton. apply sample_chunk_wf.
  - by vm_compute.
Defined.

(** The two ways of applying replacements agree: on an ordered,
    non-overlapping list, removing and inserting in place from the last
    replacement to the first gives the same line texts as rebuilding the file
    from the first to the last, and both give the splice. *)
Theorem apply_replacements_agree (E : Type) f reps :
  chained 0 (length (source_lines f)) reps →
  apply_replacements (E := E) (line_texts f) reps = Ok (splice id (line_texts f) 0 reps) ∧
  (line_texts <$> match source_apply_replacements (E := E) f reps with Ok f' => Some f' | _ => None end) =
    Some (splice id (line_texts f) 0 reps).
Proof.
  intros Hc. unfold line_texts. split.
  - rewrite (apply_replacements_splice _ 0), take_0, drop_0; [done|]. by rewrite length_fmap.
  - unfold source_apply_replacements.
    rewrite (splice_source_splice _ _ 0 (length (source_lines f))) by (done || lia). simpl.
    by rewrite <-list_fmap_compose, fmap_splice.
Qed.

Lemma apply_replacements_agree_witness :
  apply_replacements (E := unit) (line_texts (source_parse (file_text [str "a"; str "b"])))
    [(0, 1, [str "x"; str "y"]); (2, 0, [str "z"])] =
  Ok (splice id (line_texts (source_parse (file_text [str "a"; str "b"]))) 0
        [(0, 1, [str "x"; str "y"]); (2, 0, [str "z"])]).
Proof.
  apply (apply_replacements_agree unit (source_parse (file_text [str "a"; str "b"]))).
  vm_compute. repeat split; lia.
Defined.

(** Under [PreserveLineEndings] a chunk that was found at line [i], by
    whatever comparison, leaves the lines before and after it as they are, and
    inside it puts the chunk's new lines except that each context line stays
    the file's own line, with the file's spelling and ending. *)
Theorem preserve_weaves_context path contents c i pattern new_slice :
  let f := source_parse contents in
  let new_line := λ t, {| text := t; ending := Some (preferred_ending f) |} in
  chunk_wf c → change_context c = None → old_lines c ≠ [] →
  seek_old_lines (line_texts f) PreserveLineEndings c 0 = Ok (Some (i, pattern, new_slice)) →
  new_contents path contents [c] PreserveLineEndings =
  Ok (concat (line_contents <$> (fill_ending (preferred_ending f) <$>
        (take i (source_lines f)
         ++ woven new_line (take (length pattern) (drop i (source_lines f))) new_slice
              (context_line_indices c) 0 0
         ++ drop (i + length pattern) (source_lines f))))).
Proof.
  intros f new_line Hwf Hctx Hold Hseek. cbn [new_contents].
  destruct (single_chunk_preserve new_line (source_lines f) (line_texts f) path c 0 i pattern new_slice)
    as (reps & Hreps & Hch & Hsp);
    [by unfold line_texts; rewrite length_fmap|done|by unfold seek_context; rewrite Hctx|done..|].
  fold f. rewrite Hreps. cbn [res_bind]. unfold source_apply_replacements.
  unfold line_texts in Hch. rewrite length_fmap in Hch.
  rewrite (splice_source_splice _ _ 0 (length (source_lines f))) by (done || lia). cbn [res_bind].
  fold new_line. by rewrite Hsp.
Qed.

(** A file with CRLF and LF lines, whose context line differs in blanks from the
    patch's: it keeps its own text and ending. *)
Definition mixed_file : rstring := str "a" ++ [CR; LF] ++ str "b " ++ [LF] ++ str "c".

Lemma preserve_weaves_context_witness :
  new_contents [] mixed_file [sample_chunk] PreserveLineEndings =
  Ok (str "a" ++ [CR; LF] ++ str "b " ++ [LF] ++ str "d" ++ [CR; LF]).
Proof.
  rewrite (preserve_weaves_context [] mixed_file sample_chunk 1 [str "b"; str "c"] [str "b"; str "d"]).
  - by vm_compute.
  - apply sample_chunk_wf.
  - done.
  - done.
  - by vm_compute.
Defined.

(** C5: a single chunk that is not marked as the end of the file, and whose old lines
    stand verbatim in a file of lines that all end in a line feed, is applied where it says,
    in both modes: exactly the first occurrence of its old lines, after the first line that
    is its change context if it has one, is replaced by its new lines.  The two results are
    the same text except that [NormalizeToLf] loses one line feed when the last line of the
    result is empty: it drops a blank line at the end of the file. *)
Theorem exact_chunk_update path c s pre post :
  exact_chunk c s pre post → Forall no_break (pre ++ old_lines c ++ post) →
  ∃ lf, new_contents path (file_text (pre ++ old_lines c ++ post)) [c] NormalizeToLf = Ok lf ∧
    new_contents path (file_text (pre ++ old_lines c ++ post)) [c] PreserveLineEndings =
      Ok (file_text (pre ++ new_lines c ++ post)) ∧
    file_text (pre ++ new_lines c ++ post) =
      lf ++ (if last_is_empty (pre ++ new_lines c ++ post) then [LF] else []).
Proof.
  intros Hc Hnb. eexists. split; [by eapply exact_chunk_lf|].
  split; [by eapply exact_chunk_preserve|]. by rewrite lf_text_spec.
Qed.

(** The same change after the line [k]: the occurrence before it is left alone. *)
Definition context_chunk : UpdateFileChunk :=
  {| change_context := Some (str "k"); old_lines := [str "b"; str "c"]; new_lines := [str "b"; str "d"];
     context_line_indices := [(0, 0)]; is_end_of_file := false |}.

Lemma context_exact_chunk : exact_chunk context_chunk 3 [str "b"; str "c"; str "k"] [[]].
Proof.
  split; try done.
  - split; simpl; [by repeat constructor|]. apply Forall_singleton. by exists (str "b").
  - exists 2. split_and!; [done..|]. intros [|[|j]] Hj; [by vm_compute..|lia].
  - simpl. lia.
Qed.

Lemma exact_chunk_update_witness :
  ∃ lf, new_contents [] (file_text [str "b"; str "c"; str "k"; str "b"; str "c"; []]) [context_chunk] NormalizeToLf =
      Ok lf ∧
    new_contents [] (file_text [str "b"; str "c"; str "k"; str "b"; str "c"; []]) [context_chunk] PreserveLineEndings =
      Ok (file_text [str "b"; str "c"; str "k"; str "b"; str "d"; []]) ∧
    file_text [str "b"; str "c"; str "k"; str "b"; str "d"; []] = lf ++ [LF].
Proof.
  apply (exact_chunk_update [] context_chunk 3 [str "b"; str "c"; str "k"] [[]]); [apply context_exact_chunk|].
  repeat apply Forall_cons_2; try apply Forall_nil_2;
    (split; [apply (bool_decide_eq_true_1 (LF ∉ _))|apply (bool_decide_eq_true_1 (CR ∉ _))]); by vm_compute.
Defined.
