(* ===== verification/ApplyPatch.v ===== *)
(** * Applying a patch to a file system

    [src/engine/apply-patch/src/lib.rs]: the hunks of a patch are applied one by
    one to an [ExecutorFileSystem], the committed changes are recorded in an
    [AppliedPatchDelta], and the outcome is reported on stdout or stderr.  The
    record is the contract of this component: as long as its [exact] flag is
    set, it says precisely what happened to the files, on the error paths too.
    That holds for patches whose paths are plain, which is to say not links and
    not reached through links; [dangling_link_not_exact] shows that the flag
    does not say so itself. *)

From S2P Require Import Prelude RustStr Utf8 PatchParser SeekSequence TextFile FileSystem FileUpdate.

(** ** Data *)

Record ApplyPatchOptions : Type := {
  update_file_mode : ApplyPatchFileUpdateMode;
  follow_symlinks : bool;
}.

Definition default_options : ApplyPatchOptions :=
  {| update_file_mode := NormalizeToLf; follow_symlinks := true |}.

Section data.
Context {U : Type}.

Inductive AppliedPatchFileChange : Type :=
| ChangeAdd (content : rstring) (overwritten_content : option rstring)
| ChangeDelete (content : rstring)
| ChangeUpdate (move_path : option U) (old_content : rstring)
    (overwritten_move_content : option rstring) (new_content : rstring).

Record AppliedPatchChange : Type := { change_path : U; change : AppliedPatchFileChange }.

Record AppliedPatchDelta : Type := { changes : list AppliedPatchChange; exact : bool }.

Definition delta_empty : AppliedPatchDelta := {| changes := []; exact := true |}.

(** [AppliedPatchDelta::append]. *)
Definition delta_append (self other : AppliedPatchDelta) : AppliedPatchDelta :=
  {| changes := changes self ++ changes other; exact := exact self && exact other |}.

Definition delta_push (d : AppliedPatchDelta) (p : U) (c : AppliedPatchFileChange)
    : AppliedPatchDelta :=
  {| changes := changes d ++ [{| change_path := p; change := c |}]; exact := exact d |}.

Definition set_exact (d : AppliedPatchDelta) (e : bool) : AppliedPatchDelta :=
  {| changes := changes d; exact := e |}.

Record ApplyPatchFailure : Type := { failure_error : ApplyPatchError; failure_delta : AppliedPatchDelta }.

End data.

Arguments AppliedPatchFileChange : clear implicits.
Arguments AppliedPatchChange : clear implicits.
Arguments AppliedPatchDelta : clear implicits.
Arguments ApplyPatchFailure : clear implicits.

(** The paths of the summary, as the patch spells them. *)
Record AffectedPaths : Type := {
  added : list rstring;
  modified : list rstring;
  deleted : list rstring;
}.

(** An [anyhow::Error] of this component: an I/O error with the context put on
    it, an error of the update, a path that does not resolve, or a message. *)
Inductive AnyhowError : Type :=
| AnyIo (context : option rstring) (e : io_error)
| AnyApply (e : ApplyPatchError)
| AnyPath (message : rstring)
| AnyMessage (message : rstring).

(** ** Display of errors *)

Definition display_parse_error (e : ParseError) : rstring :=
  match e with
  | InvalidPatchError m => str "invalid patch: " ++ m
  | InvalidHunkError m n => str "invalid hunk at line " ++ display_nat n ++ str ", " ++ m
  end.

Definition display_error (e : ApplyPatchError) : rstring :=
  match e with
  | ApplyParseError e => display_parse_error e
  | ApplyIoError e => io_context e ++ str ": " ++ io_message (io_source e)
  | ComputeReplacements m => m
  | PathUriError m => m
  | ImplicitInvocation =>
      str "patch detected without explicit call to apply_patch. Rerun as [" ++ [DQUOTE] ++
      str "apply_patch" ++ [DQUOTE] ++ str ", " ++ [DQUOTE] ++ str "<patch>" ++ [DQUOTE] ++ str "]"
  end.

Definition display_anyhow (e : AnyhowError) : rstring :=
  match e with
  | AnyIo (Some c) _ => c
  | AnyIo None e => io_message e
  | AnyApply e => display_error e
  | AnyPath m | AnyMessage m => m
  end.

(** [ApplyPatchError::from] of an I/O error. *)
Definition error_of_io (e : io_error) : ApplyPatchError :=
  ApplyIoError {| io_context := str "I/O error"; io_source := e |}.

(** The error of a failed run: an I/O error found by [downcast_ref] is kept. *)
Definition error_of_anyhow (e : AnyhowError) : ApplyPatchError :=
  match e with
  | AnyIo _ io => error_of_io io
  | _ => ApplyIoError {| io_context := display_anyhow e;
                         io_source := {| kind := Other; io_message := display_anyhow e |} |}
  end.

(** ** Applying hunks *)

Section apply.
Context {U FS : Type} `{PathUriOps U} `{ExecutorFileSystem U FS}.

Section options.
Variable follow : bool.

Definition with_context {A} (c : rstring) (r : res io_error A) : res AnyhowError A :=
  res_map_err (AnyIo (Some c)) r.

Definition ensure_not_directory (fs : FS) (path : U) : res io_error unit :=
  let? metadata := get_metadata fs path {| metadata_follow_symlinks := follow |} in
  if is_directory metadata
  then Err {| kind := InvalidInput; io_message := str "path is a directory" |}
  else Ok tt.

Definition remove_failure_was_side_effect_free (fs : FS) (path : U) (expected : option rstring)
    : bool :=
  match expected with
  | Some expected_content =>
      match read_file_text fs path {| read_follow_symlinks := follow |} with
      | Ok content => bool_decide (content = expected_content)
      | _ => false
      end
  | None => false
  end.

(** The [exact] flag after looking at a path. *)
Definition note_existing_path_delta_support (fs : FS) (path : U) (exact : bool) : bool :=
  match get_metadata fs path {| metadata_follow_symlinks := follow |} with
  | Ok metadata => if is_file metadata && negb (is_symlink metadata) then exact else false
  | Err source => if decide (kind source = NotFound) then exact else false
  | Panic => false
  end.

Definition read_optional_file_text_for_delta (fs : FS) (path : U) (exact : bool)
    : option rstring * bool :=
  let exact := note_existing_path_delta_support fs path exact in
  match read_file_text fs path {| read_follow_symlinks := follow |} with
  | Ok content => (Some content, exact)
  | Err source => if decide (kind source = NotFound) then (None, exact) else (None, false)
  | Panic => (None, false)
  end.

Definition msg_write (path : U) : rstring := str "Failed to write file " ++ inferred_native_path_string path.

Definition write_file_with_missing_parent_retry (fs : FS) (path : U) (contents : list byte)
    : FS * res AnyhowError unit :=
  let options := {| write_follow_symlinks := follow |} in
  match write_file fs path contents options with
  | (fs, Ok _) => (fs, Ok tt)
  | (fs, Panic) => (fs, Panic)
  | (fs, Err err) =>
      if decide (kind err = NotFound) then
        let '(fs, created) :=
          match path_parent path with
          | Some parent =>
              let '(fs, r) := create_directory fs parent
                {| create_recursive := true; create_follow_symlinks := follow |} in
              (fs, with_context (str "Failed to create parent directories for "
                                 ++ inferred_native_path_string path) r)
          | None => (fs, Ok tt)
          end in
        match created with
        | Ok _ =>
            let '(fs, r) := write_file fs path contents options in (fs, with_context (msg_write path) r)
        | Err e => (fs, Err e)
        | Panic => (fs, Panic)
        end
      else (fs, Err (AnyIo (Some (msg_write path)) err))
  end.

(** The file system and the delta while a hunk is applied. *)
Abbreviation world := (FS * AppliedPatchDelta U)%type.

(** [AddFile]. *)
Definition apply_add (w : world) (path : U) (contents : rstring) : world * res AnyhowError unit :=
  let '(fs, delta) := w in
  let '(overwritten, e) := read_optional_file_text_for_delta fs path (exact delta) in
  let delta := set_exact delta e in
  match write_file_with_missing_parent_retry fs path (encode contents) with
  | (fs, Ok _) => ((fs, delta_push delta path (ChangeAdd contents overwritten)), Ok tt)
  | (fs, Err e) => ((fs, set_exact delta false), Err e)
  | (fs, Panic) => ((fs, delta), Panic)
  end.

(** [ensure_not_directory] and [remove], with the check of a failed removal. *)
Definition remove_file (w : world) (path : U) (msg : rstring) (expected : option rstring)
    : world * res AnyhowError unit :=
  let '(fs, delta) := w in
  match with_context msg (ensure_not_directory fs path) with
  | Err e => ((fs, delta), Err e)
  | Panic => ((fs, delta), Panic)
  | Ok _ =>
      match remove fs path {| remove_recursive := false; remove_force := false;
                              remove_follow_symlinks := follow |} with
      | (fs, Ok _) => ((fs, delta), Ok tt)
      | (fs, Panic) => ((fs, delta), Panic)
      | (fs, Err e) =>
          ((fs, set_exact delta (exact delta && remove_failure_was_side_effect_free fs path expected)),
           Err (AnyIo (Some msg) e))
      end
  end.

(** [DeleteFile]. *)
Definition apply_delete (w : world) (path : U) : world * res AnyhowError unit :=
  let '(fs, delta) := w in
  let delta := set_exact delta (note_existing_path_delta_support fs path (exact delta)) in
  let deleted_content :=
    match read_file_text fs path {| read_follow_symlinks := follow |} with
    | Ok c => Some c | _ => None end in
  let delta := match deleted_content with None => set_exact delta false | Some _ => delta end in
  match remove_file (fs, delta) path
          (str "Failed to delete file " ++ inferred_native_path_string path) deleted_content with
  | ((fs, delta), Ok _) =>
      ((fs, match deleted_content with
            | Some content => delta_push delta path (ChangeDelete content)
            | None => delta
            end), Ok tt)
  | (w, r) => (w, r)
  end.

(** The destination of an [UpdateFile] with [move_path]. *)
Definition apply_move (w : world) (path dest : U) (original new : rstring)
    : world * res AnyhowError unit :=
  let '(fs, delta) := w in
  let '(overwritten, e) := read_optional_file_text_for_delta fs dest (exact delta) in
  let delta := set_exact delta e in
  match write_file_with_missing_parent_retry fs dest (encode new) with
  | (fs, Err e) => ((fs, set_exact delta false), Err e)
  | (fs, Panic) => ((fs, delta), Panic)
  | (fs, Ok _) =>
      match remove_file (fs, delta_push delta dest (ChangeAdd new overwritten)) path
              (str "Failed to remove original " ++ inferred_native_path_string path)
              (Some original) with
      | ((fs, delta'), Ok _) =>
          ((fs, delta_push {| changes := changes delta; exact := exact delta' |} path
                  (ChangeUpdate (Some dest) original overwritten new)), Ok tt)
      | (w, r) => (w, r)
      end
  end.

(** The write of an [UpdateFile] without [move_path]. *)
Definition apply_in_place (w : world) (path : U) (original new : rstring)
    : world * res AnyhowError unit :=
  let '(fs, delta) := w in
  match write_file fs path (encode new) {| write_follow_symlinks := follow |} with
  | (fs, Ok _) => ((fs, delta_push delta path (ChangeUpdate None original None new)), Ok tt)
  | (fs, Err e) => ((fs, set_exact delta false), Err (AnyIo (Some (msg_write path)) e))
  | (fs, Panic) => ((fs, delta), Panic)
  end.

End options.

Section hunks.
Variables (options : ApplyPatchOptions) (cwd : U).

Definition resolve (path : rstring) : res AnyhowError U := res_map_err AnyPath (path_join cwd path).

(** [UpdateFile]. *)
Definition apply_update (w : FS * AppliedPatchDelta U) (path : U) (move_path : option rstring)
    (chunks : list UpdateFileChunk) : (FS * AppliedPatchDelta U) * res AnyhowError unit :=
  let '(fs, delta) := w in
  let follow := follow_symlinks options in
  let delta := set_exact delta (note_existing_path_delta_support follow fs path (exact delta)) in
  match derive_new_contents_from_chunks fs path chunks (update_file_mode options) follow with
  | Err e => ((fs, delta), Err (AnyApply e))
  | Panic => ((fs, delta), Panic)
  | Ok a =>
      match move_path with
      | Some dest =>
          match resolve dest with
          | Ok dest_uri =>
              apply_move follow (fs, delta) path dest_uri (original_contents a) (applied_new_contents a)
          | Err e => ((fs, delta), Err e)
          | Panic => ((fs, delta), Panic)
          end
      | None => apply_in_place follow (fs, delta) path (original_contents a) (applied_new_contents a)
      end
  end.

(** The path of [resolve_path], which for an update is the source. *)
Definition source_path (h : Hunk) : rstring :=
  match h with AddFile p _ => p | DeleteFile p => p | UpdateFile p _ _ => p end.

Definition apply_hunk (w : FS * AppliedPatchDelta U) (h : Hunk)
    : (FS * AppliedPatchDelta U) * res AnyhowError unit :=
  match resolve (source_path h) with
  | Err e => (w, Err e)
  | Panic => (w, Panic)
  | Ok path_uri =>
      match h with
      | AddFile _ contents => apply_add (follow_symlinks options) w path_uri contents
      | DeleteFile _ => apply_delete (follow_symlinks options) w path_uri
      | UpdateFile _ move_path chunks => apply_update w path_uri move_path chunks
      end
  end.

(** Where the hunk appears in the summary. *)
Definition note_affected (a : AffectedPaths) (h : Hunk) : AffectedPaths :=
  match h with
  | AddFile _ _ => {| added := added a ++ [hunk_path h]; modified := modified a; deleted := deleted a |}
  | DeleteFile _ => {| added := added a; modified := modified a; deleted := deleted a ++ [hunk_path h] |}
  | UpdateFile _ _ _ => {| added := added a; modified := modified a ++ [hunk_path h]; deleted := deleted a |}
  end.

Fixpoint apply_hunk_loop (w : FS * AppliedPatchDelta U) (a : AffectedPaths) (hs : list Hunk)
    : (FS * AppliedPatchDelta U) * res AnyhowError AffectedPaths :=
  match hs with
  | [] => (w, Ok a)
  | h :: hs' =>
      match apply_hunk w h with
      | (w, Ok _) => apply_hunk_loop w (note_affected a h) hs'
      | (w, Err e) => (w, Err e)
      | (w, Panic) => (w, Panic)
      end
  end.

Definition no_paths : AffectedPaths := {| added := []; modified := []; deleted := [] |}.

Definition apply_hunks_to_files (hs : list Hunk) (w : FS * AppliedPatchDelta U)
    : (FS * AppliedPatchDelta U) * res AnyhowError AffectedPaths :=
  match hs with
  | [] => (w, Err (AnyMessage (str "No files were modified.")))
  | _ => apply_hunk_loop w no_paths hs
  end.

End hunks.
End apply.

(** ** Reporting *)

(** [std::io::Write]: one formatted write. *)
Class Writer (W : Type) : Type := write_str : W → rstring → W * res io_error unit.

Section report.
Context {U FS W : Type} `{PathUriOps U} `{ExecutorFileSystem U FS} `{Writer W}.

Definition writeln (out : W) (line : rstring) : W * res io_error unit := write_str out (line ++ [LF]).

Fixpoint write_lines (out : W) (ls : list rstring) : W * res io_error unit :=
  match ls with
  | [] => (out, Ok tt)
  | l :: ls' =>
      match writeln out l with
      | (out, Ok _) => write_lines out ls'
      | (out, Err e) => (out, Err e)
      | (out, Panic) => (out, Panic)
      end
  end.

(** The lines of [print_summary]. *)
Definition summary_lines (a : AffectedPaths) : list rstring :=
  str "Success. Updated the following files:"
  :: ((λ p, str "A " ++ p) <$> added a) ++ ((λ p, str "M " ++ p) <$> modified a)
     ++ ((λ p, str "D " ++ p) <$> deleted a).

Definition print_summary (a : AffectedPaths) (out : W) : W * res io_error unit :=
  write_lines out (summary_lines a).

(** The file system and the two streams. *)
Record io_state : Type := { io_fs : FS; io_stdout : W; io_stderr : W }.

Definition apply_hunks_with_options (hs : list Hunk) (options : ApplyPatchOptions) (cwd : U)
    (s : io_state) : io_state * res (ApplyPatchFailure U) (AppliedPatchDelta U) :=
  match apply_hunks_to_files options cwd hs (io_fs s, delta_empty) with
  | ((fs, delta), Ok affected) =>
      let '(out, r) := print_summary affected (io_stdout s) in
      ({| io_fs := fs; io_stdout := out; io_stderr := io_stderr s |},
       match r with
       | Ok _ => Ok delta
       | Err e => Err {| failure_error := error_of_io e; failure_delta := delta |}
       | Panic => Panic
       end)
  | ((fs, delta), Err error) =>
      let '(err, r) := writeln (io_stderr s) (display_anyhow error) in
      ({| io_fs := fs; io_stdout := io_stdout s; io_stderr := err |},
       match r with
       | Ok _ => Err {| failure_error := error_of_anyhow error; failure_delta := delta |}
       | Err e => Err {| failure_error := error_of_io e; failure_delta := delta |}
       | Panic => Panic
       end)
  | ((fs, delta), Panic) =>
      ({| io_fs := fs; io_stdout := io_stdout s; io_stderr := io_stderr s |}, Panic)
  end.

Definition parse_error_line (e : ParseError) : rstring :=
  match e with
  | InvalidPatchError m => str "Invalid patch: " ++ m
  | InvalidHunkError m n => str "Invalid patch hunk on line " ++ display_nat n ++ str ": " ++ m
  end.

Definition apply_patch_with_options (patch : rstring) (options : ApplyPatchOptions) (cwd : U)
    (s : io_state) : io_state * res (ApplyPatchFailure U) (AppliedPatchDelta U) :=
  match parse_patch patch with
  | Ok source => apply_hunks_with_options (args_hunks source) options cwd s
  | Err e =>
      let '(err, r) := writeln (io_stderr s) (parse_error_line e) in
      ({| io_fs := io_fs s; io_stdout := io_stdout s; io_stderr := err |},
       match r with
       | Ok _ => Err {| failure_error := ApplyParseError e; failure_delta := delta_empty |}
       | Err io => Err {| failure_error := error_of_io io; failure_delta := delta_empty |}
       | Panic => Panic
       end)
  | Panic => (s, Panic)
  end.

Definition apply_hunks (hs : list Hunk) (cwd : U) (s : io_state)
    : io_state * res (ApplyPatchFailure U) (AppliedPatchDelta U) :=
  apply_hunks_with_options hs default_options cwd s.

Definition apply_patch (patch : rstring) (cwd : U) (s : io_state)
    : io_state * res (ApplyPatchFailure U) (AppliedPatchDelta U) :=
  apply_patch_with_options patch default_options cwd s.

End report.

Arguments io_state : clear implicits.

(** ** The contract of the delta *)

Section contract.
Context {U FS : Type} `{PathUriOps U} `{FileSystemLaws U FS}.

(** What a recorded change does to the files, and how it is undone. *)
Definition replay_change (m : gmap U (list byte)) (c : AppliedPatchChange U) : gmap U (list byte) :=
  match change c with
  | ChangeAdd content _ => <[change_path c := encode content]> m
  | ChangeDelete _ => delete (change_path c) m
  | ChangeUpdate None _ _ new => <[change_path c := encode new]> m
  | ChangeUpdate (Some dest) _ _ new => delete (change_path c) (<[dest := encode new]> m)
  end.

(** Put back what a path held: a file with a content, or nothing. *)
Definition restore (m : gmap U (list byte)) (p : U) (content : option rstring) : gmap U (list byte) :=
  match content with Some c => <[p := encode c]> m | None => delete p m end.

Definition undo_change (m : gmap U (list byte)) (c : AppliedPatchChange U) : gmap U (list byte) :=
  match change c with
  | ChangeAdd _ overwritten => restore m (change_path c) overwritten
  | ChangeDelete content => restore m (change_path c) (Some content)
  | ChangeUpdate None old _ _ => restore m (change_path c) (Some old)
  | ChangeUpdate (Some dest) old overwritten _ =>
      restore (restore m dest overwritten) (change_path c) (Some old)
  end.

Definition replay (m : gmap U (list byte)) (cs : list (AppliedPatchChange U)) : gmap U (list byte) :=
  foldl replay_change m cs.

Definition undo (m : gmap U (list byte)) (cs : list (AppliedPatchChange U)) : gmap U (list byte) :=
  foldl undo_change m (reverse cs).

(** The abstract effect of a hunk on the files: [None] when it has none. *)
Definition hunk_effect (mode : ApplyPatchFileUpdateMode) (cwd : U) (m : gmap U (list byte)) (h : Hunk)
    : option (gmap U (list byte)) :=
  let resolved p := match path_join cwd p with Ok u => Some u | _ => None end in
  p ← resolved (source_path h);
  match h with
  | AddFile _ contents => Some (<[p := encode contents]> m)
  | DeleteFile _ => Some (delete p m)
  | UpdateFile _ move_path chunks =>
      bytes ← m !! p;
      old ← match from_utf8 bytes with Ok t => Some t | _ => None end;
      new ← match new_contents (inferred_native_path_string p) old chunks mode with
            | Ok t => Some t | _ => None end;
      match move_path with
      | None => Some (<[p := encode new]> m)
      | Some dest => d ← resolved dest; Some (delete p (<[d := encode new]> m))
      end
  end.

Fixpoint hunk_effects (mode : ApplyPatchFileUpdateMode) (cwd : U) (m : gmap U (list byte))
    (hs : list Hunk) : option (gmap U (list byte)) :=
  match hs with
  | [] => Some m
  | h :: hs' => m' ← hunk_effect mode cwd m h; hunk_effects mode cwd m' hs'
  end.

(** The paths that a hunk names, and the condition that none of them is a link or lies behind
    one. *)
Definition hunk_names (h : Hunk) : list rstring :=
  source_path h :: match h with UpdateFile _ (Some dest) _ => [dest] | _ => [] end.

Definition plain_targets (cwd : U) (fs : FS) (hs : list Hunk) : Prop :=
  ∀ h name p, h ∈ hs → name ∈ hunk_names h → path_join cwd name = Ok p → plain fs p.

(** The delta is a faithful record of what happened since the files were [m0]. *)
Definition faithful (m0 : gmap U (list byte)) (w : FS * AppliedPatchDelta U) : Prop :=
  exact w.2 = true →
  view w.1 = replay m0 (changes w.2) ∧ undo (view w.1) (changes w.2) = m0.

(** *** Lemmas *)

Lemma restore_lookup m p c : (encode <$> c) = m !! p → ∀ b, restore (<[p := b]> m) p c = m.
Proof.
  intros Hc b. destruct c as [c|]; simpl in *.
  - rewrite insert_insert_eq. by apply insert_id.
  - rewrite delete_insert_eq. by apply delete_id.
Qed.

Lemma restore_delete m p c : m !! p = Some (encode c) → restore (delete p m) p (Some c) = m.
Proof. intros Hc. simpl. rewrite insert_delete_eq. by apply insert_id. Qed.

Lemma read_text_view fs p o c :
  plain fs p → read_file_text fs p o = Ok c → view fs !! p = Some (encode c).
Proof.
  intros Hp. unfold read_file_text. intros (b & Hb & Hc)%res_bind_Ok.
  destruct (from_utf8 b) as [t| |] eqn:E; simplify_eq/=.
  apply from_utf8_Ok in E as [-> _]. by eapply read_file_Ok.
Qed.

Lemma read_text_NotFound fs p o e :
  plain fs p → read_file_text fs p o = Err e → kind e = NotFound → view fs !! p = None.
Proof.
  intros Hp. unfold read_file_text. destruct (read_file fs p o) as [b|e'|] eqn:E; simpl; [| |done].
  - by destruct (from_utf8 b); intros; simplify_eq/=.
  - intros [= ->] ?. by eapply read_file_NotFound.
Qed.

Lemma note_exact follow fs p e : note_existing_path_delta_support follow fs p e = true → e = true.
Proof. unfold note_existing_path_delta_support. repeat case_match; done. Qed.

Lemma read_optional_spec follow fs p e o e' :
  plain fs p → read_optional_file_text_for_delta follow fs p e = (o, e') → e' = true →
  e = true ∧ (encode <$> o) = view fs !! p.
Proof.
  intros Hp. unfold read_optional_file_text_for_delta. intros Hr He'.
  destruct (read_file_text fs p _) as [c|err|] eqn:E; [| |naive_solver].
  - injection Hr as <- <-. apply note_exact in He'. apply read_text_view in E; [|done]. naive_solver.
  - case_decide; [|naive_solver]. injection Hr as <- <-. apply note_exact in He'.
    eapply read_text_NotFound in E; [|done..]. naive_solver.
Qed.

(** No operation makes a link, on any exit. *)
Lemma write_retry_plain follow fs p b q :
  plain fs q → plain (write_file_with_missing_parent_retry follow fs p b).1 q.
Proof.
  intros Hq. unfold write_file_with_missing_parent_retry.
  pose proof (write_file_plain fs p b {| write_follow_symlinks := follow |} q Hq) as Hq1.
  destruct (write_file fs p b _) as [fs1 [[]|err|]]; [done| |done]. case_decide; [|done].
  assert (∀ fs2, plain fs2 q → plain (let '(fs, r) := write_file fs2 p b {| write_follow_symlinks := follow |} in
    (fs, with_context (msg_write p) r)).1 q) as Hsecond.
  { intros fs2 Hq2. pose proof (write_file_plain fs2 p b {| write_follow_symlinks := follow |} q Hq2).
    by destruct (write_file fs2 p b _). }
  destruct (path_parent p) as [parent|]; [|by apply Hsecond].
  pose proof (create_directory_plain fs1 parent {| create_recursive := true; create_follow_symlinks := follow |} q Hq1) as Hq2.
  destruct (create_directory fs1 parent _) as [fs2 [[]|e|]]; [|done..]. by apply Hsecond.
Qed.

Lemma remove_file_plain follow w p msg expected q :
  plain w.1 q → plain (remove_file follow w p msg expected).1.1 q.
Proof.
  destruct w as [fs d]. intros Hq. unfold remove_file. destruct (with_context _ _); [|done..].
  pose proof (remove_plain fs p {| remove_recursive := false; remove_force := false;
    remove_follow_symlinks := follow |} q Hq). by destruct (remove fs p _) as [? []].
Qed.

Lemma apply_hunk_plain options cwd w h q : plain w.1 q → plain (apply_hunk options cwd w h).1.1 q.
Proof.
  destruct w as [fs d]. intros Hq. unfold apply_hunk. destruct (resolve cwd (source_path h)) as [p| |]; [|done..].
  set (follow := follow_symlinks options).
  destruct h as [path contents|path|path mv chunks].
  - unfold apply_add. destruct (read_optional_file_text_for_delta _ _ _ _) as [o e].
    pose proof (write_retry_plain follow fs p (encode contents) q Hq) as Hw.
    by destruct (write_file_with_missing_parent_retry _ _ _ _) as [? []].
  - unfold apply_delete. set (d' := match _ with None => _ | Some _ => _ end).
    set (o := match read_file_text _ _ _ with Ok c => _ | _ => _ end).
    set (msg := str "Failed to delete file " ++ _).
    pose proof (remove_file_plain follow (fs, d') p msg o q Hq) as Hr.
    by destruct (remove_file _ _ _ _ _) as [[] []].
  - unfold apply_update. set (d' := set_exact d _).
    destruct (derive_new_contents_from_chunks _ _ _ _ _) as [a| |]; [|done..]. destruct mv as [dest|].
    + destruct (resolve cwd dest) as [u| |]; [|done..]. unfold apply_move.
      destruct (read_optional_file_text_for_delta _ _ _ _) as [o e].
      pose proof (write_retry_plain follow fs u (encode (applied_new_contents a)) q Hq) as Hw.
      destruct (write_file_with_missing_parent_retry _ _ _ _) as [fs1 []]; [|done..].
      set (d1 := delta_push _ _ _). set (msg := str "Failed to remove original " ++ _).
      pose proof (remove_file_plain follow (fs1, d1) p msg (Some (original_contents a)) q Hw) as Hr.
      by destruct (remove_file _ _ _ _ _) as [[] []].
    + unfold apply_in_place.
      pose proof (write_file_plain fs p (encode (applied_new_contents a)) {| write_follow_symlinks := follow |} q Hq).
      by destruct (write_file _ _ _ _) as [? []].
Qed.

Lemma write_retry_Ok follow fs p b fs' :
  plain fs p → write_file_with_missing_parent_retry follow fs p b = (fs', Ok tt) →
  view fs' = <[p := b]> (view fs).
Proof.
  intros Hp. unfold write_file_with_missing_parent_retry.
  destruct (write_file fs p b _) as [fs1 r1] eqn:E1.
  assert (∀ q, plain fs q → plain fs1 q) as Hpl1.
  { intros q Hq. pose proof (write_file_plain fs p b {| write_follow_symlinks := follow |} q Hq) as Hq'.
    by rewrite E1 in Hq'. }
  destruct r1 as [[]|err|]; [| |done].
  { intros [= <-]. by eapply write_file_Ok. }
  case_decide as Hk; [|done]. pose proof (write_file_NotFound _ _ _ _ _ _ Hp E1 Hk) as Hv1.
  assert (∀ fs2, view fs2 = view fs1 → (∀ q, plain fs1 q → plain fs2 q) →
    (let '(fs, r) := write_file fs2 p b {| write_follow_symlinks := follow |} in
     (fs, with_context (msg_write p) r)) = (fs', Ok tt) →
    view fs' = <[p := b]> (view fs)) as Hsecond.
  { intros fs2 Hv2 Hpl2. destruct (write_file fs2 p b _) as [fs3 r3] eqn:E3.
    destruct r3 as [[]| |]; intros [= ->]. rewrite <-Hv1, <-Hv2. eapply write_file_Ok; [|done]. auto. }
  destruct (path_parent p) as [parent|]; [|by apply Hsecond].
  destruct (create_directory fs1 parent _) as [fs2 r2] eqn:E2.
  pose proof (create_directory_view fs1 parent
    {| create_recursive := true; create_follow_symlinks := follow |}) as Hv2.
  pose proof (λ q, create_directory_plain fs1 parent
    {| create_recursive := true; create_follow_symlinks := follow |} q) as Hpl2.
  rewrite E2 in Hv2, Hpl2. destruct r2 as [[]| |]; [|done..]. by apply Hsecond.
Qed.

(** Between two states the delta records exactly what happened to the files. *)
Definition extends (w w' : FS * AppliedPatchDelta U) : Prop :=
  exact w'.2 = true →
  exact w.2 = true ∧ ∃ cs, changes w'.2 = changes w.2 ++ cs ∧
    view w'.1 = replay (view w.1) cs ∧ undo (view w'.1) cs = view w.1.

Lemma extends_same fs d d' :
  changes d' = changes d → (exact d' = true → exact d = true) → extends (fs, d) (fs, d').
Proof. intros Hc He Hd. split; [by apply He|]. exists []. simpl in *. rewrite app_nil_r. done. Qed.

Lemma extends_trans w1 w2 w3 : extends w1 w2 → extends w2 w3 → extends w1 w3.
Proof.
  intros H12 H23 Hx. destruct (H23 Hx) as (Hx2 & cs2 & Hc2 & Hv2 & Hu2).
  destruct (H12 Hx2) as (Hx1 & cs1 & Hc1 & Hv1 & Hu1).
  split; [done|]. exists (cs1 ++ cs2). unfold replay, undo in *. split_and!.
  - by rewrite Hc2, Hc1, app_assoc.
  - by rewrite foldl_app, <-Hv1.
  - by rewrite reverse_app, foldl_app, Hu2.
Qed.

(** One change pushed. *)
Lemma extends_push fs d fs' d' p c :
  changes d' = changes d →
  (exact d' = true → exact d = true ∧ view fs' = replay_change (view fs) {| change_path := p; change := c |}
    ∧ undo_change (view fs') {| change_path := p; change := c |} = view fs) →
  extends (fs, d) (fs', delta_push d' p c).
Proof.
  intros Hc Hd Hx. destruct (Hd Hx) as (Hx' & Hv & Hu). split; [done|].
  exists [{| change_path := p; change := c |}]. simpl. by rewrite Hc.
Qed.

Lemma apply_add_spec follow fs d p contents w' r :
  plain fs p → apply_add follow (fs, d) p contents = (w', r) → r ≠ Panic →
  extends (fs, d) w' ∧
  (r = Ok tt → exact w'.2 = true → view w'.1 = <[p := encode contents]> (view fs)).
Proof.
  intros Hp. unfold apply_add. destruct (read_optional_file_text_for_delta _ _ _ _) as [o e] eqn:Ho.
  destruct (write_file_with_missing_parent_retry _ _ _ _) as [fs1 [[]|err|]] eqn:Hw;
    intros [= <- <-] Hr; [|by split|done].
  assert (e = true → exact d = true ∧ view fs1 = <[p := encode contents]> (view fs) ∧
    (encode <$> o) = view fs !! p) as He.
  { intros He. eapply read_optional_spec in Ho as (? & ?); [|done..].
    eapply write_retry_Ok in Hw; done. }
  split; [|intros _ Hx; by apply He].
  apply extends_push; [done|]. intros Hx. destruct (He Hx) as (? & Hv & Hl). rewrite Hv.
  split_and!; [done|done|]. unfold undo_change. simpl. by apply restore_lookup.
Qed.

Lemma remove_file_spec follow fs d p msg expected fs' d' r :
  plain fs p → remove_file follow (fs, d) p msg expected = ((fs', d'), r) → r ≠ Panic →
  changes d' = changes d ∧ (exact d' = true → exact d = true ∧
    view fs' = match r with Ok _ => delete p (view fs) | _ => view fs end).
Proof.
  intros Hp. unfold remove_file. destruct (ensure_not_directory follow fs p) as [[]|e|]; simpl;
    [|intros [= <- <- <-]; done|naive_solver].
  destruct (remove fs p _) as [fs1 [[]|e|]] eqn:Er; intros [= <- <- <-] Hr; [| |done].
  - split; [done|]. intros Hx. split; [done|]. by eapply remove_Ok.
  - split; [done|]. simpl. intros [Hx Hs]%andb_true_iff. split; [done|].
    destruct (remove_Err _ _ _ _ _ Hp Er) as [?|Hv]; [done|]. exfalso.
    unfold remove_failure_was_side_effect_free in Hs.
    destruct expected as [c|]; [|done]. destruct (read_file_text fs1 p _) as [c'| |] eqn:Ht; [|done..].
    apply read_text_view in Ht; [by rewrite Hv, lookup_delete_eq in Ht|].
    pose proof (remove_plain fs p {| remove_recursive := false; remove_force := false;
      remove_follow_symlinks := follow |} p Hp) as Hp1. by rewrite Er in Hp1.
Qed.

Lemma apply_delete_spec follow fs d p w' r :
  plain fs p → apply_delete follow (fs, d) p = (w', r) → r ≠ Panic →
  extends (fs, d) w' ∧ (r = Ok tt → exact w'.2 = true → view w'.1 = delete p (view fs)).
Proof.
  intros Hp. unfold apply_delete. set (d1 := set_exact d _).
  set (o := match read_file_text _ _ _ with Ok c => Some c | _ => None end).
  set (d2 := match o with None => set_exact d1 false | Some _ => d1 end).
  assert (changes d2 = changes d ∧ (exact d2 = true → exact d = true ∧
    ∃ c, o = Some c ∧ view fs !! p = Some (encode c))) as [Hc2 Hx2].
  { subst d2. destruct o as [c|] eqn:Ho; [|done]. split; [done|]. intros ?%note_exact.
    split; [done|]. exists c. split; [done|]. subst o.
    destruct (read_file_text _ _ _) eqn:Ht; simplify_eq. by eapply read_text_view. }
  destruct (remove_file _ _ _ _ _) as [[fs1 d3] r1] eqn:Er. intros Heq Hr.
  assert (r1 ≠ Panic) as Hr1 by (intros ->; naive_solver).
  destruct (remove_file_spec _ _ _ _ _ _ _ _ _ Hp Er Hr1) as [Hc3 Hx3].
  destruct r1 as [[]|e|]; [| |done]; injection Heq as <- <-.
  - assert (exact d3 = true → ∃ c, o = Some c ∧ exact d = true ∧ view fs !! p = Some (encode c) ∧
      view fs1 = delete p (view fs)) as Hall.
    { intros (Hx & Hv)%Hx3. destruct (Hx2 Hx) as (? & c & ? & ?). exists c. auto. }
    destruct o as [c|].
    + split.
      * apply extends_push; [by rewrite Hc3|]. intros (c' & [= <-] & ? & Hl & Hv)%Hall. rewrite Hv.
        split_and!; [done|done|]. by apply restore_delete.
      * intros _ Hx. simpl in *. destruct (Hall Hx) as (? & _ & _ & _ & ?). done.
    + split; [intros Hx|intros _ Hx]; by destruct (Hall Hx) as (? & ? & _).
  - split; [|done]. intros Hx. destruct (Hx3 Hx) as [Hd2 Hv]. destruct (Hx2 Hd2) as (? & _).
    split; [done|]. exists []. simpl in *. by rewrite app_nil_r, Hc3, Hc2, Hv.
Qed.

(** Undoing a move, also one onto the path itself. *)
Lemma undo_move m (path dest : U) ov old new :
  (encode <$> ov) = m !! dest → m !! path = Some (encode old) →
  restore (restore (delete path (<[dest := new]> m)) dest ov) path (Some old) = m.
Proof.
  intros Hov Hold. apply map_eq. intros q. unfold restore.
  destruct (decide (q = path)) as [->|Hq]; [by rewrite lookup_insert_eq|].
  rewrite lookup_insert_ne by done. destruct (decide (q = dest)) as [->|Hd].
  - destruct ov as [c|]; simpl in *; [by rewrite lookup_insert_eq|by rewrite lookup_delete_eq].
  - destruct ov as [c|]; rewrite ?lookup_insert_ne, ?lookup_delete_ne, ?lookup_insert_ne by done; done.
Qed.

Lemma apply_move_spec follow fs d path dest old new w' r :
  plain fs path → plain fs dest → view fs !! path = Some (encode old) →
  apply_move follow (fs, d) path dest old new = (w', r) → r ≠ Panic →
  extends (fs, d) w' ∧
  (r = Ok tt → exact w'.2 = true → view w'.1 = delete path (<[dest := encode new]> (view fs))).
Proof.
  intros Hpath Hdest Hold. unfold apply_move.
  pose proof (write_retry_plain follow fs dest (encode new) path Hpath) as Hpath1.
  destruct (read_optional_file_text_for_delta _ _ _ _) as [o e] eqn:Ho.
  destruct (write_file_with_missing_parent_retry _ _ _ _) as [fs1 [[]|err|]] eqn:Hw;
    [|intros [= <- <-] _; by split|naive_solver].
  assert (e = true → exact d = true ∧ view fs1 = <[dest := encode new]> (view fs) ∧
    (encode <$> o) = view fs !! dest) as He.
  { intros He. eapply read_optional_spec in Ho as (Hx & ?); [|done..].
    eapply write_retry_Ok in Hw; done. }
  destruct (remove_file _ _ _ _ _) as [[fs2 d2] r2] eqn:Er. intros Heq Hr.
  assert (r2 ≠ Panic) as Hr2 by (intros ->; naive_solver).
  destruct (remove_file_spec _ _ _ _ _ _ _ _ _ Hpath1 Er Hr2) as [Hc2 Hx2]. simpl in Hx2.
  destruct r2 as [[]|err|]; [| |done]; injection Heq as <- <-.
  - assert (exact d2 = true → exact d = true ∧ (encode <$> o) = view fs !! dest ∧
      view fs2 = delete path (<[dest := encode new]> (view fs))) as Hall.
    { intros (Hx & Hv)%Hx2. destruct (He Hx) as (? & Hv1 & ?). rewrite Hv, Hv1; auto. }
    split; [|intros _ Hx; simpl in *; by apply Hall].
    apply extends_push; [done|]. simpl. intros (? & ? & Hv)%Hall. rewrite Hv.
    split_and!; [done|done|]. by apply undo_move.
  - split; [|done]. intros Hx. simpl in *. destruct (Hx2 Hx) as [Hxe Hv].
    destruct (He Hxe) as (? & Hv1 & Hl). split; [done|].
    exists [{| change_path := dest; change := ChangeAdd new o |}]. rewrite Hc2, Hv, Hv1 by done.
    split_and!; [done|done|]. by apply restore_lookup.
Qed.

Lemma apply_in_place_spec follow fs d p old new w' r :
  plain fs p → view fs !! p = Some (encode old) →
  apply_in_place follow (fs, d) p old new = (w', r) → r ≠ Panic →
  extends (fs, d) w' ∧ (r = Ok tt → exact w'.2 = true → view w'.1 = <[p := encode new]> (view fs)).
Proof.
  intros Hp Hl. unfold apply_in_place. destruct (write_file fs p _ _) as [fs1 [[]|e|]] eqn:Ew;
    intros [= <- <-] Hr; [|by split|done].
  split.
  - apply extends_push; [done|]. intros Hx. rewrite (write_file_Ok _ _ _ _ _ Hp Ew). split_and!; [done|done|].
    by apply (restore_lookup _ _ (Some old)).
  - intros _ _. by eapply write_file_Ok.
Qed.

Lemma derive_Ok follow fs p chunks mode a :
  plain fs p → derive_new_contents_from_chunks fs p chunks mode follow = Ok a →
  view fs !! p = Some (encode (original_contents a)) ∧
  from_utf8 (encode (original_contents a)) = Ok (original_contents a) ∧
  new_contents (inferred_native_path_string p) (original_contents a) chunks mode =
    Ok (applied_new_contents a).
Proof.
  intros Hp. unfold derive_new_contents_from_chunks. intros (c & Hc & (n & Hn & [= <-])%res_bind_Ok)%res_bind_Ok.
  destruct (read_file_text fs p _) as [c'| |] eqn:Ht; simplify_eq/=.
  pose proof (read_text_view _ _ _ _ Hp Ht). split_and!; [done| |done].
  unfold read_file_text in Ht. apply res_bind_Ok in Ht as (b & _ & Hb).
  destruct (from_utf8 b) as [t| |] eqn:E; simplify_eq/=.
  pose proof E as E'. apply from_utf8_Ok in E' as [-> _]. done.
Qed.

Lemma apply_update_spec options cwd fs d p mv chunks w' r :
  plain fs p → (∀ dest u, mv = Some dest → path_join cwd dest = Ok u → plain fs u) →
  apply_update options cwd (fs, d) p mv chunks = (w', r) → r ≠ Panic →
  extends (fs, d) w' ∧
  (r = Ok tt → exact w'.2 = true → ∃ old new,
     view fs !! p = Some (encode old) ∧ from_utf8 (encode old) = Ok old ∧
     new_contents (inferred_native_path_string p) old chunks (update_file_mode options) = Ok new ∧
     match mv with
     | None => view w'.1 = <[p := encode new]> (view fs)
     | Some dest => ∃ u, path_join cwd dest = Ok u ∧
         view w'.1 = delete p (<[u := encode new]> (view fs))
     end).
Proof.
  intros Hp Hmv. unfold apply_update. set (d1 := set_exact d _). intros Heq Hr.
  assert (extends (fs, d) (fs, d1)) as Hd1.
  { apply extends_same; [done|]. by intros ?%note_exact. }
  destruct (derive_new_contents_from_chunks _ _ _ _ _) as [a|e|] eqn:Ed; [| |naive_solver];
    [|by injection Heq as <- <-].
  apply derive_Ok in Ed as (Hv & Hu & Hn); [|done]. destruct mv as [dest|].
  - unfold resolve in Heq. destruct (path_join cwd dest) as [u|e|] eqn:Ej; simpl in Heq;
      [|by injection Heq as <- <-|naive_solver].
    destruct (apply_move_spec (follow_symlinks options) fs d1 p u (original_contents a)
      (applied_new_contents a) w' r) as [He Hok]; [by eauto..|].
    split; [by eapply extends_trans|]. intros Hr' Hx. eexists _, _. split_and!; eauto.
  - destruct (apply_in_place_spec (follow_symlinks options) fs d1 p (original_contents a)
      (applied_new_contents a) w' r) as [He Hok]; [auto..|].
    split; [by eapply extends_trans|]. intros Hr' Hx. eexists _, _. split_and!; eauto.
Qed.

Lemma apply_hunk_spec options cwd w h w' r :
  plain_targets cwd w.1 [h] → apply_hunk options cwd w h = (w', r) → r ≠ Panic →
  extends w w' ∧ (r = Ok tt → exact w'.2 = true →
    hunk_effect (update_file_mode options) cwd (view w.1) h = Some (view w'.1)).
Proof.
  destruct w as [fs d]. intros Hpl. unfold apply_hunk, resolve. intros Heq Hr.
  destruct (path_join cwd (source_path h)) as [p|e|] eqn:Ep; simpl in Heq;
    [|injection Heq as <- <-; split; [by apply extends_same|done]|naive_solver].
  assert (plain fs p) as Hp by (apply (Hpl h (source_path h) p); [by left|by left|done]).
  unfold hunk_effect. rewrite Ep. simpl. destruct h as [path contents|path|path mv chunks].
  - eapply apply_add_spec in Heq as [? Hv]; [|done..]. split; [done|]. intros Hok Hx. by rewrite Hv.
  - eapply apply_delete_spec in Heq as [? Hv]; [|done..]. split; [done|]. intros Hok Hx. by rewrite Hv.
  - eapply apply_update_spec in Heq as [? Hv]; [|done| |done].
    2:{ intros dest u -> Hu. apply (Hpl _ dest u (list_elem_of_here _ _)); [|done]. right. by left. } split; [done|]. intros Hok Hx.
    destruct (Hv Hok Hx) as (old & new & -> & Hu & Hn & Hmv). simpl. rewrite Hu. simpl. rewrite Hn. simpl.
    destruct mv as [dest|]; [|by rewrite Hmv]. destruct Hmv as (u & -> & ->). done.
Qed.

Lemma extends_refl w : extends w w.
Proof. destruct w. by apply extends_same. Qed.

Lemma apply_hunk_loop_spec options cwd w a hs w' r :
  plain_targets cwd w.1 hs → apply_hunk_loop options cwd w a hs = (w', r) → r ≠ Panic →
  extends w w' ∧ (∀ a', r = Ok a' → exact w'.2 = true →
    a' = foldl note_affected a hs ∧
    hunk_effects (update_file_mode options) cwd (view w.1) hs = Some (view w'.1)).
Proof.
  revert w a. induction hs as [|h hs IH]; intros w a Hpl; simpl.
  { intros [= <- <-] _. split; [apply extends_refl|]. by intros a' [= <-] _. }
  destruct (apply_hunk options cwd w h) as [w1 [[]|e|]] eqn:E; intros Heq Hr; [| |naive_solver].
  - pose proof (apply_hunk_plain options cwd w h) as Hkeep. rewrite E in Hkeep. cbn [fst] in Hkeep.
    apply apply_hunk_spec in E as [Hw1 Hok1]; [|intros h' name p ->%list_elem_of_singleton; apply Hpl; by left|done].
    destruct (IH w1 (note_affected a h)) as [Hw2 Hok2]; [|done..|].
    { intros h' name p Hh' Hn Hj. apply Hkeep, (Hpl h' name p); [by right|done..]. }
    split; [by eapply extends_trans|].
    intros a' Ha' Hx. destruct (Hok2 a' Ha' Hx) as [Haff Heff].
    destruct (Hw2 Hx) as [Hx1 _]. rewrite Hok1 by done. done.
  - injection Heq as <- <-. apply apply_hunk_spec in E as [Hw1 _]; [done| |done].
    intros h' name p ->%list_elem_of_singleton. apply Hpl. by left.
Qed.

Lemma apply_hunks_to_files_spec options cwd fs hs w' r :
  plain_targets cwd fs hs → apply_hunks_to_files options cwd hs (fs, delta_empty) = (w', r) → r ≠ Panic →
  faithful (view fs) w' ∧ (∀ a', r = Ok a' → exact w'.2 = true →
    a' = foldl note_affected no_paths hs ∧
    hunk_effects (update_file_mode options) cwd (view fs) hs = Some (view w'.1)).
Proof.
  intros Hpl. unfold apply_hunks_to_files. intros Heq Hr.
  assert (extends (fs, delta_empty) w' ∧ (∀ a', r = Ok a' → exact w'.2 = true →
    a' = foldl note_affected no_paths hs ∧
    hunk_effects (update_file_mode options) cwd (view fs) hs = Some (view w'.1))) as [He Hok].
  { destruct hs as [|h hs]; [injection Heq as <- <-; split; [apply extends_refl|done]|].
    by apply apply_hunk_loop_spec. }
  split; [|done]. intros Hx. destruct (He Hx) as (_ & cs & Hc & Hv & Hu).
  simpl in Hc. by rewrite Hc.
Qed.

End contract.

(** ** Properties *)

(** The delta of an outcome, which a failure carries too. *)
Definition outcome_delta {U} (r : res (ApplyPatchFailure U) (AppliedPatchDelta U))
    : option (AppliedPatchDelta U) :=
  match r with Ok d => Some d | Err f => Some (failure_delta f) | Panic => None end.

Section properties.
Context {U FS W : Type} `{PathUriOps U} `{FileSystemLaws U FS} `{Writer W}.

(** C1: the delta tells the truth on every exit.  For a patch whose paths are plain
    (no path that it names is a link, lies behind one, or is another name of a file): when
    [apply_patch] returns, on success or with a failure at any hunk, any operation of the
    file system or any write to stdout or stderr, and the delta is marked exact, then
    replaying its changes on the original files gives the files as they now are, and
    undoing them from the last to the first restores the original files. *)
Theorem apply_patch_delta_exact patch options (cwd : U) (s : io_state FS W) s' r d :
  (∀ args, parse_patch patch = Ok args → plain_targets cwd (io_fs s) (args_hunks args)) →
  apply_patch_with_options patch options cwd s = (s', r) →
  outcome_delta r = Some d → exact d = true →
  view (io_fs s') = replay (view (io_fs s)) (changes d) ∧
  undo (view (io_fs s')) (changes d) = view (io_fs s).
Proof.
  intros Hpl. unfold apply_patch_with_options, apply_hunks_with_options. intros Heq Hd Hx.
  destruct (parse_patch patch) as [args|e|]; [specialize (Hpl args eq_refl)|..].
  - destruct (apply_hunks_to_files _ _ _ _) as [[fs delta] [a|e|]] eqn:E.
    + apply apply_hunks_to_files_spec in E as [Hf _]; [|done..].
      destruct (print_summary a (io_stdout s)) as [out [[]| |]]; simplify_eq/=; by apply Hf.
    + apply apply_hunks_to_files_spec in E as [Hf _]; [|done..].
      destruct (writeln (io_stderr s) _) as [out [[]| |]]; simplify_eq/=; by apply Hf.
    + by simplify_eq/=.
  - destruct (writeln (io_stderr s) _) as [out [[]| |]]; by simplify_eq/=.
  - by simplify_eq/=.
Qed.

(** C2: a patch that is applied does what its hunks say.  For hunks whose paths are
    plain (no path that they name is a link, lies behind one, or is another name of a
    file): when the hunks are applied with success and the delta is exact, the files are those of the
    abstract effect of the hunks in order, where an added file has the patch's
    contents, a deleted one is gone, and an updated one has the contents
    computed from its old text, at its new path if it moves; and the summary
    lists the hunks' paths by kind, in order. *)
Theorem apply_hunks_refines_effects options (cwd : U) (fs : FS) hs fs' d a :
  plain_targets cwd fs hs → apply_hunks_to_files options cwd hs (fs, delta_empty) = ((fs', d), Ok a) → exact d = true →
  hunk_effects (update_file_mode options) cwd (view fs) hs = Some (view fs') ∧
  a = foldl note_affected no_paths hs.
Proof.
  intros Hpl Heq Hx. apply apply_hunks_to_files_spec in Heq as [_ Hok]; [|done..].
  destruct (Hok a eq_refl Hx). done.
Qed.

(** An update that moves a file onto its own path destroys the file: it is
    written and then removed, although the run reports success. *)
Theorem move_onto_itself_deletes options (cwd p : U) (fs : FS) path dest chunks fs' d a :
  plain fs p → path_join cwd path = Ok p → path_join cwd dest = Ok p →
  apply_hunks_to_files options cwd [UpdateFile path (Some dest) chunks] (fs, delta_empty) =
    ((fs', d), Ok a) → exact d = true →
  is_Some (view fs !! p) ∧ view fs' !! p = None.
Proof.
  intros Hpl Hp Hd Heq Hx. apply apply_hunks_to_files_spec in Heq as [_ Hok]; [| |done].
  2:{ intros h name q ->%list_elem_of_singleton. unfold hunk_names; cbn [source_path].
      rewrite elem_of_cons, list_elem_of_singleton. intros [->| ->]; congruence. }
  destruct (Hok a eq_refl Hx) as [_ He]. simpl in He.
  unfold hunk_effect in He. simpl in He. rewrite Hp, Hd in He. simpl in He.
  destruct (view fs !! p) as [b|]; simpl in He; [|done].
  destruct (from_utf8 b) as [t| |]; simpl in He; [|done..].
  destruct (new_contents _ _ _ _) as [new| |]; simpl in He; [|done..].
  injection He as <-. by rewrite lookup_delete_eq.
Qed.

End properties.

(** *** Witnesses: an in-memory file system and a stream that accepts 3 lines *)

Record buffer : Type := { written : list rstring; room : nat }.

Global Instance buffer_writer : Writer buffer := λ w l,
  match room w with
  | 0 => (w, Err {| kind := Other; io_message := str "full" |})
  | S n => ({| written := written w ++ [l]; room := n |}, Ok tt)
  end.

Definition demo_fs : Mem.fs :=
  {| Mem.nodes := <[[str "a.rs"] := Mem.File (encode (file_text [str "fn main"; str "x"; str "y"]))]> ∅;
     Mem.read_only := ∅ |}.

Definition demo_state : io_state Mem.fs buffer :=
  {| io_fs := demo_fs; io_stdout := {| written := []; room := 3 |};
     io_stderr := {| written := []; room := 3 |} |}.

Lemma demo_plain q : plain demo_fs q.
Proof.
  change (Mem.mem_plain demo_fs q). unfold Mem.mem_plain, Mem.lookup_node. destruct q as [|x q]; [done|].
  unfold demo_fs. cbn [Mem.nodes]. destruct (decide ([str "a.rs"] = x :: q)) as [<-|?].
  - by rewrite lookup_insert_eq.
  - by rewrite lookup_insert_ne, lookup_empty.
Qed.

Lemma run_eta {A B C} (x : A * B * C) c : x.2 = c → x = ((x.1.1, x.1.2), c).
Proof. destruct x as [[a b] c']. by intros <-. Qed.

Definition demo_outcome :=
  apply_patch_with_options (U := list rstring) sample_patch default_options [] demo_state.

Definition demo_delta : AppliedPatchDelta (list rstring) :=
  {| changes := [{| change_path := [str "a.rs"];
       change := ChangeUpdate None (file_text [str "fn main"; str "x"; str "y"]) None (file_text [str "fn main"; str "x"; str "z"]) |}];
     exact := true |}.

Lemma apply_patch_delta_exact_witness :
  view (io_fs demo_outcome.1) = replay (view demo_fs) (changes demo_delta) ∧
  undo (view (io_fs demo_outcome.1)) (changes demo_delta) = view demo_fs.
Proof.
  apply (apply_patch_delta_exact (U := list rstring) sample_patch default_options [] demo_state
    demo_outcome.1 demo_outcome.2 demo_delta);
    [intros args _ h name p _ _ _; apply demo_plain|apply surjective_pairing|by vm_compute|done].
Defined.

(** An addition below a directory that does not exist yet, and an update. *)
Definition demo_chunk : UpdateFileChunk :=
  {| change_context := None; old_lines := [str "y"]; new_lines := [str "z"];
     context_line_indices := []; is_end_of_file := false |}.

Definition demo_hunks : list Hunk :=
  [AddFile (str "dir/b.rs") (str "new");
   UpdateFile (str "a.rs") (Some (str "c.rs")) [demo_chunk]].

Definition demo_run :=
  apply_hunks_to_files (U := list rstring) default_options [] demo_hunks (demo_fs, delta_empty).

Definition demo_affected : AffectedPaths :=
  {| added := [str "dir/b.rs"]; modified := [str "c.rs"]; deleted := [] |}.

Lemma apply_hunks_refines_effects_witness :
  hunk_effects NormalizeToLf ([] : list rstring) (view demo_fs) demo_hunks = Some (view demo_run.1.1) ∧
  demo_affected = foldl note_affected no_paths demo_hunks.
Proof.
  apply (apply_hunks_refines_effects (U := list rstring) default_options [] demo_fs demo_hunks
    demo_run.1.1 demo_run.1.2);
    [intros h name p _ _ _; apply demo_plain|apply run_eta; by vm_compute|by vm_compute].
Defined.

Definition self_move : list Hunk :=
  [UpdateFile (str "a.rs") (Some (str "./a.rs")) [demo_chunk]].

Definition self_move_run :=
  apply_hunks_to_files (U := list rstring) default_options [] self_move (demo_fs, delta_empty).

Lemma move_onto_itself_deletes_witness :
  is_Some (view demo_fs !! [str "a.rs"]) ∧ view self_move_run.1.1 !! [str "a.rs"] = None.
Proof.
  apply (move_onto_itself_deletes (U := list rstring) default_options [] [str "a.rs"] demo_fs
    (str "a.rs") (str "./a.rs") [demo_chunk] self_move_run.1.1 self_move_run.1.2
    {| added := []; modified := [str "./a.rs"]; deleted := [] |});
    [apply demo_plain|by vm_compute|by vm_compute|apply run_eta; by vm_compute|by vm_compute].
Defined.

(** *** Links *)

(** A link [l] to a file [t] that does not exist. *)
Definition dangling_fs : Mem.fs :=
  {| Mem.nodes := <[[str "l"] := Mem.Link [str "t"]]> ∅; Mem.read_only := ∅ |}.

Definition dangling_run (follow : bool) :=
  apply_hunks_to_files (U := list rstring) {| update_file_mode := NormalizeToLf; follow_symlinks := follow |} []
    [AddFile (str "l") (str "new")] (dangling_fs, delta_empty).

(** The paths have to be plain.  When links are followed, the metadata of a link to nothing
    are those of a missing file: adding a file there creates the target of the link, the
    delta names the link and is marked exact, and undoing it leaves the target. *)
Lemma dangling_link_not_exact :
  exact (dangling_run true).1.2 = true ∧ view dangling_fs = ∅ ∧
  view (dangling_run true).1.1 = {[ [str "t"] := encode (str "new") ]} ∧
  undo (view (dangling_run true).1.1) (changes (dangling_run true).1.2) ≠ view dangling_fs.
Proof.
  assert (view dangling_fs = (∅ : gmap (list rstring) (list byte))) as Hv by by vm_compute.
  assert (undo (view (dangling_run true).1.1) (changes (dangling_run true).1.2) !! [str "t"] = Some (encode (str "new")))
    as Hu by by vm_compute.
  split_and!; [by vm_compute|done|by vm_compute|]. intros Heq. by rewrite Heq, Hv in Hu.
Qed.

(** Without following links the write is refused, and nothing is recorded as exact. *)
Lemma dangling_link_refused :
  exact (dangling_run false).1.2 = false ∧ view (dangling_run false).1.1 = view dangling_fs.
Proof. by vm_compute. Qed.
