(* ===== verification/AbsolutePath.v ===== *)
(** * Absolute paths on Unix

    [src/engine/utils/absolute-path]: [AbsolutePathBuf] built from a string, with
    [~] expanded and [.] and [..] resolved, and the part of [std::path] that the
    execution policy asks.  A path is the list of its segments from the root.
    The home directory and the current directory are those of the process, absolute
    and without [.] or [..]. *)

From S2P Require Import Prelude RustStr.

Definition SLASH : char := 47%N.

Record Env : Type := {
  home_dir : option (list rstring);
  current_dir : option (list rstring);
}.

(** [Path::is_absolute]. *)
Definition is_absolute (p : rstring) : bool := starts_with p [SLASH].

(** [std::path::Component]. *)
Inductive Component : Type :=
| RootDir
| CurDir
| ParentDir
| Normal (s : rstring).

Definition component_of (s : rstring) : Component :=
  if decide (s = str "..") then ParentDir else Normal s.

(** [Path::components]: repeated separators and [.] are dropped, except a [.] at
    the beginning of a relative path. *)
Definition components (p : rstring) : list Component :=
  let segs := split_char SLASH p in
  let kept := component_of <$> filter (λ s, s ≠ [] ∧ s ≠ str ".") segs in
  if is_absolute p then RootDir :: kept
  else match segs with
       | s :: _ => if decide (s = str ".") then CurDir :: kept else kept
       | [] => kept
       end.

(** [Path::file_name]. *)
Definition file_name (p : rstring) : option rstring :=
  match last (components p) with Some (Normal s) => Some s | _ => None end.

(** The loop of [normalize_path] on a path below [base]. *)
Definition push_component (base : list rstring) (c : Component) : list rstring :=
  match c with
  | RootDir => []
  | CurDir => base
  | ParentDir => take (pred (length base)) base
  | Normal s => base ++ [s]
  end.

Definition normalize_from (base : list rstring) (p : rstring) : list rstring :=
  foldl push_component base (components p).

(** [maybe_expand_home_directory]: the base directory and the path below it,
    when the path starts in the home directory. *)
Definition expand_home (env : Env) (p : rstring) : option (list rstring * rstring) :=
  match strip_prefix (str "~") p, home_dir env with
  | Some [], Some home => Some (home, [])
  | Some rest, Some home =>
      match strip_prefix [SLASH] rest with
      | Some rest => Some (home, trim_start_matches (λ c, c =? SLASH)%N rest)
      | None => None
      end
  | _, _ => None
  end.

(** [AbsolutePathBuf::try_from] of a string, which is [from_absolute_path]: a
    relative path is resolved against the current directory. *)
Definition from_absolute_path (env : Env) (p : rstring) : option (list rstring) :=
  match expand_home env p with
  | Some (home, rest) => Some (normalize_from home rest)
  | None =>
      if is_absolute p then Some (normalize_from [] p)
      else (λ cwd, normalize_from cwd p) <$> current_dir env
  end.

(** [file_name] of an [AbsolutePathBuf]. *)
Definition abs_file_name (p : list rstring) : option rstring := last p.

(** ** Lemmas *)

Lemma components_relative_name s :
  SLASH ∉ s → s ≠ [] → s ≠ str "." → s ≠ str ".." → components s = [Normal s].
Proof.
  intros Hs H1 H2 H3. unfold components. rewrite split_char_no_sep by done.
  assert (is_absolute s = false) as ->.
  { unfold is_absolute. apply not_true_iff_false. intros [r ->]%starts_with_spec. set_solver. }
  rewrite decide_False by done. rewrite filter_cons_True, filter_nil by done.
  simpl. unfold component_of. by rewrite decide_False.
Qed.

(** A bare name resolves below the current directory. *)
Lemma from_absolute_path_name env cwd s :
  current_dir env = Some cwd → SLASH ∉ s → s ≠ [] → s ≠ str "." → s ≠ str ".." →
  head s ≠ Some 126%N → from_absolute_path env s = Some (cwd ++ [s]).
Proof.
  intros Hc Hs H1 H2 H3 H4. unfold from_absolute_path, expand_home.
  assert (strip_prefix (str "~") s = None) as ->.
  { apply strip_prefix_None. intros r ->. done. }
  assert (is_absolute s = false) as ->.
  { unfold is_absolute. apply not_true_iff_false. intros [r ->]%starts_with_spec. set_solver. }
  rewrite Hc. simpl. unfold normalize_from. by rewrite components_relative_name.
Qed.
