(* ===== verification/ExecPolicy.v ===== *)
(** * The execution policy

    [src/engine/execpolicy/src]: decisions, prefix rules, network rules and the
    policy that evaluates commands ([decision.rs], [rule.rs], [policy.rs],
    [executable_name.rs], [error.rs]).  [PrefixRule] is the only implementation
    of the trait [Rule].  A [MultiMap] is a map to non-empty lists in insertion
    order; the order in which it enumerates its keys is that of [map_to_list]. *)

From S2P Require Import Prelude RustStr AbsolutePath.

(** ** Decisions *)

Inductive Decision : Type := Allow | Prompt | Forbidden.

Global Instance Decision_eq_dec : EqDecision Decision.
Proof. solve_decision. Defined.

(** The derived order: a later constructor is stricter. *)
Definition strictness (d : Decision) : nat :=
  match d with Allow => 0 | Prompt => 1 | Forbidden => 2 end.

Definition decision_max (a b : Decision) : Decision :=
  if strictness a <=? strictness b then b else a.

(** [Iterator::max]. *)
Definition max_decision (ds : list Decision) : option Decision :=
  match ds with [] => None | d :: ds' => Some (foldl decision_max d ds') end.

(** ** Errors *)

Record TextPosition : Type := { line : nat; column : nat }.
Record TextRange : Type := { range_start : TextPosition; range_end : TextPosition }.
Record ErrorLocation : Type := { location_path : rstring; location_range : TextRange }.

Inductive Error : Type :=
| InvalidDecision (s : rstring)
| InvalidPattern (s : rstring)
| InvalidExample (s : rstring)
| InvalidRule (s : rstring)
| ExampleDidNotMatch (rules examples : list rstring) (location : option ErrorLocation)
| ExampleDidMatch (rule example : rstring) (location : option ErrorLocation)
| Starlark (message : rstring).

Definition with_location (e : Error) (location : ErrorLocation) : Error :=
  match e with
  | ExampleDidNotMatch rules examples None => ExampleDidNotMatch rules examples (Some location)
  | ExampleDidMatch rule example None => ExampleDidMatch rule example (Some location)
  | other => other
  end.

Definition decision_parse (raw : rstring) : res Error Decision :=
  if decide (raw = str "allow") then Ok Allow
  else if decide (raw = str "prompt") then Ok Prompt
  else if decide (raw = str "forbidden") then Ok Forbidden
  else Err (InvalidDecision raw).

(** ** Executable names *)

(** The key of a program name; [windows] is [cfg!(windows)]. *)
Definition WINDOWS_EXECUTABLE_SUFFIXES : list rstring := str <$> [".exe"; ".cmd"; ".bat"; ".com"]%string.

Fixpoint strip_first_suffix (suffixes : list rstring) (raw : rstring) : rstring :=
  match suffixes with
  | [] => raw
  | s :: suffixes' =>
      match strip_suffix s raw with
      | Some stripped => stripped
      | None => strip_first_suffix suffixes' raw
      end
  end.

Definition executable_lookup_key (windows : bool) (raw : rstring) : rstring :=
  if windows then strip_first_suffix WINDOWS_EXECUTABLE_SUFFIXES (to_ascii_lowercase raw) else raw.

Definition executable_path_lookup_key (windows : bool) (path : list rstring) : option rstring :=
  executable_lookup_key windows <$> abs_file_name path.

(** ** Rules *)

Inductive PatternToken : Type :=
| Single (s : rstring)
| Alts (alternatives : list rstring).

Definition token_matches (self : PatternToken) (token : rstring) : bool :=
  match self with
  | Single expected => bool_decide (expected = token)
  | Alts alternatives => bool_decide (token ∈ alternatives)
  end.

Definition alternatives (self : PatternToken) : list rstring :=
  match self with Single expected => [expected] | Alts alts => alts end.

Record PrefixPattern : Type := { first : rstring; rest : list PatternToken }.

(** The loop over the zipped tokens. *)
Fixpoint tokens_match (tokens : list PatternToken) (cmd : list rstring) : bool :=
  match tokens, cmd with
  | t :: tokens', c :: cmd' => if token_matches t c then tokens_match tokens' cmd' else false
  | _, _ => true
  end.

Definition matches_prefix (self : PrefixPattern) (cmd : list rstring) : option (list rstring) :=
  let pattern_length := length (rest self) + 1 in
  if decide (length cmd < pattern_length) then None
  else match cmd with
  | [] => None
  | c :: cmd' =>
      if decide (c ≠ first self) then None
      else if tokens_match (rest self) (take (pattern_length - 1) cmd')
      then Some (take pattern_length cmd)
      else None
  end.

Inductive RuleMatch : Type :=
| PrefixRuleMatch (matched_prefix : list rstring) (decision : Decision)
    (resolved_program : option (list rstring)) (justification : option rstring)
| HeuristicsRuleMatch (command : list rstring) (decision : Decision).

Definition match_decision (m : RuleMatch) : Decision :=
  match m with PrefixRuleMatch _ d _ _ => d | HeuristicsRuleMatch _ d => d end.

Definition with_resolved_program (m : RuleMatch) (program : list rstring) : RuleMatch :=
  match m with
  | PrefixRuleMatch prefix d _ j => PrefixRuleMatch prefix d (Some program) j
  | other => other
  end.

Record PrefixRule : Type := {
  pattern : PrefixPattern;
  rule_decision : Decision;
  justification : option rstring;
}.

(** [impl Rule for PrefixRule]. *)
Definition program (r : PrefixRule) : rstring := first (pattern r).

Definition rule_matches (r : PrefixRule) (cmd : list rstring) : option RuleMatch :=
  (λ prefix, PrefixRuleMatch prefix (rule_decision r) None (justification r))
  <$> matches_prefix (pattern r) cmd.

Inductive NetworkRuleProtocol : Type := Http | Https | Socks5Tcp | Socks5Udp.

Definition protocol_parse (raw : rstring) : res Error NetworkRuleProtocol :=
  if decide (raw = str "http") then Ok Http
  else if decide (raw ∈ [str "https"; str "https_connect"; str "http-connect"]) then Ok Https
  else if decide (raw = str "socks5_tcp") then Ok Socks5Tcp
  else if decide (raw = str "socks5_udp") then Ok Socks5Udp
  else Err (InvalidRule
    (str "network_rule protocol must be one of http, https, socks5_tcp, socks5_udp (got " ++ raw ++ str ")")).

Definition as_policy_string (p : NetworkRuleProtocol) : rstring :=
  match p with
  | Http => str "http"
  | Https => str "https"
  | Socks5Tcp => str "socks5_tcp"
  | Socks5Udp => str "socks5_udp"
  end.

Record NetworkRule : Type := {
  host : rstring;
  protocol : NetworkRuleProtocol;
  network_decision : Decision;
  network_justification : option rstring;
}.

(** *** Hosts *)

Definition COLON : char := 58%N.
Definition DOT : char := 46%N.

Definition is_port (port : rstring) : bool := bool_decide (port ≠ []) && forallb is_ascii_digit port.

Definition invalid {A} (m : string) : res Error A := Err (InvalidRule (str m)).

(** [host] without a port and without the brackets of an IPv6 literal. *)
Definition strip_port (raw host : rstring) : res Error rstring :=
  match strip_prefix (str "[") host with
  | Some stripped =>
      match split_once 93%N stripped with
      | None => invalid "network_rule host has an invalid bracketed IPv6 literal"
      | Some (inside, suffix) =>
          let port_ok := match strip_prefix [COLON] suffix with Some port => is_port port | None => false end in
          if bool_decide (suffix ≠ []) && negb port_ok
          then Err (InvalidRule (str "network_rule host contains an unsupported suffix: " ++ raw))
          else Ok inside
      end
  | None =>
      if decide (length (filter (λ c, c = COLON) host) = 1) then
        match rsplit_once COLON host with
        | Some (candidate, port) =>
            if bool_decide (candidate ≠ []) && is_port port then Ok candidate else Ok host
        | None => Ok host
        end
      else Ok host
  end.

Definition normalize_network_rule_host (raw : rstring) : res Error rstring :=
  let host := trim raw in
  if decide (host = []) then invalid "network_rule host cannot be empty"
  else if contains host (str "://") || contains_char host 47%N || contains_char host 63%N
          || contains_char host 35%N
  then invalid "network_rule host must be a hostname or IP literal (without scheme or path)"
  else
    let? host := strip_port raw host in
    let normalized := to_ascii_lowercase (trim (trim_end_matches (λ c, c =? DOT)%N host)) in
    if decide (normalized = []) then invalid "network_rule host cannot be empty"
    else if contains_char normalized 42%N
    then invalid "network_rule host must be a specific host; wildcards are not allowed"
    else if existsb is_whitespace normalized then invalid "network_rule host cannot contain whitespace"
    else Ok normalized.

(** ** Policies *)

Abbreviation MultiMap := (gmap rstring (list PrefixRule)) (only parsing).

(** [MultiMap::insert]. *)
Definition multi_insert (m : MultiMap) (key : rstring) (rule : PrefixRule) : MultiMap :=
  <[key := default [] (m !! key) ++ [rule]]> m.

Record MatchOptions : Type := { resolve_host_executables : bool }.

Definition default_match_options : MatchOptions := {| resolve_host_executables := false |}.

Record Policy : Type := {
  rules_by_program : MultiMap;
  network_rules : list NetworkRule;
  host_executables_by_name : gmap rstring (list (list rstring));
}.

Definition policy_empty : Policy :=
  {| rules_by_program := ∅; network_rules := []; host_executables_by_name := ∅ |}.

Definition render_pattern_token (t : PatternToken) : rstring :=
  match t with
  | Single value => value
  | Alts alts => str "[" ++ join (str "|") alts ++ str "]"
  end.

(** The order of strings and of lists of strings. *)
Fixpoint lex_compare {A} (cmp : A → A → comparison) (a b : list A) : comparison :=
  match a, b with
  | [], [] => Eq
  | [], _ :: _ => Lt
  | _ :: _, [] => Gt
  | x :: a', y :: b' => match cmp x y with Eq => lex_compare cmp a' b' | c => c end
  end.

Definition prefix_compare : list rstring → list rstring → comparison :=
  lex_compare (lex_compare N.compare).

(** [Vec::sort] followed by [Vec::dedup]. *)
Fixpoint insert_sorted (p : list rstring) (ps : list (list rstring)) : list (list rstring) :=
  match ps with
  | [] => [p]
  | q :: ps' => match prefix_compare p q with Gt => q :: insert_sorted p ps' | _ => p :: ps end
  end.

Fixpoint dedup (ps : list (list rstring)) : list (list rstring) :=
  match ps with
  | p :: ((q :: _) as ps') => if decide (p = q) then dedup ps' else p :: dedup ps'
  | _ => ps
  end.

Definition allowed_prefix (r : PrefixRule) : option (list rstring) :=
  if decide (rule_decision r ≠ Allow) then None
  else Some (first (pattern r) :: (render_pattern_token <$> rest (pattern r))).

Definition get_allowed_prefixes (self : Policy) : list (list rstring) :=
  dedup (foldr insert_sorted []
    (concat ((λ x : rstring * list PrefixRule, omap allowed_prefix x.2)
             <$> (map_to_list (rules_by_program self) : list (rstring * list PrefixRule))))).

Definition add_prefix_rule (self : Policy) (prefix : list rstring) (decision : Decision)
    : Policy * res Error unit :=
  match prefix with
  | [] => (self, Err (InvalidPattern (str "prefix cannot be empty")))
  | first_token :: rest =>
      let rule := {| pattern := {| first := first_token; rest := Single <$> rest |};
                     rule_decision := decision; justification := None |} in
      ({| rules_by_program := multi_insert (rules_by_program self) first_token rule;
          network_rules := network_rules self;
          host_executables_by_name := host_executables_by_name self |}, Ok tt)
  end.

Definition blank_justification (j : option rstring) : bool :=
  match j with Some raw => bool_decide (trim raw = []) | None => false end.

Definition add_network_rule (self : Policy) (raw_host : rstring) (protocol : NetworkRuleProtocol)
    (decision : Decision) (j : option rstring) : Policy * res Error unit :=
  match normalize_network_rule_host raw_host with
  | Ok host =>
      if blank_justification j then (self, invalid "justification cannot be empty")
      else ({| rules_by_program := rules_by_program self;
               network_rules := network_rules self ++
                 [{| host := host; protocol := protocol; network_decision := decision;
                     network_justification := j |}];
               host_executables_by_name := host_executables_by_name self |}, Ok tt)
  | Err e => (self, Err e)
  | Panic => (self, Panic)
  end.

Definition set_host_executable_paths (self : Policy) (name : rstring) (paths : list (list rstring))
    : Policy :=
  {| rules_by_program := rules_by_program self; network_rules := network_rules self;
     host_executables_by_name := <[name := paths]> (host_executables_by_name self) |}.

(** The two nested loops over the rules of the overlay. *)
Definition merge_rules (base : MultiMap) (overlay : list (rstring * list PrefixRule)) : MultiMap :=
  foldl (λ m '(program, rules), foldl (λ m r, multi_insert m program r) m rules) base overlay.

Definition merge_overlay (self overlay : Policy) : Policy :=
  {| rules_by_program := merge_rules (rules_by_program self) (map_to_list (rules_by_program overlay));
     network_rules := network_rules self ++ network_rules overlay;
     host_executables_by_name := host_executables_by_name overlay ∪ host_executables_by_name self |}.

(** [upsert_domain]. *)
Definition upsert_domain (entries : list rstring) (h : rstring) : list rstring :=
  filter (λ e, e ≠ h) entries ++ [h].

Definition compile_network_rule (st : list rstring * list rstring) (rule : NetworkRule)
    : list rstring * list rstring :=
  let '(allowed, denied) := st in
  match network_decision rule with
  | Allow => (upsert_domain allowed (host rule), filter (λ e, e ≠ host rule) denied)
  | Forbidden => (filter (λ e, e ≠ host rule) allowed, upsert_domain denied (host rule))
  | Prompt => (allowed, denied)
  end.

Definition compiled_network_domains (self : Policy) : list rstring * list rstring :=
  foldl compile_network_rule ([], []) (network_rules self).

(** *** Evaluating commands *)

Record Evaluation : Type := { decision : Decision; matched_rules : list RuleMatch }.

Definition is_match (e : Evaluation) : bool :=
  existsb (λ m, match m with HeuristicsRuleMatch _ _ => false | _ => true end) (matched_rules e).

(** [Evaluation::from_matches], whose [expect] panics on an empty list. *)
Definition from_matches (ms : list RuleMatch) : res Error Evaluation :=
  let? d := or_panic (max_decision (match_decision <$> ms)) in
  Ok {| decision := d; matched_rules := ms |}.

Section check.
Variables (env : Env) (windows : bool).

Definition match_exact_rules (self : Policy) (cmd : list rstring) : option (list RuleMatch) :=
  match cmd with
  | [] => None
  | c :: _ => Some (omap (λ r, rule_matches r cmd) (default [] (rules_by_program self !! c)))
  end.

Definition match_host_executable_rules (self : Policy) (cmd : list rstring) : list RuleMatch :=
  match cmd with
  | [] => []
  | c :: args =>
      match from_absolute_path env c with
      | None => []
      | Some program =>
          match executable_path_lookup_key windows program with
          | None => []
          | Some basename =>
              match rules_by_program self !! basename with
              | None => []
              | Some rules =>
                  let listed :=
                    match host_executables_by_name self !! basename with
                    | Some paths => bool_decide (program ∈ paths)
                    | None => true
                    end in
                  if listed then
                    (λ m, with_resolved_program m program)
                      <$> omap (λ r, rule_matches r (basename :: args)) rules
                  else []
              end
          end
      end
  end.

Definition matches_for_command_with_options (self : Policy) (cmd : list rstring)
    (heuristics_fallback : option (list rstring → Decision)) (options : MatchOptions)
    : list RuleMatch :=
  let matched_rules :=
    match match_exact_rules self cmd with
    | Some ((_ :: _) as ms) => ms
    | _ => if resolve_host_executables options then match_host_executable_rules self cmd else []
    end in
  match matched_rules, heuristics_fallback with
  | [], Some f => [HeuristicsRuleMatch cmd (f cmd)]
  | _, _ => matched_rules
  end.

Definition matches_for_command (self : Policy) (cmd : list rstring)
    (heuristics_fallback : option (list rstring → Decision)) : list RuleMatch :=
  matches_for_command_with_options self cmd heuristics_fallback default_match_options.

Definition check_with_options (self : Policy) (cmd : list rstring)
    (heuristics_fallback : list rstring → Decision) (options : MatchOptions) : res Error Evaluation :=
  from_matches (matches_for_command_with_options self cmd (Some heuristics_fallback) options).

Definition check (self : Policy) (cmd : list rstring) (heuristics_fallback : list rstring → Decision)
    : res Error Evaluation :=
  check_with_options self cmd heuristics_fallback default_match_options.

Definition check_multiple_with_options (self : Policy) (commands : list (list rstring))
    (heuristics_fallback : list rstring → Decision) (options : MatchOptions) : res Error Evaluation :=
  from_matches (concat
    ((λ c, matches_for_command_with_options self c (Some heuristics_fallback) options) <$> commands)).

Definition check_multiple (self : Policy) (commands : list (list rstring))
    (heuristics_fallback : list rstring → Decision) : res Error Evaluation :=
  check_multiple_with_options self commands heuristics_fallback default_match_options.

End check.

(** ** Lemmas *)

(** *** Decisions *)

Lemma decision_max_strictness a b :
  strictness (decision_max a b) = strictness a `max` strictness b.
Proof. destruct a, b; reflexivity. Qed.

Lemma strictness_inj a b : strictness a = strictness b → a = b.
Proof. destruct a, b; done. Qed.

Lemma decision_max_assoc a b c : decision_max a (decision_max b c) = decision_max (decision_max a b) c.
Proof. destruct a, b, c; done. Qed.

Lemma foldl_decision_max d ds : foldl decision_max d ds = foldr decision_max d ds.
Proof.
  revert d. induction ds as [|x ds IH]; intros d; simpl; [done|]. rewrite <-IH.
  clear IH. revert d. induction ds as [|y ds IH]; intros d; simpl; [by destruct d, x|].
  rewrite <-IH. f_equal. by destruct d, x, y.
Qed.

Lemma max_decision_app a b :
  max_decision (a ++ b) =
  match max_decision a, max_decision b with
  | Some x, Some y => Some (decision_max x y)
  | Some x, None => Some x
  | None, y => y
  end.
Proof.
  destruct a as [|d a]; [by simpl; destruct (max_decision b)|]. simpl. rewrite foldl_app.
  destruct b as [|e b]; simpl; [done|]. f_equal. generalize (foldl decision_max d a). clear.
  intros d. revert e. induction b as [|x b IH]; intros e; simpl; [done|].
  by rewrite <-decision_max_assoc, IH.
Qed.

Lemma max_decision_spec ds d :
  max_decision ds = Some d → d ∈ ds ∧ ∀ e, e ∈ ds → strictness e ≤ strictness d.
Proof.
  revert d. induction ds as [|x ds IH] using rev_ind; intros d; [done|].
  rewrite max_decision_app. simpl. destruct (max_decision ds) as [y|] eqn:E.
  - intros [= <-]. destruct (IH _ eq_refl) as [Hin Hle]. split.
    + unfold decision_max. case_match; set_solver.
    + intros e [He| ->%list_elem_of_singleton]%elem_of_app; rewrite decision_max_strictness;
        [specialize (Hle e He)|]; lia.
  - intros [= <-]. destruct ds; [|done]. simpl. split; [set_solver|].
    intros e ->%list_elem_of_singleton. done.
Qed.

Lemma max_decision_None ds : max_decision ds = None ↔ ds = [].
Proof. by destruct ds. Qed.

(** *** Rules *)

(** A rule covers a command: the command starts with the rule's first token and
    then one alternative of each further token. *)
Definition covers (r : PrefixRule) (cmd : list rstring) : Prop :=
  ∃ toks tl, cmd = (first (pattern r) :: toks) ++ tl ∧
    Forall2 (λ t c, c ∈ alternatives t) (rest (pattern r)) toks.

Lemma token_matches_spec t c : token_matches t c = true ↔ c ∈ alternatives t.
Proof.
  destruct t; simpl; rewrite bool_decide_eq_true; [|done].
  rewrite list_elem_of_singleton. naive_solver.
Qed.

Lemma tokens_match_spec ts cs :
  length ts = length cs → tokens_match ts cs = true ↔ Forall2 (λ t c, c ∈ alternatives t) ts cs.
Proof.
  revert cs. induction ts as [|t ts IH]; intros [|c cs] Hl; simplify_eq/=; [by split|].
  rewrite Forall2_cons, <-token_matches_spec. destruct (token_matches t c); [|naive_solver].
  rewrite IH by done. naive_solver.
Qed.

Lemma matches_prefix_spec p cmd pre :
  matches_prefix p cmd = Some pre ↔
  ∃ toks tl, cmd = (first p :: toks) ++ tl ∧
    Forall2 (λ t c, c ∈ alternatives t) (rest p) toks ∧ pre = first p :: toks.
Proof.
  unfold matches_prefix. split.
  - case_decide as Hlen; [done|]. destruct cmd as [|c cmd]; [done|]. case_decide as Hc; [done|].
    subst c. simpl in Hlen.
    replace (length (rest p) + 1 - 1) with (length (rest p)) by lia.
    destruct (tokens_match _ _) eqn:Ht; [|done].
    apply tokens_match_spec in Ht; [|rewrite length_take; lia].
    rewrite Nat.add_comm. simpl. intros [= <-].
    exists (take (length (rest p)) cmd), (drop (length (rest p)) cmd).
    split_and!; [|done|done]. simpl. by rewrite take_drop.
  - intros (toks & tl & -> & Hf & ->). pose proof (Forall2_length _ _ _ Hf) as Hlen.
    rewrite decide_False by (rewrite length_app; simpl; lia). simpl.
    rewrite decide_False by (intros ?; done).
    replace (length (rest p) + 1 - 1) with (length toks) by lia. rewrite take_app_length.
    rewrite (proj2 (tokens_match_spec _ _ Hlen)) by done.
    rewrite Nat.add_comm. simpl. by rewrite Hlen, take_app_length.
Qed.

Lemma covers_matches r cmd : covers r cmd ↔ is_Some (matches_prefix (pattern r) cmd).
Proof.
  unfold covers, is_Some. setoid_rewrite matches_prefix_spec. naive_solver.
Qed.

Global Instance covers_dec r cmd : base.Decision (covers r cmd).
Proof.
  destruct (matches_prefix (pattern r) cmd) eqn:E; [left|right]; rewrite covers_matches, E;
    [done|by intros []].
Defined.

(** The rules of the policy that cover a command by its program name. *)
Definition covering (p : Policy) (cmd : list rstring) : list PrefixRule :=
  match cmd with
  | [] => []
  | c :: _ => filter (λ r, covers r cmd) (default [] (rules_by_program p !! c))
  end.

Lemma omap_matches (rs : list PrefixRule) cmd :
  match_decision <$> omap (λ r, rule_matches r cmd) rs =
  rule_decision <$> filter (λ r, covers r cmd) rs.
Proof.
  induction rs as [|r rs IH]; [done|]. simpl. unfold rule_matches at 1.
  rewrite filter_cons. destruct (matches_prefix (pattern r) cmd) as [pre|] eqn:E; simpl.
  - rewrite decide_True by (rewrite covers_matches, E; done). rewrite fmap_cons. by f_equal.
  - rewrite decide_False by (rewrite covers_matches, E; by intros []). done.
Qed.

Lemma exact_decisions p c args :
  ∃ ms, match_exact_rules p (c :: args) = Some ms ∧
    match_decision <$> ms = rule_decision <$> covering p (c :: args).
Proof. eexists. split; [done|]. apply omap_matches. Qed.

(** *** Evaluation *)

Section evaluation.
Context (env : Env) (windows : bool).

Lemma matches_nonempty p cmd f o :
  matches_for_command_with_options env windows p cmd (Some f) o ≠ [].
Proof.
  unfold matches_for_command_with_options. repeat case_match; done.
Qed.

Lemma from_matches_Ok ms :
  ms ≠ [] → ∃ d, from_matches ms = Ok {| decision := d; matched_rules := ms |} ∧
    max_decision (match_decision <$> ms) = Some d.
Proof.
  intros Hne. unfold from_matches. destruct (max_decision _) as [d|] eqn:E; [by exists d|].
  apply max_decision_None, fmap_nil_inv in E. done.
Qed.

Lemma check_covering p cmd f o :
  covering p cmd ≠ [] →
  ∃ ms, matches_for_command_with_options env windows p cmd (Some f) o = ms ∧ ms ≠ [] ∧
    match_decision <$> ms = rule_decision <$> covering p cmd.
Proof.
  destruct cmd as [|c args]; [done|]. intros Hne.
  destruct (exact_decisions p c args) as (ms & Hms & Hd).
  unfold matches_for_command_with_options. rewrite Hms.
  destruct ms as [|m ms]; [|by exists (m :: ms)].
  symmetry in Hd. by apply fmap_nil_inv in Hd.
Qed.

End evaluation.

(** *** Merging *)

Lemma multi_insert_lookup m k r q :
  default [] (multi_insert m k r !! q) = default [] (m !! q) ++ (if decide (q = k) then [r] else []).
Proof.
  unfold multi_insert. case_decide as Hq; subst.
  - by rewrite lookup_insert_eq.
  - rewrite lookup_insert_ne by done. by rewrite app_nil_r.
Qed.

Lemma multi_insert_all_lookup m k rs q :
  default [] (foldl (λ m r, multi_insert m k r) m rs !! q) =
  default [] (m !! q) ++ (if decide (q = k) then rs else []).
Proof.
  revert m. induction rs as [|r rs IH]; intros m; simpl.
  { case_decide; by rewrite app_nil_r. }
  rewrite IH, multi_insert_lookup. case_decide; by rewrite <-app_assoc.
Qed.

Lemma merge_rules_lookup base l q :
  NoDup l.*1 →
  default [] (merge_rules base l !! q) =
  default [] (base !! q) ++ default [] (list_to_map (M := gmap rstring (list PrefixRule)) l !! q).
Proof.
  unfold merge_rules. revert base. induction l as [|[k rs] l IH]; intros base Hnd; simpl.
  { by rewrite lookup_empty, app_nil_r. }
  apply NoDup_cons in Hnd as [Hk Hnd]. rewrite IH, multi_insert_all_lookup by done.
  case_decide as Hq; subst.
  - rewrite lookup_insert_eq. simpl. rewrite (not_elem_of_list_to_map_1 l k) by done.
    by rewrite app_nil_r.
  - rewrite lookup_insert_ne by done. by rewrite app_nil_r.
Qed.

Lemma merge_overlay_lookup p q c :
  default [] (rules_by_program (merge_overlay p q) !! c) =
  default [] (rules_by_program p !! c) ++ default [] (rules_by_program q !! c).
Proof.
  simpl. rewrite merge_rules_lookup by apply NoDup_fst_map_to_list. by rewrite list_to_map_to_list.
Qed.

Lemma covering_merge p q cmd : covering (merge_overlay p q) cmd = covering p cmd ++ covering q cmd.
Proof. destruct cmd; [done|]. unfold covering. by rewrite merge_overlay_lookup, filter_app. Qed.

(** *** Network domains *)

(** The last decision on a host that is not a prompt. *)
Definition last_verdict (rules : list NetworkRule) (h : rstring) : option Decision :=
  last (filter (λ d, d ≠ Prompt) (network_decision <$> filter (λ r, host r = h) rules)).

Lemma last_verdict_snoc rules r h :
  last_verdict (rules ++ [r]) h =
  if decide (host r = h ∧ network_decision r ≠ Prompt) then Some (network_decision r)
  else last_verdict rules h.
Proof.
  unfold last_verdict. rewrite filter_app, fmap_app, filter_app. rewrite filter_cons, filter_nil.
  destruct (decide (host r = h)) as [Hh|Hh]; simpl.
  - rewrite filter_cons, filter_nil. destruct (decide (network_decision r ≠ Prompt)) as [Hd|Hd].
    + rewrite last_snoc. by rewrite decide_True.
    + rewrite app_nil_r. by rewrite decide_False by naive_solver.
  - rewrite filter_nil, app_nil_r. by rewrite decide_False by naive_solver.
Qed.

Record domains_ok (rules : list NetworkRule) (st : list rstring * list rstring) : Prop := {
  dom_allowed : ∀ h, h ∈ st.1 ↔ last_verdict rules h = Some Allow;
  dom_denied : ∀ h, h ∈ st.2 ↔ last_verdict rules h = Some Forbidden;
  dom_nodup : NoDup st.1 ∧ NoDup st.2;
}.

Lemma upsert_domain_elem es h x : x ∈ upsert_domain es h ↔ x = h ∨ x ∈ es.
Proof.
  unfold upsert_domain. rewrite elem_of_app, list_elem_of_filter, list_elem_of_singleton.
  destruct (decide (x = h)); naive_solver.
Qed.

Lemma upsert_domain_nodup es h : NoDup es → NoDup (upsert_domain es h).
Proof.
  intros Hnd. apply NoDup_app. split_and!; [by apply NoDup_filter| |apply NoDup_singleton].
  intros x [Hx _]%list_elem_of_filter ?%list_elem_of_singleton. done.
Qed.

Lemma compile_network_rule_ok rules st r :
  domains_ok rules st → domains_ok (rules ++ [r]) (compile_network_rule st r).
Proof.
  intros [Ha Hd [Hn1 Hn2]]. destruct st as [al de]. simpl in *. unfold compile_network_rule.
  destruct (network_decision r) eqn:E; split; simpl; try intros h; rewrite ?last_verdict_snoc, ?E;
    rewrite ?upsert_domain_elem, ?list_elem_of_filter, ?Ha, ?Hd;
    try (destruct (decide (h = host r)) as [->|]; case_decide; naive_solver);
    auto using upsert_domain_nodup, NoDup_filter.
Qed.

Lemma compiled_domains_ok p : domains_ok (network_rules p) (compiled_network_domains p).
Proof.
  unfold compiled_network_domains. generalize (network_rules p) as rules.
  intros rules. induction rules as [|r rules IH] using rev_ind.
  - split; simpl; [|..|by split; constructor]; intros h; (split; [by intros ?%elem_of_nil|done]).
  - rewrite foldl_snoc. by apply compile_network_rule_ok.
Qed.

(** *** Hosts *)

Lemma trim_end_matches_elem p s c : c ∈ trim_end_matches p s → c ∈ s.
Proof. destruct (trim_end_matches_prefix p s) as (w & Hw & _). rewrite Hw at 2. set_solver. Qed.

Lemma trim_elem s c : c ∈ trim s → c ∈ s.
Proof.
  unfold trim, trim_end, trim_start. intros Hc%trim_end_matches_elem.
  destruct (trim_start_matches_suffix is_whitespace s) as (w & Hw & _). rewrite Hw. set_solver.
Qed.

Lemma strip_port_elem raw host h c : strip_port raw host = Ok h → c ∈ h → c ∈ host.
Proof.
  unfold strip_port. destruct (strip_prefix (str "[") host) as [s|] eqn:E.
  - apply strip_prefix_Some in E as ->. destruct (split_once 93%N s) as [[i r]|] eqn:E2; [|done].
    apply split_once_Some in E2 as [-> _]. destruct (_ && _); [done|]. intros [= <-]. set_solver.
  - case_decide; [|by intros [= <-]]. unfold rsplit_once.
    destruct (split_once COLON (reverse host)) as [[a b]|] eqn:E2; simpl; [|by intros [= <-]].
    apply split_once_Some in E2 as [E2 _]. apply (f_equal reverse) in E2.
    rewrite reverse_involutive in E2. destruct (_ && _); intros [= <-] Hc; [|done].
    rewrite E2, reverse_app, reverse_cons. set_solver.
Qed.

Lemma char_to_ascii_lowercase_inv c d :
  (d < 65 ∨ 122 < d)%N → char_to_ascii_lowercase c = d → c = d.
Proof.
  unfold char_to_ascii_lowercase. destruct (_ && _) eqn:E; [|done].
  apply andb_true_iff in E as [E1%N.leb_le E2%N.leb_le]. lia.
Qed.

(** What a normalised host looks like. *)
Record host_ok (h : rstring) : Prop := {
  host_nonempty : h ≠ [];
  host_lower : to_ascii_lowercase h = h;
  host_no_blank : Forall (λ c, is_whitespace c = false) h;
  host_no_special : (42%N ∉ h) ∧ (47%N ∉ h) ∧ (63%N ∉ h) ∧ (35%N ∉ h);
}.

Lemma contains_char_false s c : contains_char s c = false ↔ c ∉ s.
Proof. unfold contains_char. apply bool_decide_eq_false. Qed.

Lemma normalize_host_ok raw h : normalize_network_rule_host raw = Ok h → host_ok h.
Proof.
  unfold normalize_network_rule_host. case_decide; [done|].
  destruct (_ || _) eqn:Hs; [done|]. rewrite !orb_false_iff, !contains_char_false in Hs.
  destruct Hs as [[[_ H1] H2] H3]. intros (host & Hp & Hn)%res_bind_Ok. revert Hn.
  set (n := to_ascii_lowercase _). case_decide as Hne; [done|].
  destruct (contains_char n 42) eqn:Hstar; [done|]. destruct (existsb is_whitespace n) eqn:Hw; [done|].
  intros [= <-]. apply contains_char_false in Hstar.
  assert (∀ d, (d < 65)%N → d ∈ n → d ∈ trim raw) as Hin.
  { intros d Hd Hdn. subst n. unfold to_ascii_lowercase in Hdn.
    apply list_elem_of_fmap in Hdn as (c & Hc & Hcin). symmetry in Hc.
    apply char_to_ascii_lowercase_inv in Hc as ->; [|lia].
    eapply strip_port_elem; [done|]. by eapply trim_end_matches_elem, trim_elem. }
  split; [done| | |].
  - subst n. unfold to_ascii_lowercase. rewrite map_map. apply map_ext.
    intros. apply char_to_ascii_lowercase_idem.
  - apply Forall_forall. intros c Hc. apply not_true_iff_false. intros Hcw.
    assert (existsb is_whitespace n = true) as Ht; [|congruence].
    apply existsb_exists. exists c. split; [by apply list_elem_of_In|done].
  - split_and!; [done|..]; intros Hc%Hin; done || lia.
Qed.

(** *** Programs given by a relative path *)

(** The fallback to rules by base name, for [./name]. *)
Lemma host_rules_relative env cwd p name args rules :
  current_dir env = Some cwd → SLASH ∉ name → name ≠ [] → name ≠ str "." → name ≠ str ".." →
  rules_by_program p !! name = Some rules → host_executables_by_name p !! name = None →
  match_host_executable_rules env false p ((str "./" ++ name) :: args) =
  (λ m, with_resolved_program m (cwd ++ [name]))
    <$> omap (λ r, rule_matches r (name :: args)) rules.
Proof.
  intros Hc Hs H1 H2 H3 Hr Hh. unfold match_host_executable_rules.
  assert (from_absolute_path env (str "./" ++ name) = Some (cwd ++ [name])) as ->.
  { unfold from_absolute_path. replace (expand_home env (str "./" ++ name)) with (@None (list rstring * rstring)) by done.
    replace (is_absolute (str "./" ++ name)) with false by done. rewrite Hc. simpl. f_equal.
    unfold normalize_from, components. change (str "./" ++ name) with (str "." ++ (SLASH :: name)).
    rewrite split_char_app, split_char_no_sep by (done || by apply (bool_decide_eq_true_1 (SLASH ∉ str "."))).
    replace (is_absolute (str "." ++ (SLASH :: name))) with false by done. rewrite decide_True by done.
    rewrite filter_cons_False, filter_cons_True, filter_nil by naive_solver.
    simpl. unfold component_of. by rewrite decide_False. }
  unfold executable_path_lookup_key, abs_file_name. rewrite last_snoc. simpl. by rewrite Hr, Hh.
Qed.

Lemma with_resolved_decision m program : match_decision (with_resolved_program m program) = match_decision m.
Proof. by destruct m. Qed.

(** ** Properties *)

(** Evaluating a command never panics, and the decision is the strictest of
    the matches: every match is at most as strict and one of them is it. *)
Theorem check_is_strictest_match env windows p cmd f options :
  ∃ ev, check_with_options env windows p cmd f options = Ok ev ∧ matched_rules ev ≠ [] ∧
    (∀ m, m ∈ matched_rules ev → strictness (match_decision m) ≤ strictness (decision ev)) ∧
    (∃ m, m ∈ matched_rules ev ∧ match_decision m = decision ev).
Proof.
  pose proof (matches_nonempty env windows p cmd f options) as Hne.
  destruct (from_matches_Ok _ Hne) as (d & Hd & Hmax). eexists. split; [exact Hd|]. simpl.
  apply max_decision_spec in Hmax as [Hin Hle]. split; [done|]. split.
  - intros m Hm. apply Hle. by apply list_elem_of_fmap_2.
  - apply list_elem_of_fmap in Hin as (m & -> & Hm). eauto.
Qed.

(** C9: rules decide, and the strictest one wins: when the policy has rules for
    the command's program that cover the command, the decision is the maximum of
    their decisions, and neither the heuristics nor the host executables have a
    say.  A [Forbidden] rule that covers a command cannot be overruled. *)
Theorem covering_rules_decide env windows p cmd f options :
  covering p cmd ≠ [] →
  ∃ ev, check_with_options env windows p cmd f options = Ok ev ∧
    max_decision (rule_decision <$> covering p cmd) = Some (decision ev).
Proof.
  intros (ms & Hms & Hne & Hd)%(check_covering env windows p cmd f options).
  unfold check_with_options. rewrite Hms. destruct (from_matches_Ok ms Hne) as (d & -> & Hmax).
  eexists. split; [done|]. simpl. by rewrite <-Hd.
Qed.

Definition sample_rule (d : Decision) (tokens : list rstring) : PrefixRule :=
  {| pattern := {| first := str "git"; rest := Single <$> tokens |}; rule_decision := d;
     justification := None |}.

Definition sample_policy : Policy :=
  {| rules_by_program := {[str "git" := [sample_rule Allow []; sample_rule Forbidden [str "push"]]]};
     network_rules := []; host_executables_by_name := ∅ |}.

Definition sample_env : Env := {| home_dir := None; current_dir := Some [str "work"] |}.

Lemma covering_rules_decide_witness :
  ∃ ev, check_with_options sample_env false sample_policy [str "git"; str "push"; str "-f"]
          (λ _, Allow) default_match_options = Ok ev ∧
    max_decision (rule_decision <$> covering sample_policy [str "git"; str "push"; str "-f"]) =
      Some (decision ev).
Proof. apply covering_rules_decide. by vm_compute. Defined.

(** Several commands are as strict as the strictest of them; an empty list
    of commands is the one case in which the aggregation panics. *)
Theorem check_multiple_is_maximum env windows p commands f options :
  (commands = [] ∧ check_multiple_with_options env windows p commands f options = Panic) ∨
  ∃ ev, check_multiple_with_options env windows p commands f options = Ok ev ∧
    (∀ c, c ∈ commands → ∃ e, check_with_options env windows p c f options = Ok e ∧
       strictness (decision e) ≤ strictness (decision ev)) ∧
    (∃ c e, c ∈ commands ∧ check_with_options env windows p c f options = Ok e ∧
       decision e = decision ev).
Proof.
  destruct commands as [|c0 cs]; [left; done|]. right.
  unfold check_multiple_with_options, check_with_options.
  set (ms := λ c, matches_for_command_with_options env windows p c (Some f) options).
  assert (∀ c, ms c ≠ []) as Hne by (intros; apply matches_nonempty).
  assert (concat (ms <$> c0 :: cs) ≠ []) as Hall.
  { simpl. intros [H _]%app_nil. by apply (Hne c0). }
  destruct (from_matches_Ok _ Hall) as (d & Hd & Hmax). eexists. split; [exact Hd|]. simpl.
  apply max_decision_spec in Hmax as [Hin Hle].
  assert (∀ c m, c ∈ c0 :: cs → m ∈ ms c → match_decision m ∈ match_decision <$> concat (ms <$> c0 :: cs))
    as Hsub.
  { intros c m Hc Hm. apply list_elem_of_fmap_2, elem_of_concat_fmap. eauto. }
  split.
  - intros c Hc. destruct (from_matches_Ok _ (Hne c)) as (e & He & Hmax).
    eexists. split; [exact He|]. simpl. apply max_decision_spec in Hmax as [He' _].
    apply list_elem_of_fmap in He' as (m & -> & Hm). apply Hle. by eapply Hsub.
  - apply list_elem_of_fmap in Hin as (m & -> & Hm).
    apply elem_of_concat_fmap in Hm as (c & Hc & Hm). destruct (from_matches_Ok _ (Hne c)) as (e & He & Hmax).
    exists c. eexists. split; [done|]. split; [exact He|]. simpl. apply strictness_inj.
    apply max_decision_spec in Hmax as [He' Hle']. apply Nat.le_antisymm.
    + apply list_elem_of_fmap in He' as (m' & -> & Hm'). apply Hle. by eapply Hsub.
    + apply Hle'. by apply list_elem_of_fmap_2.
Qed.

(** An overlay can only tighten what the base policy decides by rule: on a
    command that a base rule covers, the merged policy decides the maximum of
    the base's and the overlay's covering rules. *)
Theorem merge_overlay_only_tightens env windows base overlay cmd f options :
  covering base cmd ≠ [] →
  ∃ eb em, check_with_options env windows base cmd f options = Ok eb ∧
    check_with_options env windows (merge_overlay base overlay) cmd f options = Ok em ∧
    strictness (decision eb) ≤ strictness (decision em) ∧
    Some (decision em) =
      max_decision (decision eb :: (rule_decision <$> covering overlay cmd)).
Proof.
  intros Hb. assert (covering (merge_overlay base overlay) cmd ≠ []) as Hm.
  { rewrite covering_merge. by intros [? _]%app_nil. }
  destruct (check_covering env windows _ _ f options Hb) as (ms & Hms & Hne & Hd).
  destruct (check_covering env windows _ _ f options Hm) as (ms' & Hms' & Hne' & Hd').
  unfold check_with_options. rewrite Hms, Hms'.
  destruct (from_matches_Ok ms Hne) as (d & -> & Hmax).
  destruct (from_matches_Ok ms' Hne') as (d' & -> & Hmax').
  eexists _, _. split; [done|]. split; [done|]. simpl.
  rewrite Hd', covering_merge, fmap_app, max_decision_app, <-Hd, Hmax in Hmax'.
  assert (max_decision (d :: (rule_decision <$> covering overlay cmd)) = Some d') as Hmd.
  { change (d :: ?l) with ([d] ++ l). rewrite max_decision_app. simpl.
    by destruct (max_decision (rule_decision <$> covering overlay cmd)). }
  split; [|by symmetry]. apply max_decision_spec in Hmd as [_ Hle]. apply Hle. by left.
Qed.

Definition sample_overlay : Policy :=
  {| rules_by_program := {[str "git" := [sample_rule Prompt [str "log"]]]};
     network_rules := []; host_executables_by_name := ∅ |}.

Lemma merge_overlay_only_tightens_witness :
  ∃ eb em, check_with_options sample_env false sample_policy [str "git"; str "log"] (λ _, Allow)
             default_match_options = Ok eb ∧
    check_with_options sample_env false (merge_overlay sample_policy sample_overlay)
      [str "git"; str "log"] (λ _, Allow) default_match_options = Ok em ∧
    strictness (decision eb) ≤ strictness (decision em) ∧
    Some (decision em) =
      max_decision (decision eb :: (rule_decision <$> covering sample_overlay [str "git"; str "log"])).
Proof. apply merge_overlay_only_tightens. by vm_compute. Defined.

(** The compiled domain lists are what the network rules say: a host is
    allowed exactly when the last rule on it that is not a prompt allows it, and
    denied exactly when that rule forbids it; no host is in both lists and none
    is listed twice. *)
Theorem compiled_domains_last_rule_wins p :
  let '(allowed, denied) := compiled_network_domains p in
  (∀ h, h ∈ allowed ↔ last_verdict (network_rules p) h = Some Allow) ∧
  (∀ h, h ∈ denied ↔ last_verdict (network_rules p) h = Some Forbidden) ∧
  (∀ h, h ∈ allowed → h ∉ denied) ∧ NoDup allowed ∧ NoDup denied.
Proof.
  pose proof (compiled_domains_ok p) as Hok.
  destruct (compiled_network_domains p) as [al de]. destruct Hok as [Ha Hd [? ?]]. simpl in *.
  split_and!; [done|done| |done|done]. intros h Hh%Ha Hh'%Hd. congruence.
Qed.

(** A host that is accepted in a network rule is a bare host: not empty, in
    lower case, without whitespace, wildcard, path, query or fragment. *)
Theorem add_network_rule_host_ok p raw proto d j p' :
  add_network_rule p raw proto d j = (p', Ok tt) →
  ∃ h, network_rules p' = network_rules p ++
    [{| host := h; protocol := proto; network_decision := d; network_justification := j |}] ∧ host_ok h.
Proof.
  unfold add_network_rule. destruct (normalize_network_rule_host raw) as [h| |] eqn:E; [|done..].
  destruct (blank_justification j); [done|]. intros [= <-]. exists h.
  split; [done|]. by eapply normalize_host_ok.
Qed.

Lemma add_network_rule_host_ok_witness :
  ∃ h, [{| host := str "api.example.com"; protocol := Https; network_decision := Allow;
           network_justification := None |}] =
       [] ++ [{| host := h; protocol := Https; network_decision := Allow; network_justification := None |}]
    ∧ host_ok h.
Proof.
  apply (add_network_rule_host_ok policy_empty (str " API.example.com.:443 ") Https Allow None
    {| rules_by_program := ∅;
       network_rules := [{| host := str "api.example.com"; protocol := Https;
         network_decision := Allow; network_justification := None |}];
       host_executables_by_name := ∅ |}).
  by vm_compute.
Defined.

(** With the resolution of host executables a program given by a relative
    path is judged by the rules for its base name: [./name] in the current
    directory gets the decision of [name], when the policy has no rules for the
    path itself and does not list the executables of [name]. *)
Theorem relative_program_uses_name_rules env cwd p name args f :
  current_dir env = Some cwd → SLASH ∉ name → name ≠ [] → name ≠ str "." → name ≠ str ".." →
  covering p (name :: args) ≠ [] → covering p ((str "./" ++ name) :: args) = [] →
  host_executables_by_name p !! name = None →
  ∃ ev, check_with_options env false p ((str "./" ++ name) :: args) f
          {| resolve_host_executables := true |} = Ok ev ∧
    max_decision (rule_decision <$> covering p (name :: args)) = Some (decision ev).
Proof.
  intros Hc Hs H1 H2 H3 Hcov Hno Hh. unfold check_with_options, matches_for_command_with_options.
  destruct (exact_decisions p (str "./" ++ name) args) as (ms & -> & Hd).
  rewrite Hno in Hd. apply fmap_nil_inv in Hd as ->. cbn [resolve_host_executables].
  destruct (rules_by_program p !! name) as [rules|] eqn:Hr; [|unfold covering in Hcov; by rewrite Hr in Hcov].
  rewrite (host_rules_relative env cwd p name args rules) by done.
  set (ms := (λ m, with_resolved_program m (cwd ++ [name])) <$> _).
  assert (match_decision <$> ms = rule_decision <$> covering p (name :: args)) as Hms.
  { subst ms. rewrite <-list_fmap_compose. unfold covering. rewrite Hr. simpl. rewrite <-omap_matches.
    apply list_fmap_ext. intros. apply with_resolved_decision. }
  destruct ms as [|m ms]; [symmetry in Hms; by apply fmap_nil_inv in Hms|].
  destruct (from_matches_Ok (m :: ms)) as (d & -> & Hmax); [done|].
  eexists. split; [done|]. simpl decision. by rewrite <-Hms.
Qed.

Lemma relative_program_uses_name_rules_witness :
  ∃ ev, check_with_options sample_env false sample_policy [str "./" ++ str "git"; str "status"]
          (λ _, Prompt) {| resolve_host_executables := true |} = Ok ev ∧
    max_decision (rule_decision <$> covering sample_policy [str "git"; str "status"]) = Some (decision ev).
Proof.
  apply (relative_program_uses_name_rules sample_env [str "work"] sample_policy (str "git") [str "status"]);
    try done; [by apply (bool_decide_eq_true_1 (SLASH ∉ str "git"))|by vm_compute..].
Defined.
