(* ===== verification/PolicyBuilder.v ===== *)
(** * Building policies

    The Starlark front end of the execution policy ([parser.rs], and the example
    checks of [rule.rs]).  Starlark and [shlex] are third-party: an evaluation is
    the sequence of the builtin calls it makes, which does not depend on their
    results since they all return [None] or end it, and [shlex] is a function that
    the definitions take as an argument. *)

From S2P Require Import Prelude RustStr AbsolutePath ExecPolicy.

Set Default Proof Using "Type".

(** ** Starlark values and patterns *)

(** A value as the builtins inspect it; any other value is its type's name. *)
Inductive Value : Type :=
| VStr (s : rstring)
| VList (items : list Value)
| VOther (type_name : rstring).

Definition get_type (v : Value) : rstring :=
  match v with VStr _ => str "string" | VList _ => str "list" | VOther t => t end.

Definition unpack_str {E} (e : rstring → E) (v : Value) : res E rstring :=
  match v with VStr s => Ok s | _ => Err (e (get_type v)) end.

Definition parse_pattern_token (value : Value) : res Error PatternToken :=
  match value with
  | VStr s => Ok (Single s)
  | VList items =>
      let? tokens := res_mapM (unpack_str (λ t,
        InvalidPattern (str "pattern alternative must be a string (got " ++ t ++ str ")"))) items in
      match tokens with
      | [] => Err (InvalidPattern (str "pattern alternatives cannot be empty"))
      | [single] => Ok (Single single)
      | _ => Ok (Alts tokens)
      end
  | VOther t =>
      Err (InvalidPattern
        (str "pattern element must be a string or list of strings (got " ++ t ++ str ")"))
  end.

Definition parse_pattern (pattern : list Value) : res Error (list PatternToken) :=
  let? tokens := res_mapM parse_pattern_token pattern in
  match tokens with
  | [] => Err (InvalidPattern (str "pattern cannot be empty"))
  | _ => Ok tokens
  end.

Definition parse_network_rule_decision (raw : rstring) : res Error Decision :=
  if decide (raw = str "deny") then Ok Forbidden else decision_parse raw.

Definition parse_justification (j : option rstring) : res Error (option rstring) :=
  if blank_justification j then invalid "justification cannot be empty" else Ok j.

Definition validate_host_executable_name (name : rstring) : res Error unit :=
  match name with
  | [] => invalid "host_executable name cannot be empty"
  | _ =>
      if bool_decide (length (components name) ≠ 1) || bool_decide (file_name name ≠ Some name)
      then Err (InvalidRule (str "host_executable name must be a bare executable name (got " ++ name ++ str ")"))
      else Ok tt
  end.

Section builder.
Variables (env : Env) (windows : bool).
(** The text of the I/O error with which a path cannot be made absolute. *)
Variable path_error : rstring.
(** [shlex::split], [shlex::try_join], and the [Debug] output of rules. *)
Variables (shlex_split : rstring → option (list rstring)) (shlex_join : list rstring → option rstring).
Variables (debug_rule : PrefixRule → rstring) (debug_match : RuleMatch → rstring).

(** ** Examples *)

Definition parse_string_example (raw : rstring) : res Error (list rstring) :=
  match shlex_split raw with
  | None => Err (InvalidExample (str "example string has invalid shell syntax"))
  | Some [] => Err (InvalidExample (str "example cannot be an empty string"))
  | Some tokens => Ok tokens
  end.

Definition parse_list_example (items : list Value) : res Error (list rstring) :=
  let? tokens := res_mapM (unpack_str (λ t,
    InvalidExample (str "example tokens must be strings (got " ++ t ++ str ")"))) items in
  match tokens with
  | [] => Err (InvalidExample (str "example cannot be an empty list"))
  | _ => Ok tokens
  end.

Definition parse_example (value : Value) : res Error (list rstring) :=
  match value with
  | VStr raw => parse_string_example raw
  | VList items => parse_list_example items
  | VOther t =>
      Err (InvalidExample (str "example must be a string or list of strings (got " ++ t ++ str ")"))
  end.

Definition parse_examples (examples : option (list Value)) : res Error (list (list rstring)) :=
  match examples with None => Ok [] | Some vs => res_mapM parse_example vs end.

Definition render_example (example : list rstring) : rstring :=
  default (str "unable to render example") (shlex_join example).

Definition example_options : MatchOptions := {| resolve_host_executables := true |}.

Definition example_matches (policy : Policy) (example : list rstring) : list RuleMatch :=
  matches_for_command_with_options env windows policy example None example_options.

Definition validate_match_examples (policy : Policy) (rules : list PrefixRule)
    (matches : list (list rstring)) : res Error unit :=
  let unmatched := render_example <$> filter (λ ex, example_matches policy ex = []) matches in
  match unmatched with
  | [] => Ok tt
  | _ => Err (ExampleDidNotMatch (debug_rule <$> rules) unmatched None)
  end.

Fixpoint validate_not_match_examples (policy : Policy) (not_matches : list (list rstring))
    : res Error unit :=
  match not_matches with
  | [] => Ok tt
  | example :: not_matches' =>
      match example_matches policy example with
      | m :: _ => Err (ExampleDidMatch (debug_match m) (render_example example) None)
      | [] => validate_not_match_examples policy not_matches'
      end
  end.

(** ** The builder *)

Record PendingExampleValidation : Type := {
  pending_rules : list PrefixRule;
  pending_matches : list (list rstring);
  pending_not_matches : list (list rstring);
  pending_location : option ErrorLocation;
}.

Record PolicyBuilder : Type := {
  b_rules : gmap rstring (list PrefixRule);
  b_network : list NetworkRule;
  b_hosts : gmap rstring (list (list rstring));
  b_pending : list PendingExampleValidation;
}.

Definition builder_new : PolicyBuilder :=
  {| b_rules := ∅; b_network := []; b_hosts := ∅; b_pending := [] |}.

Definition add_rules (m : gmap rstring (list PrefixRule)) (rules : list PrefixRule)
    : gmap rstring (list PrefixRule) :=
  foldl (λ m r, multi_insert m (program r) r) m rules.

Definition attach_validation_location (e : Error) (location : option ErrorLocation) : Error :=
  match location with Some l => with_location e l | None => e end.

(** The policy one [prefix_rule] call is checked against. *)
Definition validation_policy (b : PolicyBuilder) (v : PendingExampleValidation) : Policy :=
  {| rules_by_program := add_rules ∅ (pending_rules v); network_rules := [];
     host_executables_by_name := b_hosts b |}.

Definition validate_pending (b : PolicyBuilder) (v : PendingExampleValidation) : res Error unit :=
  res_map_err (λ e, attach_validation_location e (pending_location v))
    (let? _ := validate_not_match_examples (validation_policy b v) (pending_not_matches v) in
     validate_match_examples (validation_policy b v) (pending_rules v) (pending_matches v)).

(** [&self.pending_example_validations[start..]] and the loop over it. *)
Definition validate_pending_examples_from (b : PolicyBuilder) (start : nat) : res Error unit :=
  let? vs := or_panic (slice (b_pending b) start (length (b_pending b))) in
  res_fold (λ _ v, validate_pending b v) tt vs.

Definition build (b : PolicyBuilder) : Policy :=
  {| rules_by_program := b_rules b; network_rules := b_network b;
     host_executables_by_name := b_hosts b |}.

(** ** The builtins *)

(** One rule per alternative of the first token. *)
Definition head_rules (first_token : PatternToken) (remaining : list PatternToken)
    (d : Decision) (j : option rstring) : list PrefixRule :=
  (λ h, {| pattern := {| first := h; rest := remaining |}; rule_decision := d; justification := j |})
    <$> alternatives first_token.

Definition prefix_rule (b : PolicyBuilder) (pattern : list Value) (decision : option rstring)
    (matches not_matches : option (list Value)) (justification : option rstring)
    (location : option ErrorLocation) : PolicyBuilder * res Error unit :=
  let parsed :=
    let? d := match decision with Some raw => decision_parse raw | None => Ok Allow end in
    let? j := parse_justification justification in
    let? tokens := parse_pattern pattern in
    let? ms := parse_examples matches in
    let? nms := parse_examples not_matches in
    match tokens with
    | [] => Err (InvalidPattern (str "pattern cannot be empty"))
    | first_token :: remaining => Ok (head_rules first_token remaining d j, ms, nms)
    end in
  match parsed with
  | Err e => (b, Err e)
  | Panic => (b, Panic)
  | Ok (rules, ms, nms) =>
      ({| b_rules := add_rules (b_rules b) rules; b_network := b_network b; b_hosts := b_hosts b;
          b_pending := b_pending b ++
            [{| pending_rules := rules; pending_matches := ms; pending_not_matches := nms;
                pending_location := location |}] |}, Ok tt)
  end.

Definition network_rule (b : PolicyBuilder) (raw_host raw_protocol raw_decision : rstring)
    (justification : option rstring) : PolicyBuilder * res Error unit :=
  let parsed :=
    let? proto := protocol_parse raw_protocol in
    let? d := parse_network_rule_decision raw_decision in
    let? j := parse_justification justification in
    let? h := normalize_network_rule_host raw_host in
    Ok {| host := h; protocol := proto; network_decision := d; network_justification := j |} in
  match parsed with
  | Err e => (b, Err e)
  | Panic => (b, Panic)
  | Ok rule => ({| b_rules := b_rules b; b_network := b_network b ++ [rule]; b_hosts := b_hosts b;
                   b_pending := b_pending b |}, Ok tt)
  end.

Definition parse_literal_absolute_path (raw : rstring) : res Error (list rstring) :=
  if is_absolute raw then
    ok_or (InvalidRule (str "invalid absolute path `" ++ raw ++ str "`: " ++ path_error)) (from_absolute_path env raw)
  else Err (InvalidRule (str "host_executable paths must be absolute (got " ++ raw ++ str ")")).

(** The body of the loop over the paths. *)
Definition host_executable_path (name : rstring) (parsed : list (list rstring)) (value : Value)
    : res Error (list (list rstring)) :=
  let? raw := unpack_str (λ t,
    InvalidRule (str "host_executable paths must be strings (got " ++ t ++ str ")")) value in
  let? path := parse_literal_absolute_path raw in
  if decide (executable_path_lookup_key windows path = Some (executable_lookup_key windows name))
  then Ok (if decide (path ∈ parsed) then parsed else parsed ++ [path])
  else Err (InvalidRule
    (str "host_executable path `" ++ raw ++ str "` must have basename `" ++ name ++ str "`")).

Definition host_executable (b : PolicyBuilder) (name : rstring) (paths : list Value)
    : PolicyBuilder * res Error unit :=
  let parsed :=
    let? _ := validate_host_executable_name name in
    res_fold (host_executable_path name) [] paths in
  match parsed with
  | Err e => (b, Err e)
  | Panic => (b, Panic)
  | Ok ps => ({| b_rules := b_rules b; b_network := b_network b;
                 b_hosts := <[executable_lookup_key windows name := ps]> (b_hosts b);
                 b_pending := b_pending b |}, Ok tt)
  end.

(** ** Parsing a policy *)

(** A call of a builtin, with the values it is applied to. *)
Inductive Call : Type :=
| CallPrefixRule (pattern : list Value) (decision : option rstring)
    (matches not_matches : option (list Value)) (justification : option rstring)
    (location : option ErrorLocation)
| CallNetworkRule (raw_host raw_protocol raw_decision : rstring) (justification : option rstring)
| CallHostExecutable (name : rstring) (paths : list Value).

Definition run_call (b : PolicyBuilder) (c : Call) : PolicyBuilder * res Error unit :=
  match c with
  | CallPrefixRule p d m n j l => prefix_rule b p d m n j l
  | CallNetworkRule h p d j => network_rule b h p d j
  | CallHostExecutable n ps => host_executable b n ps
  end.

(** The calls of an evaluation; the first error ends it. *)
Fixpoint run_calls (b : PolicyBuilder) (cs : list Call) : PolicyBuilder * res Error unit :=
  match cs with
  | [] => (b, Ok tt)
  | c :: cs' =>
      match run_call b c with
      | (b, Ok _) => run_calls b cs'
      | (b, r) => (b, r)
      end
  end.

(** Parsing and evaluating a policy file: the builtin calls it makes and the
    error, if any, with which Starlark ends it; and how an error of a builtin is
    reported by Starlark. *)
Variables (starlark : rstring → rstring → list Call * option rstring)
  (starlark_error : Error → rstring).

Definition parser_parse (b : PolicyBuilder) (policy_identifier contents : rstring)
    : PolicyBuilder * res Error unit :=
  let pending_validation_count := length (b_pending b) in
  let '(calls, failure) := starlark policy_identifier contents in
  match run_calls b calls with
  | (b, Err e) => (b, Err (Starlark (starlark_error e)))
  | (b, Panic) => (b, Panic)
  | (b, Ok _) =>
      match failure with
      | Some e => (b, Err (Starlark e))
      | None => (b, validate_pending_examples_from b pending_validation_count)
      end
  end.

(** ** Lemmas *)

Lemma add_rules_lookup m rs q :
  default [] (add_rules m rs !! q) = default [] (m !! q) ++ filter (λ r, program r = q) rs.
Proof.
  unfold add_rules. revert m. induction rs as [|r rs IH]; intros m; simpl; [by rewrite app_nil_r|].
  rewrite IH, multi_insert_lookup, filter_cons, <-app_assoc.
  repeat case_decide; congruence || done.
Qed.

(** A command starts with one alternative of each token of a pattern. *)
Definition pattern_covers (tokens : list PatternToken) (cmd : list rstring) : Prop :=
  ∃ toks tl, cmd = toks ++ tl ∧ Forall2 (λ t c, c ∈ alternatives t) tokens toks.

Lemma head_rules_cover t ts d j cmd :
  (∃ r, r ∈ head_rules t ts d j ∧ covers r cmd) ↔ pattern_covers (t :: ts) cmd.
Proof.
  unfold head_rules, covers, pattern_covers. split.
  - intros (r & (h & -> & Hh)%list_elem_of_fmap & toks & tl & -> & Hf). simpl in *.
    exists (h :: toks), tl. split; [done|]. by constructor.
  - intros (toks & tl & -> & Hf). apply Forall2_cons_inv_l in Hf as (h & toks' & Hh & Hf & ->).
    eexists. split; [by apply list_elem_of_fmap_2|]. exists toks', tl. done.
Qed.

Lemma covers_program r cmd : covers r cmd → head cmd = Some (program r).
Proof. by intros (toks & tl & -> & _). Qed.

(** Matching by name finds the covering rules. *)
Lemma exact_matches_nil p cmd :
  match_exact_rules p cmd = None ∨ match_exact_rules p cmd = Some [] ↔ covering p cmd = [].
Proof. clear starlark shlex_split path_error.
  destruct cmd as [|c args]; [naive_solver|].
  destruct (exact_decisions p c args) as (ms & -> & Hd). split.
  - intros [?|[= ->]]; [done|]. by eapply fmap_nil_inv.
  - intros Hc. rewrite Hc in Hd. apply fmap_nil_inv in Hd as ->. by right.
Qed.

Lemma omap_matches_nil rules cmd :
  omap (λ r, rule_matches r cmd) rules = [] ↔ filter (λ r, covers r cmd) rules = [].
Proof.
  pose proof (omap_matches rules cmd) as Hd. split; intros Heq; rewrite Heq in Hd;
    [symmetry in Hd|]; by apply fmap_nil_inv in Hd.
Qed.

(** A program whose path is listed for its base name, or is not restricted. *)
Definition host_listed (p : Policy) (prog : list rstring) (base : rstring) : Prop :=
  ∀ paths, host_executables_by_name p !! base = Some paths → prog ∈ paths.

(** The fallback by base name finds the rules that cover the command with its
    program replaced by the base name. *)
Lemma host_matches_nil p c args :
  match_host_executable_rules env windows p (c :: args) = [] ↔
  ∀ prog base, from_absolute_path env c = Some prog →
    executable_path_lookup_key windows prog = Some base → host_listed p prog base →
    covering p (base :: args) = [].
Proof. clear starlark shlex_split shlex_join.
  unfold match_host_executable_rules, covering.
  destruct (from_absolute_path env c) as [prog|]; [|naive_solver].
  destruct (executable_path_lookup_key windows prog) as [base|] eqn:Hb; [|naive_solver].
  trans (host_listed p prog base →
    filter (λ r, covers r (base :: args)) (default [] (rules_by_program p !! base)) = []).
  2: { split; [|by eauto]. intros Hc ?? [= <-] Hb'. rewrite Hb in Hb'. by injection Hb' as <-. }
  unfold host_listed. destruct (rules_by_program p !! base) as [rules|]; [|done]. simpl.
  rewrite <-omap_matches_nil. set (ms := omap _ rules).
  assert ((λ m, with_resolved_program m prog) <$> ms = [] ↔ ms = []) as Hms by (by destruct ms).
  destruct (host_executables_by_name p !! base) as [paths|]; [case_bool_decide|]; naive_solver.
Qed.

Lemma example_matches_nil p cmd :
  example_matches p cmd = [] ↔
  covering p cmd = [] ∧ match_host_executable_rules env windows p cmd = [].
Proof. clear starlark shlex_split shlex_join path_error debug_match.
  rewrite <-exact_matches_nil. unfold example_matches, matches_for_command_with_options. simpl.
  destruct (match_exact_rules p cmd) as [[|m ms]|];
    destruct (match_host_executable_rules env windows p cmd); naive_solver.
Qed.

(** More rules and the same host executables keep every match. *)
Lemma example_matches_mono p q cmd :
  (∀ k, default [] (rules_by_program p !! k) ⊆ default [] (rules_by_program q !! k)) →
  host_executables_by_name p = host_executables_by_name q →
  example_matches p cmd ≠ [] → example_matches q cmd ≠ [].
Proof.
  intros Hsub Hh. assert (∀ c, covering q c = [] → covering p c = []) as Hcov.
  { intros [|c args]; [done|]. unfold covering. rewrite <-!filter_nil_Forall.
    rewrite !Forall_forall. intros Hq r Hr. by apply Hq, Hsub. }
  intros Hne Hq. apply Hne. apply example_matches_nil in Hq as [Hc Hm].
  apply example_matches_nil. split; [by apply Hcov|]. destruct cmd as [|c args]; [done|].
  apply host_matches_nil. intros prog base Hp Hb Hl. apply Hcov.
  eapply host_matches_nil; [done..|]. unfold host_listed in *. by rewrite <-Hh.
Qed.

(** *** What the builtins do *)

Definition rule_decision_of (decision : option rstring) : res Error Decision :=
  match decision with Some raw => decision_parse raw | None => Ok Allow end.

(** A successful [prefix_rule] adds the rules of its pattern and their examples. *)
Lemma prefix_rule_Ok b p d m n j l b' :
  prefix_rule b p d m n j l = (b', Ok tt) →
  ∃ dec t ts ms nms, rule_decision_of d = Ok dec ∧ parse_pattern p = Ok (t :: ts) ∧
    parse_examples m = Ok ms ∧ parse_examples n = Ok nms ∧
    b' = {| b_rules := add_rules (b_rules b) (head_rules t ts dec j); b_network := b_network b;
            b_hosts := b_hosts b;
            b_pending := b_pending b ++
              [{| pending_rules := head_rules t ts dec j; pending_matches := ms;
                  pending_not_matches := nms; pending_location := l |}] |}.
Proof. clear starlark path_error.
  unfold prefix_rule. intros Hr. fold (rule_decision_of d) in Hr.
  destruct (res_bind _ _) as [[[rules ms] nms]|e|] eqn:Hp; simplify_eq.
  apply res_bind_Ok in Hp as (dec & Hd & Hp). apply res_bind_Ok in Hp as (j' & Hj & Hp).
  apply res_bind_Ok in Hp as (tokens & Ht & Hp). apply res_bind_Ok in Hp as (ms' & Hm & Hp).
  apply res_bind_Ok in Hp as (nms' & Hn & Hp). destruct tokens as [|t ts]; simplify_eq.
  assert (j' = j) as ->. { revert Hj. unfold parse_justification. case_match; naive_solver. }
  naive_solver.
Qed.

(** A call either succeeds or leaves the builder as it was. *)
Lemma run_call_error b c b' r : run_call b c = (b', r) → r ≠ Ok tt → b' = b.
Proof.
  destruct c; simpl; unfold prefix_rule, network_rule, host_executable; intros Hr Hne;
    repeat case_match; simplify_eq; done.
Qed.

Lemma host_executable_path_fold name l acc ps :
  res_fold (host_executable_path name) acc l = Ok ps →
  NoDup acc ∧ (∀ q, q ∈ acc → executable_path_lookup_key windows q = Some (executable_lookup_key windows name)) →
  NoDup ps ∧ (∀ q, q ∈ ps → executable_path_lookup_key windows q = Some (executable_lookup_key windows name)).
Proof.
  intros Hf Hacc. revert Hf. revert Hacc. revert acc ps.
  refine (res_fold_inv (λ ps, NoDup ps ∧ ∀ q, q ∈ ps → _ = _) _ _ _).
  intros acc v ps [Hnd Hk] _ (raw & _ & Hp)%res_bind_Ok.
  apply res_bind_Ok in Hp as (path & _ & Hp). case_decide as Hkey; [|done].
  case_decide as Hin; simplify_eq; [done|]. split.
  - apply NoDup_app. split_and!; [done| |apply NoDup_singleton].
    intros q Hq ->%list_elem_of_singleton. done.
  - intros q [Hq| ->%list_elem_of_singleton]%elem_of_app; [by apply Hk|done].
Qed.

(** *** The builder's invariant *)

(** Rules are filed under their program and no program has an empty list, the
    paths of a host executable are distinct and have its name, hosts are
    normalised, and the rules of pending examples are rules of the policy. *)
Record builder_ok (b : PolicyBuilder) : Prop := {
  ok_rules : ∀ k rs, b_rules b !! k = Some rs → rs ≠ [] ∧ Forall (λ r, program r = k) rs;
  ok_hosts : ∀ k ps, b_hosts b !! k = Some ps →
    NoDup ps ∧ ∀ q, q ∈ ps → executable_path_lookup_key windows q = Some k;
  ok_network : Forall (λ r, host_ok (host r)) (b_network b);
  ok_pending : ∀ v k, v ∈ b_pending b →
    filter (λ r, program r = k) (pending_rules v) ⊆ default [] (b_rules b !! k);
}.

Lemma builder_new_ok : builder_ok builder_new.
Proof. clear starlark shlex_split path_error. split; simpl; try set_solver; intros ??; by rewrite lookup_empty. Qed.

Lemma add_rules_ok m rs :
  (∀ k l, m !! k = Some l → l ≠ [] ∧ Forall (λ r, program r = k) l) →
  ∀ k l, add_rules m rs !! k = Some l → l ≠ [] ∧ Forall (λ r, program r = k) l.
Proof.
  revert m. induction rs as [|r rs IH]; intros m Hm; simpl; [done|]. apply IH. intros k l.
  unfold multi_insert. destruct (decide (k = program r)) as [->|Hk].
  - rewrite lookup_insert_eq. intros [= <-]. split; [by destruct (default [] _)|].
    apply Forall_app. split; [|by constructor]. destruct (m !! program r) as [l'|] eqn:E; [|done].
    by apply Hm.
  - rewrite lookup_insert_ne by done. apply Hm.
Qed.

Lemma prefix_rule_keeps_ok b p d m n j l b' :
  builder_ok b → prefix_rule b p d m n j l = (b', Ok tt) → builder_ok b'.
Proof.
  intros [Hr Hh Hn Hp] (dec & t & ts & ms & nms & _ & _ & _ & _ & ->)%prefix_rule_Ok.
  split; simpl; [by apply add_rules_ok|done|done|].
  intros v k [Hv| ->%list_elem_of_singleton]%elem_of_app r Hin; rewrite add_rules_lookup;
    apply elem_of_app; [left; by eapply Hp|by right].
Qed.

Lemma network_rule_keeps_ok b h p d j b' :
  builder_ok b → network_rule b h p d j = (b', Ok tt) → builder_ok b'.
Proof.
  intros [Hr Hh Hn Hp]. unfold network_rule. destruct (res_bind _ _) as [rule|e|] eqn:E; [|done..].
  apply res_bind_Ok in E as (? & _ & E). apply res_bind_Ok in E as (? & _ & E).
  apply res_bind_Ok in E as (? & _ & E). apply res_bind_Ok in E as (h' & Hnorm & [= <-]).
  intros [= <-]. split; simpl; [done..| |done]. apply Forall_app. split; [done|].
  constructor; [|done]. by eapply normalize_host_ok.
Qed.

Lemma host_executable_keeps_ok b name paths b' :
  builder_ok b → host_executable b name paths = (b', Ok tt) → builder_ok b'.
Proof.
  intros [Hr Hh Hn Hp]. unfold host_executable. destruct (res_bind _ _) as [ps|e|] eqn:E; [|done..].
  apply res_bind_Ok in E as ([] & _ & E). intros [= <-]. split; simpl; [done| |done|done].
  intros k qs. destruct (decide (k = executable_lookup_key windows name)) as [->|Hk].
  - rewrite lookup_insert_eq. intros [= <-]. eapply host_executable_path_fold; [done|].
    split; [constructor|set_solver].
  - rewrite lookup_insert_ne by done. apply Hh.
Qed.

Lemma run_call_keeps_ok b c b' r : builder_ok b → run_call b c = (b', r) → builder_ok b'.
Proof.
  intros Hok Hr. destruct r as [[]| |].
  - destruct c; simpl in Hr; eauto using prefix_rule_keeps_ok, network_rule_keeps_ok,
      host_executable_keeps_ok.
  - by rewrite (run_call_error _ _ _ _ Hr).
  - by rewrite (run_call_error _ _ _ _ Hr).
Qed.

Lemma run_calls_keeps_ok b cs b' r : builder_ok b → run_calls b cs = (b', r) → builder_ok b'.
Proof. clear starlark_error starlark.
  revert b. induction cs as [|c cs IH]; intros b Hok; simpl; [naive_solver|].
  destruct (run_call b c) as [b1 r1] eqn:E. apply run_call_keeps_ok in E; [|done].
  destruct r1; [by apply IH| |]; naive_solver.
Qed.

(** *** Examples *)

Lemma validate_not_match_Ok p l :
  validate_not_match_examples p l = Ok tt → ∀ ex, ex ∈ l → example_matches p ex = [].
Proof.
  induction l as [|e l IH]; simpl; [set_solver|].
  destruct (example_matches p e) eqn:E; [|done]. intros Hl ex [->|Hex]%elem_of_cons; auto.
Qed.

Lemma validate_match_Ok p rules l :
  validate_match_examples p rules l = Ok tt → ∀ ex, ex ∈ l → example_matches p ex ≠ [].
Proof.
  unfold validate_match_examples. destruct (_ <$> filter _ l) eqn:E; [|done]. intros _ ex Hex.
  apply fmap_nil_inv, filter_nil_Forall in E. rewrite Forall_forall in E. by apply E.
Qed.

Lemma validate_pending_Ok b v :
  validate_pending b v = Ok tt →
  (∀ ex, ex ∈ pending_matches v → example_matches (validation_policy b v) ex ≠ []) ∧
  (∀ ex, ex ∈ pending_not_matches v → example_matches (validation_policy b v) ex = []).
Proof.
  unfold validate_pending. destruct (res_bind _ _) as [[]| |] eqn:E; [|done..]. intros _.
  apply res_bind_Ok in E as ([] & Hn & Hm). eauto using validate_match_Ok, validate_not_match_Ok.
Qed.

Lemma validate_from_Ok b start v :
  validate_pending_examples_from b start = Ok tt → v ∈ drop start (b_pending b) →
  validate_pending b v = Ok tt.
Proof.
  unfold validate_pending_examples_from. intros (vs & Hvs & Hf)%res_bind_Ok Hv.
  destruct (slice _ _ _) as [vs'|] eqn:E; simplify_eq/=. apply slice_Some in E as (_ & _ & ->).
  eapply (res_fold_unit (validate_pending b)); [exact Hf|].
  by rewrite take_ge by (rewrite length_drop; lia).
Qed.

(** The examples of every [prefix_rule] call of a run wait for their check. *)
Definition waits (v : PendingExampleValidation) (p : list Value) (d : option rstring)
    (m n : option (list Value)) (j : option rstring) : Prop :=
  parse_examples m = Ok (pending_matches v) ∧ parse_examples n = Ok (pending_not_matches v) ∧
  ∃ t ts dec, parse_pattern p = Ok (t :: ts) ∧ pending_rules v = head_rules t ts dec j.

Lemma run_call_pending b c b' :
  run_call b c = (b', Ok tt) → ∃ new, b_pending b' = b_pending b ++ new ∧
    ∀ p d m n j l, c = CallPrefixRule p d m n j l → ∃ v, v ∈ new ∧ waits v p d m n j.
Proof. clear starlark.
  destruct c; simpl.
  - intros (dec & t & ts & ms & nms & _ & Hp & Hm & Hn & ->)%prefix_rule_Ok. eexists. split; [done|].
    intros ?????? [= <- <- <- <- <- <-]. eexists. split; [by apply list_elem_of_singleton|].
    unfold waits. naive_solver.
  - unfold network_rule. case_match; intros; simplify_eq. exists []. by rewrite app_nil_r.
  - unfold host_executable. case_match; intros; simplify_eq. exists []. by rewrite app_nil_r.
Qed.

Lemma run_calls_pending b cs b' :
  run_calls b cs = (b', Ok tt) → ∃ new, b_pending b' = b_pending b ++ new ∧
    ∀ p d m n j l, CallPrefixRule p d m n j l ∈ cs → ∃ v, v ∈ new ∧ waits v p d m n j.
Proof. clear starlark.
  revert b. induction cs as [|c cs IH]; intros b; simpl.
  { intros [= <-]. exists []. rewrite app_nil_r. set_solver. }
  destruct (run_call b c) as [b1 [[]| |]] eqn:E; [|done..].
  apply run_call_pending in E as (n1 & H1 & Hc). intros (n2 & H2 & Hcs)%IH.
  exists (n1 ++ n2). rewrite H2, H1, app_assoc. split; [done|]. setoid_rewrite elem_of_app.
  intros p d m n j l [<-|Hin]%elem_of_cons; naive_solver.
Qed.

(** The rules of a call and the pattern of the call cover the same commands. *)
Lemma validation_covering b v t ts dec j cmd :
  pending_rules v = head_rules t ts dec j →
  covering (validation_policy b v) cmd = [] → ¬ pattern_covers (t :: ts) cmd.
Proof.
  intros Hv Hc (r & Hr & Hcov)%(head_rules_cover t ts dec j). destruct cmd as [|c args].
  { by apply covers_program in Hcov. }
  unfold covering, validation_policy in Hc. cbn [rules_by_program] in Hc.
  rewrite add_rules_lookup, lookup_empty, Hv in Hc. simpl in Hc.
  apply filter_nil_Forall in Hc. rewrite Forall_forall in Hc. apply (Hc r); [|done].
  apply list_elem_of_filter. split; [|done]. apply covers_program in Hcov. by injection Hcov.
Qed.

Lemma parse_examples_elem vs exs v :
  parse_examples (Some vs) = Ok exs → v ∈ vs → ∃ ex, parse_example v = Ok ex ∧ ex ∈ exs.
Proof.
  intros Hf%res_mapM_Ok Hv. apply list_elem_of_lookup in Hv as [i Hi].
  destruct (Forall2_lookup_l _ _ _ _ _ Hf Hi) as (ex & Hex & He).
  exists ex. split; [done|]. by eapply list_elem_of_lookup_2.
Qed.

Lemma validation_le b v ex :
  builder_ok b → v ∈ b_pending b →
  example_matches (validation_policy b v) ex ≠ [] → example_matches (build b) ex ≠ [].
Proof.
  intros Hok Hv. apply example_matches_mono; [|done]. intros k. simpl.
  rewrite add_rules_lookup, lookup_empty. by apply ok_pending.
Qed.

(** ** Properties *)

(** A parsed policy satisfies its own documentation.  When a file is accepted,
    every [match] example of every [prefix_rule] call in it is matched by the
    policy that is built, and no [not_match] example starts with the pattern of
    its call. *)
Theorem parsed_examples_hold b id contents b' calls failure p d m n j l :
  builder_ok b → starlark id contents = (calls, failure) →
  parser_parse b id contents = (b', Ok tt) → CallPrefixRule p d m n j l ∈ calls →
  (∀ vs v, m = Some vs → v ∈ vs →
     ∃ ex, parse_example v = Ok ex ∧ example_matches (build b') ex ≠ []) ∧
  (∀ vs v, n = Some vs → v ∈ vs →
     ∃ ex tokens, parse_example v = Ok ex ∧ parse_pattern p = Ok tokens ∧ ¬ pattern_covers tokens ex).
Proof.
  intros Hok Hs. unfold parser_parse. rewrite Hs.
  destruct (run_calls b calls) as [b1 [[]| |]] eqn:Hrun; [|done..].
  destruct failure; [done|]. intros [= <- Hval] Hin.
  pose proof (run_calls_keeps_ok _ _ _ _ Hok Hrun) as Hok1.
  apply run_calls_pending in Hrun as (new & Hnew & Hcalls).
  destruct (Hcalls _ _ _ _ _ _ Hin) as (v & Hv & Hm & Hn & t & ts & dec & Hp & Hrules).
  assert (v ∈ drop (length (b_pending b)) (b_pending b1)) as Hv1 by (by rewrite Hnew, drop_app_length).
  destruct (validate_pending_Ok _ _ (validate_from_Ok _ _ _ Hval Hv1)) as [Hmatch Hnot]. split.
  - intros vs x -> Hx. destruct (parse_examples_elem _ _ _ Hm Hx) as (ex & Hex & Hexin).
    exists ex. split; [done|]. eapply validation_le; [done| |by apply Hmatch].
    rewrite Hnew. apply elem_of_app. by right.
  - intros vs x -> Hx. destruct (parse_examples_elem _ _ _ Hn Hx) as (ex & Hex & Hexin).
    exists ex, (t :: ts). split_and!; [done|done|]. apply Hnot, example_matches_nil in Hexin as [Hc _].
    by eapply validation_covering.
Qed.

(** Parsing keeps the builder's invariant, on every error path as well: rules
    are filed under their program, host executables have the name they are filed
    under and no duplicates, and network hosts are normalised. *)
Theorem parser_parse_keeps_ok b id contents :
  builder_ok b → builder_ok (parser_parse b id contents).1.
Proof.
  intros Hok. unfold parser_parse. destruct (starlark id contents) as [calls failure].
  destruct (run_calls b calls) as [b1 r] eqn:E. apply run_calls_keeps_ok in E; [|done].
  destruct r, failure; done.
Qed.

(** A successful [prefix_rule] call adds exactly the commands its pattern
    describes, with its decision: to the rules that covered a command, it adds
    rules if and only if the command starts with one alternative of each token. *)
Theorem prefix_rule_covers b p d m n j l b' cmd :
  prefix_rule b p d m n j l = (b', Ok tt) →
  ∃ new tokens dec, parse_pattern p = Ok tokens ∧ rule_decision_of d = Ok dec ∧
    covering (build b') cmd = covering (build b) cmd ++ new ∧
    (new ≠ [] ↔ pattern_covers tokens cmd) ∧ Forall (λ r, rule_decision r = dec) new.
Proof.
  intros (dec & t & ts & ms & nms & Hd & Hp & _ & _ & ->)%prefix_rule_Ok.
  exists (filter (λ r, covers r cmd) (head_rules t ts dec j)), (t :: ts), dec.
  split_and!; [done|done| | |].
  - destruct cmd as [|c args].
    { simpl. symmetry. apply filter_nil_Forall, Forall_forall. by intros r _ H%covers_program. }
    unfold covering, build. cbn [rules_by_program b_rules]. rewrite add_rules_lookup, filter_app.
    f_equal. rewrite list_filter_filter. apply list_filter_iff. intros r. split; [by intros [??]|].
    intros Hc. split; [done|]. apply covers_program in Hc. by injection Hc.
  - rewrite <-(head_rules_cover t ts dec j), <-filter_nil_Forall, Forall_forall. split.
    + intros Hnot. destruct (decide (Exists (λ r, covers r cmd) (head_rules t ts dec j))) as [He|He].
      * apply Exists_exists in He. naive_solver.
      * destruct Hnot. intros r Hr Hc. apply He, Exists_exists. eauto.
    + intros (r & Hr & Hc) Hall. by apply (Hall r).
  - apply Forall_forall. intros r [_ (h & -> & _)%list_elem_of_fmap]%list_elem_of_filter. done.
Qed.

End builder.

(** ** Witnesses *)

Definition sample_split (s : rstring) : option (list rstring) := Some (split_char SPACE s).
Definition sample_join (ws : list rstring) : option rstring := Some (join [SPACE] ws).

Definition sample_pattern : list Value :=
  [VStr (str "git"); VList [VStr (str "push"); VStr (str "pull")]].

Definition sample_examples : list Value := [VStr (str "git push origin"); VList [VStr (str "/bin/git"); VStr (str "pull")]].

Definition sample_call : Call :=
  CallPrefixRule sample_pattern (Some (str "prompt")) (Some sample_examples)
    (Some [VStr (str "git status")]) None None.

Definition sample_calls : list Call :=
  [CallHostExecutable (str "git") [VStr (str "/bin/git"); VStr (str "/usr/../bin/git")];
   CallNetworkRule (str "API.example.com") (str "https") (str "deny") None; sample_call].

Definition sample_starlark (_ _ : rstring) : list Call * option rstring := (sample_calls, None).

Definition sample_parse : PolicyBuilder * res Error unit :=
  parser_parse sample_env false [] sample_split sample_join (λ _, []) (λ _, []) sample_starlark
    (λ _, []) builder_new [] [].

Lemma parsed_examples_hold_witness :
  ∃ ex, parse_example sample_split (VStr (str "git push origin")) = Ok ex ∧
    example_matches sample_env false (build sample_parse.1) ex ≠ [].
Proof.
  refine (proj1 (parsed_examples_hold sample_env false [] sample_split sample_join (λ _, []) (λ _, [])
    sample_starlark (λ _, []) builder_new [] [] sample_parse.1 sample_calls None _ _ _ _ _ _
    (builder_new_ok false) eq_refl _ _) sample_examples _ eq_refl _).
  - by vm_compute.
  - right. right. left.
  - left.
Defined.

Lemma parser_parse_keeps_ok_witness : builder_ok false sample_parse.1.
Proof. apply parser_parse_keeps_ok, builder_new_ok. Defined.

Lemma prefix_rule_covers_witness :
  ∃ new tokens dec, parse_pattern sample_pattern = Ok tokens ∧
    rule_decision_of (Some (str "prompt")) = Ok dec ∧
    covering (build (prefix_rule sample_split builder_new sample_pattern (Some (str "prompt")) None None None None).1)
      [str "git"; str "pull"; str "-r"] = covering (build builder_new) [str "git"; str "pull"; str "-r"] ++ new ∧
    (new ≠ [] ↔ pattern_covers tokens [str "git"; str "pull"; str "-r"]) ∧
    Forall (λ r, rule_decision r = dec) new.
Proof.
  apply (prefix_rule_covers sample_split _ _ _ None None None None). by vm_compute.
Defined.
