(* ===== verification/PolicyAmend.v ===== *)
(** * Amending and migrating policy files

    [amend.rs] appends one rule line to a policy file under a lock;
    [sandbox_migration.rs] removes, once, the allow rules that are no longer
    offered.  A file is its bytes, or absent.  Which system call fails, and how
    much a failed write has written, is an argument of each operation, so that the
    definitions cover every error path.  [serde_json] is third-party. *)

From S2P Require Import Prelude RustStr Utf8 ExecPolicy.

Set Default Proof Using "Type".

Inductive AmendError : Type :=
| EmptyPrefix
| InvalidNetworkRule (e : rstring)
| MissingParent (path : rstring)
| CreatePolicyDir (dir source : rstring)
| SerializePrefix (source : rstring)
| SerializeNetworkRule (source : rstring)
| OpenPolicyFile (path source : rstring)
| WritePolicyFile (path source : rstring)
| LockPolicyFile (path source : rstring)
| SeekPolicyFile (path source : rstring)
| ReadPolicyFile (path source : rstring)
| PolicyMetadata (path source : rstring).

Abbreviation file := (option (list byte)).

(** A policy path: its text and that of its parent. *)
Record PolicyPath : Type := { path_text : rstring; path_parent : option rstring }.

(** The error of each system call, if it fails. [create_dir] also says whether
    the error is [AlreadyExists]; a failed write has written some bytes. *)
Record AmendIo : Type := {
  create_dir_fails : option (bool * rstring);
  open_fails : option rstring;
  lock_fails : option rstring;
  seek_fails : option rstring;
  read_fails : option rstring;
  newline_fails : option (nat * rstring);
  line_fails : option (nat * rstring);
}.

Definition io_works : AmendIo :=
  {| create_dir_fails := None; open_fails := None; lock_fails := None; seek_fails := None;
     read_fails := None; newline_fails := None; line_fails := None |}.

(** [write_all] at the end of a file. *)
Definition append_bytes (path : PolicyPath) (fails : option (nat * rstring)) (bytes : list byte)
    (old : list byte) : list byte * res AmendError unit :=
  match fails with
  | None => (old ++ bytes, Ok tt)
  | Some (n, e) => (old ++ take n bytes, Err (WritePolicyFile (path_text path) e))
  end.

Definition fails_with {A} (e : option rstring) (err : rstring → AmendError) (k : A * res AmendError unit)
    (st : A) : A * res AmendError unit :=
  match e with Some e => (st, Err (err e)) | None => k end.

(** The text of an error of [read_to_string] on bytes that are not UTF-8. *)
Definition invalid_utf8 : rstring := str "stream did not contain valid UTF-8".

Definition append_locked_line (io : AmendIo) (path : PolicyPath) (line : rstring) (f : file)
    : file * res AmendError unit :=
  let p := path_text path in
  let old := default [] f in
  fails_with (open_fails io) (OpenPolicyFile p)
  (fails_with (lock_fails io) (LockPolicyFile p)
  (fails_with (seek_fails io) (SeekPolicyFile p)
  (fails_with (read_fails io) (ReadPolicyFile p)
    (match from_utf8 old with
     | Ok contents =>
         if decide (line ∈ lines contents) then (Some old, Ok tt)
         else
           let '(old, r) :=
             if negb (bool_decide (contents = [])) && negb (ends_with contents [LF])
             then append_bytes path (newline_fails io) (encode [LF]) old else (old, Ok tt) in
           match r with
           | Ok _ => let '(new, r) := append_bytes path (line_fails io) (encode (line ++ [LF])) old in
                     (Some new, r)
           | _ => (Some old, r)
           end
     | _ => (Some old, Err (ReadPolicyFile p invalid_utf8))
     end) (Some old)) (Some old)) (Some old)) f.

Definition append_rule_line (io : AmendIo) (path : PolicyPath) (rule : rstring) (f : file)
    : file * res AmendError unit :=
  match path_parent path with
  | None => (f, Err (MissingParent (path_text path)))
  | Some dir =>
      match create_dir_fails io with
      | Some (false, e) => (f, Err (CreatePolicyDir dir e))
      | _ => append_locked_line io path rule f
      end
  end.

Section json.
(** [serde_json::to_string] of a string, [serde_json::from_str::<Vec<String>>],
    and the [Display] of a policy error. *)
Variables (to_json : rstring → res rstring rstring) (from_json : rstring → option (list rstring)).
Variable display : Error → rstring.

Definition allow_prefix_rule (tokens : list rstring) : rstring :=
  str "prefix_rule(pattern=" ++ (str "[" ++ join (str ", ") tokens ++ str "]") ++
  str ", decision=" ++ [DQUOTE] ++ str "allow" ++ [DQUOTE] ++ str ")".

Definition blocking_append_allow_prefix_rule (io : AmendIo) (path : PolicyPath)
    (prefix : list rstring) (f : file) : file * res AmendError unit :=
  match prefix with
  | [] => (f, Err EmptyPrefix)
  | _ =>
      match res_map_err SerializePrefix (res_mapM to_json prefix) with
      | Ok tokens => append_rule_line io path (allow_prefix_rule tokens) f
      | Err e => (f, Err e)
      | Panic => (f, Panic)
      end
  end.

Definition decision_word (d : Decision) : rstring :=
  match d with Allow => str "allow" | Prompt => str "prompt" | Forbidden => str "deny" end.

(** The line that [blocking_append_network_rule] writes. *)
Definition network_rule_line (raw_host : rstring) (protocol : NetworkRuleProtocol) (d : Decision)
    (justification : option rstring) : res AmendError rstring :=
  let field name text := res_map (λ j, str name ++ j) (res_map_err SerializeNetworkRule (to_json text)) in
  let? h := res_map_err (λ e, InvalidNetworkRule (display e)) (normalize_network_rule_host raw_host) in
  if blank_justification justification
  then Err (InvalidNetworkRule (str "justification cannot be empty")) else
  let? h := field "host=" h in
  let? p := field "protocol=" (as_policy_string protocol) in
  let? d := field "decision=" (decision_word d) in
  let? j := match justification with
            | Some j => res_map (λ j, [j]) (field "justification=" j)
            | None => Ok []
            end in
  Ok (str "network_rule(" ++ join (str ", ") ([h; p; d] ++ j) ++ str ")").

Definition blocking_append_network_rule (io : AmendIo) (path : PolicyPath) (raw_host : rstring)
    (protocol : NetworkRuleProtocol) (d : Decision) (justification : option rstring) (f : file)
    : file * res AmendError unit :=
  match network_rule_line raw_host protocol d justification with
  | Ok rule => append_rule_line io path rule f
  | Err e => (f, Err e)
  | Panic => (f, Panic)
  end.

(** ** The migration *)

Definition rule_head : rstring := str "prefix_rule(pattern=".
Definition rule_tail : rstring :=
  str ", decision=" ++ [DQUOTE] ++ str "allow" ++ [DQUOTE] ++ str ")".

Definition should_remove_rule (banned : list (list rstring)) (line : rstring) : bool :=
  let line := strip_suffix_or_self [CR] (strip_suffix_or_self [LF] line) in
  match strip_prefix rule_head line ≫= strip_suffix rule_tail with
  | None => false
  | Some pattern =>
      match from_json pattern with
      | None => false
      | Some prefix => bool_decide ((to_ascii_lowercase <$> prefix) ∈ banned)
      end
  end.

Definition strip_banned_allow_rules (contents : rstring) (banned : list (list rstring)) : rstring :=
  let banned := (λ prefix : list rstring, to_ascii_lowercase <$> prefix) <$> banned in
  concat (filter (λ line, should_remove_rule banned line = false) (split_inclusive_lf contents)).

(** An I/O error is [NotFound] or not, with its text. *)
Record MigrationIo : Type := {
  first_read_fails : option rstring;
  reopen_fails : option (bool * rstring);
  second_read_fails : option rstring;
  rewind_fails : option rstring;
  rewrite_fails : option (nat * rstring);
  set_len_fails : option rstring;
  marker_check_fails : option rstring;
  marker_write_fails : option rstring;
}.

Definition migration_works : MigrationIo :=
  {| first_read_fails := None; reopen_fails := None; second_read_fails := None;
     rewind_fails := None; rewrite_fails := None; set_len_fails := None;
     marker_check_fails := None; marker_write_fails := None |}.

(** Writing over the start of a file. *)
Definition overwrite (bytes old : list byte) : list byte := bytes ++ drop (length bytes) old.

Definition read_text (fails : option rstring) (bytes : list byte) : res rstring rstring :=
  match fails with Some e => Err e | None => res_map_err (λ _, invalid_utf8) (from_utf8 bytes) end.

(** [clean_rules_file] from the moment the file is open. *)
Definition rewrite_rules (io : MigrationIo) (banned : list (list rstring)) (bytes : list byte)
    : file * res rstring unit :=
  match read_text (second_read_fails io) bytes with
  | Ok contents =>
      let retained := strip_banned_allow_rules contents banned in
      if decide (retained = contents) then (Some bytes, Ok tt) else
      match rewind_fails io with
      | Some e => (Some bytes, Err e)
      | None =>
          match rewrite_fails io with
          | Some (n, e) => (Some (overwrite (take n (encode retained)) bytes), Err e)
          | None =>
              match set_len_fails io with
              | Some e => (Some (overwrite (encode retained) bytes), Err e)
              | None => (Some (take (str_len retained) (overwrite (encode retained) bytes)), Ok tt)
              end
          end
      end
  | Err e => (Some bytes, Err e)
  | Panic => (Some bytes, Panic)
  end.

Definition clean_rules_file (io : MigrationIo) (banned : list (list rstring)) (f : file)
    : file * res rstring unit :=
  match f with
  | None => (None, Ok tt)
  | Some bytes =>
      match read_text (first_read_fails io) bytes with
      | Err e => (f, Err e)
      | Panic => (f, Panic)
      | Ok contents =>
          if decide (strip_banned_allow_rules contents banned = contents) then (f, Ok tt) else
          match reopen_fails io with
          | Some (true, _) => (f, Ok tt)
          | Some (false, e) => (f, Err e)
          | None => rewrite_rules io banned bytes
          end
      end
  end.

(** The marker in the home directory and the policy file. *)
Record MigrationState : Type := { marker : bool; policy_file : file }.

Definition prefix_rule_migration (io : MigrationIo) (banned : list (list rstring))
    (st : MigrationState) : MigrationState * res rstring unit :=
  match marker_check_fails io with
  | Some e => (st, Err e)
  | None =>
      if marker st then (st, Ok tt) else
      let '(f, r) := clean_rules_file io banned (policy_file st) in
      match r with
      | Ok _ =>
          match marker_write_fails io with
          | Some e => ({| marker := false; policy_file := f |}, Err e)
          | None => ({| marker := true; policy_file := f |}, Ok tt)
          end
      | r => ({| marker := false; policy_file := f |}, r)
      end
  end.

(** ** Lemmas *)

Lemma append_bytes_prefix path fails bytes old :
  old `prefix_of` (append_bytes path fails bytes old).1.
Proof. destruct fails as [[]|]; simpl; by apply prefix_app_r. Qed.

Lemma should_remove_written banned prefix tokens e :
  res_mapM to_json prefix = Ok tokens →
  from_json (str "[" ++ join (str ", ") tokens ++ str "]") = Some prefix →
  (to_ascii_lowercase <$> prefix) ∈ banned → e = [LF] ∨ e = [CR; LF] ∨ e = [] →
  should_remove_rule banned (allow_prefix_rule tokens ++ e) = true.
Proof.
  intros Ht Hj Hb He. unfold should_remove_rule.
  set (rule := allow_prefix_rule tokens).
  assert (∀ c, c ≠ 41%N → strip_suffix_or_self [c] rule = rule) as Hrule.
  { intros c Hc. unfold strip_suffix_or_self. destruct (strip_suffix [c] rule) as [r|] eqn:E; [|done].
    apply strip_suffix_Some in E. apply (f_equal last) in E. subst rule. unfold allow_prefix_rule in E.
    rewrite !app_assoc in E. rewrite last_snoc, last_app in E. by injection E as <-. }
  assert (strip_suffix_or_self [CR] (strip_suffix_or_self [LF] (rule ++ e)) = rule) as ->.
  { destruct He as [-> | [-> | ->]].
    - unfold strip_suffix_or_self at 2. rewrite (proj2 (strip_suffix_Some [LF] _ rule)) by done.
      by apply Hrule.
    - unfold strip_suffix_or_self at 2.
      rewrite (proj2 (strip_suffix_Some [LF] _ (rule ++ [CR]))) by (by rewrite <-app_assoc).
      simpl. unfold strip_suffix_or_self. by rewrite (proj2 (strip_suffix_Some [CR] _ rule)) by done.
    - rewrite app_nil_r. by rewrite !Hrule. }
  subst rule. unfold allow_prefix_rule. fold rule_head rule_tail. rewrite strip_prefix_app. simpl.
  rewrite (proj2 (strip_suffix_Some rule_tail _ _)) by done. rewrite Hj. by apply bool_decide_eq_true.
Qed.

(** Lines of a text after a complete line is appended to whole lines. *)
Lemma lines_snoc t line :
  t = [] ∨ last t = Some LF → clean_line line → lines (t ++ line ++ [LF]) = lines t ++ [line].
Proof.
  intros Ht Hl. unfold lines. rewrite split_inclusive_lf_ended by done. rewrite fmap_app. f_equal.
  rewrite (split_inclusive_lf_app line []) by apply Hl. simpl. by rewrite line_text_clean.
Qed.

(** The text with the line feed that [append_locked_line] completes it with. *)
Definition completed (t : rstring) : rstring :=
  if negb (bool_decide (t = [])) && negb (ends_with t [LF]) then t ++ [LF] else t.

Lemma completed_ended t : completed t = [] ∨ last (completed t) = Some LF.
Proof.
  unfold completed. destruct (bool_decide (t = [])) eqn:E1; simpl.
  { left. by apply bool_decide_eq_true in E1. }
  right. destruct (ends_with t [LF]) eqn:E2; simpl; [|by rewrite last_snoc].
  apply ends_with_spec in E2 as [r ->]. by rewrite last_snoc.
Qed.

Lemma completed_id t : t = [] ∨ last t = Some LF → completed t = t.
Proof.
  unfold completed. intros [->|[t' ->]%last_Some]; [done|].
  assert (ends_with (t' ++ [LF]) [LF] = true) as -> by (apply ends_with_spec; eauto).
  by rewrite andb_false_r.
Qed.

Lemma valid_completed t : valid_text t → valid_text (completed t).
Proof. unfold completed. case_match; [|done]. intros. apply Forall_app. split; [done|by constructor]. Qed.

(** What a successful append leaves in the file. *)
Lemma append_locked_line_Ok io path line f f' :
  append_locked_line io path line f = (f', Ok tt) →
  ∃ t, default [] f = encode t ∧ valid_text t ∧
    f' = Some (encode (if decide (line ∈ lines t) then t else completed t ++ line ++ [LF])).
Proof.
  unfold append_locked_line, fails_with. repeat (case_match; [done|]).
  destruct (from_utf8 (default [] f)) as [t|e|] eqn:Ht; [|done..].
  apply from_utf8_Ok in Ht as [Hf Hv]. rewrite Hf. intros Ha. exists t. split_and!; [done..|].
  case_decide; [by injection Ha as <-|]. revert Ha. unfold completed, append_bytes.
  destruct (_ && _); destruct (newline_fails io) as [[]|], (line_fails io) as [[]|];
    intros [= <-]; by rewrite ?encode_app, ?app_assoc.
Qed.

Lemma append_locked_line_works path line t :
  valid_text t →
  append_locked_line io_works path line (Some (encode t)) =
  (Some (encode (if decide (line ∈ lines t) then t else completed t ++ line ++ [LF])), Ok tt).
Proof.
  intros Hv. unfold append_locked_line. cbn -[encode lines from_utf8 completed append_bytes].
  rewrite from_utf8_encode by done. case_decide; [done|]. unfold completed, append_bytes. simpl.
  destruct (_ && _); by rewrite ?encode_app, ?app_assoc.
Qed.

Lemma append_locked_line_prefix io path line f :
  default [] f `prefix_of` default [] (append_locked_line io path line f).1.
Proof.
  unfold append_locked_line, fails_with. repeat (case_match; [done|]).
  destruct (from_utf8 _) as [t|e|]; [|done..]. case_decide; [done|].
  destruct (_ && _).
  - pose proof (append_bytes_prefix path (newline_fails io) (encode [LF]) (default [] f)) as Hp1.
    destruct (append_bytes _ _ _ (default [] f)) as [o r]. destruct r; [|done..].
    pose proof (append_bytes_prefix path (line_fails io) (encode (line ++ [LF])) o) as Hp2.
    destruct (append_bytes _ _ _ o). simpl in *. by etrans.
  - pose proof (append_bytes_prefix path (line_fails io) (encode (line ++ [LF])) (default [] f)).
    by destruct (append_bytes _ _ _ (default [] f)).
Qed.

Lemma strip_banned_split t banned :
  split_inclusive_lf (strip_banned_allow_rules t banned) =
  filter (λ line, should_remove_rule ((λ p : list rstring, to_ascii_lowercase <$> p) <$> banned) line = false)
    (split_inclusive_lf t).
Proof. apply split_inclusive_concat, inclusive_lines_filter, split_inclusive_lines. Qed.

Lemma strip_banned_snoc t banned prefix tokens :
  t = [] ∨ last t = Some LF → Forall (λ j, LF ∉ j) tokens →
  res_mapM to_json prefix = Ok tokens →
  from_json (str "[" ++ join (str ", ") tokens ++ str "]") = Some prefix → prefix ∈ banned →
  strip_banned_allow_rules (t ++ allow_prefix_rule tokens ++ [LF]) banned =
  strip_banned_allow_rules t banned.
Proof.
  intros Ht Hlf Hj Hr Hb. unfold strip_banned_allow_rules. rewrite split_inclusive_lf_ended by done.
  rewrite filter_app, concat_app, split_inclusive_lf_app.
  - rewrite filter_cons_False; [by rewrite app_nil_r|].
    rewrite (should_remove_written _ prefix) by (eauto using list_elem_of_fmap_2). done.
  - unfold allow_prefix_rule. rewrite !not_elem_of_app.
    assert (LF ∉ join (str ", ") tokens) as Hjoin.
    { clear -Hlf. induction Hlf as [|j js Hj Hjs IH]; [set_solver|]. destruct js; [done|].
      rewrite join_cons by done. rewrite !not_elem_of_app. split_and!; [done| |done].
      by apply (bool_decide_eq_true_1 (LF ∉ str ", ")). }
    split_and!; try done; by apply (bool_decide_eq_true_1 (LF ∉ _)).
Qed.

(** Without errors the rules file is rewritten to the retained text. *)
Lemma clean_rules_works t banned :
  valid_text t →
  clean_rules_file migration_works banned (Some (encode t)) =
  (Some (encode (strip_banned_allow_rules t banned)), Ok tt).
Proof.
  intros Hv. unfold clean_rules_file, rewrite_rules, read_text.
  cbn [first_read_fails second_read_fails reopen_fails rewind_fails rewrite_fails set_len_fails migration_works].
  rewrite from_utf8_encode by done. cbn [res_map_err].
  case_decide as Hs; [by rewrite Hs|]. unfold overwrite.
  by rewrite take_app_length' by (by rewrite encode_length).
Qed.

Lemma Forall_join (P : char → Prop) sep ls :
  Forall P sep → Forall (Forall P) ls → Forall P (join sep ls).
Proof.
  intros Hsep. induction 1 as [|l ls Hl Hls IH]; [constructor|]. destruct ls; [done|].
  rewrite join_cons by done. by repeat (apply Forall_app; split).
Qed.

Lemma valid_allow_rule tokens : Forall valid_text tokens → valid_text (allow_prefix_rule tokens).
Proof.
  intros Ht. unfold allow_prefix_rule.
  repeat (apply Forall_app; split); try (by apply (bool_decide_eq_true_1 (Forall _ _))).
  apply Forall_join; [by apply (bool_decide_eq_true_1 (Forall _ _))|done].
Qed.

(** ** Properties *)

(** C21: appending a rule never loses one.  Whichever system call fails, the old
    bytes of the file are a prefix of the new ones; when the call succeeds, the
    file is UTF-8 text with the rule as one of its lines, and appending the rule
    again changes nothing. *)
Theorem append_rule_line_safe io path rule f f' r :
  valid_text rule → clean_line rule → append_rule_line io path rule f = (f', r) →
  default [] f `prefix_of` default [] f' ∧
  (r = Ok tt → ∃ t, f' = Some (encode t) ∧ valid_text t ∧ rule ∈ lines t ∧
     append_locked_line io_works path rule f' = (f', Ok tt)).
Proof.
  clear to_json from_json. intros Hv Hc Ha. assert (f' = f ∧ r ≠ Ok tt ∨ append_locked_line io path rule f = (f', r)) as Hcase.
  { revert Ha. unfold append_rule_line. repeat case_match; naive_solver. }
  clear Ha. destruct Hcase as [[-> Hr]|Ha]; [by split|]. split.
  { pose proof (append_locked_line_prefix io path rule f) as Hp. by rewrite Ha in Hp. }
  intros ->. apply append_locked_line_Ok in Ha as (t & _ & Ht & ->). eexists. split; [done|].
  assert (∀ t', t' = (if decide (rule ∈ lines t) then t else completed t ++ rule ++ [LF]) →
    valid_text t' ∧ rule ∈ lines t') as Hnew.
  { intros t' ->. case_decide; [done|]. rewrite lines_snoc by (done || apply completed_ended).
    split; [|set_solver]. apply Forall_app. split; [by apply valid_completed|].
    apply Forall_app. split; [done|by constructor]. }
  destruct (Hnew _ eq_refl) as [Hvalid Hin]. split_and!; [done..|].
  rewrite append_locked_line_works by done. by rewrite decide_True by done.
Qed.

(** The migration removes exactly the banned lines: the lines of the result
    are the other lines in their order and with their endings, and running it on
    its own result changes nothing. *)
Theorem strip_banned_exact t banned :
  split_inclusive_lf (strip_banned_allow_rules t banned) =
    filter (λ line, should_remove_rule ((λ p : list rstring, to_ascii_lowercase <$> p) <$> banned) line = false)
      (split_inclusive_lf t) ∧
  strip_banned_allow_rules (strip_banned_allow_rules t banned) banned =
    strip_banned_allow_rules t banned.
Proof.
  split; [apply strip_banned_split|]. unfold strip_banned_allow_rules at 1.
  rewrite strip_banned_split, list_filter_filter. unfold strip_banned_allow_rules. f_equal.
  apply list_filter_iff. intros l. by split; [intros [? _]|].
Qed.

(** The migration recognises the line that amending a policy writes: a policy
    to which a banned allow prefix was appended is migrated to what the policy
    without it is migrated to, with the marker set; and a later run with any list
    leaves the file alone. *)
Theorem migration_undoes_amend path dir prefix tokens t banned banned' :
  path_parent path = Some dir → valid_text t → Forall valid_text tokens →
  t = [] ∨ last t = Some LF →
  allow_prefix_rule tokens ∉ lines t → Forall (λ j, LF ∉ j) tokens → prefix ≠ [] →
  res_mapM to_json prefix = Ok tokens →
  from_json (str "[" ++ join (str ", ") tokens ++ str "]") = Some prefix → prefix ∈ banned →
  ∃ f, blocking_append_allow_prefix_rule io_works path prefix (Some (encode t)) = (f, Ok tt) ∧
    let st := {| marker := true; policy_file := Some (encode (strip_banned_allow_rules t banned)) |} in
    prefix_rule_migration migration_works banned {| marker := false; policy_file := f |} = (st, Ok tt) ∧
    prefix_rule_migration migration_works banned' st = (st, Ok tt).
Proof.
  intros Hp Hv Hvt Ht Hnew Hlf Hne Hj Hr Hb.
  set (t' := t ++ allow_prefix_rule tokens ++ [LF]). exists (Some (encode t')). split.
  { unfold blocking_append_allow_prefix_rule. destruct prefix as [|w ws]; [done|].
    rewrite Hj. simpl. unfold append_rule_line. rewrite Hp. simpl.
    rewrite append_locked_line_works, decide_False, completed_id by done. done. }
  split; [|done].
  assert (strip_banned_allow_rules t' banned = strip_banned_allow_rules t banned) as Hs.
  { by eapply strip_banned_snoc. }
  unfold prefix_rule_migration. cbn [marker_check_fails migration_works marker policy_file].
  rewrite clean_rules_works, Hs; [done|]. subst t'. apply Forall_app. split; [done|].
  apply Forall_app. split; [by apply valid_allow_rule|by constructor].
Qed.

End json.

(** ** Witnesses *)

Definition sample_path : PolicyPath :=
  {| path_text := str "/home/u/rules/default.rules"; path_parent := Some (str "/home/u/rules") |}.

(** JSON strings without escapes, and lists of them. *)
Definition sample_to_json (s : rstring) : res rstring rstring := Ok ([DQUOTE] ++ s ++ [DQUOTE]).

Definition sample_from_json (s : rstring) : option (list rstring) :=
  inner ← strip_prefix (str "[") s ≫= strip_suffix (str "]");
  mapM (λ w, strip_prefix [DQUOTE] (trim w) ≫= strip_suffix [DQUOTE]) (split_char 44%N inner).

Lemma append_rule_line_safe_witness :
  ∃ f', append_rule_line io_works sample_path (str "network_rule(x)") (Some (encode (str "# a"))) = (f', Ok tt) ∧
    encode (str "# a") `prefix_of` default [] f' ∧
    (Ok tt = (Ok tt : res AmendError unit) → ∃ t, f' = Some (encode t) ∧ valid_text t ∧ str "network_rule(x)" ∈ lines t ∧
     append_locked_line io_works sample_path (str "network_rule(x)") f' = (f', Ok tt)).
Proof.
  eexists. split; [by vm_compute|].
  apply (append_rule_line_safe io_works sample_path (str "network_rule(x)") (Some (encode (str "# a")))).
  - by apply (bool_decide_eq_true_1 (Forall _ _)).
  - split; [by apply (bool_decide_eq_true_1 (LF ∉ _))|by vm_compute].
  - by vm_compute.
Defined.

Lemma migration_undoes_amend_witness :
  ∃ f, blocking_append_allow_prefix_rule sample_to_json io_works sample_path [str "Python"; str "-c"]
         (Some (encode (str "# rules" ++ [LF]))) = (f, Ok tt) ∧
    let st := {| marker := true; policy_file := Some (encode (strip_banned_allow_rules sample_from_json
                   (str "# rules" ++ [LF]) [[str "Python"; str "-c"]])) |} in
    prefix_rule_migration sample_from_json migration_works [[str "Python"; str "-c"]]
      {| marker := false; policy_file := f |} = (st, Ok tt) ∧
    prefix_rule_migration sample_from_json migration_works [] st = (st, Ok tt).
Proof.
  apply (migration_undoes_amend sample_to_json sample_from_json sample_path (str "/home/u/rules") _
    [[DQUOTE] ++ str "Python" ++ [DQUOTE]; [DQUOTE] ++ str "-c" ++ [DQUOTE]]).
  - done.
  - by apply (bool_decide_eq_true_1 (Forall _ _)).
  - by apply (bool_decide_eq_true_1 (Forall _ _)).
  - by right.
  - by apply (bool_decide_eq_true_1 (_ ∉ _)).
  - by apply (bool_decide_eq_true_1 (Forall _ _)).
  - done.
  - done.
  - by vm_compute.
  - left.
Defined.
