(* ===== verification/StreamText.v ===== *)
(** * Streaming text parsers

    [stream_text.rs] and [utf8_stream.rs] of [src/engine/utils/stream-parser]: the
    trait [StreamTextParser] as a class, what its implementations promise as a
    class of laws, and [Utf8StreamParser], which feeds bytes to any of them.  A
    parser that panics returns [None]. *)

From S2P Require Import Prelude RustStr Utf8.

Set Default Proof Using "Type*".

Record StreamTextChunk (T : Type) : Type := {
  visible_text : rstring;
  extracted : list T;
}.
Arguments visible_text {T} _.
Arguments extracted {T} _.
Arguments Build_StreamTextChunk {T} _ _.

Definition default_chunk {T} : StreamTextChunk T := Build_StreamTextChunk [] [].

Definition chunk_is_blank {T} (c : StreamTextChunk T) : bool :=
  bool_decide (visible_text c = []) && match extracted c with [] => true | _ => false end.

(** The output of two calls, one after the other. *)
Definition chunk_append {T} (a b : StreamTextChunk T) : StreamTextChunk T :=
  Build_StreamTextChunk (visible_text a ++ visible_text b) (extracted a ++ extracted b).

Class StreamTextParser (P T : Type) : Type := {
  push_str : P → rstring → option (P * StreamTextChunk T);
  finish_stream : P → option (P * StreamTextChunk T);
}.

(** ** What a parser promises *)

(** Outputs are compared up to an equivalence of the extracted payloads, since a
    parser may report one payload in several pieces. *)
Class ExtractedEquiv (T : Type) : Type := extracted_equiv : relation (list T).

Definition chunk_equiv {T} `{!ExtractedEquiv T} (a b : StreamTextChunk T) : Prop :=
  visible_text a = visible_text b ∧ extracted_equiv (extracted a) (extracted b).

(** In its states [stream_ok] a parser does not panic, nothing happens on empty
    text, and text may be pushed in any pieces. *)
Class StreamTextLaws (P T : Type) `{!StreamTextParser P T, !ExtractedEquiv T} : Type := {
  stream_ok : P → Prop;
  stream_equiv_equivalence :: Equivalence (extracted_equiv (T := T));
  stream_equiv_app :: Proper (extracted_equiv ==> extracted_equiv ==> extracted_equiv) (@app T);
  stream_push_ok : ∀ p s, stream_ok p → ∃ p' c, push_str p s = Some (p', c) ∧ stream_ok p';
  stream_push_nil : ∀ p, stream_ok p → push_str p [] = Some (p, default_chunk);
  stream_push_app : ∀ p a b p1 c1 p2 c2, stream_ok p →
    push_str p a = Some (p1, c1) → push_str p1 b = Some (p2, c2) →
    ∃ c, push_str p (a ++ b) = Some (p2, c) ∧ chunk_equiv c (chunk_append c1 c2);
  stream_finish_ok : ∀ p, stream_ok p → is_Some (finish_stream p);
}.

Global Instance chunk_equiv_equivalence {T} `{!ExtractedEquiv T} :
  Equivalence (extracted_equiv (T := T)) → Equivalence (chunk_equiv (T := T)).
Proof.
  intros H. split.
  - intros a. by split.
  - intros a b [H1 H2]. by split.
  - intros a b c [H1 H2] [H3 H4]. split; [congruence|by etrans].
Qed.

Global Instance chunk_append_proper {T} `{!ExtractedEquiv T} :
  Proper (extracted_equiv ==> extracted_equiv ==> extracted_equiv) (@app T) →
  Proper (chunk_equiv ==> chunk_equiv ==> chunk_equiv) (chunk_append (T := T)).
Proof.
  intros H a a' [Ha1 Ha2] b b' [Hb1 Hb2]. split; simpl; [congruence|by apply H].
Qed.

Lemma chunk_append_assoc {T} (a b c : StreamTextChunk T) :
  chunk_append a (chunk_append b c) = chunk_append (chunk_append a b) c.
Proof. unfold chunk_append. simpl. by rewrite !app_assoc. Qed.

Lemma chunk_append_default {T} (a : StreamTextChunk T) : chunk_append a default_chunk = a.
Proof. destruct a. unfold chunk_append. simpl. by rewrite !app_nil_r. Qed.

Lemma chunk_default_append {T} (a : StreamTextChunk T) : chunk_append default_chunk a = a.
Proof. by destruct a. Qed.

(** ** The UTF-8 adapter *)

Inductive Utf8StreamParserError : Type :=
| InvalidUtf8 (valid_up_to error_len : nat)
| IncompleteUtf8AtEof.

Record Utf8StreamParser (P : Type) : Type := { inner : P; pending_utf8 : list byte }.
Arguments inner {P} _.
Arguments pending_utf8 {P} _.
Arguments Build_Utf8StreamParser {P} _ _.

Definition utf8_new {P} (p : P) : Utf8StreamParser P := Build_Utf8StreamParser p [].

Section utf8.
Context {P T : Type} `{!StreamTextParser P T}.

Definition utf8_result : Type :=
  Utf8StreamParser P * res Utf8StreamParserError (StreamTextChunk T).

(** The inner parser is given [text]; [pending] stays buffered. *)
Definition push_inner (self : Utf8StreamParser P) (text : rstring) (pending : list byte)
    : utf8_result :=
  match push_str (inner self) text with
  | Some (p, out) => (Build_Utf8StreamParser p pending, Ok out)
  | None => (self, Panic)
  end.

Definition push_bytes (self : Utf8StreamParser P) (chunk : list byte) : utf8_result :=
  let old_len := length (pending_utf8 self) in
  let pending := pending_utf8 self ++ chunk in
  let truncated := Build_Utf8StreamParser (inner self) (take old_len pending) in
  match from_utf8 pending with
  | Ok text => push_inner self text []
  | Err err =>
      match error_len err with
      | Some n => (truncated, Err (InvalidUtf8 (valid_up_to err) n))
      | None =>
          let valid := valid_up_to err in
          if valid =? 0 then (Build_Utf8StreamParser (inner self) pending, Ok default_chunk)
          else
            match from_utf8 (take valid pending) with
            | Ok text => push_inner self text (drop valid pending)
            | Err prefix_err =>
                (truncated, Err (InvalidUtf8 (valid_up_to prefix_err) (default 0 (error_len prefix_err))))
            | Panic => (self, Panic)
            end
      end
  | Panic => (self, Panic)
  end.

(** The check at the start of [finish] and in [into_inner]. *)
Definition check_pending (self : Utf8StreamParser P) : res Utf8StreamParserError unit :=
  match pending_utf8 self with
  | [] => Ok tt
  | pending =>
      match from_utf8 pending with
      | Ok _ => Ok tt
      | Err err =>
          match error_len err with
          | Some n => Err (InvalidUtf8 (valid_up_to err) n)
          | None => Err IncompleteUtf8AtEof
          end
      | Panic => Panic
      end
  end.

(** The buffered text that [finish] still gives to the inner parser. *)
Definition flush_pending (self : Utf8StreamParser P) : utf8_result :=
  match pending_utf8 self with
  | [] => (self, Ok default_chunk)
  | pending =>
      match from_utf8 pending with
      | Ok text => push_inner self text []
      | Err err => (self, Err (InvalidUtf8 (valid_up_to err) (default 0 (error_len err))))
      | Panic => (self, Panic)
      end
  end.

Definition utf8_finish (self : Utf8StreamParser P) : utf8_result :=
  match check_pending self with
  | Err e => (self, Err e)
  | Panic => (self, Panic)
  | Ok _ =>
      match flush_pending self with
      | (self, Ok out) =>
          match finish_stream (inner self) with
          | Some (p, tail) => (Build_Utf8StreamParser p (pending_utf8 self), Ok (chunk_append out tail))
          | None => (self, Panic)
          end
      | r => r
      end
  end.

Definition into_inner (self : Utf8StreamParser P) : res Utf8StreamParserError P :=
  match check_pending self with
  | Ok _ => Ok (inner self)
  | Err e => Err e
  | Panic => Panic
  end.

(** A caller that pushes chunks until one is refused. *)
Fixpoint push_all (self : Utf8StreamParser P) (chunks : list (list byte)) (out : StreamTextChunk T)
    : utf8_result :=
  match chunks with
  | [] => (self, Ok out)
  | chunk :: chunks' =>
      match push_bytes self chunk with
      | (self, Ok c) => push_all self chunks' (chunk_append out c)
      | r => r
      end
  end.

End utf8.

(** ** Lemmas *)

Section utf8_laws.
Context {P T : Type} `{!StreamTextParser P T, !ExtractedEquiv T, !StreamTextLaws P T}.
Implicit Types self : Utf8StreamParser P.

Lemma push_inner_ok self t rest :
  stream_ok (inner self) →
  ∃ p c, push_str (inner self) t = Some (p, c) ∧ stream_ok p ∧
    push_inner self t rest = (Build_Utf8StreamParser p rest, Ok c).
Proof.
  intros Hok. destruct (stream_push_ok (inner self) t Hok) as (p & c & Hp & Hp').
  exists p, c. unfold push_inner. by rewrite Hp.
Qed.

Lemma push_bytes_invalid self chunk t n :
  utf8_prefix (pending_utf8 self ++ chunk) = (t, UInvalid n) →
  push_bytes self chunk = (self, Err (InvalidUtf8 (str_len t) n)).
Proof.
  intros He. unfold push_bytes, from_utf8. rewrite He. simpl. rewrite take_app_length.
  by destruct self.
Qed.

(** One chunk: the inner parser is given what can be decoded, the rest waits. *)
Lemma push_bytes_valid self chunk t e :
  stream_ok (inner self) → utf8_prefix (pending_utf8 self ++ chunk) = (t, e) →
  e = UComplete ∨ e = UIncomplete →
  ∃ rest p c, pending_utf8 self ++ chunk = encode t ++ rest ∧ utf8_prefix rest = ([], e) ∧
    push_str (inner self) t = Some (p, c) ∧ stream_ok p ∧
    push_bytes self chunk = (Build_Utf8StreamParser p rest, Ok c).
Proof.
  intros Hok He Hcase. pose proof He as (rest & Hsplit & Ht & Hrest & Hnil)%utf8_prefix_split.
  destruct (push_inner_ok self t rest Hok) as (p & c & Hp & Hp' & Hpush).
  exists rest, p, c. split_and!; [done..|]. unfold push_bytes, from_utf8 at 1. rewrite He.
  destruct Hcase as [-> | ->]; simpl; [by rewrite <-(proj2 Hnil eq_refl)|].
  case_match eqn:Hz.
  - apply Nat.eqb_eq, str_len_nil in Hz as ->. rewrite stream_push_nil in Hp by done.
    injection Hp as <- <-. by rewrite Hsplit.
  - rewrite Hsplit, take_app_length', drop_app_length' by (by rewrite encode_length).
    by rewrite from_utf8_encode.
Qed.

(** Any number of chunks. *)
Lemma push_all_valid chunks self out t e :
  stream_ok (inner self) → utf8_prefix (pending_utf8 self ++ concat chunks) = (t, e) →
  e = UComplete ∨ e = UIncomplete → (∃ e0, utf8_prefix (pending_utf8 self) = ([], e0)) →
  ∃ rest p c out', pending_utf8 self ++ concat chunks = encode t ++ rest ∧
    push_str (inner self) t = Some (p, c) ∧
    push_all self chunks out = (Build_Utf8StreamParser p rest, Ok out') ∧
    chunk_equiv out' (chunk_append out c).
Proof.
  revert self out t. induction chunks as [|chunk chunks IH]; intros self out t Hok He Hcase [e0 H0];
    simpl in *.
  { rewrite app_nil_r in *. rewrite He in H0. injection H0 as -> <-.
    exists (pending_utf8 self), (inner self), default_chunk, out.
    rewrite stream_push_nil, chunk_append_default by done. by destruct self. }
  destruct (utf8_prefix (pending_utf8 self ++ chunk)) as [t1 e1] eqn:E1.
  assert (e1 = UComplete ∨ e1 = UIncomplete) as Hcase1.
  { destruct e1 as [| |n]; [by left|by right|].
    apply (utf8_prefix_invalid _ _ _ (concat chunks)) in E1. rewrite <-app_assoc, He in E1.
    injection E1 as -> ->. naive_solver. }
  destruct (push_bytes_valid _ _ _ _ Hok E1 Hcase1) as (rest1 & p1 & c1 & Hs1 & Hr1 & Hp1 & Hok1 & ->).
  rewrite app_assoc, Hs1, <-app_assoc in He |- *.
  rewrite utf8_prefix_encode in He by (by apply utf8_prefix_split in E1 as (? & ? & ? & ?)).
  destruct (utf8_prefix (rest1 ++ concat chunks)) as [t2 e2] eqn:E2. injection He as <- <-.
  destruct (IH (Build_Utf8StreamParser p1 rest1) (chunk_append out c1) t2)
    as (rest & p2 & c2 & out' & Hs & Hp2 & Hall & Heq); simpl; try done; [by eexists|].
  destruct (stream_push_app _ _ _ _ _ _ _ Hok Hp1 Hp2) as (c & Hc & Hceq).
  exists rest, p2, c, out'. split_and!; [|done|done|].
  - simpl in Hs. by rewrite Hs, encode_app, app_assoc.
  - rewrite Heq, <-chunk_append_assoc. by rewrite Hceq.
Qed.

(** ** Properties *)

(** C24: splitting bytes anywhere, even inside a character, makes no difference.
    Whatever chunks a stream that is UTF-8 so far arrives in, no chunk is refused,
    and the inner parser ends in the state and with the output that it has when
    all of the text is pushed at once; what is buffered is the start of an
    incomplete character. *)
Theorem push_all_decodes p chunks t e :
  stream_ok p → utf8_prefix (concat chunks) = (t, e) → e = UComplete ∨ e = UIncomplete →
  ∃ rest p' c out, concat chunks = encode t ++ rest ∧ push_str p t = Some (p', c) ∧
    push_all (utf8_new p) chunks default_chunk = (Build_Utf8StreamParser p' rest, Ok out) ∧
    chunk_equiv out c.
Proof.
  intros Hok He Hcase.
  destruct (push_all_valid chunks (utf8_new p) default_chunk t e) as (rest & p' & c & out & H); simpl;
    try done; [by eexists|].
  rewrite chunk_default_append in H. by exists rest, p', c, out.
Qed.

(** A chunk is refused exactly when the bytes so far cannot be the start of
    UTF-8 text, and then it is rolled back: the parser, its buffer included, is as
    before the call. *)
Theorem push_bytes_rolls_back self chunk :
  stream_ok (inner self) →
  (∀ self' e, push_bytes self chunk = (self', Err e) → self' = self) ∧
  (is_ok (push_bytes self chunk).2 = false ↔
   ∃ t n, utf8_prefix (pending_utf8 self ++ chunk) = (t, UInvalid n)).
Proof.
  intros Hok. destruct (utf8_prefix (pending_utf8 self ++ chunk)) as [t e] eqn:E.
  assert ((e = UComplete ∨ e = UIncomplete) ∨ ∃ n, e = UInvalid n) as [Hcase|[n ->]]
    by (destruct e; eauto).
  - destruct (push_bytes_valid _ _ _ _ Hok E Hcase) as (rest & p & c & _ & _ & _ & _ & ->). naive_solver.
  - rewrite (push_bytes_invalid _ _ _ _ E). simpl. naive_solver.
Qed.

End utf8_laws.
