(* ===== verification/TaggedLine.v ===== *)
(** * Tags alone on a line, and proposed plans

    [tagged_line_parser.rs] and [proposed_plan.rs] of [src/engine/utils/stream-parser].
    The parser holds back a line only as long as it may still be a tag; the
    reference it is proved equal to looks at whole lines. *)

From S2P Require Import Prelude RustStr StreamText.

Set Default Proof Using "Type*".

Record TagSpec (T : Type) : Type := { open_tag : rstring; close_tag : rstring; spec_tag : T }.
Arguments open_tag {T} _.
Arguments close_tag {T} _.
Arguments spec_tag {T} _.

Inductive TaggedLineSegment (T : Type) : Type :=
| SegNormal (text : rstring)
| SegTagStart (tag : T)
| SegTagDelta (tag : T) (text : rstring)
| SegTagEnd (tag : T).
Arguments SegNormal {T} _.
Arguments SegTagStart {T} _.
Arguments SegTagDelta {T} _ _.
Arguments SegTagEnd {T} _.

Record TaggedLineParser (T : Type) : Type := {
  specs : list (TagSpec T);
  active_tag : option T;
  detect_tag : bool;
  line_buffer : rstring;
}.
Arguments specs {T} _.
Arguments active_tag {T} _.
Arguments detect_tag {T} _.
Arguments line_buffer {T} _.

Section tagged.
Context {T : Type} `{!EqDecision T}.

Abbreviation segment := (TaggedLineSegment T).
Abbreviation parser := (TaggedLineParser T).

Definition tagged_new (specs : list (TagSpec T)) : parser :=
  {| specs := specs; active_tag := None; detect_tag := true; line_buffer := [] |}.

(** Adjacent text of the same kind is one segment. *)
Definition push_segment (segments : list segment) (s : segment) : list segment :=
  match s with
  | SegNormal delta =>
      if decide (delta = []) then segments else
      match last segments with
      | Some (SegNormal existing) =>
          take (length segments - 1) segments ++ [SegNormal (existing ++ delta)]
      | _ => segments ++ [SegNormal delta]
      end
  | SegTagDelta tag delta =>
      if decide (delta = []) then segments else
      match last segments with
      | Some (SegTagDelta existing_tag existing) =>
          if decide (existing_tag = tag)
          then take (length segments - 1) segments ++ [SegTagDelta existing_tag (existing ++ delta)]
          else segments ++ [SegTagDelta tag delta]
      | _ => segments ++ [SegTagDelta tag delta]
      end
  | SegTagStart tag => segments ++ [SegTagStart tag]
  | SegTagEnd tag => segments ++ [SegTagEnd tag]
  end.

Definition push_text (active : option T) (text : rstring) (segments : list segment) : list segment :=
  match active with
  | Some tag => push_segment segments (SegTagDelta tag text)
  | None => push_segment segments (SegNormal text)
  end.

Definition is_tag_prefix (specs : list (TagSpec T)) (slug : rstring) : bool :=
  let slug := trim_end slug in
  existsb (λ spec, starts_with (open_tag spec) slug || starts_with (close_tag spec) slug) specs.

Definition match_open (specs : list (TagSpec T)) (slug : rstring) : option T :=
  (λ x : nat * TagSpec T, spec_tag x.2) <$> list_find (λ spec, open_tag spec = slug) specs.

Definition match_close (specs : list (TagSpec T)) (slug : rstring) : option T :=
  (λ x : nat * TagSpec T, spec_tag x.2) <$> list_find (λ spec, close_tag spec = slug) specs.

(** What a complete line does to the active tag and the segments. *)
Definition line_effect (specs : list (TagSpec T)) (active : option T) (line : rstring)
    (segments : list segment) : option T * list segment :=
  let slug := trim_end (trim_start (strip_suffix_or_self [LF] line)) in
  let otherwise :=
    match match_close specs slug with
    | Some tag =>
        if decide (active = Some tag) then (None, push_segment segments (SegTagEnd tag))
        else (active, push_text active line segments)
    | None => (active, push_text active line segments)
    end in
  match match_open specs slug, active with
  | Some tag, None => (Some tag, push_segment segments (SegTagStart tag))
  | _, _ => otherwise
  end.

Definition finish_line (self : parser) (segments : list segment) : parser * list segment :=
  let '(active, segments) := line_effect (specs self) (active_tag self) (line_buffer self) segments in
  ({| specs := specs self; active_tag := active; detect_tag := true; line_buffer := [] |}, segments).

(** The body of the loop over the characters, with the text not yet pushed. *)
Definition parse_char (st : parser * list segment * rstring) (ch : char)
    : parser * list segment * rstring :=
  let '(self, segments, run) := st in
  if detect_tag self then
    let segments := if decide (run = []) then segments else push_text (active_tag self) run segments in
    let buffer := line_buffer self ++ [ch] in
    let self := {| specs := specs self; active_tag := active_tag self; detect_tag := true;
                   line_buffer := buffer |} in
    if (ch =? LF)%N then (finish_line self segments, [])
    else
      let slug := trim_start buffer in
      if bool_decide (slug = []) || is_tag_prefix (specs self) slug then (self, segments, [])
      else ({| specs := specs self; active_tag := active_tag self; detect_tag := false;
               line_buffer := [] |}, push_text (active_tag self) buffer segments, [])
  else
    let run := run ++ [ch] in
    if (ch =? LF)%N then
      ({| specs := specs self; active_tag := active_tag self; detect_tag := true;
          line_buffer := line_buffer self |}, push_text (active_tag self) run segments, [])
    else (self, segments, run).

Definition flush_run (st : parser * list segment * rstring) : parser * list segment :=
  let '(self, segments, run) := st in
  (self, if decide (run = []) then segments else push_text (active_tag self) run segments).

Definition tagged_parse (self : parser) (delta : rstring) : parser * list segment :=
  flush_run (foldl parse_char (self, [], []) delta).

Definition tagged_finish (self : parser) : parser * list segment :=
  let '(active, segments) :=
    if decide (line_buffer self = []) then (active_tag self, [])
    else line_effect (specs self) (active_tag self) (line_buffer self) [] in
  let segments := match active with
                  | Some tag => push_segment segments (SegTagEnd tag)
                  | None => segments
                  end in
  ({| specs := specs self; active_tag := None; detect_tag := true; line_buffer := [] |}, segments).

End tagged.

(** ** Proposed plans *)

Inductive PlanTag : Type := ProposedPlan.

Global Instance PlanTag_eq_dec : EqDecision PlanTag.
Proof. solve_decision. Defined.

Definition OPEN_TAG : rstring := str "<proposed_plan>".
Definition CLOSE_TAG : rstring := str "</proposed_plan>".

Inductive ProposedPlanSegment : Type :=
| PlanNormal (text : rstring)
| ProposedPlanStart
| ProposedPlanDelta (text : rstring)
| ProposedPlanEnd.

Record ProposedPlanParser : Type := { plan_parser : TaggedLineParser PlanTag }.

Definition plan_new : ProposedPlanParser :=
  {| plan_parser := tagged_new
       [{| open_tag := OPEN_TAG; close_tag := CLOSE_TAG; spec_tag := ProposedPlan |}] |}.

Definition map_segment (s : TaggedLineSegment PlanTag) : ProposedPlanSegment :=
  match s with
  | SegNormal text => PlanNormal text
  | SegTagStart ProposedPlan => ProposedPlanStart
  | SegTagDelta ProposedPlan text => ProposedPlanDelta text
  | SegTagEnd ProposedPlan => ProposedPlanEnd
  end.

Definition visible_of (s : ProposedPlanSegment) : rstring :=
  match s with PlanNormal text => text | _ => [] end.

Definition map_segments (segments : list (TaggedLineSegment PlanTag))
    : StreamTextChunk ProposedPlanSegment :=
  foldl (λ out s, Build_StreamTextChunk (visible_text out ++ visible_of (map_segment s))
                    (extracted out ++ [map_segment s])) default_chunk segments.

Global Instance plan_stream : StreamTextParser ProposedPlanParser ProposedPlanSegment := {
  push_str self chunk :=
    let '(p, segments) := tagged_parse (plan_parser self) chunk in
    Some ({| plan_parser := p |}, map_segments segments);
  finish_stream self :=
    let '(p, segments) := tagged_finish (plan_parser self) in
    Some ({| plan_parser := p |}, map_segments segments);
}.

(** Both functions run a new parser over the whole text. *)
Definition run_plan (text : rstring) : StreamTextChunk ProposedPlanSegment :=
  let '(p, out) := tagged_parse (plan_parser plan_new) text in
  let '(_, tail) := tagged_finish p in
  chunk_append (map_segments out) (map_segments tail).

Definition strip_proposed_plan_blocks (text : rstring) : rstring := visible_text (run_plan text).

Definition plan_step (st : bool * rstring) (s : ProposedPlanSegment) : bool * rstring :=
  match s with
  | ProposedPlanStart => (true, [])
  | ProposedPlanDelta delta => (st.1, st.2 ++ delta)
  | ProposedPlanEnd | PlanNormal _ => st
  end.

Definition extract_proposed_plan_text (text : rstring) : option rstring :=
  let '(saw_plan_block, plan_text) := foldl plan_step (false, []) (extracted (run_plan text)) in
  if saw_plan_block then Some plan_text else None.

(** ** Lemmas *)

(** *** Segments *)

Section segments.
Context {T : Type} `{!EqDecision T}.
Abbreviation segment := (TaggedLineSegment T).

(** The segments of two outputs, one after the other. *)
Definition seg_app (s t : list segment) : list segment := foldl push_segment s t.

Lemma take_snoc {A} (l : list A) x : take (length (l ++ [x]) - 1) (l ++ [x]) = l.
Proof. rewrite length_app. simpl. replace (length l + 1 - 1) with (length l) by lia. apply take_app_length. Qed.

Lemma push_text_nil a (s : list segment) : push_text a [] s = s.
Proof. destruct a; done. Qed.

(** Text may be pushed in pieces. *)
Lemma push_text_app a x y (s : list segment) :
  push_text a (x ++ y) s = push_text a y (push_text a x s).
Proof.
  destruct x as [|c x]; [by rewrite push_text_nil|].
  destruct y as [|d y]; [by rewrite app_nil_r, push_text_nil|].
  destruct a as [tag|]; simpl.
  - destruct (last s) as [[| |t e|]|] eqn:E; simpl; rewrite ?last_snoc, ?take_snoc, ?decide_True by done;
      try done.
    case_decide; rewrite last_snoc, take_snoc, decide_True by done; [by rewrite <-app_assoc|done].
  - destruct (last s) as [[| | |]|] eqn:E; simpl; rewrite ?last_snoc, ?take_snoc; try done.
    by rewrite <-app_assoc.
Qed.

Lemma push_segment_app (s t : list segment) x :
  push_segment (seg_app s t) x = seg_app s (push_segment t x).
Proof.
  assert (seg_app s (t ++ [x]) = push_segment (seg_app s t) x) as Hsnoc.
  { unfold seg_app. by rewrite foldl_app. }
  destruct x as [text|tag|tag text|tag]; simpl push_segment at 2; try (by rewrite Hsnoc).
  - case_decide; [by subst|]. destruct (last t) as [[e| | |]|] eqn:E; try (by rewrite Hsnoc).
    apply last_Some in E as [t' ->]. rewrite take_snoc. unfold seg_app. rewrite !foldl_app. simpl foldl.
    symmetry. apply (push_text_app None).
  - case_decide; [by subst|]. destruct (last t) as [[| |tag' e|]|] eqn:E; try (by rewrite Hsnoc).
    case_decide; [|by rewrite Hsnoc]. subst tag'.
    apply last_Some in E as [t' ->]. rewrite take_snoc. unfold seg_app. rewrite !foldl_app. simpl foldl.
    symmetry. apply (push_text_app (Some tag)).
Qed.

Lemma push_text_seg_app a x (s t : list segment) :
  push_text a x (seg_app s t) = seg_app s (push_text a x t).
Proof. destruct a; apply push_segment_app. Qed.

Lemma seg_app_assoc (s t u : list segment) : seg_app (seg_app s t) u = seg_app s (seg_app t u).
Proof.
  revert s t. induction u as [|x u IH]; intros s t; [done|]. simpl. fold (seg_app (seg_app s t)).
  unfold seg_app at 1 3. simpl. fold (seg_app (push_segment (seg_app s t) x) u).
  fold (seg_app (push_segment t x) u). by rewrite push_segment_app, IH.
Qed.

Lemma line_effect_seg_app specs a line (s t : list segment) :
  line_effect specs a line (seg_app s t) =
  let '(a', t') := line_effect specs a line t in (a', seg_app s t').
Proof.
  unfold line_effect. repeat case_match; simplify_eq; by rewrite ?push_text_seg_app, ?push_segment_app.
Qed.

(** *** Cutting text into deltas *)

Lemma parse_char_seg_app p (s t : list segment) run ch :
  parse_char (p, seg_app s t, run) ch =
  let '(p', t', run') := parse_char (p, t, run) ch in (p', seg_app s t', run').
Proof.
  unfold parse_char, finish_line. cbn [specs active_tag line_buffer].
  destruct (decide (run = [])); rewrite ?push_text_seg_app, ?line_effect_seg_app;
    repeat case_match; simplify_eq; by rewrite ?push_text_seg_app.
Qed.

Lemma parse_chars_seg_app l p (s t : list segment) run :
  foldl parse_char (p, seg_app s t, run) l =
  let '(p', t', run') := foldl parse_char (p, t, run) l in (p', seg_app s t', run').
Proof.
  revert p t run. induction l as [|ch l IH]; intros p t run; [done|]. cbn [foldl].
  rewrite parse_char_seg_app. destruct (parse_char (p, t, run) ch) as [[p' t'] run']. apply IH.
Qed.

(** Text waits in [run] only while no tag is looked for. *)
Definition run_ok (st : TaggedLineParser T * list segment * rstring) : Prop :=
  let '(p, _, run) := st in run = [] ∨ detect_tag p = false.

Lemma parse_char_run_ok st ch : run_ok st → run_ok (parse_char st ch).
Proof.
  destruct st as [[p s] run]. unfold parse_char. destruct (detect_tag p) eqn:E; intros _.
  - case_match; [|case_match; by left]. unfold finish_line. destruct (line_effect _ _ _ _). by left.
  - case_match; [by left|]. by right.
Qed.

Lemma parse_chars_run_ok l st : run_ok st → run_ok (foldl parse_char st l).
Proof. revert st. induction l as [|ch l IH]; intros st Hst; [done|]. by apply IH, parse_char_run_ok. Qed.

Lemma flush_run_eq (p : TaggedLineParser T) s run :
  flush_run (p, s, run) = (p, push_text (active_tag p) run s).
Proof. unfold flush_run. case_decide; [subst; by rewrite push_text_nil|done]. Qed.

Lemma flush_early l p s run :
  run_ok (p, s, run) →
  flush_run (foldl parse_char (p, s, run) l) =
  flush_run (foldl parse_char (p, push_text (active_tag p) run s, []) l).
Proof.
  revert p s run. induction l as [|ch l IH]; intros p s run Hok; cbn [foldl].
  { by rewrite !flush_run_eq, push_text_nil. }
  destruct Hok as [->|Hd]; [by rewrite push_text_nil|].
  unfold parse_char. rewrite Hd. simpl. destruct (ch =? LF)%N.
  - by rewrite push_text_app.
  - rewrite IH by (by right). rewrite (IH _ _ [ch]) by (by right). by rewrite push_text_app.
Qed.

Lemma tagged_parse_app (p : TaggedLineParser T) x y :
  tagged_parse p (x ++ y) =
  let '(p1, s1) := tagged_parse p x in
  let '(p2, s2) := tagged_parse p1 y in (p2, seg_app s1 s2).
Proof.
  unfold tagged_parse. rewrite foldl_app.
  pose proof (parse_chars_run_ok x (p, [], []) (or_introl eq_refl)) as Hok.
  destruct (foldl parse_char (p, [], []) x) as [[p1 t1] r1]. rewrite flush_early by done.
  rewrite flush_run_eq. set (s := push_text (active_tag p1) r1 t1).
  rewrite (parse_chars_seg_app y p1 s []). destruct (foldl parse_char (p1, [], []) y) as [[p2 t2] r2].
  by rewrite !flush_run_eq, push_text_seg_app.
Qed.

End segments.

(** *** Whole lines *)

Section lines.
Context {T : Type} `{!EqDecision T}.
Variable tags : list (TagSpec T).
Abbreviation segment := (TaggedLineSegment T).

(** The parser at the start of a line. *)
Definition line_start (a : option T) : TaggedLineParser T :=
  {| specs := tags; active_tag := a; detect_tag := true; line_buffer := [] |}.

(** Reading whole lines: the reference for the parser. *)
Definition read_lines (a : option T) (s : list segment) (ls : list rstring) : option T * list segment :=
  foldl (λ st line, line_effect tags st.1 line st.2) (a, s) ls.

Definition close_active (st : option T * list segment) : list segment :=
  match st.1 with Some tag => push_segment st.2 (SegTagEnd tag) | None => st.2 end.

(** A line with a start that cannot become a tag. *)
Definition not_tag (l : rstring) : Prop :=
  ∃ l1 l2, l = l1 ++ l2 ∧ (LF ∉ l1) ∧ trim_start l1 ≠ [] ∧ is_tag_prefix tags (trim_start l1) = false.

Lemma slug_prefix l1 l2 :
  LF ∉ l1 → trim_start l1 ≠ [] →
  trim_end (trim_start l1) `prefix_of` trim_end (trim_start (strip_suffix_or_self [LF] (l1 ++ l2))).
Proof.
  intros Hlf Hne. assert (∃ y, strip_suffix_or_self [LF] (l1 ++ l2) = l1 ++ y) as [y ->].
  { unfold strip_suffix_or_self. destruct (strip_suffix [LF] (l1 ++ l2)) as [x|] eqn:E; simpl; [|eauto].
    apply strip_suffix_Some in E. destruct (last l2) as [c|] eqn:El.
    - apply last_Some in El as [l2' ->]. rewrite app_assoc in E. apply app_inj_tail in E as [<- _]. eauto.
    - apply last_None in El as ->. rewrite app_nil_r in E. subst. set_solver. }
  rewrite trim_start_app by done. apply trim_end_prefix.
Qed.

Lemma list_find_prefix (f : TagSpec T → rstring) slug x :
  list_find (λ spec, f spec = slug) tags = Some x → ∃ spec, spec ∈ tags ∧ f spec = slug.
Proof. destruct x. intros (Hl & Hf & _)%list_find_Some. eauto using list_elem_of_lookup_2. Qed.

Lemma not_tag_effect l a (s : list segment) : not_tag l → line_effect tags a l s = (a, push_text a l s).
Proof.
  intros (l1 & l2 & -> & Hlf & Hne & Hp). pose proof (slug_prefix l1 l2 Hlf Hne) as [r Hr].
  assert (∀ spec, spec ∈ tags → starts_with (open_tag spec) (trim_end (trim_start l1)) = false ∧
    starts_with (close_tag spec) (trim_end (trim_start l1)) = false) as Hnot.
  { intros spec Hin. apply orb_false_iff. apply not_true_iff_false. intros Ht.
    assert (is_tag_prefix tags (trim_start l1) = true) as Hc; [|congruence].
    apply existsb_exists. exists spec. by rewrite <-list_elem_of_In. }
  unfold line_effect. set (slug := trim_end _) in *.
  assert (match_open tags slug = None) as ->.
  { unfold match_open. destruct (list_find _ tags) eqn:E; [|done].
    apply list_find_prefix in E as (spec & Hin & Hs). destruct (Hnot _ Hin) as [H1 _].
    apply not_true_iff_false in H1. destruct H1. apply starts_with_spec. exists r. congruence. }
  assert (match_close tags slug = None) as ->; [|by destruct a].
  unfold match_close. destruct (list_find _ tags) eqn:E; [|done].
  apply list_find_prefix in E as (spec & Hin & Hs). destruct (Hnot _ Hin) as [_ H1].
  apply not_true_iff_false in H1. destruct H1. apply starts_with_spec. exists r. congruence.
Qed.

(** Inside a line: it is either held back as a possible tag, or released. *)
Lemma parse_in_line l a (s : list segment) :
  LF ∉ l →
  foldl parse_char (line_start a, s, []) l =
    ({| specs := tags; active_tag := a; detect_tag := true; line_buffer := l |}, s, []) ∨
  ∃ s1 run, foldl parse_char (line_start a, s, []) l =
      ({| specs := tags; active_tag := a; detect_tag := false; line_buffer := [] |}, s1, run) ∧
    push_text a run s1 = push_text a l s ∧ not_tag l.
Proof.
  induction l as [|ch l IH] using rev_ind; intros Hlf; [by left|].
  apply not_elem_of_app in Hlf as [Hl Hch]. rewrite not_elem_of_cons in Hch. rewrite foldl_snoc.
  destruct (IH Hl) as [->|(s1 & run & -> & Hrun & l1 & l2 & Heq & Hnt)].
  - unfold parse_char. cbn [detect_tag line_buffer specs active_tag]. rewrite decide_True by done.
    rewrite (proj2 (N.eqb_neq ch LF)) by naive_solver.
    destruct (_ || _) eqn:E; [by left|]. right. apply orb_false_iff in E as [H1 H2].
    exists (push_text a (l ++ [ch]) s), []. rewrite push_text_nil. split_and!; [done..|].
    exists (l ++ [ch]), []. rewrite app_nil_r. apply bool_decide_eq_false in H1. split_and!; try done.
    set_solver.
  - right. unfold parse_char. cbn [detect_tag]. rewrite (proj2 (N.eqb_neq ch LF)) by naive_solver.
    exists s1, (run ++ [ch]). split_and!; [done| |].
    + by rewrite !push_text_app, Hrun.
    + exists l1, (l2 ++ [ch]). by rewrite Heq, <-app_assoc.
Qed.

Lemma not_tag_app l x : not_tag l → not_tag (l ++ x).
Proof. intros (l1 & l2 & -> & H). exists l1, (l2 ++ x). by rewrite <-app_assoc. Qed.

Lemma parse_whole_line l a (s : list segment) :
  LF ∉ l →
  foldl parse_char (line_start a, s, []) (l ++ [LF]) =
  let '(a', s') := line_effect tags a (l ++ [LF]) s in (line_start a', s', []).
Proof.
  intros Hl. rewrite foldl_snoc. destruct (parse_in_line l a s Hl) as [->|(s1 & run & -> & Hrun & Hnt)].
  - unfold parse_char, finish_line. cbn [detect_tag line_buffer specs active_tag].
    rewrite decide_True, N.eqb_refl by done. by destruct (line_effect tags a (l ++ [LF]) s).
  - rewrite not_tag_effect by (by apply not_tag_app). unfold parse_char. cbn [detect_tag].
    unfold line_start. cbn. by rewrite !push_text_app, Hrun.
Qed.

(** Parsing and finishing reads the lines. *)
Lemma parse_reads_lines ls a (s : list segment) :
  inclusive_lines ls →
  let '(p, s1) := flush_run (foldl parse_char (line_start a, s, []) (concat ls)) in
  seg_app s1 (tagged_finish p).2 = close_active (read_lines a s ls).
Proof.
  intros Hls. revert a s. induction Hls as [|l Hl Hne|l ls Hl _ IH]; intros a s; simpl concat.
  - cbn [foldl]. rewrite flush_run_eq, push_text_nil. unfold tagged_finish. simpl. by destruct a.
  - rewrite app_nil_r. unfold read_lines. simpl foldl.
    destruct (parse_in_line l a s Hl) as [->|(s1 & run & -> & Hrun & Hnt)].
    + rewrite flush_run_eq, push_text_nil. unfold tagged_finish.
      cbn [line_buffer active_tag specs]. rewrite decide_False by done.
      pose proof (line_effect_seg_app tags a l s []) as Heq. cbn in Heq.
      destruct (line_effect tags a l []) as [a' s']. cbn [fst snd]. rewrite Heq.
      unfold close_active. cbn [fst snd]. destruct a'; by rewrite ?push_segment_app.
    + rewrite flush_run_eq. cbn [active_tag]. rewrite Hrun, not_tag_effect by done. by destruct a.
  - rewrite foldl_app, parse_whole_line by done. unfold read_lines. simpl foldl.
    destruct (line_effect tags a (l ++ [LF]) s) as [a' s']. apply IH.
Qed.

End lines.

(** *** Plans *)

Definition unmap_segment (s : ProposedPlanSegment) : TaggedLineSegment PlanTag :=
  match s with
  | PlanNormal text => SegNormal text
  | ProposedPlanStart => SegTagStart ProposedPlan
  | ProposedPlanDelta text => SegTagDelta ProposedPlan text
  | ProposedPlanEnd => SegTagEnd ProposedPlan
  end.

Lemma unmap_map s : unmap_segment (map_segment s) = s.
Proof. by destruct s as [|[]|[]|[]]. Qed.

(** Plan segments are equivalent when they agree once adjacent text is joined. *)
Definition plan_normal (l : list ProposedPlanSegment) : list (TaggedLineSegment PlanTag) :=
  seg_app [] (unmap_segment <$> l).

Global Instance plan_equiv : ExtractedEquiv ProposedPlanSegment :=
  λ a b, plan_normal a = plan_normal b.

Lemma seg_app_snoc {T} `{!EqDecision T} (s t : list (TaggedLineSegment T)) x :
  seg_app s (t ++ [x]) = push_segment (seg_app s t) x.
Proof. unfold seg_app. by rewrite foldl_app. Qed.

Lemma seg_app_normal {T} `{!EqDecision T} (s t : list (TaggedLineSegment T)) :
  seg_app s (seg_app [] t) = seg_app s t.
Proof.
  induction t as [|x t IH] using rev_ind; [done|].
  by rewrite !seg_app_snoc, <-push_segment_app, IH.
Qed.

Lemma plan_normal_app a b : plan_normal (a ++ b) = seg_app (plan_normal a) (plan_normal b).
Proof.
  unfold plan_normal. rewrite fmap_app, seg_app_normal. unfold seg_app. by rewrite foldl_app.
Qed.

Definition plain (s : TaggedLineSegment PlanTag) : rstring :=
  match s with SegNormal text => text | _ => [] end.

Lemma map_segments_spec segments :
  map_segments segments = Build_StreamTextChunk (concat (plain <$> segments)) (map_segment <$> segments).
Proof.
  induction segments as [|x l IH] using rev_ind; [done|]. unfold map_segments in *.
  rewrite foldl_snoc, IH. simpl. rewrite !fmap_app, concat_app. simpl. rewrite app_nil_r.
  by destruct x as [|[]|[]|[]].
Qed.

Lemma plain_push_segment (s : list (TaggedLineSegment PlanTag)) x :
  concat (plain <$> push_segment s x) = concat (plain <$> s) ++ plain x.
Proof.
  assert (∀ y, concat (plain <$> s ++ [y]) = concat (plain <$> s) ++ plain y) as Hsnoc.
  { intros y. rewrite fmap_app, concat_app. simpl. by rewrite app_nil_r. }
  destruct x as [text|tag|tag text|tag]; simpl push_segment; rewrite ?Hsnoc; try done.
  - case_decide; [subst; simpl; by rewrite app_nil_r|].
    destruct (last s) as [[e| | |]|] eqn:E; rewrite ?Hsnoc; try done.
    apply last_Some in E as [s' ->]. rewrite take_snoc, !fmap_app, !concat_app. simpl.
    by rewrite !app_nil_r, app_assoc.
  - case_decide; [subst; simpl; by rewrite app_nil_r|].
    destruct (last s) as [[| |tag' e|]|] eqn:E; rewrite ?Hsnoc; try done.
    case_decide; rewrite ?Hsnoc; try done.
    apply last_Some in E as [s' ->]. rewrite take_snoc, !fmap_app, !concat_app. simpl.
    by rewrite !app_nil_r.
Qed.

Lemma plain_seg_app (s t : list (TaggedLineSegment PlanTag)) :
  concat (plain <$> seg_app s t) = concat (plain <$> s) ++ concat (plain <$> t).
Proof.
  induction t as [|x t IH] using rev_ind; [simpl; by rewrite app_nil_r|].
  rewrite seg_app_snoc, plain_push_segment, IH, fmap_app, concat_app. simpl.
  by rewrite app_nil_r, app_assoc.
Qed.

Lemma map_segments_seg_app s t :
  chunk_equiv (map_segments (seg_app s t)) (chunk_append (map_segments s) (map_segments t)).
Proof.
  rewrite !map_segments_spec. split; simpl; [apply plain_seg_app|].
  unfold extracted_equiv, plan_equiv. rewrite plan_normal_app. unfold plan_normal.
  rewrite <-!list_fmap_compose, !seg_app_normal.
  assert (∀ l : list (TaggedLineSegment PlanTag), (unmap_segment ∘ map_segment) <$> l = l) as Hid.
  { intros l. rewrite <-(list_fmap_id l) at 2. apply list_fmap_ext. intros ???. apply unmap_map. }
  by rewrite !Hid, seg_app_assoc.
Qed.

Global Instance plan_laws : StreamTextLaws ProposedPlanParser ProposedPlanSegment.
Proof.
  refine {| stream_ok := λ _, True |}.
  - split; unfold extracted_equiv, plan_equiv; [done| |]; congruence.
  - intros a a' Ha b b' Hb. unfold extracted_equiv, plan_equiv in *. rewrite !plan_normal_app. congruence.
  - intros p s _. simpl. destruct (tagged_parse (plan_parser p) s). eauto.
  - intros [p] _. done.
  - intros p a b p1 c1 p2 c2 _. simpl. rewrite tagged_parse_app.
    destruct (tagged_parse (plan_parser p) a) as [q1 s1]. intros [= <- <-]. simpl.
    destruct (tagged_parse q1 b) as [q2 s2]. intros [= <- <-]. eexists. split; [done|].
    apply map_segments_seg_app.
  - intros p _. simpl. by destruct (tagged_finish (plan_parser p)).
Defined.

Lemma plan_ok (p : ProposedPlanParser) : stream_ok (T := ProposedPlanSegment) p.
Proof. exact I. Qed.

(** ** Properties *)

(** A caller that parses deltas and joins the segments. *)
Definition feed {T} `{!EqDecision T} (p : TaggedLineParser T) (deltas : list rstring)
    : TaggedLineParser T * list (TaggedLineSegment T) :=
  foldl (λ st delta, let '(p, s) := tagged_parse st.1 delta in (p, seg_app st.2 s)) (p, []) deltas.

Lemma feed_parse {T} `{!EqDecision T} (p : TaggedLineParser T) deltas :
  feed p deltas = let '(q, s) := tagged_parse p (concat deltas) in (q, seg_app [] s).
Proof.
  induction deltas as [|d ds IH] using rev_ind; [done|]. unfold feed in *.
  rewrite foldl_snoc, IH, concat_app. simpl. rewrite app_nil_r, tagged_parse_app.
  destruct (tagged_parse p (concat ds)) as [q s]. simpl. destruct (tagged_parse q d) as [q' s'].
  by rewrite <-seg_app_assoc.
Qed.

(** The streaming parser reads lines.  However the text is cut into deltas,
    the joined segments of all calls and of [finish] are those of a reader that
    looks at one whole line at a time; releasing text before the end of its line
    never misses a tag and never takes text for one. *)
Theorem tagged_parser_reads_lines {T} `{!EqDecision T} (tags : list (TagSpec T)) deltas :
  let '(p, s) := feed (tagged_new tags) deltas in
  seg_app s (tagged_finish p).2 =
  seg_app [] (close_active (read_lines tags None [] (split_inclusive_lf (concat deltas)))).
Proof.
  rewrite feed_parse. pose proof (parse_reads_lines tags _ None [] (split_inclusive_lines (concat deltas))) as H.
  rewrite concat_split_inclusive_lf in H. unfold tagged_parse. fold (line_start tags None) in H.
  change (tagged_new tags) with (line_start tags None).
  destruct (flush_run _) as [p s]. by rewrite <-H, seg_app_assoc.
Qed.

(** A line that is none of the plan tags. *)
Definition text_line (l : rstring) : Prop :=
  trim_end (trim_start (strip_suffix_or_self [LF] l)) ≠ OPEN_TAG ∧
  trim_end (trim_start (strip_suffix_or_self [LF] l)) ≠ CLOSE_TAG.

Abbreviation plan_tags :=
  [{| open_tag := OPEN_TAG; close_tag := CLOSE_TAG; spec_tag := ProposedPlan |}] (only parsing).

Lemma text_line_effect l a s :
  text_line l → line_effect plan_tags a l s = (a, push_text a l s).
Proof.
  intros [H1 H2]. unfold line_effect, match_open, match_close. simpl.
  rewrite !decide_False by (simpl; congruence). by destruct a.
Qed.

Lemma read_text_lines ls a s :
  Forall text_line ls → read_lines plan_tags a s ls = (a, push_text a (concat ls) s).
Proof.
  intros Hls. revert s. induction Hls as [|l ls Hl Hls IH]; intros s; [by rewrite push_text_nil|].
  unfold read_lines in *. simpl foldl. rewrite text_line_effect by done. simpl.
  by rewrite IH, push_text_app.
Qed.

Lemma open_line_effect s :
  line_effect plan_tags None (OPEN_TAG ++ [LF]) s = (Some ProposedPlan, push_segment s (SegTagStart ProposedPlan)).
Proof.
  unfold line_effect.
  replace (trim_end _) with OPEN_TAG by (by vm_compute).
  unfold match_open. simpl. by rewrite decide_True.
Qed.

Lemma close_line_effect s :
  line_effect plan_tags (Some ProposedPlan) (CLOSE_TAG ++ [LF]) s =
  (None, push_segment s (SegTagEnd ProposedPlan)).
Proof.
  unfold line_effect.
  replace (trim_end _) with CLOSE_TAG by (by vm_compute).
  unfold match_close. simpl. by rewrite decide_True by done.
Qed.

Lemma plan_step_push_segment st (s : list (TaggedLineSegment PlanTag)) x :
  foldl plan_step st (map_segment <$> push_segment s x) =
  plan_step (foldl plan_step st (map_segment <$> s)) (map_segment x).
Proof.
  assert (∀ y, foldl plan_step st (map_segment <$> s ++ [y]) =
    plan_step (foldl plan_step st (map_segment <$> s)) (map_segment y)) as Hsnoc.
  { intros y. by rewrite fmap_app, foldl_app. }
  destruct x as [text|tag|[] text|tag]; simpl push_segment; rewrite ?Hsnoc; try done.
  - case_decide; [done|]. destruct (last s) as [[e| | |]|] eqn:E; rewrite ?Hsnoc; try done.
    apply last_Some in E as [s' ->]. by rewrite take_snoc, !fmap_app, !foldl_app.
  - case_decide; [subst; simpl; by rewrite app_nil_r, <-surjective_pairing|].
    destruct (last s) as [[| |[] e|]|] eqn:E; rewrite ?Hsnoc; try done.
    rewrite decide_True by done. apply last_Some in E as [s' ->].
    rewrite take_snoc, !fmap_app, !foldl_app. simpl. by rewrite app_assoc.
Qed.

Lemma plan_step_seg_app st s t :
  foldl plan_step st (map_segment <$> seg_app s t) =
  foldl plan_step (foldl plan_step st (map_segment <$> s)) (map_segment <$> t).
Proof.
  induction t as [|x t IH] using rev_ind; [done|].
  by rewrite seg_app_snoc, plan_step_push_segment, IH, fmap_app, foldl_app.
Qed.

(** The segments of a text with one plan block. *)
Lemma read_plan_block before plan after :
  before = [] ∨ last before = Some LF → plan = [] ∨ last plan = Some LF →
  Forall text_line (split_inclusive_lf before) → Forall text_line (split_inclusive_lf plan) →
  Forall text_line (split_inclusive_lf after) →
  close_active (read_lines plan_tags None []
    (split_inclusive_lf (before ++ (OPEN_TAG ++ [LF]) ++ plan ++ (CLOSE_TAG ++ [LF]) ++ after))) =
  push_text None after (push_segment (push_text (Some ProposedPlan) plan
    (push_segment (push_text None before []) (SegTagStart ProposedPlan))) (SegTagEnd ProposedPlan)).
Proof.
  intros Hb Hp Fb Fp Fa.
  rewrite (split_inclusive_lf_ended before) by done.
  rewrite (split_inclusive_lf_ended (OPEN_TAG ++ [LF])) by (by right).
  rewrite (split_inclusive_lf_ended plan) by done.
  rewrite (split_inclusive_lf_ended (CLOSE_TAG ++ [LF])) by (by right).
  unfold read_lines. rewrite foldl_app.
  fold (read_lines plan_tags None [] (split_inclusive_lf before)).
  rewrite read_text_lines, concat_split_inclusive_lf by done.
  change (split_inclusive_lf (OPEN_TAG ++ [LF])) with [OPEN_TAG ++ [LF]].
  change (split_inclusive_lf (CLOSE_TAG ++ [LF])) with [CLOSE_TAG ++ [LF]].
  cbn [app foldl fst snd]. rewrite open_line_effect, foldl_app.
  fold (read_lines plan_tags (Some ProposedPlan) (push_segment (push_text None before []) (SegTagStart ProposedPlan))
          (split_inclusive_lf plan)).
  rewrite read_text_lines, concat_split_inclusive_lf by done.
  cbn [app foldl fst snd]. rewrite close_line_effect.
  pose proof (read_text_lines (split_inclusive_lf after) None) as Ha. unfold read_lines in Ha.
  by rewrite Ha, concat_split_inclusive_lf by done.
Qed.

(** The whole text, parsed and finished. *)
Lemma run_plan_segments text :
  ∃ s t, run_plan text = chunk_append (map_segments s) (map_segments t) ∧
    seg_app s t = close_active (read_lines plan_tags None [] (split_inclusive_lf text)).
Proof.
  pose proof (parse_reads_lines plan_tags _ None [] (split_inclusive_lines text)) as H.
  rewrite concat_split_inclusive_lf in H. unfold run_plan, tagged_parse.
  change (plan_parser plan_new) with (line_start plan_tags None).
  destruct (flush_run _) as [p s]. destruct (tagged_finish p) as [q t]. eauto.
Qed.

(** A plan block is taken out of the text around it.  For a text with one
    block whose tags stand alone on their lines, stripping returns the text before
    and after it and extracting returns its lines, both unchanged to the
    character. *)
Theorem plan_block_round_trip before plan after :
  before = [] ∨ last before = Some LF → plan = [] ∨ last plan = Some LF →
  Forall text_line (split_inclusive_lf before) → Forall text_line (split_inclusive_lf plan) →
  Forall text_line (split_inclusive_lf after) →
  let text := before ++ (OPEN_TAG ++ [LF]) ++ plan ++ (CLOSE_TAG ++ [LF]) ++ after in
  strip_proposed_plan_blocks text = before ++ after ∧ extract_proposed_plan_text text = Some plan.
Proof.
  intros Hb Hp Fb Fp Fa text. destruct (run_plan_segments text) as (s & t & Hrun & Hst).
  subst text. rewrite read_plan_block in Hst by done.
  unfold strip_proposed_plan_blocks, extract_proposed_plan_text. rewrite Hrun, !map_segments_spec.
  simpl. split.
  - rewrite <-plain_seg_app, Hst. unfold push_text. rewrite !plain_push_segment. simpl.
    by rewrite !app_nil_r.
  - rewrite foldl_app, <-plan_step_seg_app, Hst. unfold push_text. by rewrite !plan_step_push_segment.
Qed.

Lemma plan_block_round_trip_witness :
  let text := (str "Intro" ++ [LF]) ++ (OPEN_TAG ++ [LF]) ++ (str "- step" ++ [LF]) ++ (CLOSE_TAG ++ [LF]) ++ str "bye" in
  strip_proposed_plan_blocks text = (str "Intro" ++ [LF]) ++ str "bye" ∧
  extract_proposed_plan_text text = Some (str "- step" ++ [LF]).
Proof.
  apply plan_block_round_trip; try (by right); by repeat constructor; vm_compute.
Defined.
