(* ===== verification/InlineTag.v ===== *)
(** * Hidden inline tags and citations

    [inline_hidden_tag.rs] and [citation.rs] of [src/engine/utils/stream-parser].
    Offsets are byte offsets as in the code, and a slice that is not on a character
    boundary is [None].  With one tag, which is how citations use the parser, it is
    proved equal to a search over the whole text, however the text is cut. *)

From S2P Require Import Prelude RustStr Utf8 StreamText.

Set Default Proof Using "Type".

Record ExtractedInlineTag (T : Type) : Type := { tag : T; content : rstring }.
Arguments tag {T} _.
Arguments content {T} _.

Record InlineTagSpec (T : Type) : Type := { inline_tag : T; inline_open : rstring; inline_close : rstring }.
Arguments inline_tag {T} _.
Arguments inline_open {T} _.
Arguments inline_close {T} _.

Record ActiveTag (T : Type) : Type := { active_name : T; active_close : rstring; active_content : rstring }.
Arguments active_name {T} _.
Arguments active_close {T} _.
Arguments active_content {T} _.

Record InlineHiddenTagParser (T : Type) : Type := {
  inline_specs : list (InlineTagSpec T);
  pending : rstring;
  active : option (ActiveTag T);
}.
Arguments inline_specs {T} _.
Arguments pending {T} _.
Arguments active {T} _.
Arguments Build_InlineHiddenTagParser {T} _ _ _.

(** The loop of [longest_suffix_prefix_len] from [k] down. *)
Fixpoint suffix_prefix_from (s needle : rstring) (k : nat) : nat :=
  match k with
  | 0 => 0
  | S k' =>
      match split_at_byte needle k with
      | Some (p, _) => if ends_with s p then k else suffix_prefix_from s needle k'
      | None => suffix_prefix_from s needle k'
      end
  end.

Definition longest_suffix_prefix_len (s needle : rstring) : nat :=
  suffix_prefix_from s needle (str_len s `min` (str_len needle - 1)).

Section inline.
Context {T : Type}.

(** [new], whose assertions panic. *)
Definition inline_new (specs : list (InlineTagSpec T)) : option (InlineHiddenTagParser T) :=
  match specs with
  | [] => None
  | _ =>
      if forallb (λ s, bool_decide (inline_open s ≠ []) && bool_decide (inline_close s ≠ [])) specs
      then Some (Build_InlineHiddenTagParser specs [] None) else None
  end.

(** An open tag found: its position, its length and the index of its spec; the
    comparison of [min_by], in which [a] is kept unless [b] is smaller. *)
Definition earlier (a b : nat * nat * nat) : nat * nat * nat :=
  let '(pos_a, len_a, idx_a) := a in
  let '(pos_b, len_b, idx_b) := b in
  if decide (pos_b < pos_a ∨ pos_b = pos_a ∧ (len_a < len_b ∨ len_a = len_b ∧ idx_b < idx_a))
  then b else a.

Definition open_candidates (specs : list (InlineTagSpec T)) (text : rstring) : list (nat * nat * nat) :=
  omap (λ x : nat * InlineTagSpec T,
          (λ pos, (pos, str_len (inline_open x.2), x.1)) <$> find (inline_open x.2) text)
    (imap pair specs).

Definition find_next_open (self : InlineHiddenTagParser T) : option (nat * nat) :=
  match open_candidates (inline_specs self) (pending self) with
  | [] => None
  | c :: cs => let '(pos, _, idx) := foldl earlier c cs in Some (pos, idx)
  end.

Definition max_open_prefix_suffix_len (self : InlineHiddenTagParser T) : nat :=
  foldl Nat.max 0 ((λ spec, longest_suffix_prefix_len (pending self) (inline_open spec))
    <$> inline_specs self).

Abbreviation chunk := (StreamTextChunk (ExtractedInlineTag T)).

Definition push_visible_prefix (out : chunk) (text : rstring) : chunk :=
  Build_StreamTextChunk (visible_text out ++ text) (extracted out).

Definition drain_visible_to_suffix_match (self : InlineHiddenTagParser T) (out : chunk)
    (keep_suffix_len : nat) : option (InlineHiddenTagParser T * chunk) :=
  let take := str_len (pending self) - keep_suffix_len in
  if take =? 0 then Some (self, out)
  else
    '(text, rest) ← split_at_byte (pending self) take;
    Some (Build_InlineHiddenTagParser (inline_specs self) rest (active self), push_visible_prefix out text).

(** The loop of [push_str].  Each round but the last removes a delimiter from the
    pending text, so that one more round than it has characters is enough. *)
Fixpoint push_loop (fuel : nat) (self : InlineHiddenTagParser T) (out : chunk)
    : option (InlineHiddenTagParser T * chunk) :=
  match fuel with
  | 0 => None
  | S fuel =>
      match active self with
      | Some a =>
          let close := active_close a in
          match find close (pending self) with
          | Some close_idx =>
              '(body, _) ← split_at_byte (pending self) close_idx;
              '(_, rest) ← split_at_byte (pending self) (close_idx + str_len close);
              push_loop fuel (Build_InlineHiddenTagParser (inline_specs self) rest None)
                (Build_StreamTextChunk (visible_text out)
                   (extracted out ++ [{| tag := active_name a; content := active_content a ++ body |}]))
          | None =>
              let take := str_len (pending self) - longest_suffix_prefix_len (pending self) close in
              if take =? 0 then Some (self, out)
              else
                '(body, rest) ← split_at_byte (pending self) take;
                Some (Build_InlineHiddenTagParser (inline_specs self) rest
                        (Some {| active_name := active_name a; active_close := close;
                                 active_content := active_content a ++ body |}), out)
          end
      | None =>
          match find_next_open self with
          | Some (open_idx, spec_idx) =>
              '(text, _) ← split_at_byte (pending self) open_idx;
              spec ← inline_specs self !! spec_idx;
              '(_, rest) ← split_at_byte (pending self) (open_idx + str_len (inline_open spec));
              push_loop fuel
                (Build_InlineHiddenTagParser (inline_specs self) rest
                   (Some {| active_name := inline_tag spec; active_close := inline_close spec;
                            active_content := [] |}))
                (push_visible_prefix out text)
          | None => drain_visible_to_suffix_match self out (max_open_prefix_suffix_len self)
          end
      end
  end.

Definition inline_push_str (self : InlineHiddenTagParser T) (s : rstring)
    : option (InlineHiddenTagParser T * chunk) :=
  let pending := pending self ++ s in
  push_loop (S (length pending))
    (Build_InlineHiddenTagParser (inline_specs self) pending (active self)) default_chunk.

Definition inline_finish (self : InlineHiddenTagParser T) : InlineHiddenTagParser T * chunk :=
  match active self with
  | Some a =>
      (Build_InlineHiddenTagParser (inline_specs self) [] None,
       Build_StreamTextChunk []
         [{| tag := active_name a; content := active_content a ++ pending self |}])
  | None =>
      (Build_InlineHiddenTagParser (inline_specs self) [] None,
       Build_StreamTextChunk (pending self) [])
  end.

Global Instance inline_stream : StreamTextParser (InlineHiddenTagParser T) (ExtractedInlineTag T) := {
  push_str := inline_push_str;
  finish_stream self := Some (inline_finish self);
}.

End inline.

(** ** Citations *)

Inductive CitationTag : Type := Citation.

Definition CITATION_OPEN : rstring := str "<oai-mem-citation>".
Definition CITATION_CLOSE : rstring := str "</oai-mem-citation>".

Definition citation_spec : InlineTagSpec CitationTag :=
  {| inline_tag := Citation; inline_open := CITATION_OPEN; inline_close := CITATION_CLOSE |}.

Record CitationStreamParser : Type := { citation_inner : InlineHiddenTagParser CitationTag }.

Definition citation_new : option CitationStreamParser :=
  Build_CitationStreamParser <$> inline_new [citation_spec].

Definition citation_chunk (c : StreamTextChunk (ExtractedInlineTag CitationTag))
    : StreamTextChunk rstring :=
  Build_StreamTextChunk (visible_text c) (content <$> extracted c).

Global Instance citation_stream : StreamTextParser CitationStreamParser rstring := {
  push_str self chunk :=
    '(p, c) ← inline_push_str (citation_inner self) chunk;
    Some ({| citation_inner := p |}, citation_chunk c);
  finish_stream self :=
    let '(p, c) := inline_finish (citation_inner self) in
    Some ({| citation_inner := p |}, citation_chunk c);
}.

Definition strip_citations (text : rstring) : option (rstring * list rstring) :=
  parser ← citation_new;
  '(parser, out) ← push_str parser text;
  '(_, tail) ← finish_stream parser;
  Some (visible_text out ++ visible_text tail, extracted out ++ extracted tail).

(** ** Lemmas *)

(** *** The text that is held back *)

(** [x] is the longest end of [s ++ x] with which [needle] may start. *)
Definition keeps (needle s x : rstring) : Prop :=
  (∃ r, r ≠ [] ∧ needle = x ++ r) ∧
  ∀ s' x' r', s ++ x = s' ++ x' → needle = x' ++ r' → r' ≠ [] → length x' ≤ length x.

Lemma suffix_prefix_from_spec s needle k :
  ∃ x s1 r, s = s1 ++ x ∧ needle = x ++ r ∧ str_len x = suffix_prefix_from s needle k ∧
    str_len x ≤ k ∧
    ∀ s' x' r', s = s' ++ x' → needle = x' ++ r' → str_len x' ≤ k → str_len x' ≤ str_len x.
Proof.
  induction k as [|k (x & s1 & r & -> & -> & Hx & Hk & Hmax)].
  { exists [], s, needle. rewrite app_nil_r. by split_and!. }
  unfold suffix_prefix_from; fold suffix_prefix_from.
  destruct (split_at_byte (x ++ r) (S k)) as [[p q]|] eqn:E.
  - apply split_at_byte_Some in E as [Heq Hp]. destruct (ends_with (s1 ++ x) p) eqn:Ee.
    + apply ends_with_spec in Ee as [s2 Hs]. exists p, s2, q. split_and!; [done..|lia|]. intros; lia.
    + exists x, s1, r. split_and!; [done..|lia|]. intros s' x' r' Hs Hn Hl.
      destruct (decide (str_len x' = S k)) as [Hc|]; [|apply (Hmax s' x' r'); done || lia].
      assert (x' = p) as ->.
      { assert (split_at_byte (x ++ r) (S k) = Some (x', r')) as H1 by (by apply split_at_byte_Some).
        assert (split_at_byte (x ++ r) (S k) = Some (p, q)) as H2 by (by apply split_at_byte_Some).
        congruence. }
      apply not_true_iff_false in Ee. destruct Ee. apply ends_with_spec. eauto.
  - exists x, s1, r. split_and!; [done..|lia|]. intros s' x' r' Hs Hn Hl.
    destruct (decide (str_len x' = S k)) as [Hc|]; [|apply (Hmax s' x' r'); done || lia].
    assert (split_at_byte (x ++ r) (S k) = Some (x', r')) by (by apply split_at_byte_Some). congruence.
Qed.

(** Two ends of a text: the one with more bytes has more characters. *)
Lemma suffix_length (s1 x s2 y : rstring) :
  s1 ++ x = s2 ++ y → str_len x ≤ str_len y → length x ≤ length y.
Proof.
  intros Heq Hl. apply app_eq_inv in Heq as [(k & -> & ->)|(k & -> & ->)];
    rewrite ?str_len_app, ?length_app in *; [lia|].
  assert (str_len k = 0) as ->%str_len_nil by lia. simpl. lia.
Qed.

Lemma longest_suffix_prefix_keeps s needle :
  needle ≠ [] → ∃ s1 x, s = s1 ++ x ∧ keeps needle s1 x ∧
    str_len s - longest_suffix_prefix_len s needle = str_len s1.
Proof.
  intros Hne. assert (str_len needle ≠ 0) as Hn by (by rewrite str_len_nil).
  unfold longest_suffix_prefix_len.
  destruct (suffix_prefix_from_spec s needle (str_len s `min` (str_len needle - 1)))
    as (x & s1 & r & -> & -> & Hx & Hk & Hmax).
  exists s1, x. split_and!; [done| |rewrite <-Hx, str_len_app; lia]. split.
  - exists r. split; [|done]. intros ->. rewrite app_nil_r in *. lia.
  - intros s' x' r' Hs Hr Hr'. eapply suffix_length; [done|]. apply (Hmax s' x' r' Hs Hr).
    assert (str_len r' ≠ 0) by (by rewrite str_len_nil).
    apply (f_equal str_len) in Hs, Hr. rewrite !str_len_app in *. lia.
Qed.

(** An occurrence in a longer text does not start in the part let go. *)
Lemma keeps_occurrence needle s x y a r :
  find_split needle (s ++ x) = None → keeps needle s x →
  (s ++ x) ++ y = a ++ needle ++ r → length s ≤ length a.
Proof.
  intros Hnone [_ Hmax] Heq. destruct (decide (length s ≤ length a)) as [|Hlt]; [done|].
  apply app_eq_inv in Heq as [(k & Ha & Hk)|(k & Ha & Hk)];
    [|apply (f_equal length) in Ha; rewrite !length_app in Ha; lia].
  - apply app_eq_inv in Hk as [(j & -> & ->)|(j & -> & ->)].
    2: { by destruct (proj1 (find_split_None _ _) Hnone a j). }
    + destruct j as [|c j].
      { destruct (proj1 (find_split_None _ _) Hnone a []). by rewrite Ha, !app_nil_r. }
      specialize (Hmax a k (c :: j) Ha eq_refl). apply (f_equal length) in Ha.
      rewrite !length_app in Ha. specialize (Hmax ltac:(done)). lia.
Qed.

Lemma find_split_kept needle s x y :
  find_split needle (s ++ x) = None → keeps needle s x →
  find_split needle (s ++ x ++ y) = (λ '(a, b), (s ++ a, b)) <$> find_split needle (x ++ y).
Proof.
  intros Hnone Hk. destruct (find_split needle (x ++ y)) as [[a b]|] eqn:E; simpl.
  - apply find_split_Some in E as (Heq & [r ->] & Hmin). rewrite Heq, app_assoc.
    apply find_split_first. intros a' r' Hocc. rewrite <-app_assoc, <-Heq, app_assoc in Hocc.
    pose proof (keeps_occurrence _ _ _ _ _ _ Hnone Hk Hocc) as Hle. rewrite <-app_assoc in Hocc.
    apply app_eq_inv in Hocc as [(k & -> & Hk2)|(k & -> & Hk2)];
      [|apply Hmin in Hk2; rewrite !length_app; lia].
    + rewrite length_app in Hle. assert (k = []) as -> by (apply length_zero_iff_nil; lia).
      rewrite app_nil_r in *. simpl in Hk2. symmetry in Hk2.
      specialize (Hmin [] r' Hk2). rewrite length_app. simpl in Hmin. lia.
  - apply find_split_None. intros a r Hocc. rewrite app_assoc in Hocc.
    pose proof (keeps_occurrence _ _ _ _ _ _ Hnone Hk Hocc) as Hle. rewrite <-app_assoc in Hocc.
    apply app_eq_inv in Hocc as [(k & -> & Hk2)|(k & -> & Hk2)];
      [|by destruct (proj1 (find_split_None _ _) E k r)].
    + rewrite length_app in Hle. assert (k = []) as -> by (apply length_zero_iff_nil; lia).
      by destruct (proj1 (find_split_None _ _) E [] r).
Qed.

Lemma find_split_extend needle s a r y :
  find_split needle s = Some (a, needle ++ r) →
  find_split needle (s ++ y) = Some (a, needle ++ r ++ y).
Proof.
  intros (-> & _ & Hmin)%find_split_Some. rewrite <-!app_assoc. apply find_split_first.
  intros a' r' Hocc. destruct (decide (length a ≤ length a')) as [|Hlt]; [done|].
  rewrite !app_assoc in Hocc. rewrite <-(app_assoc (a ++ needle)) in Hocc.
  apply app_eq_inv in Hocc as [(k & Hk & _)|(k & Hk & _)];
    [|apply (f_equal length) in Hk; rewrite !length_app in Hk; lia].
  - apply (Hmin a' (k ++ r)). by rewrite app_assoc, Hk, !app_assoc.
Qed.

(** *** One tag *)

Section one_tag.
Context {T : Type} (spec : InlineTagSpec T).
Hypothesis open_nonempty : inline_open spec ≠ [].
Hypothesis close_nonempty : inline_close spec ≠ [].

(** The reader outside a tag, or inside one with the content so far. *)
Definition needle (m : option rstring) : rstring :=
  match m with None => inline_open spec | Some _ => inline_close spec end.

Definition named (body : rstring) : ExtractedInlineTag T := {| tag := inline_tag spec; content := body |}.

(** The output and the mode after the delimiter was found behind [text]. *)
Definition found_out (m : option rstring) (text : rstring) : StreamTextChunk (ExtractedInlineTag T) :=
  match m with
  | None => Build_StreamTextChunk text []
  | Some body => Build_StreamTextChunk [] [named (body ++ text)]
  end.

Definition found_mode (m : option rstring) : option rstring :=
  match m with None => Some [] | Some _ => None end.

(** The output and the mode after [text] was let go. *)
Definition kept_out (m : option rstring) (text : rstring) : StreamTextChunk (ExtractedInlineTag T) :=
  match m with None => Build_StreamTextChunk text [] | Some _ => default_chunk end.

Definition kept_mode (m : option rstring) (text : rstring) : option rstring :=
  match m with None => None | Some body => Some (body ++ text) end.

Inductive scan : option rstring → rstring → StreamTextChunk (ExtractedInlineTag T) →
    option rstring → rstring → Prop :=
| scan_found m s text rest out m' p :
    find_split (needle m) s = Some (text, needle m ++ rest) →
    scan (found_mode m) rest out m' p →
    scan m s (chunk_append (found_out m text) out) m' p
| scan_stop m s x :
    find_split (needle m) (s ++ x) = None → keeps (needle m) s x →
    scan m (s ++ x) (kept_out m s) (kept_mode m s) x.

Lemma needle_nonempty m : needle m ≠ [].
Proof using open_nonempty close_nonempty. by destruct m. Qed.

Lemma keeps_unique n s x s' x' : keeps n s x → keeps n s' x' → s ++ x = s' ++ x' → s = s' ∧ x = x'.
Proof.
  intros [(r & Hr & Hn) Hmax] [(r' & Hr' & Hn') Hmax'] Heq.
  assert (length x = length x') as Hl.
  { apply Nat.le_antisymm; [eapply Hmax'|eapply Hmax]; done. }
  by apply app_inj_2 in Heq.
Qed.

Lemma scan_unique m s o1 m1 p1 o2 m2 p2 :
  scan m s o1 m1 p1 → scan m s o2 m2 p2 → o1 = o2 ∧ m1 = m2 ∧ p1 = p2.
Proof.
  intros H1. revert o2 m2 p2. induction H1 as [m s text rest out m' p Hf _ IH|m s x Hf Hk];
    intros o2 m2 p2 H2; inversion H2 as [? ? text2 rest2 out2 ? ? Hf2 Hs2|? s2 x2 Hf2 Hk2 Heq]; subst.
  - rewrite Hf in Hf2. injection Hf2 as <- Hr. apply app_inv_head in Hr as <-.
    destruct (IH _ _ _ Hs2) as (-> & -> & ->). done.
  - congruence.
  - congruence.
  - destruct (keeps_unique _ _ _ _ _ Hk Hk2) as [-> ->]; done.
Qed.

(** Reading in two pieces. *)
Lemma scan_app m x o1 m1 p1 y o2 m2 p2 :
  scan m x o1 m1 p1 → scan m1 (p1 ++ y) o2 m2 p2 → scan m (x ++ y) (chunk_append o1 o2) m2 p2.
Proof.
  intros H1. revert o2 m2 p2. induction H1 as [m s text rest out m' p Hf _ IH|m s x Hf Hk]; intros o2 m2 p2 H2.
  { rewrite <-chunk_append_assoc. econstructor; [by apply find_split_extend|by apply IH]. }
  assert (needle (kept_mode m s) = needle m) as Hn by (by destruct m).
  assert (found_mode (kept_mode m s) = found_mode m) as Hm by (by destruct m).
  rewrite <-app_assoc. pose proof (find_split_kept _ _ _ y Hf Hk) as Hfind.
  inversion H2 as [? ? text rest out ? ? Hf2 Hs2|? s2 x2 Hf2 Hk2]; subst.
  - rewrite Hn in Hf2. rewrite Hf2 in Hfind. rewrite Hm in Hs2.
    rewrite chunk_append_assoc.
    replace (chunk_append (kept_out m s) (found_out (kept_mode m s) text)) with (found_out m (s ++ text)).
    + econstructor; [exact Hfind|done].
    + destruct m; unfold chunk_append; simpl; by rewrite ?app_assoc.
  - match goal with H : _ = x ++ y |- _ => rename H into Hxy end.
    rewrite Hn in *. rewrite <-Hxy in Hfind. rewrite Hf2 in Hfind. simpl in Hfind. rewrite app_assoc in Hfind |- *.
    replace (chunk_append (kept_out m s) (kept_out (kept_mode m s) s2)) with (kept_out m (s ++ s2))
      by (by destruct m).
    replace (kept_mode (kept_mode m s) s2) with (kept_mode m (s ++ s2))
      by (destruct m; simpl; by rewrite ?app_assoc).
    apply scan_stop; [done|]. destruct Hk2 as [Hp Hmax2]. split; [done|]. intros s' x' r' Hs' Hr Hne.
    rewrite <-app_assoc in Hs'. apply app_eq_inv in Hs' as [(k & -> & Hx)|(k & -> & Hk2)].
    2: { by eapply Hmax2. }
    rewrite Hxy in Hx. subst x'. destruct Hk as [_ Hmax].
    specialize (Hmax s' (k ++ x) (y ++ r')). rewrite <-!app_assoc in Hmax.
    rewrite length_app in Hmax. assert (k = []) as ->.
    { apply length_zero_iff_nil. assert (length k + length x ≤ length x); [|lia]. apply Hmax; [done| |].
      - by rewrite Hr, <-!app_assoc.
      - destruct y; [done|done]. }
    simpl. rewrite <-Hxy. eapply (Hmax2 [] _ r'); [done| |done]. by rewrite Hxy.
Qed.

(** The parser's states for one tag. *)
Definition at_mode (m : option rstring) (p : rstring) : InlineHiddenTagParser T :=
  Build_InlineHiddenTagParser [spec] p
    ((λ body, {| active_name := inline_tag spec; active_close := inline_close spec;
                 active_content := body |}) <$> m).

Lemma find_next_open_one p :
  find_next_open (at_mode None p) = (λ idx, (idx, 0)) <$> find (inline_open spec) p.
Proof. unfold find_next_open, open_candidates. simpl. by destruct (find (inline_open spec) p). Qed.

Lemma max_open_one p :
  max_open_prefix_suffix_len (at_mode None p) = longest_suffix_prefix_len p (inline_open spec).
Proof. done. Qed.

(** Where the delimiter is found, both slices are on character boundaries. *)
Lemma find_slices n p text rest :
  find_split n p = Some (text, n ++ rest) →
  find n p = Some (str_len text) ∧ split_at_byte p (str_len text) = Some (text, n ++ rest) ∧
  split_at_byte p (str_len text + str_len n) = Some (text ++ n, rest).
Proof.
  intros Hf. unfold find. rewrite Hf. apply find_split_Some in Hf as (-> & _). split; [done|]. split.
  - apply split_at_byte_app.
  - rewrite <-str_len_app, app_assoc. apply split_at_byte_app.
Qed.

Lemma find_None n p : find_split n p = None → find n p = None.
Proof. intros Hf. unfold find. by rewrite Hf. Qed.

(** The last round, in which no delimiter is left. *)
Lemma push_loop_stop fuel m p out :
  find_split (needle m) p = None →
  ∃ out' m' p', push_loop (S fuel) (at_mode m p) out = Some (at_mode m' p', chunk_append out out') ∧
    scan m p out' m' p'.
Proof using open_nonempty close_nonempty.
  intros Hf. destruct (longest_suffix_prefix_keeps p (needle m) (needle_nonempty m))
    as (s & x & -> & Hk & Htake).
  exists (kept_out m s), (kept_mode m s), x. split; [|by constructor].
  destruct m as [body|]; simpl in Hf, Htake |- *.
  - rewrite find_None by done. rewrite Htake, chunk_append_default.
    case_match eqn:Hz; [|by rewrite split_at_byte_app].
    apply Nat.eqb_eq, str_len_nil in Hz as ->. by rewrite app_nil_r.
  - rewrite find_next_open_one, find_None by done. simpl.
    unfold drain_visible_to_suffix_match. rewrite max_open_one. simpl. rewrite Htake.
    case_match eqn:Hz.
    + apply Nat.eqb_eq, str_len_nil in Hz as ->. by destruct out; unfold chunk_append; simpl; rewrite !app_nil_r.
    + rewrite split_at_byte_app. simpl. unfold push_visible_prefix, chunk_append. simpl. by rewrite app_nil_r.
Qed.

(** The loop never panics, has enough rounds, and reads as [scan] says. *)
Lemma push_loop_scan fuel m p out :
  length p < fuel →
  ∃ out' m' p', push_loop fuel (at_mode m p) out = Some (at_mode m' p', chunk_append out out') ∧
    scan m p out' m' p'.
Proof using open_nonempty close_nonempty.
  revert m p out. induction fuel as [|fuel IH]; intros m p out Hl; [lia|].
  destruct (find_split (needle m) p) as [[text b]|] eqn:Hf; [|by apply push_loop_stop].
  pose proof Hf as (Hp & [rest ->] & _)%find_split_Some.
  destruct (find_slices _ _ _ _ Hf) as (Hfind & Hs1 & Hs2).
  assert (length rest < fuel) as Hr.
  { subst p. rewrite !length_app in Hl. pose proof (needle_nonempty m) as Hne.
    destruct (needle m); [done|simpl in Hl; lia]. }
  destruct (IH (found_mode m) rest (chunk_append out (found_out m text)) Hr) as (out' & m' & p' & Hloop & Hscan).
  exists (chunk_append (found_out m text) out'), m', p'.
  split; [|by econstructor]. rewrite chunk_append_assoc, <-Hloop.
  destruct m as [body|]; simpl in Hfind, Hs1, Hs2.
  - simpl. rewrite Hfind, Hs1. simpl. rewrite Hs2. simpl. unfold chunk_append. simpl. by rewrite app_nil_r.
  - cbn [push_loop at_mode active fmap option_fmap option_map]. fold (at_mode None p).
    rewrite find_next_open_one, Hfind. simpl. rewrite Hs1. simpl. rewrite Hs2. simpl.
    unfold push_visible_prefix, chunk_append. simpl. by rewrite app_nil_r.
Qed.

Lemma inline_push_scan m p s :
  ∃ out m' p', inline_push_str (at_mode m p) s = Some (at_mode m' p', out) ∧ scan m (p ++ s) out m' p'.
Proof using open_nonempty close_nonempty.
  unfold inline_push_str. fold (at_mode m (p ++ s)). simpl pending.
  destruct (push_loop_scan (S (length (p ++ s))) m (p ++ s) default_chunk) as (out & m' & p' & H); [lia|].
  exists out, m', p'. by rewrite chunk_default_append in H.
Qed.

(** States between calls: nothing is left to find, and what is held back cannot
    be let go. *)
Definition at_rest (m : option rstring) (p : rstring) : Prop :=
  find_split (needle m) p = None ∧ keeps (needle m) [] p.

Lemma keeps_self n s x : keeps n s x → keeps n [] x.
Proof.
  intros [Hp Hmax]. split; [done|]. intros s' x' r' Hs Hn Hr. eapply (Hmax (s ++ s')); [|done..].
  simpl in Hs. by rewrite Hs, app_assoc.
Qed.

Lemma scan_at_rest m s out m' p : scan m s out m' p → at_rest m' p.
Proof.
  induction 1 as [|m s x Hf Hk]; [done|].
  unfold at_rest. replace (needle (kept_mode m s)) with (needle m) by (by destruct m).
  split; [|by eapply keeps_self]. apply find_split_None. intros a r ->.
  destruct (proj1 (find_split_None _ _) Hf (s ++ a) r). by rewrite app_assoc.
Qed.

Lemma at_rest_scan m p : at_rest m p → scan m p default_chunk m p.
Proof.
  intros [Hf Hk]. pose proof (scan_stop m [] p Hf Hk) as H. destruct m as [body|]; simpl in H; [|done].
  by rewrite app_nil_r in H.
Qed.

(** The whole text at once: the text outside the tags and the contents of the
    tags; a tag that is not closed extends to the end.  A found tag is not empty,
    so that one more round than there are characters is enough. *)
Fixpoint hidden_reference (fuel : nat) (text : rstring) : rstring * list rstring :=
  match fuel with
  | 0 => (text, [])
  | S fuel =>
      match find_split (inline_open spec) text with
      | None => (text, [])
      | Some (before, b) =>
          let body := drop (length (inline_open spec)) b in
          match find_split (inline_close spec) body with
          | None => (before, [body])
          | Some (inside, b') =>
              let '(visible, contents) := hidden_reference fuel (drop (length (inline_close spec)) b') in
              (before ++ visible, inside :: contents)
          end
      end
  end.

Definition both (c : StreamTextChunk (ExtractedInlineTag T)) : rstring * list rstring :=
  (visible_text c, content <$> extracted c).

Lemma both_append a b :
  both (chunk_append a b) = (visible_text a ++ (both b).1, (content <$> extracted a) ++ (both b).2).
Proof. unfold both, chunk_append. simpl. by rewrite fmap_app. Qed.

Lemma scan_reference n s out m p :
  length s < n → scan None s out m p →
  both (chunk_append out (inline_finish (at_mode m p)).2) = hidden_reference n s.
Proof using open_nonempty close_nonempty.
  revert s out m p. induction n as [|n IH]; intros s out m p Hl Hs; [lia|]. simpl hidden_reference.
  inversion Hs as [? ? text rest out1 ? ? Hf Hs1|? s1 x Hf Hk]; subst; simpl in Hf; rewrite Hf;
    [|unfold both, chunk_append; simpl; done].
  rewrite drop_app_length. apply find_split_Some in Hf as (-> & _).
  inversion Hs1 as [? ? text2 rest2 out2 ? ? Hf2 Hs2|? s2 x2 Hf2 Hk2]; subst; simpl in Hf2; rewrite Hf2.
  2: { unfold both, chunk_append. simpl. by rewrite !app_nil_r. }
  rewrite drop_app_length. apply find_split_Some in Hf2 as (-> & _).
  assert (length rest2 < n) as Hr2.
  { rewrite !length_app in Hl. destruct (inline_open spec) eqn:Ho; [done|]. simpl in Hl. lia. }
  specialize (IH _ _ _ _ Hr2 Hs2). rewrite <-!chunk_append_assoc.
  rewrite (both_append (found_out None text)), (both_append (found_out _ text2)), IH.
  by destruct (hidden_reference n rest2).
Qed.

End one_tag.

(** ** Citations keep the laws *)

Global Instance citation_equiv : ExtractedEquiv rstring := eq.

(** States of the citation parser between calls. *)
Definition citation_ok (p : CitationStreamParser) : Prop :=
  ∃ m q, citation_inner p = at_mode citation_spec m q ∧ at_rest citation_spec m q.

Lemma citation_delimiters : inline_open citation_spec ≠ [] ∧ inline_close citation_spec ≠ [].
Proof. done. Qed.

Lemma citation_push p s :
  citation_ok p → ∃ m q m' q' out, citation_inner p = at_mode citation_spec m q ∧
    push_str p s = Some ({| citation_inner := at_mode citation_spec m' q' |}, citation_chunk out) ∧
    scan citation_spec m (q ++ s) out m' q' ∧ at_rest citation_spec m' q'.
Proof.
  destruct citation_delimiters as [H1 H2]. destruct p as [p]. intros (m & q & Hp & Hrest). simpl in *. subst p.
  destruct (inline_push_scan citation_spec H1 H2 m q s) as (out & m' & q' & Hpush & Hscan).
  exists m, q, m', q', out. rewrite Hpush. split_and!; [done..|]. by eapply scan_at_rest.
Qed.

Lemma citation_chunk_append a b :
  citation_chunk (chunk_append a b) = chunk_append (citation_chunk a) (citation_chunk b).
Proof. unfold citation_chunk, chunk_append. simpl. by rewrite fmap_app. Qed.

Lemma at_mode_inj {T} (spec : InlineTagSpec T) m p m' p' :
  at_mode spec m p = at_mode spec m' p' → m = m' ∧ p = p'.
Proof. unfold at_mode. destruct m, m'; simpl; naive_solver. Qed.

Global Instance citation_laws : StreamTextLaws CitationStreamParser rstring.
Proof.
  refine {| stream_ok := citation_ok |}.
  - intros p s (m & q & m' & q' & out & _ & Hpush & _ & Hrest)%(citation_push p s).
    eexists _, _. split; [exact Hpush|]. by exists m', q'.
  - intros p Hok. destruct (citation_push p [] Hok) as (m & q & m' & q' & out & Hp & -> & Hscan & _).
    destruct Hok as (m0 & q0 & Hp0 & Hrest). rewrite Hp in Hp0.
    apply at_mode_inj in Hp0 as [<- <-]. rewrite app_nil_r in Hscan.
    destruct (scan_unique _ _ _ _ _ _ _ _ _ Hscan (at_rest_scan _ _ _ Hrest)) as (-> & -> & ->).
    destruct p. simpl in Hp. by subst.
  - intros p a b p1 c1 p2 c2 Hok Ha Hb.
    destruct (citation_push p a Hok) as (m & q & m1 & q1 & o1 & Hp & Ha' & Hs1 & Hr1).
    rewrite Ha' in Ha. injection Ha as <- <-.
    destruct (citation_push {| citation_inner := at_mode citation_spec m1 q1 |} b) as
      (m1' & q1' & m2 & q2 & o2 & Hp1 & Hb' & Hs2 & _); [by exists m1, q1|].
    simpl in Hp1. apply at_mode_inj in Hp1 as [<- <-]. rewrite Hb' in Hb. injection Hb as <- <-.
    destruct (citation_push p (a ++ b) Hok) as (m' & q' & m3 & q3 & o3 & Hp' & Hab & Hs3 & _).
    rewrite Hp in Hp'. apply at_mode_inj in Hp' as [<- <-].
    pose proof (scan_app _ _ _ _ _ _ _ _ _ _ Hs1 Hs2) as Hs. rewrite <-app_assoc in Hs.
    destruct (scan_unique _ _ _ _ _ _ _ _ _ Hs3 Hs) as (-> & -> & ->).
    eexists. split; [exact Hab|]. rewrite citation_chunk_append. by split.
  - intros p _. simpl. by destruct (inline_finish (citation_inner p)).
Defined.

(** ** Properties *)

(** A caller that streams a text in pieces and then finishes. *)
Definition stream_citations (chunks : list rstring) : option (StreamTextChunk rstring) :=
  parser ← citation_new;
  '(parser, out) ← foldl (λ st chunk,
      '(p, out) ← st; '(p, c) ← push_str p chunk; Some (p, chunk_append out c))
    (Some (parser, default_chunk)) chunks;
  '(_, tail) ← finish_stream parser;
  Some (chunk_append out tail).

Lemma stream_pushes chunks :
  ∃ m q out, foldl (λ st chunk,
      '(p, out) ← st; '(p, c) ← push_str p chunk; Some (p, chunk_append out c))
    (Some ({| citation_inner := at_mode citation_spec None [] |}, default_chunk)) chunks =
    Some ({| citation_inner := at_mode citation_spec m q |}, citation_chunk out) ∧
    scan citation_spec None (concat chunks) out m q ∧ at_rest citation_spec m q.
Proof.
  induction chunks as [|c cs (m & q & out & Hfold & Hscan & Hrest)] using rev_ind.
  { exists None, [], default_chunk. assert (at_rest citation_spec None []) as Hr.
    { split; [done|]. split; [by exists CITATION_OPEN|]. intros s' x' r' Hs. symmetry in Hs. by apply app_nil in Hs as [_ ->]. }
    split_and!; [done| |done]. by apply at_rest_scan. }
  rewrite foldl_snoc, Hfold. simpl.
  destruct (citation_push {| citation_inner := at_mode citation_spec m q |} c)
    as (m0 & q0 & m' & q' & out' & Hp & Hpush & Hs & Hr); [by exists m, q|].
  simpl in Hp, Hpush. apply at_mode_inj in Hp as [<- <-]. rewrite Hpush. simpl.
  exists m', q', (chunk_append out out'). rewrite citation_chunk_append, concat_app. simpl.
  rewrite app_nil_r. split_and!; [done| |done]. by eapply scan_app.
Qed.

(** Citations are what a search over the whole text finds.  However a text is
    cut into chunks, the parser does not panic, and the visible text and the
    citations of all its outputs are those of repeatedly looking for the first
    opening tag and then the first closing tag in the whole text. *)
Theorem stream_citations_reference chunks :
  (λ c, (visible_text c, extracted c)) <$> stream_citations chunks =
  Some (hidden_reference citation_spec (S (length (concat chunks))) (concat chunks)).
Proof.
  unfold stream_citations. change citation_new with
    (Some {| citation_inner := at_mode citation_spec None [] |}). cbn [mbind option_bind].
  destruct (stream_pushes chunks) as (m & q & out & -> & Hscan & _). cbn [mbind option_bind].
  destruct citation_delimiters as [H1 H2].
  rewrite <-(scan_reference citation_spec H1 H2 (S (length (concat chunks))) _ out m q) by (done || lia).
  simpl. destruct (inline_finish (at_mode citation_spec m q)) as [p tail]. simpl.
  unfold both, chunk_append. simpl. by rewrite fmap_app.
Qed.

(** ** The UTF-8 adapter around the citation parser *)

Definition fresh_citations : CitationStreamParser :=
  {| citation_inner := Build_InlineHiddenTagParser [citation_spec] [] None |}.

Lemma fresh_citations_ok : stream_ok (T := rstring) fresh_citations.
Proof.
  destruct (stream_pushes []) as (m & q & out & Hp & _ & Hr). exists m, q. split; [|done].
  simpl in Hp. injection Hp as <- Hm _. by destruct m.
Qed.

Definition split_accent : list (list N) := [[97; 195]; [169; 98]]%N.

Lemma push_all_decodes_witness :
  ∃ rest p' c out, concat split_accent = encode [97; 233; 98]%N ++ rest ∧
    push_str fresh_citations [97; 233; 98]%N = Some (p', c) ∧
    push_all (utf8_new fresh_citations) split_accent default_chunk =
      (Build_Utf8StreamParser p' rest, Ok out) ∧ chunk_equiv out c.
Proof.
  apply (push_all_decodes fresh_citations split_accent [97; 233; 98]%N UComplete).
  - exact fresh_citations_ok.
  - by vm_compute.
  - by left.
Defined.

Lemma push_bytes_rolls_back_witness :
  (∀ self' e, push_bytes (T := rstring) (Build_Utf8StreamParser fresh_citations [195]%N) [40]%N = (self', Err e) →
     self' = Build_Utf8StreamParser fresh_citations [195]%N) ∧
  (is_ok (push_bytes (T := rstring) (Build_Utf8StreamParser fresh_citations [195]%N) [40]%N).2 = false ↔
   ∃ t n, utf8_prefix [195; 40]%N = (t, UInvalid n)).
Proof.
  apply (push_bytes_rolls_back (Build_Utf8StreamParser fresh_citations [195]%N) [40]%N).
  exact fresh_citations_ok.
Defined.
