(* ===== verification/AssistantText.v ===== *)
(** * Assistant text

    [assistant_text.rs] of [src/engine/utils/stream-parser]: citations are taken
    out of the stream first and, in plan mode, plan blocks out of what is left.
    The proofs use the two parsers through their laws. *)

From S2P Require Import Prelude RustStr StreamText TaggedLine InlineTag.

Set Default Proof Using "Type".

Record AssistantTextChunk : Type := {
  assistant_visible : rstring;
  assistant_citations : list rstring;
  plan_segments : list ProposedPlanSegment;
}.

Definition assistant_chunk_is_empty (c : AssistantTextChunk) : bool :=
  bool_decide (assistant_visible c = []) && bool_decide (assistant_citations c = []) &&
  match plan_segments c with [] => true | _ => false end.

Record AssistantTextStreamParser : Type := {
  plan_mode : bool;
  assistant_parser : CitationStreamParser;
  assistant_plan : ProposedPlanParser;
}.

Definition assistant_new (mode : bool) : option AssistantTextStreamParser :=
  (λ p, {| plan_mode := mode; assistant_parser := p; assistant_plan := plan_new |}) <$> citation_new.

Definition parse_visible_text (self : AssistantTextStreamParser) (text : rstring)
    : option (AssistantTextStreamParser * AssistantTextChunk) :=
  if plan_mode self then
    '(plan, c) ← push_str (assistant_plan self) text;
    Some ({| plan_mode := plan_mode self; assistant_parser := assistant_parser self;
             assistant_plan := plan |},
          {| assistant_visible := visible_text c; assistant_citations := [];
             plan_segments := extracted c |})
  else Some (self, {| assistant_visible := text; assistant_citations := []; plan_segments := [] |}).

Definition with_citations (c : AssistantTextChunk) (cs : list rstring) : AssistantTextChunk :=
  {| assistant_visible := assistant_visible c; assistant_citations := cs;
     plan_segments := plan_segments c |}.

Definition with_parser (self : AssistantTextStreamParser) (p : CitationStreamParser)
    : AssistantTextStreamParser :=
  {| plan_mode := plan_mode self; assistant_parser := p; assistant_plan := assistant_plan self |}.

Definition assistant_push_str (self : AssistantTextStreamParser) (chunk : rstring)
    : option (AssistantTextStreamParser * AssistantTextChunk) :=
  '(p, c) ← push_str (assistant_parser self) chunk;
  '(self, out) ← parse_visible_text (with_parser self p) (visible_text c);
  Some (self, with_citations out (extracted c)).

Definition assistant_finish (self : AssistantTextStreamParser)
    : option (AssistantTextStreamParser * AssistantTextChunk) :=
  '(p, c) ← finish_stream (assistant_parser self);
  '(self, out) ← parse_visible_text (with_parser self p) (visible_text c);
  if plan_mode self then
    '(plan, tail) ← finish_stream (assistant_plan self);
    let out :=
      if chunk_is_blank tail then out
      else {| assistant_visible := assistant_visible out ++ visible_text tail;
              assistant_citations := assistant_citations out;
              plan_segments := plan_segments out ++ extracted tail |} in
    Some ({| plan_mode := true; assistant_parser := assistant_parser self; assistant_plan := plan |},
          with_citations out (extracted c))
  else Some (self, with_citations out (extracted c)).

(** ** Lemmas *)

(** The output of two calls, one after the other. *)
Definition assistant_append (a b : AssistantTextChunk) : AssistantTextChunk :=
  {| assistant_visible := assistant_visible a ++ assistant_visible b;
     assistant_citations := assistant_citations a ++ assistant_citations b;
     plan_segments := plan_segments a ++ plan_segments b |}.

Definition empty_chunk : AssistantTextChunk :=
  {| assistant_visible := []; assistant_citations := []; plan_segments := [] |}.

(** A caller that streams a text in pieces and then finishes. *)
Definition push_pieces (self : AssistantTextStreamParser) (chunks : list rstring)
    : option (AssistantTextStreamParser * AssistantTextChunk) :=
  foldl (λ st chunk,
      '(p, out) ← st; '(p, c) ← assistant_push_str p chunk; Some (p, assistant_append out c))
    (Some (self, empty_chunk)) chunks.

Definition stream_assistant (mode : bool) (chunks : list rstring) : option AssistantTextChunk :=
  parser ← assistant_new mode;
  '(parser, out) ← push_pieces parser chunks;
  '(_, tail) ← assistant_finish parser;
  Some (assistant_append out tail).

(** The plan part of the output. *)
Definition plan_part (c : AssistantTextChunk) : StreamTextChunk ProposedPlanSegment :=
  Build_StreamTextChunk (assistant_visible c) (plan_segments c).

(** Where the parser is after the citation parser has let [text] through: the
    plan parser is where it is after [text]. *)
Definition plan_after (mode : bool) (plan : ProposedPlanParser) (text : rstring)
    (out : StreamTextChunk ProposedPlanSegment) : Prop :=
  if mode then ∃ c, push_str plan_new text = Some (plan, c) ∧ chunk_equiv out c
  else out = Build_StreamTextChunk text [] .

Lemma parse_visible_after self text more out :
  plan_after (plan_mode self) (assistant_plan self) text (plan_part out) →
  ∃ plan c, parse_visible_text self more =
      Some ({| plan_mode := plan_mode self; assistant_parser := assistant_parser self;
               assistant_plan := plan |}, c) ∧ assistant_citations c = [] ∧
    plan_after (plan_mode self) plan (text ++ more) (plan_part (assistant_append out c)).
Proof.
  unfold parse_visible_text, plan_after. destruct (plan_mode self) eqn:Hm.
  - intros (c1 & Hc1 & Heq1).
    destruct (stream_push_ok (assistant_plan self) more (plan_ok _)) as (plan & c2 & Hc2 & _).
    destruct (stream_push_app _ _ _ _ _ _ _ (plan_ok _) Hc1 Hc2) as (c & Hc & Heq).
    eexists plan, _. rewrite Hc2. split_and!; [done..|]. exists c. split; [done|].
    rewrite Heq. change (chunk_equiv (chunk_append (plan_part out) c2) (chunk_append c1 c2)).
    by rewrite Heq1.
  - intros Heq. exists (assistant_plan self). eexists. split.
    { destruct self. simpl in *. by subst. }
    split; [done|]. unfold plan_part in *. simpl. by injection Heq as -> ->.
Qed.

Lemma push_pieces_after mode chunks :
  ∃ m q o plan out,
    push_pieces {| plan_mode := mode; assistant_parser := {| citation_inner := at_mode citation_spec None [] |};
                   assistant_plan := plan_new |} chunks =
    Some ({| plan_mode := mode; assistant_parser := {| citation_inner := at_mode citation_spec m q |};
             assistant_plan := plan |}, out) ∧
    scan citation_spec None (concat chunks) o m q ∧ at_rest citation_spec m q ∧
    assistant_citations out = content <$> extracted o ∧
    plan_after mode plan (visible_text o) (plan_part out).
Proof.
  induction chunks as [|c cs (m & q & o & plan & out & Hfold & Hscan & Hrest & Hcit & Hplan)] using rev_ind.
  { exists None, [], default_chunk, plan_new, empty_chunk. destruct (stream_pushes []) as (m & q & o & Hp & Hs & Hr).
    simpl in Hp. injection Hp as Hm Ho.  destruct m; [done|]. simpl in Hm. subst q.
    split_and!; [done|by apply at_rest_scan|done|done|]. unfold plan_after. destruct mode; [|done].
    exists default_chunk. done. }
  unfold push_pieces in *. rewrite foldl_snoc, Hfold. simpl. unfold assistant_push_str. simpl assistant_parser.
  destruct (citation_push {| citation_inner := at_mode citation_spec m q |} c)
    as (m0 & q0 & m' & q' & o' & Hp & Hpush & Hs & Hr); [by exists m, q|].
  simpl in Hp. apply at_mode_inj in Hp as [<- <-]. rewrite Hpush. simpl.
  set (self := with_parser _ _).
  destruct (parse_visible_after self (visible_text o) (visible_text o') out Hplan) as (plan' & c' & -> & Hc' & Hafter).
  exists m', q', (chunk_append o o'), plan'. eexists. rewrite concat_app. simpl. rewrite app_nil_r.
  split_and!; [done|by eapply scan_app|done| |done]. simpl. by rewrite Hcit, fmap_app.
Qed.

Lemma run_plan_push text plan c tail p :
  push_str plan_new text = Some (plan, c) → finish_stream plan = Some (p, tail) →
  run_plan text = chunk_append c tail.
Proof.
  unfold run_plan. cbn [push_str finish_stream plan_stream].
  destruct (tagged_parse (plan_parser plan_new) text) as [q s].
  intros [= <- <-]. cbn [plan_parser]. destruct (tagged_finish q) as [q' s']. by intros [= <- <-].
Qed.

(** A blank end changes nothing. *)
Lemma append_blank {T} (a b : StreamTextChunk T) : chunk_is_blank b = true → chunk_append a b = a.
Proof.
  unfold chunk_is_blank. rewrite andb_true_iff, bool_decide_eq_true. intros [Hv He].
  destruct b as [v e]. simpl in *. subst v. destruct e; [|done]. apply chunk_append_default.
Qed.

(** [finish]: the rest of the citation parser goes through the plan parser, which
    then finishes too. *)
Lemma assistant_finish_after mode m q plan o out :
  plan_after mode plan (visible_text o) (plan_part out) →
  ∃ self tail,
    assistant_finish {| plan_mode := mode; assistant_parser := {| citation_inner := at_mode citation_spec m q |};
                        assistant_plan := plan |} = Some (self, tail) ∧
    let '(v, cs) := both (chunk_append o (inline_finish (at_mode citation_spec m q)).2) in
    assistant_citations tail = drop (length (extracted o)) cs ∧
    (if mode then chunk_equiv (plan_part (assistant_append out tail)) (run_plan v)
     else plan_part (assistant_append out tail) = Build_StreamTextChunk v []).
Proof.
  intros Hplan. unfold assistant_finish. simpl.
  destruct (inline_finish (at_mode citation_spec m q)) as [p c]. simpl.
  set (self := with_parser _ _).
  destruct (parse_visible_after self (visible_text o) (visible_text c) out Hplan)
    as (plan' & c' & -> & _ & Hafter). simpl.
  assert (drop (length (extracted o)) (content <$> extracted o ++ extracted c) = content <$> extracted c) as Hcs.
  { by rewrite fmap_app, drop_app_length' by (by rewrite length_fmap). }
  destruct mode; simpl in Hafter |- *; [|by eexists _, _; rewrite Hcs].
  destruct Hafter as (d & Hd & Heq). destruct (tagged_finish (plan_parser plan')) as [p' s'] eqn:Hfin. simpl.
  eexists _, _. split; [done|]. split; [by rewrite Hcs|].
  rewrite (run_plan_push _ plan' d (map_segments s') {| plan_parser := p' |}); [|done|simpl; by rewrite Hfin].
  rewrite <-Heq. destruct (chunk_is_blank (map_segments s')) eqn:Hb.
  - rewrite append_blank by done. done.
  - unfold plan_part, chunk_append. simpl. by rewrite !app_assoc.
Qed.

(** ** Properties *)

(** C23: the one-pass parser is the composition of its two parts.  However a
    message is cut into chunks, streaming it does not panic; the citations are
    those of the whole message, the visible text is what is left of it, in plan
    mode without its plan blocks, and the plan segments are those of the text
    without citations. *)
Theorem stream_assistant_composes mode chunks :
  ∃ c, stream_assistant mode chunks = Some c ∧
    let '(v, cs) := hidden_reference citation_spec (S (length (concat chunks))) (concat chunks) in
    assistant_citations c = cs ∧
    (if mode then assistant_visible c = strip_proposed_plan_blocks v ∧
                  extracted_equiv (plan_segments c) (extracted (run_plan v))
     else assistant_visible c = v ∧ plan_segments c = []).
Proof.
  unfold stream_assistant. change (assistant_new mode) with (Some {| plan_mode := mode;
    assistant_parser := {| citation_inner := at_mode citation_spec None [] |}; assistant_plan := plan_new |}).
  cbn [mbind option_bind].
  destruct (push_pieces_after mode chunks) as (m & q & o & plan & out & -> & Hscan & _ & Hcit & Hplan).
  cbn [mbind option_bind].
  destruct (assistant_finish_after mode m q plan o out Hplan) as (self & tail & -> & Htail).
  cbn [mbind option_bind]. eexists. split; [done|]. destruct citation_delimiters as [H1 H2].
  pose proof (scan_reference citation_spec H1 H2 _ _ o m q (Nat.lt_succ_diag_r _) Hscan) as Href.
  rewrite Href in Htail. rewrite both_append in Href. destruct (hidden_reference _ _ _) as [v cs]. destruct Htail as [Ht Hv]. split.
  - simpl. rewrite Hcit, Ht. injection Href as _ <-.
    by rewrite drop_app_length' by (by rewrite length_fmap).
  - destruct mode; [by destruct Hv|]. by injection Hv.
Qed.
