(* ===== verification/HeadTail.v ===== *)
(** * The head and tail buffer of command output

    [src/engine/core/src/unified_exec/head_tail_buffer.rs]: a buffer that keeps the
    first and the last bytes of an output and counts the bytes between them.  The
    abstract state of a buffer is the output it has seen; [summary] says what the
    buffer keeps of an output, and every operation is proved to refine it. *)

From S2P Require Import Prelude RustStr Utf8.

Section buffer.
(** The constant parameter of the type. *)
Context (MAX_BYTES : nat).

Definition HEAD_BUDGET : nat := MAX_BYTES / 2.
Definition TAIL_BUDGET : nat := MAX_BYTES - HEAD_BUDGET.

Record HeadTailBuffer : Type := {
  head : list byte;
  tail : list byte;
  omitted_bytes : N;
}.

Definition buffer_default : HeadTailBuffer := {| head := []; tail := []; omitted_bytes := 0 |}.

Definition retained_bytes (self : HeadTailBuffer) : N :=
  saturating_add (N.of_nat (length (head self))) (N.of_nat (length (tail self))).

Definition total_bytes (self : HeadTailBuffer) : N :=
  saturating_add (retained_bytes self) (omitted_bytes self).

(** The new buffer and the bytes that did not fit. *)
Definition fill_head (self : HeadTailBuffer) (chunk : list byte) : HeadTailBuffer * list byte :=
  let remaining_head := HEAD_BUDGET - length (head self) in
  let '(chunk_head, chunk_tail) :=
    if decide (remaining_head ≤ length chunk)
    then (take remaining_head chunk, drop remaining_head chunk) else (chunk, []) in
  ({| head := head self ++ chunk_head; tail := tail self; omitted_bytes := omitted_bytes self |},
   chunk_tail).

(** [None] is a slice out of range. *)
Definition push_tail (self : HeadTailBuffer) (chunk : list byte) : option HeadTailBuffer :=
  let remaining_tail := TAIL_BUDGET - length (tail self) in
  let excess_tail := length chunk - remaining_tail in
  let omitted := saturating_add (omitted_bytes self) (N.of_nat excess_tail) in
  if decide (excess_tail < length (tail self)) then
    Some {| head := head self; tail := drop excess_tail (tail self) ++ chunk; omitted_bytes := omitted |}
  else
    chunk ← slice chunk (excess_tail - length (tail self)) (length chunk);
    Some {| head := head self; tail := chunk; omitted_bytes := omitted |}.

Definition push_chunk (self : HeadTailBuffer) (chunk : list byte) : option HeadTailBuffer :=
  let '(self, chunk) := fill_head self chunk in push_tail self chunk.

Definition to_bytes (self : HeadTailBuffer) : list byte := head self ++ tail self.

Definition format_output_omission_marker (omitted : N) : rstring :=
  str "... " ++ display_N omitted ++ str " bytes omitted ...".

Definition to_bytes_with_omission_marker (self : HeadTailBuffer) : list byte :=
  if (omitted_bytes self =? 0)%N then to_bytes self
  else head self ++ [LF] ++ encode (format_output_omission_marker (omitted_bytes self)) ++ [LF] ++ tail self.

(** [VecDeque::as_slices] cuts the deque at a position [wrap] of its storage. *)
Definition push_buffer (wrap : nat) (self buffer : HeadTailBuffer) : option HeadTailBuffer :=
  let self := {| head := head self; tail := tail self;
                 omitted_bytes := saturating_add (omitted_bytes self) (omitted_bytes buffer) |} in
  let '(self, overflow) :=
    if decide (head self = [])
    then ({| head := head buffer; tail := tail self; omitted_bytes := omitted_bytes self |}, [])
    else fill_head self (head buffer) in
  if decide (length (tail buffer) = TAIL_BUDGET) then
    Some {| head := head self; tail := tail buffer;
            omitted_bytes := saturating_add (saturating_add (omitted_bytes self)
              (N.of_nat (length (tail self)))) (N.of_nat (length overflow)) |}
  else
    self ← push_tail self overflow;
    if decide (tail self = []) then
      Some {| head := head self; tail := tail buffer; omitted_bytes := omitted_bytes self |}
    else
      self ← push_tail self (take wrap (tail buffer));
      push_tail self (drop wrap (tail buffer)).

(** ** Lemmas *)

(** The last [n] elements. *)
Definition keep_last {A} (n : nat) (l : list A) : list A := drop (length l - n) l.

(** What a buffer keeps of an output. *)
Definition summary (output : list byte) : HeadTailBuffer :=
  let rest := drop HEAD_BUDGET output in
  {| head := take HEAD_BUDGET output; tail := keep_last TAIL_BUDGET rest;
     omitted_bytes := N.min (N.of_nat (length rest - TAIL_BUDGET)) USIZE_MAX |}.

Lemma keep_last_app {A} n (l k : list A) : keep_last n (l ++ k) = keep_last n (keep_last n l ++ k).
Proof.
  unfold keep_last. rewrite !length_app, length_drop, !drop_app, drop_drop, !length_drop.
  f_equal; f_equal; lia.
Qed.

Lemma keep_last_length {A} n (l : list A) : length (keep_last n l) = length l `min` n.
Proof. unfold keep_last. rewrite length_drop. lia. Qed.

(** Adding to a tail within its budget. *)
Lemma push_tail_spec h t o chunk :
  length t ≤ TAIL_BUDGET →
  push_tail {| head := h; tail := t; omitted_bytes := o |} chunk =
  Some {| head := h; tail := keep_last TAIL_BUDGET (t ++ chunk);
          omitted_bytes := saturating_add o (N.of_nat (length (t ++ chunk) - TAIL_BUDGET)) |}.
Proof.
  intros Ht. unfold push_tail. simpl.
  assert (length chunk - (TAIL_BUDGET - length t) = length (t ++ chunk) - TAIL_BUDGET) as ->
    by (rewrite length_app; lia).
  unfold keep_last. rewrite drop_app. case_decide as Hlt.
  - by replace (length (t ++ chunk) - TAIL_BUDGET - length t) with 0 by lia.
  - assert (length (t ++ chunk) = length t + length chunk) as Hl by apply length_app.
    unfold slice. rewrite decide_True by lia. simpl. rewrite (drop_ge t) by lia. simpl.
    rewrite take_ge by (rewrite length_drop; lia). done.
Qed.

Lemma fill_head_spec h t o chunk :
  length h ≤ HEAD_BUDGET →
  fill_head {| head := h; tail := t; omitted_bytes := o |} chunk =
  ({| head := take HEAD_BUDGET (h ++ chunk); tail := t; omitted_bytes := o |},
   drop HEAD_BUDGET (h ++ chunk)).
Proof.
  intros Hh. unfold fill_head. simpl. rewrite take_app, drop_app, (take_ge h), (drop_ge h) by lia.
  case_decide; [done|]. by rewrite take_ge, drop_ge by lia.
Qed.

Lemma keep_last_all {A} n (l : list A) : length l ≤ n → keep_last n l = l.
Proof. intros Hl. unfold keep_last. by replace (length l - n) with 0 by lia. Qed.

Lemma keep_last_ge {A} n (l k : list A) : n ≤ length k → keep_last n (l ++ k) = keep_last n k.
Proof.
  intros Hl. unfold keep_last. rewrite length_app, drop_app, (drop_ge l) by lia. simpl. f_equal. lia.
Qed.

(** A buffer that has seen [rest] behind its head. *)
Definition behind (h rest : list byte) : HeadTailBuffer :=
  {| head := h; tail := keep_last TAIL_BUDGET rest;
     omitted_bytes := N.min (N.of_nat (length rest - TAIL_BUDGET)) USIZE_MAX |}.

Lemma push_tail_behind h rest chunk : push_tail (behind h rest) chunk = Some (behind h (rest ++ chunk)).
Proof.
  unfold behind. rewrite push_tail_spec by (rewrite keep_last_length; lia).
  rewrite <-keep_last_app, saturating_add_min. do 2 f_equal. rewrite !length_app, keep_last_length. lia.
Qed.

(** Heads as the buffer sees them. *)
Lemma take_head (s t : list byte) : take HEAD_BUDGET (take HEAD_BUDGET s ++ t) = take HEAD_BUDGET (s ++ t).
Proof. rewrite !take_app, take_take, Nat.min_id, length_take. f_equal. f_equal. lia. Qed.

Lemma drop_head (s t : list byte) :
  drop HEAD_BUDGET (s ++ t) = drop HEAD_BUDGET s ++ drop HEAD_BUDGET (take HEAD_BUDGET s ++ t).
Proof.
  rewrite !drop_app, (drop_ge (take _ _)), length_take by (rewrite length_take; lia).
  simpl. f_equal. f_equal. lia.
Qed.

(** What follows the head of two outputs. *)
Lemma drop_head_both (s t : list byte) :
  drop HEAD_BUDGET (s ++ t) =
  (drop HEAD_BUDGET s ++ drop HEAD_BUDGET (take HEAD_BUDGET s ++ take HEAD_BUDGET t)) ++ drop HEAD_BUDGET t.
Proof.
  rewrite <-drop_head. rewrite <-(take_drop HEAD_BUDGET t) at 1. rewrite app_assoc, drop_app. f_equal.
  destruct (decide (HEAD_BUDGET ≤ length t)).
  - rewrite length_app, length_take. by replace (HEAD_BUDGET - _) with 0 by lia.
  - by rewrite (drop_ge t), drop_nil by lia.
Qed.

(** The head after the second buffer's head was added, and what did not fit. *)
Lemma head_of_both s t (o : N) :
  (if decide (take HEAD_BUDGET s = [])
   then ({| head := take HEAD_BUDGET t; tail := keep_last TAIL_BUDGET (drop HEAD_BUDGET s);
            omitted_bytes := o |}, [])
   else fill_head {| head := take HEAD_BUDGET s; tail := keep_last TAIL_BUDGET (drop HEAD_BUDGET s);
                     omitted_bytes := o |} (take HEAD_BUDGET t)) =
  ({| head := take HEAD_BUDGET (s ++ t); tail := keep_last TAIL_BUDGET (drop HEAD_BUDGET s);
      omitted_bytes := o |}, drop HEAD_BUDGET (take HEAD_BUDGET s ++ take HEAD_BUDGET t)).
Proof.
  assert (take HEAD_BUDGET (take HEAD_BUDGET s ++ take HEAD_BUDGET t) = take HEAD_BUDGET (s ++ t)) as Hh.
  { rewrite take_head. rewrite !take_app, take_take. f_equal. f_equal. lia. }
  case_decide as Hs.
  - rewrite Hs in Hh |- *. simpl in Hh |- *. rewrite take_take, Nat.min_id in Hh. rewrite Hh.
    by rewrite (drop_ge (take _ _)) by (rewrite length_take; lia).
  - rewrite fill_head_spec by (rewrite length_take; lia). by rewrite Hh.
Qed.

(** ** Refinement *)

Lemma push_chunk_summary output chunk : push_chunk (summary output) chunk = Some (summary (output ++ chunk)).
Proof.
  unfold push_chunk, summary. rewrite fill_head_spec by (rewrite length_take; lia).
  rewrite take_head, (drop_head output chunk). apply push_tail_behind.
Qed.

Lemma push_buffer_summary wrap s t :
  push_buffer wrap (summary s) (summary t) = Some (summary (s ++ t)).
Proof.
  unfold push_buffer, summary. cbn [head tail omitted_bytes]. rewrite saturating_add_mins, head_of_both.
  cbn [head tail omitted_bytes]. rewrite (drop_head_both s t).
  set (h := take HEAD_BUDGET (s ++ t)). set (rs := drop HEAD_BUDGET s). set (rt := drop HEAD_BUDGET t).
  set (ov := drop HEAD_BUDGET (take HEAD_BUDGET s ++ take HEAD_BUDGET t)).
  rewrite keep_last_length. case_decide as Hfull.
  - rewrite keep_last_ge by lia. rewrite !saturating_add_min. do 2 f_equal.
    rewrite !length_app, keep_last_length. lia.
  - rewrite (keep_last_all _ rt) by lia.
    replace (N.of_nat (length rs - TAIL_BUDGET) + N.of_nat (length rt - TAIL_BUDGET))%N
      with (N.of_nat (length rs - TAIL_BUDGET)) by lia.
    fold (behind h rs). rewrite push_tail_behind. cbn [mbind option_bind]. case_decide as Hnil.
    + assert (rs ++ ov = []) as Hz.
      { apply length_zero_iff_nil. apply (f_equal length) in Hnil. simpl in Hnil.
        rewrite keep_last_length in Hnil. lia. }
      rewrite Hz. simpl. rewrite (keep_last_all _ rt) by lia. do 2 f_equal. lia.
    + rewrite push_tail_behind. cbn [mbind option_bind]. rewrite push_tail_behind, <-app_assoc, take_drop. done.
Qed.

(** ** Properties *)

(** A history of a buffer: it was pushed a chunk, or another buffer. *)
Inductive history : HeadTailBuffer → list byte → Prop :=
| history_new : history buffer_default []
| history_chunk b output chunk b' :
    history b output → push_chunk b chunk = Some b' → history b' (output ++ chunk)
| history_buffer b output c later wrap b' :
    history b output → history c later → push_buffer wrap b c = Some b' → history b' (output ++ later).

Lemma history_summary b output : history b output → b = summary output.
Proof.
  induction 1 as [|b output chunk b' _ -> Hp|b output c later wrap b' _ -> _ -> Hp].
  - unfold summary, buffer_default, keep_last. by rewrite drop_nil, take_nil, !drop_nil.
  - rewrite push_chunk_summary in Hp. by injection Hp.
  - rewrite push_buffer_summary in Hp. by injection Hp.
Qed.

(** C22: a buffer is a function of the output it has seen.  However the output was
    cut into chunks and collected in buffers that were appended to each other, no
    slice is out of range, and the buffer holds the first [HEAD_BUDGET] bytes, the
    last [TAIL_BUDGET] of the others, and the number of the bytes between them, up
    to [usize::MAX]. *)
Theorem buffer_refines_summary b output :
  history b output →
  b = summary output ∧
  (∀ chunk, push_chunk b chunk = Some (summary (output ++ chunk))) ∧
  (∀ wrap c later, history c later → push_buffer wrap b c = Some (summary (output ++ later))) ∧
  length (to_bytes b) ≤ MAX_BYTES ∧
  (length output ≤ MAX_BYTES → to_bytes b = output ∧ omitted_bytes b = 0%N).
Proof.
  intros ->%history_summary. split; [done|]. split; [apply push_chunk_summary|]. split.
  { intros wrap c later ->%history_summary. apply push_buffer_summary. }
  assert (HEAD_BUDGET + TAIL_BUDGET = MAX_BYTES) as Hb.
  { unfold TAIL_BUDGET. assert (HEAD_BUDGET ≤ MAX_BYTES); [|lia]. unfold HEAD_BUDGET. apply Nat.Div0.div_le_upper_bound. lia. }
  unfold to_bytes, summary. simpl. split.
  - rewrite length_app, length_take, keep_last_length. lia.
  - intros Hl. rewrite keep_last_all by (rewrite length_drop; lia). split; [apply take_drop|].
    rewrite length_drop. lia.
Qed.

End buffer.

Lemma buffer_refines_summary_witness :
  let b := {| head := [1; 2]; tail := [4; 5; 6]; omitted_bytes := 1 |}%N in
  b = summary 5 [1; 2; 3; 4; 5; 6]%N ∧
  (∀ chunk, push_chunk 5 b chunk = Some (summary 5 ([1; 2; 3; 4; 5; 6]%N ++ chunk))) ∧
  (∀ wrap c later, history 5 c later →
     push_buffer 5 wrap b c = Some (summary 5 ([1; 2; 3; 4; 5; 6]%N ++ later))) ∧
  length (to_bytes b) ≤ 5 ∧
  (length [1; 2; 3; 4; 5; 6]%N ≤ 5 → to_bytes b = [1; 2; 3; 4; 5; 6]%N ∧ omitted_bytes b = 0%N).
Proof.
  apply (buffer_refines_summary 5).
  apply (history_chunk 5 (summary 5 [1; 2; 3; 4]%N) [1; 2; 3; 4]%N [5; 6]%N); [|by vm_compute].
  apply (history_chunk 5 buffer_default [] [1; 2; 3; 4]%N); [constructor|by vm_compute].
Defined.
