(* ===== verification/Truncate.v ===== *)
(** * Truncation of tool output

    [src/engine/utils/string/src/truncate.rs] and
    [src/engine/utils/output-truncation/src/lib.rs], with [TruncationPolicy] and the
    content items of [src/engine/protocol].  Sizes are [usize] as [N]; a slice that
    is not on a character boundary is [None]. *)

From S2P Require Import Prelude RustStr.

Open Scope N_scope.

Definition APPROX_BYTES_PER_TOKEN : N := 4.

(** [str::len]. *)
Definition ulen (s : rstring) : N := N.of_nat (str_len s).

Definition approx_token_count (text : rstring) : N :=
  saturating_add (ulen text) (APPROX_BYTES_PER_TOKEN - 1) / APPROX_BYTES_PER_TOKEN.

Definition approx_bytes_for_tokens (tokens : N) : N := saturating_mul tokens APPROX_BYTES_PER_TOKEN.

Definition approx_tokens_from_byte_count (bytes : N) : N :=
  saturating_add bytes (APPROX_BYTES_PER_TOKEN - 1) / APPROX_BYTES_PER_TOKEN.

(** The variables of the loop of [split_string]. *)
Record SplitState : Type := {
  prefix_end : N;
  suffix_start : N;
  removed_chars : N;
  suffix_started : bool;
}.

(** The body of the loop, for the character [ch] at [idx]. *)
Definition split_char_at (beginning_bytes tail_start_target idx : N) (ch : char) (st : SplitState)
    : SplitState :=
  let char_end := idx + N.of_nat (len_utf8 ch) in
  if char_end <=? beginning_bytes then
    {| prefix_end := char_end; suffix_start := suffix_start st; removed_chars := removed_chars st;
       suffix_started := suffix_started st |}
  else if tail_start_target <=? idx then
    if suffix_started st then st
    else {| prefix_end := prefix_end st; suffix_start := idx; removed_chars := removed_chars st;
            suffix_started := true |}
  else
    {| prefix_end := prefix_end st; suffix_start := suffix_start st;
       removed_chars := saturating_add (removed_chars st) 1; suffix_started := suffix_started st |}.

(** The loop over [char_indices] from the byte offset [idx]. *)
Fixpoint split_loop (beginning_bytes tail_start_target idx : N) (s : rstring) (st : SplitState)
    : SplitState :=
  match s with
  | [] => st
  | ch :: s' =>
      split_loop beginning_bytes tail_start_target (idx + N.of_nat (len_utf8 ch)) s'
        (split_char_at beginning_bytes tail_start_target idx ch st)
  end.

Definition split_string (s : rstring) (beginning_bytes end_bytes : N)
    : option (N * rstring * rstring) :=
  if decide (s = []) then Some (0, [], [])
  else
    let len := ulen s in
    let st := split_loop beginning_bytes (len - end_bytes) 0 s
      {| prefix_end := 0; suffix_start := len; removed_chars := 0; suffix_started := false |} in
    let start := if suffix_start st <? prefix_end st then prefix_end st else suffix_start st in
    '(before, _) ← split_at_byte s (N.to_nat (prefix_end st));
    '(_, after) ← split_at_byte s (N.to_nat start);
    Some (removed_chars st, before, after).

Definition split_budget (budget : N) : N * N :=
  let half := budget / 2 in (half, budget - half).

Definition ELLIPSIS : char := 8230.

Definition format_truncation_marker (use_tokens : bool) (removed_count : N) : rstring :=
  [ELLIPSIS] ++ display_N removed_count ++
  str (if use_tokens then " tokens truncated" else " chars truncated") ++ [ELLIPSIS].

Definition removed_units (use_tokens : bool) (removed_bytes removed : N) : N :=
  if use_tokens then approx_tokens_from_byte_count removed_bytes else N.min removed USIZE_MAX.

Definition assemble_truncated_output (prefix suffix marker : rstring) : rstring :=
  prefix ++ marker ++ suffix.

Definition truncate_with_byte_estimate (s : rstring) (max_bytes : N) (use_tokens : bool)
    : option rstring :=
  match s with
  | [] => Some []
  | _ =>
      let total_chars := N.of_nat (length s) in
      if max_bytes =? 0 then
        Some (format_truncation_marker use_tokens (removed_units use_tokens (ulen s) total_chars))
      else if ulen s <=? max_bytes then Some s
      else
        let '(left_budget, right_budget) := split_budget max_bytes in
        '(removed, before, after) ← split_string s left_budget right_budget;
        Some (assemble_truncated_output before after
          (format_truncation_marker use_tokens (removed_units use_tokens (ulen s - max_bytes) removed)))
  end.

Definition truncate_middle_chars (s : rstring) (max_bytes : N) : option rstring :=
  truncate_with_byte_estimate s max_bytes false.

Definition truncate_middle_with_token_budget (s : rstring) (max_tokens : N)
    : option (rstring * option N) :=
  match s with
  | [] => Some ([], None)
  | _ =>
      if (0 <? max_tokens) && (ulen s <=? approx_bytes_for_tokens max_tokens) then Some (s, None)
      else
        truncated ← truncate_with_byte_estimate s (approx_bytes_for_tokens max_tokens) true;
        Some (truncated, if decide (truncated = s) then None else Some (approx_token_count s))
  end.

(** ** Tool output *)

Inductive TruncationPolicy : Type := Bytes (bytes : N) | Tokens (tokens : N).

Definition token_budget (policy : TruncationPolicy) : N :=
  match policy with
  | Bytes bytes => approx_tokens_from_byte_count bytes
  | Tokens tokens => tokens
  end.

Definition byte_budget (policy : TruncationPolicy) : N :=
  match policy with Bytes bytes => bytes | Tokens tokens => approx_bytes_for_tokens tokens end.

Inductive ImageDetail : Type := Auto | Low | High | Original.

Inductive FunctionCallOutputContentItem : Type :=
| InputText (text : rstring)
| InputImage (image_url : rstring) (detail : option ImageDetail)
| InputAudio (audio_url : rstring)
| EncryptedContent (encrypted_content : rstring).

Inductive FunctionCallOutputBody : Type :=
| BodyText (text : rstring)
| ContentItems (items : list FunctionCallOutputContentItem).

Record FunctionCallOutputPayload : Type := { body : FunctionCallOutputBody; success : option bool }.

Definition truncate_text (content : rstring) (policy : TruncationPolicy) : option rstring :=
  match policy with
  | Bytes bytes => truncate_middle_chars content bytes
  | Tokens tokens => fst <$> truncate_middle_with_token_budget content tokens
  end.

Definition formatted_truncate_text (content : rstring) (policy : TruncationPolicy) : option rstring :=
  if ulen content <=? byte_budget policy then Some content
  else
    result ← truncate_text content policy;
    Some (str "Warning: truncated output (original token count: " ++
          display_N (approx_token_count content) ++ str ")" ++ [LF] ++
          str "Total output lines: " ++ display_nat (length (lines content)) ++ [LF; LF] ++ result).

Definition text_of (item : FunctionCallOutputContentItem) : option rstring :=
  match item with InputText text => Some text | _ => None end.

Definition media_of (item : FunctionCallOutputContentItem) : option FunctionCallOutputContentItem :=
  match item with InputText _ => None | _ => Some item end.

(** The texts joined by line feeds; nothing separates what follows empty text. *)
Definition combine_text (combined text : rstring) : rstring :=
  (if decide (combined = []) then combined else combined ++ [LF]) ++ text.

Definition formatted_truncate_text_content_items_with_policy
    (items : list FunctionCallOutputContentItem) (policy : TruncationPolicy)
    : option (list FunctionCallOutputContentItem * option N) :=
  match omap text_of items with
  | [] => Some (items, None)
  | text_segments =>
      let combined := foldl combine_text [] text_segments in
      if ulen combined <=? byte_budget policy then Some (items, None)
      else
        text ← formatted_truncate_text combined policy;
        Some (InputText text :: omap media_of items, Some (approx_token_count combined))
  end.

Section items.
(** The caller's estimate of the tokens of an audio item. *)
Context (estimate_audio_token_count : rstring → N).

Record ItemsState : Type := {
  out : list FunctionCallOutputContentItem;
  remaining_budget : N;
  omitted_text_items : N;
  omitted_audio_items : N;
}.

Definition text_cost (policy : TruncationPolicy) (text : rstring) : N :=
  match policy with Bytes _ => ulen text | Tokens _ => approx_token_count text end.

Definition audio_cost (policy : TruncationPolicy) (audio_url : rstring) : N :=
  let token_cost := estimate_audio_token_count audio_url in
  match policy with Bytes _ => approx_bytes_for_tokens token_cost | Tokens _ => token_cost end.

Definition snippet_policy (policy : TruncationPolicy) (budget : N) : TruncationPolicy :=
  match policy with Bytes _ => Bytes budget | Tokens _ => Tokens budget end.

Definition push_item (item : FunctionCallOutputContentItem) (cost : N) (st : ItemsState) : ItemsState :=
  {| out := out st ++ [item]; remaining_budget := remaining_budget st - cost;
     omitted_text_items := omitted_text_items st; omitted_audio_items := omitted_audio_items st |}.

Definition omit_text (budget : N) (st : ItemsState) : ItemsState :=
  {| out := out st; remaining_budget := budget; omitted_text_items := omitted_text_items st + 1;
     omitted_audio_items := omitted_audio_items st |}.

(** The body of the loop over the items. *)
Definition truncate_item (policy : TruncationPolicy) (st : ItemsState)
    (item : FunctionCallOutputContentItem) : option ItemsState :=
  match item with
  | InputText text =>
      if decide (text = []) then Some st
      else if remaining_budget st =? 0 then Some (omit_text 0 st)
      else if text_cost policy text <=? remaining_budget st then
        Some (push_item (InputText text) (text_cost policy text) st)
      else
        snippet ← truncate_text text (snippet_policy policy (remaining_budget st));
        Some (if decide (snippet = []) then omit_text 0 st
              else push_item (InputText snippet) (remaining_budget st) st)
  | InputAudio audio_url =>
      let cost := audio_cost policy audio_url in
      if cost <=? remaining_budget st then Some (push_item item cost st)
      else Some {| out := out st; remaining_budget := remaining_budget st;
                   omitted_text_items := omitted_text_items st;
                   omitted_audio_items := omitted_audio_items st + 1 |}
  | InputImage _ _ | EncryptedContent _ => Some (push_item item 0 st)
  end.

Definition omission (n : N) (kind : rstring) : list FunctionCallOutputContentItem :=
  if 0 <? n then [InputText (str "[omitted " ++ display_N n ++ kind ++ str " items ...]")] else [].

Definition items_budget (policy : TruncationPolicy) : N :=
  match policy with Bytes _ => byte_budget policy | Tokens _ => token_budget policy end.

Definition truncate_function_output_items_with_policy (items : list FunctionCallOutputContentItem)
    (policy : TruncationPolicy) : option (list FunctionCallOutputContentItem) :=
  st ← foldl (λ st item, st ← st; truncate_item policy st item)
    (Some {| out := []; remaining_budget := items_budget policy; omitted_text_items := 0;
             omitted_audio_items := 0 |}) items;
  Some (out st ++ omission (omitted_text_items st) (str " text") ++
        omission (omitted_audio_items st) (str " audio")).

Definition truncate_function_output_payload (output : FunctionCallOutputPayload)
    (policy : TruncationPolicy) : option FunctionCallOutputPayload :=
  new_body ← match body output with
             | BodyText text => BodyText <$> truncate_text text policy
             | ContentItems items =>
                 ContentItems <$> truncate_function_output_items_with_policy items policy
             end;
  Some {| body := new_body; success := success output |}.

End items.

(** ** Lemmas *)

(** *** Splitting *)

Lemma ulen_app a b : ulen (a ++ b) = ulen a + ulen b.
Proof. unfold ulen. rewrite str_len_app. lia. Qed.

Lemma ulen_cons c s : ulen (c :: s) = N.of_nat (len_utf8 c) + ulen s.
Proof. unfold ulen. simpl. lia. Qed.

Lemma split_at_ulen a b : split_at_byte (a ++ b) (N.to_nat (ulen a)) = Some (a, b).
Proof. unfold ulen. rewrite Nat2N.id. apply split_at_byte_app. Qed.

(** What the loop has seen: the prefix, the characters removed and the suffix. *)
Record split_seen (lb target len : N) (b m a : rstring) (st : SplitState) : Prop := {
  seen_prefix : prefix_end st = ulen b;
  seen_removed : removed_chars st = N.min (N.of_nat (length m)) USIZE_MAX;
  seen_started : suffix_started st = bool_decide (a ≠ []);
  seen_suffix : suffix_start st = if decide (a = []) then len else ulen (b ++ m);
  seen_fits : ulen b <= lb;
  seen_first : ∀ c r, m ++ a = c :: r → lb < ulen (b ++ [c]);
  seen_last : ∀ r c, m = r ++ [c] → ulen (b ++ r) < target;
  seen_target : a ≠ [] → target <= ulen (b ++ m);
}.

(** The character belongs to the prefix, behind which nothing was seen. *)
Lemma seen_grow_prefix lb target len b m a st ch :
  split_seen lb target len b m a st →
  ulen b + (ulen m + ulen a) + N.of_nat (len_utf8 ch) <= lb →
  m = [] ∧ a = [] ∧ split_seen lb target len (b ++ [ch]) [] []
    {| prefix_end := ulen b + N.of_nat (len_utf8 ch); suffix_start := suffix_start st;
       removed_chars := removed_chars st; suffix_started := suffix_started st |}.
Proof.
  intros [Hp Hr Hs Hx Hf H1 Hl Ht] Hlb. pose proof (len_utf8_pos ch) as Hpos.
  assert (m ++ a = []) as [-> ->]%app_nil.
  { destruct (m ++ a) as [|c r] eqn:E; [done|]. specialize (H1 _ _ eq_refl).
    assert (ulen m + ulen a = ulen (c :: r)) as Hma by (by rewrite <-E, ulen_app).
    rewrite ulen_app, ulen_cons in *. change (ulen []) with 0 in *. lia. }
  change (ulen []) with 0 in *. split_and!; [done..|].
  split; simpl; rewrite ?ulen_app, ?ulen_cons; change (ulen []) with 0; try done; try lia.
  by intros [].
Qed.

(** The character belongs to the suffix. *)
Lemma seen_grow_suffix lb target len b m a st ch :
  split_seen lb target len b m a st →
  lb < ulen b + (ulen m + ulen a) + N.of_nat (len_utf8 ch) →
  target <= ulen b + (ulen m + ulen a) →
  split_seen lb target len b m (a ++ [ch])
    (if suffix_started st then st
     else {| prefix_end := prefix_end st; suffix_start := ulen b + (ulen m + ulen a);
             removed_chars := removed_chars st; suffix_started := true |}).
Proof.
  intros [Hp Hr Hs Hx Hf H1 Hl Ht] Hlb Hta.
  assert (∀ c r, m ++ a ++ [ch] = c :: r → lb < ulen (b ++ [c])) as H1'.
  { intros c r E. rewrite app_assoc in E. destruct (m ++ a) as [|c' r'] eqn:E'.
    - injection E as <- _. apply app_nil in E' as [-> ->]. rewrite ulen_app, ulen_cons.
      change (ulen []) with 0 in *. lia.
    - injection E as <- _. by eapply H1. }
  destruct a as [|d a]; simpl in Hs, Hx; rewrite Hs.
  - change (ulen []) with 0 in *. split; simpl; try done.
    + rewrite ulen_app. lia.
    + intros _. rewrite ulen_app. lia.
  - split; simpl; try done. intros _. by apply Ht.
Qed.

(** The character is removed, and the suffix has not begun. *)
Lemma seen_grow_removed lb target len b m a st ch :
  split_seen lb target len b m a st →
  lb < ulen b + (ulen m + ulen a) + N.of_nat (len_utf8 ch) →
  ulen b + (ulen m + ulen a) < target →
  a = [] ∧ split_seen lb target len b (m ++ [ch]) []
    {| prefix_end := prefix_end st; suffix_start := suffix_start st;
       removed_chars := saturating_add (removed_chars st) 1; suffix_started := suffix_started st |}.
Proof.
  intros [Hp Hr Hs Hx Hf H1 Hl Ht] Hlb Hta. assert (a = []) as ->.
  { destruct a; [done|]. specialize (Ht ltac:(done)). rewrite ulen_app in Ht. lia. }
  split; [done|]. change (ulen []) with 0 in *. split; simpl; try done.
  - rewrite Hr, saturating_add_min, length_app. simpl. f_equal. lia.
  - intros c r E. rewrite app_nil_r in E, H1. destruct m as [|c' m'].
    + injection E as <- _. rewrite ulen_app, ulen_cons. change (ulen []) with 0 in *. lia.
    + injection E as <- _. by eapply H1.
  - intros r c E. apply app_inj_tail in E as [-> ->]. rewrite ulen_app. lia.
Qed.

Lemma split_char_seen lb target len b m a st ch :
  split_seen lb target len b m a st →
  ∃ b' m' a', b ++ m ++ a ++ [ch] = b' ++ m' ++ a' ∧
    split_seen lb target len b' m' a' (split_char_at lb target (ulen (b ++ m ++ a)) ch st).
Proof.
  intros Hseen. unfold split_char_at. rewrite !ulen_app.
  destruct (N.leb_spec (ulen b + (ulen m + ulen a) + N.of_nat (len_utf8 ch)) lb) as [Hlb|Hlb].
  - destruct (seen_grow_prefix _ _ _ _ _ _ _ _ Hseen Hlb) as (-> & -> & Hnew).
    exists (b ++ [ch]), [], []. split; [by rewrite !app_nil_r|].
    change (ulen []) with 0. by rewrite !N.add_0_r.
  - destruct (N.leb_spec target (ulen b + (ulen m + ulen a))) as [Hta|Hta].
    + exists b, m, (a ++ [ch]). split; [done|]. by apply seen_grow_suffix.
    + destruct (seen_grow_removed _ _ _ _ _ _ _ _ Hseen Hlb Hta) as [-> Hnew].
      exists b, (m ++ [ch]), []. split; [by rewrite app_nil_r|done].
Qed.

Lemma split_loop_seen lb target len s b m a st :
  split_seen lb target len b m a st →
  ∃ b' m' a', (b ++ m ++ a) ++ s = b' ++ m' ++ a' ∧
    split_seen lb target len b' m' a' (split_loop lb target (ulen (b ++ m ++ a)) s st).
Proof.
  revert b m a st. induction s as [|ch s IH]; intros b m a st Hseen; simpl.
  { exists b, m, a. by rewrite app_nil_r. }
  destruct (split_char_seen _ _ _ _ _ _ _ ch Hseen) as (b1 & m1 & a1 & Heq & Hseen1).
  destruct (IH _ _ _ _ Hseen1) as (b2 & m2 & a2 & Heq2 & Hseen2).
  assert (ulen (b1 ++ m1 ++ a1) = ulen (b ++ m ++ a) + N.of_nat (len_utf8 ch)) as Hlen.
  { rewrite <-Heq, !ulen_app, ulen_cons. change (ulen []) with 0. lia. }
  rewrite Hlen in Hseen2. exists b2, m2, a2. split; [|done]. rewrite <-Heq2, <-Heq.
  by rewrite <-!app_assoc.
Qed.

(** [split_string] never panics and cuts the string in three. *)
Lemma split_string_spec s lb rb :
  ∃ b m a, s = b ++ m ++ a ∧
    split_string s lb rb = Some (N.min (N.of_nat (length m)) USIZE_MAX, b, a) ∧
    ulen b <= lb ∧ ulen a <= rb ∧
    (∀ c r, m = c :: r → lb < ulen (b ++ [c])) ∧ (∀ r c, m = r ++ [c] → rb < ulen (c :: a)).
Proof.
  unfold split_string. case_decide as Hne.
  { subst s. exists [], [], []. change (ulen []) with 0. split_and!; try done; try lia. by intros []. }
  destruct (split_loop_seen lb (ulen s - rb) (ulen s) s [] [] []
    {| prefix_end := 0; suffix_start := ulen s; removed_chars := 0; suffix_started := false |})
    as (b & m & a & Heq & [Hp Hr Hs Hx Hf H1 Hl Ht]).
  { split; simpl; change (ulen []) with 0; try done; try lia. by intros []. }
  simpl in Heq. change (ulen ([] ++ [] ++ [])) with 0 in *. cbn zeta.
  set (st := split_loop _ _ _ _ _) in *.
  assert (suffix_start st = ulen (b ++ m)) as Hx'.
  { rewrite Hx. case_decide; [subst a|done]. by rewrite Heq, app_nil_r. }
  rewrite (proj2 (N.ltb_ge _ _)) by (rewrite Hx', Hp, ulen_app; lia).
  exists b, m, a. split; [done|]. split.
  { rewrite Hp, Hx', Hr. rewrite Heq at 1. rewrite split_at_ulen. simpl.
    by rewrite Heq, app_assoc, split_at_ulen. }
  assert (ulen s = ulen b + ulen m + ulen a) as Hlen by (rewrite Heq, !ulen_app; lia).
  split_and!; [done| | |].
  - destruct a; [change (ulen []) with 0; lia|]. specialize (Ht ltac:(done)). rewrite ulen_app in Ht. lia.
  - intros c r ->. by eapply H1.
  - intros r c ->. specialize (Hl r c eq_refl). rewrite !ulen_app, ulen_cons in *.
    change (ulen []) with 0 in *. lia.
Qed.

(** *** Items *)

Lemma truncate_with_byte_estimate_total s n t : is_Some (truncate_with_byte_estimate s n t).
Proof.
  unfold truncate_with_byte_estimate. destruct s as [|c s]; [done|].
  case_match; [done|]. case_match; [done|]. destruct (split_budget n) as [lb rb].
  by destruct (split_string_spec (c :: s) lb rb) as (b & m & a & _ & -> & _).
Qed.

Lemma truncate_text_total s policy : is_Some (truncate_text s policy).
Proof.
  destruct policy as [n|n]; simpl; [apply truncate_with_byte_estimate_total|].
  unfold truncate_middle_with_token_budget. destruct s as [|c s]; [done|]. case_match; [done|].
  destruct (truncate_with_byte_estimate_total (c :: s) (approx_bytes_for_tokens n) true) as [x ->]. done.
Qed.

Section items_lemmas.
Context (estimate : rstring → N).

(** Images and encrypted content are always kept. *)
Definition is_kept_media (item : FunctionCallOutputContentItem) : bool :=
  match item with InputImage _ _ | EncryptedContent _ => true | _ => false end.

Definition is_audio (item : FunctionCallOutputContentItem) : bool :=
  match item with InputAudio _ => true | _ => false end.

(** What an item costs, and that it is empty text. *)
Definition item_cost (policy : TruncationPolicy) (item : FunctionCallOutputContentItem) : N :=
  match item with
  | InputText text => text_cost policy text
  | InputAudio url => audio_cost estimate policy url
  | _ => 0
  end.

Definition is_blank (item : FunctionCallOutputContentItem) : bool :=
  match item with InputText text => bool_decide (text = []) | _ => false end.

Definition total_cost (policy : TruncationPolicy) (items : list FunctionCallOutputContentItem) : N :=
  foldr (λ item n, item_cost policy item + n) 0 items.

(** One item: media are kept and audio is kept whole or dropped. *)
Lemma truncate_item_media policy st item :
  ∃ st' new, truncate_item estimate policy st item = Some st' ∧ out st' = out st ++ new ∧
    filter is_kept_media new = filter is_kept_media [item] ∧
    sublist (filter is_audio new) (filter is_audio [item]).
Proof.
  destruct item as [text|u d|u|e]; simpl.
  - case_decide; [exists st, []; by rewrite app_nil_r|].
    case_match; [eexists _, []; by rewrite app_nil_r|].
    case_match; [by eexists _, [_]|].
    destruct (truncate_text_total text (snippet_policy policy (remaining_budget st))) as [x ->]. simpl.
    case_decide; [eexists _, []; by rewrite app_nil_r|by eexists _, [_]].
  - by eexists _, [_].
  - case_match; [by eexists _, [_]|]. eexists _, []. rewrite app_nil_r. split_and!; try done.
    apply sublist_nil_l.
  - by eexists _, [_].
Qed.

Lemma filter_one (f : FunctionCallOutputContentItem → bool) item l :
  filter f (item :: l) = filter f [item] ++ filter f l.
Proof. by rewrite <-filter_app. Qed.

Lemma truncate_items_media policy items st :
  ∃ st' new, foldl (λ st item, st ← st; truncate_item estimate policy st item) (Some st) items = Some st' ∧
    out st' = out st ++ new ∧ filter is_kept_media new = filter is_kept_media items ∧
    sublist (filter is_audio new) (filter is_audio items).
Proof.
  revert st. induction items as [|item items IH]; intros st; simpl foldl.
  { exists st, []. by rewrite app_nil_r. }
  destruct (truncate_item_media policy st item) as (st1 & n1 & -> & H1 & Hm1 & Ha1).
  destruct (IH st1) as (st2 & n2 & -> & H2 & Hm2 & Ha2). exists st2, (n1 ++ n2).
  rewrite H2, H1, app_assoc, !filter_app, (filter_one _ item), (filter_one is_audio item), Hm1, Hm2.
  split_and!; [done..|]. by apply sublist_app.
Qed.

(** Everything fits: nothing is changed but blank text, which is dropped. *)
Lemma truncate_items_fit policy items st :
  total_cost policy items <= remaining_budget st →
  (∀ text, InputText text ∈ items → text ≠ [] → 0 < text_cost policy text) →
  foldl (λ st item, st ← st; truncate_item estimate policy st item) (Some st) items =
  Some {| out := out st ++ filter (λ i, is_blank i = false) items;
          remaining_budget := remaining_budget st - total_cost policy (filter (λ i, is_blank i = false) items);
          omitted_text_items := omitted_text_items st; omitted_audio_items := omitted_audio_items st |}.
Proof.
  revert st. induction items as [|item items IH]; intros st Hc Hpos; simpl foldl.
  { rewrite app_nil_r. simpl. rewrite N.sub_0_r. by destruct st. }
  simpl in Hc. assert (∀ text, InputText text ∈ items → text ≠ [] → 0 < text_cost policy text) as Hpos'.
  { intros. apply Hpos; [by right|done]. }
  assert (∀ cost, cost = item_cost policy item → is_blank item = false →
    foldl (λ st item, st ← st; truncate_item estimate policy st item) (Some (push_item item cost st)) items =
    Some {| out := out st ++ filter (λ i, is_blank i = false) (item :: items);
      remaining_budget := remaining_budget st - total_cost policy (filter (λ i, is_blank i = false) (item :: items));
      omitted_text_items := omitted_text_items st; omitted_audio_items := omitted_audio_items st |}) as Hpush.
  { intros cost -> Hb. rewrite IH; simpl; [|lia|done]. rewrite filter_cons_True by done.
    simpl. rewrite <-app_assoc, N.sub_add_distr. done. }
  destruct item as [text|u d|u|e]; simpl in Hc |- *.
  - case_decide as Hb.
    + subst. rewrite IH by (done || lia). done.
    + specialize (Hpos text ltac:(left) Hb).
      rewrite (proj2 (N.eqb_neq _ _)), (proj2 (N.leb_le _ _)) by lia.
      apply Hpush; [done|]. simpl. by apply bool_decide_eq_false.
  - by apply Hpush.
  - rewrite (proj2 (N.leb_le _ _)) by lia. by apply Hpush.
  - by apply Hpush.
Qed.

End items_lemmas.

Lemma text_cost_pos policy text : text ≠ [] → 0 < text_cost policy text.
Proof.
  intros Hne. assert (0 < ulen text) as Hlen.
  { unfold ulen. assert (str_len text ≠ 0%nat) by (by rewrite str_len_nil). lia. }
  destruct policy; [done|]. unfold text_cost, approx_token_count, saturating_add, APPROX_BYTES_PER_TOKEN, USIZE_MAX.
  apply N.div_str_pos. lia.
Qed.

(** Omission notes are text. *)
Lemma omission_text n kind :
  filter is_kept_media (omission n kind) = [] ∧ filter is_audio (omission n kind) = [].
Proof. unfold omission. by case_match. Qed.

(** ** Properties *)

(** C25: truncation keeps both ends.  A text longer than its budget is cut on
    character boundaries into a beginning, a removed middle and an end; the output
    is the beginning, the marker and the end; the two ends fit in the two halves of
    the budget and could not be one character longer; and the marker counts the
    removed characters or the tokens over budget. *)
Theorem truncate_keeps_both_ends s max_bytes use_tokens :
  0 < max_bytes → max_bytes < ulen s →
  ∃ b m a, s = b ++ m ++ a ∧ m ≠ [] ∧
    truncate_with_byte_estimate s max_bytes use_tokens =
      Some (b ++ format_truncation_marker use_tokens
              (if use_tokens then approx_tokens_from_byte_count (ulen s - max_bytes)
               else N.min (N.of_nat (length m)) USIZE_MAX) ++ a) ∧
    ulen b <= max_bytes / 2 ∧ ulen a <= max_bytes - max_bytes / 2 ∧
    (∀ c r, m = c :: r → max_bytes / 2 < ulen (b ++ [c])) ∧
    (∀ r c, m = r ++ [c] → max_bytes - max_bytes / 2 < ulen (c :: a)).
Proof.
  intros H0 Hlen.
  destruct (split_string_spec s (max_bytes / 2) (max_bytes - max_bytes / 2))
    as (b & m & a & Heq & Hsplit & Hb & Ha & H1 & H2).
  exists b, m, a. split; [done|]. split.
  { intros ->. rewrite Heq, !ulen_app in Hlen. change (ulen []) with 0 in Hlen.
    assert (max_bytes / 2 <= max_bytes) by (apply N.Div0.div_le_upper_bound; lia). lia. }
  split; [|done]. unfold truncate_with_byte_estimate.
  destruct s as [|c0 s0]; [change (ulen []) with 0 in Hlen; lia|].
  rewrite (proj2 (N.eqb_neq _ _)), (proj2 (N.leb_gt _ _)) by lia. unfold split_budget.
  rewrite Hsplit. cbn [mbind option_bind]. unfold assemble_truncated_output, removed_units.
  destruct use_tokens; [done|]. by rewrite <-N.min_assoc, N.min_id.
Qed.

Lemma truncate_keeps_both_ends_witness :
  ∃ b m a, str "hello world" = b ++ m ++ a ∧ m ≠ [] ∧
    truncate_with_byte_estimate (str "hello world") 5 false =
      Some (b ++ format_truncation_marker false (N.min (N.of_nat (length m)) USIZE_MAX) ++ a) ∧
    ulen b <= 5 / 2 ∧ ulen a <= 5 - 5 / 2 ∧
    (∀ c r, m = c :: r → 5 / 2 < ulen (b ++ [c])) ∧ (∀ r c, m = r ++ [c] → 5 - 5 / 2 < ulen (c :: a)).
Proof. apply (truncate_keeps_both_ends (str "hello world") 5 false); by vm_compute. Defined.

(** Truncating the items of an output does not panic, keeps every image and
    every encrypted item in order, keeps audio items whole or drops them, and
    changes nothing but blank text when the items fit in the budget. *)
Theorem truncate_items_keeps_media estimate items policy :
  ∃ result, truncate_function_output_items_with_policy estimate items policy = Some result ∧
    filter is_kept_media result = filter is_kept_media items ∧
    sublist (filter is_audio result) (filter is_audio items) ∧
    (total_cost estimate policy items <= items_budget policy →
     result = filter (λ i, is_blank i = false) items).
Proof.
  unfold truncate_function_output_items_with_policy. set (st0 := Build_ItemsState _ _ _ _).
  destruct (truncate_items_media estimate policy items st0) as (st & new & Hst & Hout & Hm & Ha).
  rewrite Hst. eexists. split; [done|]. simpl in Hout. subst st0.
  destruct (omission_text (omitted_text_items st) (str " text")) as [Ht1 Ht2].
  destruct (omission_text (omitted_audio_items st) (str " audio")) as [Hu1 Hu2].
  rewrite !filter_app, Ht1, Ht2, Hu1, Hu2, !app_nil_r, Hout. split_and!; [done..|].
  intros Hfit. rewrite truncate_items_fit in Hst; simpl; [|done|by intros; apply text_cost_pos].
  injection Hst as <-. simpl in Hout |- *. by rewrite <-Hout, app_nil_r.
Qed.
