(* ===== verification/Readiness.v ===== *)
(** * The readiness flag ([utils/readiness/src/lib.rs])

    A flag that becomes ready once, on behalf of one of its subscribers, and on which
    tasks wait.  Its operations run concurrently: an operation is a program counter, a
    step is one access to an atomic, the token lock or the channel, and a run is any
    interleaving of the steps of any number of tasks.  Accesses are sequentially
    consistent; a task that waits for the lock may time out, and a task suspended at an
    [await] may be dropped.

    The watch channel of tokio is the class [Watch]; what its documentation promises is
    the class [WatchLaws], with an instance that counts versions. *)

From S2P Require Import Prelude.

Local Open Scope Z_scope.

(** ** The watch channel *)

(** [W] is a channel, which has its [watch::Sender<bool>] and what each receiver has
    seen; [R] is a handle of a [watch::Receiver<bool>].  [watch_changed] is [None] while
    the future is pending. *)
Class Watch (W R : Type) := {
  watch_channel : bool → W * R;
  watch_send : bool → W → W;
  watch_subscribe : W → W * R;
  watch_borrow : W → R → bool;
  watch_changed : R → W → option W;
  watch_drop : R → W → W;
  (** What the channel holds, its receivers, and which of them a receiver is. *)
  watch_value : W → bool;
  watch_receivers : W → gset nat;
  watch_id : R → nat }.

Section watch_laws.
Context {W R : Type} `{!Watch W R}.

Definition live (w : W) (r : R) : Prop := watch_id r ∈ watch_receivers w.
Definition notified (w : W) (r : R) : Prop := is_Some (watch_changed r w).

(** The documented behaviour of the channel: a receiver has seen the value that was
    current when it was made; a value that is sent notifies every receiver; without a
    receiver, sending fails and the value is not stored. *)
Class WatchLaws : Prop := {
  channel_value v : watch_value (watch_channel v).1 = v;
  channel_receivers v :
    watch_receivers (watch_channel v).1 = {[ watch_id (watch_channel v).2 ]};
  send_receivers v w : watch_receivers (watch_send v w) = watch_receivers w;
  send_delivers v w : watch_receivers w ≠ ∅ → watch_value (watch_send v w) = v;
  send_notifies v w r : live w r → notified (watch_send v w) r;
  send_no_receiver v w : watch_receivers w = ∅ → watch_value (watch_send v w) = watch_value w;
  subscribe_value w : watch_value (watch_subscribe w).1 = watch_value w;
  subscribe_fresh w : watch_id (watch_subscribe w).2 ∉ watch_receivers w;
  subscribe_receivers w :
    watch_receivers (watch_subscribe w).1
    = {[ watch_id (watch_subscribe w).2 ]} ∪ watch_receivers w;
  subscribe_seen w : ¬ notified (watch_subscribe w).1 (watch_subscribe w).2;
  subscribe_others w r : live w r → notified (watch_subscribe w).1 r ↔ notified w r;
  borrow_value w r : live w r → watch_borrow w r = watch_value w;
  changed_value w r w' : watch_changed r w = Some w' → watch_value w' = watch_value w;
  changed_receivers w r w' :
    watch_changed r w = Some w' → watch_receivers w' = watch_receivers w;
  changed_seen w r w' : watch_changed r w = Some w' → ¬ notified w' r;
  changed_others w r w' r' :
    watch_changed r w = Some w' → watch_id r' ≠ watch_id r → notified w' r' ↔ notified w r';
  drop_value w r : watch_value (watch_drop r w) = watch_value w;
  drop_receivers w r :
    watch_receivers (watch_drop r w) = watch_receivers w ∖ {[ watch_id r ]};
  drop_others w r r' :
    watch_id r' ≠ watch_id r → notified (watch_drop r w) r' ↔ notified w r' }.

End watch_laws.

Arguments WatchLaws W R {_}.

(** ** The flag *)

Definition I32_MIN : Z := -2147483648.
Definition I32_MAX : Z := 2147483647.

Definition i32_ok (n : Z) : Prop := I32_MIN ≤ n ≤ I32_MAX.

(** [fetch_add] of an [AtomicI32] wraps around. *)
Definition i32_wrapping_succ (n : Z) : Z := if decide (n = I32_MAX) then I32_MIN else n + 1.

Inductive ReadinessError := TokenLockFailed | FlagAlreadyReady.

Section flag.
Context {W R : Type} `{!Watch W R}.

(** The token set is behind a lock, which is free or held by a task; a task is known by
    a number.  [Token(i32)] is its integer. *)
Record ReadinessFlag := {
  ready : bool;
  next_id : Z;
  tokens_lock : option nat;
  tokens : gset Z;
  tx : W }.

Definition new : ReadinessFlag :=
  let '(tx, _rx) := watch_channel false in
  {| ready := false; next_id := 1; tokens_lock := None; tokens := ∅; tx := watch_drop _rx tx |}.

Definition load_ready (f : ReadinessFlag) : bool := ready f.

Definition store_ready (b : bool) (f : ReadinessFlag) : ReadinessFlag :=
  {| ready := b; next_id := next_id f; tokens_lock := tokens_lock f; tokens := tokens f;
     tx := tx f |}.
Definition set_lock (l : option nat) (f : ReadinessFlag) : ReadinessFlag :=
  {| ready := ready f; next_id := next_id f; tokens_lock := l; tokens := tokens f; tx := tx f |}.
Definition set_tokens (ts : gset Z) (f : ReadinessFlag) : ReadinessFlag :=
  {| ready := ready f; next_id := next_id f; tokens_lock := tokens_lock f; tokens := ts;
     tx := tx f |}.
Definition set_next_id (n : Z) (f : ReadinessFlag) : ReadinessFlag :=
  {| ready := ready f; next_id := n; tokens_lock := tokens_lock f; tokens := tokens f; tx := tx f |}.
Definition set_tx (w : W) (f : ReadinessFlag) : ReadinessFlag :=
  {| ready := ready f; next_id := next_id f; tokens_lock := tokens_lock f; tokens := tokens f;
     tx := w |}.

(** ** Operations *)

(** What the scheduler does with a task: run it, let its lock acquisition time out, or
    drop its future. *)
Inductive choice := Go | TimedOut | Cancel.

(** [is_ready].  It never waits. *)
Inductive is_ready_pc :=
| IrLoad
| IrTryLock
| IrIsEmpty
| IrSwap
| IrDrop (was_ready : bool)
| IrSend
| IrReload.

Definition is_ready (t : nat) (p : is_ready_pc) (f : ReadinessFlag)
    : ReadinessFlag * (is_ready_pc + bool) :=
  match p with
  | IrLoad => (f, if load_ready f then inr true else inl IrTryLock)
  | IrTryLock =>
      match tokens_lock f with
      | None => (set_lock (Some t) f, inl IrIsEmpty)
      | Some _ => (f, inl IrReload)
      end
  | IrIsEmpty =>
      if decide (tokens f = ∅) then (f, inl IrSwap) else (set_lock None f, inl IrReload)
  | IrSwap => (store_ready true f, inl (IrDrop (ready f)))
  | IrDrop was_ready => (set_lock None f, if was_ready then inr true else inl IrSend)
  | IrSend => (set_tx (watch_send true (tx f)) f, inr true)
  | IrReload => (f, inr (load_ready f))
  end.

(** The acquisition of the lock in [with_tokens]; [None] while the lock is held by
    another task, and the future waits. *)
Definition with_tokens {P A : Type} (t : nat) (f : ReadinessFlag) (c : choice) (k : P)
    (failed : A) : option (ReadinessFlag * (P + A)) :=
  match c with
  | Go =>
      match tokens_lock f with
      | None => Some (set_lock (Some t) f, inl k)
      | Some _ => None
      end
  | TimedOut => Some (f, inr failed)
  | Cancel => None
  end.

(** The loop of [subscribe] that draws a token, with the number of rounds it may take. *)
Fixpoint draw_token (rounds : nat) (n : Z) (ts : gset Z) : option (Z * Z) :=
  match rounds with
  | O => None
  | S rounds' =>
      let n' := i32_wrapping_succ n in
      if decide (n ≠ 0 ∧ n ∉ ts) then Some (n, n') else draw_token rounds' n' ts
  end.

Inductive subscribe_pc :=
| SuLoad
| SuLock
| SuRecheck
| SuInsert
| SuDrop (token : option Z).

Definition subscribe (t : nat) (p : subscribe_pc) (c : choice) (f : ReadinessFlag)
    : option (ReadinessFlag * (subscribe_pc + res ReadinessError Z)) :=
  match p, c with
  | SuLoad, Go => Some (f, if load_ready f then inr (Err FlagAlreadyReady) else inl SuLock)
  | SuLock, _ => with_tokens t f c SuRecheck (Err TokenLockFailed)
  | SuRecheck, Go => Some (f, inl (if load_ready f then SuDrop None else SuInsert))
  | SuInsert, Go =>
      match draw_token (size (tokens f) + 2) (next_id f) (tokens f) with
      | Some (token, n) =>
          Some (set_next_id n (set_tokens ({[ token ]} ∪ tokens f) f), inl (SuDrop (Some token)))
      | None => None
      end
  | SuDrop token, Go => Some (set_lock None f, inr (ok_or FlagAlreadyReady token))
  | _, _ => None
  end.

Inductive mark_ready_pc :=
| MaLoad
| MaLock
| MaRemove
| MaStore
| MaClear
| MaDrop (marked : bool)
| MaSend.

Definition mark_ready (t : nat) (token : Z) (p : mark_ready_pc) (c : choice)
    (f : ReadinessFlag) : option (ReadinessFlag * (mark_ready_pc + res ReadinessError bool)) :=
  match p, c with
  | MaLoad, Go =>
      Some (f, if load_ready f then inr (Ok false)
               else if decide (token = 0) then inr (Ok false) else inl MaLock)
  | MaLock, _ => with_tokens t f c MaRemove (Err TokenLockFailed)
  | MaRemove, Go =>
      Some (if decide (token ∈ tokens f)
            then (set_tokens (tokens f ∖ {[ token ]}) f, inl MaStore)
            else (f, inl (MaDrop false)))
  | MaStore, Go => Some (store_ready true f, inl MaClear)
  | MaClear, Go => Some (set_tokens ∅ f, inl (MaDrop true))
  | MaDrop marked, Go => Some (set_lock None f, if marked then inl MaSend else inr (Ok false))
  | MaSend, Go => Some (set_tx (watch_send true (tx f)) f, inr (Ok true))
  | _, _ => None
  end.

Inductive wait_ready_pc :=
| WaIsReady (p : is_ready_pc)
| WaSubscribe
| WaBorrow (rx : R)
| WaChanged (rx : R)
| WaReborrow (rx : R).

(** [changed] returns an error only when the sender is gone; the flag owns the sender
    and outlives the call. *)
Definition wait_ready (t : nat) (p : wait_ready_pc) (f : ReadinessFlag)
    : option (ReadinessFlag * (wait_ready_pc + ())) :=
  match p with
  | WaIsReady q =>
      let '(f', r) := is_ready t q f in
      Some (f', match r with
                | inl q' => inl (WaIsReady q')
                | inr true => inr tt
                | inr false => inl WaSubscribe
                end)
  | WaSubscribe =>
      let '(w, rx) := watch_subscribe (tx f) in Some (set_tx w f, inl (WaBorrow rx))
  | WaBorrow rx | WaReborrow rx =>
      Some (if watch_borrow (tx f) rx then (set_tx (watch_drop rx (tx f)) f, inr tt)
            else (f, inl (WaChanged rx)))
  | WaChanged rx =>
      match watch_changed rx (tx f) with
      | Some w => Some (set_tx w f, inl (WaReborrow rx))
      | None => None
      end
  end.

(** ** Tasks and runs *)

Inductive task :=
| Idle
| TIsReady (p : is_ready_pc)
| TSubscribe (p : subscribe_pc)
| TMarkReady (token : Z) (p : mark_ready_pc)
| TWaitReady (p : wait_ready_pc).

Inductive outcome :=
| RIsReady (b : bool)
| RSubscribe (r : res ReadinessError Z)
| RMarkReady (r : res ReadinessError bool)
| RWaitReady.

(** A step of a call that has not returned. *)
Definition task_step (t : nat) (k : task) (c : choice) (f : ReadinessFlag)
    : option (ReadinessFlag * (task + outcome)) :=
  match k, c with
  | Idle, _ => None
  | TIsReady p, Go =>
      let '(f', r) := is_ready t p f in
      Some (f', match r with inl p' => inl (TIsReady p') | inr b => inr (RIsReady b) end)
  | TSubscribe SuLock, Cancel | TMarkReady _ MaLock, Cancel => Some (f, inl Idle)
  | TWaitReady (WaChanged rx), Cancel => Some (set_tx (watch_drop rx (tx f)) f, inl Idle)
  | TSubscribe p, _ =>
      '(f', r) ← subscribe t p c f;
      Some (f', match r with inl p' => inl (TSubscribe p') | inr o => inr (RSubscribe o) end)
  | TMarkReady token p, _ =>
      '(f', r) ← mark_ready t token p c f;
      Some (f', match r with inl p' => inl (TMarkReady token p') | inr o => inr (RMarkReady o) end)
  | TWaitReady p, Go =>
      '(f', r) ← wait_ready t p f;
      Some (f', match r with inl p' => inl (TWaitReady p') | inr _ => inr RWaitReady end)
  | _, _ => None
  end.

Inductive operation := CallIsReady | CallSubscribe | CallMarkReady (token : Z) | CallWaitReady.

Definition start (o : operation) : task :=
  match o with
  | CallIsReady => TIsReady IrLoad
  | CallSubscribe => TSubscribe SuLoad
  | CallMarkReady token => TMarkReady token MaLoad
  | CallWaitReady => TWaitReady (WaIsReady IrLoad)
  end.

(** The tasks that share a flag, and the calls that have returned, latest last. *)
Record system := {
  flag : ReadinessFlag;
  tasks : gmap nat task;
  returned : list (nat * outcome) }.

Definition task_of (s : system) (t : nat) : task := default Idle (tasks s !! t).

Definition initial : system := {| flag := new; tasks := ∅; returned := [] |}.

Inductive event := Call (o : operation) | Sched (c : choice).

Definition step (s : system) (e : nat * event) : option system :=
  let '(t, e) := e in
  match e, task_of s t with
  | Call o, Idle =>
      Some {| flag := flag s; tasks := <[t := start o]> (tasks s); returned := returned s |}
  | Call _, _ => None
  | Sched c, k =>
      '(f, r) ← task_step t k c (flag s);
      Some match r with
           | inl k' => {| flag := f; tasks := <[t := k']> (tasks s); returned := returned s |}
           | inr o => {| flag := f; tasks := <[t := Idle]> (tasks s);
                         returned := returned s ++ [(t, o)] |}
           end
  end.

Fixpoint run (s : system) (es : list (nat * event)) : option system :=
  match es with
  | [] => Some s
  | e :: es' => s' ← step s e; run s' es'
  end.

Definition reachable (s : system) : Prop := ∃ es, run initial es = Some s.

(** ** The invariant *)

Implicit Types (f : ReadinessFlag) (k : task) (s : system) (t u : nat).

(** The calls that hold the token lock. *)
Definition is_ready_holds (p : is_ready_pc) : bool :=
  match p with IrIsEmpty | IrSwap | IrDrop _ => true | _ => false end.

Definition holds (k : task) : bool :=
  match k with
  | TIsReady p | TWaitReady (WaIsReady p) => is_ready_holds p
  | TSubscribe (SuRecheck | SuInsert | SuDrop _) => true
  | TMarkReady _ (MaRemove | MaStore | MaClear | MaDrop _) => true
  | _ => false
  end.

(** The calls that have made the flag ready and have yet to broadcast it. *)
Definition is_ready_sends (p : is_ready_pc) : bool :=
  match p with IrDrop false | IrSend => true | _ => false end.

Definition sends (k : task) : bool :=
  match k with
  | TIsReady p | TWaitReady (WaIsReady p) => is_ready_sends p
  | TMarkReady _ (MaClear | MaDrop true | MaSend) => true
  | _ => false
  end.

(** Those of them that will return [Ok(true)] from [mark_ready]. *)
Definition marking (k : task) : bool :=
  match k with TMarkReady _ p => sends k | _ => false end.

(** The receiver of a call that waits for the channel. *)
Definition receiver (k : task) : option R :=
  match k with
  | TWaitReady (WaBorrow rx | WaChanged rx | WaReborrow rx) => Some rx
  | _ => None
  end.

(** What a call knows about the flag at its program counter. *)
Definition knows (k : task) (f : ReadinessFlag) : Prop :=
  match k with
  | TIsReady IrSwap | TWaitReady (WaIsReady IrSwap) => tokens f = ∅
  | TSubscribe SuInsert | TMarkReady _ MaStore => ready f = false
  | TWaitReady (WaBorrow rx | WaReborrow rx) => live (tx f) rx
  | TWaitReady (WaChanged rx) =>
      live (tx f) rx ∧ (watch_value (tx f) = true → notified (tx f) rx)
  | _ => True
  end.

Definition local (t : nat) (k : task) (f : ReadinessFlag) : Prop :=
  (holds k = true ↔ tokens_lock f = Some t) ∧
  (sends k = true → ready f = true) ∧
  knows k f.

(** What a step of another task may do to the flag, as seen by a task that may have a
    receiver. *)
Definition rely (u : nat) (o : option R) (f f' : ReadinessFlag) : Prop :=
  (tokens_lock f = Some u →
     tokens_lock f' = Some u ∧ tokens f' = tokens f ∧ ready f' = ready f) ∧
  (tokens_lock f' = Some u → tokens_lock f = Some u) ∧
  (ready f = true → ready f' = true) ∧
  (∀ rx, o = Some rx → live (tx f) rx →
     live (tx f') rx ∧ (notified (tx f) rx → notified (tx f') rx) ∧
     (watch_value (tx f') = true → watch_value (tx f) = true ∨ notified (tx f') rx)).

(** Case analysis on the program counter of a task. *)
Ltac destruct_task k :=
  let p := fresh "p" in
  destruct k as [|p|p|? p|p]; [| | | |]; try (destruct p; try match goal with q : is_ready_pc |- _ => destruct q end).

Lemma local_stable u k f f' : local u k f → rely u (receiver k) f f' → local u k f'.
Proof.
  intros (Hl & Hs & Hk) (R1 & R2 & R3 & R4). split_and!.
  - split; [intros H%Hl; by apply R1|]. intros H. by apply Hl, R2.
  - auto.
  - destruct_task k; simpl in *; try done;
      try (destruct (R1 (proj1 Hl eq_refl)) as (_ & H2 & H3); congruence);
      specialize (R4 _ eq_refl); naive_solver.
Qed.

Context `{!WatchLaws W R}.

Lemma send_rely v f u o : rely u o f (set_tx (watch_send v (tx f)) f).
Proof.
  split_and!; simpl; [done..|]. intros rx -> Hlive. unfold live. rewrite send_receivers.
  pose proof (send_notifies v _ _ Hlive). naive_solver.
Qed.

Lemma subscribe_rely f u o : rely u o f (set_tx (watch_subscribe (tx f)).1 f).
Proof.
  split_and!; simpl; [done..|]. intros rx -> Hlive.
  pose proof (subscribe_others _ _ Hlive). unfold live in *.
  rewrite subscribe_receivers, subscribe_value. set_solver.
Qed.

Lemma drop_rely f u o rx :
  (∀ r, o = Some r → watch_id r ≠ watch_id rx) →
  rely u o f (set_tx (watch_drop rx (tx f)) f).
Proof.
  intros Ho. split_and!; simpl; [done..|]. intros r Hr Hlive. specialize (Ho _ Hr).
  pose proof (drop_others (tx f) _ _ Ho). unfold live in *.
  rewrite drop_receivers, drop_value. set_solver.
Qed.

Lemma changed_rely f u o rx w :
  watch_changed rx (tx f) = Some w → (∀ r, o = Some r → watch_id r ≠ watch_id rx) →
  rely u o f (set_tx w f).
Proof.
  intros Hc Ho. split_and!; simpl; [done..|]. intros r Hr Hlive. specialize (Ho _ Hr).
  pose proof (changed_others _ _ _ _ Hc Ho). unfold live in *.
  rewrite (changed_receivers _ _ _ Hc), (changed_value _ _ _ Hc). naive_solver.
Qed.

(** A task that holds the lock, takes it or frees it disturbs no other. *)
Lemma lock_rely t f f' u o :
  u ≠ t → tx f' = tx f → (ready f = true → ready f' = true) →
  tokens_lock f = Some t ∨ tokens f' = tokens f ∧ ready f' = ready f →
  tokens_lock f = None ∨ tokens_lock f = Some t ∨ tokens_lock f' = tokens_lock f →
  tokens_lock f' = None ∨ tokens_lock f' = Some t ∨ tokens_lock f' = tokens_lock f →
  rely u o f f'.
Proof.
  intros ? Htx ? Hd Hl Hl'. split_and!.
  - intros Hu. destruct Hl as [|[|]], Hd as [|[]]; split_and!; congruence.
  - intros Hu. destruct Hl' as [|[|]]; congruence.
  - done.
  - intros rx _ Hlive. rewrite Htx. auto.
Qed.

(** A step disturbs the other tasks no more than they rely on. *)
Lemma task_step_rely t k c f f' r u o :
  task_step t k c f = Some (f', r) → local t k f → u ≠ t →
  (∀ rx rx', o = Some rx → receiver k = Some rx' → watch_id rx ≠ watch_id rx') →
  rely u o f f'.
Proof.
  intros Hstep (Hl & _ & _) Hut Hrx.
  destruct_task k; destruct c; simplify_eq/=; repeat case_match; simplify_eq/=;
    try pose proof (proj1 Hl eq_refl); clear Hl;
    try (apply (lock_rely t); simpl; by auto 6);
    try (apply send_rely); try (apply drop_rely; by intros; apply Hrx);
    try (eapply changed_rely; [done|by intros; apply Hrx]).
  match goal with H : watch_subscribe _ = (?w, _) |- _ =>
    replace w with (watch_subscribe (tx f)).1 by (by rewrite H) end.
  apply subscribe_rely.
Qed.

Lemma subscribe_live w w' rx : watch_subscribe w = (w', rx) → live w' rx.
Proof.
  intros H. unfold live. replace w' with (watch_subscribe w).1 by (by rewrite H).
  rewrite subscribe_receivers, H. set_solver.
Qed.

(** A task that has returned is idle. *)
Definition next_task (r : task + outcome) : task :=
  match r with inl k => k | inr _ => Idle end.

(** A step keeps what the task knows. *)
Lemma task_step_local t k c f f' r :
  task_step t k c f = Some (f', r) → local t k f →
  (∀ token, k = TMarkReady token MaRemove → token ∈ tokens f → ready f = false) →
  local t (next_task r) f'.
Proof.
  intros Hstep (Hl & Hs & Hk) Hremove. unfold local.
  destruct_task k; destruct c; simplify_eq/=; repeat case_match; simplify_eq/=;
    first [pose proof (proj1 Hl eq_refl) | pose proof (λ H, Bool.diff_false_true (proj2 Hl H))];
    clear Hl; split_and!; try split; try done; try tauto; try congruence;
    try (by eapply subscribe_live).
  - by eapply Hremove.
  - rewrite <- (borrow_value _ rx) by done; congruence.
  - unfold live. erewrite changed_receivers by done. by destruct Hk.
  - rewrite <- (borrow_value _ rx) by done; congruence.
Qed.

(** ** What a step changes *)

Lemma task_step_tokens t k c f f' r :
  task_step t k c f = Some (f', r) → local t k f → ready f' = true →
  tokens f' = ∅ ∨
  (∃ token, next_task r = TMarkReady token MaClear) ∨
  (ready f = true ∧ tokens f' ⊆ tokens f ∧ ∀ token, k ≠ TMarkReady token MaClear).
Proof.
  intros Hstep (_ & _ & Hk) Hr.
  destruct_task k; destruct c; simplify_eq/=; repeat case_match; simplify_eq/=;
    try congruence; first [by left | by right; left; eexists | right; right; split_and!; done || set_solver].
Qed.

Lemma task_step_value t k c f f' r :
  task_step t k c f = Some (f', r) → watch_value (tx f') = true →
  watch_value (tx f) = true ∨ sends k = true.
Proof.
  intros Hstep Hv.
  destruct_task k; destruct c; simplify_eq/=; repeat case_match; simplify_eq/=; auto;
    rewrite ?drop_value in Hv; auto.
  - match goal with H : watch_subscribe _ = (?w, _) |- _ =>
      replace w with (watch_subscribe (tx f)).1 in Hv by (by rewrite H) end.
    rewrite subscribe_value in Hv. auto.
  - match goal with H : watch_changed _ _ = _ |- _ => rewrite (changed_value _ _ _ H) in Hv end.
    auto.
Qed.

Lemma task_step_ready t k c f f' r :
  task_step t k c f = Some (f', r) → ready f = true → ready f' = true.
Proof.
  intros Hstep Hr. destruct_task k; destruct c; simplify_eq/=; repeat case_match; by simplify_eq/=.
Qed.

Lemma task_step_marking t k c f f' r :
  task_step t k c f = Some (f', r) → local t k f → marking (next_task r) = true →
  marking k = true ∨ ready f = false.
Proof.
  intros Hstep (_ & _ & Hk) Hm.
  destruct_task k; destruct c; simplify_eq/=; repeat case_match; simplify_eq/=; auto.
Qed.

Lemma task_step_marked t k c f f' :
  task_step t k c f = Some (f', inr (RMarkReady (Ok true))) → marking k = true.
Proof.
  intros Hstep. destruct_task k; destruct c; simplify_eq/=; repeat case_match; by simplify_eq/=.
Qed.

(** ** Drawing a token *)

(** The value of the counter after [i] increments. *)
Definition i32_after (n : Z) (i : nat) : Z := (n + Z.of_nat i - I32_MIN) `mod` 4294967296 + I32_MIN.

Lemma i32_after_ok n i : i32_ok (i32_after n i).
Proof.
  unfold i32_ok, i32_after, I32_MIN, I32_MAX.
  pose proof (Z.mod_pos_bound (n + Z.of_nat i - -2147483648) 4294967296). lia.
Qed.

Lemma i32_after_0 n : i32_ok n → i32_after n 0 = n.
Proof. unfold i32_ok, i32_after, I32_MIN, I32_MAX. intros. rewrite Z.mod_small; lia. Qed.

Lemma i32_after_S n i : i32_ok n → i32_after (i32_wrapping_succ n) i = i32_after n (S i).
Proof.
  unfold i32_ok, i32_after, i32_wrapping_succ, I32_MIN, I32_MAX. intros. case_decide; [|f_equal; f_equal; lia].
  subst. f_equal.
  replace (2147483647 + Z.of_nat (S i) - -2147483648) with (Z.of_nat i + 1 * 4294967296) by lia.
  rewrite Z.mod_add by lia. f_equal. lia.
Qed.

Lemma i32_wrapping_succ_ok n : i32_ok n → i32_ok (i32_wrapping_succ n).
Proof. unfold i32_ok, i32_wrapping_succ, I32_MIN, I32_MAX. case_decide; lia. Qed.

Lemma i32_after_inj n i j :
  Z.of_nat i < 4294967296 → Z.of_nat j < 4294967296 → i32_after n i = i32_after n j → i = j.
Proof.
  unfold i32_after. intros Hi Hj H.
  assert ((n + Z.of_nat i - I32_MIN) `mod` 4294967296 = (n + Z.of_nat j - I32_MIN) `mod` 4294967296) as E by lia.
  pose proof (Z.div_mod (n + Z.of_nat i - I32_MIN) 4294967296).
  pose proof (Z.div_mod (n + Z.of_nat j - I32_MIN) 4294967296). lia.
Qed.

Lemma draw_token_Some rounds n ts token n' :
  i32_ok n → draw_token rounds n ts = Some (token, n') →
  token ≠ 0 ∧ (token ∉ ts) ∧ i32_ok token ∧ i32_ok n'.
Proof.
  revert n. induction rounds as [|rounds IH]; intros n Hn; [done|]. simpl. case_decide as Hd.
  - intros [= <- <-]. destruct Hd. auto using i32_wrapping_succ_ok.
  - apply IH. by apply i32_wrapping_succ_ok.
Qed.

Lemma draw_token_None rounds n ts :
  i32_ok n → draw_token rounds n ts = None →
  ∀ i, (i < rounds)%nat → i32_after n i ∈ ({[ 0 ]} ∪ ts : gset Z).
Proof.
  revert n. induction rounds as [|rounds IH]; intros n Hn Hd i Hi; [lia|]. simpl in Hd.
  case_decide as Hc; [done|]. destruct i as [|i].
  - rewrite i32_after_0 by done. apply elem_of_union.
    destruct (decide (n = 0)) as [->|]; [left; set_solver|].
    right. apply dec_stable. tauto.
  - rewrite <- i32_after_S by done. apply IH; [|done|lia]. by apply i32_wrapping_succ_ok.
Qed.

(** The counter passes at most one round over the tokens in use and zero. *)
Lemma draw_token_total n ts :
  i32_ok n → Z.of_nat (size ts) < 4294967295 → is_Some (draw_token (size ts + 2) n ts).
Proof.
  intros Hn Hsize. destruct (draw_token _ _ _) eqn:Hd; [done|]. exfalso.
  pose proof (draw_token_None _ _ _ Hn Hd) as Hall.
  set (l := i32_after n <$> seq 0 (size ts + 2)).
  assert (NoDup l) as Hnd.
  { apply NoDup_fmap_2_strong; [|apply NoDup_seq].
    intros i j Hi%elem_of_seq Hj%elem_of_seq H. apply i32_after_inj in H; lia. }
  assert (list_to_set l ⊆ ({[ 0 ]} ∪ ts : gset Z)) as Hsub.
  { intros x. rewrite elem_of_list_to_set. intros (i & -> & Hi%elem_of_seq)%list_elem_of_fmap.
    apply Hall. lia. }
  apply subseteq_size in Hsub. rewrite size_list_to_set in Hsub by done.
  unfold l in Hsub. rewrite length_fmap, length_seq in Hsub.
  pose proof (size_union_alt ({[ 0 ]} : gset Z) ts) as Hu. rewrite size_singleton in Hu.
  assert (size (ts ∖ {[ 0%Z ]} : gset Z) ≤ size ts)%nat by (apply subseteq_size; set_solver). lia.
Qed.

(** ** Every run *)

(** The calls of [mark_ready] that have returned [Ok(true)]. *)
Definition is_mark (o : outcome) : bool :=
  match o with RMarkReady (Ok true) => true | _ => false end.

Definition marks (s : system) : list (nat * outcome) :=
  filter (λ o, is_mark o.2 = true) (returned s).

Record sys_inv (s : system) : Prop := {
  inv_local t : local t (task_of s t) (flag s);
  inv_distinct t u rx rx' :
    t ≠ u → receiver (task_of s t) = Some rx → receiver (task_of s u) = Some rx' →
    watch_id rx ≠ watch_id rx';
  inv_tokens :
    ready (flag s) = true →
    tokens (flag s) = ∅ ∨ ∃ t token, task_of s t = TMarkReady token MaClear;
  inv_value : watch_value (tx (flag s)) = true → ready (flag s) = true;
  inv_next_id : i32_ok (next_id (flag s));
  inv_token_ids token : token ∈ tokens (flag s) → token ≠ 0 ∧ i32_ok token;
  inv_marking t u :
    marking (task_of s t) = true → marking (task_of s u) = true → t = u;
  inv_marking_marks t : marking (task_of s t) = true → marks s = [];
  inv_marks : (length (marks s) ≤ 1)%nat;
  inv_marks_ready : marks s ≠ [] → ready (flag s) = true }.

(** A step is the start of a call or a step of a call. *)
Inductive step_kind (s s' : system) (t : nat) : event → Prop :=
| step_call o :
    task_of s t = Idle → flag s' = flag s → task_of s' t = start o →
    returned s' = returned s → step_kind s s' t (Call o)
| step_sched c r :
    task_step t (task_of s t) c (flag s) = Some (flag s', r) →
    task_of s' t = next_task r →
    returned s' = returned s ++ (match r with inl _ => [] | inr o => [(t, o)] end) →
    step_kind s s' t (Sched c).

Lemma step_inv s s' t e :
  step s (t, e) = Some s' →
  step_kind s s' t e ∧ ∀ u, u ≠ t → task_of s' u = task_of s u.
Proof.
  unfold step. destruct e as [o|c].
  - destruct (task_of s t) eqn:Ht; try done. intros [= <-]. split.
    + apply step_call; try done. unfold task_of. simpl. by rewrite lookup_insert_eq.
    + intros u Hu. unfold task_of. simpl. by rewrite lookup_insert_ne.
  - intros ([f r] & Hstep & [= <-])%bind_Some. split.
    + destruct r as [k'|o]; econstructor; simpl; try done; unfold task_of; simpl;
        rewrite ?lookup_insert_eq, ?app_nil_r; done.
    + intros u Hu. unfold task_of. destruct r; simpl; by rewrite lookup_insert_ne.
Qed.

Lemma task_of_initial t : task_of initial t = Idle.
Proof. unfold task_of. simpl. by rewrite lookup_empty. Qed.

Lemma new_spec :
  ready new = false ∧ next_id new = 1 ∧ tokens_lock new = None ∧ tokens new = ∅ ∧
  watch_value (tx new) = false ∧ watch_receivers (tx new) = ∅.
Proof.
  unfold new. pose proof (channel_value false) as Hv. pose proof (channel_receivers false) as Hr.
  destruct (watch_channel false) as [w rx]; simpl in *. rewrite drop_value, drop_receivers.
  split_and!; try done. set_solver.
Qed.

Lemma sys_inv_initial : sys_inv initial.
Proof.
  destruct new_spec as (Hr & Hn & Hl & Ht & Hv & _).
  split; intros *; rewrite ?task_of_initial; simpl; try done.
  - unfold local. simpl. rewrite Hl. naive_solver.
  - by rewrite Hr.
  - by rewrite Hv.
  - by rewrite Hn.
  - rewrite Ht. set_solver.
  - lia.
Qed.

Lemma task_step_ids t k c f f' r :
  task_step t k c f = Some (f', r) → i32_ok (next_id f) →
  (∀ token, token ∈ tokens f → token ≠ 0 ∧ i32_ok token) →
  i32_ok (next_id f') ∧ ∀ token, token ∈ tokens f' → token ≠ 0 ∧ i32_ok token.
Proof.
  intros Hstep Hn Ht.
  destruct_task k; destruct c; simplify_eq/=; repeat case_match; simplify_eq/=;
    try (by auto); try (split; [done|]; set_solver).
  - match goal with H : draw_token _ _ _ = _ |- _ =>
      apply draw_token_Some in H as (? & ? & ? & ?); [|done] end.
    split; [done|]. intros token [->%elem_of_singleton|?]%elem_of_union; auto.
  - split; [done|]. intros token' [? _]%elem_of_difference; auto.
Qed.

Lemma marks_step s s' t e :
  step_kind s s' t e →
  marks s' = marks s ∨
  marking (task_of s t) = true ∧ task_of s' t = Idle ∧ ∃ o, marks s' = marks s ++ [o].
Proof.
  unfold marks. intros [o _ _ _ Hret|c [k|o] Hstep Ht Hret]; rewrite Hret; [auto| |].
  { rewrite app_nil_r. auto. }
  rewrite filter_app, filter_cons, filter_nil. simpl. case_decide as Hd; [|rewrite app_nil_r; auto].
  right. destruct o as [|?|[[]| |]|]; simplify_eq/=. apply task_step_marked in Hstep. eauto.
Qed.

(** A task that removes its token finds the flag not ready. *)
Lemma inv_remove s t token :
  sys_inv s → task_of s t = TMarkReady token MaRemove → token ∈ tokens (flag s) →
  ready (flag s) = false.
Proof.
  intros Hs Ht Htok. apply not_true_is_false. intros Hr.
  destruct (inv_tokens s Hs Hr) as [He|(u & token' & Hu)]; [set_solver|].
  destruct (inv_local s Hs t) as [[Hl _] _], (inv_local s Hs u) as [[Hl' _] _].
  rewrite Ht in Hl. rewrite Hu in Hl'. specialize (Hl eq_refl). specialize (Hl' eq_refl).
  assert (t = u) by congruence. congruence.
Qed.

Lemma step_local s s' t e :
  sys_inv s → step_kind s s' t e → local t (task_of s' t) (flag s').
Proof.
  intros Hs Hk. pose proof (inv_local s Hs t) as Hl. destruct Hk as [o Hi Hf Ht _|c r Hstep Ht _].
  - rewrite Ht, Hf. rewrite Hi in Hl. destruct Hl as ([_ Hl] & _ & _). unfold local. simpl in Hl.
    destruct o; simpl; split_and!; try done; split; try done; intros H; by apply Hl in H.
  - rewrite Ht. eapply task_step_local; [done..|]. intros token Hk. by apply (inv_remove s t).
Qed.

Lemma step_rely s s' t e u :
  sys_inv s → step_kind s s' t e → u ≠ t → rely u (receiver (task_of s u)) (flag s) (flag s').
Proof.
  intros Hs Hk Hut. destruct Hk as [o Hi Hf Ht _|c r Hstep Ht _].
  - rewrite Hf. apply (lock_rely t); auto.
  - eapply task_step_rely; [done|apply inv_local, Hs|done|].
    intros rx rx' Hu Ht'. by apply (inv_distinct s Hs u t).
Qed.

Lemma task_step_receiver t k c f f' r rx' :
  task_step t k c f = Some (f', r) → receiver (next_task r) = Some rx' →
  (∃ rx, receiver k = Some rx ∧ watch_id rx' = watch_id rx) ∨
  watch_id rx' ∉ watch_receivers (tx f).
Proof.
  intros Hstep Hr.
  destruct_task k; destruct c; simplify_eq/=; repeat case_match; simplify_eq/=; eauto.
  right. pose proof (subscribe_fresh (tx f)) as Hf.
  match goal with H : watch_subscribe _ = _ |- _ => by rewrite H in Hf end.
Qed.

(** The receiver of a task is live. *)
Lemma receiver_live t k f rx : local t k f → receiver k = Some rx → live (tx f) rx.
Proof.
  intros (_ & _ & Hk) Hr. destruct_task k; simplify_eq/=; done || by destruct Hk.
Qed.

Lemma step_distinct s s' t e u rx rx' :
  sys_inv s → step_kind s s' t e → u ≠ t →
  receiver (task_of s' t) = Some rx → receiver (task_of s u) = Some rx' →
  watch_id rx ≠ watch_id rx'.
Proof.
  intros Hs Hk Hut Hrx Hrx'. destruct Hk as [o Hi Hf Ht _|c r Hstep Ht _]; rewrite Ht in Hrx.
  { by destruct o. }
  pose proof (receiver_live u _ _ _ (inv_local s Hs u) Hrx') as Hlive.
  destruct (task_step_receiver _ _ _ _ _ _ _ Hstep Hrx) as [(rx0 & Hrx0 & ->)|Hfresh].
  - by eapply (inv_distinct s Hs t u).
  - intros Heq. apply Hfresh. by rewrite Heq.
Qed.

Lemma step_ready s s' t e : step_kind s s' t e → ready (flag s) = true → ready (flag s') = true.
Proof.
  intros [o _ Hf _ _|c r Hstep _ _] Hr; [by rewrite Hf|]. by eapply task_step_ready.
Qed.

Lemma step_marking s s' t e :
  sys_inv s → step_kind s s' t e → marking (task_of s' t) = true →
  marking (task_of s t) = true ∨ ready (flag s) = false.
Proof.
  intros Hs [o _ _ Ht _|c r Hstep Ht _] Hm; rewrite Ht in Hm; [by destruct o|].
  eapply task_step_marking; [done|apply inv_local, Hs|done].
Qed.

(** A task that is marking, or a mark, means that the flag is ready. *)
Lemma marking_ready s t : sys_inv s → marking (task_of s t) = true → ready (flag s) = true.
Proof.
  intros Hs Hm. destruct (inv_local s Hs t) as (_ & Hsend & _). apply Hsend.
  by destruct (task_of s t).
Qed.

Lemma step_tokens s s' t e :
  sys_inv s → step_kind s s' t e → (∀ u, u ≠ t → task_of s' u = task_of s u) →
  ready (flag s') = true →
  tokens (flag s') = ∅ ∨ ∃ u token, task_of s' u = TMarkReady token MaClear.
Proof.
  intros Hs [o Hi Hf Ht _|c r Hstep Ht _] Hu Hr.
  - rewrite Hf in *. destruct (inv_tokens s Hs Hr) as [|(u & token & Hm)]; [auto|].
    right. exists u, token. rewrite Hu; [done|]. congruence.
  - destruct (task_step_tokens _ _ _ _ _ _ Hstep (inv_local s Hs t) Hr)
      as [?|[[token Hm]|(Hr' & Hsub & Hk)]]; [auto|right; exists t, token; congruence|].
    destruct (inv_tokens s Hs Hr') as [He|(u & token & Hm)]; [left; set_solver|].
    right. exists u, token. rewrite Hu; [done|]. intros ->. by apply (Hk token).
Qed.

Lemma step_value s s' t e :
  sys_inv s → step_kind s s' t e → watch_value (tx (flag s')) = true → ready (flag s') = true.
Proof.
  intros Hs Hk Hv. eapply step_ready; [done|]. destruct Hk as [o Hi Hf Ht _|c r Hstep Ht _].
  - rewrite Hf in Hv. by apply (inv_value s Hs).
  - destruct (task_step_value _ _ _ _ _ _ Hstep Hv) as [?|Hsend]; [by apply (inv_value s Hs)|].
    by apply (inv_local s Hs t).
Qed.

Lemma step_ids s s' t e :
  sys_inv s → step_kind s s' t e →
  i32_ok (next_id (flag s')) ∧ ∀ token, token ∈ tokens (flag s') → token ≠ 0 ∧ i32_ok token.
Proof.
  intros Hs [o _ Hf _ _|c r Hstep _ _].
  - rewrite Hf. split; [apply Hs|apply (inv_token_ids s Hs)].
  - eapply task_step_ids; [done|apply Hs|apply (inv_token_ids s Hs)].
Qed.

(** At most one call marks the flag ready, whichever way the tasks are interleaved. *)
Lemma step_marks s s' t e :
  sys_inv s → step_kind s s' t e → (∀ u, u ≠ t → task_of s' u = task_of s u) →
  (∀ u u', marking (task_of s' u) = true → marking (task_of s' u') = true → u = u') ∧
  (∀ u, marking (task_of s' u) = true → marks s' = []) ∧
  (length (marks s') ≤ 1)%nat ∧
  (marks s' ≠ [] → ready (flag s') = true).
Proof.
  intros Hs Hk Hu.
  assert (∀ u, marking (task_of s' u) = true →
    marking (task_of s u) = true ∨ u = t ∧ ready (flag s) = false) as Hm.
  { intros u Hm. destruct (decide (u = t)) as [->|]; [|rewrite Hu in Hm; auto].
    destruct (step_marking _ _ _ _ Hs Hk Hm); auto. }
  pose proof (marking_ready s) as Hmr. pose proof (inv_marking s Hs) as H1.
  pose proof (inv_marking_marks s Hs) as H2. pose proof (inv_marks_ready s Hs) as H3.
  pose proof (inv_marks s Hs) as H4. pose proof (step_ready _ _ _ _ Hk) as H5.
  assert (∀ u, marking (task_of s' u) = true → marks s = []) as H6.
  { intros u [?|[_ ?]]%Hm; [eauto|]. apply dec_stable. intros ?%H3. congruence. }
  split_and!.
  - intros u u' [?|[-> ?]]%Hm [?|[-> ?]]%Hm; eauto; exfalso.
    + apply (Hmr u) in Hs; [congruence|done].
    + apply (Hmr u') in Hs; [congruence|done].
  - intros u Hmu. destruct (marks_step _ _ _ _ Hk) as [->|(Ht & Hidle & _)]; [eauto|].
    destruct (decide (u = t)) as [->|]; [by rewrite Hidle in Hmu|].
    rewrite Hu in Hmu by done. by destruct (H1 _ _ Hmu Ht).
  - destruct (marks_step _ _ _ _ Hk) as [->|(Ht & _ & o & ->)]; [done|]. by rewrite (H2 t).
  - destruct (marks_step _ _ _ _ Hk) as [->|(Ht & _ & o & ->)]; [auto|]. intros _. eauto.
Qed.

Lemma sys_inv_step s s' t e : sys_inv s → step s (t, e) = Some s' → sys_inv s'.
Proof.
  intros Hs [Hk Hu]%step_inv.
  pose proof (step_marks _ _ _ _ Hs Hk Hu) as (? & ? & ? & ?).
  pose proof (step_ids _ _ _ _ Hs Hk) as (? & ?).
  split; eauto using step_tokens, step_value.
  - intros u. destruct (decide (u = t)) as [->|Hut]; [by eapply step_local|].
    rewrite Hu by done. eapply local_stable; [apply inv_local, Hs|]. by eapply step_rely.
  - intros u u' rx rx' Huu. destruct (decide (u = t)) as [->|Hut].
    { rewrite (Hu u') by done. by eapply step_distinct. }
    rewrite (Hu u) by done. destruct (decide (u' = t)) as [->|Hut'].
    { intros ??. apply not_eq_sym. by eapply step_distinct. }
    rewrite (Hu u') by done. by apply inv_distinct.
Qed.

Lemma sys_inv_run s es s' : sys_inv s → run s es = Some s' → sys_inv s'.
Proof.
  revert s. induction es as [|[t e] es IH]; intros s Hs; simpl; [by intros [= <-]|].
  intros (s1 & Hstep & Hrun)%bind_Some. eauto using sys_inv_step.
Qed.

Lemma sys_inv_reachable s : reachable s → sys_inv s.
Proof. intros [es Hrun]. eauto using sys_inv_run, sys_inv_initial. Qed.

(** ** Waiting *)

Lemma task_step_value_mono t k c f f' r :
  task_step t k c f = Some (f', r) → watch_value (tx f) = true → watch_value (tx f') = true.
Proof.
  intros Hstep Hv.
  assert (watch_value (watch_send true (tx f)) = true) as Hsend.
  { destruct (decide (watch_receivers (tx f) = ∅)); [by rewrite send_no_receiver|].
    by apply send_delivers. }
  destruct_task k; destruct c; simplify_eq/=; repeat case_match; simplify_eq/=;
    rewrite ?drop_value; try done.
  - match goal with H : watch_subscribe _ = (?w, _) |- _ =>
      replace w with (watch_subscribe (tx f)).1 by (by rewrite H) end.
    by rewrite subscribe_value.
  - match goal with H : watch_changed _ _ = _ |- _ => by rewrite (changed_value _ _ _ H) end.
Qed.

(** Who makes the flag ready will send, and who has sent has reached the receivers. *)
Lemma task_step_sends t k c f f' r :
  task_step t k c f = Some (f', r) → ready f = false → ready f' = true →
  sends (next_task r) = true.
Proof.
  intros Hstep Hr Hr'. destruct_task k; destruct c; simplify_eq/=; repeat case_match; simplify_eq/=;
    congruence || by rewrite Hr.
Qed.

Lemma task_step_sent t k c f f' r :
  task_step t k c f = Some (f', r) → sends k = true → watch_receivers (tx f) ≠ ∅ →
  sends (next_task r) = true ∨ watch_value (tx f') = true.
Proof.
  intros Hstep Hs Hw. pose proof (send_delivers true _ Hw).
  destruct_task k; destruct c; simplify_eq/=; repeat case_match; simplify_eq/=; auto.
Qed.

(** The steps that a call has left once the channel holds [true]. *)
Definition steps_left (k : task) : nat :=
  match k with
  | TWaitReady (WaBorrow _ | WaReborrow _) => 1
  | TWaitReady (WaChanged _) => 2
  | _ => 0
  end.

Lemma task_step_waits t k c f f' r :
  task_step t k c f = Some (f', r) → c ≠ Cancel → is_Some (receiver k) →
  r = inr RWaitReady ∨ is_Some (receiver (next_task r)).
Proof.
  intros Hstep Hc [rx Hrx].
  destruct_task k; destruct c; simplify_eq/=; repeat case_match; simplify_eq/=; eauto.
Qed.

Lemma task_step_returns t k f f' r :
  task_step t k Go f = Some (f', r) → local t k f → is_Some (receiver k) →
  watch_value (tx f) = true →
  r = inr RWaitReady ∨ (steps_left (next_task r) < steps_left k)%nat.
Proof.
  intros Hstep Hl [rx Hrx] Hv.
  pose proof (receiver_live _ _ _ _ Hl Hrx) as Hlive. pose proof (borrow_value _ _ Hlive) as Hb.
  destruct_task k; simplify_eq/=; repeat case_match; simplify_eq/=; auto; congruence.
Qed.

Lemma task_step_enabled t k f :
  local t k f → is_Some (receiver k) → watch_value (tx f) = true → is_Some (task_step t k Go f).
Proof.
  intros (_ & _ & Hk) [rx Hrx] Hv. destruct_task k; simplify_eq/=; repeat case_match; eauto.
  destruct Hk as [_ [w Hn]]; [done|]. congruence.
Qed.

Lemma steps_left_receiver k : is_Some (receiver k) → (0 < steps_left k ≤ 2)%nat.
Proof. intros [rx Hrx]. destruct_task k; simplify_eq/=; lia. Qed.

(** A call of [wait_ready] by [t] has returned between two systems. *)
Definition wait_returned (t : nat) (s s' : system) : Prop :=
  ∃ l, returned s' = returned s ++ l ∧ (t, RWaitReady) ∈ l.

Lemma step_kind_returned s0 s s' t u e l :
  step_kind s s' u e → returned s = returned s0 ++ l → (t, RWaitReady) ∈ l →
  wait_returned t s0 s'.
Proof.
  intros [o _ _ _ Hr|c r _ _ Hr] Hl Hin.
  - exists l. by rewrite Hr.
  - eexists (l ++ _). rewrite Hr, Hl, (assoc_L (++)). split; [done|]. set_solver.
Qed.

(** How often a run lets a task go on. *)
Definition turns (t : nat) (es : list (nat * event)) : nat :=
  length (filter (λ e, match e.2 with Sched Go => bool_decide (e.1 = t) | _ => false end = true) es).

(** Either the wait is over, or the task has a receiver and, if the flag is ready, the
    channel holds [true] or some task is about to send it. *)
Definition notify_inv (t : nat) (s0 s : system) : Prop :=
  wait_returned t s0 s ∨
  (∃ l, returned s = returned s0 ++ l) ∧ is_Some (receiver (task_of s t)) ∧
  (ready (flag s) = true →
   watch_value (tx (flag s)) = true ∨ ∃ u, sends (task_of s u) = true).

(** Either the wait is over, or at most [n] steps of the task away. *)
Definition settle_inv (t : nat) (s0 : system) (n : nat) (s : system) : Prop :=
  wait_returned t s0 s ∨
  (∃ l, returned s = returned s0 ++ l) ∧ is_Some (receiver (task_of s t)) ∧
  watch_value (tx (flag s)) = true ∧ (steps_left (task_of s t) ≤ n)%nat.

Lemma step_kind_prefix s0 s s' u e :
  step_kind s s' u e → (∃ l, returned s = returned s0 ++ l) → ∃ l, returned s' = returned s0 ++ l.
Proof.
  intros [o _ _ _ Hr|c r _ _ Hr] [l Hl]; rewrite Hr, Hl; [eauto|].
  eexists. by rewrite <- (assoc_L (++)).
Qed.

(** The step of any task keeps the receiver of a task that is not dropped, unless its
    wait is over. *)
Lemma step_receiver s0 s s' t u e :
  step_kind s s' u e → (∀ v, v ≠ u → task_of s' v = task_of s v) →
  (u, e) ≠ (t, Sched Cancel) → (∃ l, returned s = returned s0 ++ l) →
  is_Some (receiver (task_of s t)) →
  wait_returned t s0 s' ∨ is_Some (receiver (task_of s' t)).
Proof.
  intros Hk Hu Hc [l Hl] Hrx. destruct (decide (t = u)) as [<-|]; [|rewrite Hu; auto].
  destruct Hk as [o Hi _ _ _|c r Hstep Ht Hr]; [rewrite Hi in Hrx; by destruct Hrx|].
  destruct (task_step_waits _ _ _ _ _ _ Hstep) as [->|?]; [congruence|done| |rewrite Ht; auto].
  left. exists (l ++ [(t, RWaitReady)]). rewrite Hr, Hl, (assoc_L (++)). split; [done|]. set_solver.
Qed.

Lemma step_value_mono s s' u e :
  step_kind s s' u e → watch_value (tx (flag s)) = true → watch_value (tx (flag s')) = true.
Proof.
  intros [o _ Hf _ _|c r Hstep _ _] Hv; [by rewrite Hf|]. by eapply task_step_value_mono.
Qed.

(** A flag that becomes ready is about to be broadcast, and a broadcast arrives. *)
Lemma step_sends s s' t u e :
  sys_inv s → step_kind s s' u e → (∀ v, v ≠ u → task_of s' v = task_of s v) →
  is_Some (receiver (task_of s t)) →
  (ready (flag s) = true →
   watch_value (tx (flag s)) = true ∨ ∃ v, sends (task_of s v) = true) →
  ready (flag s') = true →
  watch_value (tx (flag s')) = true ∨ ∃ v, sends (task_of s' v) = true.
Proof.
  intros Hs Hk Hu [rx Hrx] Hn Hr'. pose proof (step_value_mono _ _ _ _ Hk) as Hmono.
  pose proof (receiver_live _ _ _ _ (inv_local s Hs t) Hrx) as Hlive.
  destruct Hk as [o Hi Hf Ht _|c r Hstep Ht _].
  { rewrite Hf in Hr'. destruct (Hn Hr') as [?|[v Hv]]; [auto|]. right. exists v.
    rewrite Hu; [done|]. intros ->. by rewrite Hi in Hv. }
  destruct (ready (flag s)) eqn:Hr.
  - destruct (Hn eq_refl) as [?|[v Hv]]; [auto|].
    destruct (decide (v = u)) as [->|]; [|right; exists v; by rewrite Hu].
    destruct (task_step_sent _ _ _ _ _ _ Hstep Hv) as [?|?]; [set_solver| |auto].
    right. exists u. congruence.
  - right. exists u. rewrite Ht. by eapply task_step_sends.
Qed.

Lemma notify_inv_run t s0 s es s' :
  sys_inv s → run s es = Some s' → (t, Sched Cancel) ∉ es →
  notify_inv t s0 s → notify_inv t s0 s'.
Proof.
  revert s. induction es as [|[u e] es IH]; intros s Hs; simpl; [by intros [= <-]|].
  intros (s1 & Hstep & Hrun)%bind_Some [Hc Hes]%not_elem_of_cons Hn.
  apply (IH s1); [by eapply sys_inv_step|done..|]. clear IH Hrun.
  apply step_inv in Hstep as [Hk Hu].
  destruct Hn as [(l & Hl & Hin)|(Hl & Hrx & Hn)]; [left; by eapply step_kind_returned|].
  destruct (step_receiver s0 _ _ t _ _ Hk Hu) as [?|Hrx']; [done..|by left|].
  right. split_and!; [by eapply step_kind_prefix|done|]. by eapply step_sends.
Qed.

Lemma turns_cons t e es :
  turns t (e :: es)
  = ((if match e.2 with Sched Go => bool_decide (e.1 = t) | _ => false end then 1 else 0)
     + turns t es)%nat.
Proof. unfold turns. rewrite filter_cons. by destruct (match e.2 with Call _ => _ | _ => _ end). Qed.

Lemma waiting_go t k c f x :
  task_step t k c f = Some x → is_Some (receiver k) → c = Go ∨ c = Cancel.
Proof. intros Hstep [rx Hrx]. destruct_task k; destruct c; simplify_eq/=; auto. Qed.

Lemma settle_inv_run t s0 n s es s' :
  sys_inv s → run s es = Some s' → (t, Sched Cancel) ∉ es → (n ≤ turns t es)%nat →
  settle_inv t s0 n s → wait_returned t s0 s'.
Proof.
  revert s n. induction es as [|[u e] es IH]; intros s n Hs; simpl.
  - intros [= <-] _ Hn [?|(_ & Hrx%steps_left_receiver & _ & ?)]; [done|]. unfold turns in Hn.
    simpl in Hn. lia.
  - intros (s1 & Hstep & Hrun)%bind_Some [Hc Hes]%not_elem_of_cons Hn Hset.
    pose proof (sys_inv_step _ _ _ _ Hs Hstep) as Hs1. apply step_inv in Hstep as [Hk Hu].
    destruct Hset as [(l & Hl & Hin)|(Hl & Hrx & Hv & Hleft)].
    { apply (IH s1 0%nat); [done..|lia|]. left. by eapply step_kind_returned. }
    destruct (step_receiver s0 _ _ t _ _ Hk Hu) as [?|Hrx']; [done..| |].
    { apply (IH s1 0%nat); [done..|lia|]. by left. }
    apply (IH s1 (steps_left (task_of s1 t))); [done..| |].
    + rewrite turns_cons in Hn. simpl in Hn. destruct (decide (t = u)) as [<-|Hne].
      * rewrite bool_decide_true in Hn by done.
        destruct Hk as [o Hi _ _ _|c r Hts Ht Hr]; [rewrite Hi in Hrx; by destruct Hrx|].
        destruct (waiting_go _ _ _ _ _ Hts Hrx) as [->| ->]; [|done].
        destruct (task_step_returns _ _ _ _ _ Hts (inv_local s Hs t) Hrx Hv) as [->|Hlt].
        { rewrite Ht in Hrx'. by destruct Hrx'. }
        rewrite Ht. lia.
      * rewrite Hu by done. destruct e as [|[]]; rewrite ?bool_decide_false in Hn by done; lia.
    + right. split_and!; [by eapply step_kind_prefix|done|by eapply step_value_mono|done].
Qed.

(** ** A wait that is never woken *)

(** A task that does not send leaves the notifications of the others as they are. *)
Lemma task_step_quiet t k c f f' r :
  task_step t k c f = Some (f', r) → local t k f → ready f = true → sends k = false →
  sends (next_task r) = false ∧
  ∀ rx, live (tx f) rx →
    (∀ rx', receiver k = Some rx' → watch_id rx ≠ watch_id rx') →
    notified (tx f') rx ↔ notified (tx f) rx.
Proof.
  intros Hstep (_ & _ & Hk) Hr Hs.
  destruct_task k; destruct c; simplify_eq/=; repeat case_match; simplify_eq/=; split; try done;
    try congruence; intros rx0 Hlive Hid; rewrite ?drop_others by auto; try done.
  - match goal with H : watch_subscribe _ = (?w, _) |- _ =>
      replace w with (watch_subscribe (tx f)).1 by (by rewrite H) end.
    by apply subscribe_others.
  - eapply changed_others; [done|]. by apply Hid.
Qed.

(** The flag is ready, nobody is going to broadcast, and a task waits for a
    notification. *)
Definition stuck (t : nat) (rx : R) (s : system) : Prop :=
  ready (flag s) = true ∧ (∀ u, sends (task_of s u) = false) ∧
  task_of s t = TWaitReady (WaChanged rx) ∧ ¬ notified (tx (flag s)) rx.

Lemma stuck_step t rx s u e s' :
  sys_inv s → stuck t rx s → step s (u, e) = Some s' → (u, e) ≠ (t, Sched Cancel) →
  stuck t rx s'.
Proof.
  intros Hs (Hr & Hq & Ht & Hw) [Hk Hu]%step_inv Hc.
  pose proof (step_ready _ _ _ _ Hk Hr) as Hr'.
  destruct (decide (u = t)) as [->|Hne].
  { exfalso. destruct Hk as [o Hi _ _ _|c r Hstep _ _]; [congruence|]. rewrite Ht in Hstep.
    destruct c; simpl in Hstep; [|done|congruence].
    apply Hw. unfold notified. by destruct (watch_changed _ _). }
  assert (receiver (task_of s t) = Some rx) as Hrx by (by rewrite Ht).
  pose proof (receiver_live _ _ _ _ (inv_local s Hs t) Hrx) as Hlive.
  split_and!; [done| |by rewrite Hu|].
  - intros v. destruct (decide (v = u)) as [->|]; [|by rewrite Hu].
    destruct Hk as [o _ _ Ht' _|c r Hstep Ht' _]; rewrite Ht'; [by destruct o|].
    by apply (task_step_quiet _ _ _ _ _ _ Hstep (inv_local s Hs u) Hr).
  - destruct Hk as [o _ Hf _ _|c r Hstep Ht' _]; [by rewrite Hf|].
    destruct (task_step_quiet _ _ _ _ _ _ Hstep (inv_local s Hs u) Hr (Hq u)) as [_ Hsame].
    rewrite Hsame; [done..|]. intros rx' Hrx'. by apply (inv_distinct s Hs t u).
Qed.

Lemma stuck_run t rx s es s' :
  sys_inv s → stuck t rx s → run s es = Some s' → (t, Sched Cancel) ∉ es →
  task_of s' t = TWaitReady (WaChanged rx).
Proof.
  revert s. induction es as [|[u e] es IH]; intros s Hs Hst; simpl.
  { intros [= <-] _. apply Hst. }
  intros (s1 & Hstep & Hrun)%bind_Some [Hc Hes]%not_elem_of_cons.
  eauto using sys_inv_step, stuck_step.
Qed.

(** Task 0 subscribes; task 1 calls [wait_ready], which sees that the flag is not ready;
    task 2 marks the flag ready with the token and returns; only then does task 1 make
    its receiver. *)
Definition call_go (t : nat) (o : operation) (n : nat) : list (nat * event) :=
  (t, Call o) :: replicate n (t, Sched Go).

Definition lost_wakeup_events : list (nat * event) :=
  call_go 0 CallSubscribe 5 ++ call_go 1 CallWaitReady 4 ++ call_go 2 (CallMarkReady 1) 7 ++
  replicate 2 (1%nat, Sched Go).

Lemma run_app s es es' : run s (es ++ es') = (s' ← run s es; run s' es').
Proof. revert s. induction es as [|e es IH]; intros s; simpl; [done|]. by destruct (step s e); simpl. Qed.

Lemma run_sched s t es f k :
  task_step t (task_of s t) Go (flag s) = Some (f, inl k) →
  run s ((t, Sched Go) :: es)
  = run {| flag := f; tasks := <[t := k]> (tasks s); returned := returned s |} es.
Proof. simpl. by intros ->. Qed.

Lemma task_of_lookup s t k : tasks s !! t = Some k → task_of s t = k.
Proof. unfold task_of. by intros ->. Qed.

(** Up to the point where task 1 subscribes, the channel has only been sent to. *)
Lemma lost_wakeup_prefix w :
  run {| flag := {| ready := false; next_id := 1; tokens_lock := None; tokens := ∅; tx := w |};
         tasks := ∅; returned := [] |}
      (call_go 0 CallSubscribe 5 ++ call_go 1 CallWaitReady 4 ++ call_go 2 (CallMarkReady 1) 7)
  = Some {| flag := {| ready := true; next_id := 2; tokens_lock := None; tokens := ∅;
                       tx := watch_send true w |};
            tasks := <[2%nat := Idle]> (<[1%nat := TWaitReady WaSubscribe]> {[ 0%nat := Idle ]});
            returned := [(0%nat, RSubscribe (Ok 1)); (2%nat, RMarkReady (Ok true))] |}.
Proof. vm_compute. reflexivity. Qed.

Lemma lost_wakeup_run :
  ∃ s rx, run initial lost_wakeup_events = Some s ∧ stuck 1 rx s ∧
    returned s = [(0%nat, RSubscribe (Ok 1)); (2%nat, RMarkReady (Ok true))].
Proof.
  destruct new_spec as (Hrd & Hid & Hlk & Htk & Hv & Hr).
  assert (initial = {| flag := {| ready := false; next_id := 1; tokens_lock := None; tokens := ∅;
    tx := tx new |}; tasks := ∅; returned := [] |}) as ->.
  { unfold initial. f_equal. destruct new; simpl in *; by subst. }
  unfold lost_wakeup_events. rewrite !(assoc_L (++)), run_app, <- (assoc_L (++)).
  rewrite lost_wakeup_prefix. generalize dependent (tx new). intros w Hv Hr. clear Hrd Hid Hlk Htk.
  pose proof (send_no_receiver true _ Hr) as Hv1. rewrite Hv in Hv1.
  set (w1 := watch_send true w) in *. clearbody w1.
  pose proof (subscribe_value w1) as Hv2. pose proof (subscribe_seen w1) as Hseen.
  pose proof (subscribe_receivers w1) as Hrec. rewrite Hv1 in Hv2. 
  destruct (watch_subscribe w1) as [w2 rx2] eqn:Hw2. cbn [fst snd] in *.
  assert (watch_borrow w2 rx2 = false) as Hb.
  { rewrite borrow_value; [done|]. unfold live. set_solver. }
  eexists _, rx2. cbn [mbind option_bind replicate].
  erewrite run_sched; [|by rewrite (task_of_lookup _ _ (TWaitReady WaSubscribe)) by done; simpl; rewrite Hw2].
  erewrite run_sched; [|by rewrite (task_of_lookup _ _ (TWaitReady (WaBorrow rx2))) by done; simpl; rewrite Hb].
  split; [done|].
  split; [|done]. split_and!; [done| | |].
  - intros u. unfold task_of. simpl. rewrite insert_insert_eq, !lookup_insert, lookup_singleton.
    by repeat case_decide.
  - unfold task_of. simpl. by rewrite lookup_insert_eq.
  - done.
Qed.

(** ** Properties *)

(** C33: whichever way any number of tasks are interleaved, at most one call of
    [mark_ready] returns [Ok(true)]; the flag is then ready and stays so, and while no
    task is inside the lock a ready flag has no subscriptions left. *)
Theorem mark_ready_at_most_once s :
  reachable s →
  (length (marks s) ≤ 1)%nat ∧
  (marks s ≠ [] → ready (flag s) = true) ∧
  (ready (flag s) = true → tokens_lock (flag s) = None → tokens (flag s) = ∅) ∧
  (∀ es s', run s es = Some s' → ready (flag s) = true → ready (flag s') = true).
Proof.
  intros Hs%sys_inv_reachable. split_and!; [apply Hs|apply Hs| |].
  - intros Hr Hl. destruct (inv_tokens s Hs Hr) as [|(t & token & Ht)]; [done|].
    destruct (inv_local s Hs t) as [[Hh _] _]. rewrite Ht in Hh. specialize (Hh eq_refl). congruence.
  - intros es s'. revert s Hs. induction es as [|[t e] es IH]; intros s Hs; simpl; [by intros [= <-]|].
    intros (s1 & Hstep & Hrun)%bind_Some Hr. apply (IH s1); [by eapply sys_inv_step|done|].
    apply step_inv in Hstep as [Hk _]. by eapply step_ready.
Qed.

(** C35: the loop of [subscribe] ends, in at most two rounds more than there are
    subscriptions, unless every non-zero [i32] is subscribed; the token that it draws is
    an [i32], is not zero and is not in use, across the wrap-around of the counter. *)
Theorem subscribe_loop_terminates s :
  reachable s → Z.of_nat (size (tokens (flag s))) < 4294967295 →
  ∃ token n,
    draw_token (size (tokens (flag s)) + 2) (next_id (flag s)) (tokens (flag s)) = Some (token, n) ∧
    token ≠ 0 ∧ i32_ok token ∧ (token ∉ tokens (flag s)).
Proof.
  intros Hs%sys_inv_reachable Hsize.
  destruct (draw_token_total _ _ (inv_next_id s Hs) Hsize) as [[token n] Hd].
  pose proof (draw_token_Some _ _ _ _ _ (inv_next_id s Hs) Hd) as (? & ? & ? & ?). eauto 6.
Qed.

(** C34: a task whose [wait_ready] has subscribed to the channel before the flag is ready
    is not left behind: once the flag is ready and no task is about to broadcast it, the
    task can always go on, and two of its turns end the wait, whatever the others do. *)
Theorem subscribed_waiter_returns t s es1 s1 es2 s2 :
  reachable s → is_Some (receiver (task_of s t)) → ready (flag s) = false →
  run s es1 = Some s1 → ready (flag s1) = true → (∀ u, sends (task_of s1 u) = false) →
  run s1 es2 = Some s2 → (t, Sched Cancel) ∉ es1 ++ es2 →
  (wait_returned t s s1 ∨ is_Some (step s1 (t, Sched Go))) ∧
  ((2 ≤ turns t es2)%nat → wait_returned t s s2).
Proof.
  intros Hs%sys_inv_reachable Hrx Hr Hrun1 Hr1 Hquiet Hrun2 [Hc1 Hc2]%not_elem_of_app.
  pose proof (sys_inv_run _ _ _ Hs Hrun1) as Hs1.
  assert (settle_inv t s 2 s1) as Hset.
  { destruct (notify_inv_run t s s es1 s1 Hs Hrun1 Hc1) as [?|(Hl & Hrx1 & Hn)]; [|by left|].
    - right. split_and!; [exists []; by rewrite app_nil_r|done|congruence].
    - right. split_and!; [done..| |by apply steps_left_receiver].
      destruct (Hn Hr1) as [?|[u Hu]]; [done|]. by rewrite Hquiet in Hu. }
  split; [|intros; by eapply settle_inv_run].
  destruct Hset as [?|(_ & Hrx1 & Hv & _)]; [by left|]. right. unfold step.
  destruct (task_step_enabled t (task_of s1 t) (flag s1)) as [[f r] ->]; [apply inv_local, Hs1|done..|].
  by eexists.
Qed.

(** A wake-up can be lost.  Sending fails while the channel has no receiver and then
    leaves its value as it was, so a task that reads the flag before [mark_ready] and
    makes its receiver after it waits on a ready flag for ever: in no continuation of
    the run, of any tasks and any length, does its call go on, unless it is dropped. *)
Theorem lost_wakeup :
  ∃ es s rx,
    run initial es = Some s ∧
    ready (flag s) = true ∧ (2%nat, RMarkReady (Ok true)) ∈ returned s ∧
    task_of s 1 = TWaitReady (WaChanged rx) ∧
    ∀ es' s', run s es' = Some s' → (1%nat, Sched Cancel) ∉ es' →
      task_of s' 1 = TWaitReady (WaChanged rx).
Proof.
  destruct lost_wakeup_run as (s & rx & Hrun & Hst & Hret).
  exists lost_wakeup_events, s, rx. split_and!; [done|apply Hst|rewrite Hret; set_solver|apply Hst|].
  intros es' s' Hrun' Hc. eapply stuck_run; [|done..]. eapply sys_inv_reachable. by eexists.
Qed.

(** A flag without subscriptions becomes ready when it is asked. *)
Lemma is_ready_without_tokens :
  ∃ s, run initial (call_go 0 CallIsReady 6) = Some s ∧
    returned s = [(0%nat, RIsReady true)] ∧ ready (flag s) = true.
Proof.
  destruct new_spec as (Hrd & Hid & Hlk & Htk & _). unfold initial.
  destruct new; simpl in *; subst. eexists. split; [vm_compute; reflexivity|done].
Qed.

Lemma quiet_tasks s :
  map_Forall (λ _ k, sends k = false) (tasks s) → ∀ u, sends (task_of s u) = false.
Proof. intros H u. unfold task_of. destruct (tasks s !! u) eqn:Hu; [by apply (H u)|done]. Qed.

End flag.

(** ** A channel that keeps the laws *)

(** A channel as its value and, for each receiver, whether it has yet to see a value. *)
Record marked_channel := { mc_value : bool; mc_receivers : gmap nat bool }.

#[export] Instance marked_watch : Watch marked_channel nat := {
  watch_channel v := ({| mc_value := v; mc_receivers := {[ 0%nat := false ]} |}, 0%nat);
  watch_send v w :=
    if decide (mc_receivers w = ∅) then w
    else {| mc_value := v; mc_receivers := const true <$> mc_receivers w |};
  watch_subscribe w :=
    let r := fresh (dom (mc_receivers w)) in
    ({| mc_value := mc_value w; mc_receivers := <[r := false]> (mc_receivers w) |}, r);
  watch_borrow w _ := mc_value w;
  watch_changed r w :=
    match mc_receivers w !! r with
    | Some true =>
        Some {| mc_value := mc_value w; mc_receivers := <[r := false]> (mc_receivers w) |}
    | _ => None
    end;
  watch_drop r w := {| mc_value := mc_value w; mc_receivers := delete r (mc_receivers w) |};
  watch_value := mc_value;
  watch_receivers w := dom (mc_receivers w);
  watch_id r := r }.

Lemma marked_notified (w : marked_channel) (r : nat) :
  notified w r ↔ mc_receivers w !! r = Some true.
Proof. unfold notified. simpl. destruct (mc_receivers w !! r) as [[]|]; naive_solver. Qed.

#[export] Instance marked_watch_laws : WatchLaws marked_channel nat.
Proof.
  split; try done; unfold live; intros *; rewrite ?marked_notified; simpl.
  - case_decide; [done|]. simpl. by rewrite dom_fmap_L.
  - rewrite dom_empty_iff_L. by case_decide.
  - intros [b Hb]%elem_of_dom. case_decide as He; [by rewrite He in Hb|]. simpl.
    by rewrite lookup_fmap, Hb.
  - rewrite dom_empty_iff_L. by case_decide.
  - apply is_fresh.
  - by rewrite dom_insert_L.
  - by rewrite lookup_insert_eq.
  - intros Hr. rewrite lookup_insert_ne; [done|]. intros <-. by apply is_fresh in Hr.
  - repeat case_match; naive_solver.
  - intros Hc. destruct (mc_receivers w !! r) as [[]|] eqn:Hr; simplify_eq/=.
    rewrite dom_insert_L. apply elem_of_dom_2 in Hr. set_solver.
  - intros Hc. destruct (mc_receivers w !! r) as [[]|]; simplify_eq/=. by rewrite lookup_insert_eq.
  - intros Hc Hr. destruct (mc_receivers w !! r) as [[]|]; simplify_eq/=. by rewrite lookup_insert_ne.
  - by rewrite dom_delete_L.
  - intros Hr. by rewrite lookup_delete_ne.
Qed.

(** ** Examples *)

Definition marked_run (es : list (nat * event)) : system := default initial (run initial es).

Definition waiting_events : list (nat * event) :=
  call_go 0 CallSubscribe 5 ++ call_go 1 CallWaitReady 6.

Lemma mark_ready_at_most_once_witness :
  (length (marks (marked_run lost_wakeup_events)) ≤ 1)%nat ∧
  length (marks (marked_run lost_wakeup_events)) = 1%nat.
Proof.
  split; [|vm_compute; reflexivity].
  apply (mark_ready_at_most_once (marked_run lost_wakeup_events)).
  exists lost_wakeup_events. vm_compute. reflexivity.
Defined.

Lemma subscribe_loop_terminates_witness :
  ∃ token n, draw_token 3 2 {[ 1 ]} = Some (token, n) ∧ token ≠ 0 ∧ i32_ok token ∧ (token ∉ ({[ 1 ]} : gset Z)).
Proof.
  apply (subscribe_loop_terminates (marked_run waiting_events)).
  - exists waiting_events. vm_compute. reflexivity.
  - vm_compute. reflexivity.
Defined.

Lemma subscribed_waiter_returns_witness :
  wait_returned 1 (marked_run waiting_events)
    (marked_run (waiting_events ++ call_go 2 (CallMarkReady 1) 7 ++ replicate 2 (1%nat, Sched Go))).
Proof.
  refine (proj2 (subscribed_waiter_returns 1 _ (call_go 2 (CallMarkReady 1) 7)
    (marked_run (waiting_events ++ call_go 2 (CallMarkReady 1) 7))
    (replicate 2 (1%nat, Sched Go)) _ _ _ _ _ _ _ _ _) _).
  - exists waiting_events. vm_compute. reflexivity.
  - vm_compute. by eexists.
  - vm_compute. reflexivity.
  - vm_compute. reflexivity.
  - vm_compute. reflexivity.
  - apply quiet_tasks. by apply (bool_decide_eq_true_1 (map_Forall _ _)).
  - vm_compute. reflexivity.
  - set_solver.
  - vm_compute. lia.
Defined.

Lemma lost_wakeup_witness :
  ∃ (es : list (nat * event)) (s : system (W := marked_channel)),
    run initial es = Some s ∧ ready (flag s) = true.
Proof. destruct lost_wakeup as (es & s & rx & Hrun & Hr & _). eauto. Defined.
