(* ===== verification/Template.v ===== *)
(** * Prompt templates ([utils/template/src/lib.rs])

    Templates with placeholders in double braces: the parser, the renderer and their
    errors.  The cursor of the code is a byte offset; here a loop has the text left of
    the cursor that is not yet in a segment, the text right of it, and the offset, which
    is only used in errors.

    The loop is defined by well-founded recursion on the text that is left.  A printer
    of templates is the reference: parsing what it prints gives the template back. *)

From Equations Require Import Equations.
From S2P Require Import Prelude RustStr OrdMap.

(** ** Data *)

Inductive TemplateParseError :=
| EmptyPlaceholder (start : nat)
| NestedPlaceholder (start : nat)
| UnmatchedClosingDelimiter (start : nat)
| UnterminatedPlaceholder (start : nat).

Inductive TemplateRenderError :=
| DuplicateValue (name : rstring)
| ExtraValue (name : rstring)
| MissingValue (name : rstring).

Inductive TemplateError :=
| ParseError (e : TemplateParseError)
| RenderError (e : TemplateRenderError).

Inductive Segment :=
| Literal (s : rstring)
| Placeholder (name : rstring).

#[export] Instance Segment_eq_dec : EqDecision Segment.
Proof. solve_decision. Defined.

Record Template := { placeholders : gset rstring; segments : list Segment }.

(** [Display] of the errors. *)
Definition display_parse_error (e : TemplateParseError) : rstring :=
  match e with
  | EmptyPlaceholder start =>
      str "template placeholder at byte " ++ display_nat start ++ str " is empty"
  | NestedPlaceholder start =>
      str "template placeholder starting at byte " ++ display_nat start ++
      str " contains a nested `{`"
  | UnmatchedClosingDelimiter start =>
      str "template contains an unmatched `}` at byte " ++ display_nat start
  | UnterminatedPlaceholder start =>
      str "template placeholder starting at byte " ++ display_nat start ++ str " is missing `}`"
  end.

Definition display_render_error (e : TemplateRenderError) : rstring :=
  match e with
  | DuplicateValue name => str "template value `" ++ name ++ str "` was provided more than once"
  | ExtraValue name => str "template value `" ++ name ++ str "` is not used by this template"
  | MissingValue name => str "template placeholder `" ++ name ++ str "` is missing a value"
  end.

Definition display_template_error (e : TemplateError) : rstring :=
  match e with
  | ParseError err => display_parse_error err
  | RenderError err => display_render_error err
  end.

(** ** Parsing *)

Definition OPEN : rstring := str "{{".
Definition CLOSE : rstring := str "}}".

Definition push_literal (segs : list Segment) (literal : rstring) : list Segment :=
  if decide (literal = []) then segs
  else match last segs with
       | Some (Literal existing) =>
           take (length segs - 1) segs ++ [Literal (existing ++ literal)]
       | _ => segs ++ [Literal literal]
       end.

(** The loop of [parse_placeholder]: [content] is the text from [placeholder_start] to
    the cursor.  The result is the name, the next cursor and the text after it. *)
Fixpoint parse_placeholder (start : nat) (content rest : rstring) (cursor : nat)
    : res TemplateParseError (rstring * nat * rstring) :=
  match rest with
  | [] => Err (UnterminatedPlaceholder start)
  | ch :: rest' =>
      if starts_with rest OPEN then Err (NestedPlaceholder start)
      else match strip_prefix CLOSE rest with
           | Some after =>
               let placeholder := trim content in
               if decide (placeholder = []) then Err (EmptyPlaceholder start)
               else Ok (placeholder, cursor + str_len CLOSE, after)
           | None => parse_placeholder start (content ++ [ch]) rest' (cursor + len_utf8 ch)
           end
  end.

Lemma parse_placeholder_shrinks start content rest cursor name cursor' after :
  parse_placeholder start content rest cursor = Ok (name, cursor', after) →
  length after < length rest.
Proof.
  revert content cursor. induction rest as [|ch rest IH]; intros content cursor; [done|].
  cbn [parse_placeholder]. destruct (starts_with _ _); [done|].
  destruct (strip_prefix CLOSE (ch :: rest)) as [r|] eqn:Hs.
  - apply strip_prefix_Some in Hs. rewrite Hs, length_app. case_decide; [done|].
    intros [= _ _ <-]. change (length CLOSE) with 2. lia.
  - intros ?%IH. simpl. lia.
Qed.

(** A value with the equation that defines it. *)
Definition inspect {A : Type} (a : A) : { b : A | a = b } := exist _ a eq_refl.

Equations? parse_loop (ps : gset rstring) (segs : list Segment) (literal : rstring)
    (rest : rstring) (cursor : nat) : res TemplateParseError Template
    by wf (length rest) lt :=
parse_loop ps segs literal [] cursor :=
  Ok {| placeholders := ps; segments := push_literal segs literal |};
parse_loop ps segs literal (ch :: rest') cursor
    with inspect (strip_prefix (OPEN ++ OPEN) (ch :: rest')) => {
| exist _ (Some after) H1 =>
    parse_loop ps (push_literal (push_literal segs literal) OPEN) [] after
      (cursor + str_len (OPEN ++ OPEN));
| exist _ None _ with inspect (strip_prefix (CLOSE ++ CLOSE) (ch :: rest')) => {
  | exist _ (Some after) H2 =>
      parse_loop ps (push_literal (push_literal segs literal) CLOSE) [] after
        (cursor + str_len (CLOSE ++ CLOSE));
  | exist _ None _ with inspect (strip_prefix OPEN (ch :: rest')) => {
    | exist _ (Some inside) H3
        with inspect (parse_placeholder cursor [] inside (cursor + str_len OPEN)) => {
      | exist _ (Ok (placeholder, next_cursor, after)) H4 =>
          parse_loop ({[ placeholder ]} ∪ ps)
            (push_literal segs literal ++ [Placeholder placeholder]) [] after next_cursor;
      | exist _ (Err e) _ => Err e;
      | exist _ Panic _ => Panic };
    | exist _ None _ =>
        if starts_with (ch :: rest') CLOSE then Err (UnmatchedClosingDelimiter cursor)
        else parse_loop ps segs (literal ++ [ch]) rest' (cursor + len_utf8 ch) } } }.
Proof.
  - apply strip_prefix_Some, (f_equal length) in H1. rewrite length_app in H1.
    change (length (OPEN ++ OPEN)) with 4 in H1. simpl in *. lia.
  - apply strip_prefix_Some, (f_equal length) in H2. rewrite length_app in H2.
    change (length (CLOSE ++ CLOSE)) with 4 in H2. simpl in *. lia.
  - apply parse_placeholder_shrinks in H4.
    apply strip_prefix_Some, (f_equal length) in H3. rewrite length_app in H3. simpl in *. lia.
  - simpl. lia.
Defined.

Definition parse (source : rstring) : res TemplateParseError Template :=
  parse_loop ∅ [] [] source 0.

(** ** Rendering *)

Definition build_variable_map (variables : list (rstring * rstring))
    : res TemplateRenderError (gmap rstring rstring) :=
  res_fold (λ (map : gmap rstring rstring) '(name, value),
              match map !! name with
              | Some _ => Err (DuplicateValue name)
              | None => Ok (<[name := value]> map)
              end) ∅ variables.

Definition render (self : Template) (variables : list (rstring * rstring))
    : res TemplateRenderError rstring :=
  let? variables := build_variable_map variables in
  let? _ :=
    res_fold (λ _ placeholder,
                if decide (placeholder ∈ dom variables) then Ok tt
                else Err (MissingValue placeholder)) tt (btree_elements (placeholders self)) in
  let? _ :=
    res_fold (λ _ name,
                if decide (name ∈ placeholders self) then Ok tt
                else Err (ExtraValue name)) tt (btree_keys variables) in
  res_fold (λ rendered segment,
              match segment with
              | Literal literal => Ok (rendered ++ literal)
              | Placeholder name =>
                  match variables !! name with
                  | Some value => Ok (rendered ++ value)
                  | None => Err (MissingValue name)
                  end
              end) [] (segments self).

(** The function [render] of the crate. *)
Definition render_template (template : rstring) (variables : list (rstring * rstring))
    : res TemplateError rstring :=
  let? t := res_map_err ParseError (parse template) in
  res_map_err RenderError (render t variables).

(** ** The loop, one round at a time *)

Lemma parse_loop_eq ps segs literal rest cursor :
  parse_loop ps segs literal rest cursor =
  match rest with
  | [] => Ok {| placeholders := ps; segments := push_literal segs literal |}
  | ch :: rest' =>
      match strip_prefix (OPEN ++ OPEN) rest with
      | Some after =>
          parse_loop ps (push_literal (push_literal segs literal) OPEN) [] after
            (cursor + str_len (OPEN ++ OPEN))
      | None =>
          match strip_prefix (CLOSE ++ CLOSE) rest with
          | Some after =>
              parse_loop ps (push_literal (push_literal segs literal) CLOSE) [] after
                (cursor + str_len (CLOSE ++ CLOSE))
          | None =>
              match strip_prefix OPEN rest with
              | Some inside =>
                  let? '(placeholder, next_cursor, after) :=
                    parse_placeholder cursor [] inside (cursor + str_len OPEN) in
                  parse_loop ({[ placeholder ]} ∪ ps)
                    (push_literal segs literal ++ [Placeholder placeholder]) [] after next_cursor
              | None =>
                  if starts_with rest CLOSE then Err (UnmatchedClosingDelimiter cursor)
                  else parse_loop ps segs (literal ++ [ch]) rest' (cursor + len_utf8 ch)
              end
          end
      end
  end.
Proof.
  destruct rest as [|ch rest]; [by simp parse_loop|]. simp parse_loop.
  destruct (inspect _) as [[r|] H1]; cbn [parse_loop_unfold_clause_2]; [by rewrite H1|].
  destruct (inspect _) as [[r|] H2]; cbn [parse_loop_unfold_clause_2_clause_2];
    [by rewrite H1, H2|].
  destruct (inspect _) as [[r|] H3]; cbn [parse_loop_unfold_clause_2_clause_2_clause_2];
    [|by rewrite H1, H2, H3].
  destruct (inspect _) as [[[[name next] after]|e|] H4];
    cbn [parse_loop_unfold_clause_2_clause_2_clause_2_clause_1]; by rewrite H1, H2, H3, H4.
Qed.

(** ** Literals *)

Lemma push_literal_nil segs : push_literal segs [] = segs.
Proof. done. Qed.

Lemma push_literal_snoc segs a b :
  b ≠ [] → push_literal (segs ++ [Literal a]) b = segs ++ [Literal (a ++ b)].
Proof.
  intros Hb. unfold push_literal. rewrite decide_False, last_snoc by done.
  rewrite length_app. simpl. replace (length segs + 1 - 1) with (length segs) by lia.
  by rewrite take_app_length.
Qed.

(** The segments do not end in a literal. *)
Definition no_literal_end (segs : list Segment) : Prop := ∀ l, last segs ≠ Some (Literal l).

Lemma push_literal_fresh segs b :
  b ≠ [] → no_literal_end segs → push_literal segs b = segs ++ [Literal b].
Proof.
  intros Hb Hs. unfold push_literal. rewrite decide_False by done.
  destruct (last segs) as [[l|]|] eqn:Hl; [|done..]. by destruct (Hs l).
Qed.

Lemma push_literal_app segs a b : push_literal (push_literal segs a) b = push_literal segs (a ++ b).
Proof.
  destruct (decide (a = [])) as [->|Ha]; [done|].
  destruct (decide (b = [])) as [->|Hb]; [by rewrite app_nil_r|].
  assert (a ++ b ≠ []) as Hab by (by destruct a).
  destruct (last segs) as [[l|]|] eqn:Hl.
  - apply last_Some in Hl as [segs' ->]. by rewrite !push_literal_snoc, (assoc_L (++)).
  - rewrite !(push_literal_fresh segs) by (done || intros ?; congruence).
    by rewrite push_literal_snoc.
  - rewrite !(push_literal_fresh segs) by (done || intros ?; congruence).
    by rewrite push_literal_snoc.
Qed.

(** Text that is not yet in a segment may as well be. *)
Lemma parse_loop_flush ps segs literal rest cursor :
  parse_loop ps segs literal rest cursor = parse_loop ps (push_literal segs literal) [] rest cursor.
Proof.
  remember (length rest) as n eqn:Hn. revert segs literal rest cursor Hn.
  induction (lt_wf n) as [n _ IH]. intros segs literal rest cursor ->.
  rewrite !(parse_loop_eq ps _ _ rest). destruct rest as [|ch rest]; [done|].
  rewrite push_literal_nil.
  destruct (strip_prefix (OPEN ++ OPEN) _); [done|].
  destruct (strip_prefix (CLOSE ++ CLOSE) _); [done|].
  destruct (strip_prefix OPEN _); [done|]. destruct (starts_with _ _); [done|].
  rewrite (IH (length rest)) by (simpl; lia || done). symmetry.
  rewrite (IH (length rest)) by (simpl; lia || done). by rewrite push_literal_app.
Qed.

(** ** A printer *)

Definition LBRACE : char := 123%N.
Definition RBRACE : char := 125%N.

(** Pairs of braces are doubled, from the left. *)
Fixpoint escape (s : rstring) : rstring :=
  match s with
  | a :: (b :: s') as s1 =>
      if decide (a = LBRACE ∧ b = LBRACE) then OPEN ++ OPEN ++ escape s'
      else if decide (a = RBRACE ∧ b = RBRACE) then CLOSE ++ CLOSE ++ escape s'
      else a :: escape s1
  | _ => s
  end.

(** Whether a brace without a partner is left at the end. *)
Fixpoint lone_open (s : rstring) : bool :=
  match s with
  | a :: (b :: s') as s1 =>
      if decide (a = LBRACE ∧ b = LBRACE) then lone_open s'
      else if decide (a = RBRACE ∧ b = RBRACE) then lone_open s'
      else lone_open s1
  | [a] => bool_decide (a = LBRACE)
  | [] => false
  end.

Definition print_segment (seg : Segment) : rstring :=
  match seg with
  | Literal l => escape l
  | Placeholder name => OPEN ++ [SPACE] ++ name ++ [SPACE] ++ CLOSE
  end.

Definition print (segs : list Segment) : rstring := concat (print_segment <$> segs).

(** Names that the language can express. *)
Definition name_ok (name : rstring) : Prop :=
  name ≠ [] ∧
  (∀ c, head name = Some c → is_whitespace c = false) ∧
  (∀ c, last name = Some c → is_whitespace c = false) ∧
  ∀ a b, name ≠ a ++ OPEN ++ b ∧ name ≠ a ++ CLOSE ++ b.

(** Segments that the language can express: literals are maximal and not empty, and the
    one before a placeholder does not end in a lone brace. *)
Fixpoint segments_ok (segs : list Segment) : Prop :=
  match segs with
  | [] => True
  | Literal l :: segs' =>
      l ≠ [] ∧
      match segs' with
      | [] => True
      | Literal _ :: _ => False
      | Placeholder _ :: _ => lone_open l = false
      end ∧ segments_ok segs'
  | Placeholder name :: segs' => name_ok name ∧ segments_ok segs'
  end.

Definition names (segs : list Segment) : gset rstring :=
  list_to_set (omap (λ seg, match seg with Placeholder n => Some n | Literal _ => None end) segs).

(** ** Reading what was printed *)

(** The next two characters do not form a delimiter. *)
Definition plain (a : char) (rest : rstring) : Prop :=
  ∀ b r, rest = b :: r → ¬ (a = LBRACE ∧ b = LBRACE) ∧ ¬ (a = RBRACE ∧ b = RBRACE).

Lemma strip_prefix_pair c a rest :
  (∀ b r, rest = b :: r → ¬ (a = c ∧ b = c)) → strip_prefix [c; c] (a :: rest) = None.
Proof.
  intros H. apply strip_prefix_None. intros r [= -> ->]. by destruct (H c r).
Qed.

Lemma strip_prefix_pairs c a rest :
  (∀ b r, rest = b :: r → ¬ (a = c ∧ b = c)) → strip_prefix ([c; c] ++ [c; c]) (a :: rest) = None.
Proof.
  intros H. apply strip_prefix_None. intros r [= -> ->]. by destruct (H c (c :: c :: r)).
Qed.

Lemma plain_char ps segs literal a rest cursor :
  plain a rest →
  parse_loop ps segs literal (a :: rest) cursor
  = parse_loop ps segs (literal ++ [a]) rest (cursor + len_utf8 a).
Proof.
  intros Hp. rewrite parse_loop_eq.
  change OPEN with [LBRACE; LBRACE]. change CLOSE with [RBRACE; RBRACE].
  rewrite !strip_prefix_pairs, strip_prefix_pair by (intros ?? ?%Hp; tauto).
  unfold starts_with. rewrite strip_prefix_pair by (intros ?? ?%Hp; tauto).
  rewrite bool_decide_false; [done|]. by intros [].
Qed.

Lemma escape_cons2 a b s :
  escape (a :: b :: s)
  = if decide (a = LBRACE ∧ b = LBRACE) then OPEN ++ OPEN ++ escape s
    else if decide (a = RBRACE ∧ b = RBRACE) then CLOSE ++ CLOSE ++ escape s
    else a :: escape (b :: s).
Proof. done. Qed.

Lemma lone_open_cons2 a b s :
  lone_open (a :: b :: s)
  = if decide (a = LBRACE ∧ b = LBRACE) then lone_open s
    else if decide (a = RBRACE ∧ b = RBRACE) then lone_open s
    else lone_open (b :: s).
Proof. done. Qed.

Lemma escape_head b s : ∃ r, escape (b :: s) = b :: r.
Proof.
  destruct s as [|c s]; [by eexists|]. rewrite escape_cons2.
  case_decide; [destruct_and!; subst; by eexists|].
  case_decide; [destruct_and!; subst|]; by eexists.
Qed.

Lemma parse_open_pair ps segs rest cursor :
  parse_loop ps segs [] (OPEN ++ OPEN ++ rest) cursor
  = parse_loop ps (push_literal segs OPEN) [] rest (cursor + str_len (OPEN ++ OPEN)).
Proof.
  rewrite parse_loop_eq, (assoc_L (++)), strip_prefix_app. done.
Qed.

Lemma parse_close_pair ps segs rest cursor :
  parse_loop ps segs [] (CLOSE ++ CLOSE ++ rest) cursor
  = parse_loop ps (push_literal segs CLOSE) [] rest (cursor + str_len (CLOSE ++ CLOSE)).
Proof.
  rewrite parse_loop_eq, (assoc_L (++)), strip_prefix_app. done.
Qed.

(** A literal is followed by the end or by a placeholder. *)
Definition literal_end (l tail : rstring) : Prop :=
  tail = [] ∨ (∃ r, tail = OPEN ++ SPACE :: r) ∧ lone_open l = false.

Lemma parse_escape ps segs l tail cursor :
  literal_end l tail →
  ∃ cursor', parse_loop ps segs [] (escape l ++ tail) cursor
             = parse_loop ps (push_literal segs l) [] tail cursor'.
Proof.
  remember (length l) as n eqn:Hn. revert segs l cursor Hn.
  induction (lt_wf n) as [n _ IH]. intros segs l cursor -> Hend.
  destruct l as [|a [|b l]]; [by eexists| |].
  - cbn [escape app]. rewrite plain_char; [rewrite parse_loop_flush; by eexists|].
    intros b r ->. destruct Hend as [?|[[r' Hr'] Ha]]; [done|]. injection Hr' as -> _. simpl in Ha.
    apply bool_decide_eq_false in Ha. split; [tauto|]. by intros [_ ?].
  - unfold literal_end in Hend. rewrite lone_open_cons2 in Hend. rewrite escape_cons2.
    case_decide as Ho; [destruct Ho as [-> ->]|case_decide as Hc; [destruct Hc as [-> ->]|]].
    + rewrite <- !(assoc_L (++)), parse_open_pair.
      edestruct (IH (length l)) as [c ->]; [simpl; lia|done..|].
      rewrite push_literal_app. by eexists.
    + rewrite <- !(assoc_L (++)), parse_close_pair.
      edestruct (IH (length l)) as [c ->]; [simpl; lia|done..|].
      rewrite push_literal_app. by eexists.
    + cbn [app]. rewrite plain_char.
      * rewrite parse_loop_flush. edestruct (IH (length (b :: l))) as [c ->]; [simpl; lia|done..|].
        rewrite push_literal_app. by eexists.
      * destruct (escape_head b l) as [r ->]. by intros b' r' [= <- _].
Qed.

Lemma parse_placeholder_cons start content ch rest cursor :
  parse_placeholder start content (ch :: rest) cursor
  = if starts_with (ch :: rest) OPEN then Err (NestedPlaceholder start)
    else match strip_prefix CLOSE (ch :: rest) with
         | Some after =>
             if decide (trim content = []) then Err (EmptyPlaceholder start)
             else Ok (trim content, cursor + str_len CLOSE, after)
         | None => parse_placeholder start (content ++ [ch]) rest (cursor + len_utf8 ch)
         end.
Proof. done. Qed.

(** The name of a printed placeholder is read up to its delimiter. *)
Lemma parse_placeholder_reads start content x after cursor :
  (∀ a b, x ≠ a ++ OPEN ++ b ∧ x ≠ a ++ CLOSE ++ b) →
  (∀ c, last x = Some c → c ≠ LBRACE ∧ c ≠ RBRACE) →
  trim (content ++ x) ≠ [] →
  ∃ cursor', parse_placeholder start content (x ++ CLOSE ++ after) cursor
             = Ok (trim (content ++ x), cursor', after).
Proof.
  intros Hx Hlast Hne. revert content cursor Hne.
  induction x as [|c x IH]; intros content cursor Hne.
  - rewrite app_nil_r in *. cbn [app]. change (CLOSE ++ after) with (RBRACE :: RBRACE :: after).
    rewrite parse_placeholder_cons. change (starts_with _ OPEN) with false.
    change (RBRACE :: RBRACE :: after) with (CLOSE ++ after). rewrite strip_prefix_app.
    rewrite decide_False by done. by eexists.
  - cbn [app]. rewrite parse_placeholder_cons. unfold starts_with.
    assert (strip_prefix OPEN (c :: x ++ CLOSE ++ after) = None) as ->.
    { apply strip_prefix_pair. intros b r Hr [-> ->]. destruct x as [|d x]; [done|].
      injection Hr as -> _. by destruct (Hx [] x) as [H1 _]. }
    assert (strip_prefix CLOSE (c :: x ++ CLOSE ++ after) = None) as ->.
    { apply strip_prefix_pair. intros b r Hr [-> ->]. destruct x as [|d x].
      - by destruct (Hlast RBRACE) as [_ ?].
      - injection Hr as -> _. by destruct (Hx [] x) as [_ H2]. }
    destruct IH with (content := content ++ [c]) (cursor := cursor + len_utf8 c) as [c' ->].
    + intros a b. destruct (Hx (c :: a) b) as [H1 H2]. split; intros ->; [by apply H1|by apply H2].
    + intros d Hd. apply Hlast. by rewrite last_cons, Hd.
    + by rewrite <- (assoc_L (++)).
    + rewrite <- (assoc_L (++)). by eexists.
Qed.

(** Names do not contain delimiters when they are set off by spaces. *)
Lemma spaced_no_pair d name a b :
  d ≠ SPACE → (∀ a b, name ≠ a ++ [d; d] ++ b) → [SPACE] ++ name ++ [SPACE] ≠ a ++ [d; d] ++ b.
Proof.
  intros Hd Hn Heq. destruct a as [|c a]; [injection Heq as Hc _; congruence|].
  injection Heq as _ Heq.
  destruct b as [|e b _] using rev_ind.
  - change [d; d] with ([d] ++ [d]) in Heq. rewrite (assoc_L (++)) in Heq.
    apply app_inj_2 in Heq as [_ [= ?]]; [|done]. congruence.
  - change (a ++ d :: d :: b ++ [e]) with (a ++ (d :: d :: b) ++ [e]) in Heq.
    rewrite (assoc_L (++)) in Heq. apply app_inj_2 in Heq as [-> _]; [|done]. by apply (Hn a b).
Qed.

Lemma spaced_trim name :
  name_ok name → trim ([SPACE] ++ name ++ [SPACE]) = name.
Proof.
  intros (Hne & Hh & Hl & _).
  assert (trim_start name = name) as Hs by (by apply trim_start_matches_id).
  unfold trim. change (trim_start ([SPACE] ++ name ++ [SPACE])) with (trim_start (name ++ [SPACE])).
  rewrite trim_start_app, Hs by (by rewrite Hs).
  unfold trim_end, trim_end_matches. rewrite reverse_app.
  change (trim_start_matches is_whitespace (reverse [SPACE] ++ reverse name))
    with (trim_start_matches is_whitespace (reverse name)).
  by apply trim_end_matches_id.
Qed.

Lemma parse_printed_placeholder ps segs name tail cursor :
  name_ok name →
  ∃ cursor', parse_loop ps segs [] (print_segment (Placeholder name) ++ tail) cursor
             = parse_loop ({[ name ]} ∪ ps) (segs ++ [Placeholder name]) [] tail cursor'.
Proof.
  intros Hok. cbn [print_segment]. pose proof (spaced_trim name Hok) as Ht.
  set (x := [SPACE] ++ name ++ [SPACE]) in *.
  replace ((OPEN ++ [SPACE] ++ name ++ [SPACE] ++ CLOSE) ++ tail) with (OPEN ++ x ++ CLOSE ++ tail)
    by (unfold x; by rewrite <- !(assoc_L (++))).
  rewrite parse_loop_eq. change (OPEN ++ x ++ CLOSE ++ tail) with (LBRACE :: LBRACE :: x ++ CLOSE ++ tail).
  cbv beta iota.
  assert (strip_prefix (OPEN ++ OPEN) (LBRACE :: LBRACE :: x ++ CLOSE ++ tail) = None) as -> by reflexivity.
  assert (strip_prefix (CLOSE ++ CLOSE) (LBRACE :: LBRACE :: x ++ CLOSE ++ tail) = None) as -> by reflexivity.
  change (LBRACE :: LBRACE :: x ++ CLOSE ++ tail) with (OPEN ++ x ++ CLOSE ++ tail).
  rewrite strip_prefix_app. destruct Hok as (Hne & _ & _ & Hn).
  destruct (parse_placeholder_reads cursor [] x tail (cursor + str_len OPEN)) as [c ->].
  - intros a b. split; apply spaced_no_pair; try done; intros a' b'; by apply Hn.
  - intros c. unfold x. rewrite (assoc_L (++)), last_snoc. by intros [= <-].
  - cbn [app]. by rewrite Ht.
  - cbn [res_bind app]. rewrite Ht, push_literal_nil. by eexists.
Qed.

Lemma print_cons seg segs : print (seg :: segs) = print_segment seg ++ print segs.
Proof. done. Qed.

Lemma names_cons seg segs :
  names (seg :: segs)
  = match seg with Placeholder n => {[ n ]} | Literal _ => ∅ end ∪ names segs.
Proof. unfold names. destruct seg; simpl; set_solver. Qed.

Lemma parse_printed ps acc segs cursor :
  segments_ok segs →
  (∀ l segs', segs = Literal l :: segs' → no_literal_end acc) →
  parse_loop ps acc [] (print segs) cursor
  = Ok {| placeholders := names segs ∪ ps; segments := acc ++ segs |}.
Proof.
  revert ps acc cursor. induction segs as [|seg segs IH]; intros ps acc cursor Hok Hacc.
  { rewrite parse_loop_eq. cbn. rewrite app_nil_r. do 2 f_equal. set_solver. }
  rewrite print_cons, names_cons. destruct seg as [l|name]; cbn [segments_ok] in Hok.
  - destruct Hok as (Hl & Hnext & Hok). cbn [print_segment].
    destruct (parse_escape ps acc l (print segs) cursor) as [c ->].
    { destruct segs as [|[|name] segs]; [by left|done|]. right. split; [|done].
      rewrite print_cons. cbn [print_segment]. rewrite <- (assoc_L (++)). by eexists. }
    rewrite push_literal_fresh by (done || by eapply Hacc).
    rewrite IH, <- (assoc_L (++)), (left_id_L ∅ (∪)); [done|done|].
    intros l' segs' ->. by destruct Hnext.
  - destruct Hok as [Hname Hok]. destruct (parse_printed_placeholder ps acc name (print segs) cursor Hname) as [c ->].
    rewrite IH, <- (assoc_L (++)); [do 2 f_equal; set_solver|done|].
    intros l segs' _ l'. by rewrite last_snoc.
Qed.

(** ** Rendering, by cases *)

(** The parser collects the names of the placeholders. *)
Lemma names_app a b : names (a ++ b) = names a ∪ names b.
Proof. unfold names. by rewrite omap_app, list_to_set_app_L. Qed.

Lemma names_push_literal segs l : names (push_literal segs l) = names segs.
Proof.
  destruct (decide (l = [])) as [->|Hl]; [done|].
  destruct (last segs) as [[l'|n]|] eqn:Hs.
  - apply last_Some in Hs as [segs' ->]. by rewrite push_literal_snoc, !names_app.
  - rewrite push_literal_fresh, names_app by (done || intros ?; congruence).
    unfold names at 2. simpl. set_solver.
  - rewrite push_literal_fresh, names_app by (done || intros ?; congruence).
    unfold names at 2. simpl. set_solver.
Qed.

Lemma parse_loop_names ps segs literal rest cursor t :
  parse_loop ps segs literal rest cursor = Ok t → ps = names segs →
  placeholders t = names (segments t).
Proof.
  remember (length rest) as n eqn:Hn. revert ps segs literal rest cursor Hn.
  induction (lt_wf n) as [n _ IH]. intros ps segs literal rest cursor -> Hp ->.
  revert Hp. rewrite parse_loop_eq. destruct rest as [|ch rest].
  { intros [= <-]. simpl. by rewrite names_push_literal. }
  destruct (strip_prefix (OPEN ++ OPEN) _) as [r|] eqn:H1.
  { apply strip_prefix_Some in H1. intros Hp. eapply IH; [|done|exact Hp|by rewrite !names_push_literal].
    rewrite H1, length_app. change (length (OPEN ++ OPEN)) with 4. lia. }
  destruct (strip_prefix (CLOSE ++ CLOSE) _) as [r|] eqn:H2.
  { apply strip_prefix_Some in H2. intros Hp. eapply IH; [|done|exact Hp|by rewrite !names_push_literal].
    rewrite H2, length_app. change (length (CLOSE ++ CLOSE)) with 4. lia. }
  destruct (strip_prefix OPEN _) as [r|] eqn:H3.
  - apply strip_prefix_Some in H3. intros ([[name next] after] & Hph & Hp)%res_bind_Ok.
    apply parse_placeholder_shrinks in Hph. eapply IH; [|done|exact Hp|].
    + rewrite H3, length_app. lia.
    + rewrite names_app, names_push_literal. unfold names at 3. simpl. set_solver.
  - destruct (starts_with _ _); [done|]. intros Hp. eapply IH; [|done|exact Hp|done]. simpl. lia.
Qed.

Lemma parse_names source t : parse source = Ok t → placeholders t = names (segments t).
Proof. intros Hp. by eapply parse_loop_names. Qed.

(** The text of a template with its values filled in. *)
Definition expand (vars : gmap rstring rstring) (segs : list Segment) : rstring :=
  concat ((λ seg, match seg with Literal l => l | Placeholder n => default [] (vars !! n) end) <$> segs).

(** The first name that occurs again. *)
Definition repeats (n : rstring) (ns : list rstring) : Prop :=
  ∃ l1 l2, ns = l1 ++ n :: l2 ∧ NoDup l1 ∧ n ∈ l1.

Lemma build_variable_map_app m vars :
  NoDup vars.*1 → (∀ n, n ∈ vars.*1 → m !! n = None) →
  res_fold (λ (map : gmap rstring rstring) '(name, value),
              match map !! name with
              | Some _ => Err (DuplicateValue name)
              | None => Ok (<[name := value]> map)
              end) m vars = Ok (list_to_map vars ∪ m).
Proof.
  revert m. induction vars as [|[n v] vars IH]; intros m; simpl.
  { intros _ _. by rewrite (left_id_L ∅ (∪)). }
  rewrite NoDup_cons. intros [Hn Hnd] Hm. rewrite Hm by (by left). simpl. rewrite IH; [|done|].
  - f_equal. rewrite <- insert_union_l. rewrite insert_union_r; [done|].
    by apply not_elem_of_list_to_map_1.
  - intros n' Hn'. rewrite lookup_insert_ne by set_solver. apply Hm. by right.
Qed.

Lemma build_variable_map_Ok vars :
  NoDup vars.*1 → build_variable_map vars = Ok (list_to_map vars).
Proof.
  intros Hn. unfold build_variable_map. rewrite build_variable_map_app; [|done..].
  by rewrite (right_id_L ∅ (∪)).
Qed.

Lemma not_NoDup_repeats ns : ¬ NoDup ns → ∃ n, repeats n ns.
Proof.
  induction ns as [|n ns IH] using rev_ind; intros Hn; [by destruct Hn; constructor|].
  destruct (decide (NoDup ns)) as [Hd|Hd].
  - exists n, ns, []. split_and!; [done..|]. apply dec_stable. intros Hin. apply Hn.
    apply NoDup_app. split_and!; [done| |apply NoDup_singleton]. set_solver.
  - destruct (IH Hd) as (m & l1 & l2 & -> & ? & ?). exists m, l1, (l2 ++ [n]).
    by rewrite <- (assoc_L (++)).
Qed.

Lemma build_variable_map_repeats vars n :
  repeats n vars.*1 → build_variable_map vars = Err (DuplicateValue n).
Proof.
  intros (l1 & l2 & Hv & Hn & Hin). unfold build_variable_map.
  apply fmap_app_inv in Hv as (v1 & v2 & Hl1 & Hl2 & ->). destruct v2 as [|[n' v] v2]; [done|].
  injection Hl2 as -> ->. subst l1. rewrite res_fold_app, build_variable_map_app by done.
  simpl. rewrite (right_id_L ∅ (∪)).
  destruct (list_to_map v1 !! n') eqn:Hn'; [done|]. by apply not_elem_of_list_to_map in Hn'.
Qed.

Lemma expand_fold vars segs rendered :
  names segs ⊆ dom vars →
  res_fold (λ rendered segment,
              match segment with
              | Literal literal => Ok (rendered ++ literal)
              | Placeholder name =>
                  match vars !! name with
                  | Some value => Ok (rendered ++ value)
                  | None => Err (MissingValue name)
                  end
              end) rendered segs = Ok (rendered ++ expand vars segs).
Proof.
  revert rendered. induction segs as [|seg segs IH]; intros rendered Hn.
  { unfold expand. simpl. by rewrite app_nil_r. }
  rewrite names_cons in Hn. destruct seg as [l|n]; cbn [res_fold].
  - cbn [res_bind]. rewrite IH by set_solver. unfold expand. simpl. by rewrite (assoc_L (++)).
  - assert (n ∈ dom vars) as [v Hv]%elem_of_dom by set_solver. rewrite Hv. cbn [res_bind].
    rewrite IH by set_solver. unfold expand. simpl. by rewrite Hv, (assoc_L (++)).
Qed.

(** The least string with a property. *)
Definition least (P : rstring → Prop) (n : rstring) : Prop := P n ∧ ∀ n', P n' → str_le n n'.

(** What [render] does with values that have no name twice. *)
Lemma render_cases t vars :
  placeholders t = names (segments t) → NoDup vars.*1 →
  let ks : gset rstring := list_to_set vars.*1 in
  (∃ n, least (λ n, n ∈ placeholders t ∖ ks) n ∧ render t vars = Err (MissingValue n)) ∨
  (placeholders t ⊆ ks ∧
   ∃ n, least (λ n, n ∈ ks ∖ placeholders t) n ∧ render t vars = Err (ExtraValue n)) ∨
  (ks = placeholders t ∧ render t vars = Ok (expand (list_to_map vars) (segments t))).
Proof.
  intros Ht Hn ks. unfold render. rewrite build_variable_map_Ok by done. cbn [res_bind].
  rewrite !res_fold_check, dom_list_to_map_L. fold ks. unfold btree_keys. rewrite dom_list_to_map_L.
  fold ks.
  destruct (head (filter _ (btree_elements (placeholders t)))) as [n|] eqn:H1.
  { left. exists n. split; [|done]. apply find_least in H1 as (? & ? & ?). split; set_solver. }
  assert (placeholders t ⊆ ks) as Hsub.
  { intros n Hin. apply dec_stable. intros Hks.
    apply elem_of_btree_elements in Hin. apply head_None in H1.
    apply filter_nil_Forall in H1. rewrite Forall_forall in H1. by apply (H1 n). }
  right. cbn [res_bind].
  destruct (head (filter _ (btree_elements ks))) as [n|] eqn:H2.
  { left. split; [done|]. exists n. split; [|done].
    apply find_least in H2 as (? & ? & ?). split; set_solver. }
  right. split.
  - apply (anti_symm (⊆)); [|done]. intros n Hin. apply dec_stable. intros Hp.
    apply elem_of_btree_elements in Hin. apply head_None in H2.
    apply filter_nil_Forall in H2. rewrite Forall_forall in H2. by apply (H2 n).
  - cbn [res_bind]. rewrite expand_fold; [done|]. rewrite dom_list_to_map_L, <- Ht. done.
Qed.

Lemma least_unique P n n' : least P n → least P n' → n = n'.
Proof. intros [H1 H2] [H3 H4]. apply (anti_symm str_le); auto. Qed.

Lemma name_ok_no_braces name :
  name ≠ [] → (LBRACE ∉ name) → (RBRACE ∉ name) →
  (∀ c, head name = Some c → is_whitespace c = false) →
  (∀ c, last name = Some c → is_whitespace c = false) → name_ok name.
Proof.
  intros Hne Hl Hr Hh Ht. split_and!; [done..|]. intros a b. split; intros ->.
  - apply Hl. apply elem_of_app. right. by left.
  - apply Hr. apply elem_of_app. right. by left.
Qed.

(** ** Properties *)

(** C36: the parser reads back every template that the language can express: literals
    with any braces, doubled where they form a pair, and named placeholders; and with a
    value for each name, rendering the text is the text with the values filled in,
    values being copied as they are. *)
Theorem parse_print_round_trip segs vars :
  segments_ok segs →
  parse (print segs) = Ok {| placeholders := names segs; segments := segs |} ∧
  (NoDup vars.*1 → list_to_set vars.*1 = names segs →
   render_template (print segs) vars = Ok (expand (list_to_map vars) segs)).
Proof.
  intros Hok. assert (parse (print segs) = Ok {| placeholders := names segs; segments := segs |}) as Hp.
  { unfold parse. rewrite parse_printed by done. cbn [app]. do 2 f_equal. set_solver. }
  split; [done|]. intros Hn Hks. unfold render_template. rewrite Hp. cbn [res_map_err res_bind].
  destruct (render_cases {| placeholders := names segs; segments := segs |} vars)
    as [(n & [Hl _] & _)|[(_ & n & [Hl _] & _)|(_ & ->)]]; [done|done| | |done];
    simpl in Hl; rewrite Hks in Hl; set_solver.
Qed.

Lemma parse_print_round_trip_witness :
  render_template (print [Literal (str "Hi {{"); Placeholder (str "name"); Literal (str "}!")])
    [(str "name", str "{{x}}")] = Ok (str "Hi {{{{x}}}!").
Proof.
  refine (proj2 (parse_print_round_trip _ [(str "name", str "{{x}}")] _) _ _).
  - simpl. split_and!; try done.
    by apply name_ok_no_braces; [done|apply (bool_decide_eq_true_1 (_ ∉ _))..|intros ? [= <-]|intros ? [= <-]].
  - apply NoDup_singleton.
  - by apply (bool_decide_eq_true_1 (_ = _)).
Defined.

(** Rendering a parsed template succeeds exactly if each placeholder and nothing
    else has one value; otherwise the error names the first repeated value, else the
    least placeholder without a value, else the least value without a placeholder.  It
    never panics, and the check inside the loop never fails. *)
Theorem render_exact source t vars :
  parse source = Ok t →
  let ks : gset rstring := list_to_set vars.*1 in
  (∀ out, render t vars = Ok out ↔
     NoDup vars.*1 ∧ ks = placeholders t ∧ out = expand (list_to_map vars) (segments t)) ∧
  (∀ n, render t vars = Err (DuplicateValue n) ↔ repeats n vars.*1) ∧
  (∀ n, render t vars = Err (MissingValue n) ↔
     NoDup vars.*1 ∧ least (λ n, n ∈ placeholders t ∖ ks) n) ∧
  (∀ n, render t vars = Err (ExtraValue n) ↔
     NoDup vars.*1 ∧ placeholders t ⊆ ks ∧ least (λ n, n ∈ ks ∖ placeholders t) n) ∧
  render t vars ≠ Panic.
Proof.
  intros Ht%parse_names ks.
  destruct (decide (NoDup vars.*1)) as [Hn|Hn].
  - assert (∀ n, ¬ repeats n vars.*1) as Hr.
    { intros n (l1 & l2 & Hv & _ & Hin). rewrite Hv in Hn.
      apply NoDup_app in Hn as (_ & Hd & _). apply (Hd n Hin). by left. }
    pose proof (render_cases t vars Ht Hn) as Hc. cbv zeta in Hc. subst ks.
    generalize dependent (list_to_set (C := gset rstring) vars.*1). intros ks Hc.
    destruct Hc as [(n & Hl & ->)|[(Hsub & n & Hl & ->)|(-> & ->)]]; split_and!; try done; intros n'.
    + split; [done|]. intros (_ & -> & _). destruct Hl as [Hl _]. by apply elem_of_difference in Hl as [].
    + split; [done|]. by intros ?%Hr.
    + split; [by intros [= <-]|]. intros [_ Hl']. by rewrite (least_unique _ _ _ Hl Hl').
    + split; [done|]. intros (_ & Hsub & _).
      destruct Hl as [[Hp Hk]%elem_of_difference _]. by destruct (Hk (Hsub _ Hp)).
    + split; [done|]. intros (_ & -> & _). destruct Hl as [Hl _]. by apply elem_of_difference in Hl as [].
    + split; [done|]. by intros ?%Hr.
    + split; [done|]. intros (_ & [[Hp Hk]%elem_of_difference _]). by destruct (Hk (Hsub _ Hp)).
    + split; [by intros [= <-]|]. intros (_ & _ & Hl'). by rewrite (least_unique _ _ _ Hl Hl').
    + split; [by intros [= <-]|]. by intros (_ & _ & ->).
    + split; [done|]. by intros ?%Hr.
    + split; [done|]. by intros (_ & [[]%elem_of_difference _]).
    + split; [done|]. by intros (_ & _ & [[]%elem_of_difference _]).
  - destruct (not_NoDup_repeats _ Hn) as [n Hr].
    assert (render t vars = Err (DuplicateValue n)) as ->.
    { unfold render. by rewrite (build_variable_map_repeats _ n). }
    split_and!; intros *; try split; try done; try (by intros [? _]).
    + by intros [= <-].
    + intros Hr'. apply build_variable_map_repeats in Hr, Hr'. congruence.
Qed.

Lemma render_exact_witness :
  render {| placeholders := {[ str "a" ]}; segments := [Placeholder (str "a")] |}
    [(str "b", str "x")] = Err (MissingValue (str "a")).
Proof.
  apply (render_exact (str "{{a}}") {| placeholders := {[ str "a" ]}; segments := [Placeholder (str "a")] |}).
  - vm_compute. reflexivity.
  - split; [apply NoDup_singleton|]. split; [by apply (bool_decide_eq_true_1 (_ ∈ _))|].
    cbn [placeholders]. intros n [->%elem_of_singleton _]%elem_of_difference. done.
Defined.
