(* ===== verification/Normalize.v ===== *)
(** * Normalising the history ([core/src/context_manager/normalize.rs])

    The items of a conversation ([protocol/src/models.rs]) and the passes that prepare
    them for the model: every call gets an output, outputs without a call are dropped,
    and media that the model does not support is replaced by text
    ([context-fragments/src/annotated_content.rs], [core/src/context/unsupported_media.rs]).

    [Data] stands for the values of an item that are only passed on.  The identifier of a
    synthetic output is built with a UUID library, which is the parameter [uuid_v5]. *)

From S2P Require Import Prelude RustStr Truncate.

Local Open Scope nat_scope.

(** ** Items *)

Inductive ContentItem :=
| ContentInputText (text : rstring)
| ContentInputImage (image_url : rstring) (detail : option ImageDetail)
| ContentInputAudio (audio_url : rstring)
| ContentOutputText (text : rstring).

Inductive AgentMessageInputContent :=
| AgentInputText (text : rstring)
| AgentEncryptedContent (encrypted_content : rstring).

Inductive InputModality := ModalityText | ModalityImage | ModalityAudio.

#[export] Instance InputModality_eq_dec : EqDecision InputModality.
Proof. solve_decision. Defined.

Section normalize.
Context {Data : Type}.

Record MetadataPassthrough := {
  turn_id : option rstring;
  create_time : option Data;
  content_item_kinds : option (list rstring);
  cell_id : option rstring;
  executed_tool_calls : option (list Data);
  tool_calls_complete : option bool }.

Definition default_metadata : MetadataPassthrough :=
  {| turn_id := None; create_time := None; content_item_kinds := None; cell_id := None;
     executed_tool_calls := None; tool_calls_complete := None |}.

Inductive ResponseItem :=
| AdditionalTools (id : option rstring) (role : rstring) (tools : list Data)
| Message (id : option rstring) (role : rstring) (content : list ContentItem)
    (phase : option Data) (metadata : option MetadataPassthrough)
| AgentMessage (id : option rstring) (author recipient : rstring)
    (content : list AgentMessageInputContent) (metadata : option MetadataPassthrough)
| Reasoning (id : option rstring) (summary : list Data) (content : option (list Data))
    (encrypted_content : option rstring) (metadata : option MetadataPassthrough)
| LocalShellCall (id call_id : option rstring) (status action : Data)
    (metadata : option MetadataPassthrough)
| FunctionCall (id : option rstring) (name : rstring) (namespace : option rstring)
    (arguments : rstring) (encrypted_function_args : option (list rstring)) (call_id : rstring)
    (metadata : option MetadataPassthrough)
| ToolSearchCall (id call_id status : option rstring) (execution : rstring) (arguments : Data)
    (metadata : option MetadataPassthrough)
| FunctionCallOutput (id call_id name namespace : option rstring)
    (output : FunctionCallOutputPayload) (metadata : option MetadataPassthrough)
| CustomToolCall (id status : option rstring) (call_id name : rstring) (namespace : option rstring)
    (input : rstring) (metadata : option MetadataPassthrough)
| CustomToolCallOutput (id : option rstring) (call_id : rstring) (name : option rstring)
    (output : FunctionCallOutputPayload) (metadata : option MetadataPassthrough)
| ToolSearchOutput (id call_id : option rstring) (status execution : rstring) (tools : list Data)
    (metadata : option MetadataPassthrough)
| WebSearchCall (id status : option rstring) (action : option Data)
    (metadata : option MetadataPassthrough)
| ImageGenerationCall (id : option rstring) (status : rstring) (revised_prompt : option rstring)
    (result : rstring) (metadata : option MetadataPassthrough)
| Compaction (id : option rstring) (encrypted_content : rstring)
    (metadata : option MetadataPassthrough)
| ConfigurationUpdate (reasoning : Data)
| CompactionTrigger
| ContextCompaction (id encrypted_content : option rstring) (metadata : option MetadataPassthrough)
| Other.

Record CodexHarnessMetadata := {
  client_authored : bool;
  fallback_token_limit_override : option N;
  harness_authored_configuration : bool;
  compaction_model_hash : option rstring;
  user_input_order : option N }.

Record ResponseItemEnvelope := { item : ResponseItem; envelope_metadata : option CodexHarnessMetadata }.

Definition new_envelope (i : ResponseItem) : ResponseItemEnvelope :=
  {| item := i; envelope_metadata := None |}.

Implicit Types (i : ResponseItem) (e : ResponseItemEnvelope) (items : list ResponseItemEnvelope).

Definition from_text (content : rstring) : FunctionCallOutputPayload :=
  {| body := BodyText content; success := None |}.

(** ** Outputs for every call *)

(** [Uuid::new_v5] in the namespace of synthetic outputs, as text. *)
Context (uuid_v5 : rstring → rstring).

(** Whether the program is built with [debug_assertions]. *)
Context (debug_assertions : bool).

(** [error_or_panic] panics in a debug build and logs otherwise. *)
Definition error_or_panic : option () := if debug_assertions then None else Some ().

Definition with_suffix (prefix suffix : rstring) : rstring := prefix ++ str "_" ++ suffix.

Definition synthetic_output_id (prefix : rstring) (item_id : option rstring) : option rstring :=
  source_id ← item_id;
  if decide (source_id = []) then None
  else Some (with_suffix prefix (uuid_v5 (prefix ++ str ":" ++ source_id))).

Definition function_output_id e : option rstring :=
  match item e with FunctionCallOutput _ (Some call_id) _ _ _ _ => Some call_id | _ => None end.
Definition tool_search_output_id e : option rstring :=
  match item e with ToolSearchOutput _ (Some call_id) _ _ _ _ => Some call_id | _ => None end.
Definition custom_tool_output_id e : option rstring :=
  match item e with CustomToolCallOutput _ call_id _ _ _ => Some call_id | _ => None end.

Definition collect_ids (f : ResponseItemEnvelope → option rstring) items : gset rstring :=
  list_to_set (omap f items).

(** The synthetic output of a call whose identifier is not in the sets, if any. *)
Definition missing_output (function_output_ids tool_search_output_ids custom_tool_output_ids : gset rstring)
    e : option (option ResponseItemEnvelope) :=
  match item e with
  | FunctionCall id _ _ _ _ call_id _ =>
      if decide (call_id ∈ function_output_ids) then Some None
      else Some (Some (new_envelope
             (FunctionCallOutput (synthetic_output_id (str "fco") id) (Some call_id) None None
                (from_text (str "aborted")) None)))
  | ToolSearchCall id (Some call_id) _ _ _ _ =>
      if decide (call_id ∈ tool_search_output_ids) then Some None
      else Some (Some (new_envelope
             (ToolSearchOutput (synthetic_output_id (str "tso") id) (Some call_id)
                (str "completed") (str "client") [] None)))
  | CustomToolCall id _ call_id _ _ _ _ =>
      if decide (call_id ∈ custom_tool_output_ids) then Some None
      else _ ← error_or_panic;
           Some (Some (new_envelope
             (CustomToolCallOutput (synthetic_output_id (str "ctco") id) call_id None
                (from_text (str "aborted")) None)))
  | LocalShellCall id (Some call_id) _ _ _ =>
      if decide (call_id ∈ function_output_ids) then Some None
      else _ ← error_or_panic;
           Some (Some (new_envelope
             (FunctionCallOutput (synthetic_output_id (str "fco") id) (Some call_id) None None
                (from_text (str "aborted")) None)))
  | _ => Some None
  end.

(** The loop that collects the outputs with the positions of their calls. *)
Fixpoint missing_outputs (fs ts cs : gset rstring) (idx : nat) items
    : option (list (nat * ResponseItemEnvelope)) :=
  match items with
  | [] => Some []
  | e :: items' =>
      o ← missing_output fs ts cs e;
      rest ← missing_outputs fs ts cs (S idx) items';
      Some (match o with Some output => (idx, output) :: rest | None => rest end)
  end.

(** [Vec::insert]. *)
Definition vec_insert {A : Type} (k : nat) (x : A) (l : list A) : option (list A) :=
  if decide (k ≤ length l) then Some (take k l ++ x :: drop k l) else None.

Definition ensure_call_outputs_present items : option (list ResponseItemEnvelope) :=
  let function_output_ids := collect_ids function_output_id items in
  let tool_search_output_ids := collect_ids tool_search_output_id items in
  let custom_tool_output_ids := collect_ids custom_tool_output_id items in
  missing ← missing_outputs function_output_ids tool_search_output_ids custom_tool_output_ids 0 items;
  foldr (λ '(idx, output_item) acc, l ← acc; vec_insert (idx + 1) output_item l)
    (Some items) missing.

(** ** Outputs without a call *)

Definition function_call_id e : option rstring :=
  match item e with
  | FunctionCall _ _ _ _ _ call_id _ | LocalShellCall _ (Some call_id) _ _ _ => Some call_id
  | _ => None
  end.
Definition tool_search_call_id e : option rstring :=
  match item e with ToolSearchCall _ (Some call_id) _ _ _ _ => Some call_id | _ => None end.
Definition custom_tool_call_id e : option rstring :=
  match item e with CustomToolCall _ _ call_id _ _ _ _ => Some call_id | _ => None end.

Definition is_orphan (function_call_ids tool_search_call_ids custom_tool_call_ids : gset rstring)
    e : bool :=
  match item e with
  | FunctionCallOutput _ (Some call_id) _ _ _ _ => bool_decide (call_id ∉ function_call_ids)
  | CustomToolCallOutput _ call_id _ _ _ => bool_decide (call_id ∉ custom_tool_call_ids)
  | ToolSearchOutput _ (Some call_id) _ execution _ _ =>
      bool_decide (execution ≠ str "server") && bool_decide (call_id ∉ tool_search_call_ids)
  | _ => false
  end.

Fixpoint orphan_positions (fs ts cs : gset rstring) (position : nat) items : option (list nat) :=
  match items with
  | [] => Some []
  | e :: items' =>
      if is_orphan fs ts cs e
      then _ ← error_or_panic;
           rest ← orphan_positions fs ts cs (S position) items'; Some (position :: rest)
      else orphan_positions fs ts cs (S position) items'
  end.

(** [retain] with the positions to drop as a peekable iterator. *)
Fixpoint retain_positions {A : Type} (positions : list nat) (position : nat) (l : list A) : list A :=
  match l with
  | [] => []
  | x :: l' =>
      match positions with
      | p :: positions' =>
          if decide (p = position) then retain_positions positions' (S position) l'
          else x :: retain_positions positions (S position) l'
      | [] => x :: retain_positions [] (S position) l'
      end
  end.

Definition remove_orphan_outputs items : option (list ResponseItemEnvelope) :=
  let function_call_ids := collect_ids function_call_id items in
  let tool_search_call_ids := collect_ids tool_search_call_id items in
  let custom_tool_call_ids := collect_ids custom_tool_call_id items in
  positions ← orphan_positions function_call_ids tool_search_call_ids custom_tool_call_ids 0 items;
  Some (if decide (positions = []) then items else retain_positions positions 0 items).

(** ** The counterpart of an item *)

Definition remove_first_matching (predicate : ResponseItem → bool) items
    : list ResponseItemEnvelope :=
  match list_find (λ e, predicate (item e) = true) items with
  | Some (pos, _) => delete pos items
  | None => items
  end.

Definition is_function_call (call_id : rstring) i : bool :=
  match i with FunctionCall _ _ _ _ _ existing _ => bool_decide (existing = call_id) | _ => false end.
Definition is_local_shell_call (call_id : rstring) i : bool :=
  match i with LocalShellCall _ (Some existing) _ _ _ => bool_decide (existing = call_id) | _ => false end.
Definition is_tool_search_call (call_id : rstring) i : bool :=
  match i with ToolSearchCall _ (Some existing) _ _ _ _ => bool_decide (existing = call_id) | _ => false end.
Definition is_custom_tool_call (call_id : rstring) i : bool :=
  match i with CustomToolCall _ _ existing _ _ _ _ => bool_decide (existing = call_id) | _ => false end.
Definition is_function_output (call_id : rstring) i : bool :=
  match i with
  | FunctionCallOutput _ (Some existing) _ _ _ _ => bool_decide (existing = call_id)
  | _ => false
  end.
Definition is_tool_search_output (call_id : rstring) i : bool :=
  match i with
  | ToolSearchOutput _ (Some existing) _ _ _ _ => bool_decide (existing = call_id)
  | _ => false
  end.
Definition is_custom_tool_output (call_id : rstring) i : bool :=
  match i with CustomToolCallOutput _ existing _ _ _ => bool_decide (existing = call_id) | _ => false end.

Definition remove_corresponding_for items i : list ResponseItemEnvelope :=
  match i with
  | FunctionCall _ _ _ _ _ call_id _ => remove_first_matching (is_function_output call_id) items
  | FunctionCallOutput _ (Some call_id) _ _ _ _ =>
      match list_find (λ e, is_function_call call_id (item e) = true) items with
      | Some (pos, _) => delete pos items
      | None =>
          match list_find (λ e, is_local_shell_call call_id (item e) = true) items with
          | Some (pos, _) => delete pos items
          | None => items
          end
      end
  | ToolSearchCall _ (Some call_id) _ _ _ _ =>
      remove_first_matching (is_tool_search_output call_id) items
  | ToolSearchOutput _ (Some call_id) _ _ _ _ =>
      remove_first_matching (is_tool_search_call call_id) items
  | CustomToolCall _ _ call_id _ _ _ _ =>
      remove_first_matching (is_custom_tool_output call_id) items
  | CustomToolCallOutput _ call_id _ _ _ =>
      remove_first_matching (is_custom_tool_call call_id) items
  | LocalShellCall _ (Some call_id) _ _ _ =>
      remove_first_matching (is_function_output call_id) items
  | _ => items
  end.
(** ** Media that the model does not support *)

(** [to_annotated_content] takes the content out of the item. *)
Definition to_annotated_content i : option (list (ContentItem * rstring) * ResponseItem) :=
  match i with
  | Message id role content phase metadata =>
      let kinds := default [] (m ← metadata; content_item_kinds m) in
      let metadata' :=
        (λ m, {| turn_id := turn_id m; create_time := create_time m; content_item_kinds := None;
                 cell_id := cell_id m; executed_tool_calls := executed_tool_calls m;
                 tool_calls_complete := tool_calls_complete m |}) <$> metadata in
      Some (zip content (kinds ++ replicate (length content) (str "unknown")),
            Message id role [] phase metadata')
  | _ => None
  end.

Definition set_annotated_content i (annotated_content : list (ContentItem * rstring))
    : option ResponseItem :=
  match i with
  | Message id role _ phase metadata =>
      let m := default default_metadata metadata in
      Some (Message id role annotated_content.*1 phase
              (Some {| turn_id := turn_id m; create_time := create_time m;
                       content_item_kinds := Some annotated_content.*2; cell_id := cell_id m;
                       executed_tool_calls := executed_tool_calls m;
                       tool_calls_complete := tool_calls_complete m |}))
  | _ => None
  end.

Record UnsupportedMedia := { media_text : rstring; content_kind : rstring }.

Definition UNSUPPORTED_IMAGE : UnsupportedMedia :=
  {| media_text := str "image content omitted because you do not support image input";
     content_kind := str "images.unsupported" |}.
Definition UNSUPPORTED_AUDIO : UnsupportedMedia :=
  {| media_text := str "audio content omitted because you do not support audio input";
     content_kind := str "audio.unsupported" |}.

(** [render], for a fragment without markers, and [render_fragment]. *)
Definition render_media (m : UnsupportedMedia) : rstring := media_text m.
Definition render_media_fragment (m : UnsupportedMedia) : ContentItem * rstring :=
  (ContentInputText (render_media m), content_kind m).

Definition content_is_image (c : ContentItem) : bool :=
  match c with ContentInputImage _ _ => true | _ => false end.
Definition content_is_audio (c : ContentItem) : bool :=
  match c with ContentInputAudio _ => true | _ => false end.
Definition output_is_image (c : FunctionCallOutputContentItem) : bool :=
  match c with InputImage _ _ => true | _ => false end.
Definition output_is_audio (c : FunctionCallOutputContentItem) : bool :=
  match c with InputAudio _ => true | _ => false end.

(** The loop over the content of a message, which is the same for both media. *)
Definition strip_message (unsupported : ContentItem → bool) (m : UnsupportedMedia) i : ResponseItem :=
  match to_annotated_content i with
  | None => i
  | Some (content, i') =>
      let content' :=
        (λ c : ContentItem * rstring, if unsupported c.1 then render_media_fragment m else c)
          <$> content in
      default i' (set_annotated_content i' content')
  end.

(** The loop over the content items of an output. *)
Definition strip_output (unsupported : FunctionCallOutputContentItem → bool) (m : UnsupportedMedia)
    (output : FunctionCallOutputPayload) : FunctionCallOutputPayload :=
  match body output with
  | BodyText _ => output
  | ContentItems content_items =>
      {| body := ContentItems
           ((λ c, if unsupported c then InputText (render_media m) else c) <$> content_items);
         success := success output |}
  end.

Definition strip_image_item i : ResponseItem :=
  match i with
  | Message _ _ _ _ _ => strip_message content_is_image UNSUPPORTED_IMAGE i
  | FunctionCallOutput id call_id name namespace output metadata =>
      FunctionCallOutput id call_id name namespace
        (strip_output output_is_image UNSUPPORTED_IMAGE output) metadata
  | CustomToolCallOutput id call_id name output metadata =>
      CustomToolCallOutput id call_id name
        (strip_output output_is_image UNSUPPORTED_IMAGE output) metadata
  | ImageGenerationCall id status revised_prompt _ metadata =>
      ImageGenerationCall id status revised_prompt [] metadata
  | _ => i
  end.

Definition strip_audio_item i : ResponseItem :=
  match i with
  | Message _ _ _ _ _ => strip_message content_is_audio UNSUPPORTED_AUDIO i
  | FunctionCallOutput id call_id name namespace output metadata =>
      FunctionCallOutput id call_id name namespace
        (strip_output output_is_audio UNSUPPORTED_AUDIO output) metadata
  | CustomToolCallOutput id call_id name output metadata =>
      CustomToolCallOutput id call_id name
        (strip_output output_is_audio UNSUPPORTED_AUDIO output) metadata
  | _ => i
  end.

Definition map_item (f : ResponseItem → ResponseItem) e : ResponseItemEnvelope :=
  {| item := f (item e); envelope_metadata := envelope_metadata e |}.

Definition strip_images_when_unsupported (input_modalities : list InputModality) items
    : list ResponseItemEnvelope :=
  if decide (ModalityImage ∈ input_modalities) then items else map_item strip_image_item <$> items.

Definition strip_audio_when_unsupported (input_modalities : list InputModality) items
    : list ResponseItemEnvelope :=
  if decide (ModalityAudio ∈ input_modalities) then items else map_item strip_audio_item <$> items.

(** [ContextManager::normalize_history], on the items. *)
Definition normalize_history (input_modalities : list InputModality) items
    : option (list ResponseItemEnvelope) :=
  items ← ensure_call_outputs_present items;
  items ← remove_orphan_outputs items;
  let items := strip_images_when_unsupported input_modalities items in
  Some (strip_audio_when_unsupported input_modalities items).

(** ** The passes as maps and filters *)

Definition with_output (fs ts cs : gset rstring) e : list ResponseItemEnvelope :=
  match missing_output fs ts cs e with Some (Some o) => [e; o] | _ => [e] end.

Lemma vec_insert_app {A : Type} (l : list A) x y l' :
  vec_insert (length l + 1) y (l ++ x :: l') = Some (l ++ x :: y :: l').
Proof.
  unfold vec_insert. rewrite decide_True by (rewrite length_app; simpl; lia).
  replace (l ++ x :: l') with ((l ++ [x]) ++ l') by (by rewrite <- (assoc_L (++))).
  replace (length l + 1) with (length (l ++ [x])) by (rewrite length_app; simpl; lia).
  rewrite take_app_length, drop_app_length, <- (assoc_L (++)). done.
Qed.

Lemma missing_outputs_insert fs ts cs pre items ms :
  missing_outputs fs ts cs (length pre) items = Some ms →
  foldr (λ '(idx, output_item) acc, l ← acc; vec_insert (idx + 1) output_item l)
    (Some (pre ++ items)) ms
  = Some (pre ++ concat (with_output fs ts cs <$> items)).
Proof.
  revert pre ms. induction items as [|e items IH]; intros pre ms; simpl; [by intros [= <-]|].
  intros (o & Ho & (rest & Hrest & [= <-])%bind_Some)%bind_Some.
  specialize (IH (pre ++ [e]) rest). rewrite length_app, Nat.add_comm in IH. specialize (IH Hrest).
  rewrite <- !(assoc_L (++)) in IH. unfold with_output at 1. rewrite Ho.
  destruct o as [o|]; simpl in *; [|done]. rewrite IH. simpl. by rewrite vec_insert_app.
Qed.

Lemma ensure_call_outputs_present_concat items items' :
  ensure_call_outputs_present items = Some items' →
  items' = concat (with_output (collect_ids function_output_id items)
    (collect_ids tool_search_output_id items) (collect_ids custom_tool_output_id items) <$> items).
Proof.
  unfold ensure_call_outputs_present. intros (ms & Hms & Hf)%bind_Some.
  apply (missing_outputs_insert _ _ _ []) in Hms. simpl in Hms. congruence.
Qed.

Lemma orphan_positions_ge fs ts cs k items ps :
  orphan_positions fs ts cs k items = Some ps → Forall (λ p, k ≤ p) ps.
Proof.
  revert k ps. induction items as [|e items IH]; intros k ps; simpl; [intros [= <-]; constructor|].
  destruct (is_orphan fs ts cs e).
  - intros (_ & _ & (rest & Hrest%IH & [= <-])%bind_Some)%bind_Some.
    constructor; [done|]. eapply Forall_impl; [done|]. simpl. lia.
  - intros Hps%IH. eapply Forall_impl; [done|]. simpl. lia.
Qed.

Lemma retain_positions_filter fs ts cs k items ps :
  orphan_positions fs ts cs k items = Some ps →
  retain_positions ps k items = filter (λ e, is_orphan fs ts cs e = false) items.
Proof.
  revert k ps. induction items as [|e items IH]; intros k ps; simpl; [done|].
  rewrite filter_cons. destruct (is_orphan fs ts cs e) eqn:He.
  - intros (_ & _ & (rest & Hrest & [= <-])%bind_Some)%bind_Some.
    rewrite decide_True, decide_False by done. by apply IH.
  - intros Hps. rewrite decide_True by done. rewrite <- (IH (S k) ps Hps).
    destruct ps as [|p ps]; [done|]. rewrite decide_False; [done|].
    apply orphan_positions_ge, Forall_cons in Hps as [? _]. lia.
Qed.

Lemma remove_orphan_outputs_filter items items' :
  remove_orphan_outputs items = Some items' →
  items' = filter (λ e, is_orphan (collect_ids function_call_id items)
    (collect_ids tool_search_call_id items) (collect_ids custom_tool_call_id items) e = false) items.
Proof.
  unfold remove_orphan_outputs. intros (ps & Hps & [= <-])%bind_Some.
  apply retain_positions_filter in Hps. rewrite <- Hps. case_decide as Hd; [|done]. subst ps.
  clear Hps. generalize 0. induction items as [|e items IH]; intros k; simpl; [done|]. f_equal. apply IH.
Qed.

(** ** Calls and outputs that belong together *)

Inductive pair_kind := KFunction | KToolSearch | KCustom.

Definition call_id_of (k : pair_kind) : ResponseItemEnvelope → option rstring :=
  match k with
  | KFunction => function_call_id
  | KToolSearch => tool_search_call_id
  | KCustom => custom_tool_call_id
  end.

Definition output_id_of (k : pair_kind) : ResponseItemEnvelope → option rstring :=
  match k with
  | KFunction => function_output_id
  | KToolSearch => tool_search_output_id
  | KCustom => custom_tool_output_id
  end.

(** Outputs of tools that run on the server need no call. *)
Definition server_output e : Prop :=
  match item e with ToolSearchOutput _ _ _ execution _ _ => execution = str "server" | _ => False end.

#[local] Instance server_output_dec e : base.Decision (server_output e).
Proof. unfold server_output. destruct (item e); apply _. Defined.

(** Every call has an output and every output a call. *)
Definition balanced items : Prop :=
  ∀ k,
    collect_ids (call_id_of k) items ⊆ collect_ids (output_id_of k) items ∧
    ∀ e c, e ∈ items → output_id_of k e = Some c →
      server_output e ∨ c ∈ collect_ids (call_id_of k) items.

Lemma elem_of_collect_ids f items c :
  c ∈ collect_ids f items ↔ ∃ e, e ∈ items ∧ f e = Some c.
Proof. unfold collect_ids. by rewrite elem_of_list_to_set, list_elem_of_omap. Qed.

Lemma collect_ids_map f g items :
  (∀ e, f (g e) = f e) → collect_ids f (g <$> items) = collect_ids f items.
Proof.
  intros H. unfold collect_ids. f_equal. induction items as [|e items IH]; [done|].
  rewrite fmap_cons. cbn. rewrite H. cbn in IH. by rewrite IH.
Qed.

(** An item is a call or an output of one kind. *)
Lemma call_id_unique e k k' c c' :
  call_id_of k e = Some c → call_id_of k' e = Some c' → k = k' ∧ c = c'.
Proof.
  unfold call_id_of, function_call_id, tool_search_call_id, custom_tool_call_id.
  destruct e as [[] ?], k, k'; simpl; try done; repeat case_match; naive_solver.
Qed.

Lemma output_id_unique e k k' c c' :
  output_id_of k e = Some c → output_id_of k' e = Some c' → k = k' ∧ c = c'.
Proof.
  unfold output_id_of, function_output_id, tool_search_output_id, custom_tool_output_id.
  destruct e as [[] ?], k, k'; simpl; try done; repeat case_match; naive_solver.
Qed.

Lemma output_no_call e k k' c : output_id_of k e = Some c → call_id_of k' e = None.
Proof.
  unfold output_id_of, function_output_id, tool_search_output_id, custom_tool_output_id.
  by destruct e as [[] ?], k, k'.
Qed.

(** *** Outputs are added *)

(** The outputs that [ensure_call_outputs_present] adds for a call of [items]. *)
Definition missing_in items e : option (option ResponseItemEnvelope) :=
  missing_output (collect_ids function_output_id items) (collect_ids tool_search_output_id items)
    (collect_ids custom_tool_output_id items) e.

(** A synthetic output is the output of its call, and no call. *)
Lemma missing_output_Some items e o :
  missing_in items e = Some (Some o) →
  ∃ k c, call_id_of k e = Some c ∧ (c ∉ collect_ids (output_id_of k) items) ∧
    output_id_of k o = Some c ∧ (∀ k', k' ≠ k → output_id_of k' o = None) ∧
    (∀ k', call_id_of k' o = None).
Proof.
  unfold missing_in, missing_output, error_or_panic.
  destruct e as [i m]; destruct i; simpl; try done; repeat case_match; try done;
    intros [= <-].
  1,2: eexists KFunction, _. 3: eexists KToolSearch, _. 4: eexists KCustom, _.
  all: subst; split_and!; [reflexivity|done..| |]; by intros [].
Qed.

Lemma missing_output_None items e k c :
  missing_in items e = Some None → call_id_of k e = Some c → c ∈ collect_ids (output_id_of k) items.
Proof.
  unfold missing_in, missing_output, error_or_panic.
  destruct e as [i m]; destruct i; simpl; try done; repeat case_match; try done; intros _;
    destruct k; simpl; try done; by intros [= <-].
Qed.

Lemma with_output_elem items e e' :
  e' ∈ with_output (collect_ids function_output_id items) (collect_ids tool_search_output_id items)
         (collect_ids custom_tool_output_id items) e ↔
  e' = e ∨ missing_in items e = Some (Some e').
Proof.
  unfold with_output. fold (missing_in items e).
  destruct (missing_in items e) as [[o|]|]; rewrite ?elem_of_cons, ?elem_of_nil; naive_solver.
Qed.

Lemma elem_of_ensured items items' e' :
  ensure_call_outputs_present items = Some items' →
  e' ∈ items' ↔ e' ∈ items ∨ ∃ e, e ∈ items ∧ missing_in items e = Some (Some e').
Proof.
  intros ->%ensure_call_outputs_present_concat. rewrite elem_of_concat_fmap.
  setoid_rewrite with_output_elem. naive_solver.
Qed.

Lemma ensured_call_ids items items' k :
  ensure_call_outputs_present items = Some items' →
  collect_ids (call_id_of k) items' = collect_ids (call_id_of k) items.
Proof.
  intros H. apply set_eq. intros c. rewrite !elem_of_collect_ids. split.
  - intros (e & [He|(e0 & He0 & Hm)]%(elem_of_ensured _ _ _ H) & Hc); [eauto|].
    apply missing_output_Some in Hm as (k' & c' & _ & _ & _ & _ & Hno). by rewrite Hno in Hc.
  - intros (e & He & Hc). exists e. rewrite (elem_of_ensured _ _ _ H). auto.
Qed.

Lemma missing_outputs_defined fs ts cs idx items ms e :
  missing_outputs fs ts cs idx items = Some ms → e ∈ items → is_Some (missing_output fs ts cs e).
Proof.
  revert idx ms. induction items as [|e' items IH]; intros idx ms; simpl; [by intros _ ?%elem_of_nil|].
  intros (o & Ho & (rest & Hrest & _)%bind_Some)%bind_Some [->|He]%elem_of_cons; eauto.
Qed.

Lemma ensured_calls_answered items items' k :
  ensure_call_outputs_present items = Some items' →
  collect_ids (call_id_of k) items' ⊆ collect_ids (output_id_of k) items'.
Proof.
  intros H c. rewrite (ensured_call_ids _ _ _ H), !elem_of_collect_ids. intros (e & He & Hc).
  assert (is_Some (missing_in items e)) as [o Ho].
  { unfold ensure_call_outputs_present in H. apply bind_Some in H as (ms & Hms & _).
    by eapply missing_outputs_defined. }
  destruct o as [o|].
  - exists o. rewrite (elem_of_ensured _ _ _ H). split; [eauto|].
    apply missing_output_Some in Ho as (k' & c' & Hc' & _ & Ho & _ & _).
    by destruct (call_id_unique _ _ _ _ _ Hc Hc') as [-> ->].
  - apply (missing_output_None _ _ k c) in Ho; [|done].
    apply elem_of_collect_ids in Ho as (e' & He' & Hc'). exists e'.
    rewrite (elem_of_ensured _ _ _ H). auto.
Qed.

(** *** Outputs are dropped *)

Definition orphan_in items e : bool :=
  is_orphan (collect_ids function_call_id items) (collect_ids tool_search_call_id items)
    (collect_ids custom_tool_call_id items) e.

Lemma orphan_in_spec items e :
  orphan_in items e = true ↔
  ∃ k c, output_id_of k e = Some c ∧ ¬ server_output e ∧ (c ∉ collect_ids (call_id_of k) items).
Proof.
  unfold orphan_in, is_orphan, server_output. split.
  - destruct e as [i m]; destruct i; simpl; try done; repeat case_match; try done.
    + intros ?%bool_decide_eq_true. eexists KFunction, _. subst. split; [reflexivity|]. auto.
    + intros ?%bool_decide_eq_true. eexists KCustom, _. subst. split; [reflexivity|]. auto.
    + intros [?%bool_decide_eq_true ?%bool_decide_eq_true]%andb_true_iff. eexists KToolSearch, _. subst. split; [reflexivity|]. auto.
  - intros (k & c & Ho & Hs & Hc). destruct e as [i m]; destruct i, k; simplify_eq/=;
      repeat case_match; unfold function_output_id, tool_search_output_id, custom_tool_output_id in Ho;
      simplify_eq/=; rewrite ?andb_true_iff, ?bool_decide_eq_true; auto.
Qed.

Lemma orphan_no_call items e k : orphan_in items e = true → call_id_of k e = None.
Proof. by destruct e as [[] ?], k. Qed.

Lemma kept_call_ids items items' k :
  remove_orphan_outputs items = Some items' →
  collect_ids (call_id_of k) items' = collect_ids (call_id_of k) items.
Proof.
  intros ->%remove_orphan_outputs_filter. apply set_eq. intros c. rewrite !elem_of_collect_ids.
  setoid_rewrite list_elem_of_filter. split; [naive_solver|].
  intros (e & He & Hc). exists e. split_and!; [|done..]. apply not_true_is_false. intros Ho.
  change (is_orphan _ _ _ e) with (orphan_in items e) in Ho.
  by rewrite (orphan_no_call _ _ _ Ho) in Hc.
Qed.

Lemma removed_balanced items items' :
  (∀ k, collect_ids (call_id_of k) items ⊆ collect_ids (output_id_of k) items) →
  remove_orphan_outputs items = Some items' → balanced items'.
Proof.
  intros Hout H k. pose proof (kept_call_ids _ _ k H) as Hcalls. rewrite Hcalls.
  apply remove_orphan_outputs_filter in H. split.
  - intros c Hc. destruct (proj1 (elem_of_collect_ids _ _ _) (Hout k c Hc)) as (e & He & Ho).
    apply elem_of_collect_ids. exists e. split; [|done]. rewrite H.
    apply list_elem_of_filter. split; [|done]. apply not_true_is_false. intros Hor.
    change (is_orphan _ _ _ e) with (orphan_in items e) in Hor.
    apply orphan_in_spec in Hor as (k' & c' & Ho' & _ & Hc').
    by destruct (output_id_unique _ _ _ _ _ Ho Ho') as [<- <-].
  - intros e c He Ho. rewrite H in He. apply list_elem_of_filter in He as [Hno _].
    change (is_orphan _ _ _ e) with (orphan_in items e) in Hno.
    destruct (decide (server_output e)) as [|Hs]; [by left|]. right. apply dec_stable. intros Hc.
    assert (orphan_in items e = true) by (apply orphan_in_spec; eauto). congruence.
Qed.

(** *** Nothing to do *)

Lemma missing_output_answered items e :
  (∀ k c, call_id_of k e = Some c → c ∈ collect_ids (output_id_of k) items) →
  missing_in items e = Some None.
Proof.
  intros H. unfold missing_in, missing_output.
  destruct e as [[] ?]; simpl; try done; repeat case_match; try done; exfalso;
    match goal with Hn : _ ∉ collect_ids ?f _ |- _ => apply Hn end;
    [apply (H KFunction)|apply (H KFunction)|apply (H KToolSearch)|apply (H KCustom)]; by subst.
Qed.

Lemma ensure_nothing items :
  (∀ k, collect_ids (call_id_of k) items ⊆ collect_ids (output_id_of k) items) →
  ensure_call_outputs_present items = Some items.
Proof.
  intros H. unfold ensure_call_outputs_present.
  assert (∀ l idx, l ⊆ items → missing_outputs (collect_ids function_output_id items)
    (collect_ids tool_search_output_id items) (collect_ids custom_tool_output_id items) idx l = Some [])
    as Hm.
  { induction l as [|e l IH]; intros idx Hl; [done|]. cbn [missing_outputs].
    fold (missing_in items e). rewrite missing_output_answered.
    - simpl. rewrite IH by set_solver. done.
    - intros k c Hc. apply H, elem_of_collect_ids. exists e. set_solver. }
  rewrite Hm by done. done.
Qed.

Lemma remove_nothing items :
  (∀ e, e ∈ items → orphan_in items e = false) → remove_orphan_outputs items = Some items.
Proof.
  intros H. unfold remove_orphan_outputs.
  assert (∀ l idx, l ⊆ items → orphan_positions (collect_ids function_call_id items)
    (collect_ids tool_search_call_id items) (collect_ids custom_tool_call_id items) idx l = Some [])
    as Hm.
  { induction l as [|e l IH]; intros idx Hl; [done|]. cbn [orphan_positions].
    fold (orphan_in items e). rewrite H by set_solver. apply IH. set_solver. }
  rewrite Hm by done. done.
Qed.

Lemma balanced_fixed items :
  balanced items →
  ensure_call_outputs_present items = Some items ∧ remove_orphan_outputs items = Some items.
Proof.
  intros Hb. split; [apply ensure_nothing; intros k; apply Hb|].
  apply remove_nothing. intros e He. apply not_true_is_false.
  intros (k & c & Ho & Hs & Hc)%orphan_in_spec. by destruct (proj2 (Hb k) e c He Ho).
Qed.

(** *** Without debug assertions nothing panics *)

Lemma ensure_release items :
  debug_assertions = false → is_Some (ensure_call_outputs_present items).
Proof.
  intros Hd. unfold ensure_call_outputs_present.
  assert (∀ fs ts cs idx l, is_Some (missing_outputs fs ts cs idx l)) as Hm.
  { intros fs ts cs idx l. revert idx. induction l as [|e l IH]; intros idx; [by eexists|].
    destruct (IH (S idx)) as [rest Hrest]. cbn [missing_outputs].
    assert (is_Some (missing_output fs ts cs e)) as [o ->].
    { unfold missing_output, error_or_panic. rewrite Hd.
      destruct (item e); repeat case_match; by eexists. }
    simpl. rewrite Hrest. by eexists. }
  destruct (Hm (collect_ids function_output_id items) (collect_ids tool_search_output_id items)
    (collect_ids custom_tool_output_id items) 0 items) as [ms Hms].
  pose proof (missing_outputs_insert _ _ _ [] _ _ Hms) as Hi. rewrite Hms. simpl in *.
  rewrite Hi. by eexists.
Qed.

Lemma remove_release items : debug_assertions = false → is_Some (remove_orphan_outputs items).
Proof.
  intros Hd. unfold remove_orphan_outputs.
  assert (∀ fs ts cs idx l, is_Some (orphan_positions fs ts cs idx l)) as Hm.
  { intros fs ts cs idx l. revert idx. induction l as [|e l IH]; intros idx; [by eexists|].
    destruct (IH (S idx)) as [rest Hrest]. cbn [orphan_positions]. unfold error_or_panic.
    rewrite Hd. destruct (is_orphan fs ts cs e); [|by eexists]. simpl. rewrite Hrest. by eexists. }
  destruct (Hm (collect_ids function_call_id items) (collect_ids tool_search_call_id items)
    (collect_ids custom_tool_call_id items) 0 items) as [ps ->]. by eexists.
Qed.

(** ** Stripping *)

Definition strip_item (input_modalities : list InputModality) i : ResponseItem :=
  let i := if decide (ModalityImage ∈ input_modalities) then i else strip_image_item i in
  if decide (ModalityAudio ∈ input_modalities) then i else strip_audio_item i.

Lemma strip_items input_modalities items :
  strip_audio_when_unsupported input_modalities (strip_images_when_unsupported input_modalities items)
  = map_item (strip_item input_modalities) <$> items.
Proof.
  unfold strip_audio_when_unsupported, strip_images_when_unsupported, strip_item.
  repeat case_decide; rewrite <- ?list_fmap_compose; try done.
  symmetry. rewrite <- (list_fmap_id items) at 2. apply list_fmap_ext. by intros _ [] _.
Qed.

(** Stripping keeps what pairs items. *)
Lemma strip_ids input_modalities k e :
  call_id_of k (map_item (strip_item input_modalities) e) = call_id_of k e ∧
  output_id_of k (map_item (strip_item input_modalities) e) = output_id_of k e ∧
  (server_output (map_item (strip_item input_modalities) e) ↔ server_output e).
Proof.
  unfold strip_item, map_item, server_output. destruct e as [i m]. destruct k; simpl;
    unfold function_call_id, tool_search_call_id, custom_tool_call_id,
      function_output_id, tool_search_output_id, custom_tool_output_id; simpl;
    repeat case_decide; destruct i; done.
Qed.

Lemma strip_balanced input_modalities items :
  balanced items → balanced (map_item (strip_item input_modalities) <$> items).
Proof.
  intros Hb k. rewrite !collect_ids_map by (intros e; apply strip_ids). split; [apply Hb|].
  intros e c (e0 & -> & He0)%list_elem_of_fmap Ho.
  destruct (strip_ids input_modalities k e0) as (_ & Ho' & ->). rewrite Ho' in Ho. by apply Hb.
Qed.

(** What the loop over a message does to one entry of its content. *)
Definition strip_content (unsupported : ContentItem → bool) (m : UnsupportedMedia)
    (c : ContentItem * rstring) : ContentItem * rstring :=
  if unsupported c.1 then render_media_fragment m else c.

(** A message whose annotated content is rewritten. *)
Definition annotate (f : ContentItem * rstring → ContentItem * rstring) i : ResponseItem :=
  match to_annotated_content i with
  | None => i
  | Some (content, i') => default i' (set_annotated_content i' (f <$> content))
  end.

Lemma zip_own_kinds (cs : list (ContentItem * rstring)) (ks : list rstring) :
  zip cs.*1 (cs.*2 ++ ks) = cs.
Proof. induction cs as [|[c k] cs IH]; [done|]. simpl. f_equal. exact IH. Qed.

(** Rewriting twice is rewriting once with both functions. *)
Lemma annotate_annotate f g i : annotate f (annotate g i) = annotate (f ∘ g) i.
Proof.
  destruct i; try done. unfold annotate. simpl. rewrite zip_own_kinds.
  rewrite <- !list_fmap_compose. by destruct metadata.
Qed.

Lemma annotate_ext f g i : (∀ c, f c = g c) → annotate f i = annotate g i.
Proof.
  intros H. unfold annotate. destruct (to_annotated_content i) as [[content i']|]; [|done].
  rewrite (list_fmap_ext f g content); [done|]. auto.
Qed.

Lemma strip_content_idem u1 m1 u2 m2 (b1 b2 : bool) c :
  (∀ m, u1 (ContentInputText m) = false) → (∀ m, u2 (ContentInputText m) = false) →
  let f := λ c, (if b2 then strip_content u2 m2 else id) ((if b1 then strip_content u1 m1 else id) c) in
  f (f c) = f c.
Proof.
  intros H1 H2. unfold strip_content, render_media_fragment.
  destruct c as [c k], b1, b2, (u1 c) eqn:E1, (u2 c) eqn:E2; simpl;
    repeat (rewrite ?H1, ?H2, ?E1, ?E2; simpl); done.
Qed.

Lemma strip_output_idem (b1 b2 : bool) output :
  let f := λ o, (if b2 then strip_output output_is_audio UNSUPPORTED_AUDIO else id)
                  ((if b1 then strip_output output_is_image UNSUPPORTED_IMAGE else id) o) in
  f (f output) = f output.
Proof.
  destruct output as [[t|items] su]; destruct b1, b2; simpl; try done; unfold strip_output; simpl;
    rewrite <- !list_fmap_compose; do 2 f_equal; apply list_fmap_ext; intros _ [] _; done.
Qed.

Definition is_message i : bool := match i with Message _ _ _ _ _ => true | _ => false end.

Lemma annotate_message f i : is_message (annotate f i) = is_message i.
Proof. by destruct i. Qed.

Lemma strip_image_message i :
  is_message i = true →
  strip_image_item i = annotate (strip_content content_is_image UNSUPPORTED_IMAGE) i.
Proof. by destruct i. Qed.

Lemma strip_audio_message i :
  is_message i = true →
  strip_audio_item i = annotate (strip_content content_is_audio UNSUPPORTED_AUDIO) i.
Proof. by destruct i. Qed.

Lemma strip_item_idem input_modalities i :
  strip_item input_modalities (strip_item input_modalities i) = strip_item input_modalities i.
Proof.
  pose proof (strip_output_idem (bool_decide (ModalityImage ∉ input_modalities))
    (bool_decide (ModalityAudio ∉ input_modalities))) as Ho.
  pose proof (strip_content_idem content_is_image UNSUPPORTED_IMAGE content_is_audio UNSUPPORTED_AUDIO
    (bool_decide (ModalityImage ∉ input_modalities))
    (bool_decide (ModalityAudio ∉ input_modalities))) as Hc.
  unfold strip_item. destruct (is_message i) eqn:Hm.
  - repeat case_decide; rewrite ?bool_decide_true, ?bool_decide_false in Hc by tauto; try done;
      rewrite ?strip_image_message, ?strip_audio_message
        by (rewrite ?strip_image_message, ?strip_audio_message, ?annotate_message; done || by rewrite ?annotate_message);
      rewrite ?annotate_annotate; apply annotate_ext; intros c; by apply Hc.
  - repeat case_decide; rewrite ?bool_decide_true, ?bool_decide_false in Ho by tauto; try done;
      destruct i; simpl; try done; f_equal; apply Ho.
Qed.

(** An item with media of a kind. *)
Definition item_has (cm : ContentItem → bool) (om : FunctionCallOutputContentItem → bool) i : bool :=
  match i with
  | Message _ _ content _ _ => existsb cm content
  | FunctionCallOutput _ _ _ _ output _ | CustomToolCallOutput _ _ _ output _ =>
      match body output with BodyText _ => false | ContentItems items => existsb om items end
  | _ => false
  end.

Definition has_image i : bool :=
  item_has content_is_image output_is_image i ||
  match i with ImageGenerationCall _ _ _ result _ => bool_decide (result ≠ []) | _ => false end.
Definition has_audio i : bool := item_has content_is_audio output_is_audio i.

Lemma existsb_fmap_false {A B : Type} (f : B → bool) (g : A → B) (l : list A) :
  (∀ x, f (g x) = false) → existsb f (g <$> l) = false.
Proof. intros H. induction l as [|x l IH]; [done|]. simpl. by rewrite H. Qed.

Lemma annotate_has_not cm om f i :
  is_message i = true → (∀ c, cm (f c).1 = false) → item_has cm om (annotate f i) = false.
Proof.
  intros Hm H. destruct i; simplify_eq/=. rewrite <- list_fmap_compose.
  by apply existsb_fmap_false.
Qed.

Lemma strip_item_message input_modalities i :
  is_message i = true →
  (ModalityImage ∉ input_modalities) ∨ (ModalityAudio ∉ input_modalities) →
  strip_item input_modalities i
  = annotate (λ c, (if decide (ModalityAudio ∈ input_modalities) then id
                    else strip_content content_is_audio UNSUPPORTED_AUDIO)
                     ((if decide (ModalityImage ∈ input_modalities) then id
                       else strip_content content_is_image UNSUPPORTED_IMAGE) c)) i.
Proof.
  intros Hm Hu. unfold strip_item. repeat case_decide; [tauto| | |].
  - by rewrite strip_image_message.
  - by rewrite strip_audio_message.
  - rewrite strip_audio_message; rewrite strip_image_message by done; [|by rewrite annotate_message].
    by rewrite annotate_annotate.
Qed.

Lemma stripped_no_image input_modalities i :
  (ModalityImage ∉ input_modalities) → has_image (strip_item input_modalities i) = false.
Proof.
  intros Hu. unfold has_image. destruct (is_message i) eqn:Hm.
  - rewrite strip_item_message by auto. rewrite annotate_has_not; [by destruct i|done|].
    intros [c k]. rewrite (decide_False (P := ModalityImage ∈ _)) by done. by case_decide; destruct c.
  - unfold strip_item. rewrite (decide_False (P := ModalityImage ∈ _)) by done.
    case_decide; destruct i; simplify_eq/=; try done;
      destruct (body output) eqn:Hb; unfold strip_output; rewrite Hb; simpl; try (by rewrite ?Hb);
      rewrite <- ?list_fmap_compose, existsb_fmap_false by (by intros []); done.
Qed.

Lemma stripped_no_audio input_modalities i :
  (ModalityAudio ∉ input_modalities) → has_audio (strip_item input_modalities i) = false.
Proof.
  intros Hu. unfold has_audio. destruct (is_message i) eqn:Hm.
  - rewrite strip_item_message by auto. rewrite annotate_has_not; [done|done|].
    intros [c k]. rewrite (decide_False (P := ModalityAudio ∈ _)) by done. by case_decide; destruct c.
  - unfold strip_item. rewrite (decide_False (P := ModalityAudio ∈ _)) by done.
    case_decide; destruct i; simplify_eq/=; try done;
      destruct (body output) eqn:Hb; unfold strip_output; rewrite Hb; simpl; try (by rewrite ?Hb);
      rewrite <- ?list_fmap_compose, existsb_fmap_false by (by intros []); done.
Qed.

(** The items that stay, with the synthetic outputs between them. *)
Lemma ensured_sublist items items' (P : ResponseItemEnvelope → Prop) `{!∀ e, base.Decision (P e)} :
  ensure_call_outputs_present items = Some items' → filter P items `sublist_of` filter P items'.
Proof.
  intros ->%ensure_call_outputs_present_concat.
  generalize (collect_ids function_output_id items), (collect_ids tool_search_output_id items),
    (collect_ids custom_tool_output_id items). intros fs ts cs.
  induction items as [|e items IH]; [done|]. rewrite fmap_cons, filter_cons. cbn [concat].
  rewrite filter_app.
  assert (filter P [e] `sublist_of` filter P (with_output fs ts cs e)) as He.
  { unfold with_output. destruct (missing_output fs ts cs e) as [[o|]|]; [|done..].
    rewrite !filter_cons, filter_nil. repeat case_decide; repeat constructor. }
  rewrite filter_cons, filter_nil in He. case_decide.
  - change (e :: filter P items) with ([e] ++ filter P items). by apply sublist_app.
  - by apply (sublist_app []).
Qed.

Lemma orphan_in_ensured items items' e :
  ensure_call_outputs_present items = Some items' → orphan_in items' e = orphan_in items e.
Proof.
  intros H. unfold orphan_in. pose proof (ensured_call_ids _ _ KFunction H) as H1.
  pose proof (ensured_call_ids _ _ KToolSearch H) as H2.
  pose proof (ensured_call_ids _ _ KCustom H) as H3. simpl in *. by rewrite H1, H2, H3.
Qed.

(** ** Dropping the oldest item *)

(** Calls and outputs are paired one to one. *)
Definition paired items : Prop :=
  balanced items ∧
  ∀ k, NoDup (omap (call_id_of k) items) ∧ NoDup (omap (output_id_of k) items).

Lemma omap_NoDup_mid (f : ResponseItemEnvelope → option rstring) l1 x l2 c :
  NoDup (omap f (l1 ++ x :: l2)) → f x = Some c →
  NoDup (omap f (l1 ++ l2)) ∧ ∀ y, y ∈ l1 ++ l2 → f y ≠ Some c.
Proof.
  rewrite !omap_app. cbn. intros Hn Hx. rewrite Hx in Hn.
  assert (omap f l1 ++ c :: omap f l2 ≡ₚ c :: (omap f l1 ++ omap f l2)) as Hp by solve_Permutation.
  rewrite Hp, NoDup_cons in Hn. destruct Hn as [Hc Hn]. split; [done|].
  intros y Hy Hf. apply Hc. rewrite <- omap_app. apply list_elem_of_omap. eauto.
Qed.

Lemma omap_NoDup_drop (f : ResponseItemEnvelope → option rstring) l1 x l2 :
  NoDup (omap f (l1 ++ x :: l2)) → NoDup (omap f (l1 ++ l2)).
Proof.
  destruct (f x) as [c|] eqn:Hx; [intros H; by eapply omap_NoDup_mid|].
  rewrite !omap_app. cbn. by rewrite Hx.
Qed.

Lemma list_find_delete (P : ResponseItemEnvelope → Prop) `{!∀ e, base.Decision (P e)} items :
  match list_find P items with
  | Some (pos, x) => ∃ l1 l2, items = l1 ++ x :: l2 ∧ P x ∧ delete pos items = l1 ++ l2
  | None => ∀ e, e ∈ items → ¬ P e
  end.
Proof.
  destruct (list_find P items) as [[pos x]|] eqn:Hf.
  - apply list_find_Some in Hf as (Hl & HP & _). exists (take pos items), (drop (S pos) items).
    split_and!; [by rewrite take_drop_middle|done|by rewrite delete_take_drop].
  - apply list_find_None in Hf. by rewrite Forall_forall in Hf.
Qed.

(** The counterpart of an item is the first item of the other side with its identifier. *)
Definition counterpart (k : pair_kind) (c : rstring) e e' : Prop :=
  call_id_of k e = Some c ∧ output_id_of k e' = Some c ∨
  output_id_of k e = Some c ∧ call_id_of k e' = Some c.

Lemma remove_first_matching_spec (p : ResponseItem → bool) items :
  (∃ l1 x l2, items = l1 ++ x :: l2 ∧ p (item x) = true ∧ remove_first_matching p items = l1 ++ l2) ∨
  (remove_first_matching p items = items ∧ ∀ x, x ∈ items → p (item x) = false).
Proof.
  unfold remove_first_matching.
  pose proof (list_find_delete (λ e, p (item e) = true) items) as H.
  destruct (list_find _ items) as [[pos x]|].
  - destruct H as (l1 & l2 & ? & ? & ?). left. eauto 6.
  - right. split; [done|]. intros x Hx. apply not_true_is_false. auto.
Qed.

(** The predicates of [remove_corresponding_for] by kind. *)
Definition call_matches (k : pair_kind) (c : rstring) i : bool :=
  match k with
  | KFunction => is_function_call c i || is_local_shell_call c i
  | KToolSearch => is_tool_search_call c i
  | KCustom => is_custom_tool_call c i
  end.
Definition output_matches (k : pair_kind) (c : rstring) i : bool :=
  match k with
  | KFunction => is_function_output c i
  | KToolSearch => is_tool_search_output c i
  | KCustom => is_custom_tool_output c i
  end.

Lemma call_matches_spec k c e : call_matches k c (item e) = true ↔ call_id_of k e = Some c.
Proof.
  unfold function_call_id, tool_search_call_id, custom_tool_call_id.
  destruct e as [i m], k; simpl;
    unfold function_call_id, tool_search_call_id, custom_tool_call_id; simpl;
    destruct i; simpl; try done; repeat case_match; simpl; try done;
    rewrite ?orb_false_r, ?bool_decide_eq_true; naive_solver.
Qed.

Lemma output_matches_spec k c e : output_matches k c (item e) = true ↔ output_id_of k e = Some c.
Proof.
  destruct e as [i m], k; simpl;
    unfold function_output_id, tool_search_output_id, custom_tool_output_id; simpl;
    destruct i; simpl; try done; repeat case_match; simpl; try done;
    rewrite ?bool_decide_eq_true; naive_solver.
Qed.

(** Removing from [items] takes out an item with a property, if there is one. *)
Definition removes (P : ResponseItemEnvelope → Prop) items items' : Prop :=
  (∃ l1 x l2, items = l1 ++ x :: l2 ∧ P x ∧ items' = l1 ++ l2) ∨
  (items' = items ∧ ∀ x, x ∈ items → ¬ P x).

Lemma remove_call items e k c :
  call_id_of k e = Some c →
  removes (λ x, output_id_of k x = Some c) items (remove_corresponding_for items (item e)).
Proof.
  intros Hc.
  assert (remove_corresponding_for items (item e) = remove_first_matching (output_matches k c) items)
    as ->.
  { destruct e as [i m], k; simpl in Hc;
      unfold function_call_id, tool_search_call_id, custom_tool_call_id in Hc; simpl in Hc;
      destruct i; try done; simpl; repeat case_match; by simplify_eq/=. }
  destruct (remove_first_matching_spec (output_matches k c) items)
    as [(l1 & x & l2 & -> & Hx%output_matches_spec & ->)|[-> Hn]].
  - left. eauto 6.
  - right. split; [done|]. intros x Hx Ho%output_matches_spec. apply Hn in Hx. congruence.
Qed.

Lemma remove_output items e k c :
  output_id_of k e = Some c →
  removes (λ x, call_id_of k x = Some c) items (remove_corresponding_for items (item e)).
Proof.
  intros Ho.
  assert ((k = KFunction ∧ ∃ id name ns out m, item e = FunctionCallOutput id (Some c) name ns out m) ∨
    remove_corresponding_for items (item e) = remove_first_matching (call_matches k c) items)
    as [(-> & id & name & ns & out & m & ->)| ->].
  { destruct e as [i m], k; simpl in Ho;
      unfold function_output_id, tool_search_output_id, custom_tool_output_id in Ho; simpl in Ho;
      destruct i; try done; repeat case_match; simplify_eq/=; eauto 10. }
  - cbn [remove_corresponding_for].
    pose proof (list_find_delete (λ e, is_function_call c (item e) = true) items) as H1.
    destruct (list_find (λ e, is_function_call c (item e) = true) items) as [[pos x]|].
    { destruct H1 as (l1 & l2 & -> & Hx & ->). left. exists l1, x, l2. split_and!; [done| |done].
      apply call_matches_spec. simpl. by rewrite Hx. }
    pose proof (list_find_delete (λ e, is_local_shell_call c (item e) = true) items) as H2.
    destruct (list_find (λ e, is_local_shell_call c (item e) = true) items) as [[pos x]|].
    { destruct H2 as (l1 & l2 & -> & Hx & ->). left. exists l1, x, l2. split_and!; [done| |done].
      apply call_matches_spec. simpl. by rewrite Hx, orb_true_r. }
    right. split; [done|]. intros x Hx Hc%call_matches_spec. simpl in Hc.
    apply orb_true_iff in Hc as [?|?]; [by apply (H1 x)|by apply (H2 x)].
  - destruct (remove_first_matching_spec (call_matches k c) items)
      as [(l1 & x & l2 & -> & Hx%call_matches_spec & ->)|[-> Hn]].
    + left. eauto 6.
    + right. split; [done|]. intros x Hx Hc%call_matches_spec. apply Hn in Hx. congruence.
Qed.

Lemma remove_neither items e :
  (∀ k, call_id_of k e = None ∧ output_id_of k e = None) →
  remove_corresponding_for items (item e) = items.
Proof.
  intros H. destruct (H KFunction) as [H1 H2], (H KToolSearch) as [H3 H4], (H KCustom) as [H5 H6].
  simpl in *. unfold function_call_id, tool_search_call_id, custom_tool_call_id,
    function_output_id, tool_search_output_id, custom_tool_output_id in *.
  destruct e as [[] m]; simpl in *; repeat case_match; done.
Qed.

(** Pairing does not depend on the order of the items. *)
#[local] Instance collect_ids_perm f : Proper ((≡ₚ) ==> (=)) (collect_ids f).
Proof. intros l1 l2 Hp. apply set_eq. intros c. rewrite !elem_of_collect_ids. by setoid_rewrite Hp. Qed.

#[local] Instance paired_perm : Proper ((≡ₚ) ==> iff) paired.
Proof.
  assert (∀ l1 l2, l1 ≡ₚ l2 → paired l1 → paired l2) as H.
  { intros l1 l2 Hp [Hb Hn]. split.
    - intros k. setoid_rewrite <- Hp. apply Hb.
    - intros k. by rewrite <- Hp. }
  intros l1 l2 Hp. split; apply H; done.
Qed.

(** Taking both halves of a pair out keeps the rest paired. *)
Lemma paired_remove_pair x y k c l :
  paired (x :: y :: l) → call_id_of k x = Some c → output_id_of k y = Some c → paired l.
Proof.
  intros [Hb Hn] Hx Hy. destruct (Hn k) as [Hnc Hno].
  destruct (omap_NoDup_mid _ [] x _ c Hnc Hx) as [_ Hcx].
  destruct (omap_NoDup_mid _ [x] y _ c Hno Hy) as [_ Hoy].
  split; [intros k'; destruct (Hb k') as [H1 H2]; split|].
  - intros c' (e & He & Hc)%elem_of_collect_ids.
    assert (c' ∈ collect_ids (output_id_of k') (x :: y :: l)) as (o & Ho & Hoc)%elem_of_collect_ids.
    { apply H1, elem_of_collect_ids. exists e. split; [by do 2 right|done]. }
    apply elem_of_cons in Ho as [->|[->|Ho]%elem_of_cons].
    + apply (output_no_call _ _ k) in Hoc. congruence.
    + destruct (output_id_unique _ _ _ _ _ Hy Hoc) as [<- <-]. destruct (Hcx e); [by right|done].
    + apply elem_of_collect_ids. eauto.
  - intros e c' He Ho. destruct (H2 e c') as [?|(z & Hz & Hzc)%elem_of_collect_ids]; [by do 2 right|done|by left|].
    right. apply elem_of_cons in Hz as [->|[->|Hz]%elem_of_cons].
    + destruct (call_id_unique _ _ _ _ _ Hx Hzc) as [<- <-]. destruct (Hoy e); [by right|done].
    + apply (output_no_call _ _ k') in Hy. congruence.
    + apply elem_of_collect_ids. eauto.
  - intros k'. destruct (Hn k') as [H1 H2]. split.
    + by apply (omap_NoDup_drop _ [] y), (omap_NoDup_drop _ [] x).
    + by apply (omap_NoDup_drop _ [] y), (omap_NoDup_drop _ [] x).
Qed.

(** So does taking out an item that pairs with nothing. *)
Lemma paired_remove_single e l :
  paired (e :: l) → (∀ k, call_id_of k e = None) →
  (∀ k c x, output_id_of k e = Some c → x ∈ l → call_id_of k x ≠ Some c) → paired l.
Proof.
  intros [Hb Hn] Hcall Hout. split; [intros k; destruct (Hb k) as [H1 H2]; split|].
  - intros c (x & Hx & Hc)%elem_of_collect_ids.
    assert (c ∈ collect_ids (output_id_of k) (e :: l)) as (o & Ho & Hoc)%elem_of_collect_ids.
    { apply H1, elem_of_collect_ids. exists x. split; [by right|done]. }
    apply elem_of_cons in Ho as [->|Ho]; [by destruct (Hout k c x)|]. apply elem_of_collect_ids. eauto.
  - intros o c Ho Hoc. destruct (H2 o c) as [?|(z & Hz & Hzc)%elem_of_collect_ids]; [by right|done|by left|].
    right. apply elem_of_cons in Hz as [->|Hz]; [by rewrite Hcall in Hzc|].
    apply elem_of_collect_ids. eauto.
  - intros k. destruct (Hn k). split; by apply (omap_NoDup_drop _ [] e).
Qed.

Lemma item_role e :
  (∃ k c, call_id_of k e = Some c) ∨ (∃ k c, output_id_of k e = Some c) ∨
  (∀ k, call_id_of k e = None ∧ output_id_of k e = None).
Proof.
  destruct (call_id_of KFunction e) eqn:H1; [eauto|]. destruct (call_id_of KToolSearch e) eqn:H2; [eauto|].
  destruct (call_id_of KCustom e) eqn:H3; [eauto|]. right.
  destruct (output_id_of KFunction e) eqn:H4; [eauto|].
  destruct (output_id_of KToolSearch e) eqn:H5; [eauto|].
  destruct (output_id_of KCustom e) eqn:H6; [eauto|]. right. by intros [].
Qed.

Lemma remove_first_paired e items :
  paired (e :: items) → paired (remove_corresponding_for items (item e)).
Proof.
  intros Hp. destruct (item_role e) as [(k & c & Hc)|[(k & c & Ho)|Hno]].
  - destruct (remove_call items e k c Hc) as [(l1 & o & l2 & -> & Hoc & ->)|[-> Hn]].
    + eapply (paired_remove_pair e o k c); [|done..].
      assert (e :: o :: l1 ++ l2 ≡ₚ e :: l1 ++ o :: l2) as -> by solve_Permutation. done.
    + exfalso. destruct Hp as [Hb _].
      assert (c ∈ collect_ids (output_id_of k) (e :: items)) as (o & Ho & Hoc)%elem_of_collect_ids.
      { apply Hb, elem_of_collect_ids. exists e. split; [by left|done]. }
      apply elem_of_cons in Ho as [->|Ho]; [|by apply (Hn o)].
      apply (output_no_call _ _ k) in Hoc. congruence.
  - pose proof (λ k', output_no_call _ _ k' _ Ho) as Hnc.
    destruct (remove_output items e k c Ho) as [(l1 & x & l2 & -> & Hxc & ->)|[-> Hn]].
    + eapply (paired_remove_pair x e k c); [|done..].
      assert (x :: e :: l1 ++ l2 ≡ₚ e :: l1 ++ x :: l2) as -> by solve_Permutation. done.
    + eapply paired_remove_single; [done|done|]. intros k' c' x Ho' Hx.
      destruct (output_id_unique _ _ _ _ _ Ho Ho') as [<- <-]. by apply Hn.
  - rewrite remove_neither by done. apply (paired_remove_single e); [done|apply Hno|].
    intros k c x Ho. destruct (Hno k). congruence.
Qed.

(** What is removed is at most one more item, and only the counterpart. *)
Lemma remove_corresponding_sublist e items :
  remove_corresponding_for items (item e) `sublist_of` items ∧
  (length items ≤ length (remove_corresponding_for items (item e)) + 1).
Proof.
  assert (∀ P items', removes P items items' → items' `sublist_of` items ∧ length items ≤ length items' + 1) as H.
  { intros P items' [(l1 & x & l2 & -> & _ & ->)|[-> _]]; [|split; [done|lia]]. split.
    - apply sublist_app; [done|]. by apply sublist_cons.
    - rewrite !length_app. simpl. lia. }
  destruct (item_role e) as [(k & c & Hc)|[(k & c & Ho)|Hno]].
  - eapply H. by apply remove_call.
  - eapply H. by apply remove_output.
  - rewrite remove_neither by done. split; [done|lia].
Qed.

(** ** Properties *)

(** C32: in a release build, preparing a history never panics; afterwards every call has
    an output and every output a call (or comes from the server); what was there stays,
    in order, except outputs without a call; no image or audio is left that the model
    does not support; and preparing the result again changes nothing. *)
Theorem normalize_history_balances input_modalities items :
  debug_assertions = false →
  ∃ items',
    normalize_history input_modalities items = Some items' ∧
    balanced items' ∧
    map_item (strip_item input_modalities) <$> filter (λ e, orphan_in items e = false) items
      `sublist_of` items' ∧
    (∀ e, e ∈ items' →
       ((ModalityImage ∉ input_modalities) → has_image (item e) = false) ∧
       ((ModalityAudio ∉ input_modalities) → has_audio (item e) = false)) ∧
    normalize_history input_modalities items' = Some items'.
Proof.
  intros Hd. destruct (ensure_release items Hd) as [l1 H1], (remove_release l1 Hd) as [l2 H2].
  assert (balanced l2) as Hb.
  { eapply removed_balanced; [|done]. intros k. by eapply ensured_calls_answered. }
  exists (map_item (strip_item input_modalities) <$> l2). split_and!.
  - unfold normalize_history. rewrite H1. simpl. rewrite H2. simpl. by rewrite strip_items.
  - by apply strip_balanced.
  - apply fmap_sublist. rewrite (remove_orphan_outputs_filter _ _ H2).
    rewrite (list_filter_iff _ (λ e, orphan_in items e = false) l1).
    + by eapply ensured_sublist.
    + intros e. change (is_orphan _ _ _ e) with (orphan_in l1 e). by rewrite (orphan_in_ensured _ _ _ H1).
  - intros e (e0 & -> & _)%list_elem_of_fmap. split; intros Hu.
    + by apply stripped_no_image.
    + by apply stripped_no_audio.
  - unfold normalize_history. destruct (balanced_fixed _ (strip_balanced input_modalities _ Hb)) as [-> Hr].
    simpl. rewrite Hr. simpl. rewrite strip_items, <- list_fmap_compose. f_equal.
    apply list_fmap_ext. intros _ e _. unfold map_item. simpl. by rewrite strip_item_idem.
Qed.

End normalize.

(** A call without an output, an output without a call and an image that is not supported. *)
Definition unbalanced : list (@ResponseItemEnvelope ()) :=
  new_envelope <$>
    [ FunctionCall (Some (str "fc_1")) (str "shell") None (str "{}") None (str "c1") None;
      CustomToolCallOutput None (str "c2") None (from_text (str "lost")) None;
      Message None (str "user") [ContentInputImage (str "data:image/png;base64,AA") None] None None ].

Lemma normalize_history_balances_witness :
  ∃ items', normalize_history (λ s, s) false [ModalityText] unbalanced = Some items' ∧
    balanced items' ∧ length items' = 3.
Proof.
  destruct (normalize_history_balances (λ s, s) false [ModalityText] unbalanced eq_refl)
    as (items' & Hn & Hb & _).
  exists items'. split; [exact Hn|]. split; [exact Hb|].
  vm_compute in Hn. injection Hn as <-. reflexivity.
Defined.
