(* ===== verification/Fragments.v ===== *)
(** * Context that the program adds to messages ([context-fragments/src], [core/src/context])

    A fragment has a role, a kind and a body between two markers, by which it is recognised
    again later ([matches_text]).  The fragments that make a message of the user or of the
    developer contextual are listed by [core/src/context/contextual_user_message.rs] and
    [core/src/event_mapping.rs]. *)

From S2P Require Import Prelude RustStr Truncate OrdMap Normalize.

Local Open Scope nat_scope.

(** [str::split_once] with a text as the separator. *)
Definition split_once_str (needle s : rstring) : option (rstring * rstring) :=
  '(before, found) ← find_split needle s; Some (before, drop (length needle) found).

(** ** The trait *)

(** [ContextualUserFragment]; a body that panics is [None].  [matches_text] has a default
    in the trait, [matches_marked_text] of the markers. *)
Class ContextualUserFragment (F : Type) := {
  fragment_role : F → rstring;
  fragment_kind : F → rstring;
  type_markers : rstring * rstring;
  fragment_body : F → option rstring;
  matches_text : rstring → bool }.

Global Arguments type_markers F {_}.
Global Arguments matches_text F {_} text.

(** [eq_ignore_ascii_case] of [s.get(..marker.len())]. *)
Definition starts_with_marker (marker s : rstring) : bool :=
  match split_at_byte s (str_len marker) with
  | Some (candidate, _) => eq_ignore_ascii_case candidate marker
  | None => false
  end.

Definition ends_with_marker (marker s : rstring) : bool :=
  match split_at_byte s (str_len s - str_len marker) with
  | Some (_, candidate) => eq_ignore_ascii_case candidate marker
  | None => false
  end.

Definition matches_marked_text (start_marker end_marker text : rstring) : bool :=
  if decide (start_marker = [] ∨ end_marker = []) then false
  else
    let trimmed := trim_start text in
    starts_with_marker start_marker trimmed && ends_with_marker end_marker (trim_end trimmed).

Section trait.
Context {F : Type} `{!ContextualUserFragment F} {Data : Type}.

Definition render (f : F) : option rstring :=
  let '(start_marker, end_marker) := type_markers F in
  body ← fragment_body f;
  if decide (start_marker = [] ∧ end_marker = []) then Some body
  else Some (start_marker ++ body ++ end_marker).

(** [into], through [render_fragment] and [ResponseItem::from]. *)
Definition into (f : F) : option (@ResponseItem Data) :=
  text ← render f;
  Some (Message None (fragment_role f) [ContentInputText text] None
          (Some {| turn_id := None; create_time := None;
                   content_item_kinds := Some [fragment_kind f]; cell_id := None;
                   executed_tool_calls := None; tool_calls_complete := None |})).
End trait.

(** ** Fragments *)

Record UserInstructions := { directory : option rstring; instructions_text : rstring }.

#[export] Instance user_instructions_fragment : ContextualUserFragment UserInstructions := {|
  fragment_role _ := str "user";
  fragment_kind _ := str "agents_md.instructions";
  type_markers := (str "# AGENTS.md instructions", str "</INSTRUCTIONS>");
  fragment_body f :=
    Some (default [] ((λ d, str " for " ++ d) <$> directory f) ++
          [LF; LF] ++ str "<INSTRUCTIONS>" ++ [LF] ++ instructions_text f ++ [LF]);
  matches_text := matches_marked_text (str "# AGENTS.md instructions") (str "</INSTRUCTIONS>") |}.

Record TurnAborted := { guidance : rstring }.

#[export] Instance turn_aborted_fragment : ContextualUserFragment TurnAborted := {|
  fragment_role _ := str "user";
  fragment_kind _ := str "generic.turn_aborted";
  type_markers := (str "<turn_aborted>", str "</turn_aborted>");
  fragment_body f := Some ([LF] ++ guidance f ++ [LF]);
  matches_text := matches_marked_text (str "<turn_aborted>") (str "</turn_aborted>") |}.

(** A plugin by its name and identifier. *)
Record RecommendedPluginsInstructions := { plugins : list (rstring * rstring) }.

Definition RECOMMENDED_PLUGINS_INTRO : rstring :=
  str "Here is a list of plugins that are available but not installed.".
Definition MAX_RECOMMENDED_PLUGINS : nat := 50.

Definition from_plugins (l : list (rstring * rstring)) : option RecommendedPluginsInstructions :=
  if decide (l = []) then None else Some {| plugins := take MAX_RECOMMENDED_PLUGINS l |}.

#[export] Instance recommended_plugins_fragment : ContextualUserFragment RecommendedPluginsInstructions := {|
  fragment_role _ := str "user";
  fragment_kind _ := str "plugins.recommendations";
  type_markers := (str "<recommended_plugins>", str "</recommended_plugins>");
  fragment_body f :=
    let list :=
      join [LF] ((λ p : rstring * rstring, str "- " ++ p.1 ++ str " (" ++ p.2 ++ str ")") <$> plugins f) in
    Some ([LF] ++ RECOMMENDED_PLUGINS_INTRO ++ [LF; LF] ++ list ++ [LF]);
  matches_text := matches_marked_text (str "<recommended_plugins>") (str "</recommended_plugins>") |}.

Record ModelSwitchInstructions := { model_instructions : rstring }.

#[export] Instance model_switch_fragment : ContextualUserFragment ModelSwitchInstructions := {|
  fragment_role _ := str "developer";
  fragment_kind _ := str "model_switch.instructions";
  type_markers := (str "<model_switch>", str "</model_switch>");
  fragment_body f :=
    Some ([LF] ++ str "The user was previously using a different model. Please continue the conversation according to the following instructions:"
          ++ [LF; LF] ++ model_instructions f ++ [LF]);
  matches_text := matches_marked_text (str "<model_switch>") (str "</model_switch>") |}.

Record PersistentModeState := { persistent_instructions : rstring }.

#[export] Instance persistent_mode_fragment : ContextualUserFragment PersistentModeState := {|
  fragment_role _ := str "developer";
  fragment_kind _ := str "persistent_mode.instructions";
  type_markers := (str "<persistent_mode>", str "</persistent_mode>");
  fragment_body f := Some ([LF] ++ persistent_instructions f ++ [LF]);
  matches_text := matches_marked_text (str "<persistent_mode>") (str "</persistent_mode>") |}.

Definition MAX_ADDITIONAL_CONTEXT_VALUE_TOKENS : N := 1000.
Definition ADDITIONAL_CONTEXT_START_MARKER_PREFIX : rstring := str "<external_".
Definition ADDITIONAL_CONTEXT_END_MARKER_SUFFIX : rstring := str ">".

Record AdditionalContextUserFragment := { key : rstring; value : rstring }.
Record AdditionalContextDeveloperFragment := { dev_key : rstring; dev_value : rstring }.

Definition additional_context_body (key value : rstring) : option rstring :=
  '(value, _) ← truncate_middle_with_token_budget value MAX_ADDITIONAL_CONTEXT_VALUE_TOKENS;
  Some (key ++ str ">" ++ value ++ str "</external_" ++ key).

Definition additional_context_developer_body (key value : rstring) : option rstring :=
  '(value, _) ← truncate_middle_with_token_budget value MAX_ADDITIONAL_CONTEXT_VALUE_TOKENS;
  Some (str "<" ++ key ++ str ">" ++ value ++ str "</" ++ key ++ str ">").

Definition additional_context_matches_text (text : rstring) : bool :=
  match strip_prefix ADDITIONAL_CONTEXT_START_MARKER_PREFIX (trim text) with
  | None => false
  | Some rest =>
      match split_once_str ADDITIONAL_CONTEXT_END_MARKER_SUFFIX rest with
      | None => false
      | Some (key, value_and_close) => ends_with value_and_close (str "</external_" ++ key ++ str ">")
      end
  end.

#[export] Instance additional_context_user_fragment : ContextualUserFragment AdditionalContextUserFragment := {|
  fragment_role _ := str "user";
  fragment_kind f := str "additional_content." ++ key f;
  type_markers := (ADDITIONAL_CONTEXT_START_MARKER_PREFIX, ADDITIONAL_CONTEXT_END_MARKER_SUFFIX);
  fragment_body f := additional_context_body (key f) (value f);
  matches_text := additional_context_matches_text |}.

#[export] Instance additional_context_developer_fragment
    : ContextualUserFragment AdditionalContextDeveloperFragment := {|
  fragment_role _ := str "developer";
  fragment_kind f := str "additional_content." ++ dev_key f;
  type_markers := ([], []);
  fragment_body f := additional_context_developer_body (dev_key f) (dev_value f);
  matches_text := matches_marked_text [] [] |}.

Definition CONTEXT_START_MARKER : rstring := str "<codex_internal_context".
Definition CONTEXT_END_MARKER : rstring := str "</codex_internal_context>".
Definition LEGACY_GOAL_CONTEXT_START_MARKER : rstring := str "<goal_context>".
Definition LEGACY_GOAL_CONTEXT_END_MARKER : rstring := str "</goal_context>".
Definition SOURCE_ATTR_START : rstring := str " source=" ++ [DQUOTE].
Definition SOURCE_ATTR_END : rstring := [DQUOTE] ++ str ">".

Definition is_ascii_lowercase (c : char) : bool := ((97 <=? c) && (c <=? 122))%N.

Definition is_valid_source (source : rstring) : bool :=
  match source with
  | [] => false
  | first :: chars =>
      is_ascii_lowercase first &&
      forallb (λ ch, is_ascii_lowercase ch || is_ascii_digit ch || bool_decide (ch = 95%N)) chars
  end.

(** [InternalContextSource::new]; an invalid source is the error. *)
Definition internal_context_source (source : rstring) : rstring + rstring :=
  if is_valid_source source then inl source else inr source.

Record InternalModelContextFragment := { source : rstring; context_body : rstring }.

Definition matches_legacy_goal_context (text : rstring) : bool :=
  starts_with text LEGACY_GOAL_CONTEXT_START_MARKER && ends_with text LEGACY_GOAL_CONTEXT_END_MARKER.

Definition internal_context_matches_text (text : rstring) : bool :=
  let trimmed := trim text in
  if matches_legacy_goal_context trimmed then true
  else
    match strip_prefix CONTEXT_START_MARKER trimmed ≫= strip_prefix SOURCE_ATTR_START with
    | None => false
    | Some rest =>
        match split_once_str SOURCE_ATTR_END rest with
        | None => false
        | Some (source, body_and_close) =>
            is_valid_source source && ends_with body_and_close CONTEXT_END_MARKER
        end
    end.

#[export] Instance internal_model_context_fragment : ContextualUserFragment InternalModelContextFragment := {|
  fragment_role _ := str "user";
  fragment_kind f := source f ++ str ".internal_context";
  type_markers := (CONTEXT_START_MARKER, CONTEXT_END_MARKER);
  fragment_body f :=
    Some (str " source=" ++ [DQUOTE] ++ source f ++ [DQUOTE] ++ str ">" ++ [LF] ++ context_body f ++ [LF]);
  matches_text := internal_context_matches_text |}.

(** The warnings of old sessions. *)
Definition legacy_unified_exec_matches_text (text : rstring) : bool :=
  starts_with (trim text) (str "Warning: The maximum number of unified exec processes you can keep open is").
Definition legacy_apply_patch_matches_text (text : rstring) : bool :=
  let trimmed := trim text in
  starts_with trimmed (str "Warning: apply_patch was requested via ") &&
  ends_with trimmed (str "Use the apply_patch tool instead of exec_command.").
Definition legacy_model_mismatch_matches_text (text : rstring) : bool :=
  starts_with (trim text) (str "Warning: Your account was flagged for potentially high-risk cyber activity").

(** The markers of the fragments whose bodies are made elsewhere. *)
Definition environment_context_markers : rstring * rstring :=
  (str "<environment_context>", str "</environment_context>").
Definition skill_markers : rstring * rstring := (str "<skill>", str "</skill>").
Definition user_shell_command_markers : rstring * rstring :=
  (str "<user_shell_command>", str "</user_shell_command>").
Definition subagent_notification_markers : rstring * rstring :=
  (str "<subagent_notification>", str "</subagent_notification>").

Definition matches_marked (markers : rstring * rstring) (text : rstring) : bool :=
  matches_marked_text markers.1 markers.2 text.

(** ** Which content is contextual *)

Definition CONTEXTUAL_USER_FRAGMENT_MATCHERS : list (rstring → bool) :=
  [ matches_text UserInstructions; matches_marked environment_context_markers;
    matches_text AdditionalContextUserFragment; matches_marked skill_markers;
    matches_marked user_shell_command_markers; matches_text TurnAborted;
    matches_marked subagent_notification_markers; matches_text InternalModelContextFragment;
    matches_text RecommendedPluginsInstructions; legacy_unified_exec_matches_text;
    legacy_apply_patch_matches_text; legacy_model_mismatch_matches_text ].

Definition is_standard_contextual_user_text (text : rstring) : bool :=
  existsb (λ matches, matches text) CONTEXTUAL_USER_FRAGMENT_MATCHERS.

Definition CONTEXTUAL_DEVELOPER_PREFIXES : list rstring :=
  str <$> [ "<permissions instructions>"; "Approved command prefix saved:"; "<model_switch>";
    "<managed_developer_instructions>"; "<persistent_mode>"; "<apps_instructions>";
    "<collaboration_mode>"; "<multi_agent_role>"; "<multi_agent_mode>";
    "<environments_instructions>"; "<git_attribution>"; "<plugins_instructions>";
    "<realtime_conversation>"; "<skills_instructions>"; "<tools>"; "<personality_spec>";
    "<token_budget>"; "<context_window>"; "<context_window_guidance>"; "<rollout_budget>" ]%string.

Definition is_contextual_dev_fragment (content_item : ContentItem) : bool :=
  match content_item with
  | ContentInputText text =>
      let trimmed := trim_start text in
      existsb (λ prefix, starts_with_marker prefix trimmed) CONTEXTUAL_DEVELOPER_PREFIXES
  | _ => false
  end.

Section contextual.
(** The deserialiser of hook prompts, which gives the text and the run identifier. *)
Context (from_xml_str : rstring → option (rstring * rstring)).

Definition parse_hook_prompt_fragment (text : rstring) : option (rstring * rstring) :=
  '(text, hook_run_id) ← from_xml_str (trim text);
  if decide (trim hook_run_id = []) then None else Some (text, hook_run_id).

Definition is_contextual_user_fragment (content_item : ContentItem) : bool :=
  match content_item with
  | ContentInputText text =>
      bool_decide (is_Some (parse_hook_prompt_fragment text)) || is_standard_contextual_user_text text
  | _ => false
  end.

Definition is_contextual_user_message_content (message : list ContentItem) : bool :=
  existsb is_contextual_user_fragment message.
End contextual.

Definition is_contextual_dev_message_content (message : list ContentItem) : bool :=
  existsb is_contextual_dev_fragment message.
Definition has_non_contextual_dev_message_content (message : list ContentItem) : bool :=
  existsb (λ c, negb (is_contextual_dev_fragment c)) message.

(** Whether a message changes what the user has authorised, by its annotations. *)
Definition authorizing_kind (kind : rstring) : bool :=
  starts_with kind (str "user.") ||
  bool_decide (kind ∈ [[]; str "unknown"; str "images.preparation_error"; str "images.unsupported";
                       str "audio.unsupported"]).

Definition is_user_authorization_message {Data} (i : @ResponseItem Data) : bool :=
  match i with
  | Message _ role content _ metadata =>
      bool_decide (role = str "user") &&
      match m ← metadata; content_item_kinds m with
      | None => true
      | Some kinds =>
          bool_decide (kinds = []) || bool_decide (length kinds ≠ length content) ||
          existsb authorizing_kind kinds
      end
  | _ => false
  end.

(** ** The additional context of a thread ([core/src/state/additional_context.rs]) *)

Inductive AdditionalContextKind := Untrusted | Application.
Record AdditionalContextEntry := { entry_value : rstring; kind : AdditionalContextKind }.

#[export] Instance AdditionalContextKind_eq_dec : EqDecision AdditionalContextKind.
Proof. solve_decision. Defined.
#[export] Instance AdditionalContextEntry_eq_dec : EqDecision AdditionalContextEntry.
Proof. solve_decision. Defined.

Section store.
Context {Data : Type}.

Definition additional_context_item (entry : rstring * AdditionalContextEntry)
    : option (@ResponseItem Data) :=
  match kind entry.2 with
  | Untrusted => into {| key := entry.1; value := entry_value entry.2 |}
  | Application => into {| dev_key := entry.1; dev_value := entry_value entry.2 |}
  end.

(** [AdditionalContextStore::merge]: messages for the entries that are new or have
    changed, in the order of the keys, and the values stored afterwards. *)
Definition merge_additional_context (stored values : gmap rstring AdditionalContextEntry)
    : option (list (@ResponseItem Data) * gmap rstring AdditionalContextEntry) :=
  fragments ← mapM additional_context_item
    (filter (λ e, stored !! e.1 ≠ Some e.2) (btree_entries values));
  Some (fragments, values).
End store.

(** ** Rendered fragments are recognised *)

Lemma eq_ignore_ascii_case_refl s : eq_ignore_ascii_case s s = true.
Proof. unfold eq_ignore_ascii_case. by apply bool_decide_eq_true_2. Qed.

Lemma starts_with_marker_app marker s : starts_with_marker marker (marker ++ s) = true.
Proof. unfold starts_with_marker. rewrite split_at_byte_app. apply eq_ignore_ascii_case_refl. Qed.

Lemma ends_with_marker_app marker s : ends_with_marker marker (s ++ marker) = true.
Proof.
  unfold ends_with_marker. rewrite str_len_app.
  replace (str_len s + str_len marker - str_len marker) with (str_len s) by lia.
  rewrite split_at_byte_app. apply eq_ignore_ascii_case_refl.
Qed.

(** A text between solid markers is not changed by trimming. *)
Definition solid_markers (markers : rstring * rstring) : bool :=
  match markers.1, last markers.2 with
  | c :: _, Some d => negb (is_whitespace c) && negb (is_whitespace d)
  | _, _ => false
  end.

Lemma solid_trim markers body :
  solid_markers markers = true →
  let text := markers.1 ++ body ++ markers.2 in
  trim_start text = text ∧ trim_end text = text ∧ markers.1 ≠ [] ∧ markers.2 ≠ [].
Proof.
  destruct markers as [[|c a] b]; [done|]. unfold solid_markers. cbn [fst snd].
  destruct (last b) as [d|] eqn:Hb; [|done].
  intros [Hc%negb_true_iff Hd%negb_true_iff]%andb_true_iff.
  split_and!; [| |done|by intros ->].
  - apply trim_start_matches_id. cbn. by intros c' [= <-].
  - apply trim_end_id. intros c'. rewrite app_assoc, last_app, Hb. by intros [= <-].
Qed.

Lemma matches_marked_render markers body :
  solid_markers markers = true → matches_marked markers (markers.1 ++ body ++ markers.2) = true.
Proof.
  intros Hs. destruct (solid_trim markers body Hs) as (Hts & Hte & H1 & H2).
  unfold matches_marked, matches_marked_text. rewrite decide_False by (intros [?|?]; done).
  rewrite Hts, Hte, starts_with_marker_app, app_assoc, ends_with_marker_app. done.
Qed.

Lemma split_once_str_first needle a r :
  (∀ a' r', a ++ needle ++ r = a' ++ needle ++ r' → length a ≤ length a') →
  split_once_str needle (a ++ needle ++ r) = Some (a, r).
Proof. intros Hmin. unfold split_once_str. rewrite find_split_first by done. cbn. by rewrite drop_app_length. Qed.

(** The first occurrence of a text follows what does not hold its first character. *)
Lemma split_once_str_fresh c needle a r :
  c ∉ a → split_once_str (c :: needle) (a ++ (c :: needle) ++ r) = Some (a, r).
Proof.
  intros Hc. apply split_once_str_first. intros a' r' Heq.
  destruct (decide (length a ≤ length a')); [done|]. exfalso. apply Hc.
  apply (f_equal (.!! length a')) in Heq.
  rewrite lookup_app_l in Heq by lia. cbn [app] in Heq. rewrite list_lookup_middle in Heq by done.
  by eapply list_elem_of_lookup_2.
Qed.

Lemma ends_with_app a b : ends_with (a ++ b) b = true.
Proof. apply ends_with_spec. by exists a. Qed.

Lemma truncate_tokens_total s n : is_Some (truncate_middle_with_token_budget s n).
Proof.
  unfold truncate_middle_with_token_budget. destruct s as [|c s]; [done|]. case_match; [done|].
  destruct (truncate_with_byte_estimate_total (c :: s) (approx_bytes_for_tokens n) true) as [x ->]. done.
Qed.

Lemma solid_trim_both markers body :
  solid_markers markers = true → trim (markers.1 ++ body ++ markers.2) = markers.1 ++ body ++ markers.2.
Proof.
  intros Hs. destruct (solid_trim markers body Hs) as (Hts & Hte & _).
  unfold trim. by rewrite Hts, Hte.
Qed.

(** The fragments of a type are recognised after rendering. *)
Class Recognised (F : Type) `{!ContextualUserFragment F} (ok : F → Prop) : Prop :=
  recognised : ∀ f text, ok f → render f = Some text → matches_text F text = true.

Lemma render_marked {F} `{!ContextualUserFragment F} (f : F) text :
  solid_markers (type_markers F) = true → render f = Some text →
  ∃ body, fragment_body f = Some body ∧ text = (type_markers F).1 ++ body ++ (type_markers F).2.
Proof.
  intros Hs. unfold render. destruct (type_markers F) as [a b] eqn:E.
  destruct (fragment_body f) as [body|]; [|done]. cbn. case_decide as Hd.
  - destruct Hd as [-> ->]. done.
  - intros [= <-]. by exists body.
Qed.

Lemma marked_recognised {F} `{!ContextualUserFragment F} :
  solid_markers (type_markers F) = true →
  (∀ text, matches_text F text = matches_marked (type_markers F) text) → Recognised F (λ _, True).
Proof.
  intros Hs Hm f text _ (body & _ & ->)%render_marked; [|done]. rewrite Hm.
  by apply matches_marked_render.
Qed.

#[export] Instance user_instructions_recognised : Recognised UserInstructions (λ _, True).
Proof. by apply marked_recognised. Qed.
#[export] Instance turn_aborted_recognised : Recognised TurnAborted (λ _, True).
Proof. by apply marked_recognised. Qed.
#[export] Instance recommended_plugins_recognised : Recognised RecommendedPluginsInstructions (λ _, True).
Proof. by apply marked_recognised. Qed.
#[export] Instance model_switch_recognised : Recognised ModelSwitchInstructions (λ _, True).
Proof. by apply marked_recognised. Qed.
#[export] Instance persistent_mode_recognised : Recognised PersistentModeState (λ _, True).
Proof. by apply marked_recognised. Qed.

(** Additional context needs a key that does not close the tag. *)
#[export] Instance additional_context_recognised :
  Recognised AdditionalContextUserFragment (λ f, 62%N ∉ key f).
Proof.
  intros [k v] text Hk Hr. apply render_marked in Hr as (body & Hb & ->); [|done]. cbn in *.
  unfold additional_context_body in Hb.
  destruct (truncate_middle_with_token_budget v _) as [[v' ?]|]; [|done]. cbn in Hb. injection Hb as <-.
  unfold additional_context_matches_text.
  rewrite (solid_trim_both (ADDITIONAL_CONTEXT_START_MARKER_PREFIX, ADDITIONAL_CONTEXT_END_MARKER_SUFFIX))
    by done. cbn [fst snd].
  rewrite strip_prefix_app. rewrite <-!app_assoc.
  rewrite (split_once_str_fresh 62 []) by done. apply ends_with_app.
Qed.

Lemma valid_source_no_quote s : is_valid_source s = true → DQUOTE ∉ s.
Proof.
  destruct s as [|c s]; [done|]. cbn. intros [Hc Hs]%andb_true_iff Hin.
  apply elem_of_cons in Hin as [<-|Hin]; [done|].
  by eapply forallb_forall in Hs; [|by apply list_elem_of_In].
Qed.

#[export] Instance internal_context_recognised :
  Recognised InternalModelContextFragment (λ f, is_valid_source (source f) = true).
Proof.
  intros [s b] text Hk Hr. apply render_marked in Hr as (body & Hb & ->); [|done]. cbn in *.
  injection Hb as <-. unfold internal_context_matches_text.
  rewrite (solid_trim_both (CONTEXT_START_MARKER, CONTEXT_END_MARKER)) by done. cbn [fst snd].
  case_match; [done|]. rewrite strip_prefix_app. cbn [mbind option_bind].
  replace (_ ++ CONTEXT_END_MARKER) with
    (SOURCE_ATTR_START ++ s ++ SOURCE_ATTR_END ++ ([LF] ++ b ++ [LF]) ++ CONTEXT_END_MARKER).
  2:{ unfold SOURCE_ATTR_START, SOURCE_ATTR_END.
      by repeat (rewrite <-app_assoc || (progress cbn [app])). }
  rewrite strip_prefix_app. unfold SOURCE_ATTR_END at 2.
  rewrite (split_once_str_fresh DQUOTE (str ">")) by by apply valid_source_no_quote.
  by rewrite Hk, ends_with_app.
Qed.

(** ** Content that is injected *)

(** The contents that the program adds to the messages of the user. *)
Inductive injected : rstring → Prop :=
| injected_marked markers body :
    markers ∈ [environment_context_markers; skill_markers; user_shell_command_markers;
               subagent_notification_markers] →
    injected (markers.1 ++ body ++ markers.2)
| injected_instructions (f : UserInstructions) text : render f = Some text → injected text
| injected_aborted (f : TurnAborted) text : render f = Some text → injected text
| injected_plugins (f : RecommendedPluginsInstructions) text : render f = Some text → injected text
| injected_internal (f : InternalModelContextFragment) text :
    is_valid_source (source f) = true → render f = Some text → injected text
| injected_additional (f : AdditionalContextUserFragment) text :
    62%N ∉ key f → render f = Some text → injected text.

Lemma matcher_contextual text matcher :
  matcher ∈ CONTEXTUAL_USER_FRAGMENT_MATCHERS → matcher text = true →
  is_standard_contextual_user_text text = true.
Proof.
  intros Hin Hm. apply existsb_exists. exists matcher. split; [|done]. by apply list_elem_of_In.
Qed.

Lemma matchers_listed :
  Forall (.∈ CONTEXTUAL_USER_FRAGMENT_MATCHERS)
    [ matches_text UserInstructions; matches_text TurnAborted;
      matches_text RecommendedPluginsInstructions; matches_text InternalModelContextFragment;
      matches_text AdditionalContextUserFragment; matches_marked environment_context_markers;
      matches_marked skill_markers; matches_marked user_shell_command_markers;
      matches_marked subagent_notification_markers ].
Proof.
  repeat apply Forall_cons_2; unfold CONTEXTUAL_USER_FRAGMENT_MATCHERS; repeat constructor.
Qed.

Lemma recognised_contextual {F} `{!ContextualUserFragment F} ok `{!Recognised F ok} (f : F) text :
  matches_text F ∈ CONTEXTUAL_USER_FRAGMENT_MATCHERS → ok f → render f = Some text →
  is_standard_contextual_user_text text = true.
Proof. intros Hin Hok Hr. eapply matcher_contextual; [done|]. by eapply recognised. Qed.

Lemma injected_contextual text : injected text → is_standard_contextual_user_text text = true.
Proof.
  pose proof matchers_listed as Hm. repeat rewrite Forall_cons in Hm.
  destruct Hm as (H1 & H2 & H3 & H4 & H5 & H6 & H7 & H8 & H9 & _).
  destruct 1 as [markers body Hin|f ? Hr|f ? Hr|f ? Hr|f ? Hs Hr|f ? Hk Hr].
  - eapply (matcher_contextual _ (matches_marked markers)).
    + repeat (apply elem_of_cons in Hin as [->|Hin]; [done|]). by apply elem_of_nil in Hin.
    + apply matches_marked_render.
      repeat (apply elem_of_cons in Hin as [->|Hin]; [done|]). by apply elem_of_nil in Hin.
  - exact (recognised_contextual (λ _, True) f _ H1 I Hr).
  - exact (recognised_contextual (λ _, True) f _ H2 I Hr).
  - exact (recognised_contextual (λ _, True) f _ H3 I Hr).
  - exact (recognised_contextual (λ f, is_valid_source (source f) = true) f _ H4 Hs Hr).
  - exact (recognised_contextual (λ f, 62%N ∉ key f) f _ H5 Hk Hr).
Qed.

(** A key that closes the tag itself is not recognised again: the text is taken for one
    of the user. *)
Lemma additional_context_key_escapes :
  let f := {| key := str "a>b"; value := str "v" |} in
  render f = Some (str "<external_a>b>v</external_a>b>") ∧
  is_standard_contextual_user_text (str "<external_a>b>v</external_a>b>") = false.
Proof. vm_compute. by split. Qed.

(** ** The store *)

Lemma additional_context_item_total {Data} e : is_Some (@additional_context_item Data e).
Proof.
  destruct e as [k [v [|]]]; cbn; unfold into, render; cbn;
    unfold additional_context_body, additional_context_developer_body;
    destruct (truncate_tokens_total v MAX_ADDITIONAL_CONTEXT_VALUE_TOKENS) as [[v' o] ->]; cbn; by case_decide.
Qed.

Lemma mapM_total {A B} (f : A → option B) l :
  (∀ x, is_Some (f x)) → ∃ k, mapM f l = Some k ∧ Forall2 (λ x y, f x = Some y) l k.
Proof.
  intros Hf. assert (is_Some (mapM f l)) as [k Hk].
  { apply mapM_is_Some. apply Forall_true. intros x. apply Hf. }
  exists k. split; [done|]. by apply mapM_Some in Hk.
Qed.

(** Exactly the entries that differ from the stored ones make messages, one each in the
    order of the keys, and merging the same values again makes none. *)
Theorem merge_additional_context_exact {Data} stored values :
  ∃ changed (messages : list (@ResponseItem Data)),
    merge_additional_context stored values = Some (messages, values) ∧
    Forall2 (λ e m, additional_context_item e = Some m) changed messages ∧
    changed `sublist_of` btree_entries values ∧
    (∀ k e, (k, e) ∈ changed ↔ values !! k = Some e ∧ stored !! k ≠ Some e) ∧
    merge_additional_context values values = Some ([] : list (@ResponseItem Data), values).
Proof.
  destruct (mapM_total (@additional_context_item Data)
    (filter (λ e, stored !! e.1 ≠ Some e.2) (btree_entries values))) as (msgs & Hm & Hf).
  { apply additional_context_item_total. }
  eexists _, msgs. split_and!; [|exact Hf|apply sublist_filter| |].
  - unfold merge_additional_context. by rewrite Hm.
  - intros k e. rewrite list_elem_of_filter, elem_of_btree_entries. tauto.
  - unfold merge_additional_context.
    rewrite (proj1 (filter_nil_Forall _ _)); [done|]. apply Forall_forall.
    intros [k e] He Hn. by apply Hn, elem_of_btree_entries.
Qed.
