(* ===== verification/RetainedContext.v ===== *)
(** * Facts retained outside the model's context ([history/src/retained_context.rs])

    The answers and the messages of the user that survive compaction, in two bounded
    families with the order of their acceptance.  The length of the JSON encoding comes
    from a library: it is the class [JsonLen], with what the code relies on in [JsonArray]. *)

From S2P Require Import Prelude RustStr.

Local Open Scope nat_scope.

(** [serde_json::to_vec(x).len()]; [None] is an error of the encoder. *)
Class JsonLen (A : Type) := json_len : A → option N.

Definition MAX_FAMILY_RECORDS : nat := 8.
Definition MAX_RECORD_BYTES : N := 16384.
Definition MAX_FAMILY_BYTES : N := 65536.

(** ** Records *)

Record VerifiedQuestionAnswer := { question : rstring; answer : rstring }.

Record VerifiedAnswer := {
  answer_turn_id : rstring;
  answer_call_id : rstring;
  questions : list VerifiedQuestionAnswer }.

Record RetainedUserMessage := {
  message_turn_id : rstring;
  message_id : option rstring;
  message_text : rstring;
  complete : bool }.

Record Ordered (T : Type) := { order : N; value : T }.
Arguments Build_Ordered {T}.
Arguments order {T}.
Arguments value {T}.

Inductive RetainedContextEntry :=
| UserMessage (m : RetainedUserMessage)
| AnswerEntry (a : VerifiedAnswer).

(** The only event, with the order of acceptance if it has one. *)
Inductive RetainedContextEvent :=
| VerifiedAnswerEvent (a : VerifiedAnswer) (acceptance_order : option N).

Record RetainedContext := {
  verified_answers : list (Ordered VerifiedAnswer);
  verified_answers_incomplete : bool;
  user_messages : list (Ordered RetainedUserMessage);
  user_messages_incomplete : bool;
  next_order : N }.

#[export] Instance VerifiedQuestionAnswer_eq_dec : EqDecision VerifiedQuestionAnswer.
Proof. solve_decision. Defined.
#[export] Instance VerifiedAnswer_eq_dec : EqDecision VerifiedAnswer.
Proof. solve_decision. Defined.
#[export] Instance RetainedUserMessage_eq_dec : EqDecision RetainedUserMessage.
Proof. solve_decision. Defined.

Definition default_retained : RetainedContext :=
  {| verified_answers := []; verified_answers_incomplete := false; user_messages := [];
     user_messages_incomplete := false; next_order := 0 |}.

(** ** Bounds *)

(** [s.truncate(s.floor_char_boundary(n))]. *)
Fixpoint truncate_floor (n : nat) (s : rstring) : rstring :=
  match s with
  | [] => []
  | c :: s' => if decide (len_utf8 c ≤ n) then c :: truncate_floor (n - len_utf8 c) s' else []
  end.

Section bounds.
Context {T : Type}.

(** [sort_by_key], which is stable. *)
Fixpoint insert_ordered (x : Ordered T) (l : list (Ordered T)) : list (Ordered T) :=
  match l with
  | [] => [x]
  | y :: l' => if (order x <=? order y)%N then x :: l else y :: insert_ordered x l'
  end.
Definition sort_by_order (l : list (Ordered T)) : list (Ordered T) := foldr insert_ordered [] l.

Context `{!JsonLen (list (Ordered T))}.

(** The condition of the loop. *)
Definition over_bounds (items : list (Ordered T)) : bool :=
  bool_decide (MAX_FAMILY_RECORDS < length items) ||
  match json_len items with Some n => (MAX_FAMILY_BYTES <? n)%N | None => true end.

(** The loop; [None] is a loop that does not end, with nothing left to remove. *)
Fixpoint evict (items : list (Ordered T)) (incomplete : bool) : option (list (Ordered T) * bool) :=
  if over_bounds items
  then match items with [] => None | _ :: rest => evict rest true end
  else Some (items, incomplete).

Definition bound_family (items : list (Ordered T)) (incomplete : bool)
    : option (list (Ordered T) * bool) :=
  evict (sort_by_order items) incomplete.
End bounds.

Section retained.
Context `{!JsonLen VerifiedAnswer, !JsonLen RetainedUserMessage}.
Context `{!JsonLen (list (Ordered VerifiedAnswer)), !JsonLen (list (Ordered RetainedUserMessage))}.

Implicit Types (m : RetainedUserMessage) (a : VerifiedAnswer) (self : RetainedContext).

Definition over_record {A} `{!JsonLen A} (x : A) : bool :=
  match json_len x with Some n => (MAX_RECORD_BYTES <? n)%N | None => true end.

Definition bound_message m : RetainedUserMessage :=
  if over_record m
  then {| message_turn_id := truncate_floor 1024 (message_turn_id m);
          message_id := truncate_floor 1024 <$> message_id m; message_text := []; complete := false |}
  else m.

Definition bound_answer a : VerifiedAnswer :=
  if over_record a
  then {| answer_turn_id := truncate_floor 1024 (answer_turn_id a);
          answer_call_id := truncate_floor 1024 (answer_call_id a); questions := [] |}
  else a.

Definition bound_event (event : RetainedContextEvent) : RetainedContextEvent :=
  match event with VerifiedAnswerEvent a o => VerifiedAnswerEvent (bound_answer a) o end.

(** ** Operations *)

Definition with_next_order (n : N) self : RetainedContext :=
  {| verified_answers := verified_answers self;
     verified_answers_incomplete := verified_answers_incomplete self;
     user_messages := user_messages self;
     user_messages_incomplete := user_messages_incomplete self; next_order := n |}.
Definition with_answers (l : list (Ordered VerifiedAnswer)) (incomplete : bool) self : RetainedContext :=
  {| verified_answers := l; verified_answers_incomplete := incomplete;
     user_messages := user_messages self;
     user_messages_incomplete := user_messages_incomplete self; next_order := next_order self |}.
Definition with_messages (l : list (Ordered RetainedUserMessage)) (incomplete : bool) self
    : RetainedContext :=
  {| verified_answers := verified_answers self;
     verified_answers_incomplete := verified_answers_incomplete self;
     user_messages := l; user_messages_incomplete := incomplete; next_order := next_order self |}.

Definition reserve_order self : N * RetainedContext :=
  (next_order self, with_next_order (saturating_add (next_order self) 1) self).

Definition record_order (acceptance_order : option N) self : N * RetainedContext :=
  let order := default (next_order self) acceptance_order in
  (order, with_next_order (N.max (next_order self) (saturating_add order 1)) self).

Definition verified_answers_complete self : bool :=
  negb (verified_answers_incomplete self) &&
  forallb (λ e, negb (bool_decide (questions (value e) = []))) (verified_answers self).

Definition user_messages_complete self : bool :=
  negb (user_messages_incomplete self) && forallb (λ e, complete (value e)) (user_messages self).

Definition mark_user_messages_incomplete self : RetainedContext :=
  with_messages (user_messages self) true self.

(** Both families by their order, answers before messages of the same order. *)
Definition ordered_entries self : list RetainedContextEntry :=
  value <$> sort_by_order
    (((λ e, Build_Ordered (order e) (AnswerEntry (value e))) <$> verified_answers self) ++
     ((λ e, Build_Ordered (order e) (UserMessage (value e))) <$> user_messages self)).

(** The end of [record_user_message], for a message that is not there yet. *)
Definition push_message m (acceptance_order : option N) self : option RetainedContext :=
  let '(order, self) := record_order acceptance_order self in
  '(l, incomplete) ← bound_family (user_messages self ++ [Build_Ordered order m])
                       (user_messages_incomplete self);
  Some (with_messages l incomplete self).

Definition record_user_message m (acceptance_order : option N) self : option RetainedContext :=
  let m := bound_message m in
  match list_find (λ e, message_id m ≠ None ∧ message_id (value e) = message_id m) (user_messages self) with
  | Some (index, e) =>
      if decide (value e = m) then Some self
      else push_message m acceptance_order
             (with_messages (delete index (user_messages self)) (user_messages_incomplete self) self)
  | None => push_message m acceptance_order self
  end.

(** The end of [record]. *)
Definition push_answer a (acceptance_order : option N) self : option RetainedContext :=
  let '(order, self) := record_order acceptance_order self in
  '(l, incomplete) ← bound_family (verified_answers self ++ [Build_Ordered order a])
                       (verified_answers_incomplete self);
  Some (with_answers l incomplete self).

(** [record]; the result tells whether something has changed. *)
Definition record (event : RetainedContextEvent) self : option (bool * RetainedContext) :=
  match bound_event event with
  | VerifiedAnswerEvent a acceptance_order =>
      match list_find (λ e, answer_turn_id (value e) = answer_turn_id a ∧
                            answer_call_id (value e) = answer_call_id a) (verified_answers self) with
      | Some (index, e) =>
          if decide (value e = a) then Some (false, self)
          else pair true <$>
                 push_answer a acceptance_order
                   (with_answers (delete index (verified_answers self))
                      (verified_answers_incomplete self) self)
      | None => pair true <$> push_answer a acceptance_order self
      end
  end.

(** One entry of the loops of [restore]. *)
Definition raise_next {T} (n : N) (e : Ordered T) : N := N.max n (saturating_add (order e) 1).

Definition restore (checkpoint : option RetainedContext) : option RetainedContext :=
  let self := default (mark_user_messages_incomplete default_retained) checkpoint in
  let answers := (λ e, Build_Ordered (order e) (bound_answer (value e))) <$> verified_answers self in
  let messages := (λ e, Build_Ordered (order e) (bound_message (value e))) <$> user_messages self in
  let next := foldl raise_next (foldl raise_next (next_order self) answers) messages in
  '(answers, answers_incomplete) ← bound_family answers (verified_answers_incomplete self);
  '(messages, messages_incomplete) ← bound_family messages (user_messages_incomplete self);
  Some {| verified_answers := answers; verified_answers_incomplete := answers_incomplete;
          user_messages := messages; user_messages_incomplete := messages_incomplete;
          next_order := next |}.

Definition retain_answers (keep : VerifiedAnswer → bool) self : RetainedContext :=
  with_answers (filter (λ e, keep (value e) = true) (verified_answers self))
    (verified_answers_incomplete self) self.

(** The order at which a rollback cuts, if it is known. *)
Definition rollback_order (first_removed_message_id : option rstring) (acceptance_order : option N) self
    : option N :=
  match acceptance_order with
  | Some o => Some o
  | None =>
      id ← first_removed_message_id;
      '(_, e) ← list_find (λ e, message_id (value e) = Some id) (user_messages self);
      Some (order e)
  end.

Definition rollback (turn_ids : list rstring) (first_removed_message_id : option rstring)
    (acceptance_order : option N) self : RetainedContext :=
  match rollback_order first_removed_message_id acceptance_order self with
  | Some o =>
      {| verified_answers := filter (λ e, (order e < o)%N) (verified_answers self);
         verified_answers_incomplete := verified_answers_incomplete self;
         user_messages := filter (λ e, (order e < o)%N) (user_messages self);
         user_messages_incomplete := user_messages_incomplete self;
         next_order := next_order self |}
  | None =>
      {| verified_answers :=
           filter (λ e, answer_turn_id (value e) ∉ turn_ids) (verified_answers self);
         verified_answers_incomplete := verified_answers_incomplete self;
         user_messages := filter (λ e, message_turn_id (value e) ∉ turn_ids) (user_messages self);
         user_messages_incomplete :=
           user_messages_incomplete self || bool_decide (is_Some first_removed_message_id) ||
           existsb (λ e, bool_decide (message_turn_id (value e) ∈ turn_ids)) (user_messages self);
         next_order := next_order self |}
  end.

(** ** Runs of operations *)

Inductive retained_op :=
| OpReserve
| OpMessage (m : RetainedUserMessage) (acceptance_order : option N)
| OpAnswer (event : RetainedContextEvent)
| OpMark
| OpRestore (checkpoint : option RetainedContext)
| OpRetain (keep : VerifiedAnswer → bool)
| OpRollback (turn_ids : list rstring) (first_removed : option rstring) (acceptance_order : option N).

Definition retained_step (op : retained_op) self : option RetainedContext :=
  match op with
  | OpReserve => Some (reserve_order self).2
  | OpMessage m o => record_user_message m o self
  | OpAnswer event => snd <$> record event self
  | OpMark => Some (mark_user_messages_incomplete self)
  | OpRestore checkpoint => restore checkpoint
  | OpRetain keep => Some (retain_answers keep self)
  | OpRollback t id o => Some (rollback t id o self)
  end.

Fixpoint retained_run (ops : list retained_op) self : option RetainedContext :=
  match ops with
  | [] => Some self
  | op :: ops' => self' ← retained_step op self; retained_run ops' self'
  end.

(** ** Families *)

Arguments bound_family : simpl never.

(** What the encoder of lists promises: an empty list takes two bytes, and dropping
    elements does not make the encoding longer. *)
Class JsonArray (T : Type) `{!JsonLen (list (Ordered T))} : Prop := {
  json_len_nil : json_len ([] : list (Ordered T)) = Some 2%N;
  json_len_sublist (l k : list (Ordered T)) n :
    l `sublist_of` k → json_len k = Some n → ∃ n', json_len l = Some n' ∧ (n' ≤ n)%N }.

Definition by_order {T} (x y : Ordered T) : Prop := (order x ≤ order y)%N.

Lemma insert_ordered_perm {T} (x : Ordered T) l : insert_ordered x l ≡ₚ x :: l.
Proof.
  induction l as [|y l IH]; [done|]. cbn. case_match; [done|]. rewrite IH. apply perm_swap.
Qed.

Lemma sort_by_order_perm {T} (l : list (Ordered T)) : sort_by_order l ≡ₚ l.
Proof. induction l as [|x l IH]; [done|]. cbn. by rewrite insert_ordered_perm, IH. Qed.

Lemma insert_ordered_sorted {T} (x : Ordered T) l :
  StronglySorted by_order l → StronglySorted by_order (insert_ordered x l).
Proof.
  induction 1 as [|y l Hs IH Hf]; cbn; [by repeat constructor|].
  case_match eqn:E.
  - apply N.leb_le in E. constructor; [by constructor|]. constructor; [done|].
    eapply Forall_impl; [exact Hf|]. unfold by_order. intros z ?. lia.
  - apply N.leb_gt in E. constructor; [done|]. rewrite insert_ordered_perm. constructor; [|done].
    unfold by_order. lia.
Qed.

Lemma sort_by_order_sorted {T} (l : list (Ordered T)) : StronglySorted by_order (sort_by_order l).
Proof. induction l as [|x l IH]; [constructor|]. by apply insert_ordered_sorted. Qed.

Lemma Forall_sublist {A} (P : A → Prop) (l k : list A) : l `sublist_of` k → Forall P k → Forall P l.
Proof. induction 1; intros Hk; [done| |]; apply Forall_cons in Hk as [? ?]; auto. Qed.

Lemma StronglySorted_sublist {A} (R : relation A) (l k : list A) :
  l `sublist_of` k → StronglySorted R k → StronglySorted R l.
Proof.
  induction 1 as [|x l k Hs IH|x l k Hs IH]; [done| |]; intros [Hk Hf]%StronglySorted_inv; [|auto].
  constructor; [auto|]. by eapply Forall_sublist.
Qed.

Section family.
Context {T : Type} `{!JsonLen (list (Ordered T)), !JsonArray T}.
Implicit Types (l k : list (Ordered T)).

Lemma over_bounds_nil : over_bounds ([] : list (Ordered T)) = false.
Proof. unfold over_bounds. by rewrite json_len_nil. Qed.

Lemma over_bounds_sublist l k : l `sublist_of` k → over_bounds k = false → over_bounds l = false.
Proof.
  unfold over_bounds. intros Hs [H1 H2]%orb_false_iff. apply orb_false_iff. split.
  - apply bool_decide_eq_false in H1. apply bool_decide_eq_false.
    pose proof (sublist_length _ _ Hs). lia.
  - destruct (json_len k) as [n|] eqn:E; [|done].
    destruct (json_len_sublist _ _ _ Hs E) as (n' & -> & Hn).
    apply N.ltb_ge in H2. apply N.ltb_ge. lia.
Qed.

(** The loop ends, within the bounds, and tells when it has removed something. *)
Lemma evict_spec l b :
  ∃ k b', evict l b = Some (k, b') ∧ k `suffix_of` l ∧ over_bounds k = false ∧
    ((k = l ∧ b' = b) ∨ b' = true).
Proof.
  revert b. induction l as [|x l IH]; intros b; cbn [evict].
  - rewrite over_bounds_nil. exists [], b. split_and!; [done|done|apply over_bounds_nil|by left].
  - destruct (over_bounds (x :: l)) eqn:E; [|exists (x :: l), b; split_and!; by auto].
    destruct (IH true) as (k & b' & -> & Hs & Ho & Hb). exists k, b'. split_and!; try done.
    + by apply suffix_cons_r.
    + right. destruct Hb as [[_ ->]|]; done.
Qed.

Lemma bound_family_spec l b :
  ∃ k b', bound_family l b = Some (k, b') ∧ over_bounds k = false ∧ StronglySorted by_order k ∧
    (∀ e, e ∈ k → e ∈ l) ∧ ((k ≡ₚ l ∧ b' = b) ∨ b' = true).
Proof.
  unfold bound_family. destruct (evict_spec (sort_by_order l) b) as (k & b' & -> & Hs & Ho & Hb).
  exists k, b'. pose proof (sort_by_order_perm l) as Hp. split_and!; try done.
  - eapply StronglySorted_sublist; [|apply sort_by_order_sorted]. destruct Hs as [r ->].
    by apply sublist_inserts_l.
  - intros e He. rewrite <-Hp. destruct Hs as [r ->]. set_solver.
  - destruct Hb as [[-> ->]|]; auto.
Qed.
End family.

(** ** The invariant *)

(** An order is below the next one, until the counter saturates. *)
Definition below_next {T} (n : N) (e : Ordered T) : Prop := (order e < n ∨ USIZE_MAX ≤ n)%N.

Record family_ok {T} `{!JsonLen (list (Ordered T))} (n : N) (l : list (Ordered T)) : Prop := {
  family_bounds : over_bounds l = false;
  family_sorted : StronglySorted by_order l;
  family_below : Forall (below_next n) l }.

Definition retained_ok self : Prop :=
  family_ok (next_order self) (verified_answers self) ∧ family_ok (next_order self) (user_messages self).

Lemma below_next_mono {T} n n' (e : Ordered T) : (n ≤ n')%N → below_next n e → below_next n' e.
Proof. unfold below_next. lia. Qed.

Lemma family_ok_mono {T} `{!JsonLen (list (Ordered T))} n n' (l : list (Ordered T)) :
  (n ≤ n')%N → family_ok n l → family_ok n' l.
Proof. intros Hn [? ? Hb]. split; try done. eapply Forall_impl; [done|]. eauto using below_next_mono. Qed.

Lemma family_ok_reserve {T} `{!JsonLen (list (Ordered T))} n (l : list (Ordered T)) :
  family_ok n l → family_ok (saturating_add n 1) l.
Proof.
  intros [? ? Hb]. split; try done. eapply Forall_impl; [done|].
  intros e. unfold below_next, saturating_add. lia.
Qed.

Lemma family_ok_sublist {T} `{!JsonLen (list (Ordered T)), !JsonArray T} n (l k : list (Ordered T)) :
  l `sublist_of` k → family_ok n k → family_ok n l.
Proof.
  intros Hs [? ? Hb]. split; [by eapply over_bounds_sublist|by eapply StronglySorted_sublist|].
  by eapply Forall_sublist.
Qed.

Lemma family_ok_nil {T} `{!JsonLen (list (Ordered T)), !JsonArray T} n : family_ok n ([] : list (Ordered T)).
Proof. split; [apply over_bounds_nil|constructor|constructor]. Qed.

Lemma bound_family_ok {T} `{!JsonLen (list (Ordered T)), !JsonArray T} n (l : list (Ordered T)) b :
  Forall (below_next n) l → ∃ k b', bound_family l b = Some (k, b') ∧ family_ok n k.
Proof.
  intros Hl. destruct (bound_family_spec l b) as (k & b' & -> & Ho & Hs & Hin & _).
  exists k, b'. split; [done|]. split; [done|done|]. rewrite Forall_forall in Hl |- *. auto.
Qed.

(** Adding a record to a family. *)
Lemma record_order_below {T} self o (l : list (Ordered T)) x n self' :
  record_order o self = (n, self') → Forall (below_next (next_order self)) l →
  Forall (below_next (next_order self')) (l ++ [Build_Ordered n x]) ∧
  (next_order self ≤ next_order self')%N ∧
  verified_answers self' = verified_answers self ∧ user_messages self' = user_messages self ∧
  verified_answers_incomplete self' = verified_answers_incomplete self ∧
  user_messages_incomplete self' = user_messages_incomplete self.
Proof.
  intros [= <- <-] Hl. cbn. split_and!; try done; [|lia]. apply Forall_app. split.
  - eapply Forall_impl; [done|]. intros e. apply below_next_mono. lia.
  - constructor; [|done]. unfold below_next, saturating_add. cbn. lia.
Qed.

Lemma raise_next_below {T} n (l : list (Ordered T)) :
  (n ≤ foldl raise_next n l)%N ∧ Forall (below_next (foldl raise_next n l)) l.
Proof.
  revert n. induction l as [|x l IH]; intros n; cbn; [by split|].
  destruct (IH (raise_next n x)) as [H1 H2]. unfold raise_next at 1 in H1. split; [lia|].
  constructor; [|done]. revert H1. unfold below_next, saturating_add. lia.
Qed.

Section laws.
Context `{!JsonArray VerifiedAnswer, !JsonArray RetainedUserMessage}.

Lemma default_retained_ok : retained_ok default_retained.
Proof. split; apply family_ok_nil. Qed.

Lemma push_message_ok m o self :
  retained_ok self → ∃ self', push_message m o self = Some self' ∧ retained_ok self'.
Proof.
  intros [Ha Hm]. unfold push_message. destruct (record_order o self) as [n s1] eqn:E.
  eapply (record_order_below _ _ _ m) in E as (Hb & Hn & HA & HM & _); [|apply Hm].
  rewrite HM. destruct (bound_family_ok _ _ (user_messages_incomplete s1) Hb) as (k & b' & -> & Hk).
  eexists. split; [done|]. split; cbn; [|done]. rewrite HA. by eapply family_ok_mono.
Qed.

Lemma push_answer_ok a o self :
  retained_ok self → ∃ self', push_answer a o self = Some self' ∧ retained_ok self'.
Proof.
  intros [Ha Hm]. unfold push_answer. destruct (record_order o self) as [n s1] eqn:E.
  eapply (record_order_below _ _ _ a) in E as (Hb & Hn & HA & HM & _); [|apply Ha].
  rewrite HA. destruct (bound_family_ok _ _ (verified_answers_incomplete s1) Hb) as (k & b' & -> & Hk).
  eexists. split; [done|]. split; cbn; [done|]. rewrite HM. by eapply family_ok_mono.
Qed.

Lemma restore_ok checkpoint : ∃ self', restore checkpoint = Some self' ∧ retained_ok self'.
Proof.
  unfold restore. set (self := default _ checkpoint).
  set (A := _ <$> verified_answers self). set (M := _ <$> user_messages self).
  destruct (raise_next_below (next_order self) A) as [_ HA].
  destruct (raise_next_below (foldl raise_next (next_order self) A) M) as [Hle HM].
  set (n := foldl raise_next (foldl raise_next _ _) M) in *.
  destruct (bound_family_ok n A (verified_answers_incomplete self)) as (k1 & b1 & -> & H1).
  { eapply Forall_impl; [exact HA|]. intros e. by apply below_next_mono. }
  destruct (bound_family_ok n M (user_messages_incomplete self) HM) as (k2 & b2 & -> & H2).
  eexists. split; [done|]. by split.
Qed.

Lemma retained_step_ok op self :
  retained_ok self → ∃ self', retained_step op self = Some self' ∧ retained_ok self'.
Proof.
  intros Hok. pose proof Hok as [Ha Hm]. destruct op as [|m o|[a o]| |c|keep|t id o]; cbn [retained_step].
  - eexists. split; [done|]. by split; apply family_ok_reserve.
  - unfold record_user_message. destruct (list_find _ _) as [[index e]|]; [|by apply push_message_ok].
    case_decide; [by eexists|]. apply push_message_ok. split; [done|].
    eapply family_ok_sublist; [|done]. apply sublist_delete.
  - unfold record. cbn [bound_event]. destruct (list_find _ _) as [[index e]|]; [case_decide; [by eexists|]|].
    + edestruct (push_answer_ok (bound_answer a) o) as (s' & -> & ?); [|by eexists].
      split; [|done]. eapply family_ok_sublist; [|done]. apply sublist_delete.
    + edestruct (push_answer_ok (bound_answer a) o) as (s' & -> & ?); [done|by eexists].
  - eexists. by split.
  - apply restore_ok.
  - eexists. split; [done|]. split; [|done]. eapply family_ok_sublist; [|done]. apply sublist_filter.
  - eexists. split; [done|]. unfold rollback. destruct (rollback_order _ _ _);
      split; (eapply family_ok_sublist; [|done]); apply sublist_filter.
Qed.

(** ** Nothing is lost silently *)

(** The message is retained, or the messages are known to be incomplete. *)
Definition present m self : Prop :=
  user_messages_incomplete self = true ∨ bound_message m ∈ value <$> user_messages self.

(** Operations that do not replace the messages or cut them at an order. *)
Definition keeps_messages (op : retained_op) : Prop :=
  match op with
  | OpRestore _ => False
  | OpRollback _ id o => id = None ∧ o = None
  | _ => True
  end.

(** A later message with the same identifier takes the place of [m]. *)
Definition supersedes m (op : retained_op) : Prop :=
  match op with
  | OpMessage m' _ =>
      is_Some (message_id (bound_message m')) ∧
      message_id (bound_message m') = message_id (bound_message m)
  | _ => False
  end.

Lemma push_message_present m b o self self' :
  push_message b o self = Some self' →
  (user_messages_incomplete self = true ∨
   bound_message m ∈ value <$> user_messages self ∨ bound_message m = b) → present m self'.
Proof.
  unfold push_message. destruct (record_order o self) as [n s1] eqn:E. injection E as <- <-.
  cbn. destruct (bound_family_spec (user_messages self ++ [Build_Ordered (default (next_order self) o) b])
    (user_messages_incomplete self)) as (k & b' & -> & _ & _ & _ & Hb). cbn.
  intros [= <-] Hin. unfold present. cbn. destruct Hb as [[Hp ->] | ->]; [|by left].
  destruct Hin as [Hin|Hin]; [by left|right]. rewrite Hp, fmap_app, elem_of_app. cbn.
  rewrite list_elem_of_singleton. done.
Qed.

Lemma record_user_message_present m o self self' :
  record_user_message m o self = Some self' → present m self'.
Proof.
  unfold record_user_message. destruct (list_find _ _) as [[index e]|] eqn:Hf.
  - case_decide as He; [|intros; eapply push_message_present; eauto].
    intros [= <-]. right. apply list_find_Some in Hf as (Hf & _).
    apply list_elem_of_fmap. exists e. split; [done|]. by eapply list_elem_of_lookup_2.
  - intros. eapply push_message_present; eauto.
Qed.

Lemma record_user_message_keeps m m' o self self' :
  ¬ supersedes m (OpMessage m' o) → record_user_message m' o self = Some self' →
  present m self → present m self'.
Proof.
  intros Hns. unfold record_user_message. destruct (list_find _ _) as [[index e]|] eqn:Hf.
  - case_decide as He; [by intros [= <-]|]. intros Hp [Hi|Hin].
    { eapply push_message_present; [done|]. by left. }
    eapply push_message_present; [done|]. cbn. right. left.
    apply list_find_Some in Hf as (Hl & [Hid Heq] & _).
    rewrite (delete_Permutation _ _ _ Hl) in Hin. cbn in Hin.
    apply elem_of_cons in Hin as [Hm|?]; [|done]. destruct Hns. split.
    + destruct (message_id (bound_message m')); [done|congruence].
    + congruence.
  - intros Hp [Hi|Hin]; (eapply push_message_present; [done|]); tauto.
Qed.

Lemma push_answer_messages a o self self' :
  push_answer a o self = Some self' →
  user_messages self' = user_messages self ∧
  user_messages_incomplete self' = user_messages_incomplete self.
Proof.
  unfold push_answer. destruct (record_order o self) as [n s1] eqn:E. injection E as <- <-.
  destruct (bound_family _ _) as [[l b]|]; [|done]. cbn. by intros [= <-].
Qed.

Lemma record_messages event self r self' :
  record event self = Some (r, self') →
  user_messages self' = user_messages self ∧
  user_messages_incomplete self' = user_messages_incomplete self.
Proof.
  destruct event as [a o]. unfold record. cbn [bound_event].
  destruct (list_find _ _) as [[index e]|]; [case_decide; [by intros [= <- <-]|]|];
    intros ([? ?] & Hp & [= -> ->])%fmap_Some || intros (? & Hp & [= -> ->])%fmap_Some;
    by apply push_answer_messages in Hp.
Qed.

Lemma retained_step_present m op self self' :
  keeps_messages op → ¬ supersedes m op → retained_step op self = Some self' →
  present m self → present m self'.
Proof.
  destruct op as [|m' o|event| |c|keep|t id o]; cbn [keeps_messages retained_step]; intros Hk Hns Hs Hp.
  - injection Hs as <-. done.
  - by eapply record_user_message_keeps.
  - apply fmap_Some in Hs as ([r s'] & Hs & ->). apply record_messages in Hs as [H1 H2].
    unfold present. cbn. by rewrite H1, H2.
  - injection Hs as <-. by left.
  - done.
  - injection Hs as <-. done.
  - injection Hs as <-. destruct Hk as [-> ->]. unfold present, rollback. cbn.
    destruct Hp as [->|Hin]; [by left|].
    destruct (existsb _ _) eqn:E; [left; by rewrite !orb_true_r|]. right.
    apply list_elem_of_fmap in Hin as (e & -> & Hin). apply list_elem_of_fmap. exists e.
    split; [done|]. apply list_elem_of_filter. split; [|done]. intros Ht.
    apply eq_true_false_abs in E; [done|]. apply existsb_exists. exists e.
    split; [by apply list_elem_of_In|]. by apply bool_decide_eq_true_2.
Qed.

Lemma retained_run_app ops1 ops2 self :
  retained_run (ops1 ++ ops2) self = retained_run ops1 self ≫= retained_run ops2.
Proof.
  revert self. induction ops1 as [|op ops1 IH]; intros self; [done|]. cbn [retained_run app].
  destruct (retained_step op self) as [s1|]; [|done]. cbn [mbind option_bind]. apply IH.
Qed.

Lemma retained_run_present m ops self self' :
  Forall (λ op, keeps_messages op ∧ ¬ supersedes m op) ops → retained_run ops self = Some self' →
  present m self → present m self'.
Proof.
  intros Hops. revert self. induction Hops as [|op ops [Hk Hns] _ IH]; intros self; cbn [retained_run].
  { by intros [= <-]. }
  destruct (retained_step op self) as [s1|] eqn:E; [|done]. cbn. intros Hr Hp.
  eapply IH; [done|]. by eapply retained_step_present.
Qed.

(** ** Rolling back *)

(** The records of a family that were accepted before an order. *)
Definition before {T} (o : N) (l : list (Ordered T)) : list (Ordered T) := filter (λ e, (order e < o)%N) l.

Lemma before_id {T} o (l : list (Ordered T)) : Forall (λ e, (order e < o)%N) l → before o l = l.
Proof.
  induction 1 as [|x l Hx Hl IH]; [done|]. unfold before in *. rewrite filter_cons, decide_True by done.
  by rewrite IH.
Qed.

Lemma insert_ordered_le {T} (x : Ordered T) l : Forall (by_order x) l → insert_ordered x l = x :: l.
Proof.
  destruct 1 as [|y l Hy]; [done|]. cbn. unfold by_order in Hy. by rewrite (proj2 (N.leb_le _ _)).
Qed.

Lemma sort_by_order_id {T} (l : list (Ordered T)) : StronglySorted by_order l → sort_by_order l = l.
Proof. induction 1 as [|x l Hs IH Hf]; [done|]. cbn. fold (sort_by_order l). by rewrite IH, insert_ordered_le. Qed.

Lemma before_nil {T} o (l : list (Ordered T)) : Forall (λ e, (o ≤ order e)%N) l → before o l = [].
Proof.
  intros Hl. apply filter_nil_Forall. eapply Forall_impl; [done|]. cbn. intros e. lia.
Qed.

Lemma before_cons {T} o (x : Ordered T) l :
  before o (x :: l) = (if decide (order x < o)%N then [x] else []) ++ before o l.
Proof. unfold before. rewrite filter_cons. by case_decide. Qed.

(** A record accepted later does not change what was there before. *)
Lemma before_sort_snoc {T} o (x : Ordered T) l :
  StronglySorted by_order l → (o ≤ order x)%N → before o (sort_by_order (l ++ [x])) = before o l.
Proof.
  intros Hs Hx. induction Hs as [|y l Hs IH Hf].
  { apply before_nil. by repeat constructor. }
  cbn [app sort_by_order foldr]. fold (sort_by_order (l ++ [x])).
  assert (∀ P, P x → Forall P l → Forall P (sort_by_order (l ++ [x]))) as Hall.
  { intros P Hp Hl. rewrite sort_by_order_perm. apply Forall_app. by repeat constructor. }
  destruct (decide (order y ≤ order x)%N).
  - rewrite insert_ordered_le by by apply Hall. by rewrite !before_cons, IH.
  - rewrite !before_nil; [done| |].
    + constructor; [lia|]. eapply Forall_impl; [done|]. unfold by_order. intros e. lia.
    + rewrite insert_ordered_perm. constructor; [lia|]. apply Hall; [done|].
      eapply Forall_impl; [done|]. unfold by_order. intros e. lia.
Qed.

Lemma before_delete {T} o (l : list (Ordered T)) i e :
  l !! i = Some e → (o ≤ order e)%N → before o (delete i l) = before o l.
Proof.
  intros Hl He. rewrite delete_take_drop. rewrite <-(take_drop_middle l i e Hl) at 3.
  unfold before. rewrite !filter_app, filter_cons, decide_False by lia. done.
Qed.

(** An operation after the order [o] has been reserved, which adds to what [s] retained. *)
Definition adds_to (s : RetainedContext) (o : N) (op : retained_op) : Prop :=
  match op with
  | OpReserve | OpMark => True
  | OpMessage m a =>
      (∀ o', a = Some o' → (o ≤ o')%N) ∧
      Forall (λ e, message_id (bound_message m) = None ∨
                   message_id (value e) ≠ message_id (bound_message m)) (user_messages s)
  | OpAnswer (VerifiedAnswerEvent x a) =>
      (∀ o', a = Some o' → (o ≤ o')%N) ∧
      Forall (λ e, answer_turn_id (value e) ≠ answer_turn_id (bound_answer x) ∨
                   answer_call_id (value e) ≠ answer_call_id (bound_answer x)) (verified_answers s)
  | _ => False
  end.

(** What was retained before is still there, in order, or the family is incomplete. *)
Definition extends {T} (o : N) (l : list (Ordered T)) (l' : list (Ordered T)) (incomplete : bool) : Prop :=
  StronglySorted by_order l' ∧ (incomplete = false → before o l' = l).

Definition extended (s : RetainedContext) (o : N) self : Prop :=
  (o ≤ next_order self)%N ∧
  extends o (verified_answers s) (verified_answers self) (verified_answers_incomplete self) ∧
  extends o (user_messages s) (user_messages self) (user_messages_incomplete self).

Lemma extends_bound {T} `{!JsonLen (list (Ordered T)), !JsonArray T} o (l l' : list (Ordered T)) b x k b' :
  extends o l l' b → (o ≤ order x)%N → bound_family (l' ++ [x]) b = Some (k, b') → extends o l k b'.
Proof.
  intros [Hs Hb] Hx. unfold bound_family.
  destruct (evict_spec (sort_by_order (l' ++ [x])) b) as (k' & b'' & -> & Hk & _ & Hc).
  intros [= -> ->]. split.
  - eapply StronglySorted_sublist; [|apply sort_by_order_sorted]. destruct Hk as [r ->].
    by apply sublist_inserts_l.
  - destruct Hc as [[-> ->] | ->]; [|done]. intros Hf. rewrite before_sort_snoc by done. auto.
Qed.

Lemma extends_delete {T} o (l l' : list (Ordered T)) b i e :
  extends o l l' b → l' !! i = Some e → (b = false → e ∉ l) → extends o l (delete i l') b.
Proof.
  intros [Hs Hb] Hi Hn. split; [eapply StronglySorted_sublist; [apply sublist_delete|done]|].
  intros ->. rewrite <-(Hb eq_refl). apply (before_delete _ _ _ e Hi).
  destruct (decide (o ≤ order e)%N); [done|]. destruct Hn; [done|]. rewrite <-(Hb eq_refl).
  apply list_elem_of_filter. split; [lia|]. by eapply list_elem_of_lookup_2.
Qed.

Lemma push_message_extended s o m (a : option N) self self' :
  extended s o self → (∀ o', a = Some o' → (o ≤ o')%N) → push_message m a self = Some self' →
  extended s o self'.
Proof.
  intros (Hn & Ha & Hm) Ho. unfold push_message. destruct (record_order a self) as [n s1] eqn:E.
  injection E as <- <-. cbn. destruct (bound_family _ _) as [[k b']|] eqn:Hb; [|done]. cbn.
  intros [= <-]. split_and!; cbn; [lia|done|]. eapply extends_bound; [done| |done].
  cbn. destruct a; cbn; auto.
Qed.

Lemma push_answer_extended s o x (a : option N) self self' :
  extended s o self → (∀ o', a = Some o' → (o ≤ o')%N) → push_answer x a self = Some self' →
  extended s o self'.
Proof.
  intros (Hn & Ha & Hm) Ho. unfold push_answer. destruct (record_order a self) as [n s1] eqn:E.
  injection E as <- <-. cbn. destruct (bound_family _ _) as [[k b']|] eqn:Hb; [|done]. cbn.
  intros [= <-]. split_and!; cbn; [lia| |done]. eapply extends_bound; [done| |done].
  cbn. destruct a; cbn; auto.
Qed.

Lemma retained_step_extended s o op self self' :
  adds_to s o op → (o ≤ USIZE_MAX)%N → extended s o self → retained_step op self = Some self' →
  extended s o self'.
Proof.
  intros Hadd Hmax Hext. pose proof Hext as (Hn & Ha & Hm).
  destruct op as [|m a|[x a]| |c|keep|t id b]; cbn [retained_step]; try done.
  - intros [= <-]. split_and!; cbn; [unfold saturating_add; lia|done|done].
  - destruct Hadd as [Ho Hall]. unfold record_user_message.
    destruct (list_find _ _) as [[index e]|] eqn:Hf; [|by apply push_message_extended].
    case_decide; [by intros [= <-]|]. apply push_message_extended; [|done]. split_and!; [done|done|].
    apply list_find_Some in Hf as (Hl & [Hid Heq] & _). eapply extends_delete; [done|done|].
    intros _ Hin. rewrite Forall_forall in Hall. by destruct (Hall e Hin).
  - destruct Hadd as [Ho Hall]. unfold record. cbn [bound_event].
    destruct (list_find _ _) as [[index e]|] eqn:Hf; [case_decide; [by intros [= <-]|]|];
      intros (? & (s1 & Hp & ->)%fmap_Some & ->)%fmap_Some;
      (eapply push_answer_extended; [|done|done]); [|done]. split_and!; [done| |done].
    apply list_find_Some in Hf as (Hl & [Ht Hc] & _). eapply extends_delete; [done|done|].
    intros _ Hin. rewrite Forall_forall in Hall. by destruct (Hall e Hin).
  - intros [= <-]. split_and!; [done|done|]. destruct Hm. by split.
Qed.

Lemma retained_run_extended s o ops self self' :
  Forall (adds_to s o) ops → (o ≤ USIZE_MAX)%N → extended s o self →
  retained_run ops self = Some self' → extended s o self'.
Proof.
  intros Hops Hmax. revert self. induction Hops as [|op ops Hop _ IH]; intros self Hext; cbn [retained_run].
  { by intros [= <-]. }
  destruct (retained_step op self) as [s1|] eqn:E; [|done]. cbn. apply IH.
  by eapply retained_step_extended.
Qed.

(** ** Properties *)

(** Every sequence of operations returns, whatever checkpoint it restores: the loop
    that evicts records ends.  Afterwards both families are within the bounds on the
    number of records and on their encoding, they are in the order of acceptance, and
    the next order is above all of them unless the counter has saturated. *)
Theorem retained_context_bounded ops self :
  retained_ok self → ∃ self', retained_run ops self = Some self' ∧ retained_ok self'.
Proof.
  revert self. induction ops as [|op ops IH]; intros self Hok; [by exists self|].
  destruct (retained_step_ok op self Hok) as (s1 & Hs & Hok1). cbn [retained_run]. rewrite Hs.
  by apply IH.
Qed.

(** Evidence is never lost silently.  When the messages of the user count as complete
    at the end of a run, then each message recorded in it is still there unchanged, unless
    a later one with its identifier has replaced it, a checkpoint has been restored or the
    messages have been cut by a rollback at an order. *)
Theorem complete_keeps_messages pre m o post self self' :
  retained_run (pre ++ OpMessage m o :: post) self = Some self' →
  Forall (λ op, keeps_messages op ∧ ¬ supersedes m op) post →
  user_messages_complete self' = true → m ∈ value <$> user_messages self'.
Proof.
  rewrite retained_run_app. destruct (retained_run pre self) as [s1|]; [|done]. cbn [mbind option_bind].
  cbn [retained_run retained_step]. destruct (record_user_message m o s1) as [s2|] eqn:E; [|done].
  intros Hr Hpost [Hi Hc]%andb_true_iff. apply negb_true_iff in Hi.
  apply record_user_message_present in E.
  destruct (retained_run_present _ _ _ _ Hpost Hr E) as [?|Hin]; [congruence|].
  apply list_elem_of_fmap in Hin as (e & He & Hin). apply list_elem_of_fmap. exists e. split; [|done].
  rewrite forallb_forall in Hc. apply list_elem_of_In in Hin. apply Hc in Hin.
  rewrite <-He in Hin |- *. unfold bound_message in *. by destruct (over_record m).
Qed.

(** A rollback undoes.  Reserve an order, record any messages and answers that are
    accepted from then on and do not replace older ones, and roll back at that order:
    each family is what it was, unless it is marked as incomplete. *)
Theorem rollback_undoes s ops self turn_ids id :
  retained_ok s → (next_order s < USIZE_MAX)%N → Forall (adds_to s (next_order s)) ops →
  retained_run ops (reserve_order s).2 = Some self →
  let after := rollback turn_ids id (Some (reserve_order s).1) self in
  (verified_answers_incomplete self = false → verified_answers after = verified_answers s) ∧
  (user_messages_incomplete self = false → user_messages after = user_messages s).
Proof.
  intros [[_ Hsa Hba] [_ Hsm Hbm]] Hmax Hops Hrun after.
  assert (∀ T (l : list (Ordered T)), Forall (below_next (next_order s)) l →
    before (next_order s) l = l) as Hid.
  { intros T l Hl. apply before_id. eapply Forall_impl; [done|]. unfold below_next. intros e. lia. }
  assert (extended s (next_order s) self) as (_ & [_ Ha] & [_ Hm]).
  { eapply retained_run_extended; [done|lia| |done]. split_and!; cbn; [unfold saturating_add; lia| |];
      (split; [done|]); auto. }
  subst after. unfold rollback. cbn. split; auto.
Qed.

End laws.

End retained.

(** ** Witnesses *)

(** Encodings with a length that grows with the text and with the number of records. *)
Module Sized.
#[export] Instance message_len : JsonLen RetainedUserMessage :=
  λ m, Some (100 + N.of_nat (str_len (message_text m)))%N.
#[export] Instance answer_len : JsonLen VerifiedAnswer :=
  λ a, Some (100 + 50 * N.of_nat (length (questions a)))%N.
#[export] Instance list_len (T : Type) : JsonLen (list (Ordered T)) :=
  λ l, Some (2 + 200 * N.of_nat (length l))%N.
#[export] Instance list_array (T : Type) : JsonArray T.
Proof.
  split; [done|]. intros l k n Hs [= <-]. eexists. split; [done|].
  pose proof (sublist_length _ _ Hs). lia.
Qed.

Definition hello : RetainedUserMessage :=
  {| message_turn_id := str "t1"; message_id := Some (str "m1"); message_text := str "hello";
     complete := true |}.
Definition more : RetainedUserMessage :=
  {| message_turn_id := str "t2"; message_id := Some (str "m2"); message_text := str "more";
     complete := true |}.
Definition yes : RetainedContextEvent :=
  VerifiedAnswerEvent
    {| answer_turn_id := str "t2"; answer_call_id := str "c1";
       questions := [ {| question := str "really?"; answer := str "yes" |} ] |} None.

Lemma retained_context_bounded_witness :
  ∃ self', retained_run [OpMessage hello None; OpAnswer yes] default_retained = Some self' ∧
    retained_ok self'.
Proof. apply retained_context_bounded. apply default_retained_ok. Defined.

Lemma complete_keeps_messages_witness :
  ∃ self', retained_run ([OpAnswer yes] ++ OpMessage hello None :: [OpMessage more (Some 0%N)])
      default_retained = Some self' ∧ hello ∈ value <$> user_messages self'.
Proof.
  eexists. split; [vm_compute; reflexivity|].
  refine (complete_keeps_messages [OpAnswer yes] hello None [OpMessage more (Some 0%N)]
    default_retained _ _ _ _); [vm_compute; reflexivity| |vm_compute; reflexivity].
  apply Forall_singleton. split; [exact I|]. cbn. intros [_ H]. vm_compute in H. discriminate H.
Defined.

Lemma rollback_undoes_witness :
  ∃ s self, record_user_message hello None default_retained = Some s ∧
    retained_run [OpMessage more None; OpAnswer yes] (reserve_order s).2 = Some self ∧
    length (user_messages self) = 2 ∧
    user_messages (rollback [] None (Some (reserve_order s).1) self) = user_messages s.
Proof.
  eexists _, _. split_and!; [vm_compute; reflexivity|vm_compute; reflexivity|done|].
  refine (proj2 (rollback_undoes _ [OpMessage more None; OpAnswer yes] _ [] None _ _ _ _) _);
    [| | |vm_compute; reflexivity|reflexivity].
  - destruct (retained_step_ok (OpMessage hello None) default_retained default_retained_ok) as (s' & Hs & Hok).
    vm_compute in Hs. injection Hs as <-. exact Hok.
  - done.
  - repeat apply Forall_cons_2; [| |apply Forall_nil_2].
    + split; [done|]. apply Forall_singleton. right. vm_compute. discriminate.
    + split; [done|]. apply Forall_nil_2.
Defined.
End Sized.
