(* ===== verification/Transcript.v ===== *)
(** * The transcript kept for reviews ([guardian-context/src/history.rs])

    [TranscriptHistory] keeps the items of a conversation for reviews: messages of the
    user and other items have separate limits, the oldest items of a kind are evicted, and
    a generation tells readers when what they have seen may no longer be a prefix.

    An item is measured by encoding it into a counting writer.  The encoder is a library:
    the pieces it writes are the class [JsonWrites].  The size of the Rust type is the
    argument [item_size]. *)

From S2P Require Import Prelude RustStr Truncate Normalize.

Local Open Scope nat_scope.

(** ** Equality of items *)

#[export] Instance ImageDetail_eq_dec : EqDecision ImageDetail.
Proof. solve_decision. Defined.
#[export] Instance FunctionCallOutputContentItem_eq_dec : EqDecision FunctionCallOutputContentItem.
Proof. solve_decision. Defined.
#[export] Instance FunctionCallOutputBody_eq_dec : EqDecision FunctionCallOutputBody.
Proof. solve_decision. Defined.
#[export] Instance FunctionCallOutputPayload_eq_dec : EqDecision FunctionCallOutputPayload.
Proof. solve_decision. Defined.
#[export] Instance ContentItem_eq_dec : EqDecision ContentItem.
Proof. solve_decision. Defined.
#[export] Instance AgentMessageInputContent_eq_dec : EqDecision AgentMessageInputContent.
Proof. solve_decision. Defined.
#[export] Instance MetadataPassthrough_eq_dec {Data} `{!EqDecision Data} :
  EqDecision (@MetadataPassthrough Data).
Proof. solve_decision. Defined.
#[export] Instance ResponseItem_eq_dec {Data} `{!EqDecision Data} : EqDecision (@ResponseItem Data).
Proof. solve_decision. Defined.

(** ** Encoding *)

(** The lengths of the pieces that the encoder gives to its writer, and whether the
    encoding then succeeds. *)
Class JsonWrites (A : Type) := json_writes : A → list N * bool.

Definition MAX_ITEMS_PER_KIND : N := 128.
Definition MAX_BYTES_PER_KIND : N := 4 * 1024 * 1024.

(** [BoundedSize::write]: the bytes counted so far, or the error. *)
Definition bounded_write (bytes : N) (len : N) : option N :=
  if (MAX_BYTES_PER_KIND - bytes <? len)%N then None else Some (bytes + len)%N.

Fixpoint bounded_writes (bytes : N) (lens : list N) : option N :=
  match lens with
  | [] => Some bytes
  | len :: lens' => bytes ← bounded_write bytes len; bounded_writes bytes lens'
  end.

(** [serde_json::to_writer] into the counting writer. *)
Definition to_writer {A} `{!JsonWrites A} (bytes : N) (x : A) : option N :=
  let '(lens, ok) := json_writes x in
  bytes ← bounded_writes bytes lens;
  if ok then Some bytes else None.

(** [a - b] on [usize], which panics below zero. *)
Definition checked_sub (a b : N) : option N := if (a <? b)%N then None else Some (a - b)%N.

Section transcript.
Context {Data : Type} `{!EqDecision (@ResponseItem Data)}.
Context `{!JsonWrites (@ResponseItem Data), !JsonWrites (option (list Data)), !JsonWrites ContentItem}.
Context `{!JsonWrites (option rstring * rstring * option Data * option (@MetadataPassthrough Data))}.
Context (item_size : N).

Record TranscriptHistory := {
  items : list (@ResponseItem Data * N);
  generation : N }.

Implicit Types (self : TranscriptHistory) (i : @ResponseItem Data) (l : list (@ResponseItem Data * N)).

Definition is_user_message i : bool :=
  match i with Message _ role _ _ _ => bool_decide (role = str "user") | _ => false end.

Definition item_id i : option rstring :=
  match i with
  | AdditionalTools id _ _ | Message id _ _ _ _ | AgentMessage id _ _ _ _ | LocalShellCall id _ _ _ _
  | FunctionCall id _ _ _ _ _ _ | ToolSearchCall id _ _ _ _ _ | FunctionCallOutput id _ _ _ _ _
  | CustomToolCall id _ _ _ _ _ _ | CustomToolCallOutput id _ _ _ _ | ToolSearchOutput id _ _ _ _ _
  | WebSearchCall id _ _ _ | Reasoning id _ _ _ _ | ImageGenerationCall id _ _ _ _ | Compaction id _ _
  | ContextCompaction id _ _ => id
  | ConfigurationUpdate _ | CompactionTrigger | Other => None
  end.

Definition new_transcript (generation : N) : TranscriptHistory :=
  {| items := []; generation := generation |}.

(** ** Recording *)

(** The size of an item; reasoning content is counted as well. *)
Definition measure i : option N :=
  bytes ← to_writer item_size i;
  match i with
  | Reasoning _ _ content _ _ => to_writer bytes content
  | _ => Some bytes
  end.

Definition is_text (c : ContentItem) : bool :=
  match c with ContentInputText _ | ContentOutputText _ => true | _ => false end.

(** The texts of a message, if they fit. *)
Fixpoint measured_texts (bytes : N) (content : list ContentItem) : option (list ContentItem) :=
  match content with
  | [] => Some []
  | c :: content' =>
      if is_text c
      then bytes ← to_writer bytes c; cons c <$> measured_texts bytes content'
      else measured_texts bytes content'
  end.

(** What is recorded in place of a message of the user with images that does not fit. *)
Definition text_fallback i : option (@ResponseItem Data) :=
  match i with
  | Message id role content phase metadata =>
      if bool_decide (role = str "user") && existsb content_is_image content
      then
        bytes ← to_writer item_size (id, role, phase, metadata);
        text ← measured_texts bytes content;
        if decide (text = []) then None else Some (Message id role text phase metadata)
      else None
  | _ => None
  end.

(** Whether an item of [bytes] with [count] items of its kind before it is too much. *)
Definition over_limits (count bytes : N) : bool :=
  ((MAX_ITEMS_PER_KIND <=? count) || (MAX_BYTES_PER_KIND <? bytes))%N.

(** [items.retain], with the counters that it changes; [None] is an underflow. *)
Fixpoint retain_kind (is_user : bool) (count bytes : N) l : option (list (@ResponseItem Data * N)) :=
  match l with
  | [] => Some []
  | (i, size) :: rest =>
      if eqb (is_user_message i) is_user && over_limits count bytes
      then
        count ← checked_sub count 1;
        bytes ← checked_sub bytes size;
        retain_kind is_user count bytes rest
      else cons (i, size) <$> retain_kind is_user count bytes rest
  end.

Definition same_kind (is_user : bool) l : list (@ResponseItem Data * N) :=
  filter (λ e, is_user_message e.1 = is_user) l.

(** Recording an item whose size is known. *)
Definition store i (size : N) self : option TranscriptHistory :=
  let is_user := is_user_message i in
  let '(count, bytes) :=
    foldl (λ '(count, bytes) e, (count + 1, bytes + e.2)%N) (0%N, size) (same_kind is_user (items self)) in
  if over_limits count bytes
  then
    kept ← retain_kind is_user count bytes (items self);
    Some {| items := kept ++ [(i, size)]; generation := saturating_add (generation self) 1 |}
  else Some {| items := items self ++ [(i, size)]; generation := generation self |}.

(** [record]; a text that replaces a message has no images and is not replaced again. *)
Fixpoint record_depth (depth : nat) i self : option TranscriptHistory :=
  match depth with
  | O => None
  | S depth =>
      match measure i with
      | Some size => store i size self
      | None => match text_fallback i with Some text => record_depth depth text self | None => Some self end
      end
  end.

Definition record i self : option TranscriptHistory := record_depth 2 i self.

Fixpoint record_all (l : list (@ResponseItem Data)) self : option TranscriptHistory :=
  match l with [] => Some self | i :: l' => self ← record i self; record_all l' self end.

Definition reset (l : list (@ResponseItem Data)) self : option TranscriptHistory :=
  record_all l {| items := []; generation := saturating_add (generation self) 1 |}.

Definition is_boundary boundary i : bool :=
  match item_id i, item_id boundary with Some a, Some b => bool_decide (a = b) | _, _ => false end ||
  bool_decide (i = boundary).

Definition truncate_before boundary self : TranscriptHistory :=
  let index := default 0 (fst <$> list_find (λ e, is_boundary boundary e.1 = true) (items self)) in
  {| items := take index (items self); generation := saturating_add (generation self) 1 |}.

Inductive transcript_op :=
| OpRecord i
| OpReset (l : list (@ResponseItem Data))
| OpTruncate (boundary : @ResponseItem Data).

Definition transcript_step (op : transcript_op) self : option TranscriptHistory :=
  match op with
  | OpRecord i => record i self
  | OpReset l => reset l self
  | OpTruncate boundary => Some (truncate_before boundary self)
  end.

Fixpoint transcript_run (ops : list transcript_op) self : option TranscriptHistory :=
  match ops with [] => Some self | op :: ops' => self ← transcript_step op self; transcript_run ops' self end.

(** ** Measuring *)

Lemma bounded_writes_le bytes lens n :
  bounded_writes bytes lens = Some n → (bytes ≤ MAX_BYTES_PER_KIND)%N → (n ≤ MAX_BYTES_PER_KIND)%N.
Proof.
  revert bytes. induction lens as [|len lens IH]; intros bytes; cbn; [by intros [= ->]|].
  unfold bounded_write. case_match eqn:E; [done|]. cbn. apply N.ltb_ge in E.
  intros Hw Hb. apply (IH _ Hw). lia.
Qed.

Lemma to_writer_le {A} `{!JsonWrites A} bytes (x : A) n :
  to_writer bytes x = Some n → (bytes ≤ MAX_BYTES_PER_KIND)%N → (n ≤ MAX_BYTES_PER_KIND)%N.
Proof.
  unfold to_writer. destruct (json_writes x) as [lens ok].
  destruct (bounded_writes bytes lens) as [b|] eqn:E; [|done]. cbn. destruct ok; [|done].
  intros [= <-]. exact (bounded_writes_le _ _ _ E).
Qed.

Lemma measured_texts_texts bytes content text :
  measured_texts bytes content = Some text → Forall (λ c, is_text c = true) text.
Proof.
  revert bytes text. induction content as [|c content IH]; intros bytes text; cbn.
  { by intros [= <-]. }
  destruct (is_text c) eqn:E; [|apply IH].
  destruct (to_writer bytes c) as [b|]; [|done]. cbn. intros (t & Ht & ->)%fmap_Some.
  constructor; [done|]. by eapply IH.
Qed.

(** The text that replaces a message is not replaced again. *)
Lemma text_fallback_once i text : text_fallback i = Some text → text_fallback text = None.
Proof.
  destruct i as [| ? role content phase metadata| | | | | | | | | | | | | | | |]; try done. cbn.
  destruct (_ && _) eqn:E; [|done]. destruct (to_writer item_size _) as [b|]; [|done]. cbn.
  destruct (measured_texts b content) as [t|] eqn:Ht; [|done]. cbn.
  destruct (decide (t = [])); [discriminate|]. intros [= <-]. cbn. replace (existsb content_is_image t) with false; [by rewrite andb_false_r|].
  symmetry. apply not_true_iff_false. intros (c & Hc & Hi)%existsb_exists.
  apply measured_texts_texts in Ht. rewrite Forall_forall in Ht.
  apply list_elem_of_In, Ht in Hc. by destruct c.
Qed.

(** So two rounds are enough: more give the same. *)
Lemma record_depth_enough n i self : record_depth (2 + n) i self = record i self.
Proof.
  unfold record. cbn [record_depth Nat.add]. destruct (measure i); [done|].
  destruct (text_fallback i) as [text|] eqn:E; [|done]. destruct (measure text); [done|].
  by rewrite (text_fallback_once _ _ E).
Qed.

(** ** Evicting *)

Definition kind_bytes l : N := foldr (λ e n, e.2 + n)%N 0%N l.

Lemma count_kind l size c :
  foldl (λ '(count, bytes) e, (count + 1, bytes + e.2)%N) (c, size) l =
  (c + N.of_nat (length l), size + kind_bytes l)%N.
Proof.
  revert size c. induction l as [|[i n] l IH]; intros size c; cbn; [f_equal; lia|].
  rewrite IH. fold (kind_bytes l). f_equal; lia.
Qed.

Lemma retain_kind_all u count bytes l :
  over_limits count bytes = false → retain_kind u count bytes l = Some l.
Proof.
  intros Ho. induction l as [|[i n] l IH]; [done|]. cbn. by rewrite Ho, andb_false_r, IH.
Qed.

Lemma same_kind_cons u i n l :
  same_kind u ((i, n) :: l) = (if decide (is_user_message i = u) then [(i, n)] else []) ++ same_kind u l.
Proof. unfold same_kind. rewrite filter_cons. cbn [fst]. by destruct (decide (is_user_message i = u)). Qed.

(** The limits with the first [n] items of a kind gone. *)
Definition over_after (size : N) (n : nat) l : bool :=
  over_limits (N.of_nat (length (drop n l))) (size + kind_bytes (drop n l)).

Lemma retain_kind_spec u size l :
  (size ≤ MAX_BYTES_PER_KIND)%N →
  let k := same_kind u l in
  ∃ kept n, retain_kind u (N.of_nat (length k)) (size + kind_bytes k) l = Some kept ∧
    kept `sublist_of` l ∧ same_kind (negb u) kept = same_kind (negb u) l ∧
    same_kind u kept = drop n k ∧ over_after size n k = false ∧
    (∀ j, j < n → over_after size j k = true).
Proof.
  intros Hsize. induction l as [|[i s] l IH]; cbn zeta.
  { exists [], 0. split_and!; try done; [|lia].
    unfold over_after, over_limits. cbn. apply orb_false_iff. split; [done|]. apply N.ltb_ge. lia. }
  destruct IH as (kept & n & Hr & Hs & Hneg & Hk & Hover & Hmin).
  rewrite !same_kind_cons. cbn [retain_kind]. destruct (decide (is_user_message i = u)) as [Hu|Hu].
  - rewrite decide_False by (rewrite Hu; by destruct u). cbn [app]. subst u.
    rewrite eqb_reflx. cbn [andb].
    set (k := same_kind (is_user_message i) l) in *.
    destruct (over_limits _ _) eqn:Ho.
    + unfold checked_sub at 1. cbn [length kind_bytes foldr snd]. fold (kind_bytes k).
      rewrite (proj2 (N.ltb_ge _ _)) by lia. cbn [mbind option_bind].
      unfold checked_sub. rewrite (proj2 (N.ltb_ge _ _)) by lia. cbn [mbind option_bind].
      replace (N.of_nat (S (length k)) - 1)%N with (N.of_nat (length k)) by lia.
      replace (size + (s + kind_bytes k) - s)%N with (size + kind_bytes k)%N by lia.
      exists kept, (S n). rewrite Hr. split_and!; try done; [by apply sublist_cons|].
      intros [|j] Hj; [done|]. apply Hmin. lia.
    + rewrite retain_kind_all by done. exists ((i, s) :: l), 0. split_and!; try done.
      * rewrite same_kind_cons, decide_False by (by destruct (is_user_message i)). done.
      * rewrite same_kind_cons, decide_True by done. done.
      * lia.
  - assert (eqb (is_user_message i) u = false) as -> by (by apply eqb_false_iff). cbn [andb app].
    rewrite Hr. exists ((i, s) :: kept), n. split_and!; try done.
    + by apply sublist_skip.
    + rewrite same_kind_cons, Hneg. done.
    + rewrite same_kind_cons, decide_False by done. done.
Qed.

Context (Hitem_size : (item_size ≤ MAX_BYTES_PER_KIND)%N).

Lemma measure_le i size : measure i = Some size → (size ≤ MAX_BYTES_PER_KIND)%N.
Proof.
  unfold measure. destruct (to_writer item_size i) as [b|] eqn:E; [|done]. cbn.
  apply to_writer_le in E; [|done]. destruct i; try (by intros [= <-]).
  intros Hw. by apply to_writer_le in Hw.
Qed.

(** What recording an item of a known size does: the [n] oldest items of its kind go. *)
Record stored i (size : N) self (n : nat) self' : Prop := {
  stored_items : ∃ kept, items self' = kept ++ [(i, size)] ∧ kept `sublist_of` items self ∧
    same_kind (negb (is_user_message i)) kept = same_kind (negb (is_user_message i)) (items self) ∧
    same_kind (is_user_message i) kept = drop n (same_kind (is_user_message i) (items self)) ∧
    (n = 0 → kept = items self);
  stored_fits : over_after size n (same_kind (is_user_message i) (items self)) = false;
  stored_needed j : j < n → over_after size j (same_kind (is_user_message i) (items self)) = true;
  stored_generation :
    generation self' = if decide (n = 0) then generation self else saturating_add (generation self) 1 }.

Lemma store_spec i size self :
  (size ≤ MAX_BYTES_PER_KIND)%N → ∃ n self', store i size self = Some self' ∧ stored i size self n self'.
Proof.
  intros Hsize. unfold store. rewrite count_kind, N.add_0_l.
  set (u := is_user_message i). set (k := same_kind u (items self)).
  destruct (over_limits _ _) eqn:Ho.
  - destruct (retain_kind_spec u size (items self) Hsize) as (kept & n & Hr & Hs & Hneg & Hk & Hf & Hmin).
    fold k in Hr, Hk, Hf, Hmin. rewrite Hr. exists n. eexists. split; [done|].
    destruct (decide (n = 0)) as [->|Hn].
    { unfold over_after in Hf. rewrite drop_0 in Hf. congruence. }
    split; [|done|done|by rewrite decide_False]. exists kept. by split_and!.
  - exists 0. eexists. split; [done|]. split; [|done|lia|done]. exists (items self). by split_and!.
Qed.

(** ** The limits *)

Definition kind_ok (u : bool) l : Prop :=
  (N.of_nat (length (same_kind u l)) ≤ MAX_ITEMS_PER_KIND ∧
   kind_bytes (same_kind u l) ≤ MAX_BYTES_PER_KIND)%N.

Definition transcript_ok self : Prop := ∀ u, kind_ok u (items self).

Lemma kind_bytes_app l k : kind_bytes (l ++ k) = (kind_bytes l + kind_bytes k)%N.
Proof.
  induction l as [|e l IH]; [done|]. cbn. fold (kind_bytes (l ++ k)) (kind_bytes l). rewrite IH. lia.
Qed.

Lemma kind_bytes_sublist l k : l `sublist_of` k → (kind_bytes l ≤ kind_bytes k)%N.
Proof.
  induction 1 as [|e l k _ IH|e l k _ IH]; [done| |]; cbn; fold (kind_bytes l) (kind_bytes k); lia.
Qed.

Lemma same_kind_sublist u l k : l `sublist_of` k → same_kind u l `sublist_of` same_kind u k.
Proof.
  induction 1 as [|[i n] l k _ IH|[i n] l k _ IH]; [done| |]; rewrite !same_kind_cons.
  - by apply sublist_app.
  - by apply sublist_inserts_l.
Qed.

Lemma kind_ok_sublist u l k : l `sublist_of` k → kind_ok u k → kind_ok u l.
Proof.
  intros Hs%(same_kind_sublist u) [H1 H2].
  split; [apply sublist_length in Hs|apply kind_bytes_sublist in Hs]; lia.
Qed.

Lemma stored_ok i size self n self' : stored i size self n self' → transcript_ok self → transcript_ok self'.
Proof.
  intros [(kept & Hitems & Hs & Hneg & Hk & _) Hf _ _] Hok u. unfold kind_ok. rewrite Hitems.
  unfold same_kind at 1 2. rewrite !filter_app. fold (same_kind u kept) (same_kind u [(i, size)]).
  rewrite same_kind_cons. unfold same_kind at 2 4. cbn [filter list_filter]. rewrite app_nil_r.
  destruct (decide (is_user_message i = u)) as [<-|Hu].
  - rewrite Hk, length_app, kind_bytes_app. cbn. unfold over_after, over_limits in Hf.
    apply orb_false_iff in Hf as [H1%N.leb_gt H2%N.ltb_ge]. lia.
  - rewrite app_nil_r. replace u with (negb (is_user_message i)) by by destruct u, (is_user_message i).
    rewrite Hneg. apply Hok.
Qed.

Lemma record_cases i self :
  record i self = Some self ∨
  ∃ i' size n self', record i self = Some self' ∧ measure i' = Some size ∧
    (i' = i ∨ measure i = None ∧ text_fallback i = Some i') ∧ stored i' size self n self'.
Proof.
  unfold record. cbn [record_depth]. destruct (measure i) as [size|] eqn:E.
  - right. destruct (store_spec i size self) as (n & self' & Hr & Hst); [by eapply measure_le|].
    exists i, size, n, self'. split_and!; auto.
  - destruct (text_fallback i) as [text|] eqn:Ht; [|by left].
    destruct (measure text) as [size|] eqn:Em.
    + right. destruct (store_spec text size self) as (n & self' & Hr & Hst); [by eapply measure_le|].
      exists text, size, n, self'. split_and!; auto.
    + left. by rewrite (text_fallback_once _ _ Ht).
Qed.

Lemma record_ok i self : ∃ self', record i self = Some self' ∧ (transcript_ok self → transcript_ok self').
Proof.
  destruct (record_cases i self) as [->|(i' & size & n & self' & -> & _ & _ & Hst)]; [by eexists|].
  exists self'. split; [done|]. by eapply stored_ok.
Qed.

Lemma record_all_ok (l : list (@ResponseItem Data)) self : ∃ self', record_all l self = Some self' ∧ (transcript_ok self → transcript_ok self').
Proof.
  revert self. induction l as [|i l IH]; intros self; [by eexists|]. cbn [record_all].
  destruct (record_ok i self) as (s1 & -> & H1). destruct (IH s1) as (s2 & Hs2 & H2).
  exists s2. split; [done|]. auto.
Qed.

Lemma transcript_step_ok op self :
  ∃ self', transcript_step op self = Some self' ∧ (transcript_ok self → transcript_ok self').
Proof.
  destruct op as [i|l|b]; cbn [transcript_step].
  - apply record_ok.
  - unfold reset. edestruct record_all_ok as (s' & -> & H). exists s'. split; [done|]. intros _. apply H.
    intros u. by split.
  - eexists. split; [done|]. intros Hok u. eapply kind_ok_sublist; [|apply Hok].
    cbn. apply sublist_take.
Qed.

(** ** Generations *)

(** The generation has grown, or what was there is a prefix of what is there now. *)
Definition advanced self self' : Prop :=
  (generation self ≤ generation self')%N ∧
  (generation self' = generation self → (generation self < USIZE_MAX)%N →
   items self `prefix_of` items self').

Lemma saturating_succ_ge n : (n ≤ USIZE_MAX → n ≤ saturating_add n 1)%N.
Proof. unfold saturating_add. lia. Qed.

Lemma advanced_bump self l :
  (generation self ≤ USIZE_MAX)%N →
  advanced self {| items := l; generation := saturating_add (generation self) 1 |}.
Proof. intros H. split; cbn; unfold saturating_add; lia. Qed.

Lemma advanced_refl self : advanced self self.
Proof. by split. Qed.

Lemma advanced_trans a b c : advanced a b → advanced b c → advanced a c.
Proof.
  intros [H1 H2] [H3 H4]. split; [lia|]. intros He Hlt.
  assert (generation b = generation a) as Hb by lia. rewrite Hb in H4.
  etrans; [by apply H2|]. apply H4; [congruence|done].
Qed.

Lemma generation_small self i self' :
  record i self = Some self' → (generation self ≤ USIZE_MAX)%N → (generation self' ≤ USIZE_MAX)%N.
Proof.
  destruct (record_cases i self) as [->|(i' & size & n & s1 & -> & _ & _ & Hst)].
  { by intros [= <-]. }
  intros [= <-] Hg. rewrite (stored_generation _ _ _ _ _ Hst). unfold saturating_add. case_decide; lia.
Qed.

Lemma record_advanced i self self' :
  record i self = Some self' → (generation self ≤ USIZE_MAX)%N → advanced self self'.
Proof.
  destruct (record_cases i self) as [->|(i' & size & n & s1 & -> & _ & _ & Hst)].
  { intros [= <-] _. apply advanced_refl. }
  intros [= <-] Hg. destruct Hst as [(kept & Hi & _ & _ & _ & H0) _ _ Hgen]. split.
  - rewrite Hgen. case_decide; [done|]. by apply saturating_succ_ge.
  - intros He Hlt. rewrite Hgen in He. case_decide as Hn.
    + rewrite Hi, H0 by done. by apply prefix_app_r.
    + exfalso. unfold saturating_add in He. lia.
Qed.

Lemma record_all_advanced (l : list (@ResponseItem Data)) self self' :
  record_all l self = Some self' → (generation self ≤ USIZE_MAX)%N →
  advanced self self' ∧ (generation self' ≤ USIZE_MAX)%N.
Proof.
  revert self. induction l as [|i l IH]; intros self; cbn [record_all].
  { intros [= <-] Hg. split; [apply advanced_refl|done]. }
  destruct (record i self) as [s1|] eqn:E; [|done]. cbn. intros Hr Hg.
  destruct (IH s1 Hr) as [Ha Hg']; [by eapply generation_small|]. split; [|done].
  eapply advanced_trans; [|done]. by eapply record_advanced.
Qed.

Lemma transcript_step_advanced op self self' :
  transcript_step op self = Some self' → (generation self ≤ USIZE_MAX)%N →
  advanced self self' ∧ (generation self' ≤ USIZE_MAX)%N.
Proof.
  destruct op as [i|l|b]; cbn [transcript_step]; intros Hs Hg.
  - split; [by eapply record_advanced|by eapply generation_small].
  - unfold reset in Hs. destruct (record_all_advanced _ _ _ Hs) as [Ha Hg'].
    { cbn. unfold saturating_add. lia. }
    split; [|done]. eapply advanced_trans; [by apply (advanced_bump self [])|done].
  - injection Hs as <-. split; [by apply advanced_bump|]. cbn. unfold saturating_add. lia.
Qed.

(** ** Properties *)

(** Every sequence of operations on the transcript returns, without an underflow in
    the counters of the eviction, and keeps the limits: at most 128 items and 4 MiB of
    the messages of the user, and the same of the other items. *)
Theorem transcript_bounded ops self :
  transcript_ok self → ∃ self', transcript_run ops self = Some self' ∧ transcript_ok self'.
Proof.
  revert self. induction ops as [|op ops IH]; intros self Hok; [by eexists|]. cbn [transcript_run].
  destruct (transcript_step_ok op self) as (s1 & -> & H1). by apply IH, H1.
Qed.

(** Recording an item that can be measured puts it last.  The items of the other kind
    all stay.  Of its own kind the oldest go, as many as the limits need and no more, and
    the generation changes exactly when one goes. *)
Theorem record_evicts_oldest i size self :
  measure i = Some size → ∃ n self', record i self = Some self' ∧ stored i size self n self'.
Proof.
  intros Hm. destruct (store_spec i size self) as (n & self' & Hs & Hst); [by eapply measure_le|].
  exists n, self'. split; [|done]. unfold record. cbn [record_depth]. by rewrite Hm.
Qed.

(** A reader may keep its offset while the generation is the same.  Whatever the
    operations, the generation never decreases, and as long as it has not changed, and
    the counter is not saturated, what was in the transcript is a prefix of what is in it
    now. *)
Theorem generation_guards_offsets ops self self' :
  (generation self ≤ USIZE_MAX)%N → transcript_run ops self = Some self' → advanced self self'.
Proof.
  revert self. induction ops as [|op ops IH]; intros self Hg; cbn [transcript_run].
  { intros [= <-]. apply advanced_refl. }
  destruct (transcript_step op self) as [s1|] eqn:E; [|done]. cbn. intros Hr.
  destruct (transcript_step_advanced _ _ _ E Hg) as [Ha Hg1]. eapply advanced_trans; [done|]. by apply IH.
Qed.

(** After a rollback nothing from the boundary on is left. *)
Lemma truncate_before_boundary boundary self :
  Forall (λ e, is_boundary boundary e.1 = false) (items (truncate_before boundary self)) ∧
  items (truncate_before boundary self) `prefix_of` items self.
Proof.
  unfold truncate_before. cbn. split; [|apply prefix_take].
  destruct (list_find _ _) as [[index e]|] eqn:E; [|done]. cbn.
  apply list_find_Some in E as (_ & _ & Hb). apply Forall_lookup. intros j e' Hj.
  apply lookup_take_Some in Hj as [Hj Hlt]. apply not_true_iff_false. by eapply Hb.
Qed.

End transcript.

(** ** Witnesses *)

(** An encoder that writes one piece per value, as long as the texts of a message. *)
Module OnePiece.
Definition content_len (c : ContentItem) : N :=
  match c with
  | ContentInputText t | ContentOutputText t | ContentInputImage t _ | ContentInputAudio t =>
      N.of_nat (str_len t)
  end.
#[export] Instance item_writes : JsonWrites (@ResponseItem ()) :=
  λ i, match i with
       | Message _ _ content _ _ => ([100 + foldr N.add 0 (content_len <$> content)]%N, true)
       | _ => ([100%N], true)
       end.
#[export] Instance reasoning_writes : JsonWrites (option (list ())) := λ _, ([10%N], true).
#[export] Instance content_writes : JsonWrites ContentItem := λ c, ([content_len c], true).
#[export] Instance header_writes :
  JsonWrites (option rstring * rstring * option () * option (@MetadataPassthrough ())) := λ _, ([50%N], true).

Definition user_text (t : rstring) : @ResponseItem () :=
  Message None (str "user") [ContentInputText t] None None.

(** A full transcript, with a tool call among the messages. *)
Definition full : @TranscriptHistory () :=
  {| items := (Other, 300%N) :: replicate 128 (user_text (str "a"), 501%N); generation := 7 |}.

Lemma transcript_bounded_witness :
  ∃ self', transcript_run 400 [OpRecord (user_text (str "hi")); OpTruncate Other] (new_transcript 0) =
    Some self' ∧ transcript_ok self'.
Proof. apply transcript_bounded; [done|]. intros u. by split. Defined.

Lemma record_evicts_oldest_witness :
  measure 400 (user_text (str "hi")) = Some 502%N ∧
  ∃ n self', record 400 (user_text (str "hi")) full = Some self' ∧
    stored (user_text (str "hi")) 502 full n self' ∧ length (items self') = 129.
Proof.
  assert (measure 400 (user_text (str "hi")) = Some 502%N) as Hm by (vm_compute; reflexivity).
  split; [exact Hm|].
  destruct (record_evicts_oldest 400 ltac:(done) (user_text (str "hi")) 502 full Hm) as (n & self' & Hr & Hst).
  exists n, self'. split; [exact Hr|]. split; [exact Hst|].
  vm_compute in Hr. injection Hr as <-. reflexivity.
Defined.

Lemma generation_guards_offsets_witness :
  ∃ self', transcript_run 400 [OpRecord (user_text (str "hi"))] (new_transcript 3) = Some self' ∧
    advanced (new_transcript 3) self'.
Proof.
  eexists. split; [vm_compute; reflexivity|].
  refine (generation_guards_offsets 400 _ [OpRecord (user_text (str "hi"))] _ _ _ _);
    [done|done|vm_compute; reflexivity].
Defined.
End OnePiece.
