(* ===== verification/TokenEstimate.v ===== *)
(** * Token counts ([core/src/context_manager/history.rs], [protocol/src/protocol.rs])

    The estimate of the tokens of a history item, the token usage that the server reports,
    and the scaling of a truncation policy.  An [i64] is a [Z] with its saturation and
    its overflow written out.

    The JSON encoder, the decoder of images and the estimate for audio are arguments. *)

From Stdlib Require Import SpecFloat.
From S2P Require Import Prelude RustStr Truncate Normalize Fragments.

Local Open Scope Z_scope.

(** ** Integers and floats *)

Definition I64_MAX : Z := 9223372036854775807.
Definition I64_MIN : Z := -9223372036854775808.

Definition i64_saturate (z : Z) : Z := Z.max I64_MIN (Z.min I64_MAX z).
Definition i64_saturating_add (a b : Z) : Z := i64_saturate (a + b).
Definition i64_saturating_sub (a b : Z) : Z := i64_saturate (a - b).
Definition i64_saturating_mul (a b : Z) : Z := i64_saturate (a * b).

(** [i64::try_from(n).unwrap_or(i64::MAX)] and its converse for [usize]. *)
Definition i64_of_usize (n : N) : Z := Z.min (Z.of_N n) I64_MAX.
Definition usize_of_i64 (z : Z) : N := if z <? 0 then USIZE_MAX else Z.to_N z.

(** [a + b] and [a - b]; [None] is an overflow. *)
Definition i64_checked (z : Z) : option Z := if (I64_MIN <=? z) && (z <=? I64_MAX) then Some z else None.
Definition i64_add (a b : Z) : option Z := i64_checked (a + b).
Definition i64_sub (a b : Z) : option Z := i64_checked (a - b).

(** [n as f64] and multiplication, to the nearest [f64]. *)
Definition f64_of_usize (n : N) : spec_float := binary_normalize 53 1024 (Z.of_N n) 0 false.
Definition f64_mul : spec_float → spec_float → spec_float := SFmul 53 1024.

(** [x.ceil() as usize]: negative numbers and NaN give 0, large ones the maximum. *)
Definition f64_ceil_usize (x : spec_float) : N :=
  match x with
  | S754_finite false m e =>
      N.min USIZE_MAX (Z.to_N (if 0 <=? e then Z.pos m * 2 ^ e else - (- Z.pos m / 2 ^ (- e))))
  | S754_infinity false => USIZE_MAX
  | _ => 0%N
  end.

(** The [f64] nearest to 1.2. *)
Definition F64_1_2 : spec_float := S754_finite false 5404319552844595 (-52).

(** [policy * multiplier]. *)
Definition policy_mul (policy : TruncationPolicy) (multiplier : spec_float) : TruncationPolicy :=
  match policy with
  | Bytes bytes => Bytes (f64_ceil_usize (f64_mul (f64_of_usize bytes) multiplier))
  | Tokens tokens => Tokens (f64_ceil_usize (f64_mul (f64_of_usize tokens) multiplier))
  end.

(** ** Reported usage *)

Record TokenUsage := {
  input_tokens : Z;
  cached_input_tokens : Z;
  cache_write_input_tokens : Z;
  output_tokens : Z;
  reasoning_output_tokens : Z;
  total_tokens : Z;
  codex_rollout_budget_units : option rstring }.

Definition default_usage : TokenUsage :=
  {| input_tokens := 0; cached_input_tokens := 0; cache_write_input_tokens := 0; output_tokens := 0;
     reasoning_output_tokens := 0; total_tokens := 0; codex_rollout_budget_units := None |}.

Definition usage_of_total (total : Z) : TokenUsage :=
  {| input_tokens := 0; cached_input_tokens := 0; cache_write_input_tokens := 0; output_tokens := 0;
     reasoning_output_tokens := 0; total_tokens := total; codex_rollout_budget_units := None |}.

(** The units of the rollout budget, a JSON number as text, are not added. *)
Definition add_assign (self other : TokenUsage) : option TokenUsage :=
  a ← i64_add (input_tokens self) (input_tokens other);
  b ← i64_add (cached_input_tokens self) (cached_input_tokens other);
  c ← i64_add (cache_write_input_tokens self) (cache_write_input_tokens other);
  d ← i64_add (output_tokens self) (output_tokens other);
  e ← i64_add (reasoning_output_tokens self) (reasoning_output_tokens other);
  f ← i64_add (total_tokens self) (total_tokens other);
  Some {| input_tokens := a; cached_input_tokens := b; cache_write_input_tokens := c;
          output_tokens := d; reasoning_output_tokens := e; total_tokens := f;
          codex_rollout_budget_units := codex_rollout_budget_units self |}.

Record TokenUsageInfo := {
  total_token_usage : TokenUsage;
  last_token_usage : TokenUsage;
  model_context_window : option Z }.

Definition append_last_usage (last : TokenUsage) (info : TokenUsageInfo) : option TokenUsageInfo :=
  total ← add_assign (total_token_usage info) last;
  Some {| total_token_usage := total; last_token_usage := last;
          model_context_window := model_context_window info |}.

Definition new_or_append (info : option TokenUsageInfo) (last : option TokenUsage) (window : option Z)
    : option (option TokenUsageInfo) :=
  match info, last with
  | None, None => Some None
  | _, _ =>
      let start := default {| total_token_usage := default_usage; last_token_usage := default_usage;
                              model_context_window := window |} info in
      appended ← match last with Some last => append_last_usage last start | None => Some start end;
      Some (Some match window with
                 | Some w => {| total_token_usage := total_token_usage appended;
                                last_token_usage := last_token_usage appended;
                                model_context_window := Some w |}
                 | None => appended
                 end)
  end.

Definition fill_to_context_window (context_window : Z) (info : TokenUsageInfo) : option TokenUsageInfo :=
  delta ← i64_sub context_window (total_tokens (total_token_usage info));
  Some {| total_token_usage := usage_of_total context_window;
          last_token_usage := usage_of_total (Z.max delta 0);
          model_context_window := Some context_window |}.

Definition full_context_window (context_window : Z) : option TokenUsageInfo :=
  fill_to_context_window context_window
    {| total_token_usage := default_usage; last_token_usage := default_usage;
       model_context_window := Some context_window |}.

(** ** Estimates *)

Definition estimate_reasoning_length (encoded_len : N) : N := (saturating_mul encoded_len 3 / 4 - 650)%N.
Definition estimate_encrypted_function_output_length (encoded_len : N) : N :=
  ((saturating_mul encoded_len 9 + 15) / 16)%N.

Definition approx_tokens_from_byte_count_i64 (bytes : Z) : Z :=
  if bytes <=? 0 then 0 else i64_of_usize (approx_tokens_from_byte_count (Z.to_N bytes)).

(** [parse_base64_data_url]; the outer [None] is a slice out of range. *)
Definition parse_base64_data_url (url media_type_prefix : rstring) : option (option rstring) :=
  if starts_with_marker (str "data:") url then
    match split_once 44%N url with
    | None => Some None
    | Some (metadata, payload) =>
        '(_, metadata_without_scheme) ← split_at_byte metadata (str_len (str "data:"));
        match split_char 59%N metadata_without_scheme with
        | [] => Some None
        | mime_type :: metadata_parts =>
            let has_base64_marker :=
              existsb (λ part, eq_ignore_ascii_case part (str "base64")) metadata_parts in
            if starts_with_marker media_type_prefix mime_type && has_base64_marker
            then Some (Some payload) else Some None
        end
    end
  else Some None.

Definition parse_base64_image_data_url (url : rstring) : option (option rstring) :=
  parse_base64_data_url url (str "image/").
Definition parse_base64_audio_data_url (url : rstring) : option (option rstring) :=
  parse_base64_data_url url (str "audio/").

Definition RESIZED_IMAGE_BYTES_ESTIMATE : Z := 7373.
Definition ORIGINAL_IMAGE_PATCH_SIZE : Z := 32.
Definition ORIGINAL_IMAGE_MAX_PATCHES : N := 10000.

(** ** Data URLs *)

Lemma eq_ignore_length a b : eq_ignore_ascii_case a b = true → length a = length b.
Proof.
  unfold eq_ignore_ascii_case. intros H%bool_decide_eq_true_1.
  apply (f_equal length) in H. unfold to_ascii_lowercase in H. by rewrite !length_map in H.
Qed.

Lemma eq_ignore_not_in c a b :
  char_to_ascii_lowercase c ∉ to_ascii_lowercase b → eq_ignore_ascii_case a b = true → c ∉ a.
Proof.
  unfold eq_ignore_ascii_case. intros Hc H%bool_decide_eq_true_1 Hin. apply Hc. rewrite <-H.
  unfold to_ascii_lowercase. apply list_elem_of_In, in_map. by apply list_elem_of_In.
Qed.

Lemma starts_with_marker_Some marker s :
  starts_with_marker marker s = true ↔
  ∃ a r, s = a ++ r ∧ str_len a = str_len marker ∧ eq_ignore_ascii_case a marker = true.
Proof.
  unfold starts_with_marker. split.
  - destruct (split_at_byte s (str_len marker)) as [[a r]|] eqn:E; [|done].
    apply split_at_byte_Some in E as [-> E]. intros H. by exists a, r.
  - intros (a & r & -> & Hl & He). by rewrite <-Hl, split_at_byte_app.
Qed.

Lemma data_scheme url metadata payload :
  starts_with_marker (str "data:") url = true → split_once 44%N url = Some (metadata, payload) →
  ∃ scheme rest, metadata = scheme ++ rest ∧ eq_ignore_ascii_case scheme (str "data:") = true ∧
    split_at_byte metadata (str_len (str "data:")) = Some (scheme, rest).
Proof.
  intros (a & r & -> & Hl & He)%starts_with_marker_Some [Hu Hm]%split_once_Some.
  assert (44%N ∉ a) as Ha.
  { eapply eq_ignore_not_in; [|exact He]. by apply (bool_decide_eq_true_1 (_ ∉ _)). }
  apply app_eq_inv in Hu as [(k & -> & Hk)|(k & -> & Hk)].
  - destruct k as [|c k]; cbn in Hk.
    + rewrite app_nil_r in *. exists metadata, []. rewrite app_nil_r. split_and!; try done.
      rewrite <-Hl, <-(app_nil_r metadata) at 1. apply split_at_byte_app.
    + injection Hk as <- _. set_solver.
  - exists a, k. split_and!; try done. rewrite <-Hl. apply split_at_byte_app.
Qed.

(** The shape of an inline data URL: the scheme, the type and its parameters. *)
Definition base64_data_url (url media_type payload : rstring) : Prop :=
  ∃ scheme mime_type parts,
    url = scheme ++ join [59%N] (mime_type :: parts) ++ (44%N :: payload) ∧
    eq_ignore_ascii_case scheme (str "data:") = true ∧
    Forall (λ p, (44%N ∉ p) ∧ (59%N ∉ p)) (mime_type :: parts) ∧
    starts_with_marker media_type mime_type = true ∧
    ∃ part, part ∈ parts ∧ eq_ignore_ascii_case part (str "base64") = true.

Lemma elem_of_join c sep ls : c ∈ join sep ls → c ∈ sep ∨ ∃ l, l ∈ ls ∧ c ∈ l.
Proof.
  induction ls as [|l ls IH]; [by intros ?%elem_of_nil|]. destruct ls as [|l' ls].
  { cbn. intros Hc. right. exists l. split; [apply list_elem_of_here|done]. }
  rewrite join_cons by done. rewrite !elem_of_app. intros [Hc|[Hc|Hc]].
  - right. exists l. split; [apply list_elem_of_here|done].
  - by left.
  - apply IH in Hc as [?|(l'' & ? & ?)]; [by left|]. right. exists l''. split; [|done].
    by apply list_elem_of_further.
Qed.

Lemma elem_of_join_part c sep ls l : l ∈ ls → c ∈ l → c ∈ join sep ls.
Proof.
  induction ls as [|l' ls IH]; [by intros ?%elem_of_nil|]. destruct ls as [|l'' ls].
  { cbn. by intros ->%list_elem_of_singleton. }
  rewrite join_cons by done. rewrite !elem_of_app, elem_of_cons. intros [->|Hl] Hc; auto.
Qed.

Lemma str_len_lowercase s : str_len (to_ascii_lowercase s) = str_len s.
Proof.
  unfold str_len. induction s as [|c s IH]; [done|]. cbn. unfold to_ascii_lowercase in IH. rewrite IH. f_equal.
  unfold char_to_ascii_lowercase. destruct (_ && _)%N eqn:E; [|done].
  apply andb_true_iff in E as [E1%N.leb_le E2%N.leb_le]. unfold len_utf8.
  repeat case_match; try done; rewrite ?N.ltb_lt, ?N.ltb_ge in *; lia.
Qed.

Lemma eq_ignore_str_len a b : eq_ignore_ascii_case a b = true → str_len a = str_len b.
Proof.
  unfold eq_ignore_ascii_case. intros H%bool_decide_eq_true_1.
  by rewrite <-(str_len_lowercase a), <-(str_len_lowercase b), H.
Qed.

Lemma parse_base64_total url media_type : ∃ result, parse_base64_data_url url media_type = Some result.
Proof.
  unfold parse_base64_data_url. destruct (starts_with_marker (str "data:") url) eqn:Hd; [|by eexists].
  destruct (split_once 44%N url) as [[metadata payload]|] eqn:Hs; [|by eexists].
  destruct (data_scheme _ _ _ Hd Hs) as (scheme & rest & -> & He & ->). cbn [mbind option_bind].
  repeat case_match; by eexists.
Qed.

Lemma parse_base64_sound url media_type p :
  parse_base64_data_url url media_type = Some (Some p) → base64_data_url url media_type p.
Proof.
  unfold parse_base64_data_url. destruct (starts_with_marker (str "data:") url) eqn:Hd; [|done].
  destruct (split_once 44%N url) as [[metadata payload]|] eqn:Hs; [|done].
  destruct (data_scheme _ _ _ Hd Hs) as (scheme & rest & -> & He & ->). cbn [mbind option_bind].
  apply split_once_Some in Hs as [-> Hm].
  pose proof (join_split_char 59%N rest) as Hj. pose proof (split_char_elem 59%N rest) as Hne.
  destruct (split_char 59%N rest) as [|mime parts] eqn:Hc; [by apply split_char_nonempty in Hc|].
  destruct (_ && _) eqn:Hok; [|done]. intros [= <-].
  apply andb_true_iff in Hok as [Hmt (part & Hin & Hp)%existsb_exists].
  exists scheme, mime, parts. rewrite Hj, <-app_assoc. split_and!; try done.
  - apply Forall_forall. intros q Hq. split; [|by apply Hne]. intros Hin'. apply Hm.
    apply elem_of_app. right. rewrite <-Hj. by eapply elem_of_join_part.
  - exists part. split; [by apply list_elem_of_In|done].
Qed.

Lemma base64_data_url_accepted url media_type payload :
  base64_data_url url media_type payload →
  parse_base64_data_url url media_type = Some (Some payload).
Proof.
  intros (scheme & mime & parts & -> & He & Hf & Hmt & part & Hin & Hp).
  set (rest := join [59%N] (mime :: parts)).
  assert (44%N ∉ scheme) as Hs.
  { eapply eq_ignore_not_in; [|exact He]. by apply (bool_decide_eq_true_1 (_ ∉ _)). }
  assert (44%N ∉ rest) as Hr.
  { intros [Hc|(q & Hq & Hc)]%elem_of_join; [by apply list_elem_of_singleton in Hc|].
    rewrite Forall_forall in Hf. by destruct (Hf q Hq). }
  pose proof (eq_ignore_str_len _ _ He) as Hlen.
  unfold parse_base64_data_url. rewrite (proj2 (starts_with_marker_Some _ _)) by by eexists _, _.
  rewrite app_assoc, (proj2 (split_once_Some 44%N _ (scheme ++ rest) payload)).
  2:{ split; [done|]. rewrite elem_of_app. tauto. }
  rewrite <-Hlen, split_at_byte_app. cbn [mbind option_bind]. subst rest. rewrite split_char_join; [|done|].
  2:{ eapply Forall_impl; [done|]. by intros q [_ ?]. }
  rewrite Hmt. cbn [andb]. replace (existsb _ parts) with true; [done|]. symmetry.
  apply existsb_exists. exists part. split; [by apply list_elem_of_In|done].
Qed.

(** The parser of inline data URLs never slices out of range, and it finds the payload
    of exactly the URLs with the scheme, a type with the given prefix and a [base64]
    parameter, whatever their case. *)
Theorem parse_base64_data_url_exact url media_type :
  (∃ result, parse_base64_data_url url media_type = Some result) ∧
  ∀ payload, parse_base64_data_url url media_type = Some (Some payload) ↔
             base64_data_url url media_type payload.
Proof.
  split; [apply parse_base64_total|]. intros p. split; [apply parse_base64_sound|apply base64_data_url_accepted].
Qed.

Section estimate.
Context {Data : Type}.
(** The length of the JSON of an item, the dimensions of a base64 image and the tokens
    of an audio URL. *)
Context (serialized_json_bytes : @ResponseItem Data → option N).
Context (decode_image : rstring → option (N * N)).
Context (estimate_audio_token_count : rstring → N).

Implicit Types (i : @ResponseItem Data).

Definition estimate_original_image_bytes (image_url : rstring) : option (option Z) :=
  payload ← parse_base64_image_data_url image_url;
  Some (payload ← payload;
        '(width, height) ← decode_image payload;
        let patches n :=
          i64_saturating_add (Z.of_N n) (i64_saturating_sub ORIGINAL_IMAGE_PATCH_SIZE 1)
            / ORIGINAL_IMAGE_PATCH_SIZE in
        let patch_count := usize_of_i64 (i64_saturating_mul (patches width) (patches height)) in
        Some (i64_of_usize (approx_bytes_for_tokens (N.min patch_count ORIGINAL_IMAGE_MAX_PATCHES)))).

Definition estimate_image_bytes (image_url : rstring) (detail : option ImageDetail) : option Z :=
  match detail with
  | Some Original => default RESIZED_IMAGE_BYTES_ESTIMATE <$> estimate_original_image_bytes image_url
  | _ => Some RESIZED_IMAGE_BYTES_ESTIMATE
  end.

(** The bytes of payloads and of what replaces them, so far. *)
Definition accumulate_image (acc : Z * Z) (image : rstring * option ImageDetail) : option (Z * Z) :=
  payload ← parse_base64_image_data_url image.1;
  match payload with
  | None => Some acc
  | Some payload =>
      bytes ← estimate_image_bytes image.1 image.2;
      Some (i64_saturating_add acc.1 (i64_of_usize (ulen payload)), i64_saturating_add acc.2 bytes)
  end.

Definition accumulate_audio (acc : Z * Z) (audio_url : rstring) : option (Z * Z) :=
  payload ← parse_base64_audio_data_url audio_url;
  match payload with
  | None => Some acc
  | Some payload =>
      Some (i64_saturating_add acc.1 (i64_of_usize (ulen payload)),
            i64_saturating_add acc.2
              (i64_of_usize (approx_bytes_for_tokens (estimate_audio_token_count audio_url))))
  end.

Definition accumulate_encrypted (acc : Z * Z) (encrypted_content : rstring) : option (Z * Z) :=
  Some (i64_saturating_add acc.1 (i64_of_usize (ulen encrypted_content)),
        i64_saturating_add acc.2
          (i64_of_usize (estimate_encrypted_function_output_length (ulen encrypted_content)))).

Fixpoint accumulate_all {A} (f : Z * Z → A → option (Z * Z)) (acc : Z * Z) (l : list A) : option (Z * Z) :=
  match l with [] => Some acc | x :: l' => acc ← f acc x; accumulate_all f acc l' end.

(** The parts of an item that the scans look at. *)
Definition output_items i : list FunctionCallOutputContentItem :=
  match i with
  | FunctionCallOutput _ _ _ _ output _ | CustomToolCallOutput _ _ _ output _ =>
      match body output with ContentItems l => l | BodyText _ => [] end
  | _ => []
  end.

Definition images_of i : list (rstring * option ImageDetail) :=
  match i with
  | Message _ _ content _ _ =>
      omap (λ c, match c with ContentInputImage url detail => Some (url, detail) | _ => None end) content
  | _ => omap (λ c, match c with InputImage url detail => Some (url, detail) | _ => None end) (output_items i)
  end.

Definition audios_of i : list rstring :=
  match i with
  | Message _ _ content _ _ =>
      omap (λ c, match c with ContentInputAudio url => Some url | _ => None end) content
  | _ => omap (λ c, match c with InputAudio url => Some url | _ => None end) (output_items i)
  end.

Definition encrypted_of i : list rstring :=
  match i with
  | FunctionCallOutput _ _ _ _ _ _ =>
      omap (λ c, match c with EncryptedContent e => Some e | _ => None end) (output_items i)
  | AgentMessage _ _ _ content _ =>
      omap (λ c, match c with AgentEncryptedContent e => Some e | _ => None end) content
  | _ => []
  end.

Definition image_data_url_estimate_adjustment i : option (Z * Z) :=
  accumulate_all accumulate_image (0, 0) (images_of i).
Definition audio_data_url_estimate_adjustment i : option (Z * Z) :=
  accumulate_all accumulate_audio (0, 0) (audios_of i).
Definition encrypted_function_output_estimate_adjustment i : option (Z * Z) :=
  accumulate_all accumulate_encrypted (0, 0) (encrypted_of i).

Definition estimate_response_item_model_visible_bytes i : option Z :=
  match i with
  | Reasoning _ _ _ (Some content) _ | Compaction _ content _ | ContextCompaction _ (Some content) _ =>
      Some (i64_of_usize (estimate_reasoning_length (ulen content)))
  | _ =>
      let raw := default 0 (i64_of_usize <$> serialized_json_bytes i) in
      '(image_payload, image_replacement) ← image_data_url_estimate_adjustment i;
      '(audio_payload, audio_replacement) ← audio_data_url_estimate_adjustment i;
      '(encrypted_payload, encrypted_replacement) ← encrypted_function_output_estimate_adjustment i;
      let raw := i64_saturating_add (i64_saturating_sub raw image_payload) image_replacement in
      let raw := i64_saturating_add (i64_saturating_sub raw audio_payload) audio_replacement in
      Some (i64_saturating_add (i64_saturating_sub raw encrypted_payload) encrypted_replacement)
  end.

Definition estimate_item_token_count i : option Z :=
  approx_tokens_from_byte_count_i64 <$> estimate_response_item_model_visible_bytes i.

(** The sum of the estimates, from [start]. *)
Fixpoint estimate_items (start : Z) (l : list (@ResponseItem Data)) : option Z :=
  match l with
  | [] => Some start
  | i :: l' => n ← estimate_item_token_count i; estimate_items (i64_saturating_add start n) l'
  end.

(** ** Bounds *)

Lemma i64_saturate_range z : I64_MIN ≤ i64_saturate z ≤ I64_MAX.
Proof. unfold i64_saturate, I64_MIN, I64_MAX. lia. Qed.

Lemma approx_tokens_range bytes : 0 ≤ approx_tokens_from_byte_count_i64 bytes ≤ I64_MAX.
Proof.
  unfold approx_tokens_from_byte_count_i64, i64_of_usize, I64_MAX. case_match; lia.
Qed.

Lemma accumulate_all_total {A} (f : Z * Z → A → option (Z * Z)) acc l :
  (∀ acc x, is_Some (f acc x)) → is_Some (accumulate_all f acc l).
Proof.
  intros Hf. revert acc. induction l as [|x l IH]; intros acc; cbn; [by eexists|].
  destruct (Hf acc x) as [acc' ->]. apply IH.
Qed.

Lemma estimate_image_bytes_total url detail : is_Some (estimate_image_bytes url detail).
Proof.
  destruct detail as [[]|]; cbn; try done. unfold estimate_original_image_bytes, parse_base64_image_data_url.
  destruct (parse_base64_total url (str "image/")) as [r ->]. done.
Qed.

Lemma estimate_item_token_count_total i : is_Some (estimate_item_token_count i).
Proof.
  unfold estimate_item_token_count. apply fmap_is_Some.
  assert (is_Some (image_data_url_estimate_adjustment i)) as [[a b] Hi].
  { apply accumulate_all_total. intros acc [url detail]. unfold accumulate_image, parse_base64_image_data_url.
    cbn. destruct (parse_base64_total url (str "image/")) as [[p|] ->]; cbn; [|done].
    destruct (estimate_image_bytes_total url detail) as [n ->]. done. }
  assert (is_Some (audio_data_url_estimate_adjustment i)) as [[c d] Ha].
  { apply accumulate_all_total. intros acc url. unfold accumulate_audio, parse_base64_audio_data_url.
    destruct (parse_base64_total url (str "audio/")) as [[p|] ->]; done. }
  assert (is_Some (encrypted_function_output_estimate_adjustment i)) as [[e f] He].
  { by apply accumulate_all_total. }
  unfold estimate_response_item_model_visible_bytes. rewrite Hi, Ha, He. cbn.
  destruct i; try done; by case_match.
Qed.

Lemma estimate_item_token_count_range i n : estimate_item_token_count i = Some n → 0 ≤ n ≤ I64_MAX.
Proof.
  unfold estimate_item_token_count. intros (b & _ & ->)%fmap_Some. apply approx_tokens_range.
Qed.

(** The items have estimates, and the sum is exact up to the largest [i64]. *)
Lemma estimate_items_exact start l :
  0 ≤ start ≤ I64_MAX →
  ∃ ns, mapM estimate_item_token_count l = Some ns ∧ Forall (λ n, 0 ≤ n) ns ∧
    estimate_items start l = Some (Z.min (start + foldr Z.add 0 ns) I64_MAX).
Proof.
  revert start. induction l as [|i l IH]; intros start Hs.
  { exists []. split_and!; [done|constructor|]. cbn. f_equal. lia. }
  destruct (estimate_item_token_count_total i) as [n Hn]. pose proof (estimate_item_token_count_range _ _ Hn).
  destruct (IH (i64_saturating_add start n)) as (ns & Hm & Hf & He).
  { unfold i64_saturating_add, i64_saturate, I64_MIN, I64_MAX in *. lia. }
  exists (n :: ns). cbn [mapM estimate_items]. rewrite Hn. cbn. rewrite Hm. split_and!; [done|by constructor; [lia|]|].
  rewrite He. f_equal. cbn. assert (0 ≤ foldr Z.add 0 ns) by (clear -Hf; induction Hf; cbn; lia).
  unfold i64_saturating_add, i64_saturate, I64_MIN, I64_MAX in *. lia.
Qed.

End estimate.

(** The scaling of a policy, for small budgets. *)
Lemma policy_mul_small :
  (λ n, policy_mul (Tokens n) F64_1_2) <$> [0; 1; 5; 10; 2500; 10000]%N =
  Tokens <$> [0; 2; 6; 12; 3000; 12000]%N.
Proof. vm_compute. reflexivity. Qed.
