(* ===== verification/History.v ===== *)
(** * The conversation history ([core/src/context_manager/history.rs])

    [ContextManager] keeps the items of a conversation with the transcript for reviews, the
    retained context and the token usage.  The operations record items, drop and replace
    them, roll turns back and prepare the items for the model.

    Arguments stand for what libraries do: the UUIDs of synthetic outputs, the JSON
    encoder and decoder, the XML decoder of hook prompts, the decoders of media.  Settings
    and world state are only stored, as abstract types. *)

From S2P Require Import Prelude RustStr Truncate OrdMap Normalize Fragments RetainedContext Transcript.
From S2P Require Import TokenEstimate.

Local Open Scope nat_scope.

Section history.
Context {Data : Type} `{!EqDecision Data}.
Context {TurnContextItem WorldStateSnapshot : Type}.

Context (uuid_v5 : rstring → rstring) (debug_assertions : bool).
Context (from_xml_str : rstring → option (rstring * rstring)).
(** Whether a text is the JSON of an [InterAgentCommunication]. *)
Context (is_inter_agent_json : rstring → bool).
Context `{!JsonLen VerifiedAnswer, !JsonLen RetainedUserMessage}.
Context `{!JsonLen (list (Ordered VerifiedAnswer)), !JsonLen (list (Ordered RetainedUserMessage))}.
Context `{!JsonWrites (@ResponseItem Data), !JsonWrites (option (list Data)), !JsonWrites ContentItem}.
Context `{!JsonWrites (option rstring * rstring * option Data * option (@MetadataPassthrough Data))}.
Context (item_size : N).
Context (serialized_json_bytes : @ResponseItem Data → option N).
Context (decode_image : rstring → option (N * N)).
Context (estimate_audio_token_count : rstring → N).

(** ** State *)

Record ContextManager := {
  items : list (@ResponseItemEnvelope Data);
  review_history : option (@TranscriptHistory Data);
  retained_context : RetainedContext;
  retain_user_messages : bool;
  history_version : N;
  user_message_revision : N;
  token_info : option TokenUsageInfo;
  reference_context_item : option TurnContextItem;
  world_state_baseline : option WorldStateSnapshot }.

Implicit Types (self : ContextManager) (i : @ResponseItem Data) (e : @ResponseItemEnvelope Data).
Implicit Types (l : list (@ResponseItemEnvelope Data)).

Definition new_context : option ContextManager :=
  info ← new_or_append None None None;
  Some {| items := []; review_history := None; retained_context := default_retained;
          retain_user_messages := false; history_version := 0; user_message_revision := 0;
          token_info := info; reference_context_item := None; world_state_baseline := None |}.

Definition set_items l self : ContextManager :=
  {| items := l; review_history := review_history self; retained_context := retained_context self;
     retain_user_messages := retain_user_messages self; history_version := history_version self;
     user_message_revision := user_message_revision self; token_info := token_info self;
     reference_context_item := reference_context_item self;
     world_state_baseline := world_state_baseline self |}.
Definition set_review (h : option TranscriptHistory) self : ContextManager :=
  {| items := items self; review_history := h; retained_context := retained_context self;
     retain_user_messages := retain_user_messages self; history_version := history_version self;
     user_message_revision := user_message_revision self; token_info := token_info self;
     reference_context_item := reference_context_item self;
     world_state_baseline := world_state_baseline self |}.
Definition set_retained (c : RetainedContext) self : ContextManager :=
  {| items := items self; review_history := review_history self; retained_context := c;
     retain_user_messages := retain_user_messages self; history_version := history_version self;
     user_message_revision := user_message_revision self; token_info := token_info self;
     reference_context_item := reference_context_item self;
     world_state_baseline := world_state_baseline self |}.
Definition set_revisions (version revision : N) self : ContextManager :=
  {| items := items self; review_history := review_history self;
     retained_context := retained_context self; retain_user_messages := retain_user_messages self;
     history_version := version; user_message_revision := revision; token_info := token_info self;
     reference_context_item := reference_context_item self;
     world_state_baseline := world_state_baseline self |}.
Definition set_token_info (info : option TokenUsageInfo) self : ContextManager :=
  {| items := items self; review_history := review_history self;
     retained_context := retained_context self; retain_user_messages := retain_user_messages self;
     history_version := history_version self; user_message_revision := user_message_revision self;
     token_info := info; reference_context_item := reference_context_item self;
     world_state_baseline := world_state_baseline self |}.
Definition set_reference_context_item (reference : option TurnContextItem) self : ContextManager :=
  {| items := items self; review_history := review_history self;
     retained_context := retained_context self; retain_user_messages := retain_user_messages self;
     history_version := history_version self; user_message_revision := user_message_revision self;
     token_info := token_info self; reference_context_item := reference;
     world_state_baseline := world_state_baseline self |}.
Definition set_baseline (baseline : option WorldStateSnapshot) self : ContextManager :=
  {| items := items self; review_history := review_history self;
     retained_context := retained_context self; retain_user_messages := retain_user_messages self;
     history_version := history_version self; user_message_revision := user_message_revision self;
     token_info := token_info self; reference_context_item := reference_context_item self;
     world_state_baseline := baseline |}.
Definition enable_user_message_retention self : ContextManager :=
  {| items := items self; review_history := review_history self;
     retained_context := retained_context self; retain_user_messages := true;
     history_version := history_version self; user_message_revision := user_message_revision self;
     token_info := token_info self; reference_context_item := reference_context_item self;
     world_state_baseline := world_state_baseline self |}.

Definition bump_revision self : ContextManager :=
  set_revisions (history_version self) (saturating_add (user_message_revision self) 1) self.
Definition bump_version self : ContextManager :=
  set_revisions (saturating_add (history_version self) 1) (user_message_revision self) self.

(** ** Predicates on items *)

Definition contextual_user_content (content : list ContentItem) : bool :=
  is_contextual_user_message_content from_xml_str content.

(** A message of the user that holds added context. *)
Definition is_contextual_user_message i : bool :=
  match i with
  | Message _ role content _ _ => bool_decide (role = str "user") && contextual_user_content content
  | _ => false
  end.

(** Configuration updates need harness provenance; raw system messages are not kept. *)
Definition is_api_message i (metadata : option CodexHarnessMetadata) : bool :=
  match i with
  | Message _ role _ _ _ => bool_decide (role ≠ str "system")
  | ConfigurationUpdate _ =>
      match metadata with Some m => harness_authored_configuration m | None => false end
  | CompactionTrigger | Other => false
  | _ => true
  end.

(** [InterAgentCommunication::is_message_content]. *)
Definition is_inter_agent_instruction_content (content : list ContentItem) : bool :=
  match content with
  | [ContentInputText text] | [ContentOutputText text] => is_inter_agent_json text
  | _ => false
  end.

Definition is_user_turn_boundary i : bool :=
  match i with
  | AgentMessage _ _ _ _ _ => true
  | Message _ role content _ _ =>
      (bool_decide (role = str "user") && negb (contextual_user_content content)) ||
      (bool_decide (role = str "assistant") && is_inter_agent_instruction_content content)
  | _ => false
  end.

Definition is_model_generated_item i : bool :=
  match i with
  | Message _ role _ _ _ => bool_decide (role = str "assistant")
  | Reasoning _ _ _ _ _ | FunctionCall _ _ _ _ _ _ _ | ToolSearchCall _ _ _ _ _ _
  | WebSearchCall _ _ _ _ | ImageGenerationCall _ _ _ _ _ | CustomToolCall _ _ _ _ _ _ _
  | LocalShellCall _ _ _ _ _ | Compaction _ _ _ | ContextCompaction _ _ _ => true
  | _ => false
  end.

Definition item_metadata i : option MetadataPassthrough :=
  match i with
  | Message _ _ _ _ m | AgentMessage _ _ _ _ m | Reasoning _ _ _ _ m | LocalShellCall _ _ _ _ m
  | FunctionCall _ _ _ _ _ _ m | ToolSearchCall _ _ _ _ _ m | FunctionCallOutput _ _ _ _ _ m
  | CustomToolCall _ _ _ _ _ _ m | CustomToolCallOutput _ _ _ _ m | ToolSearchOutput _ _ _ _ _ m
  | WebSearchCall _ _ _ m | ImageGenerationCall _ _ _ _ m | Compaction _ _ m
  | ContextCompaction _ _ m => m
  | ConfigurationUpdate _ | CompactionTrigger | AdditionalTools _ _ _ | Other => None
  end.

(** [ResponseItem::turn_id], which is not empty. *)
Definition item_turn_id i : option rstring :=
  m ← item_metadata i; t ← turn_id m; if decide (t = []) then None else Some t.

(** The loop of [user_message_positions]. *)
Fixpoint positions_from (idx : nat) l : list nat :=
  match l with
  | [] => []
  | e :: l' =>
      (if is_user_turn_boundary (item e) then [idx] else []) ++ positions_from (S idx) l'
  end.

Definition user_message_positions l : list nat := positions_from 0 l.

(** ** Recording *)

Definition reserve_input_order self : N * ContextManager :=
  let '(order, c) := reserve_order (retained_context self) in (order, set_retained c self).

Definition record_retained_context (event : RetainedContextEvent) self : option (bool * ContextManager) :=
  '(changed, c) ← RetainedContext.record event (retained_context self);
  let self := set_retained c self in
  Some (if changed : bool then (true, bump_revision self) else (false, self)).

Definition restore_retained_context (checkpoint : option RetainedContext) self : option ContextManager :=
  c ← restore checkpoint; Some (set_retained c self).

Definition guardian_history_checkpoint self : option (list (@ResponseItem Data)) :=
  (λ h : @TranscriptHistory Data, (Transcript.items h).*1) <$> review_history self.

Definition restore_guardian_history (checkpoint : option (list (@ResponseItem Data))) self
    : option ContextManager :=
  let generation :=
    saturating_add (match review_history self with
                    | Some h => generation h
                    | None => history_version self
                    end) 1 in
  match checkpoint with
  | None => Some (set_review None self)
  | Some l => h ← reset item_size l (new_transcript generation); Some (set_review (Some h) self)
  end.

Definition update_token_info (usage : TokenUsage) (window : option Z) self : option ContextManager :=
  info ← new_or_append (token_info self) (Some usage) window; Some (set_token_info info self).

Definition set_token_usage_full (context_window : Z) self : option ContextManager :=
  info ← match token_info self with
         | Some info => fill_to_context_window context_window info
         | None => full_context_window context_window
         end;
  Some (set_token_info (Some info) self).

(** The output of a tool is truncated when it is recorded. *)
Definition truncate_recorded i (metadata : option CodexHarnessMetadata) (policy : TruncationPolicy)
    : option (@ResponseItem Data) :=
  let policy := match m ← metadata; fallback_token_limit_override m with
                | Some n => Tokens n
                | None => policy_mul policy F64_1_2
                end in
  match i with
  | FunctionCallOutput id call_id name namespace output m =>
      output ← truncate_function_output_payload estimate_audio_token_count output policy;
      Some (FunctionCallOutput id call_id name namespace output m)
  | CustomToolCallOutput id call_id name output m =>
      output ← truncate_function_output_payload estimate_audio_token_count output policy;
      Some (CustomToolCallOutput id call_id name output m)
  | _ => Some i
  end.

(** The text of a message that is retained, and whether it is all of it. *)
Definition retained_text (content : list ContentItem) : rstring :=
  join [LF] (omap (λ c, match c with
                        | ContentInputText text | ContentOutputText text => Some text
                        | _ => None
                        end) content).

Definition retained_complete (content : list ContentItem) (metadata : option (@MetadataPassthrough Data))
    : bool :=
  match m ← metadata; content_item_kinds m with
  | Some kinds =>
      bool_decide (length kinds = length content) && forallb (λ k, starts_with k (str "user.")) kinds
  | None => false
  end && forallb is_text content.

(** What a message that may change the authorisation does to the retained context. *)
Definition record_authorization i (metadata : option CodexHarnessMetadata) self : option ContextManager :=
  if is_user_authorization_message i then
    c ← match retain_user_messages self, i with
        | true, Message id _ content _ m =>
            record_user_message
              {| message_turn_id := default [] (item_turn_id i); message_id := id;
                 message_text := retained_text content; complete := retained_complete content m |}
              (m ← metadata; user_input_order m) (retained_context self)
        | _, _ => Some (mark_user_messages_incomplete (retained_context self))
        end;
    Some (bump_revision (set_retained c self))
  else Some self.

(** One round of [record_items_with_metadata]. *)
Definition record_item (policy : TruncationPolicy) (entry : @ResponseItem Data * option CodexHarnessMetadata)
    self : option ContextManager :=
  let '(i, metadata) := entry in
  if is_api_message i metadata then
    processed ← truncate_recorded i metadata policy;
    review ← match review_history self with
             | Some h =>
                 if is_contextual_user_message i then Some (Some h)
                 else Some <$> Transcript.record item_size processed h
             | None => Some None
             end;
    record_authorization i metadata
      (set_items (items self ++ [ {| item := processed; envelope_metadata := metadata |} ])
         (set_review review self))
  else Some self.

Fixpoint record_items_with_metadata (policy : TruncationPolicy)
    (entries : list (@ResponseItem Data * option CodexHarnessMetadata)) self : option ContextManager :=
  match entries with
  | [] => Some self
  | entry :: entries' => self ← record_item policy entry self; record_items_with_metadata policy entries' self
  end.

Definition record_items (l : list (@ResponseItem Data)) (policy : TruncationPolicy) self
    : option ContextManager :=
  record_items_with_metadata policy ((λ i, (i, None)) <$> l) self.
Definition record_annotated_items l (policy : TruncationPolicy) self : option ContextManager :=
  record_items_with_metadata policy ((λ e, (item e, envelope_metadata e)) <$> l) self.

(** ** Replacing *)

Definition remove_first_item self : ContextManager :=
  match items self with
  | [] => self
  | removed :: rest => set_baseline None (set_items (remove_corresponding_for rest (item removed)) self)
  end.

(** The items that are part of the transcript. *)
Definition reviewed l : list (@ResponseItem Data) :=
  filter (λ i, is_contextual_user_message i = false) (item <$> l).

Definition replace_annotated l self : option ContextManager :=
  review ← match review_history self with
           | Some h => Some <$> reset item_size (reviewed l) h
           | None => Some None
           end;
  Some (set_baseline None (bump_version (set_items l (set_review review
          (bump_revision (set_retained default_retained self)))))).

Definition replace_compacted l self : option ContextManager :=
  h ← match review_history self with
      | Some h => Some h
      | None =>
          record_all item_size (reviewed (items self))
            (new_transcript (saturating_add (history_version self) 1))
      end;
  Some (set_baseline None (bump_version (set_items l (set_review (Some h) self)))).

(** ** Rolling back *)

(** [trim_pre_turn_context_updates]: the new cut and reference context.  The loop goes
    down from [cut_idx]; [None] is an index out of range. *)
Fixpoint trim_pre_turn_context_updates (snapshot : list (@ResponseItemEnvelope Data))
    (first_idx cut_idx : nat) (reference : option TurnContextItem) : option (nat * option TurnContextItem) :=
  match cut_idx with
  | O => Some (O, reference)
  | S below =>
      if decide (cut_idx ≤ first_idx) then Some (cut_idx, reference)
      else
        e ← snapshot !! below;
        match item e with
        | Message _ role content _ _ =>
            if bool_decide (role = str "developer") && is_contextual_dev_message_content content
            then trim_pre_turn_context_updates snapshot first_idx below
                   (if has_non_contextual_dev_message_content content then None else reference)
            else if bool_decide (role = str "user") && contextual_user_content content
            then trim_pre_turn_context_updates snapshot first_idx below reference
            else Some (cut_idx, reference)
        | _ => Some (cut_idx, reference)
        end
  end.

(** Content that the next step makes anew. *)
Definition is_rebuilt (c : ContentItem) : bool :=
  match c with
  | ContentInputText text => matches_text ModelSwitchInstructions text || matches_text PersistentModeState text
  | _ => false
  end.

(** The closure of [retain_mut]: [None] drops the item. *)
Definition retain_before_first_turn (first_turn_id : rstring) e : option (@ResponseItemEnvelope Data) :=
  match item e with
  | Message _ role _ _ _ =>
      if bool_decide (item_turn_id (item e) = Some first_turn_id) && bool_decide (role = str "developer")
      then
        '(content, i) ← to_annotated_content (item e);
        let content := filter (λ c : ContentItem * rstring, is_rebuilt c.1 = false) content in
        if decide (content.*1 = []) then None
        else i' ← set_annotated_content i content;
             Some {| item := i'; envelope_metadata := envelope_metadata e |}
      else Some e
  | _ => Some e
  end.

(** The items that a rollback keeps, below a cut. *)
Definition kept_items (first cut : nat) (first_id : option rstring) (snapshot : list (@ResponseItemEnvelope Data))
    : list (@ResponseItemEnvelope Data) :=
  if decide (cut = first)
  then match first_id with
       | Some id => omap (retain_before_first_turn id) (take cut snapshot)
       | None => take cut snapshot
       end
  else take cut snapshot.

(** Whether an answer of the retained context stays, without retained user messages. *)
Definition keeps_answer (snapshot : list (@ResponseItemEnvelope Data)) (cut_idx : nat)
    (removed_turns : list rstring) (a : VerifiedAnswer) : bool :=
  let source e :=
    bool_decide (item_turn_id (item e) = Some (answer_turn_id a)) &&
    is_function_call (answer_call_id a) (item e) in
  match list_find (λ e, source e = true) (reverse snapshot) with
  | Some (back, _) => bool_decide (length snapshot - 1 - back < cut_idx)
  | None => bool_decide (answer_turn_id a ∉ removed_turns)
  end.

(** [drop_last_n_user_turns]; [None] is an index out of range. *)
Definition drop_last_n_user_turns (num_turns : N) self : option ContextManager :=
  if decide (num_turns = 0%N) then Some self
  else
    let snapshot := items self in
    let user_positions := user_message_positions snapshot in
    match user_positions with
    | [] =>
        self' ← replace_annotated snapshot self;
        Some (set_retained (retained_context self) self')
    | first_instruction_turn_idx :: _ =>
        let n_from_end := N.to_nat num_turns in
        cut_idx ← (if decide (length user_positions ≤ n_from_end) then Some first_instruction_turn_idx
                   else user_positions !! (length user_positions - n_from_end));
        cut_item ← snapshot !! cut_idx;
        let first_removed_message_id := item_id (item cut_item) in
        let acceptance_order := m ← envelope_metadata cut_item; user_input_order m in
        let review := truncate_before (item cut_item) <$> review_history self in
        '(cut_idx, reference) ←
          trim_pre_turn_context_updates snapshot first_instruction_turn_idx cut_idx
            (reference_context_item self);
        first_item ← snapshot !! first_instruction_turn_idx;
        let retained_items :=
          kept_items first_instruction_turn_idx cut_idx (item_turn_id (item first_item)) snapshot in
        let removed_turns := omap (item_turn_id ∘ item) (drop cut_idx snapshot) in
        let retained :=
          if retain_user_messages self
          then rollback removed_turns first_removed_message_id acceptance_order (retained_context self)
          else retain_answers (keeps_answer snapshot cut_idx removed_turns) (retained_context self) in
        self' ← replace_annotated retained_items
                  (set_review None (set_reference_context_item reference self));
        Some (set_review review (set_retained retained self'))
    end.

(** ** Reading *)

Definition for_prompt_annotated (input_modalities : list InputModality) self
    : option (list (@ResponseItemEnvelope Data)) :=
  normalize_history uuid_v5 debug_assertions input_modalities (items self).

Definition for_prompt (input_modalities : list InputModality) self : option (list (@ResponseItem Data)) :=
  (λ l, item <$> l) <$> for_prompt_annotated input_modalities self.

Definition estimate_history (start : Z) (l : list (@ResponseItem Data)) : option Z :=
  estimate_items serialized_json_bytes decode_image estimate_audio_token_count start l.

Definition estimate_token_count_with_base_instructions (base_instructions : rstring) self
    : option Z :=
  n ← estimate_history 0 (item <$> items self);
  Some (i64_saturating_add (i64_of_usize (approx_token_count base_instructions)) n).

(** The index of the last item with a property. *)
Definition rposition (p : @ResponseItem Data → bool) l : option nat :=
  (λ r, length l - 1 - r.1) <$> list_find (λ e, p (item e) = true) (reverse l).

Definition is_encrypted_reasoning i : bool :=
  match i with Reasoning _ _ _ (Some _) _ => true | _ => false end.

Definition get_non_last_reasoning_items_tokens self : option Z :=
  match rposition is_user_turn_boundary (items self) with
  | None => Some 0%Z
  | Some last_user_index =>
      estimate_history 0
        (filter (λ i, is_encrypted_reasoning i = true) (item <$> take last_user_index (items self)))
  end.

Definition items_after_last_model_generated_item self : list (@ResponseItem Data) :=
  let start := match rposition is_model_generated_item (items self) with
               | Some index => index + 1
               | None => length (items self)
               end in
  item <$> drop start (items self).

Definition estimated_tokens_after_last_model_generated_item self : option Z :=
  estimate_history 0 (items_after_last_model_generated_item self).

Definition get_total_token_usage (server_reasoning_included : bool) self : option Z :=
  let last_tokens := match token_info self with
                     | Some info => total_tokens (last_token_usage info)
                     | None => 0%Z
                     end in
  after ← estimated_tokens_after_last_model_generated_item self;
  if server_reasoning_included then Some (i64_saturating_add last_tokens after)
  else
    reasoning ← get_non_last_reasoning_items_tokens self;
    Some (i64_saturating_add (i64_saturating_add last_tokens reasoning) after).

(** ** Runs of operations *)

Inductive history_op :=
| OpRecordItems (policy : TruncationPolicy) (entries : list (@ResponseItem Data * option CodexHarnessMetadata))
| OpRemoveFirst
| OpReplaceAnnotated (l : list (@ResponseItemEnvelope Data))
| OpReplaceCompacted (l : list (@ResponseItemEnvelope Data))
| OpDropTurns (num_turns : N)
| OpReserveInput
| OpRetainedEvent (event : RetainedContextEvent)
| OpRestoreRetained (checkpoint : option RetainedContext)
| OpRestoreGuardian (checkpoint : option (list (@ResponseItem Data)))
| OpEnableRetention.

Definition history_step (op : history_op) self : option ContextManager :=
  match op with
  | OpRecordItems policy entries => record_items_with_metadata policy entries self
  | OpRemoveFirst => Some (remove_first_item self)
  | OpReplaceAnnotated l => replace_annotated l self
  | OpReplaceCompacted l => replace_compacted l self
  | OpDropTurns n => drop_last_n_user_turns n self
  | OpReserveInput => Some (reserve_input_order self).2
  | OpRetainedEvent event => snd <$> record_retained_context event self
  | OpRestoreRetained checkpoint => restore_retained_context checkpoint self
  | OpRestoreGuardian checkpoint => restore_guardian_history checkpoint self
  | OpEnableRetention => Some (enable_user_message_retention self)
  end.

Fixpoint history_run (ops : list history_op) self : option ContextManager :=
  match ops with [] => Some self | op :: ops' => self ← history_step op self; history_run ops' self end.

(** ** Turns *)

(** The instruction turns of a history. *)
Definition turns_of l : list (@ResponseItem Data) := filter (λ i, is_user_turn_boundary i = true) (item <$> l).

Arguments turns_of : simpl never.

Lemma turns_of_app l k : turns_of (l ++ k) = turns_of l ++ turns_of k.
Proof. unfold turns_of. by rewrite fmap_app, filter_app. Qed.

Lemma turns_of_cons e l : turns_of (e :: l) = (if is_user_turn_boundary (item e) then [item e] else []) ++ turns_of l.
Proof.
  unfold turns_of. cbn. by destruct (is_user_turn_boundary (item e)).
Qed.

Lemma turns_of_nil l : turns_of l = [] ↔ Forall (λ e, is_user_turn_boundary (item e) = false) l.
Proof.
  induction l as [|e l IH]; [done|]. rewrite turns_of_cons, Forall_cons, <-IH.
  destruct (is_user_turn_boundary (item e)); cbn; naive_solver.
Qed.

(** A position is the index of a boundary, with its rank. *)
Lemma positions_from_lookup idx l k p :
  positions_from idx l !! k = Some p →
  ∃ e, idx ≤ p ∧ l !! (p - idx) = Some e ∧ is_user_turn_boundary (item e) = true ∧
    turns_of (take (p - idx) l) = take k (turns_of l).
Proof.
  revert idx k. induction l as [|e l IH]; intros idx k; [done|]. cbn [positions_from].
  rewrite turns_of_cons. destruct (is_user_turn_boundary (item e)) eqn:Hb; cbn [app].
  - destruct k as [|k]; cbn.
    + intros [= <-]. exists e. rewrite Nat.sub_diag. by split_and!.
    + intros (e' & Hp & Hl & He & Ht)%IH. exists e'.
      replace (p - idx) with (S (p - S idx)) by lia. cbn. rewrite turns_of_cons, Hb. cbn.
      split_and!; [lia|done|done|]. by rewrite Ht.
  - intros (e' & Hp & Hl & He & Ht)%IH. exists e'.
    replace (p - idx) with (S (p - S idx)) by lia. cbn. rewrite turns_of_cons, Hb. cbn.
    split_and!; [lia|done|done|done].
Qed.

Lemma positions_from_length idx l : length (positions_from idx l) = length (turns_of l).
Proof.
  revert idx. induction l as [|e l IH]; intros idx; [done|]. cbn [positions_from].
  rewrite turns_of_cons, !length_app, IH. by destruct (is_user_turn_boundary (item e)).
Qed.

(** What lies between two cuts, the upper one at a boundary, are added context messages. *)
Lemma contextual_no_turn i :
  match i with
  | Message _ role content _ _ =>
      (bool_decide (role = str "developer") && is_contextual_dev_message_content content) = true ∨
      (bool_decide (role = str "user") && contextual_user_content content) = true
  | _ => False
  end → is_user_turn_boundary i = false.
Proof.
  destruct i; try done. cbn. intros [H|H]; apply andb_true_iff in H as [Hr%bool_decide_eq_true_1 Hc]; subst.
  - done.
  - rewrite Hc. done.
Qed.

Lemma trim_spec snapshot first cut reference :
  cut ≤ length snapshot → first ≤ cut →
  ∃ cut' reference', trim_pre_turn_context_updates snapshot first cut reference = Some (cut', reference') ∧
    first ≤ cut' ≤ cut ∧ turns_of (take cut snapshot) = turns_of (take cut' snapshot).
Proof.
  revert reference. induction cut as [|cut IH]; intros reference Hlen Hle; cbn [trim_pre_turn_context_updates].
  { eexists _, _. split; [done|]. split; [lia|done]. }
  case_decide; [eexists _, _; split; [done|]; split; [lia|done]|].
  destruct (snapshot !! cut) as [e|] eqn:He; [|apply lookup_ge_None in He; lia]. cbn [mbind option_bind].
  assert (is_user_turn_boundary (item e) = false →
    turns_of (take (S cut) snapshot) = turns_of (take cut snapshot)) as Hskip.
  { intros Hb. rewrite (take_S_r _ _ _ He), turns_of_app, turns_of_cons, Hb. cbn. apply app_nil_r. }
  assert (∃ cut' reference', Some (S cut, reference) = Some (cut', reference') ∧
    first ≤ cut' ≤ S cut ∧ turns_of (take (S cut) snapshot) = turns_of (take cut' snapshot)) as Hstop.
  { eexists _, _. split; [done|]. split; [lia|done]. }
  destruct (item e) as [| ? role content ? ?| | | | | | | | | | | | | | | |] eqn:Hi; try exact Hstop.
  destruct (bool_decide (role = str "developer") && _) eqn:Hd.
  { destruct (IH (if has_non_contextual_dev_message_content content then None else reference))
      as (c' & r' & -> & Hc & Ht); [lia|lia|].
    eexists _, _. split; [done|]. split; [lia|]. rewrite Hskip; [done|].
    apply contextual_no_turn. by left. }
  destruct (bool_decide (role = str "user") && _) eqn:Hu; [|exact Hstop].
  destruct (IH reference) as (c' & r' & -> & Hc & Ht); [lia|lia|].
  eexists _, _. split; [done|]. split; [lia|]. rewrite Hskip; [done|].
  apply contextual_no_turn. by right.
Qed.

(** Removing what is rebuilt leaves a message of the developer. *)
Lemma retain_before_first_turn_no_turn id e e' :
  retain_before_first_turn id e = Some e' → is_user_turn_boundary (item e) = false →
  is_user_turn_boundary (item e') = false.
Proof.
  unfold retain_before_first_turn. destruct (item e) as [| ? role content ? ?| | | | | | | | | | | | | | | |] eqn:Hi;
    try (by intros [= <-]; rewrite Hi).
  destruct (_ && _) eqn:Hd; [|by intros [= <-]; rewrite Hi].
  apply andb_true_iff in Hd as [_ Hr%bool_decide_eq_true_1]. cbn.
  destruct (decide _); [done|]. cbn. intros [= <-] _. cbn. by rewrite Hr.
Qed.

Lemma omap_no_turn f l :
  (∀ e e', f e = Some e' → is_user_turn_boundary (item e) = false → is_user_turn_boundary (item e') = false) →
  turns_of l = [] → turns_of (omap f l) = [].
Proof.
  intros Hf. rewrite !turns_of_nil, !Forall_forall. intros Hl e' He'.
  apply list_elem_of_omap in He' as (e & He & Hfe). eauto.
Qed.

(** ** The state stays within its bounds *)

Section laws.
Context (Hitem_size : (item_size ≤ MAX_BYTES_PER_KIND)%N).
Context `{!JsonArray VerifiedAnswer, !JsonArray RetainedUserMessage}.

Definition review_ok (review : option (@TranscriptHistory Data)) : Prop :=
  ∀ h, review = Some h → transcript_ok h.

Definition manager_ok self : Prop :=
  retained_ok (retained_context self) ∧ review_ok (review_history self).

Lemma reset_ok (l' : list (@ResponseItem Data)) (h : @TranscriptHistory Data) : ∃ h', reset item_size l' h = Some h' ∧ transcript_ok h'.
Proof.
  unfold reset. edestruct record_all_ok as (h' & -> & H); [done|]. exists h'. split; [done|].
  apply H. intros u. by split.
Qed.

Lemma replace_annotated_spec l self :
  ∃ review, replace_annotated l self =
    Some {| items := l; review_history := review; retained_context := default_retained;
            retain_user_messages := retain_user_messages self;
            history_version := saturating_add (history_version self) 1;
            user_message_revision := saturating_add (user_message_revision self) 1;
            token_info := token_info self; reference_context_item := reference_context_item self;
            world_state_baseline := None |} ∧
    review_ok review ∧ (review = None ↔ review_history self = None).
Proof.
  unfold replace_annotated. destruct (review_history self) as [h|] eqn:Hh.
  - destruct (reset_ok (reviewed l) h) as (h' & -> & Hok). exists (Some h'). cbn.
    split_and!; [done| |done]. by intros ? [= <-].
  - exists None. cbn. by split_and!.
Qed.

Definition is_developer i : bool :=
  match i with Message _ role _ _ _ => bool_decide (role = str "developer") | _ => false end.

Lemma retain_not_developer id e : is_developer (item e) = false → retain_before_first_turn id e = Some e.
Proof.
  unfold retain_before_first_turn. destruct (item e); try done. cbn. intros ->.
  by rewrite andb_false_r.
Qed.

Lemma kept_items_turns first cut id snapshot :
  turns_of (take first snapshot) = [] → turns_of (kept_items first cut id snapshot) = turns_of (take cut snapshot).
Proof.
  intros Hf. unfold kept_items. case_decide as Hc; [|done]. subst cut. destruct id as [id|]; [|done].
  rewrite Hf. apply omap_no_turn; [|done]. intros e e'. apply retain_before_first_turn_no_turn.
Qed.

Lemma kept_items_before first cut id snapshot e :
  first ≤ cut → e ∈ take first snapshot → is_developer (item e) = false → e ∈ kept_items first cut id snapshot.
Proof.
  intros Hle He Hd. assert (e ∈ take cut snapshot) as Hcut.
  { replace first with (first `min` cut) in He by lia. rewrite <-take_take in He.
    by eapply elem_of_take in He as (? & ?%list_elem_of_lookup_2 & _). }
  unfold kept_items. case_decide; [|done]. destruct id as [id|]; [|done].
  apply list_elem_of_omap. exists e. split; [done|]. by apply retain_not_developer.
Qed.

(** The boundary at which a rollback cuts. *)
Lemma cut_boundary num_turns l first ps :
  num_turns ≠ 0%N → user_message_positions l = first :: ps →
  let total := length (turns_of l) in
  let n := N.to_nat num_turns in
  ∃ cut e, (if decide (length (first :: ps) ≤ n) then Some first
            else (first :: ps) !! (length (first :: ps) - n)) = Some cut ∧
    l !! cut = Some e ∧ turns_of (take cut l) = take (total - n) (turns_of l) ∧
    turns_of (take first l) = [] ∧ first ≤ cut ∧
    (∃ e', l !! first = Some e' ∧ is_user_turn_boundary (item e') = true) ∧
    (total ≤ n → cut = first).
Proof.
  intros Hn Hps total n. unfold user_message_positions in Hps.
  pose proof (positions_from_length 0 l) as Hlen. rewrite Hps in Hlen. fold total in Hlen.
  destruct (positions_from_lookup 0 l 0 first) as (ef & _ & Hef & Hbf & Htf); [by rewrite Hps|].
  rewrite Nat.sub_0_r in Hef, Htf. cbn in Htf.
  assert ((first :: ps) !! (total - n) = Some first ∨ total - n < length (first :: ps)) as Hin by (right; cbn in *; lia).
  assert (∃ cut, (first :: ps) !! (total - n) = Some cut) as [cut Hcut].
  { destruct Hin as [?|Hin]; [by eexists|]. by apply lookup_lt_is_Some_2. }
  destruct (positions_from_lookup 0 l (total - n) cut) as (e & _ & He & Hb & Ht); [by rewrite Hps|].
  rewrite Nat.sub_0_r in He, Ht. exists cut, e. split_and!; try done.
  - rewrite Hlen. case_decide as Hd; [|done].
    replace (total - n) with 0 in Hcut by lia. by rewrite <-Hcut.
  - destruct (decide (first ≤ cut)); [done|]. exfalso. apply turns_of_nil in Htf.
    rewrite Forall_forall in Htf. rewrite (Htf e) in Hb; [done|].
    apply elem_of_take. exists cut. split; [done|lia].
  - by exists ef.
  - intros Hd. replace (total - n) with 0 in Hcut by lia. by injection Hcut.
Qed.

(** Rolling back with at least one turn, by its cut. *)
Lemma drop_last_spec num_turns self :
  num_turns ≠ 0%N → turns_of (items self) ≠ [] →
  ∃ self' first cut id, drop_last_n_user_turns num_turns self = Some self' ∧
    items self' = kept_items first cut id (items self) ∧ first ≤ cut ∧
    turns_of (take first (items self)) = [] ∧
    (∃ e, items self !! first = Some e ∧ is_user_turn_boundary (item e) = true) ∧
    turns_of (take cut (items self)) =
      take (length (turns_of (items self)) - N.to_nat num_turns) (turns_of (items self)) ∧
    (retained_ok (retained_context self) → retained_ok (retained_context self')) ∧
    (review_ok (review_history self) → review_ok (review_history self')).
Proof.
  intros Hn Ht. unfold drop_last_n_user_turns. rewrite decide_False by done.
  destruct (user_message_positions (items self)) as [|first ps] eqn:Hps.
  { pose proof (positions_from_length 0 (items self)) as Hlen. unfold user_message_positions in Hps.
    rewrite Hps in Hlen. symmetry in Hlen. by apply nil_length_inv in Hlen. }
  destruct (cut_boundary _ _ _ _ Hn Hps) as (cut & e & Hsel & He & Htc & Htf & Hle & (ef & Hef & Hbf) & _).
  rewrite Hsel. cbn [mbind option_bind]. rewrite He. cbn [mbind option_bind].
  destruct (trim_spec (items self) first cut (reference_context_item self)) as (cut' & r & -> & Hc & Htr).
  { apply lookup_lt_Some in He. lia. } { done. }
  cbn [mbind option_bind]. rewrite Hef. cbn [mbind option_bind].
  set (kept := kept_items first cut' _ (items self)).
  destruct (replace_annotated_spec kept (set_review None (set_reference_context_item r self)))
    as (review & -> & _ & _). cbn [mbind option_bind].
  eexists _, first, cut', _. split; [done|]. split; [done|]. split_and!; [lia|done|by exists ef| | |].
  - by rewrite <-Htr.
  - intros Hok. cbn. destruct (retain_user_messages self).
    + by destruct (retained_step_ok (OpRollback (omap (item_turn_id ∘ item) (drop cut' (items self)))
        (item_id (item e)) (m ← envelope_metadata e; user_input_order m)) _ Hok) as (? & [= <-] & ?).
    + by destruct (retained_step_ok (OpRetain (keeps_answer (items self) cut'
        (omap (item_turn_id ∘ item) (drop cut' (items self))))) _ Hok) as (? & [= <-] & ?).
  - cbn. intros Hok h. intros (h0 & Hh & ->)%fmap_Some.
    by destruct (transcript_step_ok item_size Hitem_size (OpTruncate (item e)) h0) as (? & [= <-] & H);
      apply H, Hok.
Qed.

Lemma truncate_payload_total output policy :
  is_Some (truncate_function_output_payload estimate_audio_token_count output policy).
Proof.
  unfold truncate_function_output_payload. destruct (body output) as [text|l].
  - destruct (truncate_text_total text policy) as [t ->]. done.
  - unfold truncate_function_output_items_with_policy.
    edestruct (truncate_items_media estimate_audio_token_count policy l) as (st & new & -> & _). done.
Qed.

Lemma truncate_recorded_total i metadata policy : is_Some (truncate_recorded i metadata policy).
Proof.
  unfold truncate_recorded. set (q := match _ with Some n => _ | None => _ end).
  destruct i; try done;
    match goal with |- context [truncate_function_output_payload _ ?o _] =>
      destruct (truncate_payload_total o q) as [o' ->] end; done.
Qed.

Lemma record_authorization_ok i metadata self :
  manager_ok self → ∃ self', record_authorization i metadata self = Some self' ∧ manager_ok self'.
Proof.
  intros [Hr Hv]. unfold record_authorization. case_match; [|by exists self].
  assert (∃ c, match retain_user_messages self, i with
    | true, Message id _ content _ m =>
        record_user_message
          {| message_turn_id := default [] (item_turn_id i); message_id := id;
             message_text := retained_text content; complete := retained_complete content m |}
          (m ← metadata; user_input_order m) (retained_context self)
    | _, _ => Some (mark_user_messages_incomplete (retained_context self))
    end = Some c ∧ retained_ok c) as (c & -> & Hc).
  { pose proof (retained_step_ok OpMark _ Hr) as Hmark.
    destruct (retain_user_messages self); [|exact Hmark]. destruct i; try exact Hmark.
    exact (retained_step_ok (OpMessage _ _) _ Hr). }
  cbn. eexists. split; [done|]. by split.
Qed.

Lemma record_item_ok policy entry self :
  manager_ok self → ∃ self', record_item policy entry self = Some self' ∧ manager_ok self'.
Proof.
  destruct entry as [i metadata]. intros [Hr Hv]. unfold record_item. case_match; [|by exists self].
  destruct (truncate_recorded_total i metadata policy) as [processed ->]. cbn [mbind option_bind].
  assert (∃ review, match review_history self with
    | Some h => if is_contextual_user_message i then Some (Some h)
                else Some <$> Transcript.record item_size processed h
    | None => Some None
    end = Some review ∧ review_ok review) as (review & -> & Hreview).
  { destruct (review_history self) as [h|]; [|by exists None].
    destruct (is_contextual_user_message i); [by exists (Some h)|].
    destruct (record_ok item_size Hitem_size processed h) as (h' & -> & Hok). exists (Some h').
    split; [done|]. intros ? [= <-]. by apply Hok, Hv. }
  cbn [mbind option_bind]. apply record_authorization_ok. by split.
Qed.

Lemma history_step_ok op self :
  manager_ok self → ∃ self', history_step op self = Some self' ∧ manager_ok self'.
Proof.
  intros Hok. pose proof Hok as [Hr Hv].
  destruct op as [policy entries| |l|l|n| |event|c|c|]; cbn [history_step].
  - revert self Hok Hr Hv. induction entries as [|entry entries IH]; intros self Hok _ _; [by exists self|].
    cbn [record_items_with_metadata]. destruct (record_item_ok policy entry self Hok) as (s1 & -> & Hok1).
    destruct Hok1. by apply IH.
  - eexists. split; [done|]. unfold remove_first_item. by destruct (items self).
  - destruct (replace_annotated_spec l self) as (review & -> & Hrev & _). eexists. split; [done|].
    split; [apply default_retained_ok|done].
  - unfold replace_compacted. destruct (review_history self) as [h|] eqn:Hh; cbn.
    { eexists. split; [done|]. by split. }
    edestruct record_all_ok as (h' & -> & H); [done|]. cbn. eexists. split; [done|]. split; [done|].
    intros ? [= <-]. apply H. intros u. by split.
  - destruct (decide (n = 0%N)) as [->|Hn]; [by exists self|].
    destruct (decide (turns_of (items self) = [])) as [Ht|Ht].
    + unfold drop_last_n_user_turns. rewrite decide_False by done.
      assert (user_message_positions (items self) = []) as ->.
      { apply nil_length_inv. unfold user_message_positions. by rewrite positions_from_length, Ht. }
      destruct (replace_annotated_spec (items self) self) as (review & -> & Hrev & _).
      eexists. split; [done|]. by split.
    + destruct (drop_last_spec n self Hn Ht) as (s' & _ & _ & _ & Hd & _ & _ & _ & _ & _ & H1 & H2).
      exists s'. split; [done|]. split; auto.
  - eexists. split; [done|]. split; [|done]. cbn.
    by destruct (retained_step_ok OpReserve _ Hr) as (? & [= <-] & ?).
  - unfold record_retained_context.
    destruct (retained_step_ok (OpAnswer event) _ Hr) as (c & ([b c'] & Hc & ->)%fmap_Some & Hok').
    rewrite Hc. cbn. destruct b; eexists; (split; [done|]); by split.
  - unfold restore_retained_context. destruct (restore_ok c) as (c' & -> & Hc). eexists. split; [done|]. by split.
  - unfold restore_guardian_history. destruct c as [l|]; [|by eexists].
    destruct (reset_ok l (new_transcript (saturating_add
      (match review_history self with Some h => generation h | None => history_version self end) 1)))
      as (h' & -> & Hh). eexists. split; [done|]. split; [done|]. by intros ? [= <-].
  - by eexists.
Qed.

(** Without turns a rollback keeps the items, but it is not without effect: the history
    has a new version and its baseline is gone. *)
Lemma rollback_without_turns num_turns self :
  num_turns ≠ 0%N → turns_of (items self) = [] →
  ∃ self', drop_last_n_user_turns num_turns self = Some self' ∧ items self' = items self ∧
    retained_context self' = retained_context self ∧
    history_version self' = saturating_add (history_version self) 1 ∧
    user_message_revision self' = saturating_add (user_message_revision self) 1 ∧
    world_state_baseline self' = None.
Proof.
  intros Hn Ht. unfold drop_last_n_user_turns. rewrite decide_False by done.
  assert (user_message_positions (items self) = []) as ->.
  { apply nil_length_inv. unfold user_message_positions. by rewrite positions_from_length, Ht. }
  destruct (replace_annotated_spec (items self) self) as (review & -> & _).
  eexists. split; [done|]. by split_and!.
Qed.

Lemma before_first_turn l pre e post first :
  l = pre ++ e :: post → turns_of (pre ++ [e]) = [] →
  (∃ e', l !! first = Some e' ∧ is_user_turn_boundary (item e') = true) → e ∈ take first l.
Proof.
  intros -> Ht (e' & Hl & Hb). apply turns_of_nil in Ht.
  assert (length pre < first) as Hlt.
  { destruct (decide (length pre < first)); [done|]. exfalso. rewrite Forall_forall in Ht.
    rewrite (Ht e') in Hb; [done|]. replace (pre ++ e :: post) with ((pre ++ [e]) ++ post) in Hl.
    2:{ by rewrite <-app_assoc. }
    rewrite lookup_app_l in Hl by (rewrite length_app; cbn; lia). by eapply list_elem_of_lookup_2. }
  apply elem_of_take. exists (length pre). split; [by apply list_lookup_middle|done].
Qed.

(** ** Properties *)

(** C30: every sequence of operations on the history returns: no index is out of range, no
    counter underflows and every eviction ends.  The retained context and the transcript
    stay within their bounds. *)
Theorem history_runs_bounded ops self :
  manager_ok self → ∃ self', history_run ops self = Some self' ∧ manager_ok self'.
Proof.
  revert self. induction ops as [|op ops IH]; intros self Hok; [by exists self|]. cbn [history_run].
  destruct (history_step_ok op self Hok) as (s1 & -> & H1). by apply IH.
Qed.

(** C31: rolling back [n] turns removes exactly the last [n] instruction turns, or all of
    them when there are fewer.  What came before the first turn survives, except messages
    of the developer, and while turns are left the items are a prefix of what they were. *)
Theorem drop_last_n_user_turns_exact n self :
  let total := length (turns_of (items self)) in
  ∃ self', drop_last_n_user_turns n self = Some self' ∧
    turns_of (items self') = take (total - N.to_nat n) (turns_of (items self)) ∧
    (N.to_nat n < total → items self' `prefix_of` items self) ∧
    (∀ pre e post, items self = pre ++ e :: post → turns_of (pre ++ [e]) = [] →
       is_developer (item e) = false → e ∈ items self').
Proof.
  intros total. destruct (decide (n = 0%N)) as [->|Hn].
  { exists self. split; [done|]. split_and!; [|done|].
    { change (N.to_nat 0) with 0. rewrite Nat.sub_0_r. symmetry. apply firstn_all. }
    intros pre e post -> _ _. apply elem_of_app. right. apply list_elem_of_here. }
  destruct (decide (turns_of (items self) = [])) as [Ht|Ht].
  { destruct (rollback_without_turns n self Hn Ht) as (s' & Hd & Hi & _). exists s'. rewrite Hi, Ht.
    split_and!; [done|by rewrite take_nil|done|].
    intros pre e post -> _ _. apply elem_of_app. right. apply list_elem_of_here. }
  destruct (drop_last_spec n self Hn Ht) as (s' & first & cut & id & Hd & Hi & Hle & Hf & Hfe & Htc & _ & _).
  exists s'. split; [done|]. rewrite Hi. split_and!.
  - rewrite kept_items_turns by done. exact Htc.
  - intros Hlt. unfold kept_items. case_decide as Hc; [|apply prefix_take]. subst cut.
    rewrite Hf in Htc. apply (f_equal length) in Htc. rewrite length_take in Htc. cbn in Htc.
    fold total in Htc. lia.
  - intros pre e post Hitems Hpre Hdev. apply kept_items_before; [done| |done].
    by eapply before_first_turn.
Qed.

(** Removing the oldest item keeps a paired history paired: the other half of its call
    goes with it, and nothing else does. *)
Theorem remove_first_keeps_pairs self :
  paired (items self) →
  paired (items (remove_first_item self)) ∧ items (remove_first_item self) `sublist_of` items self.
Proof.
  intros Hp. unfold remove_first_item. destruct (items self) as [|e l] eqn:Hi; cbn; [by rewrite Hi|].
  split; [by apply (remove_first_paired uuid_v5)|]. apply sublist_cons, (remove_corresponding_sublist uuid_v5).
Qed.

End laws.

(** Context that the program adds to the conversation is never taken for a turn of the
    user: a message of the user with an injected text is no boundary for a rollback and is
    not part of the transcript. *)
Theorem injected_is_no_turn id content phase metadata text :
  injected text → ContentInputText text ∈ content →
  let i := Message id (str "user") content phase metadata in
  is_user_turn_boundary i = false ∧ reviewed [new_envelope i] = [].
Proof.
  intros Hinj Hin i. assert (contextual_user_content content = true) as Hc.
  { apply existsb_exists. eexists. split; [by apply list_elem_of_In|].
    unfold is_contextual_user_fragment. rewrite (injected_contextual _ Hinj). apply orb_true_r. }
  subst i. cbn. unfold reviewed. cbn. rewrite Hc. done.
Qed.

End history.

(** ** Witnesses *)

Module Example.
Import Sized OnePiece.

Definition user (id text : rstring) : @ResponseItem () :=
  Message (Some id) (str "user") [ContentInputText text] None None.
Definition call : @ResponseItem () :=
  FunctionCall None (str "shell") None (str "{}") None (str "c1") None.
Definition output : @ResponseItem () :=
  FunctionCallOutput None (Some (str "c1")) None None (from_text (str "done")) None.
Definition instructions : @ResponseItem () :=
  Message None (str "user") [ContentInputText (str "<skill>x</skill>")] None None.

Definition state (l : list (@ResponseItem ())) : @ContextManager () () () :=
  {| items := new_envelope <$> l; review_history := Some (new_transcript 0);
     retained_context := default_retained; retain_user_messages := true; history_version := 0;
     user_message_revision := 0; token_info := None; reference_context_item := None;
     world_state_baseline := Some () |}.

(** The operations with encoders that find nothing. *)
Definition run : list history_op → ContextManager → option (@ContextManager () () ()) :=
  history_run (λ _, None) (λ _, false) 400 (λ _, 0%N).
Definition drop_turns : N → ContextManager → option (@ContextManager () () ()) :=
  drop_last_n_user_turns (λ _, None) (λ _, false) 400.

Lemma history_runs_bounded_witness :
  ∃ self', run [OpRecordItems (Tokens 100) [(user (str "m1") (str "hi"), None); (call, None)];
                OpDropTurns 1; OpRemoveFirst] (state []) = Some self' ∧ manager_ok self'.
Proof.
  apply history_runs_bounded; [done|apply _|apply _|]. split; [apply default_retained_ok|].
  intros h [= <-] u. by split.
Defined.

Lemma drop_last_n_user_turns_exact_witness :
  ∃ self', drop_turns 1 (state [instructions; user (str "m1") (str "a"); call; output;
                                user (str "m2") (str "b")]) = Some self' ∧
    length (items self') = 4 ∧ turns_of (λ _, None) (λ _, false) (items self') = [user (str "m1") (str "a")].
Proof.
  destruct (drop_last_n_user_turns_exact (λ _, None) (λ _, false) 400 ltac:(done) 1
    (state [instructions; user (str "m1") (str "a"); call; output; user (str "m2") (str "b")]))
    as (self' & Hd & Ht & _).
  exists self'. split; [exact Hd|]. split; [|rewrite Ht; vm_compute; reflexivity].
  vm_compute in Hd. injection Hd as <-. reflexivity.
Defined.

Lemma remove_first_keeps_pairs_witness :
  paired (items (state [call; output])) ∧
  paired (items (remove_first_item (state [call; output]))).
Proof.
  assert (paired (items (state [call; output]))) as Hp.
  { assert (∀ l : list rstring, bool_decide (NoDup l) = true → NoDup l) as Hnd.
    { intros l. apply bool_decide_eq_true_1. }
    assert (items (state [call; output]) = [new_envelope call; new_envelope output]) as -> by reflexivity.
    split; [|intros []; split; apply Hnd; vm_compute; reflexivity].
    intros []; (split; [apply (bool_decide_eq_true_1 (_ ⊆ _)); vm_compute; reflexivity|]);
      intros e c He Hc; right; apply elem_of_collect_ids;
      apply elem_of_cons in He as [->|He]; try discriminate Hc;
      apply list_elem_of_singleton in He as ->; try discriminate Hc.
    injection Hc as <-. exists (new_envelope call). split; [apply list_elem_of_here|reflexivity]. }
  split; [exact Hp|]. exact (proj1 (remove_first_keeps_pairs (λ s, s) (state [call; output]) Hp)).
Defined.

Lemma injected_is_no_turn_witness :
  is_user_turn_boundary (λ _, None) (λ _, false) instructions = false.
Proof.
  refine (proj1 (injected_is_no_turn (λ _, None) (λ _, false) None _ None None
    (str "<skill>x</skill>") _ _)).
  - refine (injected_marked skill_markers (str "x") _). apply list_elem_of_further, list_elem_of_here.
  - apply list_elem_of_here.
Defined.
End Example.
