(* ===== verification/Constraint.v ===== *)
(** * Constrained values ([config/src/constraint.rs])

    A value with the validator that every value it takes must pass, and the sources of
    requirements ([config/src/config_requirements.rs]) that errors name.  A validator is a
    function; the texts that [Debug] makes of values are an argument. *)

From S2P Require Import Prelude RustStr.

Local Open Scope nat_scope.

(** ** Sources of requirements *)

Inductive RequirementSource :=
| Unknown
| MdmManagedPreferences (domain key : rstring)
| Composite (sources : list RequirementSource)
| EnterpriseManaged (id name : rstring)
| SystemRequirementsToml (file : list rstring)
| LegacyManagedConfigTomlFromFile (file : list rstring)
| LegacyManagedConfigTomlFromMdm.

#[export] Instance RequirementSource_eq_dec : EqDecision RequirementSource.
Proof.
  refine (fix go x y := let _ : EqDecision RequirementSource := go in
    match x, y return base.Decision (x = y) with
    | Unknown, Unknown => left _
    | MdmManagedPreferences d k, MdmManagedPreferences d' k' => cast_if_and (decide (d = d')) (decide (k = k'))
    | Composite l, Composite l' => cast_if (decide (l = l'))
    | EnterpriseManaged i n, EnterpriseManaged i' n' => cast_if_and (decide (i = i')) (decide (n = n'))
    | SystemRequirementsToml f, SystemRequirementsToml f' => cast_if (decide (f = f'))
    | LegacyManagedConfigTomlFromFile f, LegacyManagedConfigTomlFromFile f' => cast_if (decide (f = f'))
    | LegacyManagedConfigTomlFromMdm, LegacyManagedConfigTomlFromMdm => left _
    | _, _ => right _
    end); congruence.
Defined.

(** [append_to_composite]. *)
Fixpoint append_to_composite (self : RequirementSource) (flattened : list RequirementSource)
    : list RequirementSource :=
  match self with
  | Composite sources => foldl (λ acc s, append_to_composite s acc) flattened sources
  | source => if decide (source ∈ flattened) then flattened else flattened ++ [source]
  end.

(** [RequirementSource::composite]. *)
Definition composite (sources : list RequirementSource) : RequirementSource :=
  match foldl (λ acc s, append_to_composite s acc) [] sources with
  | [] => Unknown
  | [source] => source
  | flattened => Composite flattened
  end.

Definition is_composite (s : RequirementSource) : bool := match s with Composite _ => true | _ => false end.

(** A list without repetition of sources that are not composite. *)
Definition flat (l : list RequirementSource) : Prop := NoDup l ∧ Forall (λ s, is_composite s = false) l.

Fixpoint source_ind (P : RequirementSource → Prop)
    (Hleaf : ∀ s, is_composite s = false → P s) (Hcomp : ∀ l, Forall P l → P (Composite l))
    (s : RequirementSource) : P s :=
  match s with
  | Composite l =>
      Hcomp l ((fix go (l : list RequirementSource) : Forall P l :=
                  match l with
                  | [] => Forall_nil_2 _
                  | s :: l' => Forall_cons_2 _ _ _ (source_ind P Hleaf Hcomp s) (go l')
                  end) l)
  | s => Hleaf s eq_refl
  end.

(** The sources that are not composite, in order. *)
Fixpoint leaves (s : RequirementSource) : list RequirementSource :=
  match s with Composite l => concat (map leaves l) | s => [s] end.

Lemma append_flat s acc :
  flat acc →
  flat (append_to_composite s acc) ∧ ∀ x, x ∈ append_to_composite s acc ↔ x ∈ acc ∨ x ∈ leaves s.
Proof.
  revert acc. induction s as [s Hs|l IH] using source_ind; intros acc Hf.
  - replace (append_to_composite s acc) with (if decide (s ∈ acc) then acc else acc ++ [s]) by by destruct s.
    replace (leaves s) with [s] by by destruct s. setoid_rewrite list_elem_of_singleton.
    case_decide as Hin; [split; [done|naive_solver]|]. destruct Hf as [Hn Hl]. split.
    + split; [apply NoDup_app; split; [done|]; split; [|apply NoDup_singleton]|by apply Forall_app; auto].
      by intros x Hx ->%list_elem_of_singleton.
    + intros x. by rewrite elem_of_app, list_elem_of_singleton.
  - cbn. revert acc Hf. induction IH as [|s l Hs _ IHl]; intros acc Hf; cbn.
    { split; [done|]. intros x. rewrite elem_of_nil. tauto. }
    destruct (Hs acc Hf) as [Hf' Hx']. destruct (IHl _ Hf') as [Hf'' Hx'']. split; [done|].
    intros x. rewrite Hx'', Hx', elem_of_app. tauto.
Qed.

(** A composite source names every source once: it is one source, or a flat list of at least
    two that are those of the arguments. *)
Theorem composite_flat sources :
  let all := concat (map leaves sources) in
  match composite sources with
  | Composite l => flat l ∧ 2 ≤ length l ∧ ∀ x, x ∈ l ↔ x ∈ all
  | s => all = [] ∧ s = Unknown ∨ ∀ x, x ∈ all ↔ x = s
  end.
Proof.
  cbn. destruct (append_flat (Composite sources) []) as [Hf Hx]; [split; constructor|]. cbn in Hf, Hx.
  setoid_rewrite elem_of_nil in Hx. unfold composite. set (l := foldl _ [] sources) in *. clearbody l.
  destruct l as [|s [|s' l]].
  - left. split; [|done]. destruct (concat (map leaves sources)) as [|y ?]; [done|].
    exfalso. eapply not_elem_of_nil, (Hx y). right. by left.
  - assert (∀ x, x ∈ concat (map leaves sources) ↔ x = s) as H.
    { intros x. rewrite <-list_elem_of_singleton, Hx. tauto. }
    destruct Hf as [_ [Hc _]%Forall_cons]. destruct s; try done; by right.
  - split; [done|]. split; [cbn; lia|]. intros x. rewrite Hx. tauto.
Qed.

Inductive ConstraintError :=
| InvalidValue (field_name candidate allowed : rstring) (requirement_source : RequirementSource)
| AutoReviewRequired (model : rstring)
| EmptyField (field_name : rstring)
| ExecPolicyParse (requirement_source : RequirementSource) (reason : rstring)
| McpServerRequirementParse (server_name : rstring) (requirement_source : RequirementSource) (reason : rstring).

(** ** Constrained values *)

Section constrained.
Context {T : Type} `{!EqDecision T} (debug : T → rstring).

Record Constrained := {
  value : T;
  validator : T → res ConstraintError ();
  normalizer : option (T → T) }.

Definition new (initial_value : T) (v : T → res ConstraintError ()) : res ConstraintError Constrained :=
  let? _ := v initial_value in
  Ok {| value := initial_value; validator := v; normalizer := None |}.

Definition normalized (initial_value : T) (n : T → T) : res ConstraintError Constrained :=
  let v := λ _, Ok () in
  let x := n initial_value in
  let? _ := v x in
  Ok {| value := x; validator := v; normalizer := Some n |}.

Definition allow_any (initial_value : T) : Constrained :=
  {| value := initial_value; validator := λ _, Ok (); normalizer := None |}.

Definition allow_only (only_value : T) : Constrained :=
  {| value := only_value;
     validator := λ candidate,
       if decide (candidate = only_value) then Ok ()
       else Err (InvalidValue (str "<unknown>") (debug candidate) (str "[" ++ debug only_value ++ str "]") Unknown);
     normalizer := None |}.

Definition can_set (self : Constrained) (candidate : T) : res ConstraintError () := validator self candidate.

(** The operations that change a constrained value return it as they leave it. *)
Definition add_validator (self : Constrained) (v : T → res ConstraintError ())
    : Constrained * res ConstraintError () :=
  let combined := λ candidate, let? _ := validator self candidate in v candidate in
  match combined (value self) with
  | Ok _ => ({| value := value self; validator := combined; normalizer := normalizer self |}, Ok ())
  | Err e => (self, Err e)
  | Panic => (self, Panic)
  end.

Definition set (self : Constrained) (x : T) : Constrained * res ConstraintError () :=
  let x := match normalizer self with Some n => n x | None => x end in
  match validator self x with
  | Ok _ => ({| value := x; validator := validator self; normalizer := normalizer self |}, Ok ())
  | Err e => (self, Err e)
  | Panic => (self, Panic)
  end.

(** ** Sequences of operations *)

Inductive constrained_op :=
| OpSet (x : T)
| OpAddValidator (v : T → res ConstraintError ()).

Definition apply_op (op : constrained_op) (self : Constrained) : Constrained * res ConstraintError () :=
  match op with OpSet x => set self x | OpAddValidator v => add_validator self v end.

Definition run_ops (ops : list constrained_op) (self : Constrained) : Constrained :=
  foldl (λ c op, (apply_op op c).1) self ops.

(** The validators that were added, without those that the value of that time failed. *)
Fixpoint installed (ops : list constrained_op) (self : Constrained) : list (T → res ConstraintError ()) :=
  match ops with
  | [] => []
  | op :: ops' =>
      let '(c, r) := apply_op op self in
      match op, r with
      | OpAddValidator v, Ok _ => v :: installed ops' c
      | _, _ => installed ops' c
      end
  end.

(** What the constructors return. *)
Inductive made : Constrained → Prop :=
| made_new x v c : new x v = Ok c → made c
| made_normalized x n c : normalized x n = Ok c → made c
| made_any x : made (allow_any x)
| made_only x : made (allow_only x).

Definition accepts (v : T → res ConstraintError ()) (x : T) : Prop := v x = Ok ().

Definition well_typed (c : Constrained) : Prop := accepts (validator c) (value c).

Lemma made_well_typed c : made c → well_typed c.
Proof.
  intros [x v c' ([] & Hv & [= <-])%res_bind_Ok|x n c' [= <-]|x|x]; unfold well_typed, accepts; cbn; try done.
  by rewrite decide_True.
Qed.

Lemma apply_op_well_typed op c : well_typed c → well_typed (apply_op op c).1.
Proof.
  unfold well_typed, accepts. intros Hc. destruct op as [x|v]; cbn.
  - unfold set. by destruct (validator c (match normalizer c with Some n => n x | None => x end)) as [[]| |] eqn:E.
  - unfold add_validator. by destruct (let? _ := validator c (value c) in v (value c)) as [[]| |] eqn:E.
Qed.

Lemma apply_op_accepts op c x :
  accepts (validator (apply_op op c).1) x ↔
  accepts (validator c) x ∧
  match (apply_op op c).2, op with Ok _, OpAddValidator v => accepts v x | _, _ => True end.
Proof.
  destruct op as [y|v]; cbn.
  - unfold set. destruct (validator c _) as [[]| |]; cbn; tauto.
  - unfold add_validator. destruct (let? _ := validator c (value c) in v (value c)) as [[]| |]; cbn; try tauto.
    unfold accepts. rewrite res_bind_Ok. split; [by intros ([] & ? & ?)|]. intros [? ?]. by exists ().
Qed.

Lemma run_accepts ops c x :
  accepts (validator (run_ops ops c)) x ↔ accepts (validator c) x ∧ Forall (λ v, accepts v x) (installed ops c).
Proof.
  revert c. induction ops as [|op ops IH]; intros c; [cbn; split; [by split|by intros [? _]]|].
  change (run_ops (op :: ops) c) with (run_ops ops (apply_op op c).1). cbn [installed].
  rewrite IH, apply_op_accepts. destruct (apply_op op c) as [c' r]. cbn.
  destruct op as [y|v], r as [u|e|]; rewrite ?Forall_cons; tauto.
Qed.

(** C29: a constrained value keeps its type.  Whatever values are set and whatever
    validators are added to one that a constructor made, its value passes its validator,
    which accepts exactly what the first validator and every added one accept: no
    operation loosens the constraint. *)
Theorem constrained_keeps_type ops c :
  made c →
  let c' := run_ops ops c in
  accepts (validator c') (value c') ∧
  ∀ x, can_set c' x = Ok () ↔ can_set c x = Ok () ∧ Forall (λ v, accepts v x) (installed ops c).
Proof.
  intros Hm. split; [|intros x; apply run_accepts].
  apply made_well_typed in Hm. revert c Hm. induction ops as [|op ops IH]; intros c Hc; [done|].
  cbn. by apply IH, apply_op_well_typed.
Qed.

End constrained.

(** A number that may be set between 0 and 9, and later only to even numbers. *)
Definition below_ten (n : nat) : res ConstraintError () :=
  if decide (n < 10) then Ok () else Err (EmptyField (str "n")).
Definition is_even (n : nat) : res ConstraintError () :=
  if Nat.even n then Ok () else Err (EmptyField (str "n")).

Lemma constrained_keeps_type_witness :
  let c' := run_ops [OpSet 4; OpSet 12; OpAddValidator is_even; OpSet 5; OpSet 8]
              {| value := 3; validator := below_ten; normalizer := None |} in
  value c' = 8 ∧ accepts (validator c') (value c') ∧
  ∀ x, can_set c' x = Ok () ↔ can_set {| value := 3; validator := below_ten; normalizer := None |} x = Ok () ∧
    Forall (λ v, accepts v x) [is_even].
Proof.
  split; [by vm_compute|].
  apply (constrained_keeps_type (λ _, []) [OpSet 4; OpSet 12; OpAddValidator is_even; OpSet 5; OpSet 8]).
  by apply (made_new _ 3 below_ten).
Defined.
