(* ===== verification/IpAddr.v ===== *)
(** * IP addresses ([network-proxy/src/policy.rs])

    The addresses of the standard library, the parser behind [host.parse::<IpAddr>()], and
    the classification of addresses that are not public ([is_non_public_ip]).  An IPv4
    address is its number below 2^32, an IPv6 address the list of its eight segments. *)

From S2P Require Import Prelude RustStr.

Local Open Scope N_scope.

Inductive IpAddr :=
| V4 (ip : N)
| V6 (segments : list N).

#[export] Instance IpAddr_eq_dec : EqDecision IpAddr.
Proof. solve_decision. Defined.

(** ** Parsing *)

Definition DOT : char := 46.
Definition COLON : char := 58.

(** [char::to_digit]. *)
Definition to_digit (radix : N) (c : char) : option N :=
  let digit :=
    if (48 <=? c) && (c <=? 57) then Some (c - 48)
    else if (97 <=? c) && (c <=? 122) then Some (c - 87)
    else if (65 <=? c) && (c <=? 90) then Some (c - 55)
    else None in
  match digit with Some d => if d <? radix then Some d else None | None => None end.

(** The digits of a number up to [bound], at most [max_digits] of them. *)
Fixpoint read_digits (radix bound : N) (max_digits : nat) (result : N) (count : nat) (s : rstring)
    : option (N * nat * rstring) :=
  match s with
  | [] => Some (result, count, [])
  | c :: s' =>
      match to_digit radix c with
      | None => Some (result, count, s)
      | Some d =>
          if bound <? result * radix then None
          else if bound <? result * radix + d then None
          else if (max_digits <? S count)%nat then None
          else read_digits radix bound max_digits (result * radix + d) (S count) s'
      end
  end.

Definition read_number (radix bound : N) (max_digits : nat) (allow_zero_prefix : bool) (s : rstring)
    : option (N * rstring) :=
  '(result, count, rest) ← read_digits radix bound max_digits 0 0 s;
  if decide (count = 0%nat) then None
  else if negb allow_zero_prefix && bool_decide (head s = Some 48) && (1 <? count)%nat then None
  else Some (result, rest).

Definition read_char (c : char) (s : rstring) : option rstring :=
  match s with d :: s' => if d =? c then Some s' else None | [] => None end.

(** [read_separator]: the separator comes before every part but the first. *)
Definition read_separator (sep : char) (index : nat) (s : rstring) : option rstring :=
  match index with O => Some s | S _ => read_char sep s end.

(** The octets from [index] on; [n] are left. *)
Fixpoint read_octets (n index : nat) (acc : N) (s : rstring) : option (N * rstring) :=
  match n with
  | O => Some (acc, s)
  | S n' =>
      s ← read_separator DOT index s;
      '(octet, s) ← read_number 10 255 3 false s;
      read_octets n' (S index) (acc * 256 + octet) s
  end.

Definition read_ipv4_addr (s : rstring) : option (N * rstring) := read_octets 4 0 0 s.

(** [read_groups]: [n] groups are left; the flag tells whether an IPv4 address ended them. *)
Fixpoint read_groups (n index : nat) (s : rstring) : list N * bool * rstring :=
  match n with
  | O => ([], false, s)
  | S n' =>
      let v4 := if decide (n' = 0%nat) then None
                else s ← read_separator COLON index s; read_ipv4_addr s in
      match v4 with
      | Some (ip, rest) => ([N.shiftr ip 16; N.land ip 65535], true, rest)
      | None =>
          match s ← read_separator COLON index s; read_number 16 65535 4 true s with
          | Some (group, rest) =>
              let '(groups, ipv4, rest) := read_groups n' (S index) rest in (group :: groups, ipv4, rest)
          | None => ([], false, s)
          end
      end
  end.

Definition read_ipv6_addr (s : rstring) : option (list N * rstring) :=
  let '(groups, head_ipv4, rest) := read_groups 8 0 s in
  if decide (length groups = 8%nat) then Some (groups, rest)
  else if head_ipv4 then None
  else
    rest ← read_char COLON rest;
    rest ← read_char COLON rest;
    let '(tail, _, rest) := read_groups (8 - (length groups + 1)) 0 rest in
    Some (groups ++ replicate (8 - length groups - length tail) 0 ++ tail, rest).

(** [host.parse::<IpAddr>().ok()]. *)
Definition parse_ip (s : rstring) : option IpAddr :=
  match read_ipv4_addr s with
  | Some (ip, rest) => if decide (rest = []) then Some (V4 ip) else None
  | None =>
      '(segments, rest) ← read_ipv6_addr s;
      if decide (rest = []) then Some (V6 segments) else None
  end.

(** ** Classification *)

Definition octet0 (ip : N) : N := N.shiftr ip 24.
Definition octet1 (ip : N) : N := N.land (N.shiftr ip 16) 255.
Definition ipv4 (a b c d : N) : N := ((a * 256 + b) * 256 + c) * 256 + d.

Definition v4_is_loopback (ip : N) : bool := octet0 ip =? 127.
Definition v4_is_private (ip : N) : bool :=
  (octet0 ip =? 10) ||
  ((octet0 ip =? 172) && (16 <=? octet1 ip) && (octet1 ip <=? 31)) ||
  ((octet0 ip =? 192) && (octet1 ip =? 168)).
Definition v4_is_link_local (ip : N) : bool := (octet0 ip =? 169) && (octet1 ip =? 254).
Definition v4_is_unspecified (ip : N) : bool := ip =? 0.
Definition v4_is_multicast (ip : N) : bool := (224 <=? octet0 ip) && (octet0 ip <=? 239).
Definition v4_is_broadcast (ip : N) : bool := ip =? 4294967295.

Definition U32_MAX : N := 4294967295.

(** The shift drops what leaves the 32 bits. *)
Definition ipv4_in_cidr (ip base prefix : N) : bool :=
  let mask := if prefix =? 0 then 0 else N.land (N.shiftl U32_MAX (32 - prefix)) U32_MAX in
  N.land ip mask =? N.land base mask.

Definition is_non_public_ipv4 (ip : N) : bool :=
  v4_is_loopback ip || v4_is_private ip || v4_is_link_local ip || v4_is_unspecified ip ||
  v4_is_multicast ip || v4_is_broadcast ip ||
  ipv4_in_cidr ip (ipv4 0 0 0 0) 8 || ipv4_in_cidr ip (ipv4 100 64 0 0) 10 ||
  ipv4_in_cidr ip (ipv4 192 0 0 0) 24 || ipv4_in_cidr ip (ipv4 192 0 2 0) 24 ||
  ipv4_in_cidr ip (ipv4 198 18 0 0) 15 || ipv4_in_cidr ip (ipv4 198 51 100 0) 24 ||
  ipv4_in_cidr ip (ipv4 203 0 113 0) 24 || ipv4_in_cidr ip (ipv4 240 0 0 0) 4.

(** [Ipv6Addr::to_ipv4], of mapped and of compatible addresses. *)
Definition to_ipv4 (segments : list N) : option N :=
  match segments with
  | [0; 0; 0; 0; 0; x; ab; cd] => if (x =? 0) || (x =? 65535) then Some (ab * 65536 + cd) else None
  | _ => None
  end.

Definition v6_is_loopback (segments : list N) : bool := bool_decide (segments = [0; 0; 0; 0; 0; 0; 0; 1]).
Definition v6_is_unspecified (segments : list N) : bool := bool_decide (segments = [0; 0; 0; 0; 0; 0; 0; 0]).
Definition segment0 (segments : list N) : N := default 0 (head segments).
Definition v6_is_multicast (segments : list N) : bool := N.shiftr (segment0 segments) 8 =? 255.
Definition v6_is_unique_local (segments : list N) : bool := N.land (segment0 segments) 0xfe00 =? 0xfc00.
Definition v6_is_unicast_link_local (segments : list N) : bool :=
  N.land (segment0 segments) 0xffc0 =? 0xfe80.

Definition is_non_public_ipv6 (segments : list N) : bool :=
  match to_ipv4 segments with
  | Some v4 => is_non_public_ipv4 v4 || v6_is_loopback segments
  | None =>
      v6_is_loopback segments || v6_is_unspecified segments || v6_is_multicast segments ||
      v6_is_unique_local segments || v6_is_unicast_link_local segments
  end.

Definition is_non_public_ip (ip : IpAddr) : bool :=
  match ip with V4 ip => is_non_public_ipv4 ip | V6 segments => is_non_public_ipv6 segments end.

Definition ip_is_loopback (ip : IpAddr) : bool :=
  match ip with V4 ip => v4_is_loopback ip | V6 segments => v6_is_loopback segments end.

(** ** Ranges *)

Definition in_range (ip : N) (r : N * N) : Prop := r.1 <= ip <= r.2.

(** The blocks of addresses that are not public. *)
Definition non_public_ranges : list (N * N) :=
  [ (ipv4 0 0 0 0, ipv4 0 255 255 255); (ipv4 10 0 0 0, ipv4 10 255 255 255);
    (ipv4 100 64 0 0, ipv4 100 127 255 255); (ipv4 127 0 0 0, ipv4 127 255 255 255);
    (ipv4 169 254 0 0, ipv4 169 254 255 255); (ipv4 172 16 0 0, ipv4 172 31 255 255);
    (ipv4 192 0 0 0, ipv4 192 0 0 255); (ipv4 192 0 2 0, ipv4 192 0 2 255);
    (ipv4 192 168 0 0, ipv4 192 168 255 255); (ipv4 198 18 0 0, ipv4 198 19 255 255);
    (ipv4 198 51 100 0, ipv4 198 51 100 255); (ipv4 203 0 113 0, ipv4 203 0 113 255);
    (ipv4 224 0 0 0, ipv4 255 255 255 255) ].

Lemma land_mask a k n : N.land a (N.shiftl (N.ones k) n) = N.shiftl (N.land (N.shiftr a n) (N.ones k)) n.
Proof.
  apply N.bits_inj. intros i. rewrite N.land_spec. destruct (N.lt_ge_cases i n) as [Hi|Hi].
  - by rewrite !N.shiftl_spec_low, andb_false_r.
  - rewrite !N.shiftl_spec_high' by done. rewrite N.land_spec, N.shiftr_spec by lia.
    by replace (i - n + n) with i by lia.
Qed.

Lemma cidr_mask prefix : 0 < prefix <= 32 →
  N.land (N.shiftl U32_MAX (32 - prefix)) U32_MAX = N.shiftl (N.ones prefix) (32 - prefix).
Proof.
  intros [H1 H2]. assert (prefix < 33) as Hlt by lia. revert H1. clear H2.
  revert prefix Hlt.
  assert (∀ k, (k < 33)%nat → 0 < N.of_nat k →
    N.land (N.shiftl U32_MAX (32 - N.of_nat k)) U32_MAX = N.shiftl (N.ones (N.of_nat k)) (32 - N.of_nat k)) as H.
  { intros k Hk. do 33 (destruct k as [|k]; [try done; vm_compute; done|]). lia. }
  intros prefix Hlt Hpos. specialize (H (N.to_nat prefix)). rewrite N2Nat.id in H. apply H; lia.
Qed.

(** A block of addresses is the addresses with its prefix. *)
Lemma ipv4_in_cidr_div ip base prefix :
  ip < 2 ^ 32 → base < 2 ^ 32 → 0 < prefix <= 32 →
  ipv4_in_cidr ip base prefix = (ip / 2 ^ (32 - prefix) =? base / 2 ^ (32 - prefix)).
Proof.
  intros Hip Hbase Hp. unfold ipv4_in_cidr.
  destruct (N.eqb_spec prefix 0); [lia|]. rewrite cidr_mask by done. rewrite !land_mask.
  assert (∀ a, a < 2 ^ 32 → N.land (N.shiftr a (32 - prefix)) (N.ones prefix) = a / 2 ^ (32 - prefix)) as Hs.
  { intros a Ha. rewrite N.land_ones, N.shiftr_div_pow2. apply N.mod_small.
    apply N.Div0.div_lt_upper_bound. rewrite <-N.pow_add_r. by replace (32 - prefix + prefix) with 32 by lia. }
  rewrite !Hs by done. rewrite !N.shiftl_mul_pow2.
  destruct (N.eqb_spec (ip / 2 ^ (32 - prefix)) (base / 2 ^ (32 - prefix))) as [->|Hne].
  - apply N.eqb_refl.
  - apply N.eqb_neq. intros Heq. apply Hne. apply N.mul_cancel_r in Heq; [done|]. apply N.pow_nonzero. lia.
Qed.

Lemma div_range ip d q : 0 < d → (ip / d =? q) = true ↔ q * d <= ip <= q * d + (d - 1).
Proof.
  intros Hd. rewrite N.eqb_eq. pose proof (N.div_mod ip d ltac:(lia)) as Hdm.
  pose proof (N.mod_lt ip d ltac:(lia)) as Hlt. rewrite (N.mul_comm d) in Hdm. split.
  { intros <-. generalize dependent (ip / d). generalize dependent (ip mod d). intros r Hr k Hk.
    generalize dependent (k * d). lia. }
  intros [H1 H2]. symmetry. apply (N.div_unique ip d q (ip - q * d)); rewrite ?(N.mul_comm d); lia.
Qed.

Lemma cidr_range ip base prefix lo hi :
  ip < 2 ^ 32 → base < 2 ^ 32 → 0 < prefix <= 32 →
  lo = base / 2 ^ (32 - prefix) * 2 ^ (32 - prefix) → hi = lo + (2 ^ (32 - prefix) - 1) →
  ipv4_in_cidr ip base prefix = true ↔ in_range ip (lo, hi).
Proof.
  intros Hip Hbase Hp -> ->. rewrite ipv4_in_cidr_div by done. rewrite div_range; [done|].
  apply N.neq_0_lt_0, N.pow_nonzero. lia.
Qed.

(** The two upper octets are the upper half of the address. *)
Lemma octets_half ip : octet0 ip = ip / 65536 / 256 ∧ octet1 ip = (ip / 65536) mod 256.
Proof.
  unfold octet0, octet1. rewrite !N.shiftr_div_pow2, N.Div0.div_div. split; [done|].
  change 255 with (N.ones 8). by rewrite N.land_ones.
Qed.

Lemma half_range ip lo hi :
  lo * 65536 <= ip <= hi * 65536 + 65535 ↔ lo <= ip / 65536 <= hi.
Proof.
  pose proof (N.div_mod ip 65536 ltac:(lia)). pose proof (N.mod_lt ip 65536 ltac:(lia)).
  generalize dependent (ip / 65536). generalize dependent (ip mod 65536). intros. lia.
Qed.

(** The checks of the standard library, as ranges. *)
Lemma std_ranges ip : ip < 2 ^ 32 →
  (v4_is_loopback ip = true ↔ in_range ip (ipv4 127 0 0 0, ipv4 127 255 255 255)) ∧
  (v4_is_private ip = true ↔
     in_range ip (ipv4 10 0 0 0, ipv4 10 255 255 255) ∨ in_range ip (ipv4 172 16 0 0, ipv4 172 31 255 255) ∨
     in_range ip (ipv4 192 168 0 0, ipv4 192 168 255 255)) ∧
  (v4_is_link_local ip = true ↔ in_range ip (ipv4 169 254 0 0, ipv4 169 254 255 255)) ∧
  (v4_is_multicast ip = true ↔ in_range ip (ipv4 224 0 0 0, ipv4 239 255 255 255)).
Proof.
  intros Hip. unfold v4_is_loopback, v4_is_private, v4_is_link_local, v4_is_multicast, in_range. cbn [fst snd].
  destruct (octets_half ip) as [-> ->]. set (h := ip / 65536).
  assert (∀ lo hi, lo * 65536 <= ip <= hi * 65536 + 65535 ↔ lo <= h <= hi) as Hh by apply half_range.
  assert (h < 65536) as Hb by (apply N.Div0.div_lt_upper_bound; lia).
  pose proof (N.div_mod h 256 ltac:(lia)) as Hd. pose proof (N.mod_lt h 256 ltac:(lia)) as Hm.
  generalize dependent (h / 256). generalize dependent (h mod 256). intros r Hr q Hd.
  change (ipv4 127 0 0 0) with (32512 * 65536). change (ipv4 127 255 255 255) with (32767 * 65536 + 65535).
  change (ipv4 10 0 0 0) with (2560 * 65536). change (ipv4 10 255 255 255) with (2815 * 65536 + 65535).
  change (ipv4 172 16 0 0) with (44048 * 65536). change (ipv4 172 31 255 255) with (44063 * 65536 + 65535).
  change (ipv4 192 168 0 0) with (49320 * 65536). change (ipv4 192 168 255 255) with (49320 * 65536 + 65535).
  change (ipv4 169 254 0 0) with (43518 * 65536). change (ipv4 169 254 255 255) with (43518 * 65536 + 65535).
  change (ipv4 224 0 0 0) with (57344 * 65536). change (ipv4 239 255 255 255) with (61439 * 65536 + 65535).
  rewrite !Hh, !orb_true_iff, !andb_true_iff, !N.eqb_eq, !N.leb_le. lia.
Qed.

(** An IPv4 address counts as not public exactly when it lies in one of the reserved
    blocks: this network, private use, shared address space, loopback, link local, the
    protocol, test and benchmark blocks, multicast and everything above it. *)
Theorem non_public_ipv4_exact ip :
  ip < 2 ^ 32 → is_non_public_ipv4 ip = true ↔ Exists (in_range ip) non_public_ranges.
Proof.
  intros Hip. destruct (std_ranges ip Hip) as (Hl & Hp & Hk & Hm).
  assert (ip <= U32_MAX) by (unfold U32_MAX; lia).
  unfold is_non_public_ipv4, v4_is_unspecified, v4_is_broadcast. rewrite !orb_true_iff, Hl, Hp, Hk, Hm, !N.eqb_eq.
  rewrite (cidr_range ip (ipv4 0 0 0 0) 8 (ipv4 0 0 0 0) (ipv4 0 255 255 255)) by done.
  rewrite (cidr_range ip (ipv4 100 64 0 0) 10 (ipv4 100 64 0 0) (ipv4 100 127 255 255)) by done.
  rewrite (cidr_range ip (ipv4 192 0 0 0) 24 (ipv4 192 0 0 0) (ipv4 192 0 0 255)) by done.
  rewrite (cidr_range ip (ipv4 192 0 2 0) 24 (ipv4 192 0 2 0) (ipv4 192 0 2 255)) by done.
  rewrite (cidr_range ip (ipv4 198 18 0 0) 15 (ipv4 198 18 0 0) (ipv4 198 19 255 255)) by done.
  rewrite (cidr_range ip (ipv4 198 51 100 0) 24 (ipv4 198 51 100 0) (ipv4 198 51 100 255)) by done.
  rewrite (cidr_range ip (ipv4 203 0 113 0) 24 (ipv4 203 0 113 0) (ipv4 203 0 113 255)) by done.
  rewrite (cidr_range ip (ipv4 240 0 0 0) 4 (ipv4 240 0 0 0) (ipv4 255 255 255 255)) by done.
  unfold non_public_ranges. rewrite !Exists_cons, Exists_nil. unfold in_range, U32_MAX, ipv4 in *. cbn [fst snd]. lia.
Qed.

Lemma non_public_ipv4_exact_witness :
  is_non_public_ipv4 (ipv4 198 19 0 1) = true ↔ Exists (in_range (ipv4 198 19 0 1)) non_public_ranges.
Proof. apply non_public_ipv4_exact. reflexivity. Defined.

(** Some addresses as text. *)
Lemma parse_ip_examples :
  parse_ip <$> (str <$> ["127.0.0.1"; "1.2.3.256"; "01.2.3.4"; "::1"; "::ffff:10.0.0.1"; "1::2::3"; "fe80::1%eth0"]%string) =
  [Some (V4 (ipv4 127 0 0 1)); None; None; Some (V6 [0; 0; 0; 0; 0; 0; 0; 1]);
   Some (V6 [0; 0; 0; 0; 0; 65535; 2560; 1]); None; None].
Proof. vm_compute. reflexivity. Qed.
