(* ===== verification/NetworkPolicy.v ===== *)
(** * Hosts and domain patterns of the network proxy ([network-proxy/src/policy.rs])

    Normalised hosts, the patterns of allow and deny lists, the sets of globs they are
    compiled to, and the comparison of patterns against managed ones.  Globs and the host
    parser of URLs come from libraries: the class [GlobLib] with [GlobLaws] and
    [DomainGlobLaws], and the argument [url_host_parse]. *)

From S2P Require Import Prelude RustStr IpAddr.

Local Open Scope nat_scope.

Definition STAR : char := 42%N.
Definition QUESTION : char := 63%N.
Definition PERCENT : char := 37%N.
Definition LBRACKET : char := 91%N.
Definition RBRACKET : char := 93%N.

(** The characters with a meaning in a glob. *)
Definition glob_special : rstring := str "*?[]{}" ++ [92%N].

Definition is_dot (c : char) : bool := (c =? DOT)%N.

(** ** Hosts *)

(** [str::split_once] of a text. *)
Definition split_once_text (needle s : rstring) : option (rstring * rstring) :=
  '(before, found) ← find_split needle s; Some (before, drop (length needle) found).

Definition unscoped_ip_literal (host : rstring) : option rstring :=
  '(ip, _) ← split_once PERCENT host;
  _ ← parse_ip ip;
  Some ip.

(** The loop over the delimiters. *)
Fixpoint scoped_ip_literal (delimiters : list rstring) (host : rstring) : option rstring :=
  match delimiters with
  | [] => None
  | delimiter :: delimiters' =>
      match split_once_text delimiter host with
      | Some (ip, scope) =>
          if bool_decide (is_Some (parse_ip ip)) then Some (ip ++ [PERCENT] ++ scope)
          else scoped_ip_literal delimiters' host
      | None => scoped_ip_literal delimiters' host
      end
  end.

Definition normalize_ip_literal (host : rstring) : option rstring :=
  if bool_decide (is_Some (parse_ip host)) then Some host
  else scoped_ip_literal [str "%25"; str "%"] host.

Definition normalize_dns_host_or_ip_literal (host : rstring) : rstring :=
  let host := trim_end_matches is_dot (to_ascii_lowercase host) in
  default host (normalize_ip_literal host).

(** What is between the brackets of an IPv6 literal. *)
Definition bracketed (host : rstring) : option rstring :=
  match host with
  | c :: rest => if (c =? LBRACKET)%N then fst <$> split_once RBRACKET rest else None
  | [] => None
  end.

Definition normalize_host (host : rstring) : rstring :=
  let host := trim host in
  match bracketed host with
  | Some inner => normalize_dns_host_or_ip_literal inner
  | None =>
      if decide (length (filter (λ c, c = COLON) host) = 1)
      then normalize_dns_host_or_ip_literal (default [] (head (split_char COLON host)))
      else normalize_dns_host_or_ip_literal host
  end.

(** [Host::parse]; a host is its normalised text. *)
Definition host_parse (input : rstring) : option rstring :=
  let normalized := normalize_host input in
  if decide (normalized = []) then None else Some normalized.

Definition is_loopback_host (host : rstring) : bool :=
  let host := default host (unscoped_ip_literal host) in
  if decide (host = str "localhost") then true
  else match parse_ip host with Some ip => ip_is_loopback ip | None => false end.

(** ** Patterns *)

Definition normalize_pattern (pattern : rstring) : rstring :=
  let pattern := trim pattern in
  if decide (pattern = str "*") then str "*"
  else match strip_prefix (str "**.") pattern with
       | Some domain => str "**." ++ normalize_host domain
       | None =>
           match strip_prefix (str "*.") pattern with
           | Some domain => str "*." ++ normalize_host domain
           | None => normalize_host pattern
           end
       end.

Inductive DomainPattern :=
| ApexAndSubdomains (domain : rstring)
| SubdomainsOnly (domain : rstring)
| Exact (domain : rstring).

Definition parse_domain (domain : rstring) (build : rstring → DomainPattern) : DomainPattern :=
  let domain := trim domain in
  if decide (domain = []) then Exact [] else build domain.

Definition domain_pattern_parse (input : rstring) : DomainPattern :=
  let input := trim input in
  if decide (input = []) then Exact []
  else match strip_prefix (str "**.") input with
       | Some domain => parse_domain domain ApexAndSubdomains
       | None =>
           match strip_prefix (str "*.") input with
           | Some domain => parse_domain domain SubdomainsOnly
           | None => Exact input
           end
       end.

Definition expand_domain_pattern (pattern : rstring) : list rstring :=
  match domain_pattern_parse pattern with
  | Exact domain => [domain]
  | SubdomainsOnly domain => [str "?*." ++ domain]
  | ApexAndSubdomains domain => [domain; str "?*." ++ domain]
  end.

Definition is_global_wildcard_domain_pattern (pattern : rstring) : bool :=
  bool_decide (str "*" ∈ expand_domain_pattern (normalize_pattern pattern)).

Definition normalize_domain (domain : rstring) : rstring :=
  to_ascii_lowercase (trim_end_matches is_dot domain).
Definition domain_eq (left right : rstring) : bool :=
  bool_decide (normalize_domain left = normalize_domain right).
Definition is_subdomain_or_equal (child parent : rstring) : bool :=
  let child := normalize_domain child in
  let parent := normalize_domain parent in
  if decide (child = parent) then true else ends_with child ([DOT] ++ parent).
Definition is_strict_subdomain (child parent : rstring) : bool :=
  let child := normalize_domain child in
  let parent := normalize_domain parent in
  bool_decide (child ≠ parent) && ends_with child ([DOT] ++ parent).

Definition allows (self candidate : DomainPattern) : bool :=
  match self, candidate with
  | Exact domain, Exact candidate => domain_eq candidate domain
  | Exact _, _ => false
  | SubdomainsOnly domain, Exact candidate => is_strict_subdomain candidate domain
  | SubdomainsOnly domain, SubdomainsOnly candidate => is_subdomain_or_equal candidate domain
  | SubdomainsOnly domain, ApexAndSubdomains candidate => is_strict_subdomain candidate domain
  | ApexAndSubdomains domain,
    (Exact candidate | SubdomainsOnly candidate | ApexAndSubdomains candidate) =>
      is_subdomain_or_equal candidate domain
  end.

Section constraints.
(** [UrlHost::parse(host)], as text. *)
Context (url_host_parse : rstring → option rstring).

Definition parse_domain_for_constraints (domain : rstring) : rstring :=
  let domain := trim_end_matches is_dot (trim domain) in
  if decide (domain = []) then []
  else
    let host :=
      match domain with
      | c :: rest => if ((c =? LBRACKET)%N && bool_decide (last domain = Some RBRACKET))
                     then take (length rest - 1) rest else domain
      | [] => domain
      end in
    if contains_char host STAR || contains_char host QUESTION || contains_char host PERCENT
    then domain
    else default [] (url_host_parse host).

Definition parse_for_constraints (input : rstring) : DomainPattern :=
  let input := trim input in
  if decide (input = []) then Exact []
  else match strip_prefix (str "**.") input with
       | Some domain => ApexAndSubdomains (parse_domain_for_constraints domain)
       | None =>
           match strip_prefix (str "*.") input with
           | Some domain => SubdomainsOnly (parse_domain_for_constraints domain)
           | None => Exact (parse_domain_for_constraints input)
           end
       end.
End constraints.

(** ** Globs *)

(** The library: a glob is built without regard to case, and a set of them matches. *)
Class GlobLib (Glob GlobSet : Type) := {
  build_glob : rstring → option Glob;
  build_set : list Glob → option GlobSet;
  set_is_match : GlobSet → rstring → bool;
  glob_is_match : Glob → rstring → bool }.



Inductive GlobError :=
| UnsupportedGlobalWildcard
| InvalidGlobPattern (candidate : rstring)
| InvalidGlobSet.

Section globs.
Context {Glob GlobSet : Type} `{!GlobLib Glob GlobSet}.

(** The inner loop: the globs and the candidates that were added. *)
Fixpoint add_candidates (candidates : list rstring) (seen : gset rstring) (globs : list Glob)
    : res GlobError (gset rstring * list Glob) :=
  match candidates with
  | [] => Ok (seen, globs)
  | candidate :: candidates' =>
      if decide (candidate ∈ seen) then add_candidates candidates' seen globs
      else
        let? glob := ok_or (InvalidGlobPattern candidate) (build_glob candidate) in
        add_candidates candidates' ({[ candidate ]} ∪ seen) (globs ++ [glob])
  end.

Fixpoint add_patterns (global_wildcard : bool) (patterns : list rstring) (seen : gset rstring)
    (globs : list Glob) : res GlobError (list Glob) :=
  match patterns with
  | [] => Ok globs
  | pattern :: patterns' =>
      if negb global_wildcard && is_global_wildcard_domain_pattern pattern
      then Err UnsupportedGlobalWildcard
      else
        let? st := add_candidates (expand_domain_pattern (normalize_pattern pattern)) seen globs in
        add_patterns global_wildcard patterns' st.1 st.2
  end.

(** [compile_globset_with_policy]; the flag allows the global wildcard. *)
Definition compile_globset_with_policy (patterns : list rstring) (global_wildcard : bool)
    : res GlobError GlobSet :=
  let? globs := add_patterns global_wildcard patterns ∅ [] in
  ok_or InvalidGlobSet (build_set globs).

Definition compile_allowlist_globset (patterns : list rstring) : res GlobError GlobSet :=
  compile_globset_with_policy patterns true.
Definition compile_denylist_globset (patterns : list rstring) : res GlobError GlobSet :=
  compile_globset_with_policy patterns false.

Definition globset_matches_host_or_unscoped (set : GlobSet) (host : rstring) : bool :=
  set_is_match set host ||
  match unscoped_ip_literal host with Some ip => set_is_match set ip | None => false end.
End globs.

(** ** Case *)

(** A character that no other character becomes in lower case. *)
Definition caseless (k : char) : Prop := ∀ c, (char_to_ascii_lowercase c =? k)%N = (c =? k)%N.

Lemma caseless_char k : (k < 65 ∨ 90 < k < 97 ∨ 122 < k)%N → caseless k.
Proof.
  intros Hk c. unfold char_to_ascii_lowercase. destruct ((65 <=? c) && (c <=? 90))%N eqn:E; [|done].
  apply andb_true_iff in E as [E1%N.leb_le E2%N.leb_le].
  rewrite (proj2 (N.eqb_neq (c + 32) k)), (proj2 (N.eqb_neq c k)) by lia. done.
Qed.

Lemma whitespace_lowercase c : is_whitespace (char_to_ascii_lowercase c) = is_whitespace c.
Proof.
  unfold char_to_ascii_lowercase. destruct ((65 <=? c) && (c <=? 90))%N eqn:E; [|done].
  apply andb_true_iff in E as [E1%N.leb_le E2%N.leb_le]. unfold is_whitespace.
  repeat match goal with |- context [(?a <=? ?b)%N] => destruct (N.leb_spec a b); try lia end;
    repeat match goal with |- context [(?a =? ?b)%N] => destruct (N.eqb_spec a b); try lia end; done.
Qed.

Lemma trim_start_matches_lowercase p s :
  (∀ c, p (char_to_ascii_lowercase c) = p c) →
  trim_start_matches p (to_ascii_lowercase s) = to_ascii_lowercase (trim_start_matches p s).
Proof. intros Hp. induction s as [|c s IH]; cbn; [done|]. rewrite Hp. by destruct (p c). Qed.

Lemma to_ascii_lowercase_reverse s : to_ascii_lowercase (reverse s) = reverse (to_ascii_lowercase s).
Proof. apply fmap_reverse. Qed.

Lemma trim_lowercase s : trim (to_ascii_lowercase s) = to_ascii_lowercase (trim s).
Proof.
  unfold trim, trim_end, trim_start, trim_end_matches.
  by rewrite trim_start_matches_lowercase, <-to_ascii_lowercase_reverse, trim_start_matches_lowercase,
    to_ascii_lowercase_reverse by apply whitespace_lowercase.
Qed.

Lemma split_once_lowercase k s : caseless k →
  split_once k (to_ascii_lowercase s) =
  (λ '(a, b), (to_ascii_lowercase a, to_ascii_lowercase b)) <$> split_once k s.
Proof.
  intros Hk. induction s as [|c s IH]; cbn; [done|]. fold (to_ascii_lowercase s). rewrite Hk.
  destruct (c =? k)%N; [done|].
  rewrite IH. by destruct (split_once k s) as [[]|].
Qed.

Lemma strip_prefix_lowercase p s : Forall caseless p →
  strip_prefix p (to_ascii_lowercase s) = to_ascii_lowercase <$> strip_prefix p s.
Proof.
  intros Hp. revert s. induction Hp as [|k p Hk Hp IH]; intros [|c s]; cbn; try done.
  fold (to_ascii_lowercase s). unfold strip_prefix; fold strip_prefix.
  rewrite N.eqb_sym, Hk, N.eqb_sym. by destruct (k =? c)%N.
Qed.

Lemma split_char_lowercase k s : caseless k →
  split_char k (to_ascii_lowercase s) = to_ascii_lowercase <$> split_char k s.
Proof.
  intros Hk. induction s as [|c s IH]; cbn; [done|]. fold (to_ascii_lowercase s). rewrite Hk, IH.
  destruct (c =? k)%N; [done|].
  by destruct (split_char k s).
Qed.

Lemma bracketed_lowercase s : bracketed (to_ascii_lowercase s) = to_ascii_lowercase <$> bracketed s.
Proof.
  destruct s as [|c s]; [done|]. cbn. fold (to_ascii_lowercase s). rewrite (caseless_char LBRACKET) by (unfold LBRACKET; lia).
  destruct (c =? LBRACKET)%N; [|done]. rewrite split_once_lowercase by (apply caseless_char; unfold RBRACKET; lia).
  by destruct (split_once RBRACKET s) as [[]|].
Qed.

Lemma count_lowercase k s : caseless k →
  length (filter (λ c, c = k) (to_ascii_lowercase s)) = length (filter (λ c, c = k) s).
Proof.
  intros Hk. induction s as [|c s IH]; [done|]. cbn [to_ascii_lowercase map].
  rewrite !filter_cons. specialize (Hk c). destruct (N.eqb_spec (char_to_ascii_lowercase c) k), (N.eqb_spec c k); try done.
  - rewrite !decide_True by done. cbn. by rewrite <-IH.
  - rewrite !decide_False by done. apply IH.
Qed.

Lemma normalize_dns_lowercase s :
  normalize_dns_host_or_ip_literal (to_ascii_lowercase s) = normalize_dns_host_or_ip_literal s.
Proof. unfold normalize_dns_host_or_ip_literal. by rewrite to_ascii_lowercase_idem. Qed.

Lemma normalize_host_lowercase s : normalize_host (to_ascii_lowercase s) = normalize_host s.
Proof.
  assert (caseless COLON) as Hc by (apply caseless_char; unfold COLON; lia).
  unfold normalize_host. rewrite trim_lowercase, bracketed_lowercase, count_lowercase, split_char_lowercase by done.
  destruct (bracketed (trim s)); cbn; [apply normalize_dns_lowercase|].
  case_decide; [|apply normalize_dns_lowercase]. 
  destruct (split_char COLON (trim s)); [done|apply normalize_dns_lowercase].
Qed.

Lemma normalize_pattern_lowercase s : normalize_pattern (to_ascii_lowercase s) = normalize_pattern s.
Proof.
  assert (∀ p, Forall (λ k, (k < 65)%N) p → Forall caseless p) as Hp.
  { intros p H. eapply Forall_impl; [exact H|]. intros k Hk. apply caseless_char. cbn in Hk. lia. }
  unfold normalize_pattern. rewrite trim_lowercase, !strip_prefix_lowercase by (apply Hp, (bool_decide_eq_true_1 _); by vm_compute).
  assert (to_ascii_lowercase (trim s) = str "*" ↔ trim s = str "*") as Hs.
  { split; [|by intros ->]. destruct (trim s) as [|c [|]]; try done. cbn. intros [= H].
    pose proof (caseless_char STAR ltac:(unfold STAR; lia) c) as Hc. rewrite H in Hc. cbn in Hc.
    symmetry in Hc. apply N.eqb_eq in Hc. by subst. }
  destruct (decide (trim s = str "*")) as [H|H]; [by rewrite !decide_True by tauto|].
  rewrite !decide_False by tauto.
  destruct (strip_prefix (str "**.") (trim s)); cbn; [by rewrite normalize_host_lowercase|].
  destruct (strip_prefix (str "*.") (trim s)); cbn; by rewrite normalize_host_lowercase.
Qed.

(** ** Hosts as patterns *)

Lemma parse_ip_star s : parse_ip (STAR :: s) = None.
Proof. reflexivity. Qed.

Lemma split_once_text_star p s : head p ≠ Some STAR → p ≠ [] →
  ∀ a b, split_once_text p (STAR :: s) = Some (a, b) → head a = Some STAR.
Proof.
  intros Hp Hn a b. unfold split_once_text, find_split; fold find_split.
  destruct p as [|c p]; [done|]. replace (strip_prefix (c :: p) (STAR :: s)) with (@None rstring).
  - destruct (find_split (c :: p) s) as [[x y]|]; [|done]. by intros [= <- _].
  - unfold strip_prefix; fold strip_prefix. destruct (N.eqb_spec c STAR); [by subst|done].
Qed.

Lemma scoped_ip_literal_star ds s :
  Forall (λ d, head d ≠ Some STAR ∧ d ≠ []) ds → scoped_ip_literal ds (STAR :: s) = None.
Proof.
  induction 1 as [|d ds [Hd Hn] _ IH]; cbn [scoped_ip_literal]; [done|].
  destruct (split_once_text d (STAR :: s)) as [[a b]|] eqn:E; [|done].
  apply split_once_text_star in E; [|done..]. destruct a as [|c a]; [done|]. injection E as ->.
  by rewrite parse_ip_star, bool_decide_eq_false_2 by (by intros [? ?]).
Qed.

Lemma normalize_ip_literal_star s : normalize_ip_literal (STAR :: s) = None.
Proof.
  unfold normalize_ip_literal. rewrite parse_ip_star, bool_decide_eq_false_2 by (by intros [? ?]).
  apply scoped_ip_literal_star, (bool_decide_eq_true_1 _). by vm_compute.
Qed.

Lemma normalize_dns_star s : STAR ∈ normalize_dns_host_or_ip_literal (STAR :: s).
Proof.
  unfold normalize_dns_host_or_ip_literal. cbn [to_ascii_lowercase map].
  destruct (trim_end_matches_prefix is_dot (STAR :: to_ascii_lowercase s)) as (w & Hw & Hd).
  change (char_to_ascii_lowercase STAR) with STAR. fold (to_ascii_lowercase s).
  destruct (trim_end_matches is_dot (STAR :: to_ascii_lowercase s)) as [|d t].
  - cbn in Hw. subst w. by apply Forall_cons in Hd as [? _].
  - injection Hw as <- _. rewrite normalize_ip_literal_star. by left.
Qed.

Lemma normalize_host_star e s : trim e = STAR :: s → STAR ∈ normalize_host e.
Proof.
  intros He. unfold normalize_host. rewrite He. cbn [bracketed]. change (STAR =? LBRACKET)%N with false. cbn iota.
  case_decide; [|apply normalize_dns_star]. unfold split_char; fold split_char. change (STAR =? COLON)%N with false.
  cbn iota. destruct (split_char COLON s); apply normalize_dns_star.
Qed.

(** A host is a pattern of its own when it is normalised and no character of it is special
    in a glob. *)
Definition plain_host (h : rstring) : Prop :=
  h ≠ [] ∧ normalize_host h = h ∧ trim h = h ∧ Forall (λ c, c ∉ glob_special) h.

#[export] Instance plain_host_dec h : base.Decision (plain_host h).
Proof. unfold plain_host. apply _. Defined.

Lemma plain_host_star h : plain_host h → STAR ∉ h.
Proof.
  intros (_ & _ & _ & Hf) Hs. rewrite Forall_forall in Hf. apply (Hf _ Hs). by apply (bool_decide_eq_true_1 _).
Qed.

Lemma starred_pattern p t s : strip_prefix (STAR :: p) t = Some s → ∃ r, t = STAR :: r.
Proof. intros ->%strip_prefix_Some. by eexists. Qed.

Lemma expand_plain h : plain_host h → expand_domain_pattern h = [h].
Proof.
  intros Hp. pose proof (plain_host_star _ Hp) as Hs. destruct Hp as (Hn & _ & Ht & _).
  unfold expand_domain_pattern, domain_pattern_parse. rewrite Ht, decide_False by done.
  destruct (strip_prefix (str "**.") h) eqn:E1; [apply starred_pattern in E1 as [? ->]; by destruct Hs; left|].
  destruct (strip_prefix (str "*.") h) eqn:E2; [apply starred_pattern in E2 as [? ->]; by destruct Hs; left|done].
Qed.

Lemma trim_idem s : trim (trim s) = trim s.
Proof.
  apply trim_id; [|intros c; apply trim_end_matches_last]. intros c. unfold trim.
  destruct (trim_start s) as [|d t] eqn:E; [done|]. destruct (trim_end_cons d t) as [->|[r ->]]; [done|].
  intros [= ->]. by eapply trim_start_matches_head.
Qed.

(** An entry that normalises to a plain host stands for that host. *)
Lemma entry_of_plain_host e h :
  normalize_host e = h → plain_host h → expand_domain_pattern (normalize_pattern e) = [h].
Proof.
  intros He Hp. pose proof (plain_host_star _ Hp) as Hs.
  assert (∀ r, trim e ≠ STAR :: r) as Hns.
  { intros r Hr%normalize_host_star. by rewrite He in Hr. }
  unfold normalize_pattern. rewrite decide_False by (intros H; by apply (Hns [])).
  destruct (strip_prefix (str "**.") (trim e)) eqn:E1; [by apply starred_pattern in E1 as [? ?%Hns]|].
  destruct (strip_prefix (str "*.") (trim e)) eqn:E2; [by apply starred_pattern in E2 as [? ?%Hns]|].
  replace (normalize_host (trim e)) with h; [by apply expand_plain|]. rewrite <-He. unfold normalize_host.
  by rewrite trim_idem.
Qed.

(** ** Compiled sets *)

(** What the library documents: a set matches what one of its globs matches, and a glob
    without special characters matches its own text. *)
Class GlobLaws (Glob GlobSet : Type) `{!GlobLib Glob GlobSet} : Prop := {
  set_matches globs set h : build_set globs = Some set →
    set_is_match set h = true ↔ ∃ g, g ∈ globs ∧ glob_is_match g h = true;
  literal_matches p : Forall (λ c, c ∉ glob_special) p →
    ∀ g, build_glob p = Some g → glob_is_match g p = true }.

Section compiled.
Context {Glob GlobSet : Type} `{!GlobLib Glob GlobSet} `{!GlobLaws Glob GlobSet}.

(** A pattern of a list matches a host through one of the globs it stands for. *)
Definition pattern_matches (pattern h : rstring) : Prop :=
  ∃ candidate g, candidate ∈ expand_domain_pattern (normalize_pattern pattern) ∧
    build_glob candidate = Some g ∧ glob_is_match g h = true.

(** The globs built so far are those of the candidates seen. *)
Definition globs_of (seen : gset rstring) (globs : list Glob) : Prop :=
  (∀ g, g ∈ globs → ∃ x, x ∈ seen ∧ build_glob x = Some g) ∧
  (∀ x, x ∈ seen → ∃ g, g ∈ globs ∧ build_glob x = Some g).

Lemma add_candidates_globs l seen globs seen' globs' :
  globs_of seen globs → add_candidates l seen globs = Ok (seen', globs') →
  globs_of seen' globs' ∧ ∀ x, x ∈ seen' ↔ x ∈ seen ∨ x ∈ l.
Proof.
  revert seen globs. induction l as [|c l IH]; intros seen globs Hg; cbn.
  { intros [= <- <-]. split; [done|]. intros x. rewrite elem_of_nil. tauto. }
  case_decide as Hc.
  - intros H. destruct (IH _ _ Hg H) as [H1 H2]. split; [done|]. intros x. rewrite H2, elem_of_cons. naive_solver.
  - intros (g & Hb & H)%res_bind_Ok. destruct (build_glob c) as [g'|] eqn:Eb; [|done]. injection Hb as ->.
    destruct Hg as [Hg1 Hg2]. destruct (IH ({[c]} ∪ seen) (globs ++ [g])) as [H1 H2]; [|done|].
    + split.
      * intros k [Hk| ->%list_elem_of_singleton]%elem_of_app; [|by exists c; split; [set_solver|]].
        destruct (Hg1 _ Hk) as (x & ? & ?). exists x. split; [set_solver|done].
      * intros x [->%elem_of_singleton|Hx]%elem_of_union; [exists g; split; [set_solver|done]|].
        destruct (Hg2 _ Hx) as (k & ? & ?). exists k. split; [set_solver|done].
    + split; [done|]. intros x. rewrite H2, elem_of_cons. set_solver.
Qed.

Lemma add_patterns_globs b l seen globs globs' :
  globs_of seen globs → add_patterns b l seen globs = Ok globs' →
  ∃ seen', globs_of seen' globs' ∧
    ∀ x, x ∈ seen' ↔ x ∈ seen ∨ ∃ p, p ∈ l ∧ x ∈ expand_domain_pattern (normalize_pattern p).
Proof.
  revert seen globs. induction l as [|p l IH]; intros seen globs Hg; cbn [add_patterns].
  { intros [= <-]. exists seen. split; [done|]. intros x. setoid_rewrite elem_of_nil. naive_solver. }
  destruct (negb b && _); [done|]. intros ([seen1 globs1] & H1 & H)%res_bind_Ok.
  apply add_candidates_globs in H1 as [Hg1 Hs1]; [|done]. destruct (IH _ _ Hg1 H) as (seen' & Hg' & Hs').
  exists seen'. split; [done|]. intros x. rewrite Hs'. cbn. rewrite Hs1. setoid_rewrite elem_of_cons. naive_solver.
Qed.

(** A compiled set matches exactly what one of its patterns matches. *)
Lemma compiled_matches patterns b set h :
  compile_globset_with_policy patterns b = Ok set →
  set_is_match set h = true ↔ ∃ p, p ∈ patterns ∧ pattern_matches p h.
Proof.
  intros (globs & Hp & Hb)%res_bind_Ok. destruct (build_set globs) as [set'|] eqn:Es; [|done]. injection Hb as ->.
  rewrite (set_matches _ _ _ Es).
  apply add_patterns_globs in Hp as (seen & [Hg1 Hg2] & Hs); [|split; set_solver].
  split.
  - intros (g & Hg & Hm). destruct (Hg1 _ Hg) as (x & Hx & Hbx). apply Hs in Hx as [?|(p & Hp' & Hx)]; [set_solver|].
    exists p. split; [done|]. by exists x, g.
  - intros (p & Hpp & x & g & Hx & Hbx & Hm). destruct (Hg2 x) as (g' & Hg' & Hbg); [apply Hs; right; by exists p|].
    exists g'. split; [done|]. congruence.
Qed.

Lemma compiled_builds patterns b set p x :
  compile_globset_with_policy patterns b = Ok set →
  p ∈ patterns → x ∈ expand_domain_pattern (normalize_pattern p) → ∃ g, build_glob x = Some g.
Proof.
  intros (globs & Ha & _)%res_bind_Ok Hp Hx.
  apply add_patterns_globs in Ha as (seen & [_ Hg] & Hs); [|split; set_solver].
  destruct (Hg x) as (g & _ & ?); [apply Hs; right; by exists p|]. by exists g.
Qed.
End compiled.

(** ** Hosts that patterns cover *)

(** The hosts of a pattern, as the comments of the code describe them: the domain itself,
    and the domain below a label that is not empty. *)
Definition below (h d : rstring) : Prop := ∃ x, x ≠ [] ∧ h = x ++ [DOT] ++ d.

Definition covers (p : DomainPattern) (h : rstring) : Prop :=
  match p with
  | Exact d => h = normalize_domain d
  | SubdomainsOnly d => below h (normalize_domain d)
  | ApexAndSubdomains d => h = normalize_domain d ∨ below h (normalize_domain d)
  end.

Lemma subdomain_or_equal_spec c d :
  is_subdomain_or_equal c d = true ↔
  normalize_domain c = normalize_domain d ∨ ∃ x, normalize_domain c = x ++ [DOT] ++ normalize_domain d.
Proof.
  unfold is_subdomain_or_equal. case_decide as H; [by split; [left|]|]. rewrite ends_with_spec. naive_solver.
Qed.

Lemma strict_subdomain_spec c d :
  is_strict_subdomain c d = true ↔ ∃ x, normalize_domain c = x ++ [DOT] ++ normalize_domain d.
Proof.
  unfold is_strict_subdomain. rewrite andb_true_iff, bool_decide_eq_true, ends_with_spec.
  split; [by intros [_ H]|]. intros [x Hx]. split; [|by exists x]. intros Heq. rewrite Heq in Hx.
  apply (f_equal length) in Hx. rewrite !length_app in Hx. cbn in Hx. lia.
Qed.

Lemma below_trans a b c : below a b → below b c → below a c.
Proof.
  intros (x & Hx & ->) (y & Hy & ->). exists (x ++ [DOT] ++ y). split; [by destruct x|].
  by rewrite <-!app_assoc.
Qed.

(** A host below [c] lies below [d] when [c] is [d] or ends in [.d]. *)
Lemma below_mono h c d : below h c → c = d ∨ (∃ x, c = x ++ [DOT] ++ d) → below h d.
Proof.
  intros (x & Hx & ->) [->|[y ->]]; [by exists x|]. exists (x ++ [DOT] ++ y). split; [by destruct x|].
  by rewrite <-!app_assoc.
Qed.

(** Two texts after a dot with a common end. *)
Lemma dotted_suffix p c q d :
  p ++ [DOT] ++ c = q ++ [DOT] ++ d → (DOT ∉ p) → c = d ∨ ∃ x, c = x ++ [DOT] ++ d.
Proof.
  intros Heq Hp. apply app_eq_inv in Heq as [(k & -> & Hk)|(k & -> & Hk)].
  - destruct k as [|z k]; cbn in Hk; [by injection Hk; auto|]. injection Hk as <- _.
    rewrite elem_of_app, elem_of_cons in Hp. tauto.
  - destruct k as [|z k]; cbn in Hk; [by injection Hk; auto|]. injection Hk as _ ->. right. by exists k.
Qed.

Definition pad (n : nat) : rstring := replicate (S n) 120%N.

Lemma pad_no_dot n : DOT ∉ pad n.
Proof. intros H. unfold pad in H. apply elem_of_replicate in H as [? _]. done. Qed.

Lemma below_pad n d : below (pad n ++ [DOT] ++ d) d.
Proof. exists (pad n). split; [done|done]. Qed.

Definition no_leading_dot (p : DomainPattern) : Prop :=
  match p with
  | Exact d | ApexAndSubdomains d => head (normalize_domain d) ≠ Some DOT
  | SubdomainsOnly _ => True
  end.

Lemma dotted_below c d :
  head c ≠ Some DOT → (∃ x, c = x ++ [DOT] ++ d) ↔ below c d.
Proof.
  intros Hh. split; [|by intros (x & _ & ->); exists x]. intros [x ->]. exists x. split; [|done].
  by intros ->.
Qed.

Lemma lowercase_app s t : to_ascii_lowercase (s ++ t) = to_ascii_lowercase s ++ to_ascii_lowercase t.
Proof. apply map_app. Qed.

Lemma domain_lowercase d : to_ascii_lowercase (normalize_domain d) = normalize_domain d.
Proof. apply to_ascii_lowercase_idem. Qed.

Lemma pad_lowercase n d :
  to_ascii_lowercase (pad n ++ [DOT] ++ normalize_domain d) = pad n ++ [DOT] ++ normalize_domain d.
Proof.
  rewrite !lowercase_app, domain_lowercase. f_equal. unfold pad. generalize (S n). intros m.
  induction m as [|m IH]; [done|]. cbn. f_equal. exact IH.
Qed.

(** A pattern allows another exactly when it covers every host that the other covers; a domain of
    the other does not start with a dot. *)
Lemma allows_covers self candidate :
  no_leading_dot candidate →
  allows self candidate = true ↔
  ∀ h, to_ascii_lowercase h = h → covers candidate h → covers self h.
Proof.
  intros Hdot.
  assert (∀ n d, to_ascii_lowercase (pad n ++ [DOT] ++ normalize_domain d) = pad n ++ [DOT] ++ normalize_domain d) as Hpad
    by apply pad_lowercase.
  pose proof domain_lowercase as Hlow.
  destruct self as [d|d|d], candidate as [c|c|c]; cbn [allows covers no_leading_dot] in *.
  - rewrite subdomain_or_equal_spec. split.
    + intros H h _ [->|Hb]; [|right; by eapply below_mono].
      destruct H as [->|H]; [by left|right]. by apply dotted_below.
    + intros H. destruct (H _ (Hlow c) (or_introl eq_refl)) as [|Hb]; [by left|right]. by apply dotted_below.
  - rewrite subdomain_or_equal_spec. split.
    + intros H h _ Hb. right. by eapply below_mono.
    + intros H. set (n := length (normalize_domain d)).
      destruct (H _ (Hpad n c) (below_pad n (normalize_domain c))) as [Heq|(q & _ & Hq)].
      * apply (f_equal length) in Heq. unfold pad in Heq. rewrite !length_app, length_replicate in Heq.
        cbn in Heq. lia.
      * eapply dotted_suffix; [exact Hq|apply pad_no_dot].
  - rewrite subdomain_or_equal_spec. split.
    + intros H h _ ->. destruct H as [->|H]; [by left|right]. by apply dotted_below.
    + intros H. destruct (H _ (Hlow c) eq_refl) as [|Hb]; [by left|right]. by apply dotted_below.
  - rewrite strict_subdomain_spec. split.
    + intros H h _ [->|Hb]; [by apply dotted_below|]. eapply below_mono; [done|by right].
    + intros H. apply dotted_below; [done|]. apply H; [done|]. by left.
  - rewrite subdomain_or_equal_spec. split.
    + intros H h _ Hb. by eapply below_mono.
    + intros H. destruct (H _ (Hpad 0 c) (below_pad 0 (normalize_domain c))) as (q & _ & Hq).
      eapply dotted_suffix; [exact Hq|apply pad_no_dot].
  - rewrite strict_subdomain_spec. split.
    + intros H h _ ->. by apply dotted_below.
    + intros H. apply dotted_below; [done|]. by apply H.
  - split; [done|]. intros H. pose proof (H _ (Hlow c) (or_introl eq_refl)) as H1.
    pose proof (H _ (Hpad 0 c) (or_intror (below_pad 0 _))) as H2. rewrite H1 in H2.
    apply (f_equal length) in H2. rewrite length_app in H2. cbn in H2. lia.
  - split; [done|]. intros H. pose proof (H _ (Hpad 0 c) (below_pad 0 _)) as H1.
    pose proof (H _ (Hpad 1 c) (below_pad 1 _)) as H2.
    rewrite <-H1 in H2. apply (f_equal length) in H2. rewrite !length_app in H2. cbn in H2. lia.
  - unfold domain_eq. rewrite bool_decide_eq_true. split; [by intros H h _ ->|]. intros H. by apply H.
Qed.

(** *** Compiled patterns *)

(** What the library documents of the two shapes of globs that patterns expand to: without regard
    to case a literal matches its own text, and one below [?*.] the texts that end in it after a
    dot and at least one character. *)
Class DomainGlobLaws (Glob GlobSet : Type) `{!GlobLib Glob GlobSet} : Prop := {
  domain_globs :: GlobLaws Glob GlobSet;
  literal_glob p g h : Forall (λ c, c ∉ glob_special) p → build_glob p = Some g →
    glob_is_match g h = true ↔ to_ascii_lowercase h = to_ascii_lowercase p;
  below_glob p g h : Forall (λ c, c ∉ glob_special) p → build_glob (str "?*." ++ p) = Some g →
    glob_is_match g h = true ↔ below (to_ascii_lowercase h) (to_ascii_lowercase p) }.

Definition pattern_domain (p : DomainPattern) : rstring :=
  match p with Exact d | SubdomainsOnly d | ApexAndSubdomains d => d end.

(** A pattern of a list that is compiled as it is compared, with a domain in its normal form that
    has no character that is special in a glob and does not start with a dot. *)
Definition plain_domain_pattern (url_host_parse : rstring → option rstring) (text : rstring) : Prop :=
  let p := parse_for_constraints url_host_parse text in
  domain_pattern_parse (normalize_pattern text) = p ∧
  normalize_domain (pattern_domain p) = pattern_domain p ∧
  head (pattern_domain p) ≠ Some DOT ∧ Forall (λ c, c ∉ glob_special) (pattern_domain p).

Section comparison.
Context {Glob GlobSet : Type} `{!GlobLib Glob GlobSet} `{!DomainGlobLaws Glob GlobSet}.
Context (url_host_parse : rstring → option rstring).

Lemma compiled_covers text set h :
  plain_domain_pattern url_host_parse text → compile_allowlist_globset [text] = Ok set →
  set_is_match set h = true ↔ covers (parse_for_constraints url_host_parse text) (to_ascii_lowercase h).
Proof.
  intros (Hp & Hn & _ & Hs) Hc. rewrite (compiled_matches _ _ _ _ Hc).
  assert (∀ x, x ∈ expand_domain_pattern (normalize_pattern text) → ∃ g, build_glob x = Some g) as Hb.
  { intros x Hx. eapply compiled_builds; [exact Hc|by left|done]. }
  transitivity (pattern_matches text h); [split; [by intros (p & ->%list_elem_of_singleton & ?)|by exists text; split; [left|]]|].
  unfold pattern_matches, expand_domain_pattern in *. rewrite Hp in *. clear Hp Hc.
  generalize dependent (parse_for_constraints url_host_parse text).
  assert (∀ d, normalize_domain d = d → to_ascii_lowercase d = d) as Hlow.
  { intros d <-. apply domain_lowercase. }
  intros [d|d|d] Hn Hs Hb; cbn [pattern_domain covers] in *; rewrite Hn; apply Hlow in Hn.
  - destruct (Hb d) as [g Hg]; [by left|]. destruct (Hb (str "?*." ++ d)) as [g' Hg']; [by right; left|].
    pose proof (literal_glob d g h Hs Hg) as Hm. pose proof (below_glob d g' h Hs Hg') as Hm'. rewrite Hn in Hm, Hm'.
    split.
    + intros (x & k & Hx & Hk & Hkm). apply elem_of_cons in Hx as [->|Hx%list_elem_of_singleton]; [left|right; subst x].
      * rewrite Hg in Hk. injection Hk as <-. by apply Hm.
      * rewrite Hg' in Hk. injection Hk as <-. by apply Hm'.
    + intros [Hh|Hh]; [exists d, g|exists (str "?*." ++ d), g']; (split; [set_solver|]); split; [done|by apply Hm|done|by apply Hm'].
  - destruct (Hb (str "?*." ++ d)) as [g Hg]; [by left|]. pose proof (below_glob d g h Hs Hg) as Hm. rewrite Hn in Hm.
    rewrite <-Hm. split; [|intros ?; exists (str "?*." ++ d), g; by split; [left|]].
    intros (x & k & Hx%list_elem_of_singleton & Hk & Hkm). congruence.
  - destruct (Hb d) as [g Hg]; [by left|]. pose proof (literal_glob d g h Hs Hg) as Hm. rewrite Hn in Hm.
    rewrite <-Hm. split; [|intros ?; exists d, g; by split; [left|]].
    intros (x & k & Hx%list_elem_of_singleton & Hk & Hkm). congruence.
Qed.

(** C28: the comparison of patterns under managed constraints is exact.  Of two patterns that are
    compiled as they are compared, with domains in normal form that have no character special in
    a glob and no dot at the start, one allows the other exactly when every host that the compiled
    other matches is matched by it compiled. *)
Theorem allows_exact self candidate self_set candidate_set :
  plain_domain_pattern url_host_parse self → plain_domain_pattern url_host_parse candidate →
  compile_allowlist_globset [self] = Ok self_set → compile_allowlist_globset [candidate] = Ok candidate_set →
  allows (parse_for_constraints url_host_parse self) (parse_for_constraints url_host_parse candidate) = true ↔
  ∀ h, set_is_match candidate_set h = true → set_is_match self_set h = true.
Proof.
  intros Hs Hc Hss Hcs. rewrite allows_covers.
  2:{ destruct Hc as (_ & Hn & Hd & _). unfold no_leading_dot, pattern_domain in *.
      destruct (parse_for_constraints url_host_parse candidate); [by rewrite Hn|done|by rewrite Hn]. }
  setoid_rewrite (compiled_covers self self_set _ Hs Hss). setoid_rewrite (compiled_covers candidate candidate_set _ Hc Hcs).
  split; [intros H h; apply H, to_ascii_lowercase_idem|]. intros H h Hh Hcov. rewrite <-Hh in *. by apply H.
Qed.
End comparison.

(** The host parser of the library takes an IPv6 address only in brackets, which are taken
    off before: two addresses then have the same, empty domain, and a managed list with one of
    them allows the other. *)
Lemma constraints_confuse_ipv6 url_host_parse :
  url_host_parse (str "::1") = None → url_host_parse (str "2001:db8::1") = None →
  allows (parse_for_constraints url_host_parse (str "[::1]"))
    (parse_for_constraints url_host_parse (str "[2001:db8::1]")) = true.
Proof.
  intros H1 H2.
  assert (parse_for_constraints url_host_parse (str "[::1]") = Exact (default [] (url_host_parse (str "::1"))))
    as -> by by vm_compute.
  assert (parse_for_constraints url_host_parse (str "[2001:db8::1]") =
    Exact (default [] (url_host_parse (str "2001:db8::1")))) as -> by by vm_compute.
  by rewrite H1, H2.
Qed.
