(* ===== verification/NetworkConfig.v ===== *)
(** * Configuration of the network proxy ([network-proxy/src/config.rs], [state.rs])

    The permissions of domains and sockets, the addresses that the proxy binds, and the
    comparison of a configuration with managed constraints.  The checks of one interception
    hook ([valid_hook]) and the host parser of URLs ([url_host_parse]) are arguments.  Of an
    error only the field it is about is kept.  The fields of [NetworkProxyConstraints] have
    names of their own, since those of the two structures coincide. *)

From S2P Require Import Prelude RustStr OrdMap IpAddr NetworkPolicy.

Local Open Scope nat_scope.

(** ** Configuration *)

Inductive NetworkDomainPermission := PermNone | PermAllow | PermDeny.

#[export] Instance NetworkDomainPermission_eq_dec : EqDecision NetworkDomainPermission.
Proof. solve_decision. Defined.

(** The order of the variants. *)
Definition permission_rank (p : NetworkDomainPermission) : nat :=
  match p with PermNone => 0 | PermAllow => 1 | PermDeny => 2 end.

Record NetworkDomainPermissionEntry := { pattern : rstring; permission : NetworkDomainPermission }.

#[export] Instance NetworkDomainPermissionEntry_eq_dec : EqDecision NetworkDomainPermissionEntry.
Proof. solve_decision. Defined.

Inductive NetworkUnixSocketPermission := SocketAllow | SocketDeny.

#[export] Instance NetworkUnixSocketPermission_eq_dec : EqDecision NetworkUnixSocketPermission.
Proof. solve_decision. Defined.

Inductive NetworkMode := Limited | Full.

#[export] Instance NetworkMode_eq_dec : EqDecision NetworkMode.
Proof. solve_decision. Defined.

Definition allows_method (mode : NetworkMode) (method : rstring) : bool :=
  match mode with
  | Full => true
  | Limited => bool_decide (method ∈ [str "GET"; str "HEAD"; str "OPTIONS"])
  end.

Definition network_mode_rank (mode : NetworkMode) : N := match mode with Limited => 0 | Full => 1 end.

(** The loop of [effective_entries]: the order of the patterns and their permissions. *)
Fixpoint effective_permissions (entries : list NetworkDomainPermissionEntry) (order : list rstring)
    (perms : gmap rstring NetworkDomainPermission) : list rstring * gmap rstring NetworkDomainPermission :=
  match entries with
  | [] => (order, perms)
  | e :: entries' =>
      let order' := if decide (is_Some (perms !! pattern e)) then order else order ++ [pattern e] in
      let current := default (permission e) (perms !! pattern e) in
      let updated := if decide (permission_rank current < permission_rank (permission e))
                     then permission e else current in
      effective_permissions entries' order' (<[pattern e := updated]> perms)
  end.

(** The entries in their order, each taken out of the map. *)
Fixpoint take_effective (order : list rstring) (perms : gmap rstring NetworkDomainPermission)
    : list NetworkDomainPermissionEntry :=
  match order with
  | [] => []
  | p :: order' =>
      match perms !! p with
      | Some perm => {| pattern := p; permission := perm |} :: take_effective order' (delete p perms)
      | None => take_effective order' perms
      end
  end.

Definition effective_entries (entries : list NetworkDomainPermissionEntry)
    : list NetworkDomainPermissionEntry :=
  let '(order, perms) := effective_permissions entries [] ∅ in take_effective order perms.

(** ** Effective permissions *)

(** The permission after one more entry for a pattern. *)
Definition raise_permission (o : option NetworkDomainPermission) (p : NetworkDomainPermission)
    : option NetworkDomainPermission :=
  let current := default p o in
  Some (if decide (permission_rank current < permission_rank p) then p else current).

Definition permissions_of (x : rstring) (entries : list NetworkDomainPermissionEntry) :=
  permission <$> filter (λ e, pattern e = x) entries.

Lemma effective_permissions_lookup entries order perms x :
  (effective_permissions entries order perms).2 !! x =
  foldl raise_permission (perms !! x) (permissions_of x entries).
Proof.
  revert order perms. induction entries as [|e entries IH]; intros order perms; cbn; [done|].
  rewrite IH. unfold permissions_of. destruct (decide (pattern e = x)) as [He|He].
  - subst. by rewrite lookup_insert_eq.
  - by rewrite lookup_insert_ne.
Qed.

Lemma effective_permissions_order entries order perms :
  NoDup order → (∀ x, x ∈ order ↔ is_Some (perms !! x)) →
  let r := effective_permissions entries order perms in
  NoDup r.1 ∧ (∀ x, x ∈ r.1 ↔ is_Some (r.2 !! x)) ∧ order `prefix_of` r.1.
Proof.
  revert order perms. induction entries as [|e entries IH]; intros order perms Hn Hd; cbn; [done|].
  match goal with |- context [effective_permissions entries ?o ?p] => destruct (IH o p) as (H1 & H2 & H3) end.
  - case_decide as H; [done|]. apply NoDup_app. split; [done|]. split; [|apply NoDup_singleton].
    intros x Hx ->%list_elem_of_singleton. by apply H, Hd.
  - intros x. rewrite lookup_insert_is_Some'. destruct (decide (is_Some (perms !! pattern e))) as [H|H];
      [rewrite Hd|rewrite elem_of_app, list_elem_of_singleton, Hd]; naive_solver.
  - split; [done|]. split; [done|]. etrans; [|exact H3]. case_decide; [done|by apply prefix_app_r].
Qed.

Lemma elem_of_take_effective order perms x p :
  NoDup order →
  {| pattern := x; permission := p |} ∈ take_effective order perms ↔ x ∈ order ∧ perms !! x = Some p.
Proof.
  intros Hn. revert perms. induction Hn as [|y order Hy Hn IH]; intros perms; cbn.
  { split; [by intros ?%not_elem_of_nil|by intros [?%not_elem_of_nil _]]. }
  destruct (perms !! y) as [q|] eqn:Hq.
  - rewrite !elem_of_cons, IH, lookup_delete. case_decide; naive_solver.
  - rewrite elem_of_cons, IH. naive_solver.
Qed.

Lemma permission_rank_inj p q : permission_rank p = permission_rank q → p = q.
Proof. by destruct p, q. Qed.

Lemma raise_permission_spec o a : ∃ c,
  raise_permission o a = Some c ∧ (o = Some c ∨ a = c) ∧ permission_rank a ≤ permission_rank c ∧
  ∀ q, o = Some q → permission_rank q ≤ permission_rank c.
Proof.
  unfold raise_permission. destruct o as [q|]; cbn; case_decide; eexists; (split; [done|]);
    (split; [auto|]); split; try lia; intros ? [=]; subst; lia.
Qed.

Lemma raised_permission o l p :
  foldl raise_permission o l = Some p ↔
  (o = Some p ∨ p ∈ l) ∧ (∀ q, o = Some q ∨ q ∈ l → permission_rank q ≤ permission_rank p).
Proof.
  revert o. induction l as [|a l IH]; intros o; cbn.
  { split; [intros ->; split; [by left|by intros q [[= ->]|?%not_elem_of_nil]]|].
    by intros [[H|?%not_elem_of_nil] _]. }
  destruct (raise_permission_spec o a) as (c & -> & Hc & Ha & Ho). rewrite IH. setoid_rewrite elem_of_cons.
  split; intros [H Hm].
  - pose proof (Hm c (or_introl eq_refl)). split; [naive_solver|].
    intros q [Hq|[->|Hq]]; [specialize (Ho _ Hq)|..|auto]; lia.
  - assert (permission_rank c ≤ permission_rank p) as Hcp by (destruct Hc as [Hc| ->]; auto).
    split; [|intros q [[= ->]|Hq]; [done|auto]].
    destruct H as [H|[->|H]]; [left|left|by right]; f_equal; apply permission_rank_inj;
      [specialize (Ho _ H)|]; lia.
Qed.

(** The entries in force: for a pattern the strongest of its permissions. *)
Lemma elem_of_effective_entries entries x p :
  {| pattern := x; permission := p |} ∈ effective_entries entries ↔
  {| pattern := x; permission := p |} ∈ entries ∧
  ∀ q, {| pattern := x; permission := q |} ∈ entries → permission_rank q ≤ permission_rank p.
Proof.
  unfold effective_entries. pose proof (effective_permissions_order entries [] ∅) as H.
  destruct H as (H1 & H2 & _); [constructor|intros x'; rewrite lookup_empty; split; [by intros ?%not_elem_of_nil|by intros [? ?]]|].
  pose proof (effective_permissions_lookup entries [] ∅ x) as Hl.
  destruct (effective_permissions entries [] ∅) as [order perms]. cbn in *.
  assert (∀ q, q ∈ permissions_of x entries ↔ {| pattern := x; permission := q |} ∈ entries) as Hq.
  { intros q. unfold permissions_of. rewrite list_elem_of_fmap. setoid_rewrite list_elem_of_filter.
    split; [by intros ([x' q'] & -> & [= ->] & ?)|]. intros ?. by exists {| pattern := x; permission := q |}. }
  rewrite elem_of_take_effective, H2, Hl, raised_permission, lookup_empty by done. setoid_rewrite Hq.
  split; [naive_solver|]. intros [Hp Hm]. split; [|naive_solver]. exists p.
  apply raised_permission. setoid_rewrite Hq. naive_solver.
Qed.

Definition lower_set (l : list rstring) : gset rstring := list_to_set (to_ascii_lowercase <$> l).

Lemma lower_set_elem l l' : (∀ x, x ∈ l ↔ x ∈ l') → lower_set l = lower_set l'.
Proof.
  intros H. unfold lower_set. apply set_eq. intros x. rewrite !elem_of_list_to_set, !list_elem_of_fmap.
  by setoid_rewrite H.
Qed.

Section config.
Context {Hook : Type} `{!EqDecision Hook}.

Record NetworkProxyConfig := {
  enabled : bool;
  proxy_url : rstring;
  enable_socks5 : bool;
  socks_url : rstring;
  enable_socks5_udp : bool;
  allow_upstream_proxy : bool;
  dangerously_allow_non_loopback_proxy : bool;
  dangerously_allow_all_unix_sockets : bool;
  mode : NetworkMode;
  domains : option (list NetworkDomainPermissionEntry);
  unix_sockets : option (gmap rstring NetworkUnixSocketPermission);
  allow_local_binding : bool;
  mitm : bool;
  credential_broker : bool;
  credential_broker_openai_host : option rstring;
  dangerously_allow_plaintext_credential_injection : bool;
  mitm_hooks : list Hook }.

#[global] Instance NetworkProxyConfig_eq_dec : EqDecision NetworkProxyConfig.
Proof. solve_decision. Defined.

Implicit Types (config : NetworkProxyConfig).

Definition domain_entries (p : NetworkDomainPermission) config : option (list rstring) :=
  entries ← domains config;
  let l := pattern <$> filter (λ e, permission e = p) (effective_entries entries) in
  if decide (l = []) then None else Some l.

Definition allowed_domains config : option (list rstring) := domain_entries PermAllow config.
Definition denied_domains config : option (list rstring) := domain_entries PermDeny config.

Definition allow_unix_sockets config : list rstring :=
  match unix_sockets config with
  | Some sockets => fst <$> filter (λ e, e.2 = SocketAllow) (btree_entries sockets)
  | None => []
  end.

Definition set_domains (d : option (list NetworkDomainPermissionEntry)) config : NetworkProxyConfig :=
  {| enabled := enabled config; proxy_url := proxy_url config; enable_socks5 := enable_socks5 config;
     socks_url := socks_url config; enable_socks5_udp := enable_socks5_udp config;
     allow_upstream_proxy := allow_upstream_proxy config;
     dangerously_allow_non_loopback_proxy := dangerously_allow_non_loopback_proxy config;
     dangerously_allow_all_unix_sockets := dangerously_allow_all_unix_sockets config;
     mode := mode config; domains := d; unix_sockets := unix_sockets config;
     allow_local_binding := allow_local_binding config; mitm := mitm config;
     credential_broker := credential_broker config;
     credential_broker_openai_host := credential_broker_openai_host config;
     dangerously_allow_plaintext_credential_injection :=
       dangerously_allow_plaintext_credential_injection config;
     mitm_hooks := mitm_hooks config |}.

(** [config.enabled], [config.mode] and [config.credential_broker] are also assigned. *)
Definition set_flags (e : bool) (m : NetworkMode) (broker : bool) config : NetworkProxyConfig :=
  {| enabled := e; proxy_url := proxy_url config; enable_socks5 := enable_socks5 config;
     socks_url := socks_url config; enable_socks5_udp := enable_socks5_udp config;
     allow_upstream_proxy := allow_upstream_proxy config;
     dangerously_allow_non_loopback_proxy := dangerously_allow_non_loopback_proxy config;
     dangerously_allow_all_unix_sockets := dangerously_allow_all_unix_sockets config;
     mode := m; domains := domains config; unix_sockets := unix_sockets config;
     allow_local_binding := allow_local_binding config; mitm := mitm config;
     credential_broker := broker;
     credential_broker_openai_host := credential_broker_openai_host config;
     dangerously_allow_plaintext_credential_injection :=
       dangerously_allow_plaintext_credential_injection config;
     mitm_hooks := mitm_hooks config |}.

Definition non_empty {A} (l : list A) : option (list A) := match l with [] => None | _ => Some l end.

Definition upsert_domain_permission (host : rstring) (p : NetworkDomainPermission)
    (normalize : rstring → rstring) config : NetworkProxyConfig :=
  let entries := default [] (domains config) in
  let kept := filter (λ e, normalize (pattern e) ≠ normalize host) entries in
  set_domains (non_empty (kept ++ [ {| pattern := host; permission := p |} ])) config.

(** Adds the entries that are not there yet. *)
Fixpoint push_domain_entries (l : list rstring) (p : NetworkDomainPermission)
    (entries : list NetworkDomainPermissionEntry) : list NetworkDomainPermissionEntry :=
  match l with
  | [] => entries
  | x :: l' =>
      let e := {| pattern := x; permission := p |} in
      push_domain_entries l' p (if decide (e ∈ entries) then entries else entries ++ [e])
  end.

Definition set_domain_entries (l : list rstring) (p : NetworkDomainPermission) config : NetworkProxyConfig :=
  let kept := filter (λ e, permission e ≠ p) (default [] (domains config)) in
  set_domains (non_empty (push_domain_entries l p kept)) config.

Definition set_allowed_domains (l : list rstring) config : NetworkProxyConfig :=
  set_domain_entries l PermAllow config.
Definition set_denied_domains (l : list rstring) config : NetworkProxyConfig :=
  set_domain_entries l PermDeny config.

(** [set_unix_socket_entries]: the new value of [unix_sockets]. *)
Definition set_unix_socket_entries (l : list rstring) (p : NetworkUnixSocketPermission)
    (sockets : option (gmap rstring NetworkUnixSocketPermission))
    : option (gmap rstring NetworkUnixSocketPermission) :=
  let kept := filter (λ e, e.2 ≠ p) (default ∅ sockets) in
  let entries := foldl (λ m path, <[path := p]> m) kept l in
  if decide (entries = ∅) then None else Some entries.

(** ** Lists of domains *)

Lemma elem_of_domain_entries p config x :
  x ∈ default [] (domain_entries p config) ↔
  {| pattern := x; permission := p |} ∈ effective_entries (default [] (domains config)).
Proof.
  unfold domain_entries. destruct (domains config) as [entries|]; cbn; [|by split; intros ?%not_elem_of_nil].
  match goal with |- x ∈ default [] (if decide (?l = []) then _ else _) ↔ _ =>
    transitivity (x ∈ l); [by case_decide as H; [rewrite H|]|] end.
  rewrite list_elem_of_fmap. setoid_rewrite list_elem_of_filter. split.
  - by intros ([x' p'] & -> & [= ->] & ?).
  - intros H. by exists {| pattern := x; permission := p |}.
Qed.

Lemma elem_of_denied config x :
  x ∈ default [] (denied_domains config) ↔
  {| pattern := x; permission := PermDeny |} ∈ default [] (domains config).
Proof.
  unfold denied_domains. rewrite elem_of_domain_entries, elem_of_effective_entries.
  split; [by intros [? _]|]. intros H. split; [done|]. by intros [] _; cbn; lia.
Qed.

Lemma elem_of_allowed config x :
  x ∈ default [] (allowed_domains config) ↔
  {| pattern := x; permission := PermAllow |} ∈ default [] (domains config) ∧
  {| pattern := x; permission := PermDeny |} ∉ default [] (domains config).
Proof.
  unfold allowed_domains. rewrite elem_of_domain_entries, elem_of_effective_entries. split.
  - intros [H Hm]. split; [done|]. intros Hd. apply Hm in Hd. cbn in Hd. lia.
  - intros [H Hd]. split; [done|]. intros [] Hq; cbn; [lia|lia|done].
Qed.

Lemma default_non_empty {A} (l : list A) : default [] (non_empty l) = l.
Proof. by destruct l. Qed.

Lemma elem_of_upsert host p normalize config e :
  e ∈ default [] (domains (upsert_domain_permission host p normalize config)) ↔
  e = {| pattern := host; permission := p |} ∨
  (normalize (pattern e) ≠ normalize host ∧ e ∈ default [] (domains config)).
Proof.
  unfold upsert_domain_permission. cbn. rewrite default_non_empty, elem_of_app, list_elem_of_singleton,
    list_elem_of_filter. tauto.
Qed.

Lemma elem_of_push_domain_entries l p entries e :
  e ∈ push_domain_entries l p entries ↔ e ∈ entries ∨ (pattern e ∈ l ∧ permission e = p).
Proof.
  revert entries. induction l as [|x l IH]; intros entries; cbn.
  { split; [by left|by intros [?|[?%not_elem_of_nil _]]]. }
  rewrite IH, elem_of_cons. case_decide as H.
  - split; [naive_solver|]. intros [?|[[Hx|Hl] Hp]]; [by left| |by right]. left. destruct e. by cbn in *; subst.
  - rewrite elem_of_app, list_elem_of_singleton. destruct e as [y q]; cbn. naive_solver.
Qed.

Lemma elem_of_set_domain_entries l p config e :
  e ∈ default [] (domains (set_domain_entries l p config)) ↔
  (permission e ≠ p ∧ e ∈ default [] (domains config)) ∨ (permission e = p ∧ pattern e ∈ l).
Proof.
  unfold set_domain_entries. cbn. rewrite default_non_empty, elem_of_push_domain_entries, list_elem_of_filter.
  tauto.
Qed.

(** ** Addresses *)

Record SocketAddr := { ip : IpAddr; port : N }.

Definition LOCALHOST : IpAddr := V4 (ipv4 127 0 0 1).

Definition clamp_non_loopback (addr : SocketAddr) (allow_non_loopback : bool) : SocketAddr :=
  if ip_is_loopback (ip addr) then addr
  else if allow_non_loopback then addr
  else {| ip := LOCALHOST; port := port addr |}.

Definition clamp_bind_addrs (http_addr socks_addr : SocketAddr) config : SocketAddr * SocketAddr :=
  let http_addr := clamp_non_loopback http_addr (dangerously_allow_non_loopback_proxy config) in
  let socks_addr := clamp_non_loopback socks_addr (dangerously_allow_non_loopback_proxy config) in
  if bool_decide (allow_unix_sockets config = []) && negb (dangerously_allow_all_unix_sockets config)
  then (http_addr, socks_addr)
  else ({| ip := LOCALHOST; port := port http_addr |}, {| ip := LOCALHOST; port := port socks_addr |}).

(** The ports are kept.  Both addresses are on the loopback interface when binding
    elsewhere is not allowed and also whenever a socket can be reached through the proxy;
    otherwise the addresses are those asked for. *)
Theorem bind_addrs_local http_addr socks_addr config :
  let '(http, socks) := clamp_bind_addrs http_addr socks_addr config in
  let remote := dangerously_allow_non_loopback_proxy config &&
    bool_decide (allow_unix_sockets config = []) && negb (dangerously_allow_all_unix_sockets config) in
  port http = port http_addr ∧ port socks = port socks_addr ∧
  if remote then http = http_addr ∧ socks = socks_addr
  else ip_is_loopback (ip http) = true ∧ ip_is_loopback (ip socks) = true.
Proof.
  assert (∀ a b, port (clamp_non_loopback a b) = port a ∧
    if b : bool then clamp_non_loopback a b = a else ip_is_loopback (ip (clamp_non_loopback a b)) = true) as Hc.
  { intros a b. unfold clamp_non_loopback. destruct (ip_is_loopback (ip a)) eqn:E; destruct b; auto. }
  unfold clamp_bind_addrs.
  set (b := dangerously_allow_non_loopback_proxy config). destruct (Hc http_addr b), (Hc socks_addr b).
  destruct (bool_decide _ && _) eqn:E.
  - rewrite <-andb_assoc, E, andb_true_r. by destruct b.
  - rewrite <-andb_assoc, E, andb_false_r. by cbn.
Qed.

(** ** Constraints *)

Record NetworkProxyConstraints := {
  max_enabled : option bool;
  max_mode : option NetworkMode;
  max_upstream_proxy : option bool;
  max_non_loopback_proxy : option bool;
  max_all_unix_sockets : option bool;
  managed_allowed_domains : option (list rstring);
  allowlist_expansion_enabled : option bool;
  managed_denied_domains : option (list rstring);
  denylist_expansion_enabled : option bool;
  managed_unix_sockets : option (list rstring);
  max_local_binding : option bool }.

#[global] Instance NetworkProxyConstraints_eq_dec : EqDecision NetworkProxyConstraints.
Proof. solve_decision. Defined.

(** [NetworkProxyConstraintError::InvalidValue], with the name of the field. *)
Inductive NetworkProxyConstraintError := InvalidValue (field_name : rstring).

Definition require (ok : bool) (field_name : rstring) : res NetworkProxyConstraintError () :=
  if ok then Ok () else Err (InvalidValue field_name).

Lemma require_ok b f : require b f = Ok () ↔ b = true.
Proof. by destruct b. Qed.

Context (url_host_parse : rstring → option rstring) (valid_hook : Hook → bool).

Definition validate_mitm_hook_config config : bool :=
  match mitm_hooks config with [] => true | hooks => mitm config && forallb valid_hook hooks end.

Definition validate_non_global_wildcard_domain_patterns (field_name : rstring) (patterns : list rstring)
    : res NetworkProxyConstraintError () :=
  require (negb (existsb is_global_wildcard_domain_pattern patterns)) field_name.

(** The three rules for the allow list. *)
Definition validate_allowed (allowed denied managed : list rstring) (expansion : option bool) : bool :=
  match expansion with
  | Some true => bool_decide (lower_set managed ∖ lower_set allowed ∖ lower_set denied = ∅)
  | Some false => bool_decide (lower_set allowed = lower_set managed ∖ lower_set denied)
  | None =>
      let managed_patterns := parse_for_constraints url_host_parse <$> managed in
      forallb (λ entry, existsb (λ m, allows m (parse_for_constraints url_host_parse entry)) managed_patterns)
        allowed
  end.

Definition validate_denied (denied managed : list rstring) (expansion : option bool) : bool :=
  match expansion with
  | Some false => bool_decide (lower_set denied = lower_set managed)
  | Some true | None => bool_decide (lower_set managed ⊆ lower_set denied)
  end.

(** A flag that may be set only if it is not constrained to be off. *)
Definition within (candidate : bool) (max : option bool) : bool := negb candidate || default true max.

Definition mode_within (candidate : NetworkMode) (max : option NetworkMode) : bool :=
  match max with
  | Some max => negb (network_mode_rank max <? network_mode_rank candidate)%N
  | None => true
  end.

Definition validate_policy_against_constraints config (c : NetworkProxyConstraints)
    : res NetworkProxyConstraintError () :=
  let allowed := default [] (allowed_domains config) in
  let denied := default [] (denied_domains config) in
  let? _ := require (validate_mitm_hook_config config) (str "network.mitm_hooks") in
  let? _ := validate_non_global_wildcard_domain_patterns (str "network.denied_domains") denied in
  let? _ := require (within (enabled config) (max_enabled c)) (str "network.enabled") in
  let? _ := require (mode_within (mode config) (max_mode c)) (str "network.mode") in
  let? _ := require (within (allow_upstream_proxy config) (max_upstream_proxy c))
              (str "network.allow_upstream_proxy") in
  let? _ := require (within (dangerously_allow_non_loopback_proxy config) (max_non_loopback_proxy c))
              (str "network.dangerously_allow_non_loopback_proxy") in
  let allow_all := default (bool_decide (managed_unix_sockets c = None)) (max_all_unix_sockets c) in
  let? _ := require (negb (dangerously_allow_all_unix_sockets config) || allow_all)
              (str "network.dangerously_allow_all_unix_sockets") in
  let? _ := require (within (allow_local_binding config) (max_local_binding c))
              (str "network.allow_local_binding") in
  let? _ := match managed_allowed_domains c with
            | None => Ok ()
            | Some managed =>
                let? _ := validate_non_global_wildcard_domain_patterns (str "network.allowed_domains")
                            managed in
                require (validate_allowed allowed denied managed (allowlist_expansion_enabled c))
                  (str "network.allowed_domains")
            end in
  let? _ := match managed_denied_domains c with
            | None => Ok ()
            | Some managed =>
                let? _ := validate_non_global_wildcard_domain_patterns (str "network.denied_domains")
                            managed in
                require (validate_denied denied managed (denylist_expansion_enabled c))
                  (str "network.denied_domains")
            end in
  match managed_unix_sockets c with
  | None => Ok ()
  | Some managed =>
      require (forallb (λ s, bool_decide (to_ascii_lowercase s ∈ lower_set managed)) (allow_unix_sockets config))
        (str "network.allow_unix_sockets")
  end.


(** ** What validation accepts *)

Record policy_ok config (c : NetworkProxyConstraints) : Prop := {
  ok_hooks : validate_mitm_hook_config config = true;
  ok_wildcards : existsb is_global_wildcard_domain_pattern (default [] (denied_domains config)) = false;
  ok_enabled : within (enabled config) (max_enabled c) = true;
  ok_mode : mode_within (mode config) (max_mode c) = true;
  ok_upstream : within (allow_upstream_proxy config) (max_upstream_proxy c) = true;
  ok_non_loopback : within (dangerously_allow_non_loopback_proxy config) (max_non_loopback_proxy c) = true;
  ok_all_sockets : negb (dangerously_allow_all_unix_sockets config)
    || default (bool_decide (managed_unix_sockets c = None)) (max_all_unix_sockets c) = true;
  ok_binding : within (allow_local_binding config) (max_local_binding c) = true;
  ok_allowed : ∀ managed, managed_allowed_domains c = Some managed →
    existsb is_global_wildcard_domain_pattern managed = false ∧
    validate_allowed (default [] (allowed_domains config)) (default [] (denied_domains config)) managed
      (allowlist_expansion_enabled c) = true;
  ok_denied : ∀ managed, managed_denied_domains c = Some managed →
    existsb is_global_wildcard_domain_pattern managed = false ∧
    validate_denied (default [] (denied_domains config)) managed (denylist_expansion_enabled c) = true;
  ok_sockets : ∀ managed, managed_unix_sockets c = Some managed →
    forallb (λ s, bool_decide (to_ascii_lowercase s ∈ lower_set managed)) (allow_unix_sockets config) = true }.

Lemma validate_ok config c : validate_policy_against_constraints config c = Ok () ↔ policy_ok config c.
Proof.
  unfold validate_policy_against_constraints, validate_non_global_wildcard_domain_patterns.
  rewrite !res_seq_Ok, !res_each_Ok, !require_ok. setoid_rewrite res_seq_Ok. setoid_rewrite require_ok.
  setoid_rewrite negb_true_iff. split; [|by intros []].
  intros (?&?&?&?&?&?&?&?&?&?&?). by constructor.
Qed.

(** What is allowed matters only where it is managed, and what is denied only as a set. *)
Lemma policy_ok_domains config c d :
  managed_allowed_domains c = None →
  (∀ x, {| pattern := x; permission := PermDeny |} ∈ default [] d ↔
        {| pattern := x; permission := PermDeny |} ∈ default [] (domains config)) →
  policy_ok config c → policy_ok (set_domains d config) c.
Proof.
  intros Hn Hd [].
  assert (∀ x, x ∈ default [] (denied_domains config) ↔ x ∈ default [] (denied_domains (set_domains d config)))
    as Hx by (intros x; by rewrite !elem_of_denied, <-Hd).
  constructor; try done.
  - by rewrite <-(existsb_elem _ _ _ Hx).
  - by rewrite Hn.
  - intros managed Hm. destruct (ok_denied0 _ Hm) as [? Hv]. split; [done|].
    unfold validate_denied in *. by rewrite <-(lower_set_elem _ _ Hx).
Qed.

Lemma policy_ok_flags config c e m broker :
  within e (max_enabled c) = true → mode_within m (max_mode c) = true →
  policy_ok config c → policy_ok (set_flags e m broker config) c.
Proof. intros He Hm []. by constructor. Qed.

End config.
