(* ===== verification/NetworkState.v ===== *)
(** * State of the network proxy ([network-proxy/src/state.rs], [runtime.rs])

    The compiled state, the decision on a host, the log of blocked requests and the updates
    of the configuration.  The state is behind a lock.  An operation that reads it, computes
    and writes it back is two steps, so that other operations can come between them
    ([step]); the operations as one caller sees them compose these steps.

    Arguments: the libraries for globs and URLs, the checks and the compilation of
    interception hooks, [MitmState::new], the lookup of names, and what the reloader returns.
    The credential broker, which is told of every new configuration, is left out.  Paths are
    those of Unix. *)

From S2P Require Import Prelude RustStr OrdMap AbsolutePath IpAddr NetworkPolicy NetworkConfig.

Local Open Scope nat_scope.

Definition MAX_BLOCKED_EVENTS : nat := 200.
Definition U64_MAX : N := 2 ^ 64 - 1.

Inductive HostBlockReason := Denied | NotAllowed | NotAllowedLocal.
Inductive HostBlockDecision := Allowed | Blocked (reason : HostBlockReason).

#[export] Instance HostBlockReason_eq_dec : EqDecision HostBlockReason.
Proof. solve_decision. Defined.
#[export] Instance HostBlockDecision_eq_dec : EqDecision HostBlockDecision.
Proof. solve_decision. Defined.

Record BlockedRequest := {
  blocked_host : rstring;
  blocked_reason : rstring;
  client : option rstring;
  method : option rstring;
  blocked_mode : option NetworkMode;
  protocol : rstring;
  execution_id : option rstring;
  decision : option rstring;
  source : option rstring;
  blocked_port : option N;
  timestamp : Z }.

Definition with_execution_id (id : option rstring) (e : BlockedRequest) : BlockedRequest :=
  {| blocked_host := blocked_host e; blocked_reason := blocked_reason e; client := client e;
     method := method e; blocked_mode := blocked_mode e; protocol := protocol e; execution_id := id;
     decision := decision e; source := source e; blocked_port := blocked_port e;
     timestamp := timestamp e |}.

Inductive DomainListKind := ListAllow | ListDeny.

Inductive StateError :=
| InvalidHost
| InvalidUnixSocket (index : nat)
| BrokerNeedsMitm
| Violates (e : NetworkProxyConstraintError)
| Globs (e : GlobError)
| InvalidHooks
| MitmFailed
| ReloadFailed.

Section state.
Context {Hook : Type} `{!EqDecision Hook}.
Context {Glob GlobSet : Type} `{!GlobLib Glob GlobSet}.
Context {Mitm Hooks : Type}.
Context (url_host_parse : rstring → option rstring) (valid_hook : Hook → bool).
Context (mitm_state_new : bool → option Mitm).
Context (compile_mitm_hooks : NetworkProxyConfig (Hook := Hook) → option Hooks).
Context (env : Env).

#[local] Abbreviation Config := (NetworkProxyConfig (Hook := Hook)).
#[local] Abbreviation validate := (validate_policy_against_constraints url_host_parse valid_hook).

(** ** Compiled state *)

Record ConfigState := {
  config : Config;
  brokerage_created_default_allowlist : bool;
  allow_set : GlobSet;
  deny_set : GlobSet;
  mitm_state : option Mitm;
  hooks_by_host : Hooks;
  constraints : NetworkProxyConstraints;
  blocked : list BlockedRequest;
  blocked_total : N }.

(** [validate_unix_socket_allowlist_paths], from the index of the first path. *)
Fixpoint validate_unix_socket_paths (index : nat) (paths : list rstring) : res StateError () :=
  match paths with
  | [] => Ok ()
  | p :: paths' =>
      if is_absolute p && bool_decide (is_Some (from_absolute_path env p))
      then validate_unix_socket_paths (S index) paths'
      else Err (InvalidUnixSocket index)
  end.

(** The changes that the credential broker makes to a configuration, and whether it added
    an allow list. *)
Definition brokerage (c : NetworkProxyConstraints) (cfg : Config) : Config * bool :=
  let broker := if decide (max_enabled c = Some false) then false else credential_broker cfg in
  let created_proxy := broker && negb (enabled cfg) in
  let created_allowlist :=
    created_proxy && bool_decide (allowed_domains cfg = None) && bool_decide (managed_allowed_domains c = None) in
  let cfg := set_flags (enabled cfg || created_proxy) (mode cfg) broker cfg in
  (if created_allowlist then set_allowed_domains [str "*"] cfg else cfg, created_allowlist).

Definition build_config_state (cfg : Config) (c : NetworkProxyConstraints) : res StateError ConfigState :=
  let '(cfg, created_allowlist) := brokerage c cfg in
  let? _ := validate_unix_socket_paths 0 (allow_unix_sockets cfg) in
  let? _ := if credential_broker cfg && negb (mitm cfg) then Err BrokerNeedsMitm else Ok () in
  let allowed := default [] (allowed_domains cfg) in
  let denied := default [] (denied_domains cfg) in
  let? _ := res_map_err Violates
              (validate_non_global_wildcard_domain_patterns (str "network.denied_domains") denied) in
  let? deny_set := res_map_err Globs (compile_denylist_globset denied) in
  let? allow_set := res_map_err Globs (compile_allowlist_globset allowed) in
  let? hooks := ok_or InvalidHooks (compile_mitm_hooks cfg) in
  let? mitm_state := if mitm cfg
                     then let? m := ok_or MitmFailed (mitm_state_new (allow_upstream_proxy cfg)) in Ok (Some m)
                     else Ok None in
  Ok {| config := cfg; brokerage_created_default_allowlist := created_allowlist;
        allow_set := allow_set; deny_set := deny_set; mitm_state := mitm_state;
        hooks_by_host := hooks; constraints := c; blocked := []; blocked_total := 0 |}.

Definition with_config (cfg : Config) (st : ConfigState) : ConfigState :=
  {| config := cfg;
     brokerage_created_default_allowlist := brokerage_created_default_allowlist st;
     allow_set := allow_set st; deny_set := deny_set st; mitm_state := mitm_state st;
     hooks_by_host := hooks_by_host st; constraints := constraints st;
     blocked := blocked st; blocked_total := blocked_total st |}.

Definition with_log (l : list BlockedRequest) (total : N) (st : ConfigState) : ConfigState :=
  {| config := config st;
     brokerage_created_default_allowlist := brokerage_created_default_allowlist st;
     allow_set := allow_set st; deny_set := deny_set st; mitm_state := mitm_state st;
     hooks_by_host := hooks_by_host st; constraints := constraints st;
     blocked := l; blocked_total := total |}.

(** ** Decision on a host *)

(** The lookup of a name; [None] when it fails or takes too long. *)
Context (lookup : rstring → N → option (list IpAddr)).

Definition host_resolves_to_non_public_ip (host : rstring) (port : N) : bool :=
  match parse_ip host with
  | Some ip => is_non_public_ip ip
  | None =>
      match lookup host port with
      | Some addrs => existsb is_non_public_ip addrs
      | None => true
      end
  end.

Definition is_explicit_local_allowlisted (allowed : list rstring) (host : rstring) : bool :=
  existsb (λ p,
    let p := trim p in
    if bool_decide (p = str "*") || starts_with p (str "*.") || starts_with p (str "**.") then false
    else if contains_char p STAR || contains_char p QUESTION then false
    else
      let normalized := normalize_host p in
      bool_decide (normalized = host) ||
      match unscoped_ip_literal host with Some ip => bool_decide (normalized = ip) | None => false end)
    allowed.

(** A host that is a loopback name or an address that is not public. *)
Definition local_literal (host : rstring) : bool :=
  let host_no_scope := default host (unscoped_ip_literal host) in
  if is_loopback_host host then true
  else match parse_ip host_no_scope with Some ip => is_non_public_ip ip | None => false end.

(** [host_blocked], on the state it reads. *)
Definition host_decision (st : ConfigState) (host : rstring) (port : N) : HostBlockDecision :=
  match host_parse host with
  | None => Blocked NotAllowed
  | Some host =>
      let allowed := allowed_domains (config st) in
      if globset_matches_host_or_unscoped (deny_set st) host then Blocked Denied
      else
        let is_allowlisted := globset_matches_host_or_unscoped (allow_set st) host in
        let local :=
          if allow_local_binding (config st) then false
          else if local_literal host then negb (is_explicit_local_allowlisted (default [] allowed) host)
          else host_resolves_to_non_public_ip host port in
        if local then Blocked NotAllowedLocal
        else if bool_decide (allowed = None) || negb is_allowlisted then Blocked NotAllowed
        else Allowed
  end.

(** ** Critical sections *)

(** What an operation in progress holds between its two sections. *)
Inductive task :=
| Updating (previous : Config) (c : NetworkProxyConstraints) (new_state : ConfigState)
| SettingMode (m : NetworkMode) (c : NetworkProxyConstraints)
| Reloading (new_state : ConfigState).

Definition list_permission (target : DomainListKind) : NetworkDomainPermission :=
  match target with ListAllow => PermAllow | ListDeny => PermDeny end.
Definition list_entries (target : DomainListKind) (cfg : Config) : list rstring :=
  match target with
  | ListAllow => default [] (allowed_domains cfg)
  | ListDeny => default [] (denied_domains cfg)
  end.
Definition opposite_entries (target : DomainListKind) (cfg : Config) : list rstring :=
  match target with
  | ListAllow => default [] (denied_domains cfg)
  | ListDeny => default [] (allowed_domains cfg)
  end.

(** The first section of a round of [update_domain_list] for a normalised host, and what is
    computed from it; [None] when there is nothing to do. *)
Definition update_read (host : rstring) (target : DomainListKind) (st : ConfigState)
    : res StateError (option task) :=
  let previous := config st in
  let has := existsb (λ entry, bool_decide (normalize_host entry = host)) in
  if has (list_entries target previous) && negb (has (opposite_entries target previous)) then Ok None
  else
    let candidate := upsert_domain_permission host (list_permission target) normalize_host previous in
    let? _ := res_map_err Violates (validate candidate (constraints st)) in
    let? new_state := build_config_state candidate (constraints st) in
    Ok (Some (Updating previous (constraints st) (with_log (blocked st) (blocked_total st) new_state))).

(** The second section; [None] when the round starts again. *)
Definition update_write (previous : Config) (c : NetworkProxyConstraints) (new_state st : ConfigState)
    : option ConfigState :=
  if bool_decide (constraints st ≠ c) || bool_decide (config st ≠ previous) then None else Some new_state.

Definition with_mode (m : NetworkMode) (cfg : Config) : Config :=
  set_flags (enabled cfg) m (credential_broker cfg) cfg.

(** The sections of a round of [set_network_mode]. *)
Definition mode_read (m : NetworkMode) (st : ConfigState) : res StateError task :=
  let? _ := res_map_err Violates (validate (with_mode m (config st)) (constraints st)) in
  Ok (SettingMode m (constraints st)).

Definition mode_write (m : NetworkMode) (c : NetworkProxyConstraints) (st : ConfigState) : option ConfigState :=
  if bool_decide (constraints st ≠ c) then None else Some (with_config (with_mode m (config st)) st).

(** The first section of [reload_if_needed], for the state that was loaded. *)
Definition reload_read (loaded st : ConfigState) : task :=
  Reloading (with_log (blocked st) (blocked_total st) loaded).

(** The section of [force_reload]. *)
Definition force_reload_write (loaded st : ConfigState) : ConfigState :=
  with_log (blocked st) (blocked_total loaded) loaded.

(** The section of [replace_config_state]. *)
Definition replace_write (new_state st : ConfigState) : ConfigState :=
  with_log (blocked st) (blocked_total st) new_state.

(** The loop that drops the oldest entries. *)
Fixpoint pop_front_to (max : nat) (l : list BlockedRequest) : list BlockedRequest :=
  match l with
  | [] => []
  | e :: l' => if decide (max < length l) then pop_front_to max l' else l
  end.

(** The section of [record_blocked]. *)
Definition record_write (e : BlockedRequest) (st : ConfigState) : ConfigState :=
  let total := N.min U64_MAX (blocked_total st + 1) in
  with_log (pop_front_to MAX_BLOCKED_EVENTS (blocked st ++ [e])) total st.

(** The section of [drain_blocked]. *)
Definition drain_write (st : ConfigState) : ConfigState * list BlockedRequest :=
  (with_log [] (blocked_total st) st, blocked st).

(** ** Operations of one caller *)

(** [reload_if_needed] with the answer of [maybe_reload]. *)
Definition reload_if_needed (answer : res StateError (option ConfigState)) (st : ConfigState)
    : res StateError ConfigState :=
  let? loaded := answer in
  match loaded with
  | None => Ok st
  | Some loaded => Ok (with_log (blocked st) (blocked_total st) loaded)
  end.

Definition force_reload (answer : res StateError ConfigState) (st : ConfigState) : res StateError ConfigState :=
  let? loaded := answer in Ok (force_reload_write loaded st).

Definition replace_config_state (answer : res StateError (option ConfigState)) (new_state st : ConfigState)
    : res StateError ConfigState :=
  let? st := reload_if_needed answer st in Ok (replace_write new_state st).

Definition host_blocked (answer : res StateError (option ConfigState)) (host : rstring) (port : N)
    (st : ConfigState) : res StateError (ConfigState * HostBlockDecision) :=
  let? st := reload_if_needed answer st in Ok (st, host_decision st host port).

Definition record_blocked (answer : res StateError (option ConfigState)) (id : option rstring)
    (e : BlockedRequest) (st : ConfigState) : res StateError ConfigState :=
  let? st := reload_if_needed answer st in Ok (record_write (with_execution_id id e) st).

Definition blocked_snapshot (answer : res StateError (option ConfigState)) (st : ConfigState)
    : res StateError (ConfigState * list BlockedRequest) :=
  let? st := reload_if_needed answer st in Ok (st, blocked st).

Definition drain_blocked (answer : res StateError (option ConfigState)) (st : ConfigState)
    : res StateError (ConfigState * list BlockedRequest) :=
  let? st := reload_if_needed answer st in Ok (drain_write st).

Definition method_allowed (answer : res StateError (option ConfigState)) (m : rstring) (st : ConfigState)
    : res StateError (ConfigState * bool) :=
  let? st := reload_if_needed answer st in Ok (st, allows_method (mode (config st)) m).

(** The two loops, when no other operation comes between the sections of a round: the second
    section then finds what the first read, so one round is enough. *)
Definition set_network_mode (answer : res StateError (option ConfigState)) (m : NetworkMode)
    (st : ConfigState) : res StateError ConfigState :=
  let? st := reload_if_needed answer st in
  let? t := mode_read m st in
  match t with
  | SettingMode m c => Ok (default st (mode_write m c st))
  | _ => Ok st
  end.

Definition update_domain_list (answer : res StateError (option ConfigState)) (host : rstring)
    (target : DomainListKind) (st : ConfigState) : res StateError ConfigState :=
  let? host := ok_or InvalidHost (host_parse host) in
  let? st := reload_if_needed answer st in
  let? t := update_read host target st in
  match t with
  | Some (Updating previous c new_state) => Ok (default st (update_write previous c new_state st))
  | _ => Ok st
  end.

(** ** Interleavings *)

Record system := { shared : ConfigState; tasks : list task }.

(** A state as [NetworkProxySpec] makes it for the proxy and its reloader: built from a
    configuration that was validated. *)
Definition loaded_state (st : ConfigState) : Prop :=
  ∃ cfg c, validate cfg c = Ok () ∧ build_config_state cfg c = Ok st.

(** The second section of a task; [None] when it starts again. *)
Definition finish_task (t : task) (st : ConfigState) : option ConfigState :=
  match t with
  | Updating previous c new_state => update_write previous c new_state st
  | SettingMode m c => mode_write m c st
  | Reloading new_state => Some new_state
  end.

Inductive step : system → system → Prop :=
| UpdateStarts s input host target t :
    host_parse input = Some host → update_read host target (shared s) = Ok (Some t) →
    step s {| shared := shared s; tasks := t :: tasks s |}
| ModeStarts s m t :
    mode_read m (shared s) = Ok t → step s {| shared := shared s; tasks := t :: tasks s |}
| ReloadStarts s st :
    loaded_state st → step s {| shared := shared s; tasks := reload_read st (shared s) :: tasks s |}
| TaskWrites s before t after :
    tasks s = before ++ t :: after →
    step s {| shared := default (shared s) (finish_task t (shared s)); tasks := before ++ after |}
| ForcedReload s st :
    loaded_state st → step s {| shared := force_reload_write st (shared s); tasks := tasks s |}
| Replaced s st :
    loaded_state st → step s {| shared := replace_write st (shared s); tasks := tasks s |}
| Recorded s id e :
    step s {| shared := record_write (with_execution_id id e) (shared s); tasks := tasks s |}
| Drained s :
    step s {| shared := (drain_write (shared s)).1; tasks := tasks s |}.

Definition reachable (s : system) : Prop :=
  ∃ st, loaded_state st ∧ rtc step {| shared := st; tasks := [] |} s.

(** ** States that agree with their constraints *)

#[local] Abbreviation policy_ok := (policy_ok url_host_parse valid_hook).

Record state_ok (st : ConfigState) : Prop := {
  state_policy : policy_ok (config st) (constraints st);
  state_deny : compile_denylist_globset (default [] (denied_domains (config st))) = Ok (deny_set st);
  state_allow : compile_allowlist_globset (default [] (allowed_domains (config st))) = Ok (allow_set st);
  state_log : length (blocked st) ≤ MAX_BLOCKED_EVENTS }.

Definition task_ok (t : task) : Prop :=
  match t with
  | Updating _ _ new_state | Reloading new_state => state_ok new_state
  | SettingMode m c => mode_within m (max_mode c) = true
  end.

Definition system_ok (s : system) : Prop := state_ok (shared s) ∧ Forall task_ok (tasks s).

Lemma state_ok_log st l total :
  state_ok st → length l ≤ MAX_BLOCKED_EVENTS → state_ok (with_log l total st).
Proof. intros [] Hl. by constructor. Qed.

Lemma set_allowed_denies l cfg x :
  {| pattern := x; permission := PermDeny |} ∈ default [] (domains (set_allowed_domains l cfg : Config)) ↔
  {| pattern := x; permission := PermDeny |} ∈ default [] (domains cfg).
Proof. unfold set_allowed_domains. rewrite elem_of_set_domain_entries. naive_solver. Qed.

Lemma brokerage_denies c cfg x :
  {| pattern := x; permission := PermDeny |} ∈ default [] (domains (brokerage c cfg).1) ↔
  {| pattern := x; permission := PermDeny |} ∈ default [] (domains cfg).
Proof.
  unfold brokerage. cbn [fst]. match goal with |- context [if ?b then set_allowed_domains _ _ else _] =>
    destruct b end; [by rewrite set_allowed_denies|done].
Qed.

Lemma brokerage_policy cfg c : policy_ok cfg c → policy_ok (brokerage c cfg).1 c.
Proof.
  intros H. unfold brokerage. set (broker := if decide (max_enabled c = Some false) then false else credential_broker cfg).
  assert (policy_ok (set_flags (enabled cfg || broker && negb (enabled cfg)) (mode cfg) broker cfg) c) as Hf.
  { apply policy_ok_flags; [|apply H|done]. pose proof (ok_enabled _ _ _ _ H) as He. subst broker.
    unfold within in *. destruct (enabled cfg), (max_enabled c) as [[]|]; cbn in *; try done;
      by rewrite orb_true_r. }
  destruct (broker && negb (enabled cfg) && _ && _) eqn:E; [|done].
  apply andb_true_iff in E as [_ E%bool_decide_eq_true_1].
  apply policy_ok_domains; [done|intros x; apply (set_allowed_denies [str "*"])|done].
Qed.

Lemma build_ok cfg c st :
  policy_ok cfg c → build_config_state cfg c = Ok st → state_ok st ∧ constraints st = c ∧ config st = (brokerage c cfg).1.
Proof.
  intros Hp%brokerage_policy. unfold build_config_state. destruct (brokerage c cfg) as [cfg' b]. cbn in Hp.
  intros (_ & _ & (_ & _ & (_ & _ & (deny & Hd & (allow & Ha & (hooks & _ & (m & _ & [= <-])
    %res_bind_Ok)%res_bind_Ok)%res_bind_Ok)%res_bind_Ok)%res_bind_Ok)%res_bind_Ok)%res_bind_Ok.
  apply res_map_err_Ok in Hd, Ha. split; [|done]. constructor; cbn; try done. unfold MAX_BLOCKED_EVENTS. lia.
Qed.

Lemma loaded_ok st : loaded_state st → state_ok st.
Proof. intros (cfg & c & Hv%validate_ok & Hb). by apply (build_ok cfg c). Qed.

Lemma update_read_ok host target st t :
  state_ok st → update_read host target st = Ok (Some t) → task_ok t.
Proof.
  intros Hok. unfold update_read. destruct (_ && _); [done|].
  intros ([] & Hv%res_map_err_Ok%validate_ok & (ns & Hb & [= <-])%res_bind_Ok)%res_bind_Ok. cbn.
  apply state_ok_log; [by apply (build_ok _ _ _ Hv Hb)|apply Hok].
Qed.

Lemma mode_read_ok m st t : mode_read m st = Ok t → task_ok t.
Proof. intros ([] & Hv%res_map_err_Ok%validate_ok & [= <-])%res_bind_Ok. apply Hv. Qed.

Lemma finish_task_ok t st st' : task_ok t → state_ok st → finish_task t st = Some st' → state_ok st'.
Proof.
  intros Ht Hst. destruct t as [previous c ns|m c|ns]; cbn.
  - unfold update_write. destruct (_ || _); [done|]. by intros [= <-].
  - unfold mode_write. destruct (bool_decide (constraints st ≠ c)) eqn:E; [done|]. intros [= <-].
    apply bool_decide_eq_false, dec_stable in E. subst c. destruct Hst as [Hp Hd Ha Hl].
    constructor; cbn; try done. apply policy_ok_flags; [apply Hp|apply Ht|done].
  - by intros [= <-].
Qed.

Lemma pop_front_to_length max l : length (pop_front_to max l) ≤ max.
Proof. induction l as [|e l IH]; cbn [pop_front_to]; [cbn; lia|]. case_decide; [done|lia]. Qed.

Lemma step_ok s s' : step s s' → system_ok s → system_ok s'.
Proof.
  intros Hs [Hst Ht]. destruct Hs as [s input host target t _ Hr|s m t Hr|s st Hl|s l1 t l2 Hs|s st Hl|s st Hl|s id e|s];
    (split; [|first [done|by constructor; [|]|idtac]]); cbn in *; try done.
  - constructor; [by eapply update_read_ok|done].
  - constructor; [by eapply mode_read_ok|done].
  - constructor; [|done]. cbn. apply state_ok_log; [by apply loaded_ok|apply Hst].
  - rewrite Hs in Ht. apply Forall_app in Ht as [_ [Ht _]%Forall_cons].
    destruct (finish_task t (shared s)) as [st'|] eqn:E; [|done]. by eapply finish_task_ok.
  - rewrite Hs in Ht. apply Forall_app in Ht as [H1 [_ H2]%Forall_cons]. by apply Forall_app.
  - apply state_ok_log; [by apply loaded_ok|apply Hst].
  - apply state_ok_log; [by apply loaded_ok|apply Hst].
  - apply state_ok_log; [done|]. apply pop_front_to_length.
  - apply state_ok_log; [done|]. unfold MAX_BLOCKED_EVENTS. cbn. lia.
Qed.

Lemma reachable_ok s : reachable s → state_ok (shared s).
Proof.
  intros (st & Hl%loaded_ok & Hr). cut (system_ok s); [by intros [? _]|].
  assert (system_ok {| shared := st; tasks := [] |}) as H by (by split).
  induction Hr as [|s1 s2 s3 Hs _ IH]; [done|]. apply IH. by eapply step_ok.
Qed.

(** ** What the proxy lets through *)

Context `{!GlobLaws Glob GlobSet}.

(** A host, or the address before its scope, matches a pattern of a list. *)
Definition listed (patterns : list rstring) (h : rstring) : Prop :=
  ∃ p x, p ∈ patterns ∧ pattern_matches p x ∧ (x = h ∨ unscoped_ip_literal h = Some x).

Lemma compiled_listed patterns b set h :
  compile_globset_with_policy patterns b = Ok set →
  globset_matches_host_or_unscoped set h = true ↔ listed patterns h.
Proof.
  intros Hc. unfold globset_matches_host_or_unscoped, listed. rewrite orb_true_iff, (compiled_matches _ _ _ _ Hc).
  split.
  - intros [(p & ? & ?)|H]; [by exists p, h; auto|]. destruct (unscoped_ip_literal h) as [x|]; [|done].
    apply (compiled_matches _ _ _ _ Hc) in H as (p & ? & ?). exists p, x. auto.
  - intros (p & x & Hp & Hx & [->|Hu]); [left; eauto|right]. rewrite Hu. apply (compiled_matches _ _ _ _ Hc). eauto.
Qed.

(** Patterns of a list that another list has up to case. *)
Lemma listed_lower l l' h : lower_set l ⊆ lower_set l' → listed l h → listed l' h.
Proof.
  intros Hl (p & x & Hp & Hm & Hx).
  assert (to_ascii_lowercase p ∈ lower_set l') as Hp'.
  { apply Hl. unfold lower_set. apply elem_of_list_to_set, list_elem_of_fmap. by exists p. }
  apply elem_of_list_to_set, list_elem_of_fmap in Hp' as (q & Hq & Hq').
  exists q, x. split; [done|]. split; [|done]. unfold pattern_matches in *.
  by rewrite <-(normalize_pattern_lowercase q), <-Hq, normalize_pattern_lowercase.
Qed.

(** The checks on addresses that are not public, when local binding is off. *)
Definition address_ok (st : ConfigState) (h : rstring) (port : N) : Prop :=
  if local_literal h
  then is_explicit_local_allowlisted (default [] (allowed_domains (config st))) h = true
  else match parse_ip h with
       | Some ip => is_non_public_ip ip = false
       | None => ∃ addrs, lookup h port = Some addrs ∧ ∀ a, a ∈ addrs → is_non_public_ip a = false
       end.

Lemma resolves_public h port :
  host_resolves_to_non_public_ip h port = false ↔
  match parse_ip h with
  | Some ip => is_non_public_ip ip = false
  | None => ∃ addrs, lookup h port = Some addrs ∧ ∀ a, a ∈ addrs → is_non_public_ip a = false
  end.
Proof.
  unfold host_resolves_to_non_public_ip. destruct (parse_ip h); [done|].
  destruct (lookup h port) as [addrs|]; [|naive_solver].
  rewrite <-not_true_iff_false, existsb_exists. setoid_rewrite <-list_elem_of_In. split.
  - intros H. exists addrs. split; [done|]. intros a Ha. apply not_true_iff_false. naive_solver.
  - intros (? & [= <-] & H) (a & Ha & Hn). apply H in Ha. congruence.
Qed.

Lemma address_check st h port :
  (if local_literal h
   then negb (is_explicit_local_allowlisted (default [] (allowed_domains (config st))) h)
   else host_resolves_to_non_public_ip h port) = false ↔ address_ok st h port.
Proof. unfold address_ok. destruct (local_literal h); [apply negb_false_iff|apply resolves_public]. Qed.

Lemma decision_allowed st host port :
  state_ok st →
  host_decision st host port = Allowed ↔
  ∃ h, host_parse host = Some h ∧
    listed (default [] (allowed_domains (config st))) h ∧
    ¬ listed (default [] (denied_domains (config st))) h ∧
    (allow_local_binding (config st) = false → address_ok st h port).
Proof.
  intros [_ Hd Ha _]. unfold host_decision. destruct (host_parse host) as [h|]; [|naive_solver].
  transitivity (listed (default [] (allowed_domains (config st))) h ∧
    ¬ listed (default [] (denied_domains (config st))) h ∧
    (allow_local_binding (config st) = false → address_ok st h port)); [|naive_solver].
  assert (allowed_domains (config st) = None → ¬ listed (default [] (allowed_domains (config st))) h) as Hn.
  { intros ->. by intros (? & ? & ?%not_elem_of_nil & _). }
  rewrite <-address_check, <-(compiled_listed _ _ _ h Hd). rewrite <-(compiled_listed _ _ _ h Ha) in Hn |- *.
  destruct (globset_matches_host_or_unscoped (deny_set st) h); [naive_solver|].
  destruct (allow_local_binding (config st)); [|destruct (if local_literal h then _ else _); [naive_solver|]];
    (case_bool_decide; [|destruct (globset_matches_host_or_unscoped (allow_set st) h)]); cbn; naive_solver.
Qed.

(** C27: in every reachable state, however the updates, reloads and records of concurrent
    callers interleave, a host is let through exactly when it matches a pattern of the
    current allow list and none of the deny list, and, unless local binding is on, it is
    either a local name or address that the allow list spells out or resolves to public
    addresses only. *)
Theorem host_allowed_exact s host port :
  reachable s →
  host_decision (shared s) host port = Allowed ↔
  ∃ h, host_parse host = Some h ∧
    listed (default [] (allowed_domains (config (shared s)))) h ∧
    ¬ listed (default [] (denied_domains (config (shared s)))) h ∧
    (allow_local_binding (config (shared s)) = false → address_ok (shared s) h port).
Proof. intros Hr. by apply decision_allowed, reachable_ok. Qed.

(** C26: managed denials cannot be lifted.  In every reachable state, a host that matches a
    pattern of the managed deny list in force is blocked as denied. *)
Theorem managed_denials_hold s managed host h port :
  reachable s → managed_denied_domains (constraints (shared s)) = Some managed →
  host_parse host = Some h → listed managed h →
  host_decision (shared s) host port = Blocked Denied.
Proof.
  intros [Hp Hd _ _]%reachable_ok Hm Hh Hl. unfold host_decision. rewrite Hh.
  apply (ok_denied _ _ _ _ Hp) in Hm as [_ Hv].
  rewrite (proj2 (compiled_listed _ _ _ h Hd)); [done|]. eapply listed_lower; [|exact Hl].
  unfold validate_denied in Hv. destruct (denylist_expansion_enabled _) as [[]|];
    apply bool_decide_eq_true_1 in Hv; [done|by rewrite Hv|done].
Qed.

(** A fixed allow list is a ceiling.  In every reachable state whose constraints fix the
    allow list, a host that is let through matches a pattern of the managed allow list. *)
Theorem fixed_allowlist_is_ceiling s managed host port :
  reachable s → managed_allowed_domains (constraints (shared s)) = Some managed →
  allowlist_expansion_enabled (constraints (shared s)) = Some false →
  host_decision (shared s) host port = Allowed →
  ∃ h, host_parse host = Some h ∧ listed managed h.
Proof.
  intros Hok%reachable_ok Hm He (h & Hh & Hl & _)%decision_allowed; [|done]. exists h. split; [done|].
  apply (ok_allowed _ _ _ _ (state_policy _ Hok)) in Hm as [_ Hv]. rewrite He in Hv. cbn in Hv.
  apply bool_decide_eq_true_1 in Hv. eapply listed_lower; [|exact Hl]. rewrite Hv. set_solver.
Qed.

(** ** Updates *)

(** Alone, one round of an update is enough: its second section finds what the first read. *)
Lemma update_round host target st t :
  update_read host target st = Ok (Some t) →
  ∃ new_state, t = Updating (config st) (constraints st) new_state ∧
    update_write (config st) (constraints st) new_state st = Some new_state.
Proof.
  unfold update_read. destruct (_ && _); [done|].
  intros ([] & _ & (ns & Hb & [= <-])%res_bind_Ok)%res_bind_Ok. eexists. split; [done|].
  unfold update_write. by rewrite !bool_decide_eq_false_2 by (intros H; by apply H).
Qed.

Lemma update_read_denies host target st previous c new_state x :
  update_read host target st = Ok (Some (Updating previous c new_state)) →
  {| pattern := x; permission := PermDeny |} ∈ default [] (domains (config new_state)) ↔
  {| pattern := x; permission := PermDeny |} ∈
    default [] (domains (upsert_domain_permission host (list_permission target) normalize_host (config st))).
Proof.
  unfold update_read. destruct (_ && _); [done|].
  intros ([] & Hv%res_map_err_Ok%validate_ok & (ns & Hb & [= <- <- <-])%res_bind_Ok)%res_bind_Ok.
  destruct (build_ok _ _ _ Hv Hb) as (_ & _ & Hc). cbn. rewrite Hc. apply brokerage_denies.
Qed.

Lemma mode_round m st t : mode_read m st = Ok t →
  t = SettingMode m (constraints st) ∧
  mode_write m (constraints st) st = Some (with_config (with_mode m (config st)) st).
Proof.
  intros (? & _ & [= <-])%res_bind_Ok. split; [done|]. unfold mode_write.
  by rewrite bool_decide_eq_false_2 by (intros H; by apply H).
Qed.

Lemma reload_ok answer st st' :
  state_ok st → (∀ loaded, answer = Ok (Some loaded) → loaded_state loaded) →
  reload_if_needed answer st = Ok st' → state_ok st'.
Proof.
  intros Hst Ha ([loaded|] & Hl & [= <-])%res_bind_Ok; [|done].
  apply state_ok_log; [by apply loaded_ok, Ha|apply Hst].
Qed.

Lemma denied_entry st e h :
  state_ok st → e ∈ default [] (denied_domains (config st)) → normalize_host e = h → plain_host h →
  listed (default [] (denied_domains (config st))) h.
Proof.
  intros [_ Hd _ _] He Hn Hp. pose proof (entry_of_plain_host _ _ Hn Hp) as Hx.
  assert (h ∈ expand_domain_pattern (normalize_pattern e)) as Hin by (rewrite Hx; by left).
  destruct (compiled_builds _ _ _ _ _ Hd He Hin) as [g Hg]. exists e, h. split; [done|]. split; [|by left].
  exists h, g. split; [done|]. split; [done|]. apply literal_matches; [apply Hp|done].
Qed.

Lemma update_denies host st st' :
  state_ok st → plain_host host →
  (let? t := update_read host ListDeny st in
   match t with
   | Some (Updating previous c new_state) => Ok (default st (update_write previous c new_state st))
   | _ => Ok st
   end) = Ok st' →
  state_ok st' ∧ ∃ e, e ∈ default [] (denied_domains (config st')) ∧ normalize_host e = host.
Proof.
  intros Hok Hp ([t|] & Hr & H)%res_bind_Ok.
  - pose proof (update_read_ok _ _ _ _ Hok Hr) as Ht. destruct (update_round _ _ _ _ Hr) as (ns & -> & Hw).
    rewrite Hw in H. injection H as <-. split; [done|]. exists host. split; [|apply Hp].
    apply elem_of_denied, (update_read_denies _ _ _ _ _ _ _ Hr), elem_of_upsert. by left.
  - injection H as <-. split; [done|]. unfold update_read in Hr. destruct (existsb _ (list_entries _ _)) eqn:E.
    + apply existsb_exists in E as (e & He & Hn%bool_decide_eq_true_1). exists e. by rewrite list_elem_of_In.
    + cbn in Hr. apply res_bind_Ok in Hr as (? & _ & (? & _ & ?)%res_bind_Ok). done.
Qed.

(** An added denial takes effect.  After [add_denied_domain] of a host without special
    characters returns, every request that names this host, in whatever form normalises to
    it, is blocked as denied, whatever the lists were before. *)
Theorem denied_domain_blocks answer input host s st' request port :
  reachable s → (∀ loaded, answer = Ok (Some loaded) → loaded_state loaded) →
  host_parse input = Some host → plain_host host → host_parse request = Some host →
  update_domain_list answer input ListDeny (shared s) = Ok st' →
  host_decision st' request port = Blocked Denied.
Proof.
  intros Hok%reachable_ok Ha Hi Hp Hr. unfold update_domain_list. rewrite Hi. cbn [ok_or res_bind].
  intros (st1 & Hl & (Hok' & e & He & Hn)%update_denies)%res_bind_Ok; [|by eapply reload_ok|done].
  unfold host_decision. rewrite Hr. rewrite (proj2 (compiled_listed _ _ _ host (state_deny _ Hok'))); [done|].
  by eapply denied_entry.
Qed.

(** ** Lost records *)

(** A request that is recorded between the sections of an update is not in the log that the
    update writes, and is not counted. *)
Lemma update_loses_record host target st t e :
  update_read host target st = Ok (Some t) →
  ∃ st', finish_task t (record_write e st) = Some st' ∧
    blocked st' = blocked st ∧ blocked_total st' = blocked_total st.
Proof.
  unfold update_read. destruct (_ && _); [done|].
  intros ([] & _ & (ns & Hb & [= <-])%res_bind_Ok)%res_bind_Ok.
  exists (with_log (blocked st) (blocked_total st) ns). split; [|done].
  cbn. unfold update_write. by rewrite !bool_decide_eq_false_2 by (intros H; by apply H).
Qed.

(** The same for a reload that is in progress. *)
Lemma reload_loses_record loaded st e :
  ∃ st', finish_task (reload_read loaded st) (record_write e st) = Some st' ∧
    blocked st' = blocked st ∧ blocked_total st' = blocked_total st.
Proof. by eexists. Qed.

(** A forced reload keeps the log and forgets how many requests were blocked. *)
Lemma force_reload_forgets_total loaded st :
  loaded_state loaded →
  blocked (force_reload_write loaded st) = blocked st ∧ blocked_total (force_reload_write loaded st) = 0%N.
Proof.
  intros (cfg & c & _ & Hb). split; [done|]. unfold build_config_state in Hb.
  destruct (brokerage c cfg) as [cfg' b].
  repeat match goal with H : res_bind _ _ = Ok _ |- _ => apply res_bind_Ok in H as (? & _ & H) end.
  by injection Hb as <-.
Qed.

End state.

(** ** Examples *)

Module Example.

(** Globs with the two wildcards, without regard to case. *)
Fixpoint wild (p h : rstring) : bool :=
  match p with
  | [] => bool_decide (h = [])
  | c :: p' =>
      if (c =? STAR)%N
      then (fix any (h : rstring) : bool :=
              wild p' h || match h with [] => false | _ :: h' => any h' end) h
      else match h with
           | [] => false
           | d :: h' =>
               ((c =? QUESTION)%N || (char_to_ascii_lowercase c =? char_to_ascii_lowercase d)%N) && wild p' h'
           end
  end.

#[global] Instance wild_globs : GlobLib rstring (list rstring) := {|
  build_glob := Some; build_set := Some;
  set_is_match set h := existsb (λ g, wild g h) set;
  glob_is_match := wild |}.

#[global] Instance wild_laws : GlobLaws rstring (list rstring).
Proof.
  constructor.
  - intros globs set h [= <-]. cbn. rewrite existsb_exists. by setoid_rewrite <-list_elem_of_In.
  - intros p Hp g [= <-]. cbn. induction Hp as [|c p Hc _ IH]; [done|]. cbn.
    destruct (N.eqb_spec c STAR) as [->|_]; [by destruct Hc; apply (bool_decide_eq_true_1 _)|].
    by rewrite N.eqb_refl, orb_true_r.
Qed.

Lemma wild_plain_text p h :
  Forall (λ c, c ∉ glob_special) p → wild p h = true ↔ to_ascii_lowercase h = to_ascii_lowercase p.
Proof.
  intros Hp. revert h. induction Hp as [|c p Hc _ IH]; intros h.
  { cbn. rewrite bool_decide_eq_true. destruct h; [done|split; done]. }
  assert ((c =? STAR)%N = false ∧ (c =? QUESTION)%N = false) as [Hs Hq].
  { split; apply N.eqb_neq; intros ->; apply Hc; by apply (bool_decide_eq_true_1 _). }
  cbn [wild]. rewrite Hs, Hq. destruct h as [|d h]; [by split|].
  change (to_ascii_lowercase (d :: h)) with (char_to_ascii_lowercase d :: to_ascii_lowercase h).
  change (to_ascii_lowercase (c :: p)) with (char_to_ascii_lowercase c :: to_ascii_lowercase p).
  rewrite orb_false_l, andb_true_iff, N.eqb_eq, IH. split; [by intros [-> ->]|by intros [= -> ->]].
Qed.

Lemma wild_star p h : wild (STAR :: p) h = true ↔ ∃ x y, h = x ++ y ∧ wild p y = true.
Proof.
  cbn [wild]. rewrite N.eqb_refl. induction h as [|d h IH]; rewrite orb_true_iff.
  - split; [intros [?|?]; [by exists [], []|done]|]. intros (x & y & Hxy & Hy). symmetry in Hxy.
    apply app_eq_nil in Hxy as [-> ->]. by left.
  - rewrite IH. split.
    + intros [?|(x & y & -> & ?)]; [by exists [], (d :: h)|by exists (d :: x), y].
    + intros ([|d' x] & y & Hxy & Hy); [left; by rewrite Hxy|right]. injection Hxy as <- ->. by exists x, y.
Qed.

#[global] Instance wild_domain_laws : DomainGlobLaws rstring (list rstring).
Proof.
  split; [apply _| |].
  - intros p g h Hp [= <-]. by apply wild_plain_text.
  - intros p g h Hp [= <-]. change (wild (QUESTION :: STAR :: DOT :: p) h = true ↔ below (to_ascii_lowercase h) (to_ascii_lowercase p)).
    assert (Forall (λ c, c ∉ glob_special) (DOT :: p)) as Hdot.
    { constructor; [|done]. by apply (bool_decide_unpack _). }
    destruct h as [|d h]; [split; [done|]; intros (x & _ & Hx); symmetry in Hx; by apply app_eq_nil in Hx as [_ ?]|].
    assert (wild (QUESTION :: STAR :: DOT :: p) (d :: h) = wild (STAR :: DOT :: p) h) as -> by done.
    rewrite wild_star. split.
    + intros (x & y & -> & Hy%wild_plain_text); [|done]. exists (to_ascii_lowercase (d :: x)). split; [done|].
      rewrite app_comm_cons, lowercase_app, Hy. done.
    + intros (x & Hx & Heq). destruct x as [|c x]; [done|]. injection Heq as _ Heq.
      apply map_eq_app in Heq as (h1 & h2 & -> & _ & H2). exists h1, h2. split; [done|]. by apply wild_plain_text.
Qed.

Definition no_hooks : () → bool := λ _, false.
Definition new_mitm : bool → option () := λ _, Some ().
Definition hooks : NetworkProxyConfig (Hook := ()) → option () := λ _, Some ().
Definition hosts : rstring → option rstring := Some.

(** Every name resolves to one public address. *)
Definition public_dns : rstring → N → option (list IpAddr) := λ _ _, Some [V4 (ipv4 93 184 216 34)].

Definition cfg : NetworkProxyConfig (Hook := ()) := {|
  enabled := true; proxy_url := str "http://127.0.0.1:3128"; enable_socks5 := true;
  socks_url := str "http://127.0.0.1:8081"; enable_socks5_udp := true; allow_upstream_proxy := true;
  dangerously_allow_non_loopback_proxy := false; dangerously_allow_all_unix_sockets := false;
  mode := Full;
  domains := Some [ {| pattern := str "**.example.com"; permission := PermAllow |};
                    {| pattern := str "Evil.example.com"; permission := PermDeny |} ];
  unix_sockets := None; allow_local_binding := false; mitm := false; credential_broker := false;
  credential_broker_openai_host := None; dangerously_allow_plaintext_credential_injection := false;
  mitm_hooks := [] |}.

Definition managed : NetworkProxyConstraints := {|
  max_enabled := None; max_mode := None; max_upstream_proxy := None; max_non_loopback_proxy := None;
  max_all_unix_sockets := None; managed_allowed_domains := Some [str "**.example.com"];
  allowlist_expansion_enabled := Some false; managed_denied_domains := Some [str "evil.example.com"];
  denylist_expansion_enabled := None; managed_unix_sockets := None; max_local_binding := None |}.

Definition env : Env := {| home_dir := None; current_dir := None |}.

Definition start : ConfigState (Hook := ()) (GlobSet := list rstring) (Mitm := ()) (Hooks := ()) :=
  {| config := cfg; brokerage_created_default_allowlist := false;
     allow_set := [str "example.com"; str "?*.example.com"]; deny_set := [str "evil.example.com"];
     mitm_state := None; hooks_by_host := (); constraints := managed; blocked := []; blocked_total := 0 |}.

#[local] Abbreviation loaded := (loaded_state hosts no_hooks new_mitm hooks env).
#[local] Abbreviation reach := (reachable hosts no_hooks new_mitm hooks env).

Lemma start_loaded : loaded start.
Proof. exists cfg, managed. split; by vm_compute. Qed.

Definition request : BlockedRequest := {|
  blocked_host := str "evil.example.com"; blocked_reason := str "denied"; client := None; method := None;
  blocked_mode := None; protocol := str "http"; execution_id := None; decision := None; source := None;
  blocked_port := Some 80%N; timestamp := 0 |}.

(** A state in which a caller has set the mode, and a request was recorded while it did. *)
Definition busy : system (Hook := ()) (GlobSet := list rstring) (Mitm := ()) (Hooks := ()) :=
  {| shared := with_config (with_mode Limited cfg) (record_write (with_execution_id None request) start);
     tasks := [] |}.

Lemma busy_reachable : reach busy.
Proof.
  exists start. split; [apply start_loaded|].
  eapply rtc_l; [apply (ModeStarts _ _ _ _ _ _ Limited (SettingMode Limited managed)); by vm_compute|].
  eapply rtc_l; [apply (Recorded _ _ _ _ _ _ None request)|].
  eapply rtc_l; [by apply (TaskWrites _ _ _ _ _ _ [] (SettingMode Limited managed) [])|].
  apply rtc_refl.
Qed.

(** Names are parsed to lower case. *)
Definition lower_hosts : rstring → option rstring := λ h, Some (to_ascii_lowercase h).

Lemma allows_exact_witness :
  allows (parse_for_constraints lower_hosts (str "*.Example.com"))
    (parse_for_constraints lower_hosts (str "**.api.example.com.")) = true ∧
  (allows (parse_for_constraints lower_hosts (str "*.Example.com"))
    (parse_for_constraints lower_hosts (str "**.api.example.com.")) = true ↔
   ∀ h, set_is_match [str "api.example.com"; str "?*.api.example.com"] h = true →
     set_is_match [str "?*.example.com"] h = true).
Proof.
  split; [by vm_compute|].
  apply (allows_exact lower_hosts (str "*.Example.com") (str "**.api.example.com.")).
  - unfold plain_domain_pattern. split_and!; [by vm_compute..|]. apply (bool_decide_unpack _). by vm_compute.
  - unfold plain_domain_pattern. split_and!; [by vm_compute..|]. apply (bool_decide_unpack _). by vm_compute.
  - by vm_compute.
  - by vm_compute.
Defined.

Lemma host_allowed_exact_witness :
  ∃ h, host_parse (str "API.example.com:443") = Some h ∧
    listed (default [] (allowed_domains (config (shared busy)))) h ∧
    ¬ listed (default [] (denied_domains (config (shared busy)))) h ∧
    (allow_local_binding (config (shared busy)) = false → address_ok public_dns (shared busy) h 443).
Proof.
  apply (host_allowed_exact hosts no_hooks new_mitm hooks env public_dns busy); [apply busy_reachable|].
  by vm_compute.
Defined.

Lemma managed_denials_hold_witness :
  host_decision public_dns (shared busy) (str "EVIL.example.com.") 80 = Blocked Denied.
Proof.
  apply (managed_denials_hold hosts no_hooks new_mitm hooks env public_dns busy [str "evil.example.com"] _
    (str "evil.example.com")); [apply busy_reachable|by vm_compute|by vm_compute|].
  exists (str "evil.example.com"), (str "evil.example.com"). split; [by left|]. split; [|by left].
  exists (str "evil.example.com"), (str "evil.example.com"). split; [|by vm_compute].
  apply (bool_decide_eq_true_1 _). by vm_compute.
Defined.

Lemma fixed_allowlist_is_ceiling_witness :
  ∃ h, host_parse (str "api.example.com") = Some h ∧ listed [str "**.example.com"] h.
Proof.
  apply (fixed_allowlist_is_ceiling hosts no_hooks new_mitm hooks env public_dns busy [str "**.example.com"] _ 443);
    [apply busy_reachable|by vm_compute..].
Defined.

Lemma denied_domain_blocks_witness :
  ∃ st', update_domain_list hosts no_hooks new_mitm hooks env (Ok None) (str "Other.example.com:80") ListDeny
           (shared busy) = Ok st' ∧
         host_decision public_dns st' (str "other.example.com") 80 = Blocked Denied.
Proof.
  destruct (update_domain_list hosts no_hooks new_mitm hooks env (Ok None) (str "Other.example.com:80") ListDeny
           (shared busy)) as [st'|?|] eqn:E; [|by vm_compute in E|by vm_compute in E].
  exists st'. split; [done|].
  apply (denied_domain_blocks hosts no_hooks new_mitm hooks env public_dns (Ok None) (str "Other.example.com:80")
    (str "other.example.com") busy); [apply busy_reachable|done|by vm_compute| |by vm_compute|done].
  apply (bool_decide_eq_true_1 _). by vm_compute.
Defined.

End Example.
