(* ===== verification/ConfigToml.v ===== *)
(** * Merging configuration values ([config/src/merge.rs], [key_aliases.rs], [overrides.rs])

    TOML values, the aliases of keys, the merge of an overlay into a base and the overrides
    of the command line.  A table is the list of its entries in order of insertion, as the
    crate keeps it with [preserve_order]: an insertion under an existing key replaces the
    value in place and a removal keeps the order of the rest.  A float is its bits and a date
    its text; nothing here looks at them.  [str::to_lowercase] is an argument; the branch for
    Windows is left out. *)

From S2P Require Import Prelude RustStr IpAddr NetworkPolicy.

Local Open Scope nat_scope.

(** ** Tables *)

Section table.
Context {V : Type}.
Implicit Types (t : list (rstring * V)).

Fixpoint tget (k : rstring) t : option V :=
  match t with
  | [] => None
  | (k', v) :: t' => if decide (k' = k) then Some v else tget k t'
  end.

Fixpoint tinsert (k : rstring) (v : V) t : list (rstring * V) :=
  match t with
  | [] => [(k, v)]
  | (k', v') :: t' => if decide (k' = k) then (k', v) :: t' else (k', v') :: tinsert k v t'
  end.

Definition tremove (k : rstring) t : list (rstring * V) := filter (λ e, e.1 ≠ k) t.

(** The loops that build a table from entries, later ones replacing earlier ones. *)
Definition tcollect (l : list (rstring * V)) : list (rstring * V) :=
  foldl (λ t e, tinsert e.1 e.2 t) [] l.
End table.

(** ** Values *)

Inductive Toml :=
| TString (s : rstring)
| TInteger (n : Z)
| TFloat (bits : N)
| TBoolean (b : bool)
| TDatetime (text : rstring)
| TArray (items : list Toml)
| TTable (entries : list (rstring * Toml)).

Definition is_table (v : Toml) : bool := match v with TTable _ => true | _ => false end.

(** ** Aliases of keys *)

Record ConfigKeyAlias := { table_path : list rstring; legacy_key : rstring; canonical_key : rstring }.

Definition CONFIG_KEY_ALIASES : list ConfigKeyAlias :=
  [ {| table_path := [str "memories"]; legacy_key := str "no_memories_if_mcp_or_web_search";
       canonical_key := str "disable_on_external_context" |};
    {| table_path := [str "agents"]; legacy_key := str "max_threads";
       canonical_key := str "max_concurrent_threads_per_session" |} ].

(** One round of the loop. *)
Definition apply_alias {V} (path : list rstring) (table : list (rstring * V)) (alias : ConfigKeyAlias)
    : list (rstring * V) :=
  if decide (path = table_path alias) then
    match tget (legacy_key alias) table with
    | Some value =>
        let table := tremove (legacy_key alias) table in
        match tget (canonical_key alias) table with
        | Some _ => table
        | None => tinsert (canonical_key alias) value table
        end
    | None => table
    end
  else table.

Definition normalize_key_aliases {V} (path : list rstring) (table : list (rstring * V))
    : list (rstring * V) :=
  foldl (apply_alias path) table CONFIG_KEY_ALIASES.

Fixpoint normalized_with_key_aliases (value : Toml) (path : list rstring) : Toml :=
  match value with
  | TTable table =>
      let normalized := tcollect (map (λ '(key, child),
        (key, normalized_with_key_aliases child (path ++ [key]))) table) in
      TTable (normalize_key_aliases path normalized)
  | TArray items => TArray (map (λ item, normalized_with_key_aliases item path) items)
  | _ => value
  end.

(** ** Places with rules of their own *)

Inductive ShellEnvironmentPolicyFilterRepresentation := Filters | Legacy.

Definition SHELL_ENVIRONMENT_POLICY : rstring := str "shell_environment_policy".

Definition from_policy (policy : Toml) : option ShellEnvironmentPolicyFilterRepresentation :=
  match policy with
  | TTable policy =>
      if decide (is_Some (tget (str "filters") policy)) then Some Filters
      else if decide (is_Some (tget (str "exclude") policy) ∨ is_Some (tget (str "include_only") policy))
      then Some Legacy
      else None
  | _ => None
  end.

Definition from_path (path : list rstring) : option ShellEnvironmentPolicyFilterRepresentation :=
  match path with
  | policy :: field :: _ =>
      if decide (policy = SHELL_ENVIRONMENT_POLICY) then
        if decide (field = str "filters") then Some Filters
        else if decide (field = str "exclude" ∨ field = str "include_only") then Some Legacy
        else None
      else None
  | _ => None
  end.

Definition from_edit (path : list rstring) (value : Toml) : option ShellEnvironmentPolicyFilterRepresentation :=
  if decide (path = [SHELL_ENVIRONMENT_POLICY]) then from_policy value else from_path path.

Definition displaced_fields (r : ShellEnvironmentPolicyFilterRepresentation) : list rstring :=
  match r with
  | Filters => [str "exclude"; str "include_only"]
  | Legacy => [str "filters"]
  end.

Definition is_structured_feature_path (path : list rstring) : bool :=
  let structured features feature :=
    bool_decide (features = str "features") &&
    bool_decide (feature ∈ [str "multi_agent_v2"; str "network_proxy"; str "sleep_tool"]) in
  match path with
  | [profiles; _; features; feature] =>
      if decide (profiles = str "profiles") then structured features feature else false
  | [features; feature] => structured features feature
  | _ => false
  end.

Definition is_shell_environment_filters_path (path : list rstring) : bool :=
  bool_decide (path = [SHELL_ENVIRONMENT_POLICY; str "filters"]).

Definition replace_shell_environment_policy_filter_representation (base overlay : Toml)
    (path : list rstring) : Toml :=
  if decide (path = [SHELL_ENVIRONMENT_POLICY]) then
    match from_policy overlay, base with
    | Some r, TTable base => TTable (foldl (λ t field, tremove field t) base (displaced_fields r))
    | _, _ => base
    end
  else base.

Definition is_network_domains_path (path : list rstring) : bool :=
  match path with
  | [permissions; _; network; domains] =>
      bool_decide (permissions = str "permissions") && bool_decide (network = str "network") &&
      bool_decide (domains = str "domains")
  | [application; network; domains] =>
      bool_decide (application = str "application") && bool_decide (network = str "network") &&
      bool_decide (domains = str "domains")
  | _ => false
  end.

Definition normalize_network_domain_keys {V} (table : list (rstring * V)) : list (rstring * V) :=
  tcollect (map (λ e, (normalize_host e.1, e.2)) table).

(** ** Merge *)

Section merge.
Context (to_lowercase : rstring → rstring).

Definition normalize_case_insensitive_keys {V} (table : list (rstring * V)) : list (rstring * V) :=
  tcollect (map (λ e, (to_lowercase e.1, e.2)) table).

Definition shell_environment_filter_entry (root : Toml) (path : list rstring) : option (rstring * Toml) :=
  match path with
  | [policy; filters; pattern] =>
      if decide (policy ≠ SHELL_ENVIRONMENT_POLICY ∨ filters ≠ str "filters") then None
      else
        let get k v := match v with TTable t => tget k t | _ => None end in
        policy ← get policy root;
        filters ← get filters policy;
        match filters with
        | TTable t => snd <$> list_find (λ e, to_lowercase e.1 = to_lowercase pattern) t
        | _ => None
        end
  | _ => None
  end.

(** The keys of a table at a path, as the merge normalises those of both sides. *)
Definition normalize_keys {V} (path : list rstring) (table : list (rstring * V)) : list (rstring * V) :=
  let table := normalize_key_aliases path table in
  let table := if is_network_domains_path path then normalize_network_domain_keys table else table in
  if is_shell_environment_filters_path path then normalize_case_insensitive_keys table else table.

(** [merge_toml_values_at_path].  The loop goes over the entries of the overlay with the
    functions that merge them, since their keys are normalised first. *)
Fixpoint merge_toml_values_at_path (overlay base : Toml) (path : list rstring) {struct overlay} : Toml :=
  let base := replace_shell_environment_policy_filter_representation base overlay path in
  let merge_tables base :=
    match overlay, base with
    | TTable overlay_table, TTable base_table =>
        let base_table := normalize_keys path base_table in
        let overlay_table := normalize_keys path
          (map (λ '(key, value), (key, (value, merge_toml_values_at_path value))) overlay_table) in
        TTable (foldl (λ table '(key, (value, merge_value)),
            let path := path ++ [key] in
            match tget key table with
            | Some existing => tinsert key (merge_value existing path) table
            | None => tinsert key (normalized_with_key_aliases value path) table
            end) base_table overlay_table)
    | _, _ => normalized_with_key_aliases overlay path
    end in
  if is_structured_feature_path path then
    match base, overlay with
    | TBoolean enabled, TTable _ => merge_tables (TTable [(str "enabled", TBoolean enabled)])
    | TTable table, TBoolean enabled => TTable (tinsert (str "enabled") (TBoolean enabled) table)
    | _, _ => merge_tables base
    end
  else merge_tables base.

Definition merge_toml_values (base overlay : Toml) : Toml := merge_toml_values_at_path overlay base [].

(** ** Overrides *)

Definition default_empty_table : Toml := TTable [].

(** What the last segment of an override does to the table that holds it. *)
Definition override_last (traversed : list rstring) (segment : rstring) (value : Toml)
    (table : list (rstring * Toml)) : list (rstring * Toml) :=
  if is_structured_feature_path traversed then
    match tget segment table, value with
    | Some (TTable feature), TBoolean enabled =>
        tinsert segment (TTable (tinsert (str "enabled") (TBoolean enabled) feature)) table
    | Some (TBoolean enabled), TTable _ =>
        tinsert segment (merge_toml_values (TTable [(str "enabled", TBoolean enabled)]) value) table
    | Some (TTable feature), TTable _ => tinsert segment (merge_toml_values (TTable feature) value) table
    | _, _ => tinsert segment value table
    end
  else tinsert segment value table.

(** The loop of [apply_toml_override] from the value it has come to. *)
Fixpoint apply_override_segments (segments traversed : list rstring) (value current : Toml) : Toml :=
  match segments with
  | [] => current
  | segment :: segments' =>
      let traversed := traversed ++ [segment] in
      match segments' with
      | [] =>
          match current with
          | TTable table => TTable (override_last traversed segment value table)
          | _ => TTable [(segment, value)]
          end
      | _ =>
          match current with
          | TTable table =>
              let next := default (TTable []) (tget segment table) in
              let next :=
                match next with
                | TBoolean enabled =>
                    if is_structured_feature_path traversed
                    then TTable [(str "enabled", TBoolean enabled)] else next
                | _ => next
                end in
              TTable (tinsert segment (apply_override_segments segments' traversed value next) table)
          | _ => TTable [(segment, apply_override_segments segments' traversed value (TTable []))]
          end
      end
  end.

Definition apply_toml_override (root : Toml) (path : rstring) (value : Toml) : Toml :=
  apply_override_segments (split_char DOT path) [] value root.

Definition build_cli_overrides_layer (cli_overrides : list (rstring * Toml)) : Toml :=
  foldl (λ root '(path, value), apply_toml_override root path value) default_empty_table cli_overrides.

End merge.

#[global] Arguments normalize_key_aliases : simpl never.
#[global] Arguments normalize_keys : simpl never.
#[global] Arguments tcollect : simpl never.

(** ** Lemmas on tables *)

Section table_lemmas.
Context {V : Type}.
Implicit Types (t l : list (rstring * V)).

Lemma tget_tinsert k v t k' : tget k' (tinsert k v t) = if decide (k = k') then Some v else tget k' t.
Proof.
  induction t as [|[k1 v1] t IH]; cbn; [done|]. destruct (decide (k1 = k)) as [->|Hne]; cbn.
  - by destruct (decide (k = k')).
  - destruct (decide (k1 = k')) as [->|]; [by rewrite decide_False|apply IH].
Qed.

Lemma tget_tremove k t k' : tget k' (tremove k t) = if decide (k = k') then None else tget k' t.
Proof.
  unfold tremove. induction t as [|[k1 v1] t IH]; [by case_decide|].
  destruct (decide (k1 = k)) as [->|Hne].
  - rewrite filter_cons_False by (cbn; tauto). cbn. rewrite IH. by destruct (decide (k = k')).
  - rewrite filter_cons_True by done. cbn. rewrite IH. destruct (decide (k1 = k')) as [->|]; [by rewrite decide_False|done].
Qed.

Lemma tget_None k t : tget k t = None ↔ k ∉ t.*1.
Proof.
  induction t as [|[k1 v1] t IH]; cbn; [by split; [intros _ ?%not_elem_of_nil|]|].
  rewrite not_elem_of_cons, <-IH. destruct (decide (k1 = k)); naive_solver.
Qed.

Lemma tinsert_keys k v t x : x ∈ (tinsert k v t).*1 ↔ x = k ∨ x ∈ t.*1.
Proof.
  induction t as [|[k1 v1] t IH]; cbn; [by rewrite list_elem_of_singleton, elem_of_nil; tauto|].
  destruct (decide (k1 = k)); cbn; rewrite !elem_of_cons; [naive_solver|]. rewrite IH. tauto.
Qed.

Lemma tinsert_NoDup k v t : NoDup t.*1 → NoDup (tinsert k v t).*1.
Proof.
  induction t as [|[k1 v1] t IH]; cbn; [intros _; apply NoDup_singleton|].
  intros [Hk Ht]%NoDup_cons. destruct (decide (k1 = k)) as [->|]; cbn; apply NoDup_cons; [done|].
  split; [|by apply IH]. rewrite tinsert_keys. naive_solver.
Qed.

Lemma tremove_NoDup k t : NoDup t.*1 → NoDup (tremove k t).*1.
Proof.
  unfold tremove. intros H. eapply sublist_NoDup; [exact H|]. apply fmap_sublist, sublist_filter.
Qed.

Lemma tcollect_from l t :
  NoDup t.*1 → NoDup (foldl (λ t e, tinsert e.1 e.2 t) t l).*1 ∧
  (NoDup l.*1 → ∀ k, tget k (foldl (λ t e, tinsert e.1 e.2 t) t l) =
     match tget k l with Some v => Some v | None => tget k t end).
Proof.
  revert t. induction l as [|[k1 v1] l IH]; intros t Ht; cbn; [done|].
  destruct (IH (tinsert k1 v1 t)) as [H1 H2]; [by apply tinsert_NoDup|]. split; [done|].
  intros [Hk Hl]%NoDup_cons k. rewrite H2, tget_tinsert by done.
  destruct (decide (k1 = k)) as [->|]; [by rewrite (proj2 (tget_None k l))|done].
Qed.

Lemma tcollect_NoDup l : NoDup (tcollect l).*1.
Proof. apply tcollect_from. constructor. Qed.

Lemma tget_tcollect l k : NoDup l.*1 → tget k (tcollect l) = tget k l.
Proof.
  intros Hl. destruct (tcollect_from l []) as [_ H]; [constructor|]. unfold tcollect. rewrite H by done.
  by destruct (tget k l).
Qed.

Lemma tcollect_id l : NoDup l.*1 → tcollect l = l.
Proof.
  unfold tcollect. intros Hl. cut (∀ t, (∀ k, k ∈ l.*1 → k ∉ t.*1) → foldl (λ t e, tinsert e.1 e.2 t) t l = t ++ l).
  { intros H. apply H. intros k _. apply not_elem_of_nil. }
  induction l as [|[k v] l IH]; intros t Ht; cbn; [by rewrite app_nil_r|].
  apply NoDup_cons in Hl as [Hk Hl]. assert (tinsert k v t = t ++ [(k, v)]) as ->.
  { specialize (Ht k ltac:(by left)). clear -Ht. induction t as [|[k1 v1] t IH]; cbn in *; [done|].
    apply not_elem_of_cons in Ht as [Hne Ht]. rewrite decide_False by done. by rewrite IH. }
  rewrite IH; [by rewrite <-app_assoc|done|]. intros x Hx. rewrite fmap_app, elem_of_app. cbn.
  rewrite list_elem_of_singleton. intros [H| ->]; [|done]. eapply Ht; [by right|done].
Qed.

Lemma apply_alias_NoDup path t alias : NoDup t.*1 → NoDup (apply_alias path t alias).*1.
Proof.
  intros Ht. unfold apply_alias. case_decide; [|done]. destruct (tget _ t); [|done].
  destruct (tget (canonical_key alias) _); [by apply tremove_NoDup|by apply tinsert_NoDup, tremove_NoDup].
Qed.

Lemma normalize_key_aliases_NoDup path t : NoDup t.*1 → NoDup (normalize_key_aliases path t).*1.
Proof.
  unfold normalize_key_aliases. generalize CONFIG_KEY_ALIASES. intros l. revert t.
  induction l as [|a l IH]; intros t Ht; cbn; [done|]. by apply IH, apply_alias_NoDup.
Qed.

Lemma normalize_keys_NoDup lower path t : NoDup t.*1 → NoDup (normalize_keys lower path t).*1.
Proof.
  intros Ht%(normalize_key_aliases_NoDup path). unfold normalize_keys.
  destruct (is_shell_environment_filters_path path); [apply tcollect_NoDup|].
  destruct (is_network_domains_path path); [apply tcollect_NoDup|done].
Qed.
End table_lemmas.

(** Functions on the values of a table commute with what is done to its keys. *)
Section table_map.
Context {V W : Type} (f : V → W).
#[local] Abbreviation tmap := (map (prod_map id f)).
Implicit Types (t : list (rstring * V)).

Lemma tget_map k t : tget k (tmap t) = f <$> tget k t.
Proof. induction t as [|[k1 v1] t IH]; cbn; [done|]. by destruct (decide (k1 = k)). Qed.

Lemma tinsert_map k v t : tinsert k (f v) (tmap t) = tmap (tinsert k v t).
Proof. induction t as [|[k1 v1] t IH]; cbn; [done|]. destruct (decide (k1 = k)); [done|]. cbn. by rewrite IH. Qed.

Lemma tremove_map k t : tremove k (tmap t) = tmap (tremove k t).
Proof.
  unfold tremove. induction t as [|[k1 v1] t IH]; [done|]. cbn [map prod_map fst snd].
  destruct (decide (k1 = k)) as [->|].
  - rewrite !filter_cons_False by (cbn; tauto). apply IH.
  - rewrite !filter_cons_True by done. cbn. by rewrite IH.
Qed.

Lemma tcollect_map t : tcollect (tmap t) = tmap (tcollect t).
Proof.
  unfold tcollect. cut (∀ acc, foldl (λ u e, tinsert e.1 e.2 u) (tmap acc) (tmap t) =
    tmap (foldl (λ u e, tinsert e.1 e.2 u) acc t)); [intros H; apply (H [])|].
  induction t as [|[k v] t IH]; intros acc; cbn; [done|]. by rewrite tinsert_map, IH.
Qed.

Lemma rename_map (g : rstring → rstring) t :
  map (λ e, (g e.1, e.2)) (tmap t) = tmap (map (λ e, (g e.1, e.2)) t).
Proof. induction t as [|[k v] t IH]; cbn; [done|]. by rewrite IH. Qed.

Lemma apply_alias_map path t alias : apply_alias path (tmap t) alias = tmap (apply_alias path t alias).
Proof.
  unfold apply_alias. case_decide; [|done]. rewrite tget_map. destruct (tget (legacy_key alias) t); cbn; [|done].
  rewrite tremove_map, tget_map. destruct (tget (canonical_key alias) _); cbn; [done|]. apply tinsert_map.
Qed.

Lemma normalize_keys_map lower path t :
  normalize_keys lower path (tmap t) = tmap (normalize_keys lower path t).
Proof.
  unfold normalize_keys. assert (∀ t, normalize_key_aliases path (tmap t) = tmap (normalize_key_aliases path t)) as ->.
  { clear t. unfold normalize_key_aliases. generalize CONFIG_KEY_ALIASES. intros l.
    induction l as [|a l IH]; intros t; cbn; [done|]. by rewrite apply_alias_map, IH. }
  unfold normalize_case_insensitive_keys, normalize_network_domain_keys.
  destruct (is_network_domains_path path), (is_shell_environment_filters_path path);
    by rewrite ?rename_map, ?tcollect_map, ?rename_map, ?tcollect_map.
Qed.
End table_map.

(** ** What a merge contains *)

Section merged.
Context (to_lowercase : rstring → rstring).
#[local] Abbreviation merge_at := (merge_toml_values_at_path to_lowercase).
#[local] Abbreviation keys_at := (normalize_keys to_lowercase).

(** The body of the loop over the overlay. *)
Definition merge_entry (path : list rstring) (table : list (rstring * Toml)) (e : rstring * Toml)
    : list (rstring * Toml) :=
  let path := path ++ [e.1] in
  match tget e.1 table with
  | Some existing => tinsert e.1 (merge_at e.2 existing path) table
  | None => tinsert e.1 (normalized_with_key_aliases e.2 path) table
  end.

(** Two tables, after the fields that the overlay displaces are gone. *)
Lemma merge_tables overlay base path :
  merge_at (TTable overlay) (TTable base) path =
  match replace_shell_environment_policy_filter_representation (TTable base) (TTable overlay) path with
  | TTable base => TTable (foldl (merge_entry path) (keys_at path base) (keys_at path overlay))
  | v => v
  end.
Proof.
  assert (∀ l t, foldl (λ table '(key, (value, merge_value)),
      match tget key table with
      | Some existing => tinsert key (merge_value existing (path ++ [key])) table
      | None => tinsert key (normalized_with_key_aliases value (path ++ [key])) table
      end) t (map (prod_map id (λ v, (v, merge_at v))) l) = foldl (merge_entry path) t l) as Hf.
  { induction l as [|[k v] l IH]; intros t; cbn; [done|]. apply IH. }
  assert (∃ base', replace_shell_environment_policy_filter_representation (TTable base) (TTable overlay) path =
    TTable base') as [base' Hb].
  { unfold replace_shell_environment_policy_filter_representation.
    case_decide; [destruct (from_policy _)|]; by eexists. }
  cbn [merge_toml_values_at_path]. rewrite Hb.
  replace (map (λ '(key, value), (key, (value, merge_at value))) overlay)
    with (map (prod_map id (λ v, (v, merge_at v))) overlay) by (apply map_ext; by intros []).
  rewrite normalize_keys_map. rewrite (Hf (keys_at path overlay)). by destruct (is_structured_feature_path path).
Qed.

Lemma merge_entries_lookup path l t k :
  NoDup l.*1 →
  tget k (foldl (merge_entry path) t l) =
  match tget k l, tget k t with
  | Some v, Some existing => Some (merge_at v existing (path ++ [k]))
  | Some v, None => Some (normalized_with_key_aliases v (path ++ [k]))
  | None, r => r
  end.
Proof.
  revert t. induction l as [|[k1 v1] l IH]; intros t; cbn [fmap list_fmap fst]; [done|].
  intros [Hk Hl]%NoDup_cons. cbn [foldl tget]. rewrite IH by done.
  assert (tget k (merge_entry path t (k1, v1)) = if decide (k1 = k) then
    Some (match tget k t with Some e => merge_at v1 e (path ++ [k]) | None => normalized_with_key_aliases v1 (path ++ [k]) end)
    else tget k t) as ->.
  { unfold merge_entry. cbn. destruct (tget k1 t) eqn:E; rewrite tget_tinsert; destruct (decide (k1 = k)) as [->|];
      rewrite ?E; done. }
  destruct (decide (k1 = k)) as [->|]; [|done]. rewrite (proj2 (tget_None k l)) by done. by destruct (tget k t).
Qed.

(** A merge goes key by key.  In the merge of two tables, under every key as the place
    spells it, stands the merge of the two values if both sides have one, and otherwise the
    value of the side that has one; an overlay that chooses one representation of the
    environment filters has removed the fields of the other from the base before. *)
Theorem merge_lookup overlay base path k :
  NoDup overlay.*1 →
  ∃ table base', merge_at (TTable overlay) (TTable base) path = TTable table ∧
    replace_shell_environment_policy_filter_representation (TTable base) (TTable overlay) path = TTable base' ∧
    tget k table =
      match tget k (keys_at path overlay), tget k (keys_at path base') with
      | Some v, Some existing => Some (merge_at v existing (path ++ [k]))
      | Some v, None => Some (normalized_with_key_aliases v (path ++ [k]))
      | None, r => r
      end.
Proof.
  intros Hn. rewrite merge_tables.
  assert (∃ base', replace_shell_environment_policy_filter_representation (TTable base) (TTable overlay) path =
    TTable base') as [base' Hb].
  { unfold replace_shell_environment_policy_filter_representation.
    case_decide; [destruct (from_policy _)|]; by eexists. }
  rewrite Hb. eexists _, base'. split; [done|]. split; [done|].
  by apply merge_entries_lookup, normalize_keys_NoDup.
Qed.

(** ** Ordinary paths *)

(** A path at which no rule of its own applies, and a path all of whose tables are such. *)
Definition plain_path (path : list rstring) : bool :=
  bool_decide (path ∉ [[str "memories"]; [str "agents"]; [SHELL_ENVIRONMENT_POLICY]]) &&
  negb (is_network_domains_path path) && negb (is_shell_environment_filters_path path) &&
  negb (is_structured_feature_path path).

Fixpoint ordinary (path p : list rstring) : bool :=
  plain_path path && match p with [] => true | k :: p' => ordinary (path ++ [k]) p' end.

Fixpoint get_path (p : list rstring) (v : Toml) : option Toml :=
  match p with
  | [] => Some v
  | k :: p' => match v with TTable t => tget k t ≫= get_path p' | _ => None end
  end.

(** A value says something about a path when it has a value there or, on the way, something
    that is no table. *)
Fixpoint touches (p : list rstring) (v : Toml) : bool :=
  match p with
  | [] => true
  | k :: p' =>
      match v with
      | TTable t => match tget k t with Some v' => touches p' v' | None => false end
      | _ => true
      end
  end.

(** The value at a path that is no table. *)
Definition leaf (p : list rstring) (v : Toml) : option Toml :=
  v' ← get_path p v; if is_table v' then None else Some v'.

(** No table has a key twice, and its keys have a property. *)
Fixpoint toml_ok_with (Q : rstring → Prop) (v : Toml) : Prop :=
  match v with
  | TArray items => foldr (λ x P, toml_ok_with Q x ∧ P) True items
  | TTable t => NoDup t.*1 ∧ foldr (λ e P, (Q e.1 ∧ toml_ok_with Q e.2) ∧ P) True t
  | _ => True
  end.

Definition toml_ok : Toml → Prop := toml_ok_with (λ _, True).

Lemma toml_ok_table Q t :
  toml_ok_with Q (TTable t) ↔ NoDup t.*1 ∧ Forall (λ e, Q e.1 ∧ toml_ok_with Q e.2) t.
Proof.
  cbn. apply and_iff_compat_l. induction t as [|e t IH]; cbn; [done|]. by rewrite Forall_cons, IH.
Qed.

Lemma toml_ok_array Q l : toml_ok_with Q (TArray l) ↔ Forall (toml_ok_with Q) l.
Proof. cbn. induction l as [|e l IH]; cbn; [done|]. by rewrite Forall_cons, IH. Qed.

Lemma tget_elem {V} k (t : list (rstring * V)) v : tget k t = Some v → (k, v) ∈ t.
Proof.
  induction t as [|[k1 v1] t IH]; cbn; [done|]. destruct (decide (k1 = k)) as [->|]; [intros [= ->]; by left|].
  right. by apply IH.
Qed.

Lemma elem_tget {V} k (t : list (rstring * V)) v : NoDup t.*1 → (k, v) ∈ t → tget k t = Some v.
Proof.
  induction t as [|[k1 v1] t IH]; cbn; [by intros _ ?%not_elem_of_nil|]. intros [Hk Ht]%NoDup_cons [[= -> ->]|H]%elem_of_cons.
  - by rewrite decide_True.
  - rewrite decide_False; [by apply IH|]. intros ->. apply Hk, list_elem_of_fmap. by exists (k, v).
Qed.

Lemma toml_ok_child Q t k v : toml_ok_with Q (TTable t) → tget k t = Some v → Q k ∧ toml_ok_with Q v.
Proof. intros [_ Hf]%toml_ok_table H%tget_elem. rewrite Forall_forall in Hf. by apply (Hf (k, v)). Qed.

Lemma plain_path_spec path : plain_path path = true →
  (∀ a, a ∈ CONFIG_KEY_ALIASES → path ≠ table_path a) ∧ path ≠ [SHELL_ENVIRONMENT_POLICY] ∧
  is_network_domains_path path = false ∧ is_shell_environment_filters_path path = false ∧
  is_structured_feature_path path = false.
Proof.
  unfold plain_path. rewrite !andb_true_iff, !negb_true_iff, bool_decide_eq_true, !not_elem_of_cons.
  intros [[[(H1 & H2 & H3 & _) ?] ?] ?]. split; [|done].
  intros a [->|[->|?%not_elem_of_nil]%elem_of_cons]%elem_of_cons; done.
Qed.

Lemma plain_aliases {V} path (t : list (rstring * V)) :
  (∀ a, a ∈ CONFIG_KEY_ALIASES → path ≠ table_path a) → normalize_key_aliases path t = t.
Proof.
  unfold normalize_key_aliases. generalize CONFIG_KEY_ALIASES. intros l. revert t.
  induction l as [|a l IH]; intros t H; cbn; [done|]. unfold apply_alias at 2.
  rewrite decide_False by (apply H; by left). apply IH. intros b Hb. apply H. by right.
Qed.

Lemma plain_keys {V} path (t : list (rstring * V)) : plain_path path = true → keys_at path t = t.
Proof.
  intros (Ha & _ & Hd & Hf & _)%plain_path_spec. unfold normalize_keys.
  by rewrite plain_aliases, Hd, Hf.
Qed.

Lemma plain_merge overlay base path :
  plain_path path = true →
  merge_at overlay base path =
  match overlay, base with
  | TTable o, TTable b => TTable (foldl (merge_entry path) b o)
  | _, _ => normalized_with_key_aliases overlay path
  end.
Proof.
  intros Hp. pose proof (plain_path_spec _ Hp) as (_ & Hs & _ & _ & Hf).
  assert (∀ b o, replace_shell_environment_policy_filter_representation b o path = b) as Hr.
  { intros b o. unfold replace_shell_environment_policy_filter_representation. by rewrite decide_False. }
  destruct overlay as [| | | | | |o]; try (cbn; by rewrite Hr, Hf).
  destruct base as [| | | | | |b]; try (cbn; by rewrite Hr, Hf). by rewrite merge_tables, Hr, !plain_keys.
Qed.

(** The normalised form of a table, at one key. *)
Lemma normalized_lookup t path k :
  toml_ok (TTable t) → plain_path path = true →
  ∃ t', normalized_with_key_aliases (TTable t) path = TTable t' ∧
    tget k t' = (λ v, normalized_with_key_aliases v (path ++ [k])) <$> tget k t.
Proof.
  intros [Hn _]%toml_ok_table (Ha & _)%plain_path_spec. cbn. eexists. split; [done|]. rewrite plain_aliases by done.
  set (f := λ '(key, child), (key, normalized_with_key_aliases child (path ++ [key]))).
  assert ((map f t).*1 = t.*1) as Hk by (clear; induction t as [|[] t IH]; cbn; by f_equal).
  rewrite tget_tcollect by (by rewrite Hk). clear.
  induction t as [|[k1 v1] t IH]; cbn; [done|]. by destruct (decide (k1 = k)) as [->|].
Qed.

Lemma ordinary_cons path k p : ordinary path (k :: p) = true → plain_path path = true ∧ ordinary (path ++ [k]) p = true.
Proof. cbn. by rewrite andb_true_iff. Qed.

Lemma ordinary_plain path p : ordinary path p = true → plain_path path = true.
Proof. destruct p; cbn; by intros [? _]%andb_true_iff. Qed.

Lemma get_normalized p v path :
  toml_ok v → ordinary path p = true →
  get_path p (normalized_with_key_aliases v path) =
  (λ v', normalized_with_key_aliases v' (path ++ p)) <$> get_path p v.
Proof.
  revert v path. induction p as [|k p IH]; intros v path Hv Ho; cbn [get_path]; [by rewrite app_nil_r|].
  apply ordinary_cons in Ho as [Hp Ho]. destruct v as [| | | | | |t]; try done.
  destruct (normalized_lookup t path k Hv Hp) as (t' & -> & Ht). rewrite Ht.
  destruct (tget k t) as [v|] eqn:E; cbn; [|done]. rewrite IH; [|by eapply (toml_ok_child (λ _, True))|done].
  by rewrite <-app_assoc.
Qed.

Lemma untouched_get p v : touches p v = false → get_path p v = None.
Proof.
  revert v. induction p as [|k p IH]; intros v; cbn; [done|]. destruct v; try done.
  destruct (tget k entries); [apply IH|done].
Qed.

Lemma normalized_untouched p v path :
  toml_ok v → ordinary path p = true → touches p v = false →
  get_path p (normalized_with_key_aliases v path) = None.
Proof. intros Hv Hp Ht. by rewrite get_normalized, untouched_get. Qed.

(** An overlay that does not touch a path leaves the base alone there. *)
Lemma merge_untouched p overlay base path :
  toml_ok overlay → ordinary path p = true → touches p overlay = false →
  get_path p (merge_at overlay base path) = get_path p base.
Proof.
  revert overlay base path. induction p as [|k p IH]; intros o b path Ho Hp Ht; [done|].
  pose proof Hp as [Hpl Hord]%ordinary_cons. rewrite plain_merge by done.
  destruct o as [| | | | | |o]; try done. destruct b as [| | | | | |b];
    try (rewrite normalized_untouched by done; done).
  cbn in Ht |- *. rewrite merge_entries_lookup by (by apply toml_ok_table in Ho as []).
  destruct (tget k o) as [v|] eqn:E; [|done]. destruct (tget k b) as [e|]; cbn.
  - apply IH; [by eapply (toml_ok_child (λ _, True))|done|done].
  - apply normalized_untouched; [by eapply (toml_ok_child (λ _, True))|done|done].
Qed.

Lemma leaf_cons k p t : leaf (k :: p) (TTable t) = tget k t ≫= leaf p.
Proof. unfold leaf. cbn. by destruct (tget k t). Qed.

Lemma leaf_normalized p v path :
  toml_ok v → ordinary path p = true →
  leaf p (normalized_with_key_aliases v path) = (λ v, normalized_with_key_aliases v (path ++ p)) <$> leaf p v.
Proof.
  intros Hv Hq. unfold leaf. rewrite get_normalized by done. destruct (get_path p v) as [v'|]; cbn; [|done].
  by destruct v'.
Qed.

(** Where the overlay has something, its leaf is the leaf of the merge. *)
Lemma merge_touched p overlay base path :
  toml_ok overlay → ordinary path p = true → touches p overlay = true →
  leaf p (merge_at overlay base path) = (λ v, normalized_with_key_aliases v (path ++ p)) <$> leaf p overlay.
Proof.
  revert overlay base path. induction p as [|k p IH]; intros o b path Ho Hp Ht;
    rewrite plain_merge by (by eapply ordinary_plain).
  { destruct o, b; by rewrite ?leaf_normalized by done. }
  destruct o as [| | | | | |o]; try (by rewrite leaf_normalized by done).
  destruct b as [| | | | | |b]; try (by rewrite leaf_normalized by done).
  apply ordinary_cons in Hp as [Hpl Hord]. rewrite !leaf_cons, merge_entries_lookup
    by (by apply toml_ok_table in Ho as []). cbn in Ht.
  destruct (tget k o) as [v|] eqn:E; [|done]. cbn. destruct (toml_ok_child _ _ _ _ Ho E) as [_ Hv].
  destruct (tget k b) as [e|]; cbn; rewrite (cons_middle k path p), (assoc_L (++));
    [by apply IH|by apply leaf_normalized].
Qed.

(** Below the tables with aliases nothing is renamed. *)
Lemma toml_ind' (P : Toml → Prop)
    (Hscalar : ∀ v, (∀ l, v ≠ TArray l) → is_table v = false → P v)
    (Harray : ∀ l, Forall P l → P (TArray l)) (Htable : ∀ t, Forall (λ e, P e.2) t → P (TTable t)) :
  ∀ v, P v.
Proof.
  fix go 1. intros [s|n|n|b|s|l|t]; try (apply Hscalar; done).
  - apply Harray. induction l as [|v l IH]; constructor; [apply go|apply IH].
  - apply Htable. induction t as [|[k v] t IH]; constructor; [apply go|apply IH].
Qed.

Lemma normalized_id v path :
  toml_ok v → (∀ a, a ∈ CONFIG_KEY_ALIASES → ¬ path `prefix_of` table_path a) →
  normalized_with_key_aliases v path = v.
Proof.
  revert path. induction v as [v Ha Ht|l IH|t IH] using toml_ind'; intros path Hv Hp.
  - destruct v; try done. by destruct (Ha items).
  - cbn. f_equal. apply toml_ok_array in Hv. induction IH as [|v l Hl _ IHl]; cbn; [done|].
    apply Forall_cons in Hv as [Hv Hvs]. by rewrite Hl, IHl.
  - cbn. rewrite plain_aliases by (intros a Hin ->; by apply (Hp a Hin)). apply toml_ok_table in Hv as [Hn Hv].
    assert (map (λ '(key, child), (key, normalized_with_key_aliases child (path ++ [key]))) t = t) as ->.
    { clear Hn. induction IH as [|[k v] t Hk _ IHt]; cbn; [done|]. apply Forall_cons in Hv as [[_ Hv] Hvs]. cbn in *.
      rewrite Hk, IHt; try done. intros a Hin Hpre. apply (Hp a Hin). etrans; [|exact Hpre]. by apply prefix_app_r. }
    by rewrite tcollect_id.
Qed.

Lemma ordinary_no_alias k path : plain_path (k :: path) = true → ∀ a, a ∈ CONFIG_KEY_ALIASES → ¬ (k :: path) `prefix_of` table_path a.
Proof.
  intros (Ha & _)%plain_path_spec a Hin Hpre. apply (Ha a Hin).
  assert (length (table_path a) = 1) as Hl.
  { apply elem_of_cons in Hin as [->|[->|?%not_elem_of_nil]%elem_of_cons]; done. }
  destruct (table_path a) as [|x [|]]; try done. apply prefix_cons_inv_1 in Hpre as Hx. apply prefix_cons_inv_2 in Hpre.
  apply prefix_nil_inv in Hpre. by subst.
Qed.

Lemma get_path_ok p v v' : toml_ok v → get_path p v = Some v' → toml_ok v'.
Proof.
  revert v. induction p as [|k p IH]; intros v Hv; cbn; [by intros [= <-]|]. destruct v as [| | | | | |t]; try done.
  destruct (tget k t) as [w|] eqn:E; [|done]. apply IH. by eapply (toml_ok_child (λ _, True)).
Qed.

Lemma leaf_ok p v v' : toml_ok v → leaf p v = Some v' → toml_ok v'.
Proof.
  unfold leaf. destruct (get_path p v) as [w|] eqn:E; cbn; [|done]. intros Hv. destruct (is_table w); [done|].
  intros [= <-]. by eapply get_path_ok.
Qed.

Lemma ordinary_end path p : ordinary path p = true → plain_path (path ++ p) = true.
Proof.
  revert path. induction p as [|k p IH]; intros path Hp; [rewrite app_nil_r; by eapply ordinary_plain|].
  apply ordinary_cons in Hp as [_ Hp]. apply IH in Hp. by rewrite <-app_assoc in Hp.
Qed.

(** At an ordinary path below the root a merge has the leaf of the overlay if the overlay
    touches the path, and of the base if not. *)
Lemma merge_leaf p overlay base :
  toml_ok overlay → p ≠ [] → ordinary [] p = true →
  leaf p (merge_toml_values to_lowercase base overlay) = if touches p overlay then leaf p overlay else leaf p base.
Proof.
  intros Ho Hn Hp. unfold merge_toml_values. destruct (touches p overlay) eqn:Ht.
  - rewrite merge_touched by done. destruct (leaf p overlay) as [v|] eqn:E; [|done]. cbn. f_equal.
    apply normalized_id; [by eapply leaf_ok|]. apply ordinary_end in Hp. destruct p as [|k p]; [done|].
    by apply ordinary_no_alias.
  - unfold leaf. by rewrite merge_untouched.
Qed.

(** The layers in order: the highest one that touches a path decides. *)
Lemma layers_leaf p layers base :
  Forall toml_ok layers → p ≠ [] → ordinary [] p = true →
  leaf p (foldl (merge_toml_values to_lowercase) base layers) =
  match list_find (λ c, touches p c = true) (reverse layers) with
  | Some (_, c) => leaf p c
  | None => leaf p base
  end.
Proof.
  intros Hl Hn Hp. induction layers as [|c layers IH] using rev_ind; [done|].
  apply Forall_app in Hl as [Hl [Hc _]%Forall_cons]. rewrite foldl_app, reverse_snoc. cbn.
  rewrite merge_leaf by done. destruct (touches p c) eqn:Ht; [by rewrite decide_True|].
  rewrite decide_False by done. rewrite IH by done. by destruct (list_find _ _) as [[]|].
Qed.

(** ** Overrides *)

Definition entries_of (v : Toml) : list (rstring * Toml) := match v with TTable t => t | _ => [] end.

Lemma get_path_entries k p v : get_path (k :: p) v = tget k (entries_of v) ≫= get_path p.
Proof. by destruct v. Qed.

Lemma override_step k segs pre v cur :
  ordinary pre (k :: segs) = true →
  apply_override_segments to_lowercase (k :: segs) pre v cur =
  TTable (tinsert k match segs with
                    | [] => v
                    | _ => apply_override_segments to_lowercase segs (pre ++ [k]) v
                             (default (TTable []) (tget k (entries_of cur)))
                    end (entries_of cur)).
Proof.
  intros [_ Ho]%ordinary_cons. pose proof (ordinary_plain _ _ Ho) as (_ & _ & _ & _ & Hf)%plain_path_spec.
  cbn [apply_override_segments]. destruct segs as [|k' segs].
  - destruct cur; try done. cbn. unfold override_last. by rewrite Hf.
  - destruct cur as [| | | | | |t]; try done. cbn [entries_of]. rewrite Hf.
    by destruct (default (TTable []) (tget k t)).
Qed.

Lemma override_get segs pre v cur q :
  segs ≠ [] → ordinary pre segs = true →
  (∀ r, q = segs ++ r → get_path q (apply_override_segments to_lowercase segs pre v cur) = get_path r v) ∧
  (¬ segs `prefix_of` q → ¬ q `prefix_of` segs →
   get_path q (apply_override_segments to_lowercase segs pre v cur) = get_path q cur).
Proof.
  revert pre cur q. induction segs as [|k segs IH]; intros pre cur q Hn Ho; [done|].
  rewrite override_step by done. apply ordinary_cons in Ho as [_ Ho].
  destruct q as [|k2 q]; [by split; [|intros _ []; apply prefix_nil]|].
  rewrite !get_path_entries. cbn [entries_of]. rewrite tget_tinsert. split.
  - intros r [= -> ->]. rewrite decide_True by done. cbn. destruct segs as [|k' segs]; [done|].
    by apply (IH _ _ ((k' :: segs) ++ r)).
  - intros H1 H2. destruct (decide (k = k2)) as [->|]; [|done].
    assert (¬ segs `prefix_of` q) as H1' by (intros ?; by apply H1, prefix_cons).
    assert (¬ q `prefix_of` segs) as H2' by (intros ?; by apply H2, prefix_cons). cbn.
    destruct segs as [|k' segs]; [destruct H1'; apply prefix_nil|].
    rewrite (proj2 (IH (pre ++ [k2]) _ q ltac:(done) Ho)) by done.
    destruct (tget k2 (entries_of cur)); [done|]. destruct q; [|done]. destruct H2'. apply prefix_nil.
Qed.

(** The last override of a path wins.  In the layer built from the overrides of the
    command line, a path has the value of its override when none of the later ones is for
    a path above or below it, whatever the earlier ones were. *)
Theorem last_override_wins before path v after :
  ordinary [] (split_char DOT path) = true →
  Forall (λ o, let q := split_char DOT o.1 in let p := split_char DOT path in
    ordinary [] q = true ∧ ¬ q `prefix_of` p ∧ ¬ p `prefix_of` q) after →
  ∀ p, get_path (split_char DOT path ++ p)
    (build_cli_overrides_layer to_lowercase (before ++ (path, v) :: after)) = get_path p v.
Proof.
  intros Hp Ha p. unfold build_cli_overrides_layer. rewrite foldl_app. cbn [foldl].
  induction after as [|[q w] after IH] using rev_ind.
  - cbn. by apply override_get; [apply split_char_nonempty|..].
  - apply Forall_app in Ha as [Ha [(Hq & H1 & H2) _]%Forall_cons]. rewrite foldl_app. cbn [foldl fst] in *.
    unfold apply_toml_override at 1. rewrite (proj2 (override_get _ [] w _ _ (split_char_nonempty _ q) Hq)); [by apply IH|..].
    + intros Hr. assert (split_char DOT path `prefix_of` split_char DOT path ++ p) as Hr' by by apply prefix_app_r.
      by destruct (prefix_weak_total _ _ _ Hr Hr').
    + intros Hpre. apply H2. etrans; [|exact Hpre]. by apply prefix_app_r.
Qed.

End merged.
