(* ===== verification/Fingerprint.v ===== *)
(** * Version of a configuration layer ([config/src/fingerprint.rs])

    The version is the hash of a canonical JSON text.  The conversion of a TOML value to JSON,
    the printer of JSON and SHA-256 are arguments.  An object is the list of its entries in
    the order of the map. *)

From stdpp Require Import sorting.
From S2P Require Import Prelude RustStr OrdMap ConfigToml.

Local Open Scope nat_scope.

Inductive JsonValue :=
| JNull
| JBool (b : bool)
| JNumber (text : rstring)
| JString (s : rstring)
| JArray (items : list JsonValue)
| JObject (map : list (rstring * JsonValue)).

(** The entries of a map put in the order of the keys. *)
Definition sorted_entries {V} (map : list (rstring * V)) : list (rstring * V) :=
  let keys := merge_sort str_le map.*1 in
  foldl (λ sorted key, match tget key map with Some val => tinsert key val sorted | None => sorted end) [] keys.

Fixpoint canonical_json (value : JsonValue) : JsonValue :=
  match value with
  | JObject entries => JObject (sorted_entries (map (λ e, (e.1, canonical_json e.2)) entries))
  | JArray items => JArray (map canonical_json items)
  | other => other
  end.

(** A digit and a byte in lower-case hexadecimal. *)
Definition hex_digit (n : N) : char := if (n <? 10)%N then (48 + n)%N else (87 + n)%N.

Definition hex_byte (byte : N) : rstring := [hex_digit (byte / 16); hex_digit (byte mod 16)].

Section version.
Context (to_value : Toml → option JsonValue) (to_vec : JsonValue → option (list N)) (sha256 : list N → list N).

Definition version_for_toml (value : Toml) : rstring :=
  let json := default JNull (to_value value) in
  let serialized := default [] (to_vec (canonical_json json)) in
  str "sha256:" ++ concat (map hex_byte (sha256 serialized)).
End version.

(** ** The order of the keys does not matter *)

Lemma json_ind' (P : JsonValue → Prop)
    (Hscalar : ∀ v, canonical_json v = v → (∀ l, v ≠ JArray l) → (∀ m, v ≠ JObject m) → P v)
    (Harray : ∀ l, Forall P l → P (JArray l)) (Hobject : ∀ m, Forall (λ e, P e.2) m → P (JObject m)) :
  ∀ v, P v.
Proof.
  fix go 1. intros [|b|s|s|l|m]; try (apply Hscalar; done).
  - apply Harray. induction l as [|v l IH]; constructor; [apply go|apply IH].
  - apply Hobject. induction m as [|[k v] m IH]; constructor; [apply go|apply IH].
Qed.

(** Two values that differ in the order of the entries of their objects, at any depth. *)
Inductive same_json : JsonValue → JsonValue → Prop :=
| same_refl v : same_json v v
| same_array l l' : Forall2 same_json l l' → same_json (JArray l) (JArray l')
| same_object m m' m'' :
    NoDup m.*1 → Forall2 (λ e e', e.1 = e'.1 ∧ same_json e.2 e'.2) m m' → m' ≡ₚ m'' →
    same_json (JObject m) (JObject m'').

Lemma tget_perm {V} (m m' : list (rstring * V)) k : NoDup m.*1 → m ≡ₚ m' → tget k m = tget k m'.
Proof.
  intros Hn Hp. assert (NoDup m'.*1) as Hn' by by rewrite <-Hp. destruct (tget k m) as [v|] eqn:E.
  - symmetry. apply elem_tget; [done|]. rewrite <-Hp. by apply tget_elem.
  - symmetry. apply tget_None. apply tget_None in E. by rewrite <-Hp.
Qed.

Lemma sorted_entries_perm {V} (m m' : list (rstring * V)) :
  NoDup m.*1 → m ≡ₚ m' → sorted_entries m = sorted_entries m'.
Proof.
  intros Hn Hp. unfold sorted_entries.
  assert (merge_sort str_le m.*1 = merge_sort str_le m'.*1) as ->.
  { apply (StronglySorted_unique str_le); [by apply (StronglySorted_merge_sort str_le)..|].
    by rewrite !merge_sort_Permutation, Hp. }
  generalize (@nil (rstring * V)). induction (merge_sort str_le m'.*1) as [|key keys IH]; intros sorted; cbn; [done|].
  by rewrite (tget_perm m m'), IH.
Qed.

(** Values that differ in the order of keys only have one canonical form. *)
Lemma canonical_json_order v v' : same_json v v' → canonical_json v = canonical_json v'.
Proof.
  revert v'. induction v as [v _ Ha Ho|l IH|m IH] using json_ind'; intros v'.
  - inversion 1; subst; [done|by edestruct Ha|by edestruct Ho].
  - inversion 1 as [|? l' Hl|]; subst; [done|]. cbn. f_equal. revert IH. clear - Hl.
    induction Hl as [|x y l l' Hxy _ IH]; intros Hf; cbn; [done|].
    apply Forall_cons in Hf as [Hx Hf]. f_equal; [by apply Hx|by apply IH].
  - inversion 1 as [| |? m' m'' Hn Hm Hp]; subst; [done|]. cbn. f_equal.
    set (f := λ e : rstring * JsonValue, (e.1, canonical_json e.2)).
    assert (map f m = map f m') as Hmm.
    { clear Hn Hp H. induction Hm as [|[k x] [k' y] m m' [Hk Hxy] _ IHm]; cbn; [done|]. cbn in *. subst k'.
      apply Forall_cons in IH as [Hx IH]. f_equal; [unfold f; cbn; f_equal; by apply Hx|by apply IHm]. }
    rewrite Hmm. apply sorted_entries_perm; [|by apply Permutation_map].
    rewrite <-Hmm. unfold f. by rewrite <-list_fmap_compose.
Qed.

(** The version of a layer does not depend on the order in which its keys were written. *)
Theorem version_ignores_key_order to_value to_vec sha256 a b :
  same_json (default JNull (to_value a)) (default JNull (to_value b)) →
  version_for_toml to_value to_vec sha256 a = version_for_toml to_value to_vec sha256 b.
Proof. intros H. unfold version_for_toml. by rewrite (canonical_json_order _ _ H). Qed.
