(* ===== verification/ShellEnv.v ===== *)
(** * The environment of a child process ([config/src/shell_environment_policy.rs],
    [protocol/src/shell_environment.rs], [core/src/exec_env.rs], [core/src/unified_exec/process_manager.rs],
    [exec-server/src/local_process.rs])

    The policy for the environment of a child, as it is read from the configuration, the
    environment it yields, what the session adds to it, and the policy and overlay that are
    sent to an exec server and from which the server computes the environment again.

    An environment is a map.  The variables to set are the entries of their map in the order
    in which it is iterated.  Arguments: whether the target is Windows; the wildcard library
    ([new_case_insensitive], [matches], [to_string] of a pattern); the reader of an enum value
    ([read_filter], [read_inherit]) and of a value that is no table; [str::to_lowercase]; the
    version of the package; the check of a managed certificate path.  The target is not macOS. *)

From S2P Require Import Prelude RustStr OrdMap ConfigToml.

Local Open Scope nat_scope.

#[local] Abbreviation env_map := (gmap rstring rstring).

(** ** Names *)

Definition CODEX_SESSION_ID : rstring := str "CODEX_SESSION_ID".
Definition CODEX_THREAD_ID : rstring := str "CODEX_THREAD_ID".
Definition CODEX_VERSION : rstring := str "CODEX_VERSION".
Definition CODEX_PERMISSION_PROFILE : rstring := str "CODEX_PERMISSION_PROFILE".
Definition PRESERVE_LINE_ENDINGS : rstring := str "CODEX_APPLY_PATCH_PRESERVE_LINE_ENDINGS".
Definition PLUGIN_METRICS_OUTPUT : rstring := str "CODEX_PLUGIN_METRICS_OUTPUT".
Definition EXIT_ON_STDIN_CLOSE : rstring := str "CODEX_EXEC_SERVER_EXIT_ON_STDIN_CLOSE".

Definition NON_INHERITABLE_ENV_VARS : list rstring :=
  [ str "CODEX_EXEC_SERVER_NOISE_AUTH_TOKEN"; str "NODE_REPL_AUTH_TOKEN"; str "OPENAI_FEDERATION_RULE_ID";
    str "OPENAI_IDENTITY_TOKEN_FILE"; str "OPENAI_WORKLOAD_IDENTITY_CONTEXT" ].

Definition is_non_inheritable_env_var (name : rstring) : bool :=
  existsb (λ restricted, eq_ignore_ascii_case restricted name) NON_INHERITABLE_ENV_VARS.

Definition UNIX_CORE_ENV_VARS : list rstring :=
  [ str "PATH"; str "SHELL"; str "TMPDIR"; str "TEMP"; str "TMP"; str "HOME"; str "LANG"; str "LC_ALL";
    str "LC_CTYPE"; str "LOGNAME"; str "USER" ].

Definition WINDOWS_CORE_ENV_VARS : list rstring :=
  [ str "PATH"; str "PATHEXT"; str "SHELL"; str "COMSPEC"; str "SYSTEMROOT"; str "WINDIR"; str "SYSTEMDRIVE";
    str "USERNAME"; str "USERDOMAIN"; str "USERPROFILE"; str "HOMEDRIVE"; str "HOMEPATH"; str "PROGRAMFILES";
    str "PROGRAMFILES(X86)"; str "PROGRAMW6432"; str "PROGRAMDATA"; str "LOCALAPPDATA"; str "APPDATA";
    str "TEMP"; str "TMP"; str "TMPDIR"; str "POWERSHELL"; str "PWSH" ].

Definition UNIFIED_EXEC_ENV : list (rstring * rstring) :=
  [ (str "NO_COLOR", str "1"); (str "TERM", str "dumb"); (str "LANG", str "C.UTF-8");
    (str "LC_CTYPE", str "C.UTF-8"); (str "LC_ALL", str "C.UTF-8"); (str "COLORTERM", []);
    (str "PAGER", str "cat"); (str "GIT_PAGER", str "cat"); (str "GH_PAGER", str "cat"); (str "CODEX_CI", str "1") ].

(** ** Maps *)

(** [collect] and [extend]: the last value of a key stays. *)
Definition extend_env (env : env_map) (vars : list (rstring * rstring)) : env_map :=
  foldl (λ env e, <[e.1 := e.2]> env) env vars.

(** [HashMap::retain] by name. *)
Definition retain (keep : rstring → bool) (env : env_map) : env_map :=
  filter (λ e : rstring * rstring, keep e.1 = true) env.

(** ** Reading the policy *)

Inductive ShellEnvironmentPolicyInherit := InheritCore | InheritAll | InheritNone.

Inductive ShellEnvironmentPolicyFilter := Include | Exclude.

Record ShellEnvironmentPolicyToml := {
  toml_inherit : option ShellEnvironmentPolicyInherit;
  toml_ignore_default_excludes : option bool;
  toml_exclude : option (list rstring);
  toml_set : option (list (rstring * rstring));
  toml_include_only : option (list rstring);
  toml_filters : option (gmap rstring ShellEnvironmentPolicyFilter);
  toml_experimental_use_profile : option bool }.

Inductive PolicyError := WrongType | MixedFilters | DuplicateFilter (pattern : rstring).

Section read.
Context (to_lowercase : rstring → rstring).
Context (read_inherit : Toml → option ShellEnvironmentPolicyInherit).
Context (read_filter : Toml → option ShellEnvironmentPolicyFilter).
Context (read_non_table : Toml → bool).

(** A field that may be absent. *)
Definition read_field {A} (read : Toml → option A) (name : rstring) (table : list (rstring * Toml))
    : res PolicyError (option A) :=
  match tget name table with
  | None => Ok None
  | Some v => let? a := ok_or WrongType (read v) in Ok (Some a)
  end.

Definition read_string (v : Toml) : option rstring := match v with TString s => Some s | _ => None end.
Definition read_bool (v : Toml) : option bool := match v with TBoolean b => Some b | _ => None end.
Definition read_strings (v : Toml) : option (list rstring) :=
  match v with TArray l => mapM read_string l | _ => None end.
Definition read_table {A} (read : Toml → option A) (v : Toml) : option (list (rstring * A)) :=
  match v with TTable t => mapM (λ e, a ← read e.2; Some (e.1, a)) t | _ => None end.

(** The loop over the patterns, in the order of the map. *)
Fixpoint unique_patterns (seen : gset rstring) (patterns : list rstring) : res PolicyError () :=
  match patterns with
  | [] => Ok ()
  | pattern :: patterns' =>
      if decide (to_lowercase pattern ∈ seen) then Err (DuplicateFilter pattern)
      else unique_patterns ({[to_lowercase pattern]} ∪ seen) patterns'
  end.

(** [ShellEnvironmentPolicyToml::deserialize] from a table. *)
Definition deserialize_policy (table : list (rstring * Toml)) : res PolicyError ShellEnvironmentPolicyToml :=
  let? inherit := read_field read_inherit (str "inherit") table in
  let? ignore_default_excludes := read_field read_bool (str "ignore_default_excludes") table in
  let? exclude := read_field read_strings (str "exclude") table in
  let? set := read_field (read_table read_string) (str "set") table in
  let? include_only := read_field read_strings (str "include_only") table in
  let? filters := read_field (read_table read_filter) (str "filters") table in
  let? experimental_use_profile := read_field read_bool (str "experimental_use_profile") table in
  let filters := (λ l, list_to_map (reverse l)) <$> filters in
  let? _ := if decide (is_Some filters ∧ (is_Some exclude ∨ is_Some include_only)) then Err MixedFilters else Ok () in
  let? _ := match filters with
            | Some filters => unique_patterns ∅ (btree_keys filters)
            | None => Ok ()
            end in
  Ok {| toml_inherit := inherit; toml_ignore_default_excludes := ignore_default_excludes;
        toml_exclude := exclude; toml_set := set; toml_include_only := include_only;
        toml_filters := filters; toml_experimental_use_profile := experimental_use_profile |}.

Definition deserialize_shell_environment_policy_filters (value : Toml) : res PolicyError () :=
  match value with
  | TTable policy =>
      let filter_fields := tcollect (omap (λ field, (λ value, (field, value)) <$> tget field policy)
        [str "exclude"; str "include_only"; str "filters"]) in
      let? _ := deserialize_policy filter_fields in Ok ()
  | _ => Ok ()
  end.

Definition validate_shell_environment_policy_filter_config (value : Toml) : bool :=
  match value with
  | TTable config =>
      match tget SHELL_ENVIRONMENT_POLICY config with
      | Some policy => match deserialize_shell_environment_policy_filters policy with Ok _ => true | _ => false end
      | None => true
      end
  | _ => read_non_table value
  end.
End read.

(** ** The environment *)

Section env.
Context (windows : bool).
Context {Pattern : Type} (new_case_insensitive : rstring → Pattern) (matches : Pattern → rstring → bool)
  (to_string : Pattern → rstring).

Record ShellEnvironmentPolicy := {
  inherit : ShellEnvironmentPolicyInherit;
  ignore_default_excludes : bool;
  exclude : list Pattern;
  set : list (rstring * rstring);
  include_only : list Pattern;
  use_profile : bool }.

Definition policy_default : ShellEnvironmentPolicy :=
  {| inherit := InheritAll; ignore_default_excludes := true; exclude := []; set := []; include_only := [];
     use_profile := false |}.

(** [From<ShellEnvironmentPolicyToml>]. *)
Definition policy_from_toml (toml : ShellEnvironmentPolicyToml) : ShellEnvironmentPolicy :=
  let '(exclude, include_only) :=
    match toml_filters toml with
    | Some filters =>
        foldl (λ '(exclude, include_only) '(pattern, filter),
          match filter with
          | Include => (exclude, include_only ++ [pattern])
          | Exclude => (exclude ++ [pattern], include_only)
          end) ([], []) (btree_entries filters)
    | None => (default [] (toml_exclude toml), default [] (toml_include_only toml))
    end in
  {| inherit := default InheritAll (toml_inherit toml);
     ignore_default_excludes := default true (toml_ignore_default_excludes toml);
     exclude := map new_case_insensitive exclude;
     set := default [] (toml_set toml);
     include_only := map new_case_insensitive include_only;
     use_profile := default false (toml_experimental_use_profile toml) |}.

Definition matches_any (name : rstring) (patterns : list Pattern) : bool :=
  existsb (λ pattern, matches pattern name) patterns.

Definition core_env_vars : list rstring := if windows then WINDOWS_CORE_ENV_VARS else UNIX_CORE_ENV_VARS.

Definition default_excludes : list Pattern :=
  map new_case_insensitive [str "*KEY*"; str "*SECRET*"; str "*TOKEN*"].

(** The starting set of variables. *)
Definition inherited (vars : list (rstring * rstring)) (policy : ShellEnvironmentPolicy) : env_map :=
  match inherit policy with
  | InheritAll => extend_env ∅ vars
  | InheritNone => ∅
  | InheritCore =>
      extend_env ∅ (filter (λ e, existsb (λ allowed, eq_ignore_ascii_case allowed e.1) core_env_vars = true) vars)
  end.

(** One variable of the overrides. *)
Definition set_var (env : env_map) (e : rstring * rstring) : env_map :=
  let env := if windows then retain (λ existing, negb (eq_ignore_ascii_case existing e.1)) env else env in
  <[e.1 := e.2]> env.

Definition populate_env (vars : list (rstring * rstring)) (policy : ShellEnvironmentPolicy)
    (thread_id : option rstring) : env_map :=
  let env := inherited vars policy in
  let env := if ignore_default_excludes policy then env
             else retain (λ k, negb (matches_any k default_excludes)) env in
  let env := if decide (exclude policy = []) then env
             else retain (λ k, negb (matches_any k (exclude policy))) env in
  let env := foldl set_var env (set policy) in
  let env := if decide (include_only policy = []) then env
             else retain (λ k, matches_any k (include_only policy)) env in
  let env := match thread_id with
             | Some thread_id => <[CODEX_THREAD_ID := thread_id]> env
             | None => env
             end in
  retain (λ name, negb (is_non_inheritable_env_var name)) env.

Definition create_env_from_vars (vars : list (rstring * rstring)) (policy : ShellEnvironmentPolicy)
    (thread_id : option rstring) : env_map :=
  let env := populate_env vars policy thread_id in
  if windows then
    if existsb (λ k, eq_ignore_ascii_case k (str "PATHEXT")) (map_to_list env).*1 then env
    else <[str "PATHEXT" := str ".COM;.EXE;.BAT;.CMD"]> env
  else env.

(** ** What a session adds *)

Definition inject_session_env (pkg_version : rstring) (session_id : rstring) (env : env_map) : env_map :=
  let env := <[CODEX_SESSION_ID := session_id]> env in
  let env := if windows then retain (λ key, negb (eq_ignore_ascii_case key CODEX_VERSION)) env else env in
  <[CODEX_VERSION := pkg_version]> env.

Definition inject_permission_profile_env (active : option rstring) (env : env_map) : env_map :=
  let env := if windows then retain (λ key, negb (eq_ignore_ascii_case key CODEX_PERMISSION_PROFILE)) env
             else delete CODEX_PERMISSION_PROFILE env in
  match active with
  | Some id => <[CODEX_PERMISSION_PROFILE := id]> env
  | None => env
  end.

Definition inject_apply_patch_env (preserve_line_endings : bool) (env : env_map) : env_map :=
  let env := retain (λ key, negb (eq_ignore_ascii_case key PRESERVE_LINE_ENDINGS)) env in
  if preserve_line_endings then <[PRESERVE_LINE_ENDINGS := str "1"]> env else env.

Definition apply_unified_exec_env (env : env_map) : env_map := extend_env env UNIFIED_EXEC_ENV.

Definition strip_output_env (env : env_map) : env_map :=
  if windows then retain (λ key, negb (eq_ignore_ascii_case key PLUGIN_METRICS_OUTPUT)) env
  else delete PLUGIN_METRICS_OUTPUT env.

(** What [open_session_with_sandbox] reads of the session and of the turn. *)
Record Session := {
  pkg_version : rstring;
  thread_id : rstring;
  session_id : rstring;
  preserve_line_endings : bool;
  active_permission_profile : option rstring }.

(** The environment of a session, from the environment of the policy. *)
Definition session_env (s : Session) (local_policy_env : env_map) : env_map :=
  let env := <[CODEX_THREAD_ID := thread_id s]> local_policy_env in
  let env := inject_session_env (pkg_version s) (session_id s) env in
  let env := inject_apply_patch_env (preserve_line_endings s) env in
  let env := inject_permission_profile_env (active_permission_profile s) env in
  strip_output_env (apply_unified_exec_env env).

(** [command/exec] and [process/spawn] of the app server: the overrides of the request. *)
Definition apply_env_overrides (overrides : list (rstring * option rstring)) (env : env_map) : env_map :=
  foldl (λ env e, match e.2 with Some value => <[e.1 := value]> env | None => delete e.1 env end) env overrides.

Definition command_exec_env (vars : list (rstring * rstring)) (policy : ShellEnvironmentPolicy)
    (overrides : option (list (rstring * option rstring))) (preserve : bool) : env_map :=
  let env := create_env_from_vars vars policy None in
  let env := match overrides with Some overrides => apply_env_overrides overrides env | None => env end in
  inject_apply_patch_env preserve (retain (λ name, negb (is_non_inheritable_env_var name)) env).

Definition process_spawn_env (vars : list (rstring * rstring))
    (overrides : option (list (rstring * option rstring))) : env_map :=
  let env := extend_env ∅ vars in
  let env := match overrides with Some overrides => apply_env_overrides overrides env | None => env end in
  retain (λ name, negb (is_non_inheritable_env_var name)) env.

(** ** A command that inherits the environment of the process *)

(** The changes of a [Command]: a value, or the removal of a variable. *)
Definition env_remove (name : rstring) (changes : gmap rstring (option rstring)) : gmap rstring (option rstring) :=
  <[name := None]> changes.

Definition scrub_non_inheritable_env_vars (vars : list (rstring * rstring))
    (changes : gmap rstring (option rstring)) : gmap rstring (option rstring) :=
  let configured_names := (map_to_list changes).*1 in
  let changes := foldl (λ c name, env_remove name c) changes NON_INHERITABLE_ENV_VARS in
  foldl (λ c name, if is_non_inheritable_env_var name then env_remove name c else c)
    changes (vars.*1 ++ configured_names).

(** The environment with which a [Command] starts its child. *)
Definition command_child_env (vars : list (rstring * rstring)) (changes : gmap rstring (option rstring)) : env_map :=
  merge (λ inherited change, match change with Some change => change | None => inherited end)
    (extend_env ∅ vars) changes.

(** ** The exec server *)

Record ExecEnvPolicy := {
  p_inherit : ShellEnvironmentPolicyInherit;
  p_ignore_default_excludes : bool;
  p_exclude : list rstring;
  p_set : list (rstring * rstring);
  p_include_only : list rstring }.

Definition runtime_keys : list rstring :=
  [CODEX_PERMISSION_PROFILE; CODEX_VERSION; PRESERVE_LINE_ENDINGS; PLUGIN_METRICS_OUTPUT].

Definition exec_env_policy_from_shell_policy (policy : ShellEnvironmentPolicy) : ExecEnvPolicy :=
  {| p_inherit := inherit policy;
     p_ignore_default_excludes := ignore_default_excludes policy;
     p_exclude := map to_string (exclude policy) ++ runtime_keys;
     p_set := filter (λ e, negb (existsb (λ runtime_key, eq_ignore_ascii_case e.1 runtime_key) runtime_keys) &&
       negb (is_non_inheritable_env_var e.1) = true) (set policy);
     p_include_only := map to_string (include_only policy) |}.

Definition env_overlay_for_exec_server (request_env local_policy_env : env_map) : env_map :=
  filter (λ e : rstring * rstring,
    is_non_inheritable_env_var e.1 = false ∧
    (e.1 ∈ [CODEX_PERMISSION_PROFILE; CODEX_VERSION; PRESERVE_LINE_ENDINGS] ∨
     local_policy_env !! e.1 ≠ Some e.2)) request_env.

Definition shell_environment_policy (env_policy : ExecEnvPolicy) : ShellEnvironmentPolicy :=
  {| inherit := p_inherit env_policy;
     ignore_default_excludes := p_ignore_default_excludes env_policy;
     exclude := map new_case_insensitive (p_exclude env_policy);
     set := p_set env_policy;
     include_only := map new_case_insensitive (p_include_only env_policy);
     use_profile := false |}.

Definition child_env (vars : list (rstring * rstring)) (env_policy : option ExecEnvPolicy) (params_env : env_map)
    : env_map :=
  let env := match env_policy with
             | Some env_policy => params_env ∪ create_env_from_vars vars (shell_environment_policy env_policy) None
             | None => params_env
             end in
  let env := delete EXIT_ON_STDIN_CLOSE env in
  retain (λ name, negb (is_non_inheritable_env_var name)) env.
End env.

(** ** Variables of the managed proxy *)

Definition PROXY_ENV_KEYS (windows : bool) : list rstring :=
  [ str "CODEX_NETWORK_PROXY_ACTIVE"; str "CODEX_NETWORK_PROXY_CREDENTIAL_BROKER_ACTIVE";
    str "CODEX_NETWORK_PROXY_BROKERED_CREDENTIALS"; str "CODEX_NETWORK_ALLOW_LOCAL_BINDING" ] ++
  (if windows then [str "CODEX_WINDOWS_SANDBOX_PROXY_PORTS"] else []) ++
  [ str "CODEX_NETWORK_PROXY_ATTRIBUTION"; str "ELECTRON_GET_USE_PROXY"; str "NODE_USE_ENV_PROXY";
    str "HTTP_PROXY"; str "HTTPS_PROXY"; str "http_proxy"; str "https_proxy"; str "YARN_HTTP_PROXY";
    str "YARN_HTTPS_PROXY"; str "npm_config_http_proxy"; str "npm_config_https_proxy"; str "npm_config_proxy";
    str "NPM_CONFIG_HTTP_PROXY"; str "NPM_CONFIG_HTTPS_PROXY"; str "NPM_CONFIG_PROXY"; str "BUNDLE_HTTP_PROXY";
    str "BUNDLE_HTTPS_PROXY"; str "PIP_PROXY"; str "DOCKER_HTTP_PROXY"; str "DOCKER_HTTPS_PROXY"; str "WS_PROXY";
    str "WSS_PROXY"; str "ws_proxy"; str "wss_proxy"; str "NO_PROXY"; str "no_proxy"; str "npm_config_noproxy";
    str "NPM_CONFIG_NOPROXY"; str "YARN_NO_PROXY"; str "BUNDLE_NO_PROXY"; str "ALL_PROXY"; str "all_proxy";
    str "FTP_PROXY"; str "ftp_proxy" ].

Definition CUSTOM_CA_ENV_KEYS : list rstring :=
  [ str "CODEX_CA_CERTIFICATE"; str "SSL_CERT_FILE"; str "REQUESTS_CA_BUNDLE"; str "CURL_CA_BUNDLE";
    str "NODE_EXTRA_CA_CERTS"; str "GIT_SSL_CAINFO"; str "CARGO_HTTP_CAINFO"; str "PIP_CERT";
    str "BUNDLE_SSL_CA_CERT"; str "npm_config_cafile"; str "NPM_CONFIG_CAFILE" ].

Section request.
Context (windows : bool) (is_managed_mitm_ca_trust_bundle_path : rstring → bool).

Definition is_managed_proxy_env_var (key value : rstring) : bool :=
  if decide (key ∈ PROXY_ENV_KEYS windows) then true
  else if decide (key ∈ CUSTOM_CA_ENV_KEYS) then is_managed_mitm_ca_trust_bundle_path value
  else false.

(** What [exec_server_env_for_request] reads of a request. *)
Record ExecRequest := {
  request_env : env_map;
  exec_server_env_config : option (ExecEnvPolicy * env_map);
  has_shell_snapshot : bool;
  has_managed_network : bool }.

Definition exec_server_env_for_request (request : ExecRequest) : option ExecEnvPolicy * env_map :=
  match exec_server_env_config request with
  | Some (policy, local_policy_env) =>
      let env := env_overlay_for_exec_server (request_env request) local_policy_env in
      let env := if has_shell_snapshot request && bool_decide (tget (str "PATH") (p_set policy) = None)
                 then delete (str "PATH") env else env in
      let env := if has_managed_network request
                 then filter (λ e : rstring * rstring, is_managed_proxy_env_var e.1 e.2 = true) (request_env request) ∪ env
                 else env in
      (Some policy, env)
  | None => (None, request_env request)
  end.
End request.

(** ** Lookups *)

Lemma lookup_retain keep env k : retain keep env !! k = if keep k then env !! k else None.
Proof.
  unfold retain. destruct (env !! k) as [v|] eqn:E.
  - destruct (keep k) eqn:Hk; [by apply map_lookup_filter_Some_2|].
    apply map_lookup_filter_None_2. right. intros v' _. cbn. by rewrite Hk.
  - rewrite (proj2 (map_lookup_filter_None _ _ _)) by (by left). by destruct (keep k).
Qed.

Lemma lookup_extend_env env vars k :
  extend_env env vars !! k = match tget k (reverse vars) with Some v => Some v | None => env !! k end.
Proof.
  unfold extend_env. induction vars as [|[k1 v1] vars IH] using rev_ind; [done|].
  rewrite foldl_snoc, reverse_snoc. cbn. destruct (decide (k1 = k)) as [->|]; [by rewrite lookup_insert_eq|].
  by rewrite lookup_insert_ne.
Qed.

Lemma tget_filter (keep : rstring → bool) (l : list (rstring * rstring)) k :
  tget k (filter (λ e, keep e.1 = true) l) = if keep k then tget k l else None.
Proof.
  induction l as [|[k1 v1] l IH]; [by destruct (keep k)|]. rewrite filter_cons. cbn.
  destruct (decide (keep k1 = true)) as [H1|H1]; cbn; destruct (decide (k1 = k)) as [->|]; try done.
  - by rewrite H1.
  - rewrite IH. by destruct (keep k).
Qed.

Lemma eq_ignore_ascii_case_sym a b : eq_ignore_ascii_case a b = eq_ignore_ascii_case b a.
Proof. unfold eq_ignore_ascii_case. apply bool_decide_ext. by split. Qed.

Section exact.
Context {Pattern : Type} (new_case_insensitive : rstring → Pattern) (matches : Pattern → rstring → bool).

(** The variables that a policy lets through from the parent. *)
Definition inherits (windows : bool) (policy : ShellEnvironmentPolicy (Pattern := Pattern)) (k : rstring) : bool :=
  match inherit policy with
  | InheritAll => true
  | InheritNone => false
  | InheritCore => existsb (λ allowed, eq_ignore_ascii_case allowed k) (core_env_vars windows)
  end &&
  (ignore_default_excludes policy || negb (matches_any matches k (default_excludes new_case_insensitive))) &&
  negb (matches_any matches k (exclude policy)).

(** The value of a variable under a policy, from the parent's value. *)
Definition policy_value (policy : ShellEnvironmentPolicy (Pattern := Pattern)) (thread_id : option rstring)
    (parent : option rstring) (k : rstring) : option rstring :=
  if is_non_inheritable_env_var k then None
  else if decide (k = CODEX_THREAD_ID ∧ is_Some thread_id) then thread_id
  else if bool_decide (include_only policy = []) || matches_any matches k (include_only policy) then
    match tget k (reverse (set policy)) with
    | Some v => Some v
    | None => if inherits false policy k then parent else None
    end
  else None.

Lemma lookup_inherited windows vars (policy : ShellEnvironmentPolicy (Pattern := Pattern)) k :
  inherited windows vars policy !! k =
  if match inherit policy with
     | InheritAll => true
     | InheritNone => false
     | InheritCore => existsb (λ allowed, eq_ignore_ascii_case allowed k) (core_env_vars windows)
     end
  then tget k (reverse vars) else None.
Proof.
  unfold inherited. destruct (inherit policy); [|rewrite lookup_extend_env; by destruct (tget _ _)|done].
  rewrite lookup_extend_env, <-filter_reverse.
  rewrite (tget_filter (λ n, existsb (λ allowed, eq_ignore_ascii_case allowed n) (core_env_vars windows))).
  destruct (existsb _ _); [|done]. by destruct (tget _ _).
Qed.

(** The variables after the excludes. *)
Definition excluded (windows : bool) (vars : list (rstring * rstring)) (policy : ShellEnvironmentPolicy (Pattern := Pattern)) : env_map :=
  let env := inherited windows vars policy in
  let env := if ignore_default_excludes policy then env
             else retain (λ k, negb (matches_any matches k (default_excludes new_case_insensitive))) env in
  if decide (exclude policy = []) then env
  else retain (λ k, negb (matches_any matches k (exclude policy))) env.

Lemma lookup_excluded windows vars policy k :
  excluded windows vars policy !! k = if inherits windows policy k then tget k (reverse vars) else None.
Proof.
  unfold excluded, inherits. set (start := match inherit policy with InheritAll => _ | _ => _ end).
  set (env := if ignore_default_excludes policy then _ else _).
  assert (env !! k = if start && (ignore_default_excludes policy || negb (matches_any matches k (default_excludes new_case_insensitive)))
    then tget k (reverse vars) else None) as He.
  { unfold env. destruct (ignore_default_excludes policy); cbn [orb]; rewrite ?lookup_retain, lookup_inherited;
      fold start; destruct start; cbn; [done|done| |]; by destruct (negb _). }
  case_decide as Hx.
  - rewrite Hx, andb_true_r. exact He.
  - rewrite lookup_retain, He. destruct (negb (matches_any matches k (exclude policy)));
      [by rewrite andb_true_r|by rewrite andb_false_r].
Qed.

(** C39: the environment of a child on Unix, variable by variable.  A restricted name is
    absent; the thread is what the caller says; then the patterns to include decide; then a
    variable that the policy sets has that value, and any other one is the parent's if it is
    inherited and no pattern excludes it. *)
Theorem populate_env_exact vars policy thread_id k :
  populate_env false new_case_insensitive matches vars policy thread_id !! k =
  policy_value policy thread_id (tget k (reverse vars)) k.
Proof.
  unfold populate_env, policy_value. rewrite lookup_retain.
  destruct (is_non_inheritable_env_var k); [done|]. cbn [negb]. fold (excluded false vars policy).
  set (env := foldl _ _ _).
  assert (env !! k = match tget k (reverse (set policy)) with
    | Some v => Some v | None => if inherits false policy k then tget k (reverse vars) else None end) as He.
  { unfold env. by rewrite <-lookup_excluded, <-lookup_extend_env. }
  set (env' := if decide (include_only policy = []) then env else _).
  assert (env' !! k = if bool_decide (include_only policy = []) || matches_any matches k (include_only policy)
    then env !! k else None) as He'.
  { unfold env'. destruct (decide (include_only policy = [])) as [->|Hi]; [done|].
    by rewrite lookup_retain, bool_decide_eq_false_2. }
  rewrite <-He, <-He'. destruct thread_id as [t|]; [|by rewrite decide_False by (by intros [_ []])].
  destruct (decide (k = CODEX_THREAD_ID)) as [->|Hk];
    [by rewrite lookup_insert_eq, decide_True by (split; [done|by eexists])|].
  by rewrite lookup_insert_ne, decide_False by naive_solver.
Qed.

End exact.

(** ** Restricted names *)

(** An environment without restricted names. *)
Definition unrestricted {A} (env : gmap rstring A) : Prop :=
  ∀ name, is_non_inheritable_env_var name = true → env !! name = None.

Lemma unrestricted_retain keep env : unrestricted env → unrestricted (retain keep env).
Proof. intros He name Hn. rewrite lookup_retain, He by done. by destruct (keep name). Qed.

Lemma unrestricted_retained env : unrestricted (retain (λ name, negb (is_non_inheritable_env_var name)) env).
Proof. intros name Hn. by rewrite lookup_retain, Hn. Qed.

Lemma unrestricted_insert {A} (k : rstring) (v : A) (env : gmap rstring A) :
  is_non_inheritable_env_var k = false → unrestricted env → unrestricted (<[k := v]> env).
Proof. intros Hk He name Hn. rewrite lookup_insert_ne by congruence. by apply He. Qed.

Lemma unrestricted_delete {A} (k : rstring) (env : gmap rstring A) : unrestricted env → unrestricted (delete k env).
Proof. intros He name Hn. destruct (decide (k = name)) as [->|]; [by rewrite lookup_delete_eq|]. rewrite lookup_delete_ne by done. by apply He. Qed.

Lemma unrestricted_extend env vars :
  Forall (λ e, is_non_inheritable_env_var e.1 = false) vars → unrestricted env → unrestricted (extend_env env vars).
Proof.
  unfold extend_env. intros Hv. revert env. induction Hv as [|e vars He _ IH]; intros env Henv; [done|]. cbn.
  by apply IH, unrestricted_insert.
Qed.

Create HintDb env.
#[local] Hint Resolve unrestricted_retain unrestricted_retained unrestricted_delete : env.
#[local] Hint Extern 3 (unrestricted (<[_ := _]> _)) => apply unrestricted_insert; [by vm_compute|] : env.
#[local] Hint Extern 3 (unrestricted (extend_env _ UNIFIED_EXEC_ENV)) =>
  apply unrestricted_extend; [by repeat constructor; vm_compute|] : env.

Lemma session_env_unrestricted windows s env : unrestricted env → unrestricted (session_env windows s env).
Proof.
  intros He. unfold session_env, strip_output_env, apply_unified_exec_env, inject_permission_profile_env,
    inject_apply_patch_env, inject_session_env.
  destruct windows, (preserve_line_endings s), (active_permission_profile s); auto 12 with env.
Qed.

Lemma foldl_env_remove (P : rstring → bool) (names : list rstring) (changes : gmap rstring (option rstring)) (k : rstring) :
  foldl (λ c name, if P name then env_remove name c else c) changes names !! k =
  if P k && bool_decide (k ∈ names) then Some None else changes !! k.
Proof.
  revert changes. induction names as [|n names IH]; intros changes; cbn.
  { by rewrite bool_decide_eq_false_2, andb_false_r by apply not_elem_of_nil. }
  rewrite IH. destruct (decide (k = n)) as [->|Hk].
  - rewrite (bool_decide_eq_true_2 (n ∈ n :: names)) by by left. destruct (P n); cbn; [|done].
    unfold env_remove. rewrite lookup_insert_eq. by destruct (bool_decide _).
  - rewrite (bool_decide_ext (k ∈ n :: names) (k ∈ names)) by (rewrite elem_of_cons; naive_solver).
    destruct (P n); [|done]. unfold env_remove. by rewrite lookup_insert_ne.
Qed.

Lemma restricted_names_restricted name : name ∈ NON_INHERITABLE_ENV_VARS → is_non_inheritable_env_var name = true.
Proof. intros Hn. unfold is_non_inheritable_env_var. apply existsb_exists. exists name. split; [by apply list_elem_of_In|]. by apply bool_decide_eq_true_2. Qed.

Lemma scrub_lookup vars changes k :
  scrub_non_inheritable_env_vars vars changes !! k =
  if is_non_inheritable_env_var k && bool_decide (k ∈ NON_INHERITABLE_ENV_VARS ∨ k ∈ vars.*1 ∨ is_Some (changes !! k))
  then Some None else changes !! k.
Proof.
  unfold scrub_non_inheritable_env_vars. rewrite foldl_env_remove.
  rewrite (foldl_env_remove (λ _, true) NON_INHERITABLE_ENV_VARS). cbn [andb].
  assert (k ∈ (map_to_list changes).*1 ↔ is_Some (changes !! k)) as Hc.
  { rewrite list_elem_of_fmap. split; [intros ([k' v] & -> & Hin%elem_of_map_to_list); by eexists|].
    intros [v Hv]. exists (k, v). split; [done|]. by apply elem_of_map_to_list. }
  destruct (is_non_inheritable_env_var k) eqn:Hk; cbn [andb].
  - repeat case_bool_decide; try done; exfalso; set_solver.
  - rewrite bool_decide_eq_false_2; [done|]. intros Hn%restricted_names_restricted. congruence.
Qed.

(** Scrubbing a command removes the restricted names and nothing else. *)
Lemma scrubbed_child_env vars changes k :
  command_child_env vars (scrub_non_inheritable_env_vars vars changes) !! k =
  if is_non_inheritable_env_var k then None else command_child_env vars changes !! k.
Proof.
  unfold command_child_env. rewrite !lookup_merge, scrub_lookup. destruct (is_non_inheritable_env_var k); cbn [andb]; [|done].
  rewrite lookup_extend_env. case_bool_decide as Hk.
  - by destruct (tget k (reverse vars)).
  - rewrite (proj2 (tget_None k (reverse vars))); [|rewrite fmap_reverse, elem_of_reverse; naive_solver].
    destruct (changes !! k) eqn:E; [|done]. exfalso. apply Hk. right. right. by eexists.
Qed.

(** C37: no child of the agent gets a restricted variable.  Whatever the platform, the policy,
    the overrides of a request and the changes of a command are, and however the name is
    written, a name that must not be inherited is absent from the environment of a session,
    of a command of the app server, of a child of an exec server and of a scrubbed command. *)
Theorem restricted_never_inherited windows {Pattern : Type} (new_case_insensitive : rstring → Pattern) matches
    vars policy thread s overrides preserve env_policy params_env changes name :
  is_non_inheritable_env_var name = true →
  let local := create_env_from_vars windows new_case_insensitive matches vars policy thread in
  local !! name = None ∧
  session_env windows s local !! name = None ∧
  command_exec_env windows new_case_insensitive matches vars policy overrides preserve !! name = None ∧
  process_spawn_env vars overrides !! name = None ∧
  child_env windows new_case_insensitive matches vars env_policy params_env !! name = None ∧
  command_child_env vars (scrub_non_inheritable_env_vars vars changes) !! name = None.
Proof.
  intros Hn local. assert (unrestricted local) as Hl.
  { unfold local, create_env_from_vars. assert (unrestricted (populate_env windows new_case_insensitive matches vars policy thread)) as Hp
      by apply unrestricted_retained.
    destruct windows; [|done]. destruct (existsb _ _); auto with env. }
  split; [by apply Hl|]. split; [by apply session_env_unrestricted|]. split.
  { assert (unrestricted (command_exec_env windows new_case_insensitive matches vars policy overrides preserve)) as Hc;
      [|by apply Hc]. unfold command_exec_env, inject_apply_patch_env. destruct preserve; auto with env. }
  split; [by apply unrestricted_retained|]. split; [by apply unrestricted_retained|].
  by rewrite scrubbed_child_env, Hn.
Qed.

(** ** The environment that an exec server computes *)

(** What the code relies on of the wildcard library: a pattern compiled without regard to case
    that is printed and compiled so again matches the same names, and a text without wildcards
    matches the names that differ from it in ASCII case at most. *)
Class WildLaws {Pattern : Type} (new_case_insensitive : rstring → Pattern) (matches : Pattern → rstring → bool)
    (to_string : Pattern → rstring) : Prop := {
  pattern_round_trip text name :
    matches (new_case_insensitive (to_string (new_case_insensitive text))) name = matches (new_case_insensitive text) name;
  literal_pattern text name :
    42%N ∉ text → 63%N ∉ text → eq_ignore_ascii_case text name = true →
    matches (new_case_insensitive text) name = true }.

Section remote.
Context {Pattern : Type} (new_case_insensitive : rstring → Pattern) (matches : Pattern → rstring → bool)
  (to_string : Pattern → rstring) `{!WildLaws new_case_insensitive matches to_string}.

(** The policy as the exec server reads it. *)
#[local] Abbreviation sent policy :=
  (shell_environment_policy new_case_insensitive (exec_env_policy_from_shell_policy to_string policy)).
#[local] Abbreviation runtime_match k := (matches_any matches k (map new_case_insensitive runtime_keys)).

(** The pattern was compiled without regard to case, as the patterns of configurations are. *)
Definition compiled (p : Pattern) : Prop := ∃ text, p = new_case_insensitive text.

Lemma round_trip_matches_any k ps :
  Forall compiled ps → matches_any matches k (map new_case_insensitive (map to_string ps)) = matches_any matches k ps.
Proof.
  induction 1 as [|p ps [text ->] _ IH]; cbn; [done|]. unfold matches_any in IH. by rewrite pattern_round_trip, IH.
Qed.

Lemma runtime_keys_plain : Forall (λ r, (42%N ∉ r) ∧ (63%N ∉ r)) runtime_keys.
Proof using Type. apply (bool_decide_unpack _). by vm_compute. Qed.

Lemma runtime_key_matches k r : r ∈ runtime_keys → eq_ignore_ascii_case r k = true → runtime_match k = true.
Proof.
  intros Hr Hk. apply existsb_exists. exists (new_case_insensitive r).
  split; [by apply in_map, list_elem_of_In|]. pose proof runtime_keys_plain as Hp. rewrite Forall_forall in Hp.
  destruct (Hp r Hr). by apply literal_pattern.
Qed.

Lemma sent_inherits policy k : Forall compiled (exclude policy) → inherits new_case_insensitive matches false (sent policy) k =
  inherits new_case_insensitive matches false policy k && negb (runtime_match k).
Proof.
  intros Hex. unfold inherits. cbn [inherit ignore_default_excludes exclude shell_environment_policy exec_env_policy_from_shell_policy
    p_inherit p_ignore_default_excludes p_exclude]. rewrite map_app. unfold matches_any at 2. rewrite existsb_app.
  fold (matches_any matches k (map new_case_insensitive (map to_string (exclude policy)))). rewrite round_trip_matches_any by done.
  unfold matches_any at 5. by rewrite negb_orb, !andb_assoc.
Qed.

Lemma sent_set policy k :
  tget k (reverse (set (sent policy))) =
  if negb (existsb (λ runtime_key, eq_ignore_ascii_case k runtime_key) runtime_keys) &&
     negb (is_non_inheritable_env_var k) then tget k (reverse (set policy)) else None.
Proof using Type.
  cbn [set shell_environment_policy exec_env_policy_from_shell_policy p_set]. rewrite <-filter_reverse.
  apply (tget_filter (λ k, negb (existsb (λ runtime_key, eq_ignore_ascii_case k runtime_key) runtime_keys) &&
     negb (is_non_inheritable_env_var k))).
Qed.

(** A name that no runtime key matches has the value it has under the policy itself; a
    runtime key has none. *)
Lemma sent_value policy parent k :
  Forall compiled (exclude policy) → Forall compiled (include_only policy) → is_non_inheritable_env_var k = false → runtime_match k = false →
  policy_value new_case_insensitive matches (sent policy) None parent k =
  policy_value new_case_insensitive matches policy None parent k.
Proof.
  intros Hex Hin Hn Hr. unfold policy_value. rewrite Hn, !decide_False by (by intros [_ []]).
  assert (existsb (λ runtime_key, eq_ignore_ascii_case k runtime_key) runtime_keys = false) as He.
  { apply not_true_iff_false. intros (r & Hrk%list_elem_of_In & Hk)%existsb_exists.
    rewrite eq_ignore_ascii_case_sym in Hk. rewrite (runtime_key_matches k r) in Hr; done. }
  rewrite sent_set, sent_inherits, He, Hn, Hr by done. cbn [negb andb]. rewrite andb_true_r.
  cbn [include_only shell_environment_policy exec_env_policy_from_shell_policy p_include_only].
  rewrite round_trip_matches_any by done. by destruct (include_only policy).
Qed.

Lemma sent_runtime_key policy parent k :
  Forall compiled (exclude policy) → existsb (λ runtime_key, eq_ignore_ascii_case k runtime_key) runtime_keys = true →
  policy_value new_case_insensitive matches (sent policy) None parent k = None.
Proof.
  intros Hex He. unfold policy_value. rewrite decide_False by (by intros [_ []]).
  assert (runtime_match k = true) as Hr.
  { apply existsb_exists in He as (r & Hin%list_elem_of_In & Hk). rewrite eq_ignore_ascii_case_sym in Hk. by eapply runtime_key_matches. }
  rewrite sent_set, sent_inherits, He, Hr by done. cbn [negb andb]. rewrite andb_false_r.
  by repeat case_match.
Qed.

(** What a session does not remove stays. *)
Lemma session_env_keeps s env k :
  eq_ignore_ascii_case k PRESERVE_LINE_ENDINGS = false → k ≠ CODEX_PERMISSION_PROFILE → k ≠ PLUGIN_METRICS_OUTPUT →
  session_env false s env !! k = None → env !! k = None.
Proof using Type.
  intros H1 H2 H3. unfold session_env, strip_output_env, apply_unified_exec_env.
  rewrite lookup_delete_ne, lookup_extend_env by done. destruct (tget k (reverse UNIFIED_EXEC_ENV)); [done|].
  unfold inject_permission_profile_env. assert (∀ id e, <[CODEX_PERMISSION_PROFILE := id]> e !! k = (e : env_map) !! k) as Hp
    by (intros; by rewrite lookup_insert_ne).
  intros H. assert (inject_apply_patch_env (preserve_line_endings s) (inject_session_env false (pkg_version s) (session_id s)
    (<[CODEX_THREAD_ID := thread_id s]> env)) !! k = None) as H'
    by (destruct (active_permission_profile s); rewrite ?Hp, lookup_delete_ne in H by done; exact H).
  clear H Hp. unfold inject_apply_patch_env in H'.
  set (e := inject_session_env _ _ _ _) in *. assert (e !! k = None) as He.
  { destruct (preserve_line_endings s); [|by rewrite lookup_retain, H1 in H'].
    apply lookup_insert_None in H' as [H' _]. by rewrite lookup_retain, H1 in H'. }
  unfold e, inject_session_env in He. by repeat apply lookup_insert_None in He as [He _].
Qed.

Lemma session_env_plugin s env : session_env false s env !! PLUGIN_METRICS_OUTPUT = None.
Proof using Type. apply lookup_delete_eq. Qed.

Lemma lookup_overlay request local k :
  env_overlay_for_exec_server request local !! k =
  match request !! k with
  | Some v => if decide (is_non_inheritable_env_var k = false ∧
                (k ∈ [CODEX_PERMISSION_PROFILE; CODEX_VERSION; PRESERVE_LINE_ENDINGS] ∨ local !! k ≠ Some v))
              then Some v else None
  | None => None
  end.
Proof using Type.
  unfold env_overlay_for_exec_server. destruct (request !! k) as [v|] eqn:E.
  - case_decide as H; [by apply map_lookup_filter_Some_2|].
    apply map_lookup_filter_None_2. right. intros v' Hv. rewrite E in Hv. by injection Hv as <-.
  - apply map_lookup_filter_None_2. by left.
Qed.

(** C38: on Unix a process that an exec server starts for a session gets the environment of the
    session.  The server gets the policy and the variables in which the session differs from it,
    and computes the environment from its own variables.  For a request without a shell snapshot
    and without the managed network, and a policy whose patterns were compiled without regard to
    case, every name that is in the server's own variables what it is in the agent's has the value
    it has in the session.  Excepted are the variable of the server itself and names that a
    runtime key matches in other letters. *)
Theorem exec_server_env_agrees managed s vars server_vars policy k :
  Forall compiled (exclude policy) → Forall compiled (include_only policy) →
  tget k (reverse server_vars) = tget k (reverse vars) →
  k ≠ EXIT_ON_STDIN_CLOSE → k ∈ runtime_keys ∨ runtime_match k = false →
  let local := create_env_from_vars false new_case_insensitive matches vars policy None in
  let request := {| request_env := session_env false s local;
                    exec_server_env_config := Some (exec_env_policy_from_shell_policy to_string policy, local);
                    has_shell_snapshot := false; has_managed_network := false |} in
  let '(env_policy, env) := exec_server_env_for_request false managed request in
  child_env false new_case_insensitive matches server_vars env_policy env !! k = session_env false s local !! k.
Proof.
  intros Hex Hin Hvars Hexit Hk local. cbn zeta. unfold exec_server_env_for_request.
  cbn [exec_server_env_config has_shell_snapshot has_managed_network request_env andb].
  unfold child_env. rewrite lookup_retain, lookup_delete_ne, lookup_union, lookup_overlay by done.
  unfold create_env_from_vars. rewrite populate_env_exact, Hvars.
  assert (unrestricted (session_env false s local)) as Hu by apply session_env_unrestricted, unrestricted_retained.
  destruct (is_non_inheritable_env_var k) eqn:Hn; [by rewrite Hu|]. cbn [negb].
  assert (local !! k = policy_value new_case_insensitive matches policy None (tget k (reverse vars)) k) as Hl
    by apply populate_env_exact.
  destruct Hk as [Hk|Hk].
  - rewrite sent_runtime_key by first [done|apply existsb_exists; exists k; split; [by apply list_elem_of_In|by apply bool_decide_eq_true_2]].
    destruct (session_env false s local !! k) as [v|] eqn:E; [|done]. rewrite decide_True; [done|].
    split; [done|left]. unfold runtime_keys in Hk. rewrite !elem_of_cons in Hk |- *.
    destruct Hk as [?|[?|[?| ->%list_elem_of_singleton]]]; [tauto..|]. by rewrite session_env_plugin in E.
  - rewrite sent_value, <-Hl by done. destruct (session_env false s local !! k) as [v|] eqn:E.
    + case_decide as Hd; [by destruct (local !! k)|]. destruct (decide (local !! k = Some v)) as [->|]; [done|]. naive_solver.
    + assert (∀ r, r ∈ runtime_keys → eq_ignore_ascii_case k r = false) as Hr.
      { intros r Hr. apply not_true_iff_false. rewrite eq_ignore_ascii_case_sym. intros Hm%(runtime_key_matches _ _ Hr). congruence. }
      apply session_env_keeps in E; [by rewrite E|apply Hr; unfold runtime_keys; set_solver|..];
        intros ->; by (discriminate (Hr CODEX_PERMISSION_PROFILE ltac:(unfold runtime_keys; set_solver)) ||
          discriminate (Hr PLUGIN_METRICS_OUTPUT ltac:(unfold runtime_keys; set_solver))).
Qed.
End remote.

(** ** Examples *)

Module Example.

(** A wildcard matcher: [*] is any text and [?] any character, letters without case. *)
Fixpoint wild (p : rstring) : rstring → bool :=
  match p with
  | [] => λ s, bool_decide (s = [])
  | c :: p' =>
      if (c =? 42)%N then
        fix star (s : rstring) := wild p' s || match s with [] => false | _ :: s' => star s' end
      else λ s, match s with
                | [] => false
                | d :: s' => ((c =? 63) || (c =? d))%N && wild p' s'
                end
  end.

Definition pattern (text : rstring) : rstring := to_ascii_lowercase text.
Definition wild_matches (p name : rstring) : bool := wild p (to_ascii_lowercase name).

Lemma wild_literal p : 42%N ∉ p → wild p p = true.
Proof.
  induction p as [|c p IH]; [done|]. intros [Hc Hp]%not_elem_of_cons. cbn.
  destruct (N.eqb_spec c 42); [congruence|]. by rewrite N.eqb_refl, orb_true_r, IH.
Qed.

Lemma lowercase_star p : 42%N ∉ p → 42%N ∉ to_ascii_lowercase p.
Proof.
  intros Hp (c & Hc & Hin)%list_elem_of_fmap. apply Hp. unfold char_to_ascii_lowercase in Hc.
  destruct ((65 <=? c) && (c <=? 90))%N eqn:E; [|by subst]. apply andb_true_iff in E as [E%N.leb_le _]. lia.
Qed.

#[export] Instance wild_laws : WildLaws pattern wild_matches id.
Proof.
  split.
  - intros text name. unfold pattern. simpl. by rewrite to_ascii_lowercase_idem.
  - intros text name H1 H2 He%bool_decide_eq_true. unfold wild_matches, pattern. rewrite <-He.
    by apply wild_literal, lowercase_star.
Qed.

Definition policy : ShellEnvironmentPolicy (Pattern := rstring) :=
  {| inherit := InheritAll; ignore_default_excludes := false; exclude := [pattern (str "AWS_*")];
     set := [(str "EDITOR", str "true")]; include_only := []; use_profile := false |}.

Definition vars : list (rstring * rstring) :=
  [ (str "PATH", str "/bin"); (str "AWS_REGION", str "x"); (str "GH_TOKEN", str "t"); (str "TERM", str "dumb") ].

Definition session : Session :=
  {| pkg_version := str "1.0"; thread_id := str "t"; session_id := str "s"; preserve_line_endings := true;
     active_permission_profile := None |}.

(** The policy at work: the excluded names are gone and the rest is there. *)
Lemma populate_env_example :
  (λ k, populate_env false pattern wild_matches vars policy None !! k) <$>
    [str "PATH"; str "AWS_REGION"; str "GH_TOKEN"; str "EDITOR"] =
  [Some (str "/bin"); None; None; Some (str "true")].
Proof. by vm_compute. Qed.

Lemma restricted_never_inherited_witness :
  is_non_inheritable_env_var (str "Node_Repl_Auth_Token") = true ∧
  process_spawn_env [(str "NODE_REPL_AUTH_TOKEN", str "x")] (Some [(str "Node_Repl_Auth_Token", Some (str "y"))])
    !! str "Node_Repl_Auth_Token" = None.
Proof.
  assert (is_non_inheritable_env_var (str "Node_Repl_Auth_Token") = true) as H by by vm_compute. split; [exact H|].
  destruct (restricted_never_inherited false pattern wild_matches
    [(str "NODE_REPL_AUTH_TOKEN", str "x")] policy None session
    (Some [(str "Node_Repl_Auth_Token", Some (str "y"))]) false None ∅ ∅ (str "Node_Repl_Auth_Token") H)
    as (_ & _ & _ & Hs & _). exact Hs.
Defined.

Lemma exec_server_env_agrees_witness :
  let local := create_env_from_vars false pattern wild_matches vars policy None in
  child_env false pattern wild_matches ((str "LANG", str "C") :: vars)
    (Some (exec_env_policy_from_shell_policy id policy))
    (env_overlay_for_exec_server (session_env false session local) local) !! str "TERM" =
  session_env false session local !! str "TERM".
Proof.
  apply (exec_server_env_agrees pattern wild_matches id (λ _, false) session vars ((str "LANG", str "C") :: vars)
    policy (str "TERM")); [by repeat constructor; eexists|by constructor|by vm_compute|by vm_compute|right; by vm_compute].
Defined.

End Example.
