(* ===== verification/ConfigLayers.v ===== *)
(** * Layers of configuration ([config/src/state.rs], [config_layer_source.rs], [fingerprint.rs])

    The stack of configuration layers: its order, the replacement of the user layers, the
    merged configuration and the layer each field comes from.  A path is the list of its
    segments.  Arguments: what the hash of a layer and the check of its environment filters
    need of libraries ([to_value], [to_vec], [sha256], [read_inherit], [read_filter],
    [read_non_table]) and [str::to_lowercase]; the requirements that a stack carries are
    opaque. *)

From S2P Require Import Prelude RustStr IpAddr AbsolutePath ConfigToml Fingerprint ShellEnv.

Local Open Scope nat_scope.

Definition AbsolutePathBuf : Type := list rstring.

(** ** Sources *)

Inductive ConfigLayerSource :=
| PackagedDefaults (file : AbsolutePathBuf)
| Mdm (domain key : rstring)
| System (file : AbsolutePathBuf)
| SourceEnterpriseManaged (id name : rstring)
| User (file : AbsolutePathBuf) (profile : option rstring)
| Project (dot_codex_folder : AbsolutePathBuf)
| SessionFlags
| SourceLegacyFromFile (file : AbsolutePathBuf)
| SourceLegacyFromMdm.

Definition precedence (s : ConfigLayerSource) : Z :=
  match s with
  | PackagedDefaults _ => -10
  | Mdm _ _ => 0
  | System _ => 10
  | SourceEnterpriseManaged _ _ => 15
  | User _ profile => if decide (is_Some profile) then 21 else 20
  | Project _ => 25
  | SessionFlags => 30
  | SourceLegacyFromFile _ => 40
  | SourceLegacyFromMdm => 50
  end.

Definition is_user (s : ConfigLayerSource) : bool := match s with User _ _ => true | _ => false end.

Record ConfigLayerMetadata := { meta_name : ConfigLayerSource; meta_version : rstring }.

Record RawTomlLayer := { contents : rstring; base_dir : AbsolutePathBuf }.

Record ConfigLayerEntry := {
  layer_name : ConfigLayerSource;
  layer_config : Toml;
  layer_version : rstring;
  disabled_reason : option rstring;
  raw_toml : option RawTomlLayer;
  hooks_config_folder_override : option AbsolutePathBuf }.

Definition is_disabled (l : ConfigLayerEntry) : bool := bool_decide (is_Some (disabled_reason l)).

Definition metadata (l : ConfigLayerEntry) : ConfigLayerMetadata :=
  {| meta_name := layer_name l; meta_version := layer_version l |}.

(** [Path::parent]. *)
Definition path_parent (p : AbsolutePathBuf) : option AbsolutePathBuf :=
  match p with [] => None | _ => Some (take (pred (length p)) p) end.

Definition config_folder (l : ConfigLayerEntry) : option AbsolutePathBuf :=
  match layer_name l with
  | System file | User file _ => path_parent file
  | Project dot_codex_folder => Some dot_codex_folder
  | _ => None
  end.

Definition hooks_config_folder (l : ConfigLayerEntry) : option AbsolutePathBuf :=
  match hooks_config_folder_override l with Some p => Some p | None => config_folder l end.

Definition with_hooks_config_folder_override (p : option AbsolutePathBuf) (l : ConfigLayerEntry)
    : ConfigLayerEntry :=
  {| layer_name := layer_name l; layer_config := layer_config l; layer_version := layer_version l;
     disabled_reason := disabled_reason l; raw_toml := raw_toml l; hooks_config_folder_override := p |}.

(** [ProfileV2Name::from_str]. *)
Definition is_profile_char (c : char) : bool :=
  (is_ascii_digit c || (65 <=? c) && (c <=? 90) || (97 <=? c) && (c <=? 122) || (c =? 95) || (c =? 45))%N.

Definition parse_profile (value : rstring) : option rstring :=
  if bool_decide (value = []) || negb (forallb is_profile_char value) then None else Some value.

(** ** Origins *)

Definition join_dots (path : list rstring) : rstring := join [DOT] path.

(** The origin of a value that is neither a table nor an array. *)
Definition scalar_origin (value : Toml) (meta : ConfigLayerMetadata) (path : list rstring)
    (origins : gmap rstring ConfigLayerMetadata) : gmap rstring ConfigLayerMetadata :=
  if decide (path = []) then origins
  else
    match value with
    | TBoolean _ =>
        if is_structured_feature_path path then
          let origins := if decide (last path = Some (str "network_proxy"))
                         then <[join_dots path := meta]> origins else origins in
          <[join_dots (path ++ [str "enabled"]) := meta]> origins
        else <[join_dots path := meta]> origins
    | _ => <[join_dots path := meta]> origins
    end.

Fixpoint record_origins (value : Toml) (meta : ConfigLayerMetadata) (path : list rstring)
    (origins : gmap rstring ConfigLayerMetadata) : gmap rstring ConfigLayerMetadata :=
  match value with
  | TTable table =>
      (fix entries (l : list (rstring * Toml)) origins :=
         match l with
         | [] => origins
         | (key, val) :: l' => entries l' (record_origins val meta (path ++ [key]) origins)
         end) table origins
  | TArray items =>
      (fix elements (idx : nat) (l : list Toml) origins :=
         match l with
         | [] => origins
         | item :: l' => elements (S idx) l' (record_origins item meta (path ++ [display_nat idx]) origins)
         end) 0 items origins
  | _ => scalar_origin value meta path origins
  end.

(** ** The stack *)

Inductive LayerError := InvalidFilters (layer : ConfigLayerSource) | NotInOrder | NoParent | ProjectsNotInOrder.

(** [is_sorted] by precedence. *)
Fixpoint sorted_by_precedence (layers : list ConfigLayerEntry) : bool :=
  match layers with
  | a :: (b :: _) as layers' =>
      (precedence (layer_name a) <=? precedence (layer_name b))%Z && sorted_by_precedence layers'
  | _ => true
  end.

(** The loop over the project layers. *)
Fixpoint verify_projects (previous : option AbsolutePathBuf) (layers : list ConfigLayerEntry)
    : res LayerError () :=
  match layers with
  | [] => Ok ()
  | layer :: layers' =>
      match layer_name layer with
      | Project current =>
          let? _ := match previous with
                    | None => Ok ()
                    | Some previous =>
                        let? parent := ok_or NoParent (path_parent previous) in
                        if decide (previous = current ∨ ¬ parent `prefix_of` current)
                        then Err ProjectsNotInOrder else Ok ()
                    end in
          verify_projects (Some current) layers'
      | _ => verify_projects previous layers'
      end
  end.

Definition verify_layer_ordering (layers : list ConfigLayerEntry) : res LayerError () :=
  if sorted_by_precedence layers then verify_projects None layers else Err NotInOrder.

(** ** The origins of one value *)

(** The paths that [record_origins] writes. *)
Definition scalar_paths (value : Toml) (path : list rstring) : list (list rstring) :=
  if decide (path = []) then []
  else
    match value with
    | TBoolean _ =>
        if is_structured_feature_path path then
          (if decide (last path = Some (str "network_proxy")) then [path] else []) ++ [path ++ [str "enabled"]]
        else [path]
    | _ => [path]
    end.

Fixpoint origin_paths (value : Toml) (path : list rstring) : list (list rstring) :=
  match value with
  | TTable table => flat_map (λ e, origin_paths e.2 (path ++ [e.1])) table
  | TArray items =>
      (fix elements (idx : nat) (l : list Toml) :=
         match l with
         | [] => []
         | item :: l' => origin_paths item (path ++ [display_nat idx]) ++ elements (S idx) l'
         end) 0 items
  | _ => scalar_paths value path
  end.

Definition write_origins (meta : ConfigLayerMetadata) (o : gmap rstring ConfigLayerMetadata)
    (ps : list (list rstring)) : gmap rstring ConfigLayerMetadata :=
  foldl (λ o p, <[join_dots p := meta]> o) o ps.

Lemma record_origins_writes v meta path o : record_origins v meta path o = write_origins meta o (origin_paths v path).
Proof.
  revert path o. induction v as [v Ha Ht|l IH|t IH] using toml_ind'; intros path o.
  - assert (record_origins v meta path o = scalar_origin v meta path o) as -> by (destruct v; by try destruct (Ha items)).
    assert (origin_paths v path = scalar_paths v path) as -> by (destruct v; by try destruct (Ha items)).
    unfold scalar_origin, scalar_paths. case_decide; [done|]. destruct v; try done.
    destruct (is_structured_feature_path path); [|done]. by case_decide.
  - cbn. generalize 0. revert o. induction IH as [|v l Hv _ IH]; intros o n; [done|].
    unfold write_origins in *. by rewrite foldl_app, IH, Hv.
  - cbn. revert o. induction IH as [|[k v] t Hv _ IH]; intros o; [done|].
    unfold write_origins in *. cbn. by rewrite foldl_app, IH, Hv.
Qed.

Lemma write_origins_lookup meta o ps key :
  write_origins meta o ps !! key = if decide (key ∈ join_dots <$> ps) then Some meta else o !! key.
Proof.
  revert o. induction ps as [|p ps IH]; intros o; [done|].
  change (write_origins meta o (p :: ps)) with (write_origins meta (<[join_dots p := meta]> o) ps). rewrite IH, fmap_cons.
  destruct (decide (key ∈ join_dots <$> ps)); [by rewrite decide_True by (by right)|].
  destruct (decide (key = join_dots p)) as [->|Hk]; [by rewrite lookup_insert_eq, decide_True by (by left)|].
  rewrite lookup_insert_ne by done. rewrite decide_False; [done|]. by intros [?|?]%elem_of_cons.
Qed.

(** A recorded path is one that the value touches, with keys of the value, indices and
    [enabled] for its segments. *)
Section keys.
Context (Q : rstring → Prop) (Qindex : ∀ n, Q (display_nat n)) (Qenabled : Q (str "enabled")).

Lemma origin_paths_touch v path q :
  toml_ok_with Q v → q ∈ origin_paths v path →
  q ≠ [] ∧ ∃ r, q = path ++ r ∧ touches r v = true ∧ Forall Q r.
Proof.
  revert path. induction v as [v Ha Ht|l IH|t IH] using toml_ind'; intros path Hv Hq.
  - assert (origin_paths v path = scalar_paths v path) as Hs by (destruct v; by try destruct (Ha items)).
    rewrite Hs in Hq. unfold scalar_paths in Hq. case_decide; [by apply elem_of_nil in Hq|].
    assert (q = path ∨ q = path ++ [str "enabled"]) as [->| ->].
    { destruct v; try (by left; apply list_elem_of_singleton in Hq).
      destruct (is_structured_feature_path path); [|left; by apply list_elem_of_singleton in Hq].
      case_decide; cbn in Hq; set_solver. }
    + split; [done|]. exists []. by rewrite app_nil_r.
    + split; [by destruct path|]. exists [str "enabled"]. split; [done|]. split; [by destruct v|by constructor].
  - cbn in Hq. apply toml_ok_array in Hv. revert Hq. generalize 0. induction IH as [|v l Hl _ IH]; intros n Hq; [by apply elem_of_nil in Hq|].
    apply Forall_cons in Hv as [Hv Hvs]. apply elem_of_app in Hq as [Hq|Hq];
      [|destruct (IH Hvs _ Hq) as (Hn & r & -> & _ & Hr); split; [done|]; exists r; by destruct r].
    apply Hl in Hq as (Hn & r & -> & _ & Hr); [|done]. split; [done|]. eexists. rewrite <-app_assoc. split; [done|].
    split; [done|]. by constructor.
  - apply list_elem_of_In, in_flat_map in Hq as ([k v] & Hin%list_elem_of_In & Hq%list_elem_of_In). cbn in Hq.
    rewrite Forall_forall in IH. pose proof (toml_ok_table Q t) as [Ht _]. apply Ht in Hv as [Hn Hv].
    rewrite Forall_forall in Hv. destruct (Hv _ Hin) as [Hk Hc].
    destruct (IH _ Hin (path ++ [k]) Hc Hq) as (Hq0 & r & -> & Htr & Hr). split; [done|].
    exists (k :: r). rewrite <-app_assoc. split; [done|]. split; [|by constructor]. cbn. by rewrite (elem_tget k t v).
Qed.

Lemma get_path_keys v p w : toml_ok_with Q v → get_path p v = Some w → Forall Q p.
Proof using Type.
  revert v. induction p as [|k p IH]; intros v Hv; [constructor|]. cbn. destruct v as [| | | | | |t]; try done.
  destruct (tget k t) as [c|] eqn:E; [|done]. apply (toml_ok_child Q) in E as [Hk Hc]; [|done].
  constructor; [done|by eapply IH].
Qed.

(** Normalisation keeps the keys, up to the canonical ones. *)
Lemma apply_alias_Forall {V} (R : rstring * V → Prop) path t alias :
  (∀ v, R (legacy_key alias, v) → R (canonical_key alias, v)) → Forall R t → Forall R (apply_alias path t alias).
Proof using Type.
  intros Ha Ht. unfold apply_alias. case_decide; [|done]. destruct (tget _ t) as [v|] eqn:E; [|done].
  assert (Forall R (tremove (legacy_key alias) t)) as Hr.
  { rewrite Forall_forall in Ht |- *. intros e [_ He]%list_elem_of_filter. by apply Ht. }
  destruct (tget (canonical_key alias) _); [done|]. apply tget_elem in E. rewrite Forall_forall in Ht.
  apply Ht, Ha in E. induction Hr as [|[k w] t' Hk Ht' IH]; cbn; [by constructor|].
  case_decide; [subst; by constructor|constructor; [done|]]. apply IH.
Qed.

Lemma normalize_key_aliases_Forall {V} (R : rstring * V → Prop) path t :
  (∀ a v, a ∈ CONFIG_KEY_ALIASES → R (legacy_key a, v) → R (canonical_key a, v)) → Forall R t →
  Forall R (normalize_key_aliases path t).
Proof using Type.
  unfold normalize_key_aliases. generalize CONFIG_KEY_ALIASES. intros l. revert t.
  induction l as [|a l IH]; intros t Ha Ht; cbn; [done|]. apply IH; [intros b v Hb; apply Ha; by right|].
  apply apply_alias_Forall; [|done]. intros v. apply Ha. by left.
Qed.

Lemma normalized_ok v path :
  (∀ a, a ∈ CONFIG_KEY_ALIASES → Q (canonical_key a)) → toml_ok_with Q v →
  toml_ok_with Q (normalized_with_key_aliases v path).
Proof using Type.
  intros Ha. revert path. induction v as [v Har Ht|l IH|t IH] using toml_ind'; intros path Hv.
  - destruct v; try done. by destruct (Har items).
  - apply toml_ok_array in Hv. cbn [normalized_with_key_aliases]. apply toml_ok_array, Forall_map.
    rewrite Forall_forall in IH, Hv |- *. intros x Hx. by apply IH, Hv.
  - apply toml_ok_table in Hv as [Hn Hv]. cbn [normalized_with_key_aliases]. apply toml_ok_table.
    set (t' := map _ t). assert (t'.*1 = t.*1) as Hk
      by (unfold t'; clear; induction t as [|[] t IH]; cbn; by f_equal).
    rewrite tcollect_id by (by rewrite Hk). split; [apply normalize_key_aliases_NoDup; by rewrite Hk|].
    apply normalize_key_aliases_Forall; [intros a w Hin [_ ?]; split; [by apply Ha|done]|].
    apply Forall_map. rewrite Forall_forall in IH, Hv |- *. intros [k c] Hin. cbn.
    destruct (Hv _ Hin) as [? ?]. split; [done|]. by apply (IH _ Hin).
Qed.

End keys.

Lemma touches_normalized p v path :
  toml_ok v → ordinary path p = true → touches p (normalized_with_key_aliases v path) = touches p v.
Proof.
  revert v path. induction p as [|k p IH]; intros v path Hv Ho; [done|].
  apply ordinary_cons in Ho as [Hp Ho]. destruct v as [| | | | | |t]; try done.
  destruct (normalized_lookup t path k Hv Hp) as (t' & -> & Ht). cbn [touches]. rewrite Ht.
  destruct (tget k t) as [v|] eqn:E; cbn; [|done]. apply IH; [|done]. by eapply (toml_ok_child (λ _, True)).
Qed.

(** A value at an ordinary path that is neither a table nor an array has its path recorded. *)
Definition is_scalar (v : Toml) : bool := match v with TTable _ | TArray _ => false | _ => true end.

Lemma scalar_recorded p v path w :
  ordinary path p = true → path ++ p ≠ [] → get_path p v = Some w → is_scalar w = true →
  path ++ p ∈ origin_paths v path.
Proof.
  revert v path. induction p as [|k p IH]; intros v path Ho Hn Hg Hw.
  - injection Hg as ->. rewrite app_nil_r in *. apply ordinary_plain, plain_path_spec in Ho as (_ & _ & _ & _ & Ho).
    assert (origin_paths w path = [path]) as ->; [|by left].
    destruct w; try done; cbn; unfold scalar_paths; rewrite decide_False by done; by rewrite ?Ho.
  - apply ordinary_cons in Ho as [_ Ho]. cbn in Hg. destruct v as [| | | | | |t]; try done.
    destruct (tget k t) as [c|] eqn:E; [|done]. apply tget_elem in E. cbn.
    apply list_elem_of_In, in_flat_map. exists (k, c). split; [by apply list_elem_of_In|]. apply list_elem_of_In. cbn.
    rewrite (cons_middle k path p), (assoc_L (++)) in Hn |- *. by apply IH.
Qed.

Lemma toml_ok_weaken Q v : toml_ok_with Q v → toml_ok v.
Proof.
  induction v as [v Ha Ht|l IH|t IH] using toml_ind'; intros Hv.
  - destruct v; try done. by destruct (Ha items).
  - apply toml_ok_array in Hv. apply toml_ok_array. rewrite Forall_forall in IH, Hv |- *. intros x Hx. by apply IH, Hv.
  - apply toml_ok_table in Hv as [Hn Hv]. apply toml_ok_table. split; [done|].
    rewrite Forall_forall in IH, Hv |- *. intros e He. split; [done|]. by apply IH, Hv.
Qed.

(** ** Keys without dots *)

Definition undotted (k : rstring) : Prop := DOT ∉ k.

Lemma undotted_pretty_go x s : undotted (str s) → undotted (str (pretty_N_go x s)).
Proof.
  revert s. induction (N.lt_wf_0 x) as [x _ IH]; intros s Hs. destruct (decide (x = 0%N)) as [->|Hx]; [by rewrite pretty_N_go_0|].
  rewrite pretty_N_go_step by lia. apply IH; [apply N.div_lt; lia|].
  change (str (String ?c s)) with (Ascii.N_of_ascii c :: str s). apply not_elem_of_cons. split; [|exact Hs].
  unfold pretty_N_char. by repeat case_match.
Qed.

Lemma undotted_index n : undotted (display_nat n).
Proof.
  unfold display_nat, display_N, pretty, pretty_N. case_decide.
  - change (str "0") with [48%N]. by intros ?%list_elem_of_singleton.
  - apply undotted_pretty_go. change (str "") with (@nil char). apply not_elem_of_nil.
Qed.

Lemma join_dots_inj p q :
  p ≠ [] → q ≠ [] → Forall undotted p → Forall undotted q → join_dots p = join_dots q → p = q.
Proof.
  intros Hp Hq Hup Huq H. apply (f_equal (split_char DOT)) in H. unfold join_dots in H.
  by rewrite !split_char_join in H.
Qed.

Section stack.
Context {Requirements : Type}.
Context (to_lowercase : rstring → rstring).
Context (to_value : Toml → option JsonValue) (to_vec : JsonValue → option (list N)) (sha256 : list N → list N).
Context (read_inherit : Toml → option ShellEnvironmentPolicyInherit).
Context (read_filter : Toml → option ShellEnvironmentPolicyFilter) (read_non_table : Toml → bool).
#[local] Abbreviation version_for_toml := (Fingerprint.version_for_toml to_value to_vec sha256).
#[local] Abbreviation valid_filters :=
  (validate_shell_environment_policy_filter_config to_lowercase read_inherit read_filter read_non_table).

Definition new_entry (name : ConfigLayerSource) (config : Toml) : ConfigLayerEntry :=
  {| layer_name := name; layer_config := config; layer_version := version_for_toml config;
     disabled_reason := None; raw_toml := None; hooks_config_folder_override := None |}.

Definition new_with_raw_toml (name : ConfigLayerSource) (config : Toml) (raw : rstring)
    (raw_base_dir : AbsolutePathBuf) : ConfigLayerEntry :=
  {| layer_name := name; layer_config := config; layer_version := version_for_toml config;
     disabled_reason := None; raw_toml := Some {| contents := raw; base_dir := raw_base_dir |};
     hooks_config_folder_override := None |}.

Definition new_disabled (name : ConfigLayerSource) (config : Toml) (reason : rstring) : ConfigLayerEntry :=
  {| layer_name := name; layer_config := config; layer_version := version_for_toml config;
     disabled_reason := Some reason; raw_toml := None; hooks_config_folder_override := None |}.

Record ConfigLayerStack := {
  layers : list ConfigLayerEntry;
  requirements : Requirements;
  ignore_user_and_project_exec_policy_rules : bool;
  startup_warnings : option (list rstring) }.

Fixpoint validate_enabled_config_layers (layers : list ConfigLayerEntry) : res LayerError () :=
  match layers with
  | [] => Ok ()
  | layer :: layers' =>
      if is_disabled layer then validate_enabled_config_layers layers'
      else if valid_filters (layer_config layer) then validate_enabled_config_layers layers'
      else Err (InvalidFilters (layer_name layer))
  end.

Definition stack_new (ls : list ConfigLayerEntry) (r : Requirements) : res LayerError ConfigLayerStack :=
  let? _ := validate_enabled_config_layers ls in
  let? _ := verify_layer_ordering ls in
  Ok {| layers := ls; requirements := r; ignore_user_and_project_exec_policy_rules := false;
        startup_warnings := None |}.

Definition with_layers (ls : list ConfigLayerEntry) (self : ConfigLayerStack) : ConfigLayerStack :=
  {| layers := ls; requirements := requirements self;
     ignore_user_and_project_exec_policy_rules := ignore_user_and_project_exec_policy_rules self;
     startup_warnings := startup_warnings self |}.

Definition with_user_and_project_exec_policy_rules_ignored (b : bool) (self : ConfigLayerStack)
    : ConfigLayerStack :=
  {| layers := layers self; requirements := requirements self;
     ignore_user_and_project_exec_policy_rules := b; startup_warnings := startup_warnings self |}.

Definition with_startup_warnings (w : list rstring) (self : ConfigLayerStack) : ConfigLayerStack :=
  {| layers := layers self; requirements := requirements self;
     ignore_user_and_project_exec_policy_rules := ignore_user_and_project_exec_policy_rules self;
     startup_warnings := Some w |}.

Definition layers_low_to_high (self : ConfigLayerStack) : list ConfigLayerEntry :=
  filter (λ l, is_disabled l = false) (layers self).

Definition get_active_user_layer (self : ConfigLayerStack) : option ConfigLayerEntry :=
  snd <$> list_find (λ l, is_user (layer_name l) = true) (reverse (layers self)).

Definition get_user_config_file (self : ConfigLayerStack) : option AbsolutePathBuf :=
  layer ← get_active_user_layer self;
  match layer_name layer with User file _ => Some file | _ => None end.

(** The user layer goes before the first layer of higher precedence. *)
Definition insert_by_precedence (ls : list ConfigLayerEntry) (layer : ConfigLayerEntry)
    : list ConfigLayerEntry :=
  match list_find (λ l, (precedence (layer_name layer) < precedence (layer_name l))%Z) ls with
  | Some (index, _) => take index ls ++ layer :: drop index ls
  | None => ls ++ [layer]
  end.

Definition is_user_file (file : AbsolutePathBuf) (s : ConfigLayerSource) : bool :=
  match s with User file' _ => bool_decide (file' = file) | _ => false end.

Definition with_user_config_profile (file : AbsolutePathBuf) (profile : option rstring)
    (user_config : Toml) (self : ConfigLayerStack) : res LayerError ConfigLayerStack :=
  let user_layer := new_entry (User file profile) user_config in
  let? _ := validate_enabled_config_layers [user_layer] in
  let ls := match list_find (λ l, is_user_file file (layer_name l) = true) (layers self) with
            | Some (index, _) => delete index (layers self)
            | None => layers self
            end in
  Ok (with_layers (insert_by_precedence ls user_layer) self).

Definition with_user_config (file : AbsolutePathBuf) (user_config : Toml) (self : ConfigLayerStack)
    : res LayerError ConfigLayerStack :=
  let profile := head (omap (λ l,
    match layer_name l with
    | User file' profile => if decide (file' = file) then profile ≫= parse_profile else None
    | _ => None
    end) (layers self)) in
  with_user_config_profile file profile user_config self.

Definition with_user_layer_from (other self : ConfigLayerStack) : ConfigLayerStack :=
  let user_layers := filter (λ l, is_user (layer_name l) = true) (layers other) in
  let ls := filter (λ l, is_user (layer_name l) = false) (layers self) in
  with_layers (foldl insert_by_precedence ls user_layers) self.

Definition effective_config (self : ConfigLayerStack) : Toml :=
  foldl (λ merged l, merge_toml_values to_lowercase merged (layer_config l)) (TTable [])
    (layers_low_to_high self).

Definition effective_user_config (self : ConfigLayerStack) : option Toml :=
  match filter (λ l, is_user (layer_name l) = true) (layers_low_to_high self) with
  | [] => None
  | user_layers =>
      Some (foldl (λ merged l, merge_toml_values to_lowercase merged (layer_config l)) (TTable []) user_layers)
  end.

Definition origins (self : ConfigLayerStack) : gmap rstring ConfigLayerMetadata :=
  foldl (λ o l, record_origins (normalized_with_key_aliases (layer_config l) []) (metadata l) [] o) ∅
    (layers_low_to_high self).

(** ** Order of the layers *)

Definition below_or_equal (a b : ConfigLayerEntry) : Prop :=
  (precedence (layer_name a) ≤ precedence (layer_name b))%Z.

#[local] Instance below_or_equal_trans : Transitive below_or_equal.
Proof. unfold below_or_equal. intros a b c. lia. Qed.

Lemma sorted_spec ls : sorted_by_precedence ls = true ↔ StronglySorted below_or_equal ls.
Proof.
  split.
  - intros H. apply Sorted_StronglySorted; [apply _|]. induction ls as [|a ls IH]; [constructor|].
    destruct ls as [|b ls]; [by repeat constructor|]. cbn in H. apply andb_true_iff in H as [H1%Z.leb_le H2].
    constructor; [by apply IH|by constructor].
  - induction 1 as [|a ls Hs IH Hf]; [done|]. destruct ls as [|b ls]; [done|].
    apply Forall_cons in Hf as [Hf _]. cbn [sorted_by_precedence]. apply andb_true_iff. split; [by apply Z.leb_le|done].
Qed.

Lemma sorted_sublist ls ls' : ls `sublist_of` ls' → StronglySorted below_or_equal ls' → StronglySorted below_or_equal ls.
Proof.
  induction 1 as [|a ls ls' Hs IH|a ls ls' Hs IH]; [done|..]; intros H; inversion_clear H as [|? ? H1 H2].
  - constructor; [by apply IH|]. rewrite Forall_forall in H2 |- *. intros x Hx. apply H2. by eapply elem_of_sublist.
  - by apply IH.
Qed.

(** The place of a user layer, by recursion. *)
Fixpoint place (layer : ConfigLayerEntry) (ls : list ConfigLayerEntry) : list ConfigLayerEntry :=
  match ls with
  | [] => [layer]
  | l :: ls' =>
      if decide (precedence (layer_name layer) < precedence (layer_name l))%Z then layer :: ls
      else l :: place layer ls'
  end.

Lemma insert_by_precedence_place ls layer : insert_by_precedence ls layer = place layer ls.
Proof.
  unfold insert_by_precedence. induction ls as [|l ls IH]; cbn; [done|].
  destruct (decide (precedence (layer_name layer) < precedence (layer_name l))%Z); cbn; [done|].
  destruct (list_find _ ls) as [[i x]|]; cbn; by rewrite <-IH.
Qed.

Lemma place_sorted layer ls : StronglySorted below_or_equal ls → StronglySorted below_or_equal (place layer ls).
Proof.
  induction 1 as [|l ls Hs IH Hf]; cbn; [by repeat constructor|]. case_decide as Hp.
  - constructor; [by constructor|]. constructor; [unfold below_or_equal; lia|].
    eapply Forall_impl; [exact Hf|]. unfold below_or_equal. intros x. lia.
  - constructor; [done|]. clear IH Hs. induction Hf as [|x ls Hx Hf IH]; cbn; [constructor; [unfold below_or_equal; lia|constructor]|].
    case_decide; [constructor; [unfold below_or_equal; lia|by constructor]|by constructor].
Qed.

Lemma elem_of_place layer ls x : x ∈ place layer ls ↔ x = layer ∨ x ∈ ls.
Proof.
  induction ls as [|l ls IH]; cbn; [by rewrite list_elem_of_singleton, elem_of_nil; tauto|].
  case_decide; rewrite !elem_of_cons; [tauto|]. rewrite IH. tauto.
Qed.

Definition other_layers (ls : list ConfigLayerEntry) : list ConfigLayerEntry :=
  filter (λ l, is_user (layer_name l) = false) ls.

Lemma place_other layer ls : is_user (layer_name layer) = true → other_layers (place layer ls) = other_layers ls.
Proof.
  intros Hu. unfold other_layers. induction ls as [|l ls IH]; cbn [place].
  - rewrite filter_cons_False; [done|]. by rewrite Hu.
  - destruct (decide (precedence (layer_name layer) < precedence (layer_name l))%Z).
    + rewrite filter_cons_False; [done|]. by rewrite Hu.
    + rewrite !filter_cons. by rewrite IH.
Qed.

Lemma remove_user_other ls file :
  let ls' := match list_find (λ l, is_user_file file (layer_name l) = true) ls with
             | Some (index, _) => delete index ls
             | None => ls
             end in
  other_layers ls' = other_layers ls ∧ ls' `sublist_of` ls.
Proof.
  cbn. destruct (list_find _ ls) as [[i l]|] eqn:E; [|done]. apply list_find_Some in E as (Hi & Hu & _).
  split; [|apply sublist_delete]. unfold other_layers. rewrite <-(take_drop_middle ls i l Hi) at 2.
  rewrite delete_take_drop, !filter_app. f_equal. rewrite filter_cons_False; [done|].
  destruct (layer_name l); done.
Qed.

Lemma verify_projects_other previous ls :
  verify_projects previous ls = verify_projects previous (other_layers ls).
Proof.
  revert previous. unfold other_layers. induction ls as [|l ls IH]; intros previous; [done|].
  rewrite filter_cons. cbn [verify_projects].
  destruct (layer_name l) eqn:El; cbn [is_user]; rewrite ?decide_True, ?decide_False by done;
    cbn [verify_projects]; rewrite ?El; try apply IH.
  destruct previous; [destruct (ok_or _ _); cbn; [case_decide; [done|]|done|done]|]; cbn; apply IH.
Qed.

Lemma validate_enabled_spec ls :
  validate_enabled_config_layers ls = Ok () ↔
  Forall (λ l, is_disabled l = false → valid_filters (layer_config l) = true) ls.
Proof.
  induction ls as [|l ls IH]; cbn; [done|]. rewrite Forall_cons, <-IH.
  destruct (is_disabled l), (valid_filters (layer_config l)); naive_solver.
Qed.

Definition stack_ok (self : ConfigLayerStack) : Prop :=
  validate_enabled_config_layers (layers self) = Ok () ∧ verify_layer_ordering (layers self) = Ok ().

(** A change of user layers keeps the order when it keeps the precedence sorted. *)
Lemma stack_ok_change self ls :
  stack_ok self → other_layers ls = other_layers (layers self) →
  StronglySorted below_or_equal ls → validate_enabled_config_layers ls = Ok () →
  stack_ok (with_layers ls self).
Proof.
  intros [_ Ho] Hf Hs Hv. split; [done|]. unfold verify_layer_ordering in *. cbn.
  rewrite (proj2 (sorted_spec ls) Hs), verify_projects_other, Hf, <-verify_projects_other.
  by destruct (sorted_by_precedence (layers self)).
Qed.

Lemma stack_ok_sorted self : stack_ok self → StronglySorted below_or_equal (layers self).
Proof.
  intros [_ Ho]. apply sorted_spec. unfold verify_layer_ordering in Ho. by destruct (sorted_by_precedence _).
Qed.

Lemma with_user_config_profile_ok file profile cfg self self' :
  stack_ok self → with_user_config_profile file profile cfg self = Ok self' →
  stack_ok self' ∧ other_layers (layers self') = other_layers (layers self).
Proof.
  intros Hok ([] & Hv & [= <-])%res_bind_Ok. destruct (remove_user_other (layers self) file) as [Ho Hs].
  set (ls := match list_find _ (layers self) with Some (index, _) => _ | None => _ end) in *. cbn [layers with_layers].
  rewrite insert_by_precedence_place. assert (other_layers (place (new_entry (User file profile) cfg) ls) = other_layers (layers self)) as Hl
    by (by rewrite place_other).
  split; [|done]. apply stack_ok_change; [done|done|apply place_sorted, (sorted_sublist _ _ Hs), stack_ok_sorted, Hok|].
  apply validate_enabled_spec, Forall_forall. intros l [->|Hl']%elem_of_place.
  - apply validate_enabled_spec in Hv. by apply Forall_cons in Hv as [? _].
  - destruct Hok as [Hval _]. apply validate_enabled_spec in Hval. rewrite Forall_forall in Hval.
    apply Hval. by eapply elem_of_sublist.
Qed.

Lemma with_user_layer_from_ok other self :
  stack_ok self → stack_ok other →
  stack_ok (with_user_layer_from other self) ∧
  other_layers (layers (with_user_layer_from other self)) = other_layers (layers self).
Proof.
  intros Hok Hother. unfold with_user_layer_from. cbn [layers with_layers].
  set (us := filter (λ l, is_user (layer_name l) = true) (layers other)).
  assert (Forall (λ l, is_user (layer_name l) = true ∧ (is_disabled l = false → valid_filters (layer_config l) = true)) us) as Hu.
  { apply Forall_forall. intros l [Hl Hin]%list_elem_of_filter. split; [done|].
    destruct Hother as [Hv _]. apply validate_enabled_spec in Hv. rewrite Forall_forall in Hv. by apply Hv. }
  clearbody us. set (ls := filter (λ l, is_user (layer_name l) = false) (layers self)).
  assert (other_layers ls = other_layers (layers self)) as Ho.
  { unfold ls, other_layers. rewrite list_filter_filter. apply list_filter_iff. tauto. }
  assert (StronglySorted below_or_equal ls) as Hs by (eapply sorted_sublist; [apply sublist_filter|by apply stack_ok_sorted]).
  assert (validate_enabled_config_layers ls = Ok ()) as Hv.
  { apply validate_enabled_spec, Forall_forall. intros l [_ Hin]%list_elem_of_filter.
    destruct Hok as [Hv _]. apply validate_enabled_spec in Hv. rewrite Forall_forall in Hv. by apply Hv. }
  clearbody ls. revert ls Ho Hs Hv. induction Hu as [|u us [Hu Hf] _ IH]; intros ls Ho Hs Hv; cbn.
  { split; [by apply stack_ok_change|done]. }
  rewrite insert_by_precedence_place. apply IH; [by rewrite place_other|by apply place_sorted|].
  apply validate_enabled_spec, Forall_forall. intros l [->|Hl]%elem_of_place; [done|].
  apply validate_enabled_spec in Hv. rewrite Forall_forall in Hv. by apply Hv.
Qed.

(** ** Changes of the user layers *)

Inductive UserChange :=
| WithUserConfig (file : AbsolutePathBuf) (user_config : Toml)
| WithUserConfigProfile (file : AbsolutePathBuf) (profile : option rstring) (user_config : Toml)
| WithUserLayerFrom (other : ConfigLayerStack).

(** A change that fails leaves the stack that the caller had. *)
Definition change (self : ConfigLayerStack) (c : UserChange) : ConfigLayerStack :=
  match
    match c with
    | WithUserConfig file user_config => with_user_config file user_config self
    | WithUserConfigProfile file profile user_config => with_user_config_profile file profile user_config self
    | WithUserLayerFrom other => Ok (with_user_layer_from other self)
    end
  with
  | Ok self' => self'
  | _ => self
  end.

Definition sound_change (c : UserChange) : Prop :=
  match c with WithUserLayerFrom other => stack_ok other | _ => True end.

Lemma change_ok self c :
  stack_ok self → sound_change c →
  stack_ok (change self c) ∧ other_layers (layers (change self c)) = other_layers (layers self).
Proof.
  intros Hok Hc. unfold change. destruct c as [file cfg|file profile cfg|other]; [..|by apply with_user_layer_from_ok];
    [unfold with_user_config|]; (destruct (with_user_config_profile _ _ _ _) eqn:E; [|done|done]);
    by eapply with_user_config_profile_ok.
Qed.

(** A stack of layers that was accepted stays acceptable.  Whatever sequence of changes
    of the user layers is applied to it, the layers are in order of precedence, the project
    layers go from the root to the working directory, every enabled layer has valid filters,
    and the layers that are not the user's are the same in the same order. *)
Theorem changes_keep_order ls r self cs :
  stack_new ls r = Ok self → Forall sound_change cs →
  let self' := foldl change self cs in
  stack_new (layers self') r = Ok (with_layers (layers self') self) ∧ other_layers (layers self') = other_layers ls.
Proof.
  intros ([] & Hv & ([] & Ho & [= <-])%res_bind_Ok)%res_bind_Ok Hcs. cbn zeta.
  set (self := {| layers := ls |}). assert (stack_ok self) as Hok by done.
  assert (stack_ok (foldl change self cs) ∧ other_layers (layers (foldl change self cs)) = other_layers ls) as [[Hv' Ho'] Hl].
  { change ls with (layers self) at 1. clearbody self. clear Hv Ho. revert self Hok.
    induction Hcs as [|c cs Hc _ IH]; intros self Hok; [done|]. cbn. destruct (change_ok self c Hok Hc) as [H1 <-]. by apply IH. }
  split; [|done]. unfold stack_new. by rewrite Hv', Ho'.
Qed.

(** ** The effective configuration and its origins *)

(** Recording the origins of one more layer. *)
Definition record_layer (o : gmap rstring ConfigLayerMetadata) (l : ConfigLayerEntry) : gmap rstring ConfigLayerMetadata :=
  record_origins (normalized_with_key_aliases (layer_config l) []) (metadata l) [] o.

Lemma canonical_undotted a : a ∈ CONFIG_KEY_ALIASES → undotted (canonical_key a).
Proof. by intros [->|[->|?%not_elem_of_nil]%elem_of_cons]%elem_of_cons; [vm_compute; set_solver..|]. Qed.

Lemma record_layer_scalar o l p v :
  toml_ok (layer_config l) → p ≠ [] → ordinary [] p = true → leaf p (layer_config l) = Some v → is_scalar v = true →
  record_layer o l !! join_dots p = Some (metadata l).
Proof.
  intros Hok Hn Hp Hl Hs. unfold record_layer. rewrite record_origins_writes, write_origins_lookup, decide_True; [done|].
  apply list_elem_of_fmap. exists p. split; [done|]. unfold leaf in Hl.
  destruct (get_path p (layer_config l)) as [w|] eqn:E; [|done]. cbn in Hl. destruct (is_table w); [done|].
  injection Hl as ->. eapply (scalar_recorded p _ []); [done|done|by rewrite get_normalized, E|by destruct v].
Qed.

Lemma record_layer_untouched o l p :
  toml_ok_with undotted (layer_config l) → p ≠ [] → Forall undotted p → ordinary [] p = true →
  touches p (layer_config l) = false → record_layer o l !! join_dots p = o !! join_dots p.
Proof.
  intros Hok Hn Hu Hp Ht. unfold record_layer. rewrite record_origins_writes, write_origins_lookup, decide_False; [done|].
  intros (q & Hq & Hin)%list_elem_of_fmap.
  apply (origin_paths_touch undotted undotted_index) in Hin as (Hq0 & r & -> & Htr & Hr);
    [|vm_compute; set_solver|by apply normalized_ok; [apply canonical_undotted|]].
  cbn in *. apply join_dots_inj in Hq as ->; try done.
  rewrite touches_normalized in Htr by (done || by eapply toml_ok_weaken). congruence.
Qed.

(** The value of the merged layers at an ordinary path, with its origin. *)
Lemma merged_value_origin ls p v :
  Forall (λ l, toml_ok_with undotted (layer_config l)) ls → p ≠ [] → ordinary [] p = true → is_scalar v = true →
  leaf p (foldl (λ merged l, merge_toml_values to_lowercase merged (layer_config l)) (TTable []) ls) = Some v →
  ∃ below l above, ls = below ++ l :: above ∧ leaf p (layer_config l) = Some v ∧
    Forall (λ l', touches p (layer_config l') = false) above ∧
    foldl record_layer ∅ ls !! join_dots p = Some (metadata l).
Proof.
  intros Hok Hn Hp Hs. induction ls as [|c ls IH] using rev_ind; [by destruct p|].
  apply Forall_app in Hok as [Hok [Hc _]%Forall_cons]. rewrite !foldl_snoc.
  pose proof (toml_ok_weaken _ _ Hc) as Hc'. rewrite merge_leaf by done. destruct (touches p (layer_config c)) eqn:Ht; intros Hl.
  - exists ls, c, []. split; [done|]. split; [done|]. split; [done|]. by eapply record_layer_scalar.
  - destruct (IH Hok Hl) as (below & l & above & -> & Hv & Ha & Ho). exists below, l, (above ++ [c]).
    rewrite <-app_assoc. split; [done|]. split; [done|]. split; [by apply Forall_app_2; [|constructor]|].
    rewrite record_layer_untouched; try done. apply Forall_app in Hok as [_ [Hlo _]%Forall_cons].
    unfold leaf in Hv. destruct (get_path p (layer_config l)) as [w|] eqn:E; [|done].
    by apply (get_path_keys undotted (layer_config l) p w).
Qed.

(** C40: the value in force and the layer it is said to come from agree.  Where no table of a
    layer repeats a key and no key has a dot, a scalar value of the merged configuration (not a
    table and not an array, whose elements have origins of their own) at an ordinary path, none of
    whose tables has aliases or a merge rule of its own, is the value of the highest enabled layer
    that says anything about the path, no layer above it touches the path, and the origin that is
    reported for the path is that layer. *)
Theorem effective_value_has_origin self p v :
  Forall (λ l, toml_ok_with undotted (layer_config l)) (layers_low_to_high self) →
  p ≠ [] → ordinary [] p = true → is_scalar v = true → leaf p (effective_config self) = Some v →
  ∃ below l above, layers_low_to_high self = below ++ l :: above ∧ leaf p (layer_config l) = Some v ∧
    Forall (λ l', touches p (layer_config l') = false) above ∧
    origins self !! join_dots p = Some (metadata l).
Proof. apply merged_value_origin. Qed.

End stack.

(** ** Examples *)

Module Example.

(** A hash that is the empty text, and filters that are strings. *)
Definition read_filter (v : Toml) : option ShellEnvironmentPolicyFilter :=
  match v with
  | TString s => if decide (s = str "include") then Some Include
                 else if decide (s = str "exclude") then Some Exclude else None
  | _ => None
  end.

#[local] Abbreviation no_json := (λ _ : Toml, @None JsonValue).
#[local] Abbreviation no_text := (λ _ : JsonValue, @None (list N)).
#[local] Abbreviation no_hash := (λ _ : list N, @nil N).
#[local] Abbreviation no_inherit := (λ _ : Toml, @None ShellEnvironmentPolicyInherit).
#[local] Abbreviation no_value := (λ _ : Toml, false).

Definition entry (name : ConfigLayerSource) (c : list (rstring * Toml)) : ConfigLayerEntry :=
  new_entry no_json no_text no_hash name (TTable c).

Definition user_file : AbsolutePathBuf := [str "home"; str "config.toml"].

Definition stack : list ConfigLayerEntry :=
  [ entry (User user_file None) [(str "model", TString (str "a"));
      (str "roots", TArray [TString (str "x"); TString (str "y")])];
    entry (Project [str "repo"; str ".hexa"]) [(str "tui", TTable [(str "theme", TString (str "dark"))])];
    entry SessionFlags [(str "model", TString (str "b")); (str "roots", TArray [TString (str "z")])] ].

Definition self : @ConfigLayerStack () :=
  {| layers := stack; requirements := (); ignore_user_and_project_exec_policy_rules := false; startup_warnings := None |}.

Lemma self_new : stack_new to_ascii_lowercase no_inherit read_filter no_value stack () = Ok self.
Proof. by vm_compute. Qed.

Lemma changes_keep_order_witness :
  ∃ cs, Forall (sound_change to_ascii_lowercase no_inherit read_filter no_value) cs ∧
    other_layers (layers (foldl (change to_ascii_lowercase no_json no_text no_hash no_inherit read_filter no_value) self cs)) = other_layers stack.
Proof.
  exists [WithUserConfigProfile [str "home"; str "work.config.toml"] (Some (str "work")) (TTable []);
    WithUserConfig user_file (TTable []); WithUserLayerFrom self].
  assert (Forall (sound_change to_ascii_lowercase no_inherit read_filter no_value) [WithUserConfigProfile [str "home"; str "work.config.toml"] (Some (str "work")) (TTable []);
    WithUserConfig user_file (TTable []); WithUserLayerFrom self]) as H by (repeat constructor; by vm_compute).
  split; [exact H|]. exact (proj2 (changes_keep_order to_ascii_lowercase no_json no_text no_hash no_inherit read_filter no_value stack () self _ self_new H)).
Defined.

Lemma self_undotted : Forall (λ l, toml_ok_with undotted (layer_config l)) (layers_low_to_high self).
Proof. unfold undotted. repeat constructor; vm_compute; set_solver. Qed.

Lemma effective_value_has_origin_witness :
  leaf [str "model"] (effective_config id self) = Some (TString (str "b")) ∧
  ∃ below l above, layers_low_to_high self = below ++ l :: above ∧
    leaf [str "model"] (layer_config l) = Some (TString (str "b")) ∧
    Forall (λ l', touches [str "model"] (layer_config l') = false) above ∧
    origins self !! join_dots [str "model"] = Some (metadata l).
Proof.
  split; [by vm_compute|].
  apply (effective_value_has_origin id self [str "model"] (TString (str "b")) self_undotted); by vm_compute.
Defined.

(** The origins keep fields that the merged view no longer has: the session replaces an
    array of two roots with one of one root, and the second root still has its origin. *)
Lemma origins_keep_replaced_elements :
  leaf [str "roots"] (effective_config id self) = Some (TArray [TString (str "z")]) ∧
  meta_name <$> origins self !! join_dots [str "roots"; str "1"] = Some (User user_file None).
Proof. split; by vm_compute. Qed.

(** A key with a dot stands for two keys where origins are recorded: the value of the field is
    the one of the user's file, and its origin is said to be the session. *)
Definition dotted_self : @ConfigLayerStack () :=
  {| layers := [ entry (User user_file None) [(str "a", TTable [(str "b", TInteger 1)])];
                 entry SessionFlags [(str "a.b", TInteger 2)] ];
     requirements := (); ignore_user_and_project_exec_policy_rules := false; startup_warnings := None |}.

Lemma dotted_key_takes_origin :
  leaf [str "a"; str "b"] (effective_config id dotted_self) = Some (TInteger 1) ∧
  meta_name <$> origins dotted_self !! join_dots [str "a"; str "b"] = Some SessionFlags.
Proof. split; by vm_compute. Qed.

End Example.
