(* ===== verification/ConfigFilters.v ===== *)
(** * The environment filters of merged layers

    A composition of the merge of configuration values ([config/src/merge.rs]), the check of
    each layer ([config/src/state.rs], [config/src/shell_environment_policy.rs]) and the
    deserialisation of the merged configuration: layers that pass the check one by one merge
    into a configuration that passes it.  The merge picks one representation of the filters
    and the letters of a pattern do not make two entries. *)

From S2P Require Import Prelude RustStr OrdMap ConfigToml Fingerprint ShellEnv ConfigLayers.

Local Open Scope nat_scope.

Section filters.
Context (to_lowercase : rstring → rstring).
Context (read_inherit : Toml → option ShellEnvironmentPolicyInherit).
Context (read_filter : Toml → option ShellEnvironmentPolicyFilter) (read_non_table : Toml → bool).
Context (lowercase_idem : ∀ s, to_lowercase (to_lowercase s) = to_lowercase s).

#[local] Abbreviation merge_at := (merge_toml_values_at_path to_lowercase).
#[local] Abbreviation SEP := SHELL_ENVIRONMENT_POLICY.
#[local] Abbreviation EXCLUDE := (str "exclude").
#[local] Abbreviation INCLUDE_ONLY := (str "include_only").
#[local] Abbreviation FILTERS := (str "filters").

(** ** The check, as a property of the value *)

Definition strings (v : Toml) : Prop := ∃ l, v = TArray (map TString l).

Definition string_filter (e : rstring * Toml) : Prop := ∃ s, e.2 = TString s ∧ is_Some (read_filter (TString s)).

Definition filter_table (v : Toml) : Prop :=
  ∃ t, v = TTable t ∧ NoDup (to_lowercase <$> t.*1) ∧ Forall string_filter t.

Definition good_policy (v : Toml) : Prop :=
  match v with
  | TTable p =>
      (∀ x, tget EXCLUDE p = Some x → strings x) ∧
      (∀ x, tget INCLUDE_ONLY p = Some x → strings x) ∧
      (∀ x, tget FILTERS p = Some x → filter_table x ∧ tget EXCLUDE p = None ∧ tget INCLUDE_ONLY p = None)
  | _ => True
  end.

Definition good_config (v : Toml) : Prop :=
  match v with
  | TTable c => ∀ p, tget SEP c = Some p → good_policy p
  | _ => False
  end.

(** Every filter of a configuration is written as a string. *)
Definition string_filters (v : Toml) : Prop :=
  ∀ t, get_path [SEP; FILTERS] v = Some (TTable t) → Forall (λ e, ∃ s, e.2 = TString s) t.

Lemma read_strings_Some v l : read_strings v = Some l → v = TArray (map TString l).
Proof.
  destruct v as [| | | | |items|]; try done. cbn. revert l. induction items as [|x items IH]; intros l; cbn.
  { by intros [= <-]. }
  destruct x; try done. cbn. destruct (mapM read_string items) as [l'|]; [|done]. cbn. intros [= <-].
  cbn. by injection (IH l' eq_refl) as ->.
Qed.

Lemma read_strings_map l : read_strings (TArray (map TString l)) = Some l.
Proof. cbn. induction l as [|x l IH]; cbn; [done|]. by rewrite IH. Qed.

Lemma unique_patterns_spec ps seen :
  unique_patterns to_lowercase seen ps = Ok () ↔
  NoDup (to_lowercase <$> ps) ∧ Forall (λ p, to_lowercase p ∉ seen) ps.
Proof.
  revert seen. induction ps as [|p ps IH]; intros seen; cbn; [by repeat split; try constructor|].
  rewrite NoDup_cons, Forall_cons, list_elem_of_fmap. case_decide as Hp; [split; [done|naive_solver]|].
  rewrite IH, !Forall_forall. split.
  - intros [Hn Hf]. split; [split; [|done]|split; [done|]].
    + intros (y & Hy & Hin). apply (Hf y Hin). rewrite Hy. set_solver.
    + intros y Hy. specialize (Hf y Hy). set_solver.
  - intros [[Hn Hnd] [_ Hf]]. split; [done|]. intros y Hy Hin.
    apply elem_of_union in Hin as [Hin%elem_of_singleton|Hin]; [|by apply (Hf y Hy)]. apply Hn. by exists y.
Qed.

(** The fields of a policy that the check reads. *)
Definition fields (p : list (rstring * Toml)) : list (rstring * Toml) :=
  tcollect (omap (λ field, (λ value, (field, value)) <$> tget field p) [EXCLUDE; INCLUDE_ONLY; FILTERS]).

Lemma tget_fields p f :
  tget f (fields p) = if decide (f ∈ [EXCLUDE; INCLUDE_ONLY; FILTERS]) then tget f p else None.
Proof.
  unfold fields. rewrite tget_tcollect.
  2: { cbn -[tget]. destruct (tget EXCLUDE p), (tget INCLUDE_ONLY p), (tget FILTERS p);
       apply (bool_decide_unpack _); by vm_compute. }
  destruct (decide (f ∈ _)) as [Hf|Hf].
  - rewrite !elem_of_cons in Hf.
    destruct Hf as [->|[->|[->|?%not_elem_of_nil]]]; [..|done]; cbn -[tget];
      destruct (tget EXCLUDE p), (tget INCLUDE_ONLY p), (tget FILTERS p); by vm_compute.
  - apply tget_None. intros ([k v] & -> & (k' & Hin & Hk)%list_elem_of_omap)%list_elem_of_fmap. apply Hf. cbn.
    destruct (tget k' p); [|done]. by injection Hk as <- <-.
Qed.

Lemma read_field_Ok {A} (read : Toml → option A) f t o :
  read_field read f t = Ok o → o = match tget f t with Some v => read v | None => None end ∧ (is_Some (tget f t) → is_Some o).
Proof.
  unfold read_field. destruct (tget f t) as [v|]; [|by intros [= <-]; split; [|intros []]].
  destruct (read v); cbn; [|done]. intros [= <-]. by split; [|eexists].
Qed.

Lemma read_table_spec v l :
  read_table read_filter v = Some l → ∃ t, v = TTable t ∧ l.*1 = t.*1 ∧ Forall (λ e, is_Some (read_filter e.2)) t.
Proof.
  destruct v as [| | | | | |t]; try done. cbn. intros Hm. exists t. split; [done|]. revert l Hm.
  induction t as [|[k v] t IH]; intros l; cbn; [by intros [= <-]|].
  destruct (read_filter v) as [f|] eqn:Ef; [|done]. cbn.
  destruct (mapM _ t) as [l'|]; [|done]. cbn. intros [= <-]. destruct (IH l' eq_refl) as [Hk Hf].
  split; [cbn; by f_equal|]. constructor; [by eexists|done].
Qed.

Lemma read_table_all t :
  Forall (λ e, is_Some (read_filter e.2)) t → ∃ l, read_table read_filter (TTable t) = Some l ∧ l.*1 = t.*1.
Proof.
  cbn. induction 1 as [|[k v] t [f Hf] _ [l [Hm Hl]]]; [by exists []|]. exists ((k, f) :: l). cbn in *.
  by rewrite Hf, Hm, Hl.
Qed.

(** The keys of the map of filters are those of the table. *)
Lemma filter_keys (l : list (rstring * ShellEnvironmentPolicyFilter)) :
  NoDup l.*1 → btree_keys (list_to_map (reverse l) : gmap rstring _) ≡ₚ l.*1.
Proof.
  intros Hn. apply NoDup_Permutation; [apply btree_elements_NoDup|done|]. intros x.
  unfold btree_keys. rewrite elem_of_btree_elements, dom_list_to_map, elem_of_list_to_set, fmap_reverse.
  apply elem_of_reverse.
Qed.

Lemma read_kept {A} (read : Toml → option A) f p :
  bool_decide (f ∈ [EXCLUDE; INCLUDE_ONLY; FILTERS]) = true → read_field read f (fields p) = read_field read f p.
Proof. intros Hf%bool_decide_eq_true. unfold read_field. by rewrite tget_fields, decide_True. Qed.

Lemma read_dropped {A} (read : Toml → option A) f p :
  bool_decide (f ∈ [EXCLUDE; INCLUDE_ONLY; FILTERS]) = false → read_field read f (fields p) = Ok None.
Proof. intros Hf%bool_decide_eq_false. unfold read_field. by rewrite tget_fields, decide_False. Qed.

(** The check reads three fields. *)
Lemma check_fields p :
  deserialize_shell_environment_policy_filters to_lowercase read_inherit read_filter (TTable p) =
  let? exclude := read_field read_strings EXCLUDE p in
  let? include_only := read_field read_strings INCLUDE_ONLY p in
  let? filters := read_field (read_table read_filter) FILTERS p in
  let? _ := if decide (is_Some filters ∧ (is_Some exclude ∨ is_Some include_only)) then Err MixedFilters else Ok () in
  match filters with
  | Some l => unique_patterns to_lowercase ∅ (btree_keys (list_to_map (reverse l) : gmap rstring _))
  | None => Ok ()
  end.
Proof.
  unfold deserialize_shell_environment_policy_filters. change (tcollect _) with (fields p). unfold deserialize_policy.
  rewrite (read_dropped _ (str "inherit")), (read_dropped _ (str "ignore_default_excludes")), (read_dropped _ (str "set")),
    (read_dropped _ (str "experimental_use_profile")), (read_kept _ EXCLUDE), (read_kept _ INCLUDE_ONLY),
    (read_kept _ FILTERS) by (by vm_compute).
  cbn [res_bind]. destruct (read_field read_strings EXCLUDE p) as [ex| |]; cbn [res_bind]; [|done..].
  destruct (read_field read_strings INCLUDE_ONLY p) as [inc| |]; cbn [res_bind]; [|done..].
  destruct (read_field (read_table read_filter) FILTERS p) as [fl| |]; cbn [res_bind]; [|done..].
  destruct fl as [l|]; cbn [fmap option_fmap option_map]; [|by rewrite !decide_False by (by intros [[] _])].
  destruct (decide (is_Some ex ∨ is_Some inc)) as [Hm|Hm].
  - rewrite !decide_True by (split; [by eexists|done]). done.
  - rewrite !decide_False by (by intros [_ ?]). cbn [res_bind]. by destruct (unique_patterns _ _ _) as [[]| |].
Qed.

Lemma check_good p :
  toml_ok (TTable p) → (∀ t, tget FILTERS p = Some (TTable t) → Forall (λ e, ∃ s, e.2 = TString s) t) →
  deserialize_shell_environment_policy_filters to_lowercase read_inherit read_filter (TTable p) = Ok () →
  good_policy (TTable p).
Proof.
  intros Hok Hs. rewrite check_fields.
  intros (ex & [-> Hex]%read_field_Ok & (inc & [-> Hinc]%read_field_Ok & (fl & [-> Hfl]%read_field_Ok &
    ([] & Hmix & Hu)%res_bind_Ok)%res_bind_Ok)%res_bind_Ok)%res_bind_Ok. split; [|split].
  - intros x Hx. rewrite Hx in Hex. destruct Hex as [l Hl]; [by eexists|]. exists l. by apply read_strings_Some.
  - intros x Hx. rewrite Hx in Hinc. destruct Hinc as [l Hl]; [by eexists|]. exists l. by apply read_strings_Some.
  - intros x Hx. rewrite Hx in Hfl, Hmix, Hu. destruct Hfl as [l Hl]; [by eexists|]. rewrite Hl in Hmix, Hu.
    apply read_table_spec in Hl as (t & -> & Hk & Hf).
    assert (NoDup t.*1) as Hn.
    { apply (toml_ok_child (λ _, True)) in Hx as [_ Ht]; [|done]. by apply toml_ok_table in Ht as []. }
    split; [|].
    + exists t. split; [done|]. apply unique_patterns_spec in Hu as [Hu _].
      rewrite filter_keys, Hk in Hu by (by rewrite Hk). split; [done|].
      specialize (Hs t Hx). rewrite Forall_forall in Hs, Hf |- *. intros e He.
      destruct (Hs e He) as [s Es]. exists s. split; [done|]. rewrite <-Es. by apply Hf.
    + destruct (decide _) as [|Hd] in Hmix; [done|]. destruct (tget EXCLUDE p) as [x|] eqn:E1.
      { destruct Hd. split; [by eexists|left]. by apply Hex. }
      destruct (tget INCLUDE_ONLY p) as [x|] eqn:E2; [|done]. destruct Hd. split; [by eexists|right]. by apply Hinc.
Qed.

Lemma good_check p :
  good_policy (TTable p) →
  deserialize_shell_environment_policy_filters to_lowercase read_inherit read_filter (TTable p) = Ok ().
Proof.
  intros (Hex & Hinc & Hfl). rewrite check_fields.
  assert (∀ f, (∀ x, tget f p = Some x → strings x) → ∃ o, read_field read_strings f p = Ok o ∧ (tget f p = None → o = None)) as Hr.
  { intros f Hf. unfold read_field. destruct (tget f p) as [x|]; [|by exists None]. destruct (Hf x eq_refl) as [l ->].
    rewrite read_strings_map. by exists (Some l). }
  destruct (Hr _ Hex) as (ex & -> & Hex0), (Hr _ Hinc) as (inc & -> & Hinc0). cbn [res_bind].
  destruct (tget FILTERS p) as [x|] eqn:E.
  - destruct (Hfl x eq_refl) as ((t & -> & Hn & Hf) & H1 & H2). unfold read_field at 1. rewrite E.
    destruct (read_table_all t) as (l & Hl & Hk).
    { eapply Forall_impl; [exact Hf|]. intros e (s & -> & Hs). exact Hs. }
    rewrite Hl. cbn [ok_or res_bind]. rewrite Hex0, Hinc0, decide_False by (done || by intros [_ [[]|[]]]). cbn [res_bind].
    apply unique_patterns_spec. assert (NoDup l.*1) as Hnl by (rewrite Hk; by eapply NoDup_fmap_1).
    rewrite filter_keys, Hk by done. split; [done|]. apply Forall_forall. intros y _. apply not_elem_of_empty.
  - unfold read_field at 1. rewrite E. cbn [res_bind]. by rewrite decide_False by (by intros [[] _]).
Qed.

(** ** The merge keeps the check *)

Lemma sep_no_alias p a : a ∈ CONFIG_KEY_ALIASES → ¬ (SEP :: p) `prefix_of` table_path a.
Proof.
  intros [->|[->|?%not_elem_of_nil]%elem_of_cons]%elem_of_cons; [..|done]; intros H%prefix_cons_inv_1; by vm_compute in H.
Qed.

Lemma keys_at_root {V} (t : list (rstring * V)) : normalize_keys to_lowercase [] t = t.
Proof. apply plain_keys. by vm_compute. Qed.

Lemma sep_aliases {V} p (t : list (rstring * V)) : normalize_key_aliases (SEP :: p) t = t.
Proof. apply plain_aliases. intros a Ha Hp. apply (sep_no_alias p a Ha). by rewrite Hp. Qed.

Lemma keys_at_policy {V} (t : list (rstring * V)) : normalize_keys to_lowercase [SEP] t = t.
Proof.
  unfold normalize_keys. rewrite sep_aliases.
  assert (is_shell_environment_filters_path [SEP] = false) as -> by (by vm_compute).
  by assert (is_network_domains_path [SEP] = false) as -> by (by vm_compute).
Qed.

Lemma keys_at_filters {V} (t : list (rstring * V)) :
  normalize_keys to_lowercase [SEP; FILTERS] t = normalize_case_insensitive_keys to_lowercase t.
Proof.
  unfold normalize_keys. rewrite sep_aliases.
  assert (is_shell_environment_filters_path [SEP; FILTERS] = true) as -> by (by vm_compute).
  by assert (is_network_domains_path [SEP; FILTERS] = false) as -> by (by vm_compute).
Qed.

Lemma not_structured p : is_structured_feature_path (SEP :: p) = false.
Proof. destruct p as [|a [|b [|c [|]]]]; try done; by vm_compute. Qed.

(** A value that is no table replaces what was there. *)
Lemma merge_non_table v base p : is_table v = false → merge_at v base (SEP :: p) = normalized_with_key_aliases v (SEP :: p).
Proof. intros Hv. destruct v; try done; cbn [merge_toml_values_at_path]; by rewrite not_structured. Qed.

Lemma merge_into_non_table v base p : is_table base = false → merge_at v base (SEP :: p) = normalized_with_key_aliases v (SEP :: p).
Proof.
  intros Hb. destruct (is_table v) eqn:Hv; [|by apply merge_non_table]. destruct v as [| | | | | |t]; try done.
  cbn [merge_toml_values_at_path]. rewrite not_structured.
  assert (replace_shell_environment_policy_filter_representation base (TTable t) (SEP :: p) = base) as ->.
  { unfold replace_shell_environment_policy_filter_representation. case_decide; [|done]. by destruct (from_policy _), base. }
  by destruct base.
Qed.

(** The filters of two layers. *)
Lemma tinsert_Forall (R : rstring * Toml → Prop) k v t : R (k, v) → Forall R t → Forall R (tinsert k v t).
Proof.
  intros Hk Ht. induction Ht as [|[k' v'] t Hr Ht IH]; cbn; [by constructor|].
  case_decide; [subst; by constructor|by constructor].
Qed.

Definition lower_filter (e : rstring * Toml) : Prop := string_filter e ∧ to_lowercase e.1 = e.1.

Lemma lower_filters t :
  Forall string_filter t →
  NoDup (normalize_case_insensitive_keys to_lowercase t).*1 ∧ Forall lower_filter (normalize_case_insensitive_keys to_lowercase t).
Proof.
  intros Ht. unfold normalize_case_insensitive_keys. split; [apply tcollect_NoDup|]. unfold tcollect.
  assert (Forall lower_filter []) as H0 by constructor. revert H0. generalize (@nil (rstring * Toml)).
  induction Ht as [|[k v] t Hv Ht IH]; intros acc Hacc; cbn; [done|]. apply IH, tinsert_Forall; [|done].
  split; [exact Hv|apply lowercase_idem].
Qed.

Lemma merge_filter_entry t e :
  lower_filter e → NoDup t.*1 → Forall lower_filter t →
  NoDup (merge_entry to_lowercase [SEP; FILTERS] t e).*1 ∧ Forall lower_filter (merge_entry to_lowercase [SEP; FILTERS] t e).
Proof.
  intros He Hn Ht. destruct e as [k v]. pose proof He as [(s & Hs & Hr) Hk]. cbn in Hs, Hk. subst v.
  assert (merge_entry to_lowercase [SEP; FILTERS] t (k, TString s) = tinsert k (TString s) t) as ->.
  { unfold merge_entry. cbn [fst snd app]. destruct (tget k t); [|done]. by rewrite merge_non_table. }
  split; [by apply tinsert_NoDup|by apply tinsert_Forall].
Qed.

Lemma merge_filter_tables o b :
  filter_table o → filter_table b → filter_table (merge_at o b [SEP; FILTERS]).
Proof.
  intros (to & -> & Hno & Ho) (tb & -> & Hnb & Hb). rewrite merge_tables.
  assert (replace_shell_environment_policy_filter_representation (TTable tb) (TTable to) [SEP; FILTERS] = TTable tb) as -> by done.
  rewrite !keys_at_filters. apply lower_filters in Hb as [Hnb' Hb']. apply lower_filters in Ho as [_ Ho'].
  set (t0 := normalize_case_insensitive_keys to_lowercase tb) in *. clearbody t0. clear Hno Hnb.
  eexists. split; [done|]. revert t0 Hnb' Hb'. induction Ho' as [|e l He _ IH]; intros t0 Hn0 H0; cbn [foldl].
  - split; [|eapply Forall_impl; [exact H0|by intros ? []]].
    assert (to_lowercase <$> t0.*1 = t0.*1) as ->; [|done]. clear Hn0.
    induction H0 as [|e t0 [_ He] _ IH]; cbn; [done|]. by rewrite He, IH.
  - destruct (merge_filter_entry t0 e He Hn0 H0). by apply IH.
Qed.

Lemma strings_normalized v p : strings v → normalized_with_key_aliases v p = v.
Proof. intros [l ->]. cbn. f_equal. rewrite map_map. by induction l; cbn; f_equal. Qed.

Lemma normalized_below_policy v p : toml_ok v → normalized_with_key_aliases v (SEP :: p) = v.
Proof. intros Hv. apply normalized_id; [done|]. intros a. apply sep_no_alias. Qed.

(** One field of the merged policy. *)
Lemma merged_field (R : Toml → Prop) f o b x :
  toml_ok (TTable o) → tget f (foldl (merge_entry to_lowercase [SEP]) b o) = Some x →
  (∀ v, tget f o = Some v → R v) → (∀ e, tget f b = Some e → R e) →
  (∀ v e, toml_ok v → R v → R e → R (merge_at v e [SEP; f])) → R x.
Proof.
  intros Hok Hx Ho Hb Hm. pose proof (toml_ok_table (λ _, True) o) as [Ht _]. destruct (Ht Hok) as [Hn _].
  rewrite merge_entries_lookup in Hx by done. destruct (tget f o) as [v|] eqn:E; [|by apply Hb].
  destruct (toml_ok_child _ _ _ _ Hok E) as [_ Hv]. cbn [app] in Hx. destruct (tget f b) as [w|].
  - injection Hx as <-. apply Hm; [done|by apply Ho|by apply Hb].
  - rewrite normalized_below_policy in Hx by done. injection Hx as <-. by apply Ho.
Qed.

Lemma merged_field_None f o b :
  toml_ok (TTable o) → tget f o = None → tget f b = None → tget f (foldl (merge_entry to_lowercase [SEP]) b o) = None.
Proof.
  intros [Hn _]%toml_ok_table Ho Hb. by rewrite merge_entries_lookup, Ho.
Qed.

Lemma merge_strings v e f : toml_ok v → strings v → strings e → strings (merge_at v e [SEP; f]).
Proof. intros _ [l ->] _. rewrite merge_non_table by done. rewrite strings_normalized by by exists l. by exists l. Qed.

Lemma merge_policies o b :
  toml_ok o → good_policy o → good_policy b → good_policy (merge_at o b [SEP]).
Proof.
  intros Hok Ho Hb. destruct (is_table o) eqn:Eo; [|rewrite merge_non_table by done; by destruct o].
  destruct (is_table b) eqn:Eb; [|by rewrite merge_into_non_table, normalized_below_policy].
  destruct o as [| | | | | |o], b as [| | | | | |b]; try done. rewrite merge_tables.
  unfold replace_shell_environment_policy_filter_representation. rewrite decide_True by done.
  destruct Ho as (Hoe & Hoi & Hof), Hb as (Hbe & Hbi & Hbf).
  assert (EXCLUDE ≠ INCLUDE_ONLY ∧ EXCLUDE ≠ FILTERS ∧ INCLUDE_ONLY ≠ FILTERS) as (N1 & N2 & N3) by (apply (bool_decide_unpack _); by vm_compute).
  unfold from_policy. destruct (decide (is_Some (tget FILTERS o))) as [[x Hx]|Hf].
  - destruct (Hof x Hx) as (Hft & He & Hi). cbn [displaced_fields foldl]. rewrite !keys_at_policy.
    set (b' := tremove INCLUDE_ONLY (tremove EXCLUDE b)).
    assert (tget EXCLUDE b' = None) as Hbe' by (unfold b'; by rewrite !tget_tremove, decide_False, decide_True by done).
    assert (tget INCLUDE_ONLY b' = None) as Hbi' by (unfold b'; by rewrite !tget_tremove, decide_True by done).
    assert (tget FILTERS b' = tget FILTERS b) as Hbf' by (unfold b'; by rewrite !tget_tremove, !decide_False by done).
    cbn. rewrite !(merged_field_None EXCLUDE), !(merged_field_None INCLUDE_ONLY) by done.
    split; [done|]. split; [done|]. intros y Hy. split; [|done].
    apply (merged_field filter_table _ _ _ _ Hok Hy); [intros v Hv; by apply Hof|rewrite Hbf'; intros e He'; by apply Hbf|].
    intros v w _. apply merge_filter_tables.
  - apply eq_None_not_Some in Hf. destruct (decide (is_Some (tget EXCLUDE o) ∨ is_Some (tget INCLUDE_ONLY o))) as [Hl|Hl].
    + cbn [displaced_fields foldl]. rewrite !keys_at_policy. set (b' := tremove FILTERS b).
      assert (∀ f, f ≠ FILTERS → tget f b' = tget f b) as Hbf' by (intros; unfold b'; by rewrite tget_tremove, decide_False by done).
      assert (tget FILTERS b' = None) as Hb0 by (unfold b'; by rewrite tget_tremove, decide_True by done).
      cbn. rewrite (merged_field_None FILTERS) by done. split; [|split; [|done]]; intros y Hy;
        (eapply (merged_field strings); [exact Hok|exact Hy|done|by rewrite Hbf'|intros; by apply merge_strings]).
    + rewrite !keys_at_policy. assert (tget EXCLUDE o = None ∧ tget INCLUDE_ONLY o = None) as [H1 H2]
        by (split; apply eq_None_not_Some; tauto).
      pose proof (toml_ok_table (λ _, True) o) as [Ht _]. destruct (Ht Hok) as [Hn _].
      cbn. rewrite !merge_entries_lookup, H1, H2, Hf by done. done.
Qed.

Lemma merge_configs o b :
  toml_ok o → good_config o → good_config b → good_config (merge_toml_values to_lowercase b o).
Proof.
  intros Hok Ho Hb. destruct o as [| | | | | |o], b as [| | | | | |b]; try done. unfold merge_toml_values. rewrite merge_tables.
  assert (replace_shell_environment_policy_filter_representation (TTable b) (TTable o) [] = TTable b) as -> by done.
  rewrite !keys_at_root. cbn. intros p. pose proof (toml_ok_table (λ _, True) o) as [Ht _]. destruct (Ht Hok) as [Hn _].
  rewrite merge_entries_lookup by done. destruct (tget SEP o) as [v|] eqn:E; [|apply Hb].
  destruct (toml_ok_child _ _ _ _ Hok E) as [_ Hv]. cbn [app]. destruct (tget SEP b) as [w|] eqn:Ew; intros [= <-].
  - apply merge_policies; [done|by apply Ho|by apply Hb].
  - rewrite normalized_below_policy by done. by apply Ho.
Qed.

(** ** Layers *)

#[local] Abbreviation valid_filters :=
  (validate_shell_environment_policy_filter_config to_lowercase read_inherit read_filter read_non_table).

Lemma valid_good c :
  toml_ok c → is_table c = true → string_filters c → valid_filters c = true → good_config c.
Proof.
  intros Hok Ht Hs. destruct c as [| | | | | |c]; try done. cbn. intros Hv p Hp. rewrite Hp in Hv.
  destruct p as [| | | | | |p]; try done. destruct (deserialize_shell_environment_policy_filters _ _ _ _) as [[]| |] eqn:E; try done.
  apply check_good; [|intros t Hf; apply Hs; cbn; by rewrite Hp, <-Hf; cbn; destruct (tget FILTERS p)|done].
  by eapply (toml_ok_child (λ _, True)).
Qed.

Lemma good_valid c : good_config c → valid_filters c = true.
Proof.
  destruct c as [| | | | | |c]; try done. cbn. intros Hg. destruct (tget SEP c) as [p|]; [|done].
  destruct (is_table p) eqn:E; [|by destruct p]. destruct p as [| | | | | |p]; try done. by rewrite good_check by (by apply Hg).
Qed.

(** Layers that pass the check one by one merge into a configuration that passes it.
    Whatever representations of the environment filters the enabled layers use and however
    they write their patterns, the merged configuration does not mix the representations,
    has no pattern twice and has filters that can be read. *)
Theorem effective_filters_valid {Requirements} ls (r : Requirements) self :
  stack_new to_lowercase read_inherit read_filter read_non_table ls r = Ok self →
  Forall (λ l, toml_ok (layer_config l) ∧ is_table (layer_config l) = true ∧ string_filters (layer_config l)) ls →
  valid_filters (effective_config to_lowercase self) = true.
Proof.
  intros ([] & Hv%validate_enabled_spec & ([] & _ & [= <-])%res_bind_Ok)%res_bind_Ok Hl. apply good_valid.
  unfold effective_config, layers_low_to_high. cbn [layers].
  assert (Forall (λ l, toml_ok (layer_config l) ∧ good_config (layer_config l)) (filter (λ l, is_disabled l = false) ls)) as Hg.
  { rewrite Forall_forall in Hv, Hl |- *. intros l [Hd Hin]%list_elem_of_filter. destruct (Hl l Hin) as (Hok & Ht & Hs).
    split; [done|]. apply valid_good; try done. by apply Hv. }
  assert (good_config (TTable [])) as H0 by done. revert H0. generalize (TTable []).
  induction Hg as [|l ls' [Hok Hc] _ IH]; intros b Hb; cbn; [done|]. by apply IH, merge_configs.
Qed.
End filters.

(** ** Example *)

Module Example.

Import ConfigLayers.Example.

(** A user layer with the legacy lists and a session with a table of filters. *)
Definition mixed_stack : list ConfigLayerEntry :=
  [ entry (User user_file None) [(SHELL_ENVIRONMENT_POLICY, TTable [(str "exclude", TArray [TString (str "A*")])])];
    entry (Project [str "repo"; str ".hexa"])
      [(SHELL_ENVIRONMENT_POLICY, TTable [(str "filters", TTable [(str "AWS_*", TString (str "exclude"))])])];
    entry SessionFlags
      [(SHELL_ENVIRONMENT_POLICY, TTable [(str "filters", TTable [(str "aws_*", TString (str "include"))])])] ].

Definition mixed_self : @ConfigLayerStack () :=
  {| layers := mixed_stack; requirements := (); ignore_user_and_project_exec_policy_rules := false; startup_warnings := None |}.

Lemma effective_filters_valid_witness :
  validate_shell_environment_policy_filter_config to_ascii_lowercase (λ _, None) read_filter (λ _, false)
    (effective_config to_ascii_lowercase mixed_self) = true.
Proof.
  apply (effective_filters_valid to_ascii_lowercase (λ _, None) read_filter (λ _, false) to_ascii_lowercase_idem mixed_stack () mixed_self);
    [by vm_compute|].
  repeat constructor; try (intros t Ht; vm_compute in Ht; try discriminate Ht; injection Ht as <-; repeat constructor; by eexists);
    vm_compute; set_solver.
Defined.

(** The session's entry takes the place of the project's, which differs in letters only. *)
Lemma merged_filters_example :
  get_path [SHELL_ENVIRONMENT_POLICY] (effective_config to_ascii_lowercase mixed_self) =
  Some (TTable [(str "filters", TTable [(str "aws_*", TString (str "include"))])]).
Proof. by vm_compute. Qed.

End Example.
