(* ===== verification/PathUri.v ===== *)
(** * File URIs ([utils/path-uri/src/lib.rs], [absolute_path_normalization.rs])

    A validated [file:] URL is its host and the encoded segments of its path, as
    [path_segments] lists them: the path of the root is the one empty segment.  URL text is
    ASCII, so that its characters are its bytes.  The native convention is that of Unix.

    The URL, percent-coding and base64 libraries are the operations of [UrlLib]; what the
    theorems use of them is [UrlLaws]. *)

From S2P Require Import Prelude RustStr Utf8 AbsolutePath.

Local Open Scope nat_scope.

Definition BACKSLASH : char := 92%N.

Inductive PathConvention := Posix | Windows.

#[export] Instance PathConvention_eq_dec : EqDecision PathConvention.
Proof. solve_decision. Defined.

Record Url := { url_host : option rstring; url_segments : list rstring }.

#[export] Instance Url_eq_dec : EqDecision Url.
Proof. solve_decision. Defined.

(** The errors of an operation on a URL that is already parsed. *)
Inductive PathUriParseError :=
  | InvalidFileUriPath (path : rstring)
  | JoinPathMustBeDescendant (path : rstring).

(** The operations of the libraries: [urlencoding::decode_binary], base64 with the URL-safe
    alphabet and no padding, [PathSegmentsMut] on the segments, the host that [set_host] leaves
    in [file:///], and the URL of an absolute path and back. *)
Class UrlLib := {
  decode_binary : rstring → list N;
  b64_encode : list N → rstring;
  b64_decode : rstring → option (list N);
  segments_pop_if_empty : list rstring → list rstring;
  segments_pop : list rstring → list rstring;
  segments_push : list rstring → rstring → list rstring;
  url_set_host : rstring → option (option rstring);
  url_from_file_path : list rstring → option Url;
  url_to_file_path : Url → option rstring;
}.

(** ** Text of segments *)

Definition is_ascii_alphabetic (c : char) : bool :=
  ((65 <=? c) && (c <=? 90) || (97 <=? c) && (c <=? 122))%N.

Definition is_windows_drive_uri_segment (segment : rstring) : bool :=
  match segment with
  | [drive; 58%N] => is_ascii_alphabetic drive
  | [drive; 37%N; 51%N; c] => is_ascii_alphabetic drive && ((c =? 65) || (c =? 97))%N
  | _ => false
  end.

Definition is_windows_separator_char (c : char) : bool := ((c =? BACKSLASH) || (c =? SLASH))%N.

(** [str::split] at the separators of Windows. *)
Definition split_windows (path : rstring) : list rstring :=
  split_char SLASH (map (λ c, if (c =? BACKSLASH)%N then SLASH else c) path).

(** [PathConvention::path_segments]. *)
Definition path_segments (convention : PathConvention) (path : rstring) : list rstring :=
  match convention with
  | Posix => split_char SLASH path
  | Windows => split_windows path
  end.

(** The convention of the bytes of an opaque path. *)
Definition infer_opaque_path_convention (path_bytes : list N) : option PathConvention :=
  if bool_decide (head path_bytes = Some SLASH) then Some Posix
  else if negb (Nat.even (length path_bytes)) then None
  else
    match path_bytes with
    | a :: b :: c :: d :: _ =>
        let first := (a + 256 * b)%N in
        let second := (c + 256 * d)%N in
        let has_drive := (first <? 256)%N && is_ascii_alphabetic first && (second =? 58)%N in
        let has_unc_prefix := (first =? BACKSLASH)%N && (second =? BACKSLASH)%N in
        if has_drive || has_unc_prefix then Some Windows else None
    | _ => None
    end.

(** [encode_utf16] and [to_le_bytes]. *)
Definition utf16_le_bytes (s : rstring) : list N :=
  let le (u : N) := [(u mod 256)%N; (u / 256)%N] in
  concat (map (λ c,
    if (c <? 65536)%N then le c
    else le (55296 + (c - 65536) / 1024)%N ++ le (56320 + (c - 65536) mod 1024)%N) s).

Definition is_windows_drive_absolute_path (path : rstring) : bool :=
  match path with
  | drive :: colon :: separator :: _ =>
      is_ascii_alphabetic drive && (colon =? 58)%N && is_windows_separator_char separator
  | _ => false
  end.

(** [codex_utils_absolute_path::normalize_windows_device_path]. *)
Definition normalize_windows_device_path (path : rstring) : option rstring :=
  let device prefix :=
    rest ← strip_prefix (str prefix) path;
    if is_windows_drive_absolute_path rest then Some rest else None in
  let unc prefix := (λ unc, [BACKSLASH; BACKSLASH] ++ unc) <$> strip_prefix (str prefix) path in
  match unc "\\?\UNC\"%string with
  | Some p => Some p
  | None =>
      match unc "\\.\UNC\"%string with
      | Some p => Some p
      | None =>
          match device "\\?\"%string with
          | Some p => Some p
          | None => device "\\.\"%string
          end
      end
  end.

(** ** Segments of a URL *)

(** [Url::path]. *)
Definition encoded_path (u : Url) : rstring := SLASH :: join [SLASH] (url_segments u).

(** [Url::as_str]. *)
Definition to_string (u : Url) : rstring := str "file://" ++ default [] (url_host u) ++ encoded_path u.

Definition nonempty_segments (u : Url) : list rstring := filter (λ s, s ≠ []) (url_segments u).

Definition set_segments (segments : list rstring) (u : Url) : Url :=
  {| url_host := url_host u; url_segments := segments |}.

Definition anchor_depth (convention : PathConvention) : nat :=
  match convention with Posix => 0 | Windows => 1 end.

Definition without_localhost_authority (u : Url) : Url :=
  if decide (url_host u = Some (str "localhost"))
  then {| url_host := None; url_segments := url_segments u |} else u.

(** The drive letter of the first segment that is not empty, in upper case. *)
Fixpoint normalize_drive (segments : list rstring) : list rstring :=
  match segments with
  | [] => []
  | [] :: segments' => [] :: normalize_drive segments'
  | ((drive :: rest) as segment) :: segments' =>
      if negb (is_windows_drive_uri_segment segment) || ((65 <=? drive) && (drive <=? 90))%N then segments
      else ((drive - 32)%N :: rest) :: segments'
  end.

Definition with_normalized_windows_drive_letter (u : Url) : Url :=
  match url_host u with
  | Some _ => u
  | None => set_segments (normalize_drive (url_segments u)) u
  end.

(** The loop of [path_uri_from_segments]: the segments kept, their number and whether the
    text ends in a separator. *)
Definition normalize_segment (convention : PathConvention) (st : list rstring * nat * bool)
    (segment : rstring) : list rstring * nat * bool :=
  let '(normalized, depth, trailing) := st in
  if decide (segment = []) then (normalized, depth, true)
  else if decide (segment = str ".") then (normalized, depth, false)
  else if decide (segment = str "..") then
    if decide (anchor_depth convention < depth) then (removelast normalized, depth - 1, false)
    else (normalized, depth, false)
  else (normalized ++ [segment], depth + 1, false).

Section uri.
Context `{UrlLib}.

Definition decode_uri_path (path : rstring) : rstring :=
  match from_utf8 (decode_binary path) with Ok s => s | _ => path end.

Definition decoded_path_bytes (u : Url) : list N := decode_binary (encoded_path u).

Definition decode_bad_path_uri (u : Url) : option (list N) :=
  match default [] (url_host u), url_segments u with
  | [], [null; bad; path; encoded] =>
      if decide (null = str "%00" ∧ bad = str "bad" ∧ path = str "path" ∧ encoded ≠ []) then
        path_bytes ← b64_decode encoded;
        if decide (b64_encode path_bytes = encoded) then Some path_bytes else None
      else None
  | _, _ => None
  end.

Definition is_opaque (u : Url) : bool := bool_decide (is_Some (decode_bad_path_uri u)).

Definition infer_path_convention (u : Url) : option PathConvention :=
  match decode_bad_path_uri u with
  | Some path_bytes => infer_opaque_path_convention path_bytes
  | None =>
      match url_host u with
      | Some _ => Some Windows
      | None =>
          match head (nonempty_segments u) with
          | Some segment => if is_windows_drive_uri_segment segment then Some Windows else Some Posix
          | None => Some Posix
          end
      end
  end.

(** ** Containment *)

(** A decoded byte that would split the segment. *)
Definition has_separator (convention : PathConvention) (segment : rstring) : bool :=
  existsb (λ byte, (byte =? SLASH)%N || bool_decide (convention = Windows) && (byte =? BACKSLASH)%N)
    (decode_binary segment).

Definition containment_path_segments (u : Url) (convention : PathConvention) : option (list rstring) :=
  let segments := nonempty_segments u in
  if existsb (has_separator convention) segments then None else Some segments.

Definition native_segment_eq (convention : PathConvention) (path base : rstring) : bool :=
  match convention with
  | Posix => bool_decide (decode_binary path = decode_binary base)
  | Windows => eq_ignore_ascii_case path base ||
      eq_ignore_ascii_case (decode_uri_path path) (decode_uri_path base)
  end.

Definition native_path_segments_start_with (path_segments base_segments : list rstring)
    (convention : PathConvention) : bool :=
  (length base_segments <=? length path_segments) &&
  forallb (λ '(path, base), native_segment_eq convention path base) (zip path_segments base_segments).

Definition windows_identity_path_bytes (u : Url) : option (list N) :=
  if bool_decide (infer_path_convention u ≠ Some Windows) || is_opaque u ||
     existsb (has_separator Windows) (url_segments u)
  then None else Some (decode_binary (encoded_path u)).

(** [PartialEq]: two URLs are equal when their texts are. *)
Definition url_eq (self other : Url) : bool :=
  bool_decide (default [] (url_host self) = default [] (url_host other) ∧
    url_segments self = url_segments other).

Definition uri_eq (self other : Url) : bool :=
  if url_eq self other then true
  else
    match windows_identity_path_bytes self, windows_identity_path_bytes other with
    | Some path, Some other_path =>
        bool_decide (url_host self = url_host other) && eq_ignore_ascii_case path other_path
    | _, _ => false
    end.

(** [PathUri::starts_with]. *)
Definition uri_starts_with (self base : Url) : bool :=
  if uri_eq self base then true
  else if is_opaque self || is_opaque base then false
  else if decide (url_host self ≠ url_host base) then false
  else
    let convention := infer_path_convention self in
    if decide (convention ≠ infer_path_convention base) then false
    else
      let convention := default Posix convention in
      match containment_path_segments self convention, containment_path_segments base convention with
      | Some path_segments, Some base_segments =>
          native_path_segments_start_with path_segments base_segments convention
      | _, _ => false
      end.

Definition lexical_depth (u : Url) : option nat :=
  if is_opaque u then None
  else
    convention ← infer_path_convention u;
    length <$> containment_path_segments u convention.

Definition overlaps (self other : Url) : option bool :=
  if uri_eq self other then Some true
  else
    _ ← lexical_depth self;
    _ ← lexical_depth other;
    Some (uri_starts_with self other || uri_starts_with other self).

Definition basename (u : Url) : option rstring :=
  if is_opaque u then None else decode_uri_path <$> last (nonempty_segments u).

Definition parent (u : Url) : option Url :=
  if is_opaque u then None
  else
    convention ← infer_path_convention u;
    if decide (length (nonempty_segments u) ≤ anchor_depth convention) then None
    else Some (set_segments (segments_pop (segments_pop_if_empty (url_segments u))) u).

(** The last of the [ancestors]. *)
Fixpoint last_ancestor (fuel : nat) (u : Url) : Url :=
  match fuel with
  | 0 => u
  | S fuel => match parent u with Some p => last_ancestor fuel p | None => u end
  end.

Definition relative_path_from (self base : Url) : option rstring :=
  if uri_eq self base then Some []
  else if is_opaque self || is_opaque base || bool_decide (url_host self ≠ url_host base) ||
          bool_decide (infer_path_convention self ≠ infer_path_convention base) then None
  else
    convention ← infer_path_convention self;
    path_segments ← containment_path_segments self convention;
    base_segments ← containment_path_segments base convention;
    if native_path_segments_start_with path_segments base_segments convention then
      let separator := match convention with Posix => SLASH | Windows => BACKSLASH end in
      Some (join [separator] (map decode_uri_path (drop (length base_segments) path_segments)))
    else None.

(** ** Construction *)

(** [TryFrom<Url>] and [validate_file_url], for a [file:] URL without credentials, port,
    query or fragment. *)
Definition try_from_url (u : Url) : res PathUriParseError Url :=
  if bool_decide (0%N ∈ decoded_path_bytes u) && negb (is_opaque u)
  then Err (InvalidFileUriPath (to_string u))
  else Ok (with_normalized_windows_drive_letter (without_localhost_authority u)).

Definition from_opaque_path_bytes (path_bytes : list N) : Url :=
  {| url_host := None; url_segments := [str "%00"; str "bad"; str "path"; b64_encode path_bytes] |}.

Definition windows_opaque_path_uri (path : rstring) : Url := from_opaque_path_bytes (utf16_le_bytes path).

Definition path_uri_from_segments (convention : PathConvention) (host : option rstring)
    (segments : list rstring) : option Url :=
  url_host ← match host with None => Some None | Some host => url_set_host host end;
  let '(normalized, depth, trailing) := foldl (normalize_segment convention) ([], 0, false) segments in
  let normalized :=
    if trailing || bool_decide (convention = Windows ∧ host = None ∧ depth = anchor_depth convention)
    then normalized ++ [[]] else normalized in
  match try_from_url {| url_host := url_host; url_segments := foldl segments_push [[]] normalized |} with
  | Ok u => Some u
  | _ => None
  end.

Definition parse_posix_path (path : rstring) : option Url :=
  path ← strip_prefix [SLASH] path;
  if decide (0%N ∈ path) then Some (from_opaque_path_bytes (encode (SLASH :: path)))
  else path_uri_from_segments Posix None (split_char SLASH path).

(** A share on a host: [\\host\share\...]. *)
Definition parse_unc_path (path : rstring) : option Url :=
  match split_windows (drop 2 path) with
  | host :: share :: components =>
      if decide (host = [] ∨ share = []) then None
      else
        match path_uri_from_segments Windows (Some host) (share :: components) with
        | Some u => Some u
        | None => Some (windows_opaque_path_uri path)
        end
  | _ => None
  end.

Definition parse_unnormalized_windows_path (path : rstring) : option Url :=
  let uses_namespace :=
    match path with
    | first :: second :: namespace :: separator :: _ =>
        is_windows_separator_char first && is_windows_separator_char second &&
        is_windows_separator_char separator && ((namespace =? 46) || (namespace =? 63))%N
    | _ => false
    end in
  if uses_namespace || bool_decide (0%N ∈ path) then Some (windows_opaque_path_uri path)
  else if is_windows_drive_absolute_path path then
    path_uri_from_segments Windows None (take 2 path :: split_windows (drop 3 path))
  else
    match path with
    | first :: second :: _ =>
        if is_windows_separator_char first && is_windows_separator_char second
        then parse_unc_path path else None
    | _ => None
    end.

(** The first or the second component of a UNC path is missing or does not name anything. *)
Definition unc_anchor_missing (unc_path : rstring) : bool :=
  let bad (c : option rstring) :=
    match c with None => true | Some c => bool_decide (c = [] ∨ c = str "." ∨ c = str "..") end in
  let components := split_windows unc_path in
  bad (components !! 0) || bad (components !! 1).

Definition parse_windows_path (path : rstring) : option Url :=
  match normalize_windows_device_path path with
  | None => parse_unnormalized_windows_path path
  | Some normalized_path =>
      let unc := strip_prefix [BACKSLASH; BACKSLASH] normalized_path in
      if existsb unc_anchor_missing (option_list unc) then Some (windows_opaque_path_uri path)
      else
        match parse_unnormalized_windows_path normalized_path with
        | Some u =>
            if bool_decide (infer_path_convention u = Some Windows) && negb (is_opaque u) &&
               (bool_decide (unc = None) || bool_decide (url_host u ≠ None ∧ url_host u ≠ Some []))
            then Some u else Some (windows_opaque_path_uri path)
        | None => Some (windows_opaque_path_uri path)
        end
  end.

Definition from_absolute_native_path (path : rstring) (convention : PathConvention) : option Url :=
  u ← match convention with Posix => parse_posix_path path | Windows => parse_windows_path path end;
  if decide (url_host u ≠ Some [] ∧ infer_path_convention u = Some convention) then Some u
  else Some
    match convention with
    | Posix => from_opaque_path_bytes (encode path)
    | Windows => windows_opaque_path_uri path
    end.

(** ** Native paths *)

(** [AbsolutePathBuf] as text. *)
Definition abs_to_string (path : list rstring) : rstring := SLASH :: join [SLASH] path.

Definition from_abs_path (path : list rstring) : Url :=
  let fallback := from_opaque_path_bytes (encode (abs_to_string path)) in
  match url_from_file_path path with
  | Some u =>
      match try_from_url u with
      | Ok u =>
          if decide (url_host u ≠ Some [] ∧ infer_path_convention u = Some Posix) then u else fallback
      | _ => fallback
      end
  | None => fallback
  end.

(** [to_abs_path], for a path that is text. *)
Definition to_abs_path (u : Url) : option (list rstring) :=
  if decide (infer_path_convention u ≠ Some Posix) then None
  else
    match decode_bad_path_uri u with
    | Some path_bytes =>
        match from_utf8 path_bytes with
        | Ok path =>
            if is_absolute path && uri_eq (from_abs_path (normalize_from [] path)) u
            then Some (normalize_from [] path) else None
        | _ => None
        end
    | None =>
        path ← url_to_file_path u;
        if is_absolute path then Some (normalize_from [] path) else None
    end.

(** ** Joining *)

(** One component of the text of [join]. *)
Definition join_component (convention : PathConvention) (st : list rstring * nat) (component : rstring)
    : list rstring * nat :=
  let '(segments, depth) := st in
  if decide (component = [] ∨ component = str ".") then st
  else if decide (component = str "..") then
    if decide (anchor_depth convention < depth) then (segments_pop segments, depth - 1) else st
  else (segments_push segments component, depth + 1).

(** The rest of a path on a drive, which has to be that of the base. *)
Definition same_drive_rest (u : Url) (path : rstring) : res PathUriParseError rstring :=
  match path with
  | drive :: 58%N :: rest =>
      if is_ascii_alphabetic drive then
        match head (nonempty_segments u) with
        | Some ((d :: _) as segment) =>
            if is_windows_drive_uri_segment segment && eq_ignore_ascii_case [d] [drive] then Ok rest
            else Err (InvalidFileUriPath path)
        | _ => Err (InvalidFileUriPath path)
        end
      else Ok path
  | _ => Ok path
  end.

Definition is_windows_root_relative (path : rstring) : bool :=
  match path with
  | c :: d :: _ => is_windows_separator_char c && negb (is_windows_separator_char d)
  | [c] => is_windows_separator_char c
  | [] => false
  end.

(** The part of [join] after the absolute paths. *)
Definition join_relative (self : Url) (convention : PathConvention) (path : rstring)
    : res PathUriParseError Url :=
  let? path := if decide (convention = Windows) then same_drive_rest self path else Ok path in
  if is_opaque self then Err (InvalidFileUriPath (to_string self))
  else
    let depth := length (nonempty_segments self) in
    let segments := segments_pop_if_empty (url_segments self) in
    let '(segments, depth) :=
      if decide (convention = Windows ∧ is_windows_root_relative path = true)
      then (Nat.iter (depth - anchor_depth convention) segments_pop segments,
            depth `min` anchor_depth convention)
      else (segments, depth) in
    let '(segments, _) :=
      foldl (join_component convention) (segments, depth) (path_segments convention path) in
    try_from_url (set_segments segments self).

(** [PathUri::join]. *)
Definition uri_join (self : Url) (path : rstring) : res PathUriParseError Url :=
  if decide (0%N ∈ path) then Err (InvalidFileUriPath path)
  else if decide (path = []) then Ok self
  else
    let? convention := ok_or (InvalidFileUriPath (to_string self)) (infer_path_convention self) in
    match from_absolute_native_path path convention with
    | Some absolute => Ok absolute
    | None => join_relative self convention path
    end.

Definition join_descendant (self : Url) (path : rstring) : res PathUriParseError Url :=
  let? descendant := uri_join self path in
  let windows := bool_decide (infer_path_convention self = Some Windows) in
  if starts_with path [SLASH] ||
     windows && (starts_with path [BACKSLASH] ||
       existsb (λ segment, contains_char segment 58%N) (split_windows path)) ||
     negb (uri_starts_with descendant self)
  then Err (JoinPathMustBeDescendant path) else Ok descendant.
End uri.

(** ** What the theorems use of the libraries *)

(** Text that percent-coding leaves alone. *)
Definition is_plain_char (c : char) : bool :=
  is_ascii_alphabetic c || is_ascii_digit c || ((c =? 45) || (c =? 46) || (c =? 95))%N.

Definition plain_name (s : rstring) : Prop :=
  s ≠ [] ∧ s ≠ str "." ∧ s ≠ str ".." ∧ Forall (λ c, is_plain_char c = true) s.

(** Percent-decoding keeps plain text and works on both sides of a separator; [pop_if_empty]
    drops a trailing empty segment, [pop] the last one, and [push] adds a plain name as it is. *)
Class UrlLaws `{UrlLib} : Prop := {
  decode_binary_nil : decode_binary [] = [];
  decode_binary_null : decode_binary (str "%00") = [0%N];
  decode_binary_plain s : plain_name s → decode_binary s = s;
  decode_binary_slash a b :
    decode_binary (a ++ SLASH :: b) = decode_binary a ++ SLASH :: decode_binary b;
  segments_pop_if_empty_spec segments : segments_pop_if_empty segments =
    if decide (2 ≤ length segments ∧ last segments = Some []) then removelast segments else segments;
  segments_pop_spec segments : segments_pop segments =
    if decide (2 ≤ length segments) then removelast segments else [[]];
  segments_push_plain segments s : plain_name s → segments_push segments s =
    if decide (segments = [[]]) then [s] else segments ++ [s];
}.

(** ** Paths of Unix *)

Section posix.
Context `{UrlLaws}.

(** A URL of a Unix path whose segments are the components of the path. *)
Definition posix_uri (u : Url) : Prop :=
  url_host u = None ∧
  (∀ s, head (nonempty_segments u) = Some s → is_windows_drive_uri_segment s = false) ∧
  Forall (λ s, (0%N ∉ decode_binary s) ∧ (SLASH ∉ decode_binary s)) (url_segments u).

(** The components of the path, decoded. *)
Definition key (u : Url) : list (list N) := decode_binary <$> nonempty_segments u.

Lemma posix_not_opaque u : posix_uri u → decode_bad_path_uri u = None.
Proof.
  intros (Hh & _ & Hf). unfold decode_bad_path_uri. rewrite Hh. simpl.
  destruct (url_segments u) as [|null [|? [|? [|? []]]]]; try done.
  rewrite decide_False; [done|]. intros (-> & _).
  apply Forall_cons in Hf as [[Hn _] _]. rewrite decode_binary_null in Hn. set_solver.
Qed.

Lemma posix_is_opaque u : posix_uri u → is_opaque u = false.
Proof. intros Hu. unfold is_opaque. by rewrite posix_not_opaque. Qed.

Lemma posix_convention u : posix_uri u → infer_path_convention u = Some Posix.
Proof.
  intros Hu. unfold infer_path_convention. rewrite posix_not_opaque by done.
  destruct Hu as (-> & Hd & _). destruct (head _) as [s|] eqn:E; [|done]. by rewrite (Hd s).
Qed.

Lemma has_separator_posix s : has_separator Posix s = true ↔ SLASH ∈ decode_binary s.
Proof.
  unfold has_separator. rewrite existsb_exists. setoid_rewrite orb_false_r.
  setoid_rewrite N.eqb_eq. setoid_rewrite <-list_elem_of_In. naive_solver.
Qed.

Lemma posix_containment u :
  posix_uri u → containment_path_segments u Posix = Some (nonempty_segments u).
Proof.
  intros (_ & _ & Hf). unfold containment_path_segments.
  destruct (existsb _ _) eqn:E; [|done]. exfalso.
  apply existsb_exists in E as (s & [_ Hs]%list_elem_of_In%list_elem_of_filter & Hsep%has_separator_posix).
  rewrite Forall_forall in Hf. naive_solver.
Qed.

(** The depth of a Unix path is the number of its components. *)
Lemma posix_depth u : posix_uri u → lexical_depth u = Some (length (key u)).
Proof.
  intros Hu. unfold lexical_depth. rewrite posix_is_opaque, posix_convention by done. simpl.
  rewrite posix_containment by done. unfold key. by rewrite length_fmap.
Qed.

Lemma zip_eq_prefix (ps bs : list rstring) :
  native_path_segments_start_with ps bs Posix = true ↔
  (decode_binary <$> bs) `prefix_of` (decode_binary <$> ps).
Proof.
  unfold native_path_segments_start_with. revert bs.
  induction ps as [|p ps IH]; intros [|b bs]; simpl.
  - split; [|done]. intros _. apply prefix_nil.
  - split; [done|]. by intros ?%prefix_nil_not.
  - split; [|done]. intros _. apply prefix_nil.
  - specialize (IH bs). rewrite andb_true_iff in IH |- *.
    rewrite andb_true_iff, bool_decide_eq_true. split.
    + intros (Hl & -> & Hz). apply prefix_cons, IH. done.
    + intros Hp. pose proof (prefix_cons_inv_1 _ _ _ _ Hp) as ->.
      apply prefix_cons_inv_2 in Hp. apply IH in Hp. naive_solver.
Qed.

Lemma url_eq_posix p b : posix_uri p → url_eq p b = true → key p = key b.
Proof.
  intros _ [_ E]%bool_decide_eq_true. unfold key, nonempty_segments. by rewrite E.
Qed.

Lemma uri_eq_posix p b : posix_uri p → uri_eq p b = url_eq p b.
Proof.
  intros Hp. unfold uri_eq. destruct (url_eq p b); [done|].
  unfold windows_identity_path_bytes. by rewrite posix_convention by done.
Qed.

(** Containment is the prefix order of the components. *)
Lemma posix_starts_with p b :
  posix_uri p → posix_uri b → uri_starts_with p b = true ↔ key b `prefix_of` key p.
Proof.
  intros Hp Hb. unfold uri_starts_with. rewrite uri_eq_posix by done.
  destruct (url_eq p b) eqn:E; [rewrite (url_eq_posix p b Hp E); naive_solver|].
  rewrite !posix_is_opaque, !posix_convention by done. simpl.
  assert (url_host p = url_host b) as Hh by (destruct Hp as [-> _], Hb as [-> _]; done).
  rewrite decide_False by naive_solver. rewrite !posix_containment by done. apply zip_eq_prefix.
Qed.

(** *** Popping and pushing segments *)

Lemma removelast_prefix (l : list rstring) : removelast l `prefix_of` l.
Proof.
  destruct l as [|x l] using rev_ind; [done|]. rewrite removelast_last. by exists [x].
Qed.

Lemma length_removelast_lt (l : list rstring) : l ≠ [] → length (removelast l) < length l.
Proof.
  destruct l as [|x l] using rev_ind; [done|]. rewrite removelast_last, length_app. simpl. lia.
Qed.

Lemma pop_if_empty_prefix l : segments_pop_if_empty l `prefix_of` l.
Proof. rewrite segments_pop_if_empty_spec. case_decide; [apply removelast_prefix|done]. Qed.

Lemma pop_if_empty_nonempty l :
  filter (λ s, s ≠ []) (segments_pop_if_empty l) = filter (λ s, s ≠ []) l.
Proof.
  rewrite segments_pop_if_empty_spec. case_decide as Hl; [|done]. destruct Hl as [_ Hl].
  destruct l as [|x l] using rev_ind; [done|]. rewrite last_snoc in Hl. simplify_eq.
  rewrite removelast_last, filter_app, filter_cons_False, filter_nil, app_nil_r; [done|naive_solver].
Qed.

Lemma posix_prefix segs u :
  posix_uri u → segs `prefix_of` url_segments u ∨ segs = [[]] → posix_uri (set_segments segs u).
Proof.
  intros (Hh & Hd & Hf) Hs. split; [done|]. split.
  - intros s Hhd. unfold nonempty_segments in *. simpl in Hhd.
    destruct Hs as [[k Hk]|Hs]; [|rewrite Hs, filter_cons_False in Hhd by auto; done].
    apply Hd. rewrite Hk, filter_app. by destruct (filter _ segs).
  - simpl. destruct Hs as [[k Hk]| ->]; [rewrite Hk in Hf; by apply Forall_app in Hf as [? _]|].
    apply Forall_singleton. rewrite decode_binary_nil. set_solver.
Qed.
Lemma posix_parent u :
  posix_uri u → key u ≠ [] →
  ∃ segs, parent u = Some (set_segments segs u) ∧ posix_uri (set_segments segs u) ∧
    (length segs < length (url_segments u) ∨ segs = [[]]).
Proof.
  intros Hu Hk. exists (segments_pop (segments_pop_if_empty (url_segments u))). split.
  { unfold parent. rewrite posix_is_opaque, posix_convention by done. simpl.
    rewrite decide_False; [done|]. unfold key in Hk. destruct (nonempty_segments u); simpl in *; [done|lia]. }
  pose proof (pop_if_empty_prefix (url_segments u)) as Hp.
  rewrite segments_pop_spec. case_decide as Hl.
  - assert (removelast (segments_pop_if_empty (url_segments u)) `prefix_of` url_segments u) as Hr
      by (etrans; [apply removelast_prefix|done]).
    split; [apply posix_prefix; auto|]. left. apply prefix_length in Hp.
    pose proof (length_removelast_lt (segments_pop_if_empty (url_segments u))) as Hlt.
    destruct (segments_pop_if_empty _); simpl in *; [lia|]. specialize (Hlt ltac:(done)). lia.
  - split; [apply posix_prefix|]; auto.
Qed.

Lemma key_root u : key (set_segments [[]] u) = [].
Proof. done. Qed.

Lemma parent_root u : posix_uri u → key u = [] → parent u = None.
Proof.
  intros Hu Hk. unfold parent. rewrite posix_is_opaque, posix_convention by done. simpl.
  apply fmap_nil_inv in Hk. rewrite Hk. by rewrite decide_True.
Qed.

(** The last ancestor of a Unix path is the root, with fuel for one step per segment. *)
Lemma posix_root u fuel :
  posix_uri u → length (url_segments u) ≤ fuel →
  posix_uri (last_ancestor fuel u) ∧ key (last_ancestor fuel u) = [].
Proof.
  revert u. induction fuel as [|fuel IH]; intros u Hu Hf; simpl.
  { split; [done|]. unfold key, nonempty_segments. by rewrite (nil_length_inv (url_segments u)) by lia. }
  destruct (decide (key u = [])) as [Hk|Hk]; [by rewrite parent_root|].
  destruct (posix_parent u Hu Hk) as (segs & -> & Hp & [Hl| ->]); [apply IH; simpl; [done|lia]|].
  assert (last_ancestor fuel (set_segments [[]] u) = set_segments [[]] u) as ->;
    [|split; [done|apply key_root]].
  destruct fuel; simpl; [done|]. rewrite parent_root; [done..|apply key_root].
Qed.

(** *** Joining a plain name *)

Lemma plain_char_not (s : rstring) c : Forall (λ c, is_plain_char c = true) s → is_plain_char c = false → c ∉ s.
Proof. rewrite Forall_forall. intros Hs Hc Hin. rewrite (Hs c Hin) in Hc. done. Qed.

Lemma plain_not_drive s : plain_name s → is_windows_drive_uri_segment s = false.
Proof.
  intros (_ & _ & _ & Hs). pose proof (plain_char_not s 58%N Hs eq_refl) as H1.
  pose proof (plain_char_not s 37%N Hs eq_refl) as H2.
  destruct (is_windows_drive_uri_segment s) eqn:E; [|done]. exfalso.
  unfold is_windows_drive_uri_segment in E. repeat case_match; simplify_eq; set_solver.
Qed.

Lemma segments_push_nonempty segs s :
  plain_name s → filter (λ s, s ≠ []) (segments_push segs s) = filter (λ s, s ≠ []) segs ++ [s].
Proof.
  intros Hs. rewrite segments_push_plain by done. destruct Hs as [Hs _].
  case_decide as E; [|by rewrite filter_app, filter_cons_True, filter_nil].
  by rewrite E, filter_cons_True, !filter_nil, filter_cons_False, filter_nil by auto.
Qed.

Lemma posix_push u segs s :
  posix_uri (set_segments segs u) → plain_name s → posix_uri (set_segments (segments_push segs s) u).
Proof.
  intros (Hh & Hd & Hf) Hs. split; [done|]. split.
  - intros h Hhd. unfold nonempty_segments in *. simpl in *. rewrite segments_push_nonempty in Hhd by done.
    destruct (filter _ segs) as [|h' ?] eqn:E; simpl in Hhd; simplify_eq; [by apply plain_not_drive|].
    by apply Hd.
  - simpl in *. rewrite segments_push_plain by done.
    assert ((0%N ∉ decode_binary s) ∧ (SLASH ∉ decode_binary s)).
    { rewrite decode_binary_plain by done. destruct Hs as (_ & _ & _ & Hs).
      split; by eapply plain_char_not. }
    case_decide; [by apply Forall_singleton|]. apply Forall_app. split; [done|by apply Forall_singleton].
Qed.

Lemma decode_join_null segs :
  Forall (λ s, (0%N ∉ decode_binary s) ∧ (SLASH ∉ decode_binary s)) segs →
  0%N ∉ decode_binary (join [SLASH] segs).
Proof.
  induction 1 as [|s segs [Hs _] _ IH]; simpl; [rewrite decode_binary_nil; set_solver|].
  destruct segs as [|s' segs]; [done|]. cbn [app]. rewrite decode_binary_slash.
  rewrite elem_of_app, elem_of_cons. intros [?|[?|?]]; done.
Qed.

Lemma normalize_drive_id segs :
  (∀ s, head (filter (λ s, s ≠ []) segs) = Some s → is_windows_drive_uri_segment s = false) →
  normalize_drive segs = segs.
Proof.
  induction segs as [|[|c s] segs IH]; intros Hd; cbn [normalize_drive]; [done| |].
  - rewrite IH; [done|]. intros s Hs. apply Hd. by rewrite filter_cons_False by auto.
  - by rewrite (Hd (c :: s)) by by rewrite filter_cons_True.
Qed.

Lemma posix_try_from u : posix_uri u → try_from_url u = Ok u.
Proof.
  intros (Hh & Hd & Hf). unfold try_from_url, decoded_path_bytes, encoded_path.
  rewrite bool_decide_eq_false_2; simpl.
  2:{ change (SLASH :: ?l) with ([] ++ SLASH :: l). rewrite decode_binary_slash, decode_binary_nil. simpl.
      rewrite elem_of_cons. intros [?|?]; [done|]. by apply (decode_join_null (url_segments u)). }
  unfold without_localhost_authority. rewrite decide_False by (rewrite Hh; done).
  unfold with_normalized_windows_drive_letter. rewrite Hh. unfold set_segments.
  rewrite normalize_drive_id by done. by destruct u; simpl in *; subst.
Qed.

Lemma plain_split s : plain_name s → split_char SLASH s = [s].
Proof. intros (_ & _ & _ & Hs). apply split_char_no_sep. by eapply plain_char_not. Qed.

Lemma plain_relative s : plain_name s → strip_prefix [SLASH] s = None.
Proof.
  intros (_ & _ & _ & Hs). apply strip_prefix_None. intros r ->.
  apply Forall_cons in Hs as [Hs _]. done.
Qed.

(** A plain name joined to a Unix path is one more component. *)
Lemma posix_join u s :
  posix_uri u → plain_name s → ∃ q, uri_join u s = Ok q ∧ posix_uri q ∧ key q = key u ++ [s].
Proof.
  intros Hu Hs. exists (set_segments (segments_push (segments_pop_if_empty (url_segments u)) s) u).
  assert (posix_uri (set_segments (segments_push (segments_pop_if_empty (url_segments u)) s) u)) as Hq.
  { apply posix_push; [|done]. apply posix_prefix; [done|]. left. apply pop_if_empty_prefix. }
  split; [|split; [done|]].
  - unfold uri_join. rewrite decide_False by (destruct Hs as (_ & _ & _ & Hs); by eapply plain_char_not).
    rewrite decide_False by apply Hs. rewrite posix_convention by done. simpl.
    unfold from_absolute_native_path, parse_posix_path. rewrite plain_relative by done. simpl.
    unfold join_relative. simpl. rewrite posix_is_opaque by done.
    rewrite plain_split by done. simpl.
    destruct Hs as (H1 & H2 & H3 & H4). rewrite decide_False by naive_solver. rewrite decide_False by done.
    by apply posix_try_from.
  - unfold key, nonempty_segments. simpl. rewrite segments_push_nonempty by done.
    rewrite pop_if_empty_nonempty, fmap_app. simpl. by rewrite decode_binary_plain.
Qed.

Lemma posix_join_descendant u s :
  posix_uri u → plain_name s → ∃ q, join_descendant u s = Ok q ∧ posix_uri q ∧ key q = key u ++ [s].
Proof.
  intros Hu Hs. destruct (posix_join u s Hu Hs) as (q & Hj & Hq & Hk). exists q.
  split; [|done]. unfold join_descendant. rewrite Hj. simpl.
  unfold starts_with at 1. rewrite plain_relative by done. simpl.
  rewrite posix_convention by done. simpl.
  assert (uri_starts_with q u = true) as ->; [|done].
  apply posix_starts_with; [done..|]. rewrite Hk. by exists [s].
Qed.

(** *** Checking that a URL is one of Unix *)

Definition posix_uri_check (u : Url) : bool :=
  bool_decide (url_host u = None) &&
  negb (existsb is_windows_drive_uri_segment (option_list (head (nonempty_segments u)))) &&
  forallb (λ s, bool_decide (0%N ∉ decode_binary s) && bool_decide (SLASH ∉ decode_binary s)) (url_segments u).

Lemma posix_uri_checked u : posix_uri_check u = true → posix_uri u.
Proof.
  unfold posix_uri_check. rewrite !andb_true_iff, bool_decide_eq_true, negb_true_iff, forallb_forall.
  intros [[Hh Hd] Hf]. split; [done|]. split.
  - intros s Hs. rewrite Hs in Hd. simpl in Hd. by apply orb_false_iff in Hd as [? _].
  - apply Forall_forall. intros s Hs%list_elem_of_In%Hf. by rewrite andb_true_iff, !bool_decide_eq_true in Hs.
Qed.
End posix.

(** ** A library that has the laws *)

Module Percent.

Definition hex_value (c : char) : option N :=
  if is_ascii_digit c then Some (c - 48)%N
  else if ((65 <=? c) && (c <=? 70))%N then Some (c - 55)%N
  else if ((97 <=? c) && (c <=? 102))%N then Some (c - 87)%N
  else None.

Fixpoint decode (s : rstring) : list N :=
  match s with
  | [] => []
  | c :: s1 =>
      if (c =? 37)%N then
        match s1 with
        | a :: ((b :: s2) as s1') =>
            match hex_value a, hex_value b with
            | Some x, Some y => (16 * x + y)%N :: decode s2
            | _, _ => c :: decode s1
            end
        | _ => c :: decode s1
        end
      else c :: decode s1
  end.

Definition hex_digit (n : N) : char := if (n <? 10)%N then (48 + n)%N else (55 + n)%N.

Definition encode_byte (b : N) : rstring :=
  if is_plain_char b then [b] else [37%N; hex_digit (b / 16); hex_digit (b mod 16)].

Definition push (segments : list rstring) (s : rstring) : list rstring :=
  if decide (s = str "." ∨ s = str "..") then segments
  else
    let e := concat (map encode_byte (encode s)) in
    if decide (segments = [[]]) then [e] else segments ++ [e].

(** Segments are pushed one by one for the URL of a path. *)
#[export] Instance lib : UrlLib := {|
  decode_binary := decode;
  b64_encode := λ bs, bs;
  b64_decode := Some;
  segments_pop_if_empty segs :=
    if decide (2 ≤ length segs ∧ last segs = Some []) then removelast segs else segs;
  segments_pop segs := if decide (2 ≤ length segs) then removelast segs else [[]];
  segments_push := push;
  url_set_host h := Some (Some h);
  url_from_file_path path := Some {| url_host := None; url_segments := foldl push [[]] path |};
  url_to_file_path u :=
    match from_utf8 (decode (encoded_path u)) with Ok s => Some s | _ => None end;
|}.

Lemma decode_slash n a b :
  length a ≤ n → decode (a ++ SLASH :: b) = decode a ++ SLASH :: decode b.
Proof.
  revert a. induction n as [|n IH]; intros [|c a] Hn; try done; simpl in Hn; [lia|].
  cbn [app decode]. destruct (c =? 37)%N eqn:Ec; [|rewrite IH by lia; done].
  destruct a as [|x [|y a]]; cbn [app].
  - by destruct b as [|y b].
  - assert (hex_value SLASH = None) as -> by done.
    specialize (IH [x]). cbn [app length] in IH, Hn. rewrite IH by lia. by destruct (hex_value x).
  - specialize (IH (x :: y :: a)) as IH1. specialize (IH a) as IH2. cbn [app length] in Hn, IH1.
    destruct (hex_value x), (hex_value y); cbn [app].
    all: try (by rewrite IH2 by lia).
    all: rewrite IH1 by lia; done.
Qed.

Lemma decode_plain s : Forall (λ c, is_plain_char c = true) s → decode s = s.
Proof.
  induction 1 as [|c s Hc _ IH]; [done|]. cbn [decode]. rewrite IH.
  destruct (N.eqb_spec c 37) as [->|_]; done.
Qed.

Lemma encode_plain s : Forall (λ c, is_plain_char c = true) s → concat (map encode_byte (encode s)) = s.
Proof.
  induction 1 as [|c s Hc _ IH]; [done|]. unfold encode in *. cbn [fmap list_fmap concat].
  assert (encode_char c = [c]) as ->.
  { unfold encode_char. assert ((c <? 128)%N = true) as ->; [|done]. apply N.ltb_lt.
    unfold is_plain_char, is_ascii_alphabetic, is_ascii_digit in Hc.
    rewrite !orb_true_iff, !andb_true_iff, !N.leb_le, !N.eqb_eq in Hc. lia. }
  rewrite map_app, concat_app, IH. cbn. unfold encode_byte. by rewrite Hc.
Qed.

#[export] Instance percent_laws : UrlLaws.
Proof.
  split; try done.
  - intros s (_ & _ & _ & Hs). by apply decode_plain.
  - intros a b. by eapply decode_slash.
  - intros segs s (H1 & H2 & H3 & Hs). simpl. unfold push. rewrite decide_False by naive_solver.
    by rewrite encode_plain.
Qed.
End Percent.
