(* ===== verification/PathText.v ===== *)
(** * Native path text ([utils/path-uri/src/api_path_string.rs])

    [LegacyAppPathString]: rendering a [PathUri] as the text of a path of either convention,
    and reading such text, absolute or against the directory of an executor.  The type is its
    string. *)

From S2P Require Import Prelude RustStr Utf8 AbsolutePath PathUri.

Local Open Scope nat_scope.

Inductive LegacyAppPathStringError :=
  | OpaqueFallback (path : rstring)
  | IncompatibleConvention (path : rstring) (convention : PathConvention)
  | InvalidNativePath (path : rstring) (convention : option PathConvention)
  | MissingBaseConvention (cwd : rstring)
  | MissingHomeDirectory (path : rstring)
  | MismatchedConvention (path : rstring) (path_convention : PathConvention) (cwd : rstring)
      (convention : PathConvention)
  | PathUriError (e : PathUriParseError).

Definition REPLACEMENT : char := 65533%N.

(** [String::from_utf8_lossy]: each maximal invalid part is one replacement character. *)
Fixpoint utf8_lossy (fuel : nat) (bs : list byte) : rstring :=
  match fuel with
  | 0 => []
  | S fuel =>
      match utf8_prefix bs with
      | (t, UComplete) => t
      | (t, UIncomplete) => t ++ [REPLACEMENT]
      | (t, UInvalid n) => t ++ REPLACEMENT :: utf8_lossy fuel (drop (str_len t + n) bs)
      end
  end.

(** Every round takes a byte at least. *)
Definition from_utf8_lossy (bs : list byte) : rstring := utf8_lossy (S (length bs)) bs.

(** [u16::from_le_bytes] of pairs. *)
Fixpoint wide_units (bs : list N) : list N :=
  match bs with
  | a :: b :: bs => (a + 256 * b)%N :: wide_units bs
  | _ => []
  end.

Definition is_high_surrogate (u : N) : bool := ((55296 <=? u) && (u <=? 56319))%N.
Definition is_low_surrogate (u : N) : bool := ((56320 <=? u) && (u <=? 57343))%N.

(** [String::from_utf16_lossy]. *)
Fixpoint from_utf16_lossy (us : list N) : rstring :=
  match us with
  | [] => []
  | u :: us1 =>
      if is_high_surrogate u then
        match us1 with
        | l :: us2 =>
            if is_low_surrogate l
            then (65536 + (u - 55296) * 1024 + (l - 56320))%N :: from_utf16_lossy us2
            else REPLACEMENT :: from_utf16_lossy us1
        | [] => [REPLACEMENT]
        end
      else (if is_low_surrogate u then REPLACEMENT else u) :: from_utf16_lossy us1
  end.

(** The convention that the spelling of absolute text has. *)
Definition infer_absolute_path_convention (path : rstring) : option PathConvention :=
  if is_windows_drive_absolute_path path || starts_with path [BACKSLASH; BACKSLASH] then Some Windows
  else if starts_with path [SLASH] then Some Posix
  else None.

Definition render_windows_opaque_fallback (path_bytes : list N) : option rstring :=
  if negb (Nat.even (length path_bytes)) then None
  else
    let path_wide := wide_units path_bytes in
    let has_drive_root :=
      match path_wide with
      | drive :: colon :: separator :: _ =>
          is_ascii_alphabetic drive && (colon =? 58)%N && is_windows_separator_char separator
      | _ => false
      end in
    let has_namespace_or_unc_root :=
      match path_wide with
      | first :: second :: _ => is_windows_separator_char first && is_windows_separator_char second
      | _ => false
      end in
    if has_drive_root || has_namespace_or_unc_root then Some (from_utf16_lossy path_wide) else None.

Section text.
Context `{UrlLib}.

(** ** Rendering *)

Definition render_opaque_fallback (path : Url) (path_bytes : list N) (convention : PathConvention)
    : res LegacyAppPathStringError rstring :=
  ok_or (OpaqueFallback (to_string path))
    match convention with
    | Posix => if decide (head path_bytes = Some SLASH) then Some (from_utf8_lossy path_bytes) else None
    | Windows => render_windows_opaque_fallback path_bytes
    end.

Definition decode_native_segment (segment : rstring) : rstring := from_utf8_lossy (decode_binary segment).

(** Each segment after its separator. *)
Definition render_segments (separator : char) (segments : list rstring) : rstring :=
  concat (map (λ segment, separator :: decode_native_segment segment) segments).

Definition render_posix_path (path : Url) : res LegacyAppPathStringError rstring :=
  match url_host path with
  | Some _ => Err (IncompatibleConvention (to_string path) Posix)
  | None => Ok (render_segments SLASH (url_segments path))
  end.

Definition render_windows_path (path : Url) : res LegacyAppPathStringError rstring :=
  let incompatible := Err (IncompatibleConvention (to_string path) Windows) in
  match url_segments path with
  | [] => incompatible
  | first :: segments =>
      let first := decode_native_segment first in
      let? prefix :=
        match url_host path with
        | Some host =>
            if decide (first = []) then incompatible
            else Ok ([BACKSLASH; BACKSLASH] ++ host ++ [BACKSLASH] ++ first)
        | None =>
            match first with
            | [drive; colon] =>
                if is_ascii_alphabetic drive && (colon =? 58)%N then Ok first else incompatible
            | _ => incompatible
            end
        end in
      let rendered := prefix ++ render_segments BACKSLASH segments in
      match rendered with
      | [_; 58%N] => Ok (rendered ++ [BACKSLASH])
      | _ => Ok rendered
      end
  end.

Definition from_path_uri (path : Url) (convention : PathConvention) : res LegacyAppPathStringError rstring :=
  match decode_bad_path_uri path with
  | Some path_bytes => render_opaque_fallback path path_bytes convention
  | None =>
      match convention with
      | Posix => render_posix_path path
      | Windows => render_windows_path path
      end
  end.

(** [PathUri::inferred_native_path_string]. *)
Definition inferred_native_path_string (u : Url) : rstring :=
  match infer_path_convention u with
  | Some convention => match from_path_uri u convention with Ok s => s | _ => to_string u end
  | None => to_string u
  end.

(** ** Reading *)

Definition to_path_uri (path : rstring) (convention : PathConvention) : res LegacyAppPathStringError Url :=
  ok_or (InvalidNativePath path (Some convention)) (from_absolute_native_path path convention).

(** [TryFrom<LegacyAppPathString> for PathUri]. *)
Definition uri_try_from_text (path : rstring) : res LegacyAppPathStringError Url :=
  match infer_absolute_path_convention path with
  | None => Err (InvalidNativePath path None)
  | Some convention => to_path_uri path convention
  end.

Definition render_for_ui (path : rstring) : rstring :=
  match uri_try_from_text path with Ok u => inferred_native_path_string u | _ => path end.

Definition path_uri_result (r : res PathUriParseError Url) : res LegacyAppPathStringError Url :=
  match r with Ok u => Ok u | Err e => Err (PathUriError e) | Panic => Panic end.

(** The text below the home directory. *)
Definition home_relative (is_windows : bool) (path : rstring) : option rstring :=
  match strip_prefix (str "~/") path with
  | Some suffix => Some suffix
  | None =>
      if decide (path = str "~") then Some []
      else if is_windows then strip_prefix [126%N; BACKSLASH] path else None
  end.

Definition resolve_against (path : rstring) (cwd : Url) (user_home_dir : option Url)
    : res LegacyAppPathStringError Url :=
  let? convention := ok_or (MissingBaseConvention (to_string cwd)) (infer_path_convention cwd) in
  let is_windows := bool_decide (convention = Windows) in
  match home_relative is_windows path with
  | Some suffix =>
      let? home := ok_or (MissingHomeDirectory path) user_home_dir in
      path_uri_result (uri_join home
        (trim_start_matches (λ c, (c =? SLASH)%N || is_windows && (c =? BACKSLASH)%N) suffix))
  | None =>
      if is_windows && (starts_with path [SLASH; SLASH] || starts_with path [BACKSLASH; BACKSLASH])
      then to_path_uri path Windows
      else
        match infer_absolute_path_convention path with
        | Some path_convention =>
            if decide (path_convention = convention) then to_path_uri path convention
            else if bool_decide (path_convention = Posix) && is_windows then path_uri_result (uri_join cwd path)
            else Err (MismatchedConvention path path_convention (to_string cwd) convention)
        | None => path_uri_result (uri_join cwd path)
        end
  end.
End text.

(** ** Round trip of Unix paths *)

Definition is_drive (s : rstring) : Prop := ∃ c, is_ascii_alphabetic c = true ∧ s = [c; 58%N].

(** A component of a path that a URL can hold: not one that URLs resolve, and without the
    characters that URLs drop or change. *)
Definition text_segment (s : rstring) : Prop :=
  valid_text s ∧ s ≠ [] ∧ s ≠ str "." ∧ s ≠ str ".." ∧
  Forall (λ c, c ∉ [0; 9; 10; 13; 47; 124]%N) s.

(** Pushing such a component adds one segment that decodes to its bytes, and a drive only for
    the text of a drive. *)
Class UrlTextLaws `{UrlLib} : Prop := {
  text_laws :: UrlLaws;
  segments_push_text segments s : text_segment s → ∃ e,
    segments_push segments s = (if decide (segments = [[]]) then [] else segments) ++ [e] ∧
    e ≠ [] ∧ decode_binary e = encode s ∧ (is_windows_drive_uri_segment e = true → is_drive s);
}.

Section round_trip.
Context `{UrlTextLaws}.

Lemma from_utf8_lossy_encode s : valid_text s → from_utf8_lossy (encode s) = s.
Proof.
  intros Hs. unfold from_utf8_lossy. simpl.
  rewrite <-(app_nil_r (encode s)), utf8_prefix_encode by done. simpl. by rewrite app_nil_r.
Qed.

Lemma text_segment_no (s : rstring) c : text_segment s → c ∈ [0; 9; 10; 13; 47; 124]%N → c ∉ s.
Proof. intros (_ & _ & _ & _ & Hs) Hc Hin. rewrite Forall_forall in Hs. by apply (Hs c Hin). Qed.

Lemma normalize_text segs done n :
  Forall text_segment segs →
  foldl (normalize_segment Posix) (done, n, false) segs = (done ++ segs, n + length segs, false).
Proof.
  intros Hs. revert done n. induction Hs as [|s segs (_ & H1 & H2 & H3 & _) _ IH]; intros dn n; simpl.
  { by rewrite app_nil_r, Nat.add_0_r. }
  rewrite !decide_False by done. rewrite IH, <-app_assoc. simpl. do 2 f_equal. lia.
Qed.

(** The URL of components: one segment for each. *)
Lemma push_text_segments segs :
  Forall text_segment segs → segs ≠ [] →
  ∃ es, foldl segments_push [[]] segs = es ∧ es ≠ [[]] ∧ Forall (λ e, e ≠ []) es ∧
    decode_binary <$> es = encode <$> segs ∧
    (∀ e s, head es = Some e → head segs = Some s → is_windows_drive_uri_segment e = true → is_drive s).
Proof.
  induction segs as [|s segs IH] using rev_ind; intros Hs Hne; [done|].
  apply Forall_app in Hs as [Hs [Hl _]%Forall_cons]. rewrite foldl_app. simpl.
  destruct (decide (segs = [])) as [->|Hne'].
  - simpl. destruct (segments_push_text [[]] s Hl) as (e & -> & He & Hd & Hdr). simpl.
    exists [e]. split_and!; [done|naive_solver|by apply Forall_singleton|simpl; by rewrite Hd|naive_solver].
  - destruct (IH Hs Hne') as (es & -> & Hn & Hf & Hd & Hdr).
    destruct (segments_push_text es s Hl) as (e & -> & He & Hde & _). rewrite decide_False by done.
    exists (es ++ [e]). rewrite !fmap_app, Hd. simpl. rewrite Hde.
    assert (es ≠ []) as Hes by (intros ->; apply Hne'; by apply fmap_nil_inv in Hd || destruct segs).
    split_and!; [done| |apply Forall_app; split; [done|by apply Forall_singleton]|done|].
    + intros Heq. apply (f_equal length) in Heq. rewrite length_app in Heq. destruct es; simpl in *; [done|lia].
    + intros e' s' He' Hs'. apply (Hdr e' s'); [by destruct es|by destruct segs].
Qed.

Lemma text_utf8_no s b : text_segment s → b ∈ [0; 47]%N → b ∉ encode s.
Proof.
  intros Hs Hb Hin. assert (b < 128)%N as Hlt by set_solver by lia.
  apply (text_segment_no s b Hs); [set_solver|]. clear Hs Hb.
  induction s as [|c s IH]; [by apply elem_of_nil in Hin|]. rewrite encode_cons in Hin.
  apply elem_of_app in Hin as [Hin|Hin]; [|right; by apply IH]. apply elem_of_cons. left.
  unfold encode_char in Hin. repeat case_match; rewrite ?elem_of_cons, ?elem_of_nil in Hin; lia || naive_solver lia.
Qed.

Lemma filter_nonempty_id (es : list rstring) : Forall (λ e, e ≠ []) es → filter (λ s, s ≠ []) es = es.
Proof. induction 1 as [|e es He _ IH]; [done|]. by rewrite filter_cons_True, IH. Qed.

(** The segments of components render as the text of the path. *)
Lemma render_text_segments es segs :
  Forall text_segment segs → segs ≠ [] → decode_binary <$> es = encode <$> segs →
  render_segments SLASH es = abs_to_string segs.
Proof.
  intros Hs. revert es. induction Hs as [|s segs (Hv & _) _ IH]; intros [|e es] Hne Hd; try done.
  injection Hd as Hde Hd. unfold render_segments. cbn [map concat].
  change (concat (map _ es)) with (render_segments SLASH es).
  unfold decode_native_segment. rewrite Hde, from_utf8_lossy_encode by done.
  destruct segs as [|s' segs]; [destruct es; [|done]; simpl; unfold abs_to_string; simpl; by rewrite app_nil_r|].
  by rewrite (IH es) by done.
Qed.

Lemma null_not_joined segs : Forall text_segment segs → 0%N ∉ join [SLASH] segs.
Proof.
  induction 1 as [|s segs Hs _ IH]; [apply not_elem_of_nil|].
  pose proof (text_segment_no s 0%N Hs ltac:(set_solver)) as H0'.
  destruct segs as [|s' segs]; [done|]. cbn [join]. rewrite !elem_of_app, list_elem_of_singleton.
  intros [?|[?|?]]; done.
Qed.

(** The text of components is parsed into the URL with one segment for each. *)
Lemma parse_text_segments segs es :
  Forall text_segment segs → segs ≠ [] → foldl segments_push [[]] segs = es →
  posix_uri {| url_host := None; url_segments := es |} →
  from_absolute_native_path (abs_to_string segs) Posix = Some {| url_host := None; url_segments := es |}.
Proof.
  intros Hs Hne Hes Hu. unfold from_absolute_native_path, parse_posix_path, abs_to_string.
  change (SLASH :: join [SLASH] segs) with ([SLASH] ++ join [SLASH] segs). rewrite strip_prefix_app. simpl.
  rewrite decide_False by by apply null_not_joined.
  rewrite split_char_join; [|done|].
  2:{ eapply Forall_impl; [done|]. intros s Ht. apply (text_segment_no s _ Ht). set_solver. }
  unfold path_uri_from_segments. simpl. rewrite normalize_text by done. simpl.
  rewrite Hes, posix_try_from by done. simpl. rewrite posix_convention by done. by rewrite decide_True.
Qed.

Lemma infer_slash r : infer_absolute_path_convention (SLASH :: r) = Some Posix.
Proof. by destruct r as [|? []]. Qed.

(** The URL of components is one of Unix with these components. *)
Lemma posix_text_url segs :
  segs ≠ [] → Forall text_segment segs → (∀ s, head segs = Some s → ¬ is_drive s) →
  let u := {| url_host := None; url_segments := foldl segments_push [[]] segs |} in
  posix_uri u ∧ key u = encode <$> segs.
Proof.
  intros Hne Hs Hdr u. destruct (push_text_segments segs Hs Hne) as (es & Hes & Hn & Hf & Hd & Hdrive).
  unfold u. rewrite Hes. clear u. pose proof (filter_nonempty_id es Hf) as Hfil.
  split; [|unfold key, nonempty_segments; simpl; by rewrite Hfil, Hd].
  split; [done|]. split.
  - intros e He. unfold nonempty_segments in He. simpl in He. rewrite Hfil in He.
    apply not_true_iff_false. intros Ht. destruct segs as [|s segs]; [done|].
    apply (Hdr s eq_refl), (Hdrive e s); done.
  - simpl. apply (Forall_fmap decode_binary (λ b, (0%N ∉ b) ∧ (SLASH ∉ b))). rewrite Hd. apply Forall_fmap.
    eapply Forall_impl; [done|]. intros s Hts. split; apply text_utf8_no; set_solver.
Qed.

(** The text of an absolute Unix path is read as the URL of its components, and that URL is
    rendered as the same text. *)
Theorem posix_text_round_trip segs :
  segs ≠ [] → Forall text_segment segs → (∀ s, head segs = Some s → ¬ is_drive s) →
  ∃ u, uri_try_from_text (abs_to_string segs) = Ok u ∧
    inferred_native_path_string u = abs_to_string segs ∧
    posix_uri u ∧ key u = encode <$> segs.
Proof.
  intros Hne Hs Hdr. destruct (posix_text_url segs Hne Hs Hdr) as [Hu Hk].
  destruct (push_text_segments segs Hs Hne) as (es & Hes & _ & _ & Hd & _). rewrite Hes in Hu, Hk.
  eexists. split_and!; [| |exact Hu|done].
  - unfold uri_try_from_text, to_path_uri, abs_to_string at 1. rewrite infer_slash.
    by rewrite (parse_text_segments segs es).
  - unfold inferred_native_path_string, from_path_uri. rewrite posix_convention, posix_not_opaque by done. simpl.
    by apply render_text_segments.
Qed.
End round_trip.

(** ** The laws hold of percent-coding *)

Module PercentText.
Import Percent.

Lemma hex_value_digit n : (n < 16)%N → hex_value (hex_digit n) = Some n.
Proof.
  intros Hn. assert (n ∈ N.of_nat <$> seq 0 16) as Hin.
  { apply list_elem_of_fmap. exists (N.to_nat n). rewrite N2Nat.id. split; [done|]. apply elem_of_seq. lia. }
  clear Hn. revert n Hin. apply Forall_forall. apply (bool_decide_unpack _). by vm_compute.
Qed.

Lemma decode_bytes bs : Forall (λ b, (b < 256)%N) bs → decode (concat (map encode_byte bs)) = bs.
Proof.
  induction 1 as [|b bs Hb _ IH]; [done|]. cbn [map concat]. unfold encode_byte at 1.
  destruct (is_plain_char b) eqn:E; cbn [app decode].
  - rewrite IH. destruct (N.eqb_spec b 37) as [->|_]; done.
  - rewrite !hex_value_digit, IH; [|apply N.mod_lt; done|apply N.Div0.div_lt_upper_bound; lia].
    simpl. f_equal. pose proof (N.div_mod b 16 ltac:(done)). lia.
Qed.

Lemma encode_bytes s : valid_text s → Forall (λ b, (b < 256)%N) (encode s).
Proof.
  induction 1 as [|c s Hc _ IH]; [constructor|]. rewrite encode_cons. apply Forall_app. split; [|done].
  unfold is_scalar in Hc. rewrite orb_true_iff, andb_true_iff, !N.ltb_lt in Hc.
  assert (c < 1114112)%N as Hlt by lia. clear Hc. unfold encode_char.
  repeat case_match; rewrite ?Forall_cons, ?Forall_nil; split_and?; try done;
    rewrite ?N.ltb_lt, ?N.ltb_ge in *; pose proof (N.mod_lt c 64); zify; Z.to_euclidean_division_equations; lia.
Qed.

Lemma drive_decode e :
  is_windows_drive_uri_segment e = true → ∃ c, is_ascii_alphabetic c = true ∧ decode e = [c; 58%N].
Proof.
  intros Ht. assert (∃ c, is_ascii_alphabetic c = true ∧
    (e = [c; 58%N] ∨ e = [c; 37%N; 51%N; 65%N] ∨ e = [c; 37%N; 51%N; 97%N])) as (c & Hc & He).
  { unfold is_windows_drive_uri_segment in Ht. repeat case_match; simplify_eq; eauto.
    apply andb_true_iff in Ht as [Hc [?%N.eqb_eq|?%N.eqb_eq]%orb_true_iff]; subst; eauto 6. }
  exists c. split; [done|]. assert ((c =? 37)%N = false) as Hn.
  { apply N.eqb_neq. intros ->. done. }
  destruct He as [->|[->| ->]]; cbn [decode]; by rewrite Hn.
Qed.

Lemma encode_ascii_inv c d s : (c < 128)%N → (d < 128)%N → valid_text s → encode s = [c; d] → s = [c; d].
Proof.
  intros Hc Hd Hs He. assert (encode [c; d] = [c; d]) as Hcd.
  { unfold encode. simpl. unfold encode_char.
    by rewrite (proj2 (N.ltb_lt c 128)), (proj2 (N.ltb_lt d 128)) by done. }
  apply from_utf8_encode in Hs. rewrite He, <-Hcd, from_utf8_encode in Hs; [congruence|].
  repeat constructor; unfold is_scalar; apply orb_true_iff; left; apply N.ltb_lt; lia.
Qed.

#[export] Instance percent_text_laws : UrlTextLaws.
Proof.
  split; [apply _|]. intros segs s (Hv & H1 & H2 & H3 & _). simpl. unfold push.
  rewrite decide_False by naive_solver. set (e := concat (map encode_byte (encode s))).
  assert (decode e = encode s) as Hd by by apply decode_bytes, encode_bytes.
  exists e. split_and!; [by case_decide| |done|].
  - intros He. rewrite He in Hd. destruct s as [|c s]; [done|]. rewrite encode_cons in Hd.
    pose proof (encode_char_length c) as Hl. pose proof (len_utf8_pos c). destruct (encode_char c); simpl in *; [lia|done].
  - intros (c & Hc & He)%drive_decode. exists c. split; [done|]. apply encode_ascii_inv; [|done..|congruence].
    unfold is_ascii_alphabetic in Hc. rewrite orb_true_iff, !andb_true_iff, !N.leb_le in Hc. lia.
Qed.

Lemma posix_text_round_trip_witness :
  ∃ u, uri_try_from_text (str "/w/my file") = Ok u ∧ inferred_native_path_string u = str "/w/my file" ∧
    posix_uri u ∧ key u = encode <$> [str "w"; str "my file"].
Proof.
  apply (posix_text_round_trip [str "w"; str "my file"]).
  - done.
  - unfold text_segment. apply (bool_decide_unpack _). by vm_compute.
  - intros s [= <-] (c & _ & Hs). vm_compute in Hs. done.
Defined.
End PercentText.
