(* ===== verification/Permissions.v ===== *)
(** * File-system permissions ([protocol/src/permissions.rs])

    The entries of a sandbox policy, how they resolve in the context of an executor, the
    access that a path gets, the protected metadata directories and the operations that
    rewrite a policy.  Paths are those of [PathUri].

    Arguments: the glob library of the deny-read patterns ([build_glob], [glob_is_match]) and
    the native rendering of a path ([inferred_native_path_string]). *)

From S2P Require Import Prelude RustStr Utf8 AbsolutePath PathUri.

Local Open Scope nat_scope.

Definition PROTECTED_METADATA_PATH_NAMES : list rstring := [str ".git"; str ".agents"; str ".hexa"].

Definition is_protected_metadata_name (name : rstring) : bool :=
  bool_decide (name ∈ PROTECTED_METADATA_PATH_NAMES).

Inductive NetworkSandboxPolicy := NetworkRestricted | NetworkEnabled.

Definition network_is_enabled (p : NetworkSandboxPolicy) : bool :=
  match p with NetworkEnabled => true | NetworkRestricted => false end.

Inductive FileSystemAccessMode := Read | Write | Deny.

#[export] Instance FileSystemAccessMode_eq_dec : EqDecision FileSystemAccessMode.
Proof. solve_decision. Defined.

(** [Ord]: the order of the declaration. *)
Definition access_rank (a : FileSystemAccessMode) : nat :=
  match a with Read => 0 | Write => 1 | Deny => 2 end.

Definition can_read (a : FileSystemAccessMode) : bool := match a with Deny => false | _ => true end.

Definition can_write (a : FileSystemAccessMode) : bool := match a with Write => true | _ => false end.

Inductive FileSystemSpecialPath :=
  | Root
  | Minimal
  | ProjectRoots (subpath : option rstring)
  | Tmpdir
  | SlashTmp
  | Unknown (path : rstring) (subpath : option rstring).

#[export] Instance FileSystemSpecialPath_eq_dec : EqDecision FileSystemSpecialPath.
Proof. solve_decision. Defined.

Inductive FileSystemPath :=
  | Path (path : Url)
  | GlobPattern (pattern : rstring)
  | Special (value : FileSystemSpecialPath).

Inductive MissingPathBehavior := Skip.

#[export] Instance MissingPathBehavior_eq_dec : EqDecision MissingPathBehavior.
Proof. solve_decision. Defined.

Record FileSystemSandboxEntry := {
  entry_path : FileSystemPath;
  entry_access : FileSystemAccessMode;
  missing_path_behavior : option MissingPathBehavior;
}.

Definition new_entry (path : FileSystemPath) (access : FileSystemAccessMode) : FileSystemSandboxEntry :=
  {| entry_path := path; entry_access := access; missing_path_behavior := None |}.

Definition skip_missing_path (path : FileSystemPath) (access : FileSystemAccessMode) : FileSystemSandboxEntry :=
  {| entry_path := path; entry_access := access; missing_path_behavior := Some Skip |}.

Definition skips_missing_path (entry : FileSystemSandboxEntry) : bool :=
  bool_decide (missing_path_behavior entry = Some Skip).

Inductive FileSystemSandboxKind := Restricted | Unrestricted | ExternalSandbox.

#[export] Instance FileSystemSandboxKind_eq_dec : EqDecision FileSystemSandboxKind.
Proof. solve_decision. Defined.

Record FileSystemSandboxPolicy := {
  kind : FileSystemSandboxKind;
  glob_scan_max_depth : option N;
  entries : list FileSystemSandboxEntry;
}.

Definition set_entries (es : list FileSystemSandboxEntry) (p : FileSystemSandboxPolicy) : FileSystemSandboxPolicy :=
  {| kind := kind p; glob_scan_max_depth := glob_scan_max_depth p; entries := es |}.

Definition restricted (es : list FileSystemSandboxEntry) : FileSystemSandboxPolicy :=
  {| kind := Restricted; glob_scan_max_depth := None; entries := es |}.

Definition unrestricted : FileSystemSandboxPolicy :=
  {| kind := Unrestricted; glob_scan_max_depth := None; entries := [] |}.

Definition external_sandbox : FileSystemSandboxPolicy :=
  {| kind := ExternalSandbox; glob_scan_max_depth := None; entries := [] |}.

Definition read_only : FileSystemSandboxPolicy := restricted [new_entry (Special Root) Read].

Definition remove_skip_missing_path_entries (p : FileSystemSandboxPolicy) : FileSystemSandboxPolicy :=
  set_entries (filter (λ e, skips_missing_path e = false) (entries p)) p.

Record FileSystemSandboxPolicyContext := {
  cwd : Url;
  workspace_roots : list Url;
  user_home_dir : option Url;
  temporary_directories : option (list Url);
}.

Definition is_restricted (p : FileSystemSandboxPolicy) : bool := bool_decide (kind p = Restricted).

Definition has_root_access (p : FileSystemSandboxPolicy) (predicate : FileSystemAccessMode → bool) : bool :=
  is_restricted p &&
  existsb (λ e, match entry_path e with Special Root => predicate (entry_access e) | _ => false end) (entries p).

(** On Unix, where the exception for [/tmp] does not apply. *)
Definition has_denied_read_restrictions (p : FileSystemSandboxPolicy) : bool :=
  is_restricted p && existsb (λ e, bool_decide (entry_access e = Deny)) (entries p).

Definition has_full_disk_read_access (p : FileSystemSandboxPolicy) : bool :=
  match kind p with
  | Unrestricted | ExternalSandbox => true
  | Restricted => has_root_access p can_read && negb (has_denied_read_restrictions p)
  end.

Definition include_platform_defaults (p : FileSystemSandboxPolicy) : bool :=
  negb (has_full_disk_read_access p) && is_restricted p &&
  existsb (λ e, match entry_path e with Special Minimal => can_read (entry_access e) | _ => false end) (entries p).

Definition special_paths_share_target (left right : FileSystemSpecialPath) : bool :=
  match left, right with
  | Root, Root | Minimal, Minimal | Tmpdir, Tmpdir | SlashTmp, SlashTmp => true
  | ProjectRoots l, ProjectRoots r => bool_decide (l = r)
  | Unknown l ls, Unknown r rs => bool_decide (l = r) && bool_decide (ls = rs)
  | _, _ => false
  end.

Section policy.
Context `{UrlLib}.

(** ** Entries that name the same target *)

Definition special_path_matches_path_uri (value : FileSystemSpecialPath) (path : Url) : bool :=
  match value with
  | Root => bool_decide (is_Some (lexical_depth path)) && bool_decide (parent path = None)
  | SlashTmp =>
      bool_decide (infer_path_convention path = Some Posix) && bool_decide (lexical_depth path = Some 1) &&
      bool_decide (basename path = Some (str "tmp"))
  | _ => false
  end.

Definition file_system_paths_share_target (left right : FileSystemPath) (convention : PathConvention) : bool :=
  match left, right with
  | Path l, Path r => uri_eq l r
  | Special l, Special r => special_paths_share_target l r
  | Path path, Special value | Special value, Path path =>
      bool_decide (infer_path_convention path = Some convention) && special_path_matches_path_uri value path
  | GlobPattern l, GlobPattern r => bool_decide (l = r)
  | GlobPattern _, _ | _, GlobPattern _ => false
  end.

Definition has_same_target_write_override (p : FileSystemSandboxPolicy) (entry : FileSystemSandboxEntry)
    (convention : PathConvention) : bool :=
  existsb (λ candidate,
    can_write (entry_access candidate) &&
    (access_rank (entry_access entry) <? access_rank (entry_access candidate)) &&
    file_system_paths_share_target (entry_path candidate) (entry_path entry) convention) (entries p).

Definition entry_narrows_write (p : FileSystemSandboxPolicy) (convention : PathConvention)
    (entry : FileSystemSandboxEntry) : bool :=
  if can_write (entry_access entry) then false
  else
    match entry_path entry with
    | Path _ => negb (has_same_target_write_override p entry convention)
    | GlobPattern _ => true
    | Special Root => bool_decide (entry_access entry = Deny)
    | Special SlashTmp =>
        match convention with
        | Windows => false
        | Posix => negb (has_same_target_write_override p entry convention)
        end
    | Special (Minimal | Unknown _ _) => false
    | Special _ => negb (has_same_target_write_override p entry convention)
    end.

Definition has_write_narrowing_entries (p : FileSystemSandboxPolicy) (convention : PathConvention) : bool :=
  is_restricted p && existsb (entry_narrows_write p convention) (entries p).

Definition has_full_disk_write_access_for_convention (p : FileSystemSandboxPolicy)
    (convention : option PathConvention) : bool :=
  match kind p with
  | Unrestricted | ExternalSandbox => true
  | Restricted =>
      match convention with
      | Some convention => has_root_access p can_write && negb (has_write_narrowing_entries p convention)
      | None => false
      end
  end.

Definition has_full_disk_write_access (p : FileSystemSandboxPolicy) : bool :=
  has_full_disk_write_access_for_convention p (Some Posix).

Definition has_full_disk_write_access_with_context (p : FileSystemSandboxPolicy)
    (context : FileSystemSandboxPolicyContext) : bool :=
  has_full_disk_write_access_for_convention p (infer_path_convention (cwd context)).

(** ** Resolution *)

(** [ancestors().last()], with fuel for one step per segment. *)
Definition file_system_root (context : FileSystemSandboxPolicyContext) : option Url :=
  _ ← lexical_depth (cwd context);
  Some (last_ancestor (length (url_segments (cwd context))) (cwd context)).

Definition res_ok {E A} (r : res E A) : option A := match r with Ok a => Some a | _ => None end.

Definition resolve_special (context : FileSystemSandboxPolicyContext) (value : FileSystemSpecialPath) : list Url :=
  match value with
  | Root => option_list (file_system_root context)
  | ProjectRoots subpath =>
      omap (λ root, match subpath with
                    | Some subpath => res_ok (uri_join root subpath)
                    | None => Some root
                    end) (workspace_roots context)
  | Tmpdir => default [] (temporary_directories context)
  | SlashTmp =>
      if decide (infer_path_convention (cwd context) = Some Posix)
      then option_list (res_ok (uri_join (cwd context) (str "/tmp"))) else []
  | Minimal | Unknown _ _ => []
  end.

Definition resolve_path (context : FileSystemSandboxPolicyContext) (path : FileSystemPath) : list Url :=
  match path with
  | Path path => [path]
  | GlobPattern _ => []
  | Special value => resolve_special context value
  end.

Definition resolved_entry (context : FileSystemSandboxPolicyContext) (entry : FileSystemSandboxEntry)
    : list (Url * FileSystemAccessMode) :=
  map (λ path, (path, entry_access entry))
    (filter (λ path, infer_path_convention path = infer_path_convention (cwd context))
      (resolve_path context (entry_path entry))).

Definition resolved_entries (p : FileSystemSandboxPolicy) (context : FileSystemSandboxPolicyContext)
    : list (Url * FileSystemAccessMode) :=
  concat (map (resolved_entry context) (entries p)).

(** ** Access *)

(** [max_by_key] of depth and access: of equal keys the last. *)
Definition entry_key_le (a b : Url * FileSystemAccessMode * nat) : bool :=
  (a.2 <? b.2) || (a.2 =? b.2) && (access_rank a.1.2 <=? access_rank b.1.2).

Definition max_entry (l : list (Url * FileSystemAccessMode * nat)) : option (Url * FileSystemAccessMode * nat) :=
  foldl (λ best e, match best with
                   | None => Some e
                   | Some b => if entry_key_le b e then Some e else Some b
                   end) None l.

(** The entries with their depth; an entry that has none is dropped when it is opaque, and
    otherwise there is no result. *)
Fixpoint entries_with_depth (l : list (Url * FileSystemAccessMode))
    : option (list (Url * FileSystemAccessMode * nat)) :=
  match l with
  | [] => Some []
  | (root, access) :: l =>
      match lexical_depth root with
      | Some depth => cons (root, access, depth) <$> entries_with_depth l
      | None => if is_opaque root then entries_with_depth l else None
      end
  end.

(** The path and the working directory have the same convention and can be compared. *)
Definition lexical_in_context (context : FileSystemSandboxPolicyContext) (path : Url)
    (convention : PathConvention) : bool :=
  bool_decide (infer_path_convention path = Some convention) &&
  bool_decide (is_Some (lexical_depth path)) && bool_decide (is_Some (lexical_depth (cwd context))).

Definition resolve_access (p : FileSystemSandboxPolicy) (path : Url) (context : FileSystemSandboxPolicyContext)
    : FileSystemAccessMode :=
  match kind p with
  | Unrestricted | ExternalSandbox => Write
  | Restricted =>
      match infer_path_convention (cwd context) with
      | None => Deny
      | Some convention =>
          if negb (lexical_in_context context path convention) then Deny
          else
            match entries_with_depth (resolved_entries p context) with
            | None => Deny
            | Some es =>
                match max_entry (filter (λ e, uri_starts_with path e.1.1 = true) es) with
                | Some (_, access, _) => access
                | None => Deny
                end
            end
      end
  end.

(** The first protected directory, of the writable roots in order, that has the path. *)
Definition find_protected (path : Url) (roots : list (Url * FileSystemAccessMode)) : option (Url * rstring) :=
  head (omap (λ x : Url * rstring,
      protected ← res_ok (join_descendant x.1 x.2);
      if uri_starts_with path protected then Some (protected, x.2) else None)
    (concat (map (λ r : Url * FileSystemAccessMode, map (pair r.1) PROTECTED_METADATA_PATH_NAMES)
      (filter (λ r, can_write r.2 = true) roots)))).

Definition metadata_write_denial (p : FileSystemSandboxPolicy) (path : Url)
    (context : FileSystemSandboxPolicyContext) : option rstring :=
  if negb (is_restricted p) then None
  else
    let es := resolved_entries p context in
    '(protected, metadata_name) ← find_protected path es;
    if existsb (λ '(root, access), can_write access && uri_starts_with path root && uri_starts_with root protected) es
    then None else Some metadata_name.

Definition can_write_path (p : FileSystemSandboxPolicy) (path : Url) (context : FileSystemSandboxPolicyContext) : bool :=
  if negb (can_write (resolve_access p path context)) then false
  else has_full_disk_write_access_with_context p context ||
       bool_decide (metadata_write_denial p path context = None).

Definition has_configured_writable_roots (p : FileSystemSandboxPolicy) (context : FileSystemSandboxPolicyContext) : bool :=
  negb (has_full_disk_write_access_with_context p context) &&
  existsb (λ '(path, access), can_write access && can_write_path p path context) (resolved_entries p context).

(** ** Keeping the denials of another policy *)

(** [PartialEq] of paths and entries. *)
Definition path_eq (a b : FileSystemPath) : bool :=
  match a, b with
  | Path a, Path b => uri_eq a b
  | GlobPattern a, GlobPattern b => bool_decide (a = b)
  | Special a, Special b => bool_decide (a = b)
  | _, _ => false
  end.

Definition entry_eq (a b : FileSystemSandboxEntry) : bool :=
  path_eq (entry_path a) (entry_path b) && bool_decide (entry_access a = entry_access b) &&
  bool_decide (missing_path_behavior a = missing_path_behavior b).

Definition push_missing (es : list FileSystemSandboxEntry) (e : FileSystemSandboxEntry) : list FileSystemSandboxEntry :=
  if existsb (λ entry, entry_eq entry e) es then es else es ++ [e].

Definition deny_entries (p : FileSystemSandboxPolicy) : list FileSystemSandboxEntry :=
  filter (λ e, entry_access e = Deny) (entries p).

Definition preserve_deny_read_restrictions_from (self existing : FileSystemSandboxPolicy) : FileSystemSandboxPolicy :=
  let has_deny_read_entries := existsb (λ e, bool_decide (entry_access e = Deny)) (entries existing) in
  let self :=
    if bool_decide (kind self = Unrestricted) && has_deny_read_entries
    then restricted [new_entry (Special Root) Write] else self in
  if negb (is_restricted self) then self
  else
    {| kind := kind self;
       glob_scan_max_depth :=
         match glob_scan_max_depth self with None => glob_scan_max_depth existing | d => d end;
       entries := foldl push_missing (entries self) (deny_entries existing) |}.
End policy.

(** ** Access is decided by the most specific entry *)

Section access.
Context `{UrlLib}.

(** An entry of the policy that resolves to a directory of the path, with its depth. *)
Definition covers (p : FileSystemSandboxPolicy) (context : FileSystemSandboxPolicyContext) (path root : Url)
    (access : FileSystemAccessMode) (depth : nat) : Prop :=
  (root, access) ∈ resolved_entries p context ∧ lexical_depth root = Some depth ∧
  uri_starts_with path root = true.

(** Everything that has to be compared can be. *)
Definition comparable (p : FileSystemSandboxPolicy) (context : FileSystemSandboxPolicyContext) (path : Url) : Prop :=
  is_Some (infer_path_convention (cwd context)) ∧
  infer_path_convention path = infer_path_convention (cwd context) ∧
  is_Some (lexical_depth path) ∧ is_Some (lexical_depth (cwd context)) ∧
  ∀ root access, (root, access) ∈ resolved_entries p context →
    is_Some (lexical_depth root) ∨ is_opaque root = true.

Inductive access_decision (p : FileSystemSandboxPolicy) (path : Url) (context : FileSystemSandboxPolicyContext)
    : FileSystemAccessMode → Prop :=
  | decision_open :
      kind p ≠ Restricted → access_decision p path context Write
  | decision_incomparable :
      kind p = Restricted → ¬ comparable p context path → access_decision p path context Deny
  | decision_uncovered :
      kind p = Restricted → comparable p context path →
      (∀ root access depth, ¬ covers p context path root access depth) →
      access_decision p path context Deny
  | decision_entry root access depth :
      kind p = Restricted → comparable p context path →
      covers p context path root access depth →
      (∀ root' access' depth', covers p context path root' access' depth' →
        depth' < depth ∨ depth' = depth ∧ access_rank access' ≤ access_rank access) →
      access_decision p path context access.

Lemma entry_key_le_spec a b :
  entry_key_le a b = true ↔ a.2 < b.2 ∨ a.2 = b.2 ∧ access_rank a.1.2 ≤ access_rank b.1.2.
Proof. unfold entry_key_le. rewrite orb_true_iff, andb_true_iff, Nat.ltb_lt, Nat.eqb_eq, Nat.leb_le. done. Qed.

Lemma max_entry_snoc l e :
  max_entry (l ++ [e]) =
  match max_entry l with None => Some e | Some b => if entry_key_le b e then Some e else Some b end.
Proof. unfold max_entry. by rewrite foldl_app. Qed.

Lemma max_entry_None l : max_entry l = None ↔ l = [].
Proof.
  destruct l as [|e l _] using rev_ind; [done|]. rewrite max_entry_snoc.
  split; [repeat case_match; done|]. by intros [_ ?]%app_nil.
Qed.

Lemma max_entry_Some l m :
  max_entry l = Some m → m ∈ l ∧ ∀ e, e ∈ l → entry_key_le e m = true.
Proof.
  revert m. induction l as [|x l IH] using rev_ind; intros m; [done|]. rewrite max_entry_snoc.
  setoid_rewrite elem_of_app. setoid_rewrite list_elem_of_singleton. setoid_rewrite entry_key_le_spec.
  destruct (max_entry l) as [b|] eqn:E.
  - destruct (IH b eq_refl) as [Hb Hm]. setoid_rewrite entry_key_le_spec in Hm.
    destruct (entry_key_le b x) eqn:Hle; intros [= <-].
    + apply entry_key_le_spec in Hle. split; [by right|]. intros e [He%Hm| ->]; lia.
    + split; [by left|]. apply not_true_iff_false in Hle. rewrite entry_key_le_spec in Hle.
      intros e [He%Hm| ->]; lia.
  - apply max_entry_None in E as ->. intros [= <-]. split; [by right|].
    intros e [He| ->]; [set_solver|lia].
Qed.

Lemma entries_with_depth_None l :
  entries_with_depth l = None ↔ ∃ root access, (root, access) ∈ l ∧ lexical_depth root = None ∧ is_opaque root = false.
Proof.
  induction l as [|[root access] l IH]; simpl; [split; [done|set_solver]|].
  setoid_rewrite elem_of_cons. destruct (lexical_depth root) as [d|] eqn:Ed.
  - rewrite fmap_None, IH. naive_solver.
  - destruct (is_opaque root) eqn:Eo; [|split; [intros _; eauto 10|done]]. rewrite IH. split.
    + intros (r & a & Hin & Hr). exists r, a. auto.
    + intros (r & a & [[= -> ->]|Hin] & Hr & Ho); [congruence|eauto].
Qed.

Lemma entries_with_depth_Some l es :
  entries_with_depth l = Some es →
  ∀ root access depth, (root, access, depth) ∈ es ↔ (root, access) ∈ l ∧ lexical_depth root = Some depth.
Proof.
  revert es. induction l as [|[root access] l IH]; intros es; simpl; [intros [= <-]; set_solver|].
  destruct (lexical_depth root) as [d|] eqn:Ed.
  - intros (es' & Hes & ->)%fmap_Some. specialize (IH es' Hes). set_solver.
  - destruct (is_opaque root); [|done]. intros Hes. specialize (IH es Hes). set_solver.
Qed.

Lemma comparable_entries p context path convention :
  infer_path_convention (cwd context) = Some convention →
  comparable p context path ↔ lexical_in_context context path convention = true ∧
    is_Some (entries_with_depth (resolved_entries p context)).
Proof.
  intros Hc. unfold comparable, lexical_in_context.
  rewrite Hc, !andb_true_iff, !bool_decide_eq_true, <-(not_eq_None_Some (entries_with_depth _)), entries_with_depth_None.
  split; [|intros [? Hn]; split_and!; try naive_solver].
  - intros (_ & ? & ? & ? & He). split; [done|]. intros (root & access & Hin & Hd & Ho).
    destruct (He root access Hin) as [[? ?]|?]; congruence.
  - intros root access Hin. destruct (lexical_depth root) eqn:Ed; [by left; eauto|].
    right. apply not_false_iff_true. intros Ho. apply Hn. eauto.
Qed.

(** The access that [resolve_access] computes is a decision. *)
Lemma resolve_access_decides p path context : access_decision p path context (resolve_access p path context).
Proof.
  unfold resolve_access. destruct (kind p) eqn:Ek; [|apply decision_open; congruence..].
  destruct (infer_path_convention (cwd context)) as [convention|] eqn:Ec.
  2:{ apply decision_incomparable; [done|]. intros [[? ?] _]. congruence. }
  destruct (lexical_in_context context path convention) eqn:El; simpl.
  2:{ apply decision_incomparable; [done|]. rewrite comparable_entries by done. naive_solver congruence. }
  destruct (entries_with_depth (resolved_entries p context)) as [es|] eqn:Ee.
  2:{ apply decision_incomparable; [done|]. rewrite comparable_entries by done. rewrite Ee. intros [_ [? ?]]. done. }
  assert (comparable p context path) as Hcmp by (apply (comparable_entries _ _ _ convention); [done|rewrite Ee; eauto]).
  assert (∀ root access depth, (root, access, depth) ∈ filter (λ e, uri_starts_with path e.1.1 = true) es ↔
    covers p context path root access depth) as Hcov.
  { intros. rewrite list_elem_of_filter, (entries_with_depth_Some _ _ Ee). unfold covers. simpl. naive_solver. }
  destruct (max_entry _) as [[[root access] depth]|] eqn:Em.
  - apply max_entry_Some in Em as [Hin Hmax]. apply (decision_entry _ _ _ root access depth); [done..|by apply Hcov|].
    intros root' access' depth' Hc%Hcov%Hmax. by apply entry_key_le_spec in Hc.
  - apply max_entry_None in Em. apply decision_uncovered; [done..|].
    intros root access depth Hc%Hcov. rewrite Em in Hc. set_solver.
Qed.

Lemma access_rank_inj a b : access_rank a = access_rank b → a = b.
Proof. by destruct a, b. Qed.

(** At most one access is a decision. *)
Lemma access_decision_unique p path context a b :
  access_decision p path context a → access_decision p path context b → a = b.
Proof.
  intros Ha Hb. destruct Ha as [| |?? Hn|r a d ?? Hc Hm], Hb as [| |?? Hn'|r' b d' ?? Hc' Hm'];
    try done; try congruence; try (by exfalso; eapply Hn); try (by exfalso; eapply Hn').
  apply access_rank_inj. specialize (Hm _ _ _ Hc'). specialize (Hm' _ _ _ Hc). lia.
Qed.

Lemma decision_resolves p path context a :
  access_decision p path context a → resolve_access p path context = a.
Proof. intros Ha. eapply access_decision_unique; [apply resolve_access_decides|done]. Qed.

(** C15: the access of a path is decided by the deepest entry that has it, of equally deep ones
    by the one that denies before the one that writes before the one that reads; a path that no
    entry has is denied, and so is every path when something cannot be compared. *)
Theorem resolve_access_most_specific p path context a :
  resolve_access p path context = a ↔ access_decision p path context a.
Proof. split; [intros <-; apply resolve_access_decides|apply decision_resolves]. Qed.
End access.

(** ** Denials that are added *)

Section denials.
Context `{UrlLib}.

Lemma elem_of_resolved_entries p context root access :
  (root, access) ∈ resolved_entries p context ↔
  ∃ e, e ∈ entries p ∧ entry_access e = access ∧ root ∈ resolve_path context (entry_path e) ∧
    infer_path_convention root = infer_path_convention (cwd context).
Proof.
  unfold resolved_entries, resolved_entry. rewrite list_elem_of_In, in_concat. split.
  - intros (l & (e & <- & He)%in_map_iff & (u & [= <- <-] & Hu)%in_map_iff).
    apply list_elem_of_In, list_elem_of_filter in Hu as [??]. exists e. by rewrite list_elem_of_In.
  - intros (e & He%list_elem_of_In & <- & Hr & Hc). eexists. split; [by apply in_map|].
    apply in_map_iff. exists root. split; [done|]. by apply list_elem_of_In, list_elem_of_filter.
Qed.

Lemma uri_eq_refl u : uri_eq u u = true.
Proof. unfold uri_eq, url_eq. by rewrite bool_decide_eq_true_2. Qed.

Lemma entry_eq_refl e : entry_eq e e = true.
Proof.
  unfold entry_eq. rewrite !(bool_decide_eq_true_2 (_ = _)) by done. rewrite !andb_true_r.
  destruct (entry_path e); simpl; [apply uri_eq_refl|by rewrite bool_decide_eq_true..].
Qed.

(** Pushing what is missing adds entries of the list only, and leaves none of them out. *)
Lemma push_missing_fold ds es :
  ∃ extra, foldl push_missing es ds = es ++ extra ∧ (∀ e, e ∈ extra → e ∈ ds) ∧
    ∀ d, d ∈ ds → ∃ e, e ∈ es ++ extra ∧ entry_eq e d = true.
Proof.
  revert es. induction ds as [|d ds IH]; intros es; simpl.
  { exists []. rewrite app_nil_r. set_solver. }
  unfold push_missing at 2. destruct (existsb _ es) eqn:E.
  - destruct (IH es) as (extra & -> & He & Hd). exists extra. split_and!; [done|set_solver|].
    intros d' [->|Hd']%elem_of_cons; [|by apply Hd]. apply existsb_exists in E as (e & Hin & Heq).
    exists e. split; [|done]. apply list_elem_of_In in Hin. set_solver.
  - destruct (IH (es ++ [d])) as (extra & -> & He & Hd). exists (d :: extra).
    rewrite <-app_assoc in Hd |- *. simpl in *. split_and!; [done|set_solver|].
    intros d' [->|Hd']%elem_of_cons; [|by apply Hd]. exists d. split; [set_solver|apply entry_eq_refl].
Qed.

Lemma covers_app p p' context path root access depth extra :
  entries p' = entries p ++ extra → covers p context path root access depth →
  covers p' context path root access depth.
Proof.
  intros He (Hin & ? & ?). split; [|done]. rewrite elem_of_resolved_entries in Hin |- *.
  rewrite He. set_solver.
Qed.

Lemma comparable_app p p' context path extra :
  entries p' = entries p ++ extra → comparable p' context path → comparable p context path.
Proof.
  intros He (?&?&?&?&Hr). split_and!; [done..|]. intros root access Hin. apply (Hr root access).
  rewrite elem_of_resolved_entries in Hin |- *. rewrite He. set_solver.
Qed.

(** Added entries change an access only where one of them decides it. *)
Lemma added_entries p p' context path extra :
  kind p = Restricted → kind p' = Restricted → entries p' = entries p ++ extra → comparable p' context path →
  resolve_access p' path context = resolve_access p path context ∨
  ∃ e root, e ∈ extra ∧ entry_access e = resolve_access p' path context ∧
    root ∈ resolve_path context (entry_path e) ∧
    infer_path_convention root = infer_path_convention (cwd context) ∧ uri_starts_with path root = true.
Proof.
  intros Hk Hk' He Hcmp. destruct (resolve_access_decides p' path context) as [|_ Hn|_ _ Hn|root a d _ _ Hc Hm];
    [congruence|done| |].
  { left. symmetry. apply decision_resolves, decision_uncovered; [done|by eapply comparable_app|].
    intros root a d Hc. by eapply Hn, covers_app. }
  destruct Hc as (Hin & Hd & Hs). apply elem_of_resolved_entries in Hin as (e & Hin & <- & Hr & Hc).
  rewrite He in Hin. apply elem_of_app in Hin as [Hin|Hin]; [left|right; by exists e, root].
  symmetry. apply decision_resolves. apply (decision_entry _ _ _ root _ d).
  - done.
  - by eapply comparable_app.
  - split; [|done]. apply elem_of_resolved_entries. eauto 10.
  - intros root' a' d' Hc'. by eapply Hm, covers_app.
Qed.

(** Entries that deny can only change an access to a denial. *)
Lemma added_denials p p' context path extra :
  kind p = Restricted → kind p' = Restricted → entries p' = entries p ++ extra →
  (∀ e, e ∈ extra → entry_access e = Deny) →
  resolve_access p' path context = Deny ∨ resolve_access p' path context = resolve_access p path context.
Proof.
  intros Hk Hk' He Hextra.
  assert (comparable p' context path ∨ resolve_access p' path context = Deny) as [Hcmp|]; [| |by left].
  { destruct (resolve_access_decides p' path context); [congruence|by right|by left..]. }
  destruct (added_entries p p' context path extra) as [?|(e & root & Hin & Ha & _)]; [done..|by right|].
  left. rewrite <-Ha. by apply Hextra.
Qed.

Lemma root_write_access path context :
  resolve_access (restricted [new_entry (Special Root) Write]) path context = Deny ∨
  resolve_access (restricted [new_entry (Special Root) Write]) path context = Write.
Proof.
  destruct (resolve_access_decides (restricted [new_entry (Special Root) Write]) path context)
    as [| | |root a d _ _ (Hin & _) _]; auto.
  apply elem_of_resolved_entries in Hin as (e & He & <- & _). simpl in He.
  apply list_elem_of_singleton in He as ->. by right.
Qed.

(** What [preserve_deny_read_restrictions_from] makes of a policy that is not external. *)
Lemma preserve_cases self existing :
  preserve_deny_read_restrictions_from self existing = self ∧ is_restricted self = false ∧
    (kind self = Unrestricted → deny_entries existing = []) ∨
  ∃ base, (base = self ∧ kind self = Restricted ∨
           base = restricted [new_entry (Special Root) Write] ∧ kind self = Unrestricted) ∧
    kind (preserve_deny_read_restrictions_from self existing) = Restricted ∧ kind base = Restricted ∧
    entries (preserve_deny_read_restrictions_from self existing) =
      foldl push_missing (entries base) (deny_entries existing).
Proof.
  unfold preserve_deny_read_restrictions_from, is_restricted.
  destruct (existsb _ (entries existing)) eqn:Ex; destruct (kind self) eqn:Ek; simpl; rewrite ?Ek; simpl.
  - right. exists self. rewrite Ek. auto.
  - right. exists (restricted [new_entry (Special Root) Write]). auto.
  - left. split_and!; congruence.
  - right. exists self. rewrite Ek. auto.
  - left. split_and!; [done..|]. intros _. unfold deny_entries. apply elem_of_nil_inv.
    intros e [Hd He%list_elem_of_In]%list_elem_of_filter. apply not_true_iff_false in Ex. apply Ex, existsb_exists.
    exists e. split; [done|by apply bool_decide_eq_true].
  - left. split_and!; congruence.
Qed.

(** Taking over the denials of another policy leaves the access of a path as it is or denies it. *)
Theorem preserve_only_narrows self existing path context :
  resolve_access (preserve_deny_read_restrictions_from self existing) path context = Deny ∨
  resolve_access (preserve_deny_read_restrictions_from self existing) path context = resolve_access self path context.
Proof.
  destruct (preserve_cases self existing) as [[-> _]|(base & Hb & Hk & Hkb & He)]; [by right|].
  destruct (push_missing_fold (deny_entries existing) (entries base)) as (extra & Hf & Hextra & _).
  rewrite Hf in He. destruct (added_denials base _ context path extra Hkb Hk He) as [?|Heq]; [|by left|].
  { intros e [? _]%Hextra%list_elem_of_filter. done. }
  rewrite Heq. destruct Hb as [[-> _]|[-> Hu]]; [by right|].
  destruct (root_write_access path context) as [?|Hw]; [by left|right].
  rewrite Hw. symmetry. apply decision_resolves. apply decision_open. congruence.
Qed.
End denials.

(** ** Policies of Unix executors *)

Section posix_policy.
Context `{UrlLaws}.

(** No entry has a URL with an empty host, which no constructor of [PathUri] returns. *)
Definition hosts_named (p : FileSystemSandboxPolicy) : Prop :=
  ∀ e u, e ∈ entries p → entry_path e = Path u → url_host u ≠ Some [].

(** The working directory is a Unix path, and every entry resolves to one or is opaque. *)
Definition posix_context (p : FileSystemSandboxPolicy) (context : FileSystemSandboxPolicyContext) : Prop :=
  posix_uri (cwd context) ∧ hosts_named p ∧
  ∀ root access, (root, access) ∈ resolved_entries p context → posix_uri root ∨ is_opaque root = true.

Lemma opaque_depth u : is_opaque u = true → lexical_depth u = None.
Proof. intros Ho. unfold lexical_depth. by rewrite Ho. Qed.

Lemma posix_comparable p context path :
  posix_context p context → posix_uri path → comparable p context path.
Proof.
  intros (Hc & _ & Hr) Hp. unfold comparable. rewrite !posix_convention, !posix_depth by done.
  split_and!; eauto. intros root access Hin. destruct (Hr root access Hin); [|by right].
  left. rewrite posix_depth by done. eauto.
Qed.

Lemma posix_covers p context path root access depth :
  posix_context p context → posix_uri path →
  covers p context path root access depth ↔
  (root, access) ∈ resolved_entries p context ∧ posix_uri root ∧
    depth = length (key root) ∧ key root `prefix_of` key path.
Proof.
  intros (Hc & _ & Hr) Hp. unfold covers. split.
  - intros (Hin & Hd & Hs). destruct (Hr root access Hin) as [Hu|Hu];
      [|by rewrite opaque_depth in Hd].
    rewrite posix_depth in Hd by done. rewrite posix_starts_with in Hs by done. naive_solver.
  - intros (Hin & Hu & -> & Hk). rewrite posix_depth, posix_starts_with by done. done.
Qed.

(** An equal URL of a Unix path is the same URL. *)
Lemma posix_uri_eq u' u : posix_uri u → url_host u' ≠ Some [] → uri_eq u' u = true → u' = u.
Proof.
  intros Hu Hh. unfold uri_eq. destruct (url_eq u' u) eqn:E.
  - intros _. apply bool_decide_eq_true in E as [E1 E2]. destruct Hu as (Hu & _). rewrite Hu in E1.
    destruct u' as [[[|c h]|] segs], u; simpl in *; simplify_eq; done.
  - destruct (windows_identity_path_bytes u'); [|done].
    unfold windows_identity_path_bytes. by rewrite posix_convention by done.
Qed.

(** An equal entry resolves to the same Unix paths. *)
Lemma entry_eq_resolves context e' e root :
  (∀ u, entry_path e' = Path u → url_host u ≠ Some []) → entry_eq e' e = true →
  root ∈ resolve_path context (entry_path e) → posix_uri root →
  entry_access e' = entry_access e ∧ root ∈ resolve_path context (entry_path e').
Proof.
  intros Hh Heq Hr Hu. unfold entry_eq in Heq. rewrite !andb_true_iff, !bool_decide_eq_true in Heq.
  destruct Heq as [[Hpath Hacc] _]. split; [done|].
  destruct (entry_path e') eqn:E1, (entry_path e) eqn:E2; simpl in Hpath, Hr; try done.
  - apply list_elem_of_singleton in Hr as ->. apply posix_uri_eq in Hpath as ->; [|done|by apply Hh].
    by apply list_elem_of_singleton.
  - by apply bool_decide_eq_true in Hpath as ->.
Qed.

(** C16: a denial that is taken over denies its directory: every path below that the policy does
    not open with an entry at least one directory deeper. *)
Theorem preserved_denial_holds self existing path context e root :
  kind self ≠ ExternalSandbox →
  posix_context (preserve_deny_read_restrictions_from self existing) context → posix_uri path →
  e ∈ entries existing → entry_access e = Deny → root ∈ resolve_path context (entry_path e) →
  posix_uri root → key root `prefix_of` key path →
  (∀ root' access, (root', access) ∈ resolved_entries self context → posix_uri root' →
    key root' `prefix_of` key path → length (key root') ≤ length (key root)) →
  resolve_access (preserve_deny_read_restrictions_from self existing) path context = Deny.
Proof.
  intros Hext Hctx Hp He Ha Hr Hu Hk Hmax.
  assert (e ∈ deny_entries existing) as Hd by by apply list_elem_of_filter.
  destruct (preserve_cases self existing) as [(_ & Hn & Hk')|(base & Hb & Hkr & Hkb & Hes)].
  { unfold is_restricted in Hn. destruct (kind self); try done. rewrite Hk' in Hd by done. set_solver. }
  destruct (push_missing_fold (deny_entries existing) (entries base)) as (extra & Hf & Hextra & Hall).
  rewrite Hf in Hes. destruct (Hall e Hd) as (e' & He' & Heq).
  set (p := preserve_deny_read_restrictions_from self existing) in *.
  assert (covers p context path root Deny (length (key root))) as Hcov.
  { apply posix_covers; [done..|]. split; [|done]. apply elem_of_resolved_entries. exists e'.
    destruct (entry_eq_resolves context e' e root) as [Hacc Hr']; [|done..|].
    { intros u Hu'. eapply Hctx; [|done]. by rewrite Hes. }
    rewrite Hes, !posix_convention by (done || apply Hctx). split_and!; [done|congruence|done..]. }
  destruct (resolve_access_decides p path context) as [| | |root1 a1 d1 _ _ Hc1 Hm]; [congruence|done..|].
  specialize (Hm _ _ _ Hcov). apply posix_covers in Hc1 as (Hin & Hu1 & -> & Hk1); [|done..].
  apply elem_of_resolved_entries in Hin as (e1 & Hin & <- & Hr1 & Hc1). rewrite Hes in Hin.
  apply elem_of_app in Hin as [Hin|Hin]; [|by apply Hextra, list_elem_of_filter in Hin as [? _]].
  assert (length (key root1) ≤ length (key root)) as Hle; [|destruct (entry_access e1); simpl in *; lia || done].
  destruct Hb as [[-> _]|[-> _]].
  - apply (Hmax root1 (entry_access e1)); [|done..]. apply elem_of_resolved_entries. eauto 10.
  - simpl in Hin. apply list_elem_of_singleton in Hin as ->. simpl in Hr1.
    unfold file_system_root in Hr1. rewrite posix_depth in Hr1 by apply Hctx. simpl in Hr1.
    apply list_elem_of_singleton in Hr1 as ->.
    destruct (posix_root (cwd context) (length (url_segments (cwd context)))) as [_ ->]; [apply Hctx|done|].
    simpl. lia.
Qed.

(** *** Full-disk write access *)

Lemma plain_tmp : plain_name (str "tmp").
Proof. unfold plain_name. apply (bool_decide_unpack _). by vm_compute. Qed.

Lemma posix_slash_tmp u :
  posix_uri u → ∃ t, uri_join u (str "/tmp") = Ok t ∧ posix_uri t ∧ key t = [str "tmp"].
Proof.
  intros Hu. set (base := {| url_host := None; url_segments := [[]] |}).
  assert (posix_uri base) as Hb.
  { split; [done|]. split; [done|]. apply Forall_singleton. simpl. rewrite decode_binary_nil. set_solver. }
  pose proof (posix_push base [[]] (str "tmp") Hb plain_tmp) as Ht.
  exists (set_segments (segments_push [[]] (str "tmp")) base). split; [|split; [done|]].
  - unfold uri_join. rewrite decide_False by (apply (bool_decide_unpack _); by vm_compute).
    rewrite decide_False by done. rewrite posix_convention by done. simpl.
    unfold from_absolute_native_path, parse_posix_path.
    change (strip_prefix [SLASH] (str "/tmp")) with (Some (str "tmp")). simpl.
    rewrite decide_False by (apply (bool_decide_unpack _); by vm_compute).
    rewrite plain_split by apply plain_tmp. unfold path_uri_from_segments. simpl.
    destruct plain_tmp as (H1 & H2 & H3 & _). rewrite !decide_False by done. simpl.
    change (try_from_url _) with (try_from_url (set_segments (segments_push [[]] (str "tmp")) base)).
    rewrite posix_try_from by done. simpl. rewrite posix_convention by done. by rewrite decide_True.
  - unfold key, nonempty_segments. simpl. rewrite segments_push_nonempty by apply plain_tmp. simpl.
    by rewrite decode_binary_plain by apply plain_tmp.
Qed.

Lemma posix_fs_root context :
  posix_uri (cwd context) → ∃ r, file_system_root context = Some r ∧ posix_uri r ∧ key r = [].
Proof.
  intros Hc. unfold file_system_root. rewrite posix_depth by done. eexists. split; [done|].
  by apply posix_root.
Qed.

Lemma basename_tmp u :
  posix_uri u → lexical_depth u = Some 1 → basename u = Some (str "tmp") → key u = [str "tmp"].
Proof.
  intros Hu. rewrite posix_depth by done. unfold basename, key. rewrite posix_is_opaque by done.
  rewrite length_fmap. destruct (nonempty_segments u) as [|x [|]]; simpl; try done.
  intros _ [= Hx]. f_equal. unfold decode_uri_path in Hx.
  assert (encode (str "tmp") = str "tmp") as Henc by by vm_compute.
  destruct (from_utf8 (decode_binary x)) as [t|t|] eqn:E; simplify_eq.
  - by apply from_utf8_Ok in E as [-> _].
  - by apply decode_binary_plain, plain_tmp.
  - by apply decode_binary_plain, plain_tmp.
Qed.

(** A special path that a path matches resolves to that path. *)
Lemma special_matches_key context value u :
  posix_uri (cwd context) → posix_uri u → special_path_matches_path_uri value u = true →
  ∃ r, resolve_special context value = [r] ∧ posix_uri r ∧ key r = key u.
Proof.
  intros Hc Hu. destruct value; simpl; try done.
  - rewrite andb_true_iff, !bool_decide_eq_true. intros [_ Hn].
    destruct (posix_fs_root context Hc) as (r & -> & Hr & Hk). exists r. split_and!; [done..|].
    rewrite Hk. destruct (decide (key u = [])) as [->|Hne]; [done|].
    destruct (posix_parent u Hu Hne) as (segs & Hs & _). congruence.
  - rewrite !andb_true_iff, !bool_decide_eq_true. intros [[_ Hd] Hb].
    destruct (posix_slash_tmp (cwd context) Hc) as (t & -> & Ht & Hk). exists t.
    rewrite decide_True by by apply posix_convention. split_and!; [done..|].
    by rewrite Hk, basename_tmp.
Qed.

Lemma special_share_eq l r : special_paths_share_target l r = true → l = r.
Proof. destruct l, r; simpl; rewrite ?andb_true_iff, ?bool_decide_eq_true; naive_solver. Qed.

(** Two paths with the same target resolve to the same place. *)
Lemma share_target_key context l r root :
  posix_uri (cwd context) →
  (∀ u, l = Path u → url_host u ≠ Some [] ∧
    (infer_path_convention u = Some Posix → posix_uri u ∨ is_opaque u = true)) →
  file_system_paths_share_target l r Posix = true →
  root ∈ resolve_path context r → posix_uri root →
  ∃ root', root' ∈ resolve_path context l ∧ posix_uri root' ∧ key root' = key root.
Proof.
  intros Hc Hl Hs Hr Hu. destruct l as [u| |v], r as [u'| |v']; simpl in Hs, Hr; try set_solver.
  - apply list_elem_of_singleton in Hr as ->. destruct (Hl u eq_refl) as [Hh _].
    apply posix_uri_eq in Hs as ->; [|done..]. exists u'. simpl. set_solver.
  - apply andb_true_iff in Hs as [Hi%bool_decide_eq_true Hm]. destruct (Hl u eq_refl) as [_ [Hp|Ho]]; [done| |].
    + destruct (special_matches_key context v' u Hc Hp Hm) as (r & Hres & _ & Hk).
      rewrite Hres in Hr. apply list_elem_of_singleton in Hr as ->. exists u. simpl. set_solver.
    + apply opaque_depth in Ho. destruct v'; simpl in Hm; try done; rewrite Ho in Hm;
        rewrite ?andb_false_r in Hm; done.
  - apply list_elem_of_singleton in Hr as ->. apply andb_true_iff in Hs as [_ Hm].
    destruct (special_matches_key context v u' Hc Hu Hm) as (r & Hres & Hp & Hk).
    exists r. simpl. rewrite Hres. set_solver.
  - apply special_share_eq in Hs as ->. exists root. simpl. done.
Qed.

(** An entry of the same target that overrides writes to the same place. *)
Lemma override_resolves p context e root :
  posix_context p context → has_same_target_write_override p e Posix = true →
  root ∈ resolve_path context (entry_path e) → posix_uri root →
  entry_access e = Read ∧
  ∃ root', (root', Write) ∈ resolved_entries p context ∧ posix_uri root' ∧ key root' = key root.
Proof.
  intros (Hc & Hh & Hres) Ho Hr Hu.
  apply existsb_exists in Ho as (c & Hcin%list_elem_of_In & [[Hw Hlt%Nat.ltb_lt]%andb_true_iff Hs]%andb_true_iff).
  assert (entry_access c = Write) as Hcw by by destruct (entry_access c).
  rewrite Hcw in Hlt. split; [by destruct (entry_access e); simpl in Hlt; try lia|].
  destruct (share_target_key context (entry_path c) (entry_path e) root) as (root' & Hr' & Hu' & Hk'); try done.
  - intros u Hcu. split; [by eapply Hh|]. intros Hi. apply (Hres u Write). apply elem_of_resolved_entries.
    exists c. rewrite Hcu, Hi, (posix_convention (cwd context)) by done. simpl. by rewrite list_elem_of_singleton.
  - exists root'. split; [|done]. apply elem_of_resolved_entries. exists c.
    by rewrite !posix_convention by done.
Qed.

(** An entry that does not narrow write access and does not write is overridden by one that
    writes to the same place. *)
Lemma not_narrowing_overridden p context e root :
  posix_context p context → has_root_access p can_write = true →
  has_write_narrowing_entries p Posix = false → e ∈ entries p → entry_access e ≠ Write →
  root ∈ resolve_path context (entry_path e) → posix_uri root →
  entry_access e = Read ∧
  ∃ root', (root', Write) ∈ resolved_entries p context ∧ posix_uri root' ∧ key root' = key root.
Proof.
  intros Hctx Hroot Hn He Ha Hr Hu. apply andb_true_iff in Hroot as [Hkr Hroot].
  assert (entry_narrows_write p Posix e = false) as Hne.
  { unfold has_write_narrowing_entries in Hn. rewrite Hkr in Hn. apply not_true_iff_false in Hn.
    apply not_true_iff_false. intros Ht. apply Hn, existsb_exists. exists e. by rewrite <-list_elem_of_In. }
  assert (has_same_target_write_override p e Posix = true → entry_access e = Read ∧
    ∃ root', (root', Write) ∈ resolved_entries p context ∧ posix_uri root' ∧ key root' = key root) as Hover.
  { intros Ho. by apply override_resolves. }
  unfold entry_narrows_write in Hne. destruct (can_write (entry_access e)) eqn:Ew;
    [by destruct (entry_access e)|].
  destruct (entry_path e) as [u|g|v] eqn:Ep; [by apply Hover, negb_false_iff|done|].
  destruct v; [|by apply elem_of_nil in Hr|by apply Hover, negb_false_iff..|by apply elem_of_nil in Hr].
  apply bool_decide_eq_false in Hne. split; [by destruct (entry_access e)|].
  apply existsb_exists in Hroot as (c & Hcin%list_elem_of_In & Hcw). exists root. split_and!; [|done..].
  destruct (entry_path c) as [| |[]] eqn:Ec; try done. apply elem_of_resolved_entries. exists c.
  rewrite Ec, !posix_convention by (done || apply Hctx). by destruct (entry_access c).
Qed.

(** C17: the shortcut for full-disk write access agrees with the resolution of entries: a policy
    that reports it lets every path of a Unix executor be written. *)
Theorem full_disk_write_writes p context path :
  posix_context p context → posix_uri path →
  has_full_disk_write_access_with_context p context = true → can_write_path p path context = true.
Proof.
  intros Hctx Hp Hf. unfold can_write_path. rewrite Hf. simpl.
  assert (resolve_access p path context = Write) as ->; [|done].
  unfold has_full_disk_write_access_with_context in Hf. rewrite posix_convention in Hf by apply Hctx.
  unfold has_full_disk_write_access_for_convention in Hf.
  destruct (kind p) eqn:Hk; [|apply decision_resolves, decision_open; congruence..].
  apply andb_true_iff in Hf as [Hroot Hn%negb_true_iff].
  destruct (resolve_access_decides p path context) as [|_ Hcmp|_ _ Hno|root a d _ _ Hc Hm]; [done| | |].
  - exfalso. by apply Hcmp, posix_comparable.
  - exfalso. destruct (posix_fs_root context) as (r & Hr & Hpr & Hkr); [apply Hctx|].
    unfold has_root_access in Hroot. apply andb_true_iff in Hroot as [_ (c & Hcin%list_elem_of_In & Hcw)%existsb_exists].
    apply (Hno r (entry_access c) (length (key r))). apply posix_covers; [done..|].
    split_and!; [|done..|rewrite Hkr; apply prefix_nil]. apply elem_of_resolved_entries. exists c.
    destruct (entry_path c) as [| |[]]; try done. simpl. rewrite Hr, !posix_convention by (done || apply Hctx). set_solver.
  - destruct (decide (a = Write)) as [|Ha]; [done|exfalso].
    apply posix_covers in Hc as (Hin & Hu & -> & Hpre); [|done..].
    apply elem_of_resolved_entries in Hin as (e & He & <- & Hr & _).
    destruct (not_narrowing_overridden p context e root) as (Hread & root' & Hin' & Hu' & Hk'); [done..|].
    destruct (Hm root' Write (length (key root'))) as [Hlt|[_ Hle]].
    + apply posix_covers; [done..|]. by rewrite Hk'.
    + rewrite Hk' in Hlt. lia.
    + rewrite Hread in Hle. simpl in Hle. lia.
Qed.

(** *** Protected metadata *)

Lemma protected_plain n : n ∈ PROTECTED_METADATA_PATH_NAMES → plain_name n.
Proof.
  unfold PROTECTED_METADATA_PATH_NAMES, plain_name. rewrite !elem_of_cons, elem_of_nil.
  intros [->|[->|[->|[]]]]; apply (bool_decide_unpack _); by vm_compute.
Qed.

Lemma starts_with_opaque p b : posix_uri p → is_opaque b = true → uri_starts_with p b = false.
Proof.
  intros Hp Hb. unfold uri_starts_with. rewrite uri_eq_posix by done. rewrite Hb, orb_true_r.
  destruct (url_eq p b) eqn:E; [|done]. apply bool_decide_eq_true in E as [E1 E2].
  pose proof (posix_is_opaque p Hp) as Ho. unfold is_opaque, decode_bad_path_uri in Ho, Hb.
  rewrite E1, E2 in Ho. congruence.
Qed.

Lemma join_opaque u n :
  is_opaque u = true → infer_path_convention u = Some Posix → plain_name n → res_ok (join_descendant u n) = None.
Proof.
  intros Ho Hc Hn. unfold join_descendant, uri_join.
  rewrite decide_False by (destruct Hn as (_ & _ & _ & Hn); by eapply plain_char_not).
  rewrite decide_False by apply Hn. rewrite Hc. simpl.
  unfold from_absolute_native_path, parse_posix_path. rewrite plain_relative by done. simpl.
  unfold join_relative. simpl. by rewrite Ho.
Qed.

(** The protected directories that [find_protected] looks at. *)
Lemma find_protected_cases path roots :
  match find_protected path roots with
  | Some (protected, n) => ∃ r, (r, Write) ∈ roots ∧ n ∈ PROTECTED_METADATA_PATH_NAMES ∧
      res_ok (join_descendant r n) = Some protected ∧ uri_starts_with path protected = true
  | None => ∀ r n protected, (r, Write) ∈ roots → n ∈ PROTECTED_METADATA_PATH_NAMES →
      res_ok (join_descendant r n) = Some protected → uri_starts_with path protected = false
  end.
Proof.
  unfold find_protected. set (cands := concat _).
  assert (∀ r n, (r, n) ∈ cands ↔ (r, Write) ∈ roots ∧ n ∈ PROTECTED_METADATA_PATH_NAMES) as Hc.
  { intros r n. unfold cands. rewrite list_elem_of_In, in_concat. split.
    - intros (l & ([r' a] & <- & Hin)%in_map_iff & (n' & [= <- <-] & Hn)%in_map_iff).
      apply list_elem_of_In, list_elem_of_filter in Hin as [Hw Hin]. apply list_elem_of_In in Hn.
      by destruct a.
    - intros [Hin Hn]. exists (map (pair r) PROTECTED_METADATA_PATH_NAMES). split.
      + apply (in_map (λ x : Url * FileSystemAccessMode, map (pair x.1) PROTECTED_METADATA_PATH_NAMES) _ (r, Write)).
        by apply list_elem_of_In, list_elem_of_filter.
      + apply in_map. by apply list_elem_of_In. }
  destruct (omap _ cands) as [|[protected n] l] eqn:E; simpl.
  - intros r n protected Hr Hn Hj. apply not_true_iff_false. intros Hs.
    assert ((protected, n) ∈ @nil (Url * rstring)) as []%elem_of_nil. rewrite <-E.
    apply list_elem_of_omap. exists (r, n). rewrite Hc. split; [done|]. simpl. rewrite Hj. simpl. by rewrite Hs.
  - assert ((protected, n) ∈ (protected, n) :: l) as Hin by (by left). rewrite <-E in Hin.
    apply list_elem_of_omap in Hin as ([r n'] & Hin & Hx). apply Hc in Hin as [Hr Hn].
    simpl in Hx. destruct (res_ok (join_descendant r n')) as [q|] eqn:Hj; simpl in Hx; [|done].
    destruct (uri_starts_with path q) eqn:Hs; simplify_eq. eauto.
Qed.

(** Where the metadata check lets a path below protected metadata through, a writable root
    lies inside protected metadata. *)
Lemma metadata_check p context path r n :
  posix_context p context → posix_uri path → kind p = Restricted →
  metadata_write_denial p path context = None →
  (r, Write) ∈ resolved_entries p context → posix_uri r → n ∈ PROTECTED_METADATA_PATH_NAMES →
  key r ++ [n] `prefix_of` key path →
  ∃ r' r2 n2, (r', Write) ∈ resolved_entries p context ∧ posix_uri r' ∧ key r' `prefix_of` key path ∧
    (r2, Write) ∈ resolved_entries p context ∧ posix_uri r2 ∧ n2 ∈ PROTECTED_METADATA_PATH_NAMES ∧
    key r2 ++ [n2] `prefix_of` key r'.
Proof.
  intros (Hc & _ & Hres) Hp Hk Hd Hr Hu Hn Hpre. unfold metadata_write_denial, is_restricted in Hd.
  rewrite bool_decide_eq_true_2 in Hd by done. cbn [negb] in Hd.
  pose proof (find_protected_cases path (resolved_entries p context)) as Hf.
  destruct (find_protected path _) as [[protected n2]|]; simpl in Hd.
  - destruct Hf as (r2 & Hr2 & Hn2 & Hj & Hs). destruct (existsb _ _) eqn:E; [|done].
    apply existsb_exists in E as ([r' a] & Hin%list_elem_of_In & [[Ha Hs1]%andb_true_iff Hs2]%andb_true_iff).
    assert (a = Write) as -> by by destruct a.
    destruct (Hres r' Write Hin) as [Hu'|Ho]; [|by rewrite starts_with_opaque in Hs1].
    destruct (Hres r2 Write Hr2) as [Hu2|Ho].
    2:{ rewrite join_opaque in Hj; [done..| |by apply protected_plain].
        apply elem_of_resolved_entries in Hr2 as (_ & _ & _ & _ & ->). by apply posix_convention. }
    destruct (posix_join_descendant r2 n2 Hu2 (protected_plain n2 Hn2)) as (q & Hq & Huq & Hkq).
    rewrite Hq in Hj. simplify_eq/=. exists r', r2, n2. rewrite <-Hkq.
    apply posix_starts_with in Hs1, Hs2; done.
  - destruct (posix_join_descendant r n Hu (protected_plain n Hn)) as (q & Hq & Huq & Hkq).
    assert (uri_starts_with path q = true) as Hs by (apply posix_starts_with; [done..|by rewrite Hkq]).
    rewrite (Hf r n q Hr Hn) in Hs; [done|]. by rewrite Hq.
Qed.

(** *** Policies that resolve to the same places *)

(** A directory to which an entry of an access resolves. *)
Definition resolves_to (p : FileSystemSandboxPolicy) (context : FileSystemSandboxPolicyContext)
    (access : FileSystemAccessMode) (place : list (list N)) : Prop :=
  ∃ r, (r, access) ∈ resolved_entries p context ∧ posix_uri r ∧ key r = place.

Lemma posix_access_ext p p' context path :
  kind p = Restricted → kind p' = Restricted → posix_context p context → posix_context p' context →
  posix_uri path → (∀ access place, resolves_to p context access place ↔ resolves_to p' context access place) →
  resolve_access p path context = resolve_access p' path context.
Proof.
  intros Hk Hk' Hc Hc' Hp Hext. apply decision_resolves.
  assert (∀ q q', posix_context q context → posix_context q' context →
    (∀ access place, resolves_to q context access place → resolves_to q' context access place) →
    ∀ r a d, covers q context path r a d → ∃ r', covers q' context path r' a d) as Hcov.
  { intros q q' Hq Hq' Hqq r a d (Hin & Hu & -> & Hpre)%posix_covers; [|done..].
    destruct (Hqq a (key r)) as (r' & Hin' & Hu' & Hk''); [by exists r|].
    exists r'. apply posix_covers; [done..|]. by rewrite Hk''. }
  pose proof (Hcov p p' Hc Hc' (λ a k, proj1 (Hext a k))) as Hto.
  pose proof (Hcov p' p Hc' Hc (λ a k, proj2 (Hext a k))) as Hfrom.
  destruct (resolve_access_decides p' path context) as [|_ Hn|_ _ Hn|r a d _ _ Hr Hm]; [done| | |].
  - exfalso. by apply Hn, posix_comparable.
  - apply decision_uncovered; [done|by apply posix_comparable|].
    intros r a d (r' & Hr')%Hto. by apply Hn in Hr'.
  - destruct (Hfrom r a d Hr) as (r' & Hr'). apply (decision_entry _ _ _ r' a d); [done|by apply posix_comparable|done|].
    intros r1 a1 d1 (r1' & Hr1)%Hto. by eapply Hm.
Qed.

(** *** Checking a context *)

Lemma posix_context_checked p context :
  posix_uri_check (cwd context) = true →
  forallb (λ e, match entry_path e with
                | Path u => bool_decide (url_host u ≠ Some [])
                | _ => true
                end) (entries p) = true →
  forallb (λ x : Url * FileSystemAccessMode, posix_uri_check x.1 || is_opaque x.1) (resolved_entries p context) = true →
  posix_context p context.
Proof.
  intros Hc Hh Hr. rewrite forallb_forall in Hh, Hr. split; [by apply posix_uri_checked|]. split.
  - intros e u He%list_elem_of_In Hu. specialize (Hh e He). rewrite Hu in Hh. by apply bool_decide_eq_true in Hh.
  - intros root access Hin%list_elem_of_In. apply Hr, orb_true_iff in Hin as [?|?]; [|by right].
    left. by apply posix_uri_checked.
Qed.
End posix_policy.

(** ** Examples *)

Module PermissionsExample.
Import Percent.

Definition uri (segments : list rstring) : Url := {| url_host := None; url_segments := segments |}.

Definition context : FileSystemSandboxPolicyContext :=
  {| cwd := uri [str "w"]; workspace_roots := [uri [str "w"]]; user_home_dir := None;
     temporary_directories := None |}.

(** The grant of the root stays full although a read-only entry for [/a] is overridden. *)
Definition full : FileSystemSandboxPolicy :=
  restricted [new_entry (Special Root) Write; new_entry (Path (uri [str "a"])) Read;
    new_entry (Path (uri [str "a"])) Write].

Definition secret : FileSystemSandboxPolicy := restricted [new_entry (Path (uri [str "w"; str "secret"])) Deny].

Definition open_workspace : FileSystemSandboxPolicy := restricted [new_entry (Special (ProjectRoots None)) Write].

Lemma full_disk_write_writes_witness :
  can_write_path full (uri [str "a"; str "b"]) context = true.
Proof.
  apply (full_disk_write_writes full context (uri [str "a"; str "b"])).
  - apply posix_context_checked; by vm_compute.
  - apply posix_uri_checked. by vm_compute.
  - by vm_compute.
Defined.

Lemma preserved_denial_holds_witness :
  resolve_access (preserve_deny_read_restrictions_from open_workspace secret)
    (uri [str "w"; str "secret"; str "key"]) context = Deny.
Proof.
  apply (preserved_denial_holds open_workspace secret (uri [str "w"; str "secret"; str "key"]) context
    (new_entry (Path (uri [str "w"; str "secret"])) Deny) (uri [str "w"; str "secret"])).
  - done.
  - apply posix_context_checked; by vm_compute.
  - apply posix_uri_checked. by vm_compute.
  - by left.
  - done.
  - by left.
  - apply posix_uri_checked. by vm_compute.
  - exists [str "key"]. by vm_compute.
  - intros root' access Hin _ _. vm_compute in Hin.
    apply list_elem_of_singleton in Hin. simplify_eq. vm_compute. lia.
Defined.

(** The metadata of a nested writable root is protected or not by the order of the entries:
    only the first protected directory that has the path is looked at. *)
Definition nested (es : list Url) : FileSystemSandboxPolicy :=
  restricted (map (λ u, new_entry (Path u) Write) es).

Lemma metadata_check_depends_on_order :
  let outer := uri [str "a"] in
  let inner := uri [str "a"; str ".git"; str "x"] in
  let path := uri [str "a"; str ".git"; str "x"; str ".git"; str "config"] in
  can_write_path (nested [outer; inner]) path context = true ∧
  can_write_path (nested [inner; outer]) path context = false.
Proof. by vm_compute. Qed.
End PermissionsExample.
