(* ===== verification/SandboxPolicy.v ===== *)
(** * Sandbox policies and the permissions they stand for

    [protocol/src/protocol.rs]: the legacy [SandboxPolicy]; [protocol/src/permissions.rs]: the
    policy of a writable workspace, the metadata directories that stay read-only below a
    writable root, and the conversions from and to the legacy policy.  The host is Unix.

    The files of the host are the argument [LocalFs]. *)

From S2P Require Import Prelude RustStr Utf8 AbsolutePath PathUri Permissions.

Local Open Scope nat_scope.

Inductive NetworkAccess := AccessRestricted | AccessEnabled.

Definition access_is_enabled (a : NetworkAccess) : bool :=
  match a with AccessEnabled => true | AccessRestricted => false end.

(** An [AbsolutePathBuf] is the list of its components. *)
Inductive SandboxPolicy :=
  | DangerFullAccess
  | ReadOnly (network_access : bool)
  | ExternalSandboxPolicy (network_access : NetworkAccess)
  | WorkspaceWrite (writable_roots : list (list rstring)) (network_access : bool)
      (exclude_tmpdir_env_var exclude_slash_tmp : bool).

Definition has_full_network_access (p : SandboxPolicy) : bool :=
  match p with
  | DangerFullAccess => true
  | ExternalSandboxPolicy network_access => access_is_enabled network_access
  | ReadOnly network_access => network_access
  | WorkspaceWrite _ network_access _ _ => network_access
  end.

(** [From<&SandboxPolicy> for NetworkSandboxPolicy]. *)
Definition network_from_sandbox (p : SandboxPolicy) : NetworkSandboxPolicy :=
  if has_full_network_access p then NetworkEnabled else NetworkRestricted.

Inductive LegacyError := PathNotNative | WritesOutsideWorkspace.

(** What the code asks of the files of the host. *)
Class LocalFs := {
  is_file : list rstring → bool;
  is_dir : list rstring → bool;
  path_exists : list rstring → bool;
  read_to_string : list rstring → option rstring;
}.

(** [AbsolutePathBuf::resolve_path_against_base], and [join]. *)
Definition resolve_path_against_base (env : Env) (path : rstring) (base : list rstring) : list rstring :=
  match expand_home env path with
  | Some (home, rest) => normalize_from home rest
  | None => normalize_from base path
  end.

(** [dedup_absolute_paths] without normalization: the first of equal paths stays. *)
Definition dedup_absolute_paths (paths : list (list rstring)) : list (list rstring) :=
  foldl (λ deduped path, if decide (path ∈ deduped) then deduped else deduped ++ [path]) [] paths.

Section sandbox.
Context `{UrlLib, LocalFs} (env : Env).

(** ** Metadata of a writable root *)

Definition is_git_pointer_file (path : list rstring) : bool :=
  is_file path && bool_decide (abs_file_name path = Some (str ".git")).

Definition resolve_gitdir_from_file (dot_git : list rstring) : option (list rstring) :=
  contents ← read_to_string dot_git;
  '(prefix, gitdir_raw) ← split_once 58%N (trim contents);
  if decide (trim prefix ≠ str "gitdir") then None
  else
    let gitdir_raw := trim gitdir_raw in
    if decide (gitdir_raw = []) then None
    else if decide (dot_git = []) then None
    else
      let gitdir_path := resolve_path_against_base env gitdir_raw (removelast dot_git) in
      if path_exists gitdir_path then Some gitdir_path else None.

Definition default_read_only_subpaths_for_writable_root (writable_root : list rstring)
    (protect_missing_dot_codex : bool) : list (list rstring) :=
  let top_level_git := resolve_path_against_base env (str ".git") writable_root in
  let top_level_agents := resolve_path_against_base env (str ".agents") writable_root in
  let top_level_codex := resolve_path_against_base env (str ".hexa") writable_root in
  let git :=
    if is_dir top_level_git || is_file top_level_git then
      (if is_file top_level_git && is_git_pointer_file top_level_git
       then option_list (resolve_gitdir_from_file top_level_git) else []) ++ [top_level_git]
    else [] in
  dedup_absolute_paths (git ++
    (if is_dir top_level_agents then [top_level_agents] else []) ++
    (if protect_missing_dot_codex || is_dir top_level_codex then [top_level_codex] else [])).

Definition append_default_read_only_entry_if_no_explicit_rule (es : list FileSystemSandboxEntry)
    (path : FileSystemPath) : list FileSystemSandboxEntry :=
  if existsb (λ entry, file_system_paths_share_target (entry_path entry) path Posix) es then es
  else es ++ [skip_missing_path path Read].

Definition append_default_read_only_project_root_subpath_if_no_explicit_rule
    (es : list FileSystemSandboxEntry) (subpath : rstring) : list FileSystemSandboxEntry :=
  append_default_read_only_entry_if_no_explicit_rule es (Special (ProjectRoots (Some subpath))).

Definition append_default_read_only_path_if_no_explicit_rule (es : list FileSystemSandboxEntry)
    (path : list rstring) : list FileSystemSandboxEntry :=
  append_default_read_only_entry_if_no_explicit_rule es (Path (from_abs_path path)).

(** The loops over the protected paths of writable roots. *)
Definition protect_root (protect_missing_dot_codex : bool) (es : list FileSystemSandboxEntry)
    (root : list rstring) : list FileSystemSandboxEntry :=
  foldl append_default_read_only_path_if_no_explicit_rule es
    (default_read_only_subpaths_for_writable_root root protect_missing_dot_codex).

(** ** The policy of a writable workspace *)

(** The entries that grant access. *)
Definition workspace_grants (writable_roots : list (list rstring))
    (exclude_tmpdir_env_var exclude_slash_tmp : bool) : list FileSystemSandboxEntry :=
  [new_entry (Special Root) Read; new_entry (Special (ProjectRoots None)) Write] ++
  (if exclude_slash_tmp then [] else [new_entry (Special SlashTmp) Write]) ++
  (if exclude_tmpdir_env_var then [] else [new_entry (Special Tmpdir) Write]) ++
  map (λ path, new_entry (Path (from_abs_path path)) Write) writable_roots.

Definition workspace_write (writable_roots : list (list rstring))
    (exclude_tmpdir_env_var exclude_slash_tmp : bool) : FileSystemSandboxPolicy :=
  let es := workspace_grants writable_roots exclude_tmpdir_env_var exclude_slash_tmp in
  let es := foldl append_default_read_only_project_root_subpath_if_no_explicit_rule es
    [str ".git"; str ".agents"; str ".hexa"] in
  restricted (foldl (protect_root false) es writable_roots).

(** [From<&SandboxPolicy> for FileSystemSandboxPolicy]. *)
Definition from_sandbox_policy (p : SandboxPolicy) : FileSystemSandboxPolicy :=
  match p with
  | DangerFullAccess => unrestricted
  | ExternalSandboxPolicy _ => external_sandbox
  | ReadOnly _ => restricted [new_entry (Special Root) Read]
  | WorkspaceWrite writable_roots _ exclude_tmpdir_env_var exclude_slash_tmp =>
      workspace_write writable_roots exclude_tmpdir_env_var exclude_slash_tmp
  end.

Definition from_legacy_sandbox_policy_for_cwd (p : SandboxPolicy) (cwd : rstring) : FileSystemSandboxPolicy :=
  let policy := from_sandbox_policy p in
  match p with
  | WorkspaceWrite writable_roots _ _ _ =>
      let es :=
        match from_absolute_path env cwd with
        | Some cwd_root => protect_root true (entries policy) cwd_root
        | None => entries policy
        end in
      set_entries (foldl (protect_root false) es writable_roots) policy
  | _ => policy
  end.

Definition from_legacy_sandbox_policy_preserving_deny_entries (p : SandboxPolicy) (cwd : rstring)
    (existing : FileSystemSandboxPolicy) : FileSystemSandboxPolicy :=
  let rebuilt := from_legacy_sandbox_policy_for_cwd p cwd in
  if negb (is_restricted rebuilt) then rebuilt
  else
    {| kind := kind rebuilt; glob_scan_max_depth := glob_scan_max_depth existing;
       entries := foldl push_missing (entries rebuilt) (deny_entries existing) |}.

Definition with_additional_legacy_workspace_writable_roots (p : FileSystemSandboxPolicy)
    (additional_writable_roots : list (list rstring)) : FileSystemSandboxPolicy :=
  if negb (is_restricted p) then p
  else
    set_entries (foldl (λ es path,
      let es :=
        if existsb (λ entry, can_write (entry_access entry) &&
             match entry_path entry with
             | Path existing => uri_eq existing (from_abs_path path)
             | _ => false
             end) es
        then es else es ++ [new_entry (Path (from_abs_path path)) Write] in
      protect_root false es path) (entries p) additional_writable_roots) p.

(** ** Back to the legacy policy *)

(** The local variables of the loop. *)
Record LegacyScan := {
  workspace_root_writable : bool;
  scanned_roots : list (list rstring);
  tmpdir_writable : bool;
  slash_tmp_writable : bool;
  unbridgeable_root_write : bool;
}.

Definition legacy_scan_init : LegacyScan :=
  {| workspace_root_writable := false; scanned_roots := []; tmpdir_writable := false;
     slash_tmp_writable := false; unbridgeable_root_write := false |}.

Definition scan_workspace (st : LegacyScan) : LegacyScan :=
  {| workspace_root_writable := true; scanned_roots := scanned_roots st;
     tmpdir_writable := tmpdir_writable st; slash_tmp_writable := slash_tmp_writable st;
     unbridgeable_root_write := unbridgeable_root_write st |}.

Definition scan_root (path : list rstring) (st : LegacyScan) : LegacyScan :=
  {| workspace_root_writable := workspace_root_writable st; scanned_roots := scanned_roots st ++ [path];
     tmpdir_writable := tmpdir_writable st; slash_tmp_writable := slash_tmp_writable st;
     unbridgeable_root_write := unbridgeable_root_write st |}.

Definition scan_special (cwd_absolute : option (list rstring)) (st : LegacyScan)
    (value : FileSystemSpecialPath) : LegacyScan :=
  match value with
  | Root =>
      {| workspace_root_writable := workspace_root_writable st; scanned_roots := scanned_roots st;
         tmpdir_writable := tmpdir_writable st; slash_tmp_writable := slash_tmp_writable st;
         unbridgeable_root_write := true |}
  | Minimal | Unknown _ _ => st
  | ProjectRoots None => scan_workspace st
  | ProjectRoots (Some subpath) =>
      match cwd_absolute with
      | Some cwd => scan_root (resolve_path_against_base env subpath cwd) st
      | None => st
      end
  | Tmpdir =>
      {| workspace_root_writable := workspace_root_writable st; scanned_roots := scanned_roots st;
         tmpdir_writable := true; slash_tmp_writable := slash_tmp_writable st;
         unbridgeable_root_write := unbridgeable_root_write st |}
  | SlashTmp =>
      {| workspace_root_writable := workspace_root_writable st; scanned_roots := scanned_roots st;
         tmpdir_writable := tmpdir_writable st; slash_tmp_writable := true;
         unbridgeable_root_write := unbridgeable_root_write st |}
  end.

(** One entry: those that do not write leave the variables as they are. *)
Definition scan_entry (cwd_absolute : option (list rstring)) (st : LegacyScan) (entry : FileSystemSandboxEntry)
    : res LegacyError LegacyScan :=
  if negb (can_write (entry_access entry)) then Ok st
  else
    match entry_path entry with
    | GlobPattern _ => Ok st
    | Path path =>
        let? path := ok_or PathNotNative (to_abs_path path) in
        Ok (if decide (cwd_absolute = Some path) then scan_workspace st else scan_root path st)
    | Special value => Ok (scan_special cwd_absolute st value)
    end.

Fixpoint scan_entries (cwd_absolute : option (list rstring)) (st : LegacyScan) (es : list FileSystemSandboxEntry)
    : res LegacyError LegacyScan :=
  match es with
  | [] => Ok st
  | e :: es => let? st := scan_entry cwd_absolute st e in scan_entries cwd_absolute st es
  end.

Definition full_access_policy (network_policy : NetworkSandboxPolicy) : SandboxPolicy :=
  if network_is_enabled network_policy then DangerFullAccess else ExternalSandboxPolicy AccessRestricted.

Definition to_legacy_sandbox_policy (p : FileSystemSandboxPolicy) (network_policy : NetworkSandboxPolicy)
    (cwd : rstring) : res LegacyError SandboxPolicy :=
  match kind p with
  | ExternalSandbox =>
      Ok (ExternalSandboxPolicy (if network_is_enabled network_policy then AccessEnabled else AccessRestricted))
  | Unrestricted => Ok (full_access_policy network_policy)
  | Restricted =>
      let? st := scan_entries (from_absolute_path env cwd) legacy_scan_init (entries p) in
      if has_full_disk_write_access p then Ok (full_access_policy network_policy)
      else if workspace_root_writable st then
        Ok (WorkspaceWrite (dedup_absolute_paths (scanned_roots st)) (network_is_enabled network_policy)
              (negb (tmpdir_writable st)) (negb (slash_tmp_writable st)))
      else if unbridgeable_root_write st || bool_decide (scanned_roots st ≠ []) ||
              tmpdir_writable st || slash_tmp_writable st
      then Err WritesOutsideWorkspace
      else Ok (ReadOnly (network_is_enabled network_policy))
  end.
End sandbox.

(** ** The entries of a workspace policy *)

Section entries.
Context `{UrlLib, LocalFs} (env : Env).

Definition read_entries (es : list FileSystemSandboxEntry) : Prop := ∀ e, e ∈ es → entry_access e = Read.

Lemma append_default_app es path :
  ∃ extra, append_default_read_only_entry_if_no_explicit_rule es path = es ++ extra ∧ read_entries extra.
Proof.
  unfold append_default_read_only_entry_if_no_explicit_rule, read_entries. case_match.
  - exists []. rewrite app_nil_r. set_solver.
  - eexists. split; [done|]. by intros e ->%list_elem_of_singleton.
Qed.

(** A loop whose steps append entries that read appends entries that read. *)
Lemma foldl_app_reads {A} (f : list FileSystemSandboxEntry → A → list FileSystemSandboxEntry) (l : list A) es :
  (∀ es a, ∃ extra, f es a = es ++ extra ∧ read_entries extra) →
  ∃ extra, foldl f es l = es ++ extra ∧ read_entries extra.
Proof.
  intros Hf. revert es. induction l as [|a l IH]; intros es; simpl.
  { exists []. rewrite app_nil_r. split; [done|]. intros e ?%elem_of_nil. done. }
  destruct (Hf es a) as (x & -> & Hx). destruct (IH (es ++ x)) as (y & -> & Hy).
  exists (x ++ y). rewrite app_assoc. split; [done|]. intros e [?|?]%elem_of_app; auto.
Qed.

Lemma protect_root_app b es root :
  ∃ extra, protect_root env b es root = es ++ extra ∧ read_entries extra.
Proof. apply foldl_app_reads. intros. apply append_default_app. Qed.

(** A workspace policy is its grants and entries that only read. *)
Lemma workspace_write_entries roots ex_tmpdir ex_tmp :
  ∃ extra, entries (workspace_write env roots ex_tmpdir ex_tmp) =
    workspace_grants roots ex_tmpdir ex_tmp ++ extra ∧ read_entries extra.
Proof.
  unfold workspace_write. cbn [entries restricted].
  destruct (foldl_app_reads append_default_read_only_project_root_subpath_if_no_explicit_rule
    [str ".git"; str ".agents"; str ".hexa"] (workspace_grants roots ex_tmpdir ex_tmp)) as (x & -> & Hx).
  { intros. apply append_default_app. }
  destruct (foldl_app_reads (protect_root env false) roots (workspace_grants roots ex_tmpdir ex_tmp ++ x))
    as (y & -> & Hy); [intros; apply protect_root_app|].
  exists (x ++ y). rewrite app_assoc. split; [done|]. intros e [?|?]%elem_of_app; auto.
Qed.

Lemma legacy_entries roots network ex_tmpdir ex_tmp cwd :
  ∃ extra, entries (from_legacy_sandbox_policy_for_cwd env (WorkspaceWrite roots network ex_tmpdir ex_tmp) cwd) =
    workspace_grants roots ex_tmpdir ex_tmp ++ extra ∧ read_entries extra.
Proof.
  destruct (workspace_write_entries roots ex_tmpdir ex_tmp) as (x & Hx & Hxr).
  unfold from_legacy_sandbox_policy_for_cwd. cbn [from_sandbox_policy set_entries entries]. rewrite Hx.
  assert (∃ y, match from_absolute_path env cwd with
    | Some cwd_root => protect_root env true (workspace_grants roots ex_tmpdir ex_tmp ++ x) cwd_root
    | None => workspace_grants roots ex_tmpdir ex_tmp ++ x end = workspace_grants roots ex_tmpdir ex_tmp ++ y ∧
    read_entries y) as (y & -> & Hy).
  { case_match; [|by exists x]. destruct (protect_root_app true (workspace_grants roots ex_tmpdir ex_tmp ++ x) l)
      as (y & -> & Hy). exists (x ++ y). rewrite app_assoc. split; [done|]. intros e [?|?]%elem_of_app; auto. }
  destruct (foldl_app_reads (protect_root env false) roots (workspace_grants roots ex_tmpdir ex_tmp ++ y))
    as (z & -> & Hz); [intros; apply protect_root_app|].
  exists (y ++ z). rewrite app_assoc. split; [done|]. intros e [?|?]%elem_of_app; auto.
Qed.

(** The entries that write. *)
Lemma workspace_grants_write roots ex_tmpdir ex_tmp e :
  e ∈ workspace_grants roots ex_tmpdir ex_tmp → entry_access e = Write →
  entry_path e = Special (ProjectRoots None) ∨
  ex_tmp = false ∧ entry_path e = Special SlashTmp ∨
  ex_tmpdir = false ∧ entry_path e = Special Tmpdir ∨
  ∃ root, root ∈ roots ∧ entry_path e = Path (from_abs_path root).
Proof.
  unfold workspace_grants. rewrite !elem_of_app, !elem_of_cons, elem_of_nil.
  intros [[->|[->|[]]]|[Hin|[Hin|Hin]]] Hw; [done|by left| | |].
  - destruct ex_tmp; [by apply elem_of_nil in Hin|]. apply list_elem_of_singleton in Hin as ->. auto.
  - destruct ex_tmpdir; [by apply elem_of_nil in Hin|]. apply list_elem_of_singleton in Hin as ->. auto.
  - apply list_elem_of_In, in_map_iff in Hin as (root & <- & Hin%list_elem_of_In). eauto 10.
Qed.

Lemma no_root_write p roots ex_tmpdir ex_tmp extra :
  entries p = workspace_grants roots ex_tmpdir ex_tmp ++ extra → read_entries extra →
  has_root_access p can_write = false.
Proof.
  intros He Hr. apply not_true_iff_false. intros Ht. apply andb_true_iff in Ht as [_ Ht].
  apply existsb_exists in Ht as (e & Hin%list_elem_of_In & Hw). rewrite He in Hin.
  destruct (entry_path e) as [| |[]] eqn:Ep; try done.
  assert (entry_access e = Write) as Ha by by destruct (entry_access e).
  apply elem_of_app in Hin as [Hin|Hin]; [|rewrite (Hr e Hin) in Ha; done].
  destruct (workspace_grants_write _ _ _ _ Hin Ha) as [?|[[_ ?]|[[_ ?]|(? & _ & ?)]]]; congruence.
Qed.

(** ** The round trip of legacy policies *)

Lemma scan_entries_app c st a b :
  scan_entries env c st (a ++ b) = res_bind (scan_entries env c st a) (λ st, scan_entries env c st b).
Proof.
  revert st. induction a as [|e a IH]; intros st; simpl; [done|].
  destruct (scan_entry env c st e); simpl; [apply IH|done..].
Qed.

Lemma scan_entries_reads c st es : read_entries es → scan_entries env c st es = Ok st.
Proof.
  intros Hr. revert st. induction es as [|e es IH]; intros st; simpl; [done|].
  unfold scan_entry. rewrite (Hr e) by (left; done). simpl. apply IH. intros e' He'. apply Hr. by right.
Qed.

(** Once the workspace is writable, the roots other than the working directory are collected. *)
Lemma scan_entries_roots c st roots :
  workspace_root_writable st = true → Forall (λ r, to_abs_path (from_abs_path r) = Some r) roots →
  scan_entries env c st (map (λ path, new_entry (Path (from_abs_path path)) Write) roots) =
  Ok {| workspace_root_writable := true; scanned_roots := scanned_roots st ++ filter (λ r, c ≠ Some r) roots;
        tmpdir_writable := tmpdir_writable st; slash_tmp_writable := slash_tmp_writable st;
        unbridgeable_root_write := unbridgeable_root_write st |}.
Proof.
  intros Hw Hf. revert st Hw. induction Hf as [|r roots Hr _ IH]; intros st Hw; cbn [map scan_entries].
  { rewrite filter_nil, app_nil_r. destruct st; simpl in *; by subst. }
  unfold scan_entry. cbn [entry_access new_entry can_write negb entry_path]. rewrite Hr. cbn [ok_or res_bind].
  rewrite filter_cons. destruct (decide (c = Some r)) as [Hc|Hc].
  - rewrite (decide_False (P := c ≠ Some r)) by tauto. by rewrite IH.
  - rewrite (decide_True (P := c ≠ Some r)) by done. rewrite IH by done. cbn. by rewrite <-app_assoc.
Qed.

(** The loop of [dedup_absolute_paths] keeps the first of equal paths. *)
Lemma dedup_loop dn l : NoDup dn →
  ∃ l', foldl (λ deduped path, if decide (path ∈ deduped) then deduped else deduped ++ [path]) dn l =
      (dn ++ l' : list (list rstring)) ∧
    l' `sublist_of` l ∧ NoDup (dn ++ l') ∧ ∀ x, x ∈ dn ++ l' ↔ x ∈ dn ++ l.
Proof.
  revert dn. induction l as [|x l IH]; intros dn Hn; cbn [foldl].
  { exists []. by rewrite app_nil_r. }
  case_decide as Hx.
  - destruct (IH dn Hn) as (l' & -> & Hs & Hn' & Hin). exists l'. split_and!; [done|by apply sublist_cons|done|].
    intros y. rewrite Hin. set_solver.
  - destruct (IH (dn ++ [x])) as (l' & -> & Hs & Hn' & Hin).
    { apply NoDup_app. split_and!; [done|set_solver|apply NoDup_singleton]. }
    exists (x :: l'). rewrite <-app_assoc in *. split_and!; [done|by apply sublist_skip|done|].
    intros y. cbn [app] in Hin. rewrite Hin, <-app_assoc. done.
Qed.

Lemma dedup_paths l :
  dedup_absolute_paths l `sublist_of` l ∧ NoDup (dedup_absolute_paths l) ∧
  ∀ x, x ∈ dedup_absolute_paths l ↔ x ∈ l.
Proof. destruct (dedup_loop [] l) as (l' & Hl & ? & ? & ?); [apply NoDup_nil_2|]. unfold dedup_absolute_paths. by rewrite Hl. Qed.

(** A sublist that has every element of a list without duplicates is the list. *)
Lemma sublist_full {A} (k l : list A) : k `sublist_of` l → NoDup l → (∀ x, x ∈ l → x ∈ k) → k = l.
Proof.
  induction 1 as [|x k l Hs IH|x k l Hs IH]; [done|..]; intros [Hx Hn]%NoDup_cons Hin.
  - f_equal. apply IH; [done|]. intros y Hy. specialize (Hin y (list_elem_of_further _ _ _ Hy)).
    apply elem_of_cons in Hin as [->|?]; done.
  - destruct Hx. apply (sublist_subseteq _ _ Hs), Hin. by left.
Qed.

(** C20: a legacy policy survives the conversion to permissions and back, when its writable roots
    are paths that the host turns into URIs and back.  Policies without writable roots come back as
    they were.  Of the writable roots, repetitions and the working directory, which is writable
    anyway, are dropped, and the others come back in their order; so that a policy with neither
    comes back as it was. *)
Theorem legacy_round_trip p cwd :
  (∀ roots network a b, p = WorkspaceWrite roots network a b →
    Forall (λ r, to_abs_path (from_abs_path r) = Some r) roots) →
  let back := to_legacy_sandbox_policy env (from_legacy_sandbox_policy_for_cwd env p cwd) (network_from_sandbox p) cwd in
  match p with
  | WorkspaceWrite roots network a b =>
      ∃ roots', back = Ok (WorkspaceWrite roots' network a b) ∧ roots' `sublist_of` roots ∧ NoDup roots' ∧
        (∀ r, r ∈ roots' ↔ r ∈ roots ∧ from_absolute_path env cwd ≠ Some r) ∧
        (NoDup roots → (∀ r, r ∈ roots → from_absolute_path env cwd ≠ Some r) → roots' = roots)
  | _ => back = Ok p
  end.
Proof.
  destruct p as [| |[]|roots network ex_tmpdir ex_tmp]; intros Hp; try (by destruct network_access); try done.
  specialize (Hp roots network ex_tmpdir ex_tmp eq_refl).
  destruct (legacy_entries roots network ex_tmpdir ex_tmp cwd) as (extra & He & Hr).
  set (kept := filter (λ r, from_absolute_path env cwd ≠ Some r) roots).
  exists (dedup_absolute_paths kept). destruct (dedup_paths kept) as (Hs & Hn & Hin).
  assert (kept `sublist_of` roots) as Hk by apply sublist_filter.
  assert (∀ r, r ∈ dedup_absolute_paths kept ↔ r ∈ roots ∧ from_absolute_path env cwd ≠ Some r) as Hmem.
  { intros r. rewrite Hin. unfold kept. rewrite list_elem_of_filter. tauto. }
  split_and!; [|by trans kept|done|done|].
  - cbn zeta. unfold to_legacy_sandbox_policy. rewrite He, scan_entries_app.
    assert (kind (from_legacy_sandbox_policy_for_cwd env (WorkspaceWrite roots network ex_tmpdir ex_tmp) cwd) = Restricted)
      as -> by done.
    unfold has_full_disk_write_access, has_full_disk_write_access_for_convention.
    rewrite (no_root_write _ _ _ _ _ He Hr). unfold workspace_grants. rewrite !scan_entries_app.
    destruct ex_tmpdir, ex_tmp; simpl; rewrite scan_entries_roots by done; simpl;
      rewrite scan_entries_reads by done; by destruct network.
  - intros Hnd Hne. apply sublist_full; [by trans kept|done|]. intros r Hr'. apply Hmem. auto.
Qed.
End entries.

(** ** What a workspace policy lets be written *)

Section confined.
Context `{UrlLaws, LocalFs} (env : Env).

(** The directories that the policy opens: the workspace, [/tmp] and [TMPDIR] unless they are
    excluded, and the configured roots. *)
Definition writable_place (context : FileSystemSandboxPolicyContext) (roots : list (list rstring))
    (exclude_tmpdir_env_var exclude_slash_tmp : bool) (place : list (list N)) : Prop :=
  ∃ r, posix_uri r ∧ key r = place ∧
    (r ∈ workspace_roots context ∨
     exclude_slash_tmp = false ∧ place = [str "tmp"] ∨
     exclude_tmpdir_env_var = false ∧ r ∈ default [] (temporary_directories context) ∨
     ∃ root, root ∈ roots ∧ r = from_abs_path root).

Lemma workspace_write_place context roots ex_tmpdir ex_tmp r :
  posix_uri (cwd context) → posix_uri r →
  (r, Write) ∈ resolved_entries (workspace_write env roots ex_tmpdir ex_tmp) context →
  writable_place context roots ex_tmpdir ex_tmp (key r).
Proof.
  intros Hc Hu Hin. apply elem_of_resolved_entries in Hin as (e & Hin & Ha & Hr & _).
  destruct (workspace_write_entries env roots ex_tmpdir ex_tmp) as (extra & He & Hre).
  rewrite He in Hin. apply elem_of_app in Hin as [Hin|Hin]; [|rewrite (Hre e Hin) in Ha; done].
  exists r. split; [done|]. split; [done|].
  destruct (workspace_grants_write _ _ _ _ Hin Ha) as [Hp|[[-> Hp]|[[-> Hp]|(root & Hroot & Hp)]]];
    rewrite Hp in Hr; simpl in Hr.
  - left. apply list_elem_of_omap in Hr as (x & Hx & [= ->]). done.
  - right; left. rewrite decide_True in Hr by by apply posix_convention.
    destruct (posix_slash_tmp (cwd context) Hc) as (t & Ht & _ & Hk). rewrite Ht in Hr. simpl in Hr.
    by apply list_elem_of_singleton in Hr as ->.
  - auto.
  - apply list_elem_of_singleton in Hr as ->. eauto 10.
Qed.

Lemma workspace_place_resolves context roots ex_tmpdir ex_tmp place :
  posix_uri (cwd context) → writable_place context roots ex_tmpdir ex_tmp place →
  ∃ r, (r, Write) ∈ resolved_entries (workspace_write env roots ex_tmpdir ex_tmp) context ∧
    posix_uri r ∧ key r = place.
Proof.
  intros Hc (r & Hu & Hk & Hr).
  destruct (workspace_write_entries env roots ex_tmpdir ex_tmp) as (extra & He & _).
  assert (∀ u fp, new_entry fp Write ∈ workspace_grants roots ex_tmpdir ex_tmp → posix_uri u →
    u ∈ resolve_path context fp →
    (u, Write) ∈ resolved_entries (workspace_write env roots ex_tmpdir ex_tmp) context) as Hgrant.
  { intros u fp Hin Hpu Hres. apply elem_of_resolved_entries. exists (new_entry fp Write).
    rewrite He, elem_of_app, !posix_convention by done. auto. }
  unfold workspace_grants in Hgrant. setoid_rewrite elem_of_app in Hgrant. setoid_rewrite elem_of_app in Hgrant.
  destruct Hr as [Hr|[[-> ->]|[[-> Hr]|(root & Hroot & ->)]]].
  - exists r. split; [|done]. apply (Hgrant _ (Special (ProjectRoots None))); [|done|].
    + left. right. by left.
    + simpl. apply list_elem_of_omap. eauto.
  - destruct (posix_slash_tmp (cwd context) Hc) as (t & Ht & Hut & Hkt). exists t. split; [|done].
    apply (Hgrant _ (Special SlashTmp)); [|done|].
    + right. left. by left.
    + simpl. rewrite decide_True by by apply posix_convention. rewrite Ht. by left.
  - exists r. split; [|done]. apply (Hgrant _ (Special Tmpdir)); [|done..].
    right. right. apply elem_of_app. left. by left.
  - exists (from_abs_path root). split; [|done]. apply (Hgrant _ (Path (from_abs_path root))); [|done|by left].
    right. right. apply elem_of_app. right. apply list_elem_of_In, in_map_iff. exists root.
    by rewrite <-list_elem_of_In.
Qed.

(** C10: what a workspace policy lets be written lies in the workspace, a temporary directory or a
    configured root; and below the [.git], [.agents] or [.hexa] of one of these only where another of
    them lies inside such a directory. *)
Theorem workspace_write_confined context roots ex_tmpdir ex_tmp path :
  let policy := workspace_write env roots ex_tmpdir ex_tmp in
  let place := writable_place context roots ex_tmpdir ex_tmp in
  posix_context policy context → posix_uri path → can_write_path policy path context = true →
  (∃ r, place r ∧ r `prefix_of` key path) ∧
  (∀ r n, place r → n ∈ PROTECTED_METADATA_PATH_NAMES → r ++ [n] `prefix_of` key path →
    ∃ inner outer n', place inner ∧ inner `prefix_of` key path ∧ place outer ∧
      n' ∈ PROTECTED_METADATA_PATH_NAMES ∧ outer ++ [n'] `prefix_of` inner).
Proof.
  intros policy place Hctx Hp Hw. pose proof Hctx as (Hc & _).
  assert (kind policy = Restricted) as Hk by done.
  unfold can_write_path in Hw. destruct (can_write (resolve_access policy path context)) eqn:Ea; [|done].
  simpl in Hw. split.
  - destruct (resolve_access_decides policy path context) as [| | |r a d _ _ Hcov _]; [done..|].
    apply posix_covers in Hcov as (Hin & Hu & _ & Hpre); [|done..].
    exists (key r). split; [|done]. apply workspace_write_place; [done..|]. by destruct a.
  - intros pl n Hpl Hn Hpre. destruct (workspace_place_resolves _ _ _ _ _ Hc Hpl) as (r & Hr & Hu & <-).
    destruct (workspace_write_entries env roots ex_tmpdir ex_tmp) as (extra & He & Hre).
    assert (has_full_disk_write_access_with_context policy context = false) as Hfull.
    { unfold has_full_disk_write_access_with_context, has_full_disk_write_access_for_convention.
      rewrite Hk, posix_convention by done. by rewrite (no_root_write policy _ _ _ _ He Hre). }
    rewrite Hfull in Hw. apply bool_decide_eq_true in Hw.
    destruct (metadata_check policy context path r n) as (r' & r2 & n2 & Hr' & Hu' & Hpre' & Hr2 & Hu2 & Hn2 & Hin);
      [done..|].
    exists (key r'), (key r2), n2. split_and!; [by apply workspace_write_place|done|by apply workspace_write_place|done..].
Qed.
End confined.

(** ** Examples *)

Module SandboxExample.
Import Percent.

#[local] Instance fs : LocalFs := {|
  is_file := λ _, false;
  is_dir := λ path, bool_decide (path = [str "w"; str ".git"] ∨ path = [str "data"; str ".git"]);
  path_exists := λ _, false;
  read_to_string := λ _, None;
|}.

Definition host : Env := {| home_dir := Some [str "home"; str "me"]; current_dir := Some [str "w"] |}.

Definition uri (segments : list rstring) : Url := {| url_host := None; url_segments := segments |}.

Definition context : FileSystemSandboxPolicyContext :=
  {| cwd := uri [str "w"]; workspace_roots := [uri [str "w"]]; user_home_dir := None;
     temporary_directories := Some [uri [str "var"; str "tmp"]] |}.

Lemma legacy_round_trip_witness :
  let p := WorkspaceWrite [[str "data"]; [str "w"]; [str "data"]] true false true in
  ∃ roots', to_legacy_sandbox_policy host (from_legacy_sandbox_policy_for_cwd host p (str "/w"))
      (network_from_sandbox p) (str "/w") = Ok (WorkspaceWrite roots' true false true) ∧
    roots' `sublist_of` [[str "data"]; [str "w"]; [str "data"]] ∧ NoDup roots' ∧
    (∀ r, r ∈ roots' ↔ r ∈ [[str "data"]; [str "w"]; [str "data"]] ∧ from_absolute_path host (str "/w") ≠ Some r) ∧
    (NoDup [[str "data"]; [str "w"]; [str "data"]] →
      (∀ r, r ∈ [[str "data"]; [str "w"]; [str "data"]] → from_absolute_path host (str "/w") ≠ Some r) →
      roots' = [[str "data"]; [str "w"]; [str "data"]]).
Proof.
  apply (legacy_round_trip host (WorkspaceWrite [[str "data"]; [str "w"]; [str "data"]] true false true) (str "/w")).
  intros roots network a b [= <- _ _ _]. repeat constructor; by vm_compute.
Defined.

Lemma workspace_write_confined_witness :
  ∃ r, writable_place context [[str "data"]] false false r ∧
    r `prefix_of` key (uri [str "data"; str "out"]).
Proof.
  apply (workspace_write_confined host context [[str "data"]] false false (uri [str "data"; str "out"])).
  - apply posix_context_checked; by vm_compute.
  - apply posix_uri_checked. by vm_compute.
  - by vm_compute.
Defined.

(** The metadata of the workspace and of the configured root cannot be written. *)
Lemma metadata_not_writable :
  can_write_path (workspace_write host [[str "data"]] false false) (uri [str "w"; str ".git"; str "hooks"]) context = false ∧
  can_write_path (workspace_write host [[str "data"]] false false) (uri [str "data"; str ".hexa"]) context = false.
Proof. by vm_compute. Qed.
End SandboxExample.
