(* ===== verification/PermissionScope.v ===== *)
(** * Scopes of permissions ([protocol/src/permissions.rs])

    The matcher of paths that must not be read, with the globs of the policy, and the
    replacement of the symbolic workspace roots of a policy by concrete directories.

    Arguments: the glob library, which compiles a pattern with its options ([glob_build]) and
    matches bytes ([glob_is_match]). *)

From S2P Require Import Prelude RustStr Utf8 AbsolutePath PathUri PathText Permissions SandboxPolicy.

Local Open Scope nat_scope.

Inductive InvalidDenyReadGlobBehavior := FailClosed | ReturnError.

Definition PROJECT_ROOTS_GLOB_PATTERN_PREFIX : rstring := str "codex-project-roots://".

(** [project_roots_glob_pattern]. *)
Definition project_roots_glob_pattern (subpath : rstring) : rstring := PROJECT_ROOTS_GLOB_PATTERN_PREFIX ++ subpath.

Definition parse_project_roots_glob_pattern (pattern : rstring) : option rstring :=
  strip_prefix PROJECT_ROOTS_GLOB_PATTERN_PREFIX pattern.

Definition set_path (path : FileSystemPath) (e : FileSystemSandboxEntry) : FileSystemSandboxEntry :=
  {| entry_path := path; entry_access := entry_access e; missing_path_behavior := missing_path_behavior e |}.

(** ** Paths that must not be read *)

Section matcher.
Context `{UrlLib} {Glob : Type}.
Context (glob_build : rstring → bool → bool → rstring + Glob) (glob_is_match : Glob → list N → bool).

(** [Result] collected over a list: the first error. *)
Fixpoint collect_results {E A} (l : list (res E A)) : res E (list A) :=
  match l with
  | [] => Ok []
  | r :: l => let? a := r in let? l := collect_results l in Ok (a :: l)
  end.

(** Backslashes escape on Unix and separate on Windows, where case does not matter. *)
Definition build_glob_matcher (pattern : rstring) (convention : PathConvention) : rstring + Glob :=
  match convention with
  | Posix => glob_build pattern true false
  | Windows => glob_build (map (λ c, if (c =? BACKSLASH)%N then SLASH else c) pattern) false true
  end.

(** The absolute text of one pattern. *)
Definition deny_read_glob (context : FileSystemSandboxPolicyContext) (pattern : rstring) : res rstring rstring :=
  let is_windows := bool_decide (infer_path_convention (cwd context) = Some Windows) in
  let home_relative :=
    match strip_prefix (str "~/") pattern with
    | Some suffix => Some suffix
    | None => if is_windows then strip_prefix [126%N; BACKSLASH] pattern else None
    end in
  let? target :=
    match home_relative with
    | Some suffix =>
        match user_home_dir context with
        | Some home =>
            Ok (home, trim_start_matches (λ c, (c =? SLASH)%N || is_windows && (c =? BACKSLASH)%N) suffix)
        | None =>
            Err (str "unable to resolve deny-read glob pattern `" ++ pattern ++ str "` without executor home")
        end
    | None => Ok (cwd context, pattern)
    end in
  match uri_join target.1 target.2 with
  | Ok path => Ok (inferred_native_path_string path)
  | Err _ => Err (str "unable to resolve deny-read glob pattern `" ++ target.2 ++ str "`")
  | Panic => Panic
  end.

Definition deny_patterns (p : FileSystemSandboxPolicy) : list rstring :=
  omap (λ e, match entry_path e with GlobPattern pattern => Some pattern | _ => None end) (deny_entries p).

Definition deny_read_globs (p : FileSystemSandboxPolicy) (context : FileSystemSandboxPolicyContext)
    : res rstring (list rstring) :=
  collect_results (map (deny_read_glob context) (deny_patterns p)).

Record PreparedReadDenyMatcher := {
  denied_roots : list Url;
  deny_read_matchers : list Glob;
  invalid_pattern : bool;
}.

(** The directory is the root of the file system. *)
Definition is_file_system_root (context : FileSystemSandboxPolicyContext) (root : Url) : bool :=
  match file_system_root context with
  | Some r => uri_starts_with root r && uri_starts_with r root
  | None => false
  end.

(** The loop that compiles the patterns. *)
Fixpoint compile_patterns (behavior : InvalidDenyReadGlobBehavior) (convention : PathConvention)
    (patterns : list rstring) : res rstring (list Glob * bool) :=
  match patterns with
  | [] => Ok ([], false)
  | pattern :: patterns =>
      match build_glob_matcher pattern convention, behavior with
      | inr matcher, _ =>
          let? rest := compile_patterns behavior convention patterns in Ok (matcher :: rest.1, rest.2)
      | inl err, ReturnError =>
          Err (str "invalid deny-read glob pattern `" ++ pattern ++ str "`: " ++ err)
      | inl _, FailClosed => let? rest := compile_patterns behavior convention patterns in Ok (rest.1, true)
      end
  end.

Definition prepare_deny_read_matcher (p : FileSystemSandboxPolicy) (context : FileSystemSandboxPolicyContext)
    (behavior : InvalidDenyReadGlobBehavior) : res rstring PreparedReadDenyMatcher :=
  let denied_roots := map fst (filter (λ x : Url * FileSystemAccessMode,
    x.2 = Deny ∧ is_file_system_root context x.1 = false) (resolved_entries p context)) in
  let failed := {| denied_roots := denied_roots; deny_read_matchers := []; invalid_pattern := true |} in
  match infer_path_convention (cwd context) with
  | None => Ok failed
  | Some convention =>
      match deny_read_globs p context, behavior with
      | Ok patterns, _ =>
          let? compiled := compile_patterns behavior convention patterns in
          Ok {| denied_roots := denied_roots; deny_read_matchers := compiled.1; invalid_pattern := compiled.2 |}
      | Err _, FailClosed => Ok failed
      | Err err, ReturnError => Err err
      | Panic, _ => Panic
      end
  end.

(** The bytes that the globs are matched against. *)
Definition candidate_bytes (convention : PathConvention) (path : Url) : list N :=
  match convention with
  | Posix => decoded_path_bytes path
  | Windows => encode (map (λ c, if (c =? BACKSLASH)%N then SLASH else c) (inferred_native_path_string path))
  end.

Definition matches_prepared_read_deny (path : Url) (context : FileSystemSandboxPolicyContext)
    (prepared : PreparedReadDenyMatcher) : bool :=
  match infer_path_convention (cwd context) with
  | None => true
  | Some convention =>
      if negb (lexical_in_context context path convention) then true
      else if invalid_pattern prepared then true
      else
        existsb (uri_starts_with path) (denied_roots prepared) ||
        existsb (λ matcher, glob_is_match matcher (candidate_bytes convention path)) (deny_read_matchers prepared)
  end.

(** [ReadDenyMatcher::from_context]: the other fields are empty. *)
Definition from_context (p : FileSystemSandboxPolicy) (context : FileSystemSandboxPolicyContext)
    : option PreparedReadDenyMatcher :=
  if existsb (λ e, bool_decide (entry_access e = Deny)) (entries p)
  then match prepare_deny_read_matcher p context FailClosed with Ok m => Some m | _ => None end
  else None.

(** The policy denies the read of a path. *)
Definition read_denied (p : FileSystemSandboxPolicy) (context : FileSystemSandboxPolicyContext) (path : Url) : bool :=
  match from_context p context with
  | Some m => matches_prepared_read_deny path context m
  | None => false
  end.

(** *** What the matcher denies *)

(** A pattern denies a path when it matches the path, and every path when it cannot be resolved
    or compiled. *)
Definition glob_denies (context : FileSystemSandboxPolicyContext) (path : Url) (pattern : rstring) : Prop :=
  ∀ convention text g,
    infer_path_convention (cwd context) = Some convention → deny_read_glob context pattern = Ok text →
    build_glob_matcher text convention = inr g → glob_is_match g (candidate_bytes convention path) = true.

Lemma try_from_url_no_panic u : try_from_url u ≠ Panic.
Proof. unfold try_from_url. by case_match. Qed.

Lemma uri_join_no_panic u path : uri_join u path ≠ Panic.
Proof.
  unfold uri_join. repeat case_decide; try done. destruct (infer_path_convention u) as [c|]; simpl; [|done].
  destruct (from_absolute_native_path path c); [done|]. unfold join_relative.
  assert ((if decide (c = Windows) then same_drive_rest u path else Ok path) ≠ Panic) as Hd.
  { case_decide; [|done]. unfold same_drive_rest. repeat case_match; done. }
  destruct (if decide _ then _ else _) as [path'| |]; simpl; [|done..].
  destruct (is_opaque u); [done|]. repeat case_match; apply try_from_url_no_panic.
Qed.

Lemma deny_read_glob_no_panic context pattern : deny_read_glob context pattern ≠ Panic.
Proof.
  unfold deny_read_glob. set (hr := match strip_prefix _ _ with Some _ => _ | None => _ end).
  destruct hr as [suffix|]; [destruct (user_home_dir context); [|done]|]; simpl;
    pose proof uri_join_no_panic as Hj; case_match eqn:E; try done; by apply Hj in E.
Qed.

Lemma collect_results_cases {E A} (l : list (res E A)) :
  (∀ r, r ∈ l → r ≠ Panic) →
  (∃ xs, collect_results l = Ok xs ∧ l = map Ok xs) ∨ (∃ e, collect_results l = Err e ∧ Err e ∈ l).
Proof.
  induction l as [|r l IH]; intros Hp; simpl; [left; by exists []|].
  destruct r as [a|e|]; simpl.
  - destruct IH as [(xs & -> & ->)|(e & -> & He)]; [intros; apply Hp; by right|left|right]; simpl.
    + by exists (a :: xs).
    + exists e. split; [done|by right].
  - right. exists e. split; [done|by left].
  - exfalso. apply (Hp Panic); [by left|done].
Qed.

(** With [FailClosed] the patterns that compile stay, and one that does not sets the flag. *)
Lemma compile_patterns_closed convention patterns :
  ∃ ms invalid, compile_patterns FailClosed convention patterns = Ok (ms, invalid) ∧
    (∀ g, g ∈ ms ↔ ∃ t, t ∈ patterns ∧ build_glob_matcher t convention = inr g) ∧
    (invalid = true ↔ ∃ t e, t ∈ patterns ∧ build_glob_matcher t convention = inl e).
Proof.
  induction patterns as [|t patterns (ms & invalid & IH & Hg & Hi)]; cbn [compile_patterns].
  { exists [], false. split_and!; [done|set_solver|set_solver]. }
  destruct (build_glob_matcher t convention) as [e|g] eqn:E; rewrite IH; simpl.
  - exists ms, true. setoid_rewrite elem_of_cons. split_and!; [done| |split; [|done]; intros _; eauto 10].
    intros g. rewrite Hg. split; [naive_solver|]. intros (t' & [->|?] & Ht'); [congruence|eauto].
  - exists (g :: ms), invalid. setoid_rewrite elem_of_cons. split_and!; [done| |].
    + intros g'. rewrite Hg. split; [naive_solver|]. intros (t' & [->|?] & Ht'); [left; congruence|eauto].
    + rewrite Hi. split; [naive_solver|]. intros (t' & e & [->|?] & Ht'); [congruence|eauto].
Qed.

Lemma existsb_true_elem {A} (f : A → bool) l : existsb f l = true ↔ ∃ x, x ∈ l ∧ f x = true.
Proof. rewrite existsb_exists. by setoid_rewrite list_elem_of_In. Qed.

(** The globs of the matcher, when every pattern resolves. *)
Lemma globs_match context path convention texts patterns ms invalid :
  infer_path_convention (cwd context) = Some convention →
  map (deny_read_glob context) patterns = map Ok texts →
  compile_patterns FailClosed convention texts = Ok (ms, invalid) →
  (∃ pattern, pattern ∈ patterns ∧ glob_denies context path pattern) ↔
  invalid = true ∨ ∃ g, g ∈ ms ∧ glob_is_match g (candidate_bytes convention path) = true.
Proof.
  intros Hc Hmap Hcomp. destruct (compile_patterns_closed convention texts) as (ms' & inv' & Hcomp' & Hg & Hi).
  rewrite Hcomp in Hcomp'. simplify_eq. rewrite Hi. setoid_rewrite Hg. clear Hcomp Hg Hi.
  assert (∀ t, t ∈ texts ↔ ∃ pattern, pattern ∈ patterns ∧ deny_read_glob context pattern = Ok t) as Ht.
  { intros t. assert (t ∈ texts ↔ @Ok rstring rstring t ∈ map Ok texts) as ->.
    { rewrite !list_elem_of_In, in_map_iff. split; [eauto|]. by intros (t' & [= ->] & ?). }
    rewrite <-Hmap, list_elem_of_In, in_map_iff. setoid_rewrite list_elem_of_In.
    split; intros (pat & ? & ?); by exists pat. }
  split.
  - intros (pattern & Hin & Hden). assert (∃ t, deny_read_glob context pattern = Ok t) as (t & Htext).
    { assert (deny_read_glob context pattern ∈ map Ok texts) as Hr.
      { rewrite <-Hmap. apply list_elem_of_In, in_map. by apply list_elem_of_In. }
      apply list_elem_of_In, in_map_iff in Hr as (t & Hr & _). eauto. }
    destruct (build_glob_matcher t convention) as [e|g] eqn:E.
    + left. exists t, e. split; [apply Ht; eauto|done].
    + right. exists g. split; [|by eapply Hden]. exists t. split; [apply Ht; eauto|done].
  - intros [(t & e & (pattern & Hin & Htext)%Ht & Hb)|(g & (t & (pattern & Hin & Htext)%Ht & Hb) & Hm)];
      exists pattern; (split; [done|]); intros c t' g' Hc' Ht' Hb'; congruence.
Qed.

(** What the matcher of a policy with denials denies. *)
Lemma read_deny_cases p context path :
  (∃ e, e ∈ entries p ∧ entry_access e = Deny) →
  ∃ m, from_context p context = Some m ∧
    (matches_prepared_read_deny path context m = true ↔
     (∀ convention, infer_path_convention (cwd context) = Some convention →
        lexical_in_context context path convention = false) ∨
     (∃ root, (root, Deny) ∈ resolved_entries p context ∧ is_file_system_root context root = false ∧
        uri_starts_with path root = true) ∨
     ∃ pattern, pattern ∈ deny_patterns p ∧ glob_denies context path pattern).
Proof.
  intros (e & He & Ha). unfold from_context.
  assert (existsb (λ e, bool_decide (entry_access e = Deny)) (entries p) = true) as ->.
  { apply existsb_true_elem. exists e. by rewrite bool_decide_eq_true. }
  unfold prepare_deny_read_matcher, matches_prepared_read_deny. set (roots := map fst _).
  assert (existsb (uri_starts_with path) roots = true ↔
    ∃ root, (root, Deny) ∈ resolved_entries p context ∧ is_file_system_root context root = false ∧
      uri_starts_with path root = true) as Hroots.
  { unfold roots. rewrite existsb_true_elem. setoid_rewrite list_elem_of_In. setoid_rewrite in_map_iff.
    setoid_rewrite <-list_elem_of_In. setoid_rewrite list_elem_of_filter. split.
    - intros (root & ([root' a] & <- & [Hd Hf] & Hin) & Hs). simpl in *. subst. eauto.
    - intros (root & Hin & Hf & Hs). exists root. split; [|done]. by exists (root, Deny). }
  destruct (infer_path_convention (cwd context)) as [convention|] eqn:Hc.
  2:{ eexists. split; [done|]. split; [|done]. intros _. left. done. }
  assert (∀ b, (∀ c, Some convention = Some c → lexical_in_context context path c = b) ↔
    lexical_in_context context path convention = b) as Hlex.
  { intros b. split; [intros Hb; by apply Hb|]. by intros Hb c [= <-]. }
  destruct (collect_results_cases (map (deny_read_glob context) (deny_patterns p))) as [(ts & Hts & Hmap)|(err & Hts & Hin)].
  { intros r (pat & <- & _)%list_elem_of_In%in_map_iff. apply deny_read_glob_no_panic. }
  - unfold deny_read_globs. rewrite Hts.
    destruct (compile_patterns_closed convention ts) as (ms & invalid & Hcomp & _). rewrite Hcomp. simpl.
    eexists. split; [done|]. simpl. rewrite Hlex, (globs_match _ path _ _ _ _ _ Hc Hmap Hcomp), <-Hroots.
    destruct (lexical_in_context context path convention); [destruct invalid|]; simpl.
    + split; [intros _; right; right; by left|done].
    + rewrite orb_true_iff, !existsb_true_elem. split; [intros [?|?]; auto|].
      intros [?|[?|[?|?]]]; [done|by left|done|by right].
    + split; [intros _; by left|done].
  - unfold deny_read_globs. rewrite Hts. eexists. split; [done|]. simpl. rewrite Hlex.
    destruct (lexical_in_context context path convention); simpl; [|split; [intros _; by left|done]].
    split; [intros _; right; right|done]. apply list_elem_of_In, in_map_iff in Hin as (pat & Hp & Hin).
    exists pat. split; [by apply list_elem_of_In|]. intros c t g _ Ht. congruence.
Qed.
(** C18: the matcher of a policy with denials denies a path exactly when the path cannot be
    compared, lies below a denied directory other than the root of the file system, or a glob of
    the policy matches it or cannot be resolved or compiled. *)
Theorem read_deny_exact p context path :
  (∃ e, e ∈ entries p ∧ entry_access e = Deny) →
  ∃ m, from_context p context = Some m ∧
    (matches_prepared_read_deny path context m = true ↔
     (∀ convention, infer_path_convention (cwd context) = Some convention →
        lexical_in_context context path convention = false) ∨
     (∃ root, (root, Deny) ∈ resolved_entries p context ∧ is_file_system_root context root = false ∧
        uri_starts_with path root = true) ∨
     ∃ pattern, pattern ∈ deny_patterns p ∧ glob_denies context path pattern).
Proof. apply read_deny_cases. Qed.
End matcher.

(** ** Workspace roots *)

Section materialize.
Context `{UrlLib} (env : Env).

Definition materialize_entry (roots : list (list rstring)) (e : FileSystemSandboxEntry) : list FileSystemSandboxEntry :=
  match entry_path e with
  | Special (ProjectRoots subpath) =>
      map (λ root, set_path (Path (from_abs_path
        match subpath with
        | Some subpath => resolve_path_against_base env subpath root
        | None => root
        end)) e) roots
  | GlobPattern pattern =>
      match parse_project_roots_glob_pattern pattern with
      | Some subpath =>
          map (λ root, set_path (GlobPattern (abs_to_string (resolve_path_against_base env subpath root))) e) roots
      | None => [e]
      end
  | _ => [e]
  end.

Definition materialize_project_roots_with_workspace_roots (p : FileSystemSandboxPolicy)
    (roots : list (list rstring)) : FileSystemSandboxPolicy :=
  set_entries (concat (map (materialize_entry roots) (entries p))) p.

Definition resolve_scoped_workspace_path (root : Url) (subpath : rstring) : option Url :=
  convention ← infer_path_convention root;
  let segments := path_segments convention subpath in
  if starts_with subpath [SLASH] ||
     bool_decide (convention = Windows) && starts_with subpath [BACKSLASH] ||
     existsb (λ s, bool_decide (s = str "." ∨ s = str "..")) segments ||
     bool_decide (convention = Windows) && existsb (λ s, contains_char s 58%N) segments
  then None
  else
    path ← res_ok (uri_join root subpath);
    if uri_starts_with path root then Some path else None.

(** One root of an entry of executors that are not of the host. *)
Definition scope_entry (e : FileSystemSandboxEntry) (subpath : option rstring) (is_glob : bool) (root : Url)
    : option FileSystemSandboxEntry :=
  match match subpath with Some subpath => resolve_scoped_workspace_path root subpath | None => Some root end with
  | Some path => Some (set_path (if is_glob then GlobPattern (inferred_native_path_string path) else Path path) e)
  | None =>
      if can_write (entry_access e) then None
      else Some {| entry_path := Path root; entry_access := Deny; missing_path_behavior := missing_path_behavior e |}
  end.

Definition scope_entries (roots : list Url) (e : FileSystemSandboxEntry) : list FileSystemSandboxEntry :=
  match entry_path e with
  | Special (ProjectRoots subpath) => omap (scope_entry e subpath false) roots
  | GlobPattern pattern =>
      match parse_project_roots_glob_pattern pattern with
      | Some subpath => omap (scope_entry e (Some subpath) true) roots
      | None => [e]
      end
  | _ => [e]
  end.

Definition materialize_project_roots_with_path_uris (p : FileSystemSandboxPolicy) (roots : list Url)
    : FileSystemSandboxPolicy :=
  match mapM to_abs_path roots with
  | Some native_workspace_roots => materialize_project_roots_with_workspace_roots p native_workspace_roots
  | None => set_entries (concat (map (scope_entries roots) (entries p))) p
  end.

Definition with_materialized_project_roots_for_workspace_roots (p : FileSystemSandboxPolicy)
    (roots : list (list rstring)) : FileSystemSandboxPolicy :=
  set_entries (foldl push_missing (entries p)
    (entries (materialize_project_roots_with_workspace_roots p roots))) p.
End materialize.

(** ** Materialized roots give the same access *)

(** The URL of a file path has the components of the path. *)
Class FilePathLaws `{UrlLib} : Prop := {
  file_path_laws :: UrlLaws;
  url_from_file_path_text path :
    Forall text_segment path → (∀ s, head path = Some s → ¬ is_drive s) →
    ∃ u, url_from_file_path path = Some u ∧ posix_uri u ∧ key u = encode <$> path;
}.

Section materialized.
Context `{FilePathLaws} (env : Env).

(** A directory of the host that has an ordinary URL. *)
Definition text_path (path : list rstring) : Prop :=
  Forall text_segment path ∧ ∀ s, head path = Some s → ¬ is_drive s.

Lemma from_abs_path_text path :
  text_path path → posix_uri (from_abs_path path) ∧ key (from_abs_path path) = encode <$> path.
Proof.
  intros [Ht Hd]. destruct (url_from_file_path_text path Ht Hd) as (u & Hu & Hp & Hk).
  unfold from_abs_path. rewrite Hu, posix_try_from, posix_convention by done.
  rewrite decide_True; [done|]. split; [|done]. by destruct Hp as [-> _].
Qed.

Lemma plain_encode s : plain_name s → encode s = s.
Proof.
  intros (_ & _ & _ & Hs). induction Hs as [|c s Hc _ IH]; [done|]. rewrite encode_cons, IH.
  unfold encode_char. assert ((c <? 128)%N = true) as ->; [|done]. apply N.ltb_lt.
  unfold is_plain_char, is_ascii_alphabetic, is_ascii_digit in Hc.
  rewrite !orb_true_iff, !andb_true_iff, !N.leb_le, !N.eqb_eq in Hc. lia.
Qed.

Lemma plain_not_is_drive s : plain_name s → ¬ is_drive s.
Proof.
  intros (_ & _ & _ & Hs) (c & _ & ->). by do 2 (apply Forall_cons in Hs as [? Hs]).
Qed.

Lemma plain_text_segment s : plain_name s → text_segment s.
Proof.
  intros Hs. pose proof (plain_encode s Hs) as He. destruct Hs as (H1 & H2 & H3 & Hs). split_and!; [|done..|].
  - eapply Forall_impl; [done|]. intros c Hc. unfold is_scalar. apply orb_true_iff. left. apply N.ltb_lt.
    unfold is_plain_char, is_ascii_alphabetic, is_ascii_digit in Hc.
    rewrite !orb_true_iff, !andb_true_iff, !N.leb_le, !N.eqb_eq in Hc. lia.
  - eapply Forall_impl; [done|]. intros c Hc Hin.
    rewrite !elem_of_cons, elem_of_nil in Hin. naive_solver.
Qed.

Lemma text_path_snoc root s : text_path root → plain_name s → text_path (root ++ [s]).
Proof.
  intros [Ht Hd] Hs. split; [apply Forall_app; split; [done|apply Forall_singleton; by apply plain_text_segment]|].
  destruct root; simpl; [|done]. intros ? [= <-]. by apply plain_not_is_drive.
Qed.

Lemma resolve_plain s base : plain_name s → resolve_path_against_base env s base = base ++ [s].
Proof.
  intros (H1 & H2 & H3 & Hs). unfold resolve_path_against_base, expand_home.
  assert (strip_prefix (str "~") s = None) as ->.
  { apply strip_prefix_None. intros r ->. by apply Forall_cons in Hs as [? _]. }
  unfold normalize_from. rewrite components_relative_name; [done| |done..]. by eapply plain_char_not.
Qed.

(** The directory of a root and a subpath, as the policy resolves it and as it is materialized. *)
Lemma project_root_place root subpath :
  text_path root → (∀ s, subpath = Some s → plain_name s) →
  ∃ q, match subpath with
       | Some s => res_ok (uri_join (from_abs_path root) s)
       | None => Some (from_abs_path root)
       end = Some q ∧ posix_uri q ∧
    let u := from_abs_path match subpath with
                           | Some s => resolve_path_against_base env s root
                           | None => root
                           end in
    posix_uri u ∧ key u = key q.
Proof.
  intros Ht Hs. destruct (from_abs_path_text root Ht) as [Hu Hk]. destruct subpath as [s|].
  - specialize (Hs s eq_refl). destruct (posix_join _ s Hu Hs) as (q & -> & Hq & Hkq). exists q.
    rewrite resolve_plain by done.
    destruct (from_abs_path_text (root ++ [s])) as [Hu' Hk']; [by apply text_path_snoc|].
    cbn zeta. split_and!; [done..|]. rewrite Hk', Hkq, Hk, fmap_app. simpl. by rewrite plain_encode.
  - by exists (from_abs_path root).
Qed.

(** The symbolic roots of the policy have no subpath or a plain name below them. *)
Definition plain_subpaths (p : FileSystemSandboxPolicy) : Prop :=
  ∀ e s, e ∈ entries p → entry_path e = Special (ProjectRoots (Some s)) → plain_name s.

Lemma materialized_entries p roots e' :
  e' ∈ entries (materialize_project_roots_with_workspace_roots env p roots) ↔
  ∃ e, e ∈ entries p ∧ e' ∈ materialize_entry env roots e.
Proof.
  simpl. rewrite list_elem_of_In, in_concat. split.
  - intros (l & (e & <- & He)%in_map_iff & Hin). exists e. by rewrite !list_elem_of_In.
  - intros (e & He%list_elem_of_In & Hin%list_elem_of_In). eexists. split; [by apply in_map|done].
Qed.

(** An entry of a materialized policy is one of the policy, a glob, or the path of a root. *)
Lemma materialize_entry_cases roots e e' :
  e' ∈ materialize_entry env roots e →
  e' = e ∨ (∃ g, entry_path e' = GlobPattern g) ∨
  ∃ root subpath, root ∈ roots ∧ entry_path e = Special (ProjectRoots subpath) ∧ entry_access e' = entry_access e ∧
    entry_path e' = Path (from_abs_path match subpath with
                                        | Some s => resolve_path_against_base env s root
                                        | None => root
                                        end).
Proof.
  unfold materialize_entry. destruct (entry_path e) as [u|g|[]] eqn:Ep;
    try (intros ->%list_elem_of_singleton; by left).
  - destruct (parse_project_roots_glob_pattern g); [|intros ->%list_elem_of_singleton; by left].
    intros (root & <- & _)%list_elem_of_In%in_map_iff. right; left. simpl. eauto.
  - intros (root & <- & Hr%list_elem_of_In)%list_elem_of_In%in_map_iff. right; right. simpl. eauto 10.
Qed.

Lemma materialized_context p roots context :
  posix_context p context → Forall text_path roots → plain_subpaths p →
  posix_context (materialize_project_roots_with_workspace_roots env p roots) context.
Proof.
  intros (Hc & Hh & Hres) Ht Hpl. rewrite Forall_forall in Ht.
  assert (∀ root subpath e, root ∈ roots → e ∈ entries p → entry_path e = Special (ProjectRoots subpath) →
    posix_uri (from_abs_path match subpath with
                             | Some s => resolve_path_against_base env s root
                             | None => root
                             end)) as Hpos.
  { intros root subpath e Hr He Hp. destruct (project_root_place root subpath) as (q & _ & _ & ? & _); [auto| |done].
    intros s ->. by eapply Hpl. }
  split; [done|]. split.
  - intros e' u (e & He & Hin)%materialized_entries Hu.
    destruct (materialize_entry_cases _ _ _ Hin) as [->|[[g Hg]|(root & sub & Hr & Hp & _ & Hp')]];
      [by eapply Hh|congruence|].
    rewrite Hp' in Hu. simplify_eq. destruct (Hpos root sub e Hr He Hp) as [-> _]. done.
  - intros r a (e' & (e & He & Hin)%materialized_entries & Ha & Hr & Hcv)%elem_of_resolved_entries.
    destruct (materialize_entry_cases _ _ _ Hin) as [->|[[g Hg]|(root & sub & Hrt & Hp & _ & Hp')]].
    + apply (Hres r a). apply elem_of_resolved_entries. eauto.
    + rewrite Hg in Hr. by apply elem_of_nil in Hr.
    + rewrite Hp' in Hr. apply list_elem_of_singleton in Hr as ->. left. by eapply Hpos.
Qed.

(** Materializing keeps the places to which the entries resolve. *)
Lemma materialized_places p roots context access place :
  posix_uri (cwd context) → Forall text_path roots → plain_subpaths p →
  workspace_roots context = from_abs_path <$> roots →
  resolves_to (materialize_project_roots_with_workspace_roots env p roots) context access place ↔
  resolves_to p context access place.
Proof.
  intros Hc Ht Hpl Hws. rewrite Forall_forall in Ht. unfold resolves_to.
  setoid_rewrite elem_of_resolved_entries. setoid_rewrite materialized_entries. split.
  - intros (r & (e' & (e & He & Hin) & <- & Hr & Hcv) & Hu & <-).
    destruct (materialize_entry_cases _ _ _ Hin) as [->|[[g Hg]|(root & sub & Hrt & Hp & Ha & Hp')]].
    + exists r. split; [|done]. exists e. done.
    + rewrite Hg in Hr. by apply elem_of_nil in Hr.
    + rewrite Hp' in Hr. apply list_elem_of_singleton in Hr as ->.
      destruct (project_root_place root sub) as (q & Hq & Hqu & _ & Hk); [auto|intros s ->; by eapply Hpl|].
      exists q. split; [|done]. exists e. rewrite Ha, Hp, !posix_convention by done. split_and!; [done..| |done].
      simpl. apply list_elem_of_omap. exists (from_abs_path root). split; [|done].
      rewrite Hws. by apply list_elem_of_fmap_2.
  - intros (r & (e & He & <- & Hr & Hcv) & Hu & <-). destruct (entry_path e) as [u|g|v] eqn:Hp.
    + exists r. split; [|done]. exists e. rewrite Hp. split; [|done]. exists e. split; [done|].
      unfold materialize_entry. rewrite Hp. by left.
    + by apply elem_of_nil in Hr.
    + destruct v as [| |sub| | |];
        try (exists r; split; [|done]; exists e; rewrite Hp; split; [|done]; exists e; split; [done|];
             unfold materialize_entry; rewrite Hp; by left).
      simpl in Hr. apply list_elem_of_omap in Hr as (x & Hx & Hr). rewrite Hws in Hx.
      apply list_elem_of_fmap in Hx as (root & -> & Hrt).
      destruct (project_root_place root sub) as (q & Hq & _ & Hu' & Hk); [auto|intros s ->; by eapply Hpl|].
      rewrite Hq in Hr. simplify_eq. eexists. split; [|done].
      eexists. split; [exists e; split; [done|]; unfold materialize_entry; rewrite Hp;
        apply list_elem_of_In, in_map_iff; exists root; split; [done|by apply list_elem_of_In]|].
      simpl. rewrite !posix_convention by done. split_and!; [done|by left|done].
Qed.

(** C19: on a Unix executor, replacing the symbolic workspace roots of a policy by the directories
    they stand for leaves the access of every path as it was, when the subpaths below the roots are
    plain names (letters, digits, hyphens, dots and underscores, and not a dot or two dots) and the
    roots are the workspace roots of the context, with components that are text. *)
Theorem materialize_keeps_access p roots context path :
  posix_context p context → posix_uri path → Forall text_path roots → plain_subpaths p →
  workspace_roots context = from_abs_path <$> roots →
  resolve_access (materialize_project_roots_with_workspace_roots env p roots) path context =
  resolve_access p path context.
Proof.
  intros Hctx Hp Ht Hpl Hws. destruct (decide (kind p = Restricted)) as [Hk|Hk].
  - apply posix_access_ext; try done; [by apply materialized_context|].
    intros access place. apply materialized_places; [apply Hctx|done..].
  - rewrite (decision_resolves p path context Write) by by apply decision_open.
    apply decision_resolves. by apply decision_open.
Qed.
End materialized.

(** ** Examples *)

Module ScopeExample.
Import Percent PercentText.

#[export] Instance percent_file_path_laws : FilePathLaws.
Proof.
  split; [apply _|]. intros path Ht Hd. eexists. split; [done|].
  destruct (decide (path = [])) as [->|Hne].
  { split; [|done]. split_and!; [done|done|]. apply Forall_singleton. split; apply not_elem_of_nil. }
  destruct (posix_text_url path Hne Ht Hd) as (Hu & Hk). done.
Qed.

Definition uri (segments : list rstring) : Url := {| url_host := None; url_segments := segments |}.

Definition host : Env := {| home_dir := None; current_dir := Some [str "w"] |}.

Definition context : FileSystemSandboxPolicyContext :=
  {| cwd := uri [str "w"]; workspace_roots := [from_abs_path [str "w"]; from_abs_path [str "data"]];
     user_home_dir := None; temporary_directories := None |}.

Definition policy : FileSystemSandboxPolicy :=
  restricted [new_entry (Special (ProjectRoots None)) Write;
    new_entry (Special (ProjectRoots (Some (str "secrets")))) Deny].

(** A glob library for which a pattern is the text it matches. *)
Definition literal_build (pattern : rstring) (_ _ : bool) : rstring + rstring := inr pattern.
Definition literal_match (pattern : rstring) (bytes : list N) : bool := bool_decide (encode pattern = bytes).

Lemma materialize_keeps_access_witness :
  resolve_access (materialize_project_roots_with_workspace_roots host policy [[str "w"]; [str "data"]])
    (uri [str "data"; str "secrets"]) context =
  resolve_access policy (uri [str "data"; str "secrets"]) context.
Proof.
  apply (materialize_keeps_access host policy [[str "w"]; [str "data"]] context (uri [str "data"; str "secrets"])).
  - apply posix_context_checked; by vm_compute.
  - apply posix_uri_checked. by vm_compute.
  - repeat constructor.
    all: try (unfold text_segment; apply (bool_decide_unpack _); by vm_compute).
    all: intros s [= <-] (c & _ & Hs); vm_compute in Hs; done.
  - intros e s He Hp. cbn [policy restricted entries] in He. rewrite !elem_of_cons, elem_of_nil in He. destruct He as [->|[->|[]]]; simplify_eq/=.
    unfold plain_name. apply (bool_decide_unpack _). by vm_compute.
  - done.
Defined.

Lemma read_deny_exact_witness :
  ∃ m, from_context literal_build policy context = Some m ∧
    (matches_prepared_read_deny literal_match (uri [str "w"; str "secrets"; str "key"]) context m = true ↔
     (∀ convention, infer_path_convention (cwd context) = Some convention →
        lexical_in_context context (uri [str "w"; str "secrets"; str "key"]) convention = false) ∨
     (∃ root, (root, Deny) ∈ resolved_entries policy context ∧ is_file_system_root context root = false ∧
        uri_starts_with (uri [str "w"; str "secrets"; str "key"]) root = true) ∨
     ∃ pattern, pattern ∈ deny_patterns policy ∧
       glob_denies literal_build literal_match context (uri [str "w"; str "secrets"; str "key"]) pattern).
Proof.
  apply (read_deny_exact literal_build literal_match policy context (uri [str "w"; str "secrets"; str "key"])).
  exists (new_entry (Special (ProjectRoots (Some (str "secrets")))) Deny). split; [right; by left|done].
Defined.
(** Subpaths have to be plain names.  A subpath that begins with a tilde is a name below the root
    where a policy is resolved, and lies in the home directory where the roots are materialized:
    a policy that writes there opens the home directory once it is materialized. *)
Definition tilde_policy : FileSystemSandboxPolicy :=
  restricted [new_entry (Special (ProjectRoots (Some (str "~/x")))) Write].

Definition host_with_home : Env := {| home_dir := Some [str "home"]; current_dir := Some [str "w"] |}.

Lemma tilde_subpath_escapes :
  resolve_access tilde_policy (uri [str "home"; str "x"]) context = Deny ∧
  resolve_access (materialize_project_roots_with_workspace_roots host_with_home tilde_policy [[str "w"]; [str "data"]])
    (uri [str "home"; str "x"]) context = Write.
Proof. by vm_compute. Qed.
End ScopeExample.
