(* ===== verification/PermissionProfile.v ===== *)
(** * Permission profiles and additional permissions

    [protocol/src/models.rs]: the permission profile of a conversation and the partial profiles
    that a command asks for or is granted.  [sandboxing/src/policy_transforms.rs]: checking,
    merging and intersecting partial profiles, and the policy that is in force with them.

    Arguments: those of [PermissionScope] for the globs. *)

From S2P Require Import Prelude RustStr Utf8 AbsolutePath PathUri PathText Permissions SandboxPolicy PermissionScope.

Local Open Scope nat_scope.

(** ** Profiles *)

(** A [NonZeroUsize] is a [positive]. *)
Record FileSystemPermissions := {
  fs_entries : list FileSystemSandboxEntry;
  fs_glob_depth : option positive;
}.

Definition fs_is_empty (fs : FileSystemPermissions) : bool := bool_decide (length (fs_entries fs) = 0).

Record NetworkPermissions := { enabled : option bool }.

Definition network_is_empty (n : NetworkPermissions) : bool := bool_decide (enabled n = None).

Record AdditionalPermissionProfile := {
  ap_network : option NetworkPermissions;
  ap_file_system : option FileSystemPermissions;
}.

Definition is_none {A} (o : option A) : bool := match o with None => true | Some _ => false end.

Definition ap_is_empty (p : AdditionalPermissionProfile) : bool :=
  is_none (ap_network p) && is_none (ap_file_system p).

(** [Option::filter]. *)
Definition option_filter {A} (f : A → bool) (o : option A) : option A :=
  match o with Some a => if f a then Some a else None | None => None end.

Inductive SandboxEnforcement := EnforceManaged | EnforceDisabled | EnforceExternal.

#[export] Instance SandboxEnforcement_eq_dec : EqDecision SandboxEnforcement.
Proof. solve_decision. Defined.

Inductive ManagedFileSystemPermissions :=
  | ManagedRestricted (es : list FileSystemSandboxEntry) (depth : option positive)
  | ManagedUnrestricted.

Inductive PermissionProfile :=
  | Managed (file_system : ManagedFileSystemPermissions) (network : NetworkSandboxPolicy)
  | Disabled
  | External (network : NetworkSandboxPolicy).

(** [NonZeroUsize::new]. *)
Definition non_zero (n : N) : option positive := match n with N0 => None | Npos p => Some p end.

(** [ManagedFileSystemPermissions::from_sandbox_policy]. *)
Definition managed_from_policy (p : FileSystemSandboxPolicy) : res unit ManagedFileSystemPermissions :=
  match kind p with
  | Restricted => Ok (ManagedRestricted (entries p) (glob_scan_max_depth p ≫= non_zero))
  | Unrestricted => Ok ManagedUnrestricted
  | ExternalSandbox => Panic
  end.

(** [ManagedFileSystemPermissions::to_sandbox_policy]. *)
Definition managed_to_policy (m : ManagedFileSystemPermissions) : FileSystemSandboxPolicy :=
  match m with
  | ManagedRestricted es depth =>
      {| kind := Restricted; glob_scan_max_depth := Npos <$> depth; entries := es |}
  | ManagedUnrestricted => Permissions.unrestricted
  end.

Definition from_runtime_permissions_with_enforcement (enforcement : SandboxEnforcement)
    (fs : FileSystemSandboxPolicy) (network : NetworkSandboxPolicy) : res unit PermissionProfile :=
  let managed := let? m := managed_from_policy fs in Ok (Managed m network) in
  match kind fs with
  | ExternalSandbox => Ok (External network)
  | Unrestricted => if decide (enforcement = EnforceDisabled) then Ok Disabled else managed
  | Restricted => managed
  end.

Definition from_runtime_permissions (fs : FileSystemSandboxPolicy) (network : NetworkSandboxPolicy)
    : res unit PermissionProfile :=
  from_runtime_permissions_with_enforcement
    match kind fs with ExternalSandbox => EnforceExternal | _ => EnforceManaged end fs network.

Definition enforcement (p : PermissionProfile) : SandboxEnforcement :=
  match p with Managed _ _ => EnforceManaged | Disabled => EnforceDisabled | External _ => EnforceExternal end.

Definition file_system_sandbox_policy (p : PermissionProfile) : FileSystemSandboxPolicy :=
  match p with
  | Managed file_system _ => managed_to_policy file_system
  | Disabled => Permissions.unrestricted
  | External _ => external_sandbox
  end.

Definition network_sandbox_policy (p : PermissionProfile) : NetworkSandboxPolicy :=
  match p with Managed _ network | External network => network | Disabled => NetworkEnabled end.

Definition to_runtime_permissions (p : PermissionProfile) : FileSystemSandboxPolicy * NetworkSandboxPolicy :=
  (file_system_sandbox_policy p, network_sandbox_policy p).

(** Write access becomes read access. *)
Definition demote (a : FileSystemAccessMode) : FileSystemAccessMode :=
  match a with Read | Write => Read | Deny => Deny end.

Definition demote_entry (e : FileSystemSandboxEntry) : FileSystemSandboxEntry :=
  {| entry_path := entry_path e; entry_access := demote (entry_access e);
     missing_path_behavior := missing_path_behavior e |}.

Definition intersect_with_read_only (p : PermissionProfile) : res unit (option PermissionProfile) :=
  let fs := file_system_sandbox_policy p in
  match kind fs with
  | Restricted =>
      let? q := from_runtime_permissions (set_entries (map demote_entry (entries fs)) fs) NetworkRestricted in
      Ok (Some q)
  | Unrestricted => let? q := from_runtime_permissions read_only NetworkRestricted in Ok (Some q)
  | ExternalSandbox => Ok None
  end.

(** [SandboxEnforcement::from_legacy_sandbox_policy]. *)
Definition enforcement_from_legacy (p : SandboxPolicy) : SandboxEnforcement :=
  match p with
  | DangerFullAccess => EnforceDisabled
  | ExternalSandboxPolicy _ => EnforceExternal
  | ReadOnly _ | WorkspaceWrite _ _ _ _ => EnforceManaged
  end.

(** ** Depth of glob scans *)

Inductive GlobScanDepth := Bounded (depth : N) | Unbounded.

Definition is_deny_glob (e : FileSystemSandboxEntry) : bool :=
  bool_decide (entry_access e = Deny) && match entry_path e with GlobPattern _ => true | _ => false end.

Definition effective_glob_scan_depth (es : list FileSystemSandboxEntry) (depth : option N) : option GlobScanDepth :=
  if existsb is_deny_glob es
  then Some match depth with Some depth => Bounded depth | None => Unbounded end else None.

Definition merge_glob_scan_max_depth (left_entries : list FileSystemSandboxEntry) (left_depth : option N)
    (right_entries : list FileSystemSandboxEntry) (right_depth : option N) : option N :=
  match effective_glob_scan_depth left_entries left_depth,
        effective_glob_scan_depth right_entries right_depth with
  | Some Unbounded, _ | _, Some Unbounded => None
  | Some (Bounded l), Some (Bounded r) => Some (N.max l r)
  | Some (Bounded d), None | None, Some (Bounded d) => Some d
  | None, None => None
  end.

Definition access_covers (requested granted : FileSystemAccessMode) : bool :=
  match granted with Read => can_read requested | Write => can_write requested | Deny => false end.

Definition is_root_entry (e : FileSystemSandboxEntry) : bool :=
  match entry_path e with Special Root => true | _ => false end.

(** The text before the first wildcard, if there is one. *)
Fixpoint before_wildcard (pattern : rstring) : option rstring :=
  match pattern with
  | [] => None
  | c :: pattern =>
      if bool_decide (c ∈ [42; 63; 91; 93]%N) then Some [] else cons c <$> before_wildcard pattern
  end.

Section profiles.
Context `{UrlLib}.

(** ** Checking a partial profile *)

(** The loop of [normalize_additional_permissions]. *)
Fixpoint normalize_entries (es kept : list FileSystemSandboxEntry) : res rstring (list FileSystemSandboxEntry) :=
  match es with
  | [] => Ok kept
  | e :: es =>
      match entry_path e with
      | GlobPattern _ =>
          if decide (entry_access e ≠ Deny)
          then Err (str "glob file system permissions only support deny-read entries")
          else normalize_entries es (push_missing kept e)
      | _ => normalize_entries es (push_missing kept e)
      end
  end.

Definition normalize_additional_permissions (p : AdditionalPermissionProfile)
    : res rstring AdditionalPermissionProfile :=
  let network := option_filter (λ n, negb (network_is_empty n)) (ap_network p) in
  let? file_system :=
    match ap_file_system p with
    | Some fs =>
        let? es := normalize_entries (fs_entries fs) [] in
        Ok (option_filter (λ fs, negb (fs_is_empty fs)) (Some {| fs_entries := es; fs_glob_depth := fs_glob_depth fs |}))
    | None => Ok None
    end in
  Ok {| ap_network := network; ap_file_system := file_system |}.

(** A path that does not fit the executor. *)
Definition path_mismatch (context : FileSystemSandboxPolicyContext) (path : Url) : bool :=
  is_none (infer_path_convention path) ||
  bool_decide (infer_path_convention path ≠ infer_path_convention (cwd context)) ||
  match uri_join path (str ".") with Ok _ => false | _ => true end.

Fixpoint check_paths (context : FileSystemSandboxPolicyContext) (es : list FileSystemSandboxEntry) : res rstring unit :=
  match es with
  | [] => Ok tt
  | e :: es =>
      match entry_path e with
      | Path path =>
          if path_mismatch context path
          then Err (str "permission path `" ++ to_string path ++ str "` does not match executor cwd `" ++
                    to_string (cwd context) ++ str "`")
          else check_paths context es
      | _ => check_paths context es
      end
  end.

Definition normalize_additional_permissions_with_context (p : AdditionalPermissionProfile)
    (context : FileSystemSandboxPolicyContext) : res rstring AdditionalPermissionProfile :=
  let? normalized := normalize_additional_permissions p in
  let? _ := match ap_file_system normalized with
            | Some fs => check_paths context (fs_entries fs)
            | None => Ok tt
            end in
  Ok normalized.

(** ** Resolving entries *)

Definition resolve_permission_path (path : FileSystemPath) (context : FileSystemSandboxPolicyContext) : option Url :=
  match path with
  | Path path => Some path
  | GlobPattern _ => None
  | Special Root => file_system_root context
  | Special (ProjectRoots subpath) =>
      root ← head (workspace_roots context);
      match subpath with
      | Some subpath => res_ok (uri_join root subpath)
      | None => Some root
      end
  | Special Tmpdir => dirs ← temporary_directories context; head dirs
  | Special SlashTmp =>
      if decide (infer_path_convention (cwd context) = Some Posix)
      then res_ok (uri_join (cwd context) (str "/tmp")) else None
  | Special (Minimal | Unknown _ _) => None
  end.

Definition materialize_cwd_dependent_entry (e : FileSystemSandboxEntry) (context : FileSystemSandboxPolicyContext)
    : option FileSystemSandboxEntry :=
  match entry_path e with
  | GlobPattern pattern =>
      let is_windows := bool_decide (infer_path_convention (cwd context) = Some Windows) in
      target ← match home_relative is_windows pattern with
               | Some suffix =>
                   home ← user_home_dir context;
                   Some (home, trim_start_matches (λ c, (c =? SLASH)%N || is_windows && (c =? BACKSLASH)%N) suffix)
               | None => Some (cwd context, pattern)
               end;
      path ← res_ok (uri_join target.1 target.2);
      Some (set_path (GlobPattern (inferred_native_path_string path)) e)
  | _ => Some e
  end.

Definition set_workspace_roots (roots : list Url) (context : FileSystemSandboxPolicyContext)
    : FileSystemSandboxPolicyContext :=
  {| cwd := cwd context; workspace_roots := roots; user_home_dir := user_home_dir context;
     temporary_directories := temporary_directories context |}.

(** The loop over the workspace roots: a denial that does not resolve is a failure. *)
Fixpoint materialize_roots (e : FileSystemSandboxEntry) (context : FileSystemSandboxPolicyContext) (roots : list Url)
    : option (list FileSystemSandboxEntry) :=
  match roots with
  | [] => Some []
  | root :: roots =>
      match resolve_permission_path (entry_path e) (set_workspace_roots [root] context) with
      | Some path => cons (set_path (Path path) e) <$> materialize_roots e context roots
      | None => if decide (entry_access e = Deny) then None else materialize_roots e context roots
      end
  end.

Definition materialize_context_entry (context : FileSystemSandboxPolicyContext) (e : FileSystemSandboxEntry)
    : option (list FileSystemSandboxEntry) :=
  match entry_path e with
  | Special (ProjectRoots _) =>
      resolved ← materialize_roots e context (workspace_roots context);
      if bool_decide (entry_access e = Deny) && bool_decide (length resolved = 0) then None else Some resolved
  | Special Tmpdir =>
      match temporary_directories context with
      | None => if decide (entry_access e = Deny) then None else Some [e]
      | Some dirs => Some (map (λ path, set_path (Path path) e) dirs)
      end
  | Special Root => _ ← resolve_permission_path (entry_path e) context; Some [e]
  | _ =>
      match materialize_cwd_dependent_entry e context with
      | Some e => Some [e]
      | None => if decide (entry_access e = Deny) then None else Some []
      end
  end.

Fixpoint materialize_context_dependent_entries (es : list FileSystemSandboxEntry)
    (context : FileSystemSandboxPolicyContext) : option (list FileSystemSandboxEntry) :=
  match es with
  | [] => Some []
  | e :: es =>
      l ← materialize_context_entry context e;
      app l <$> materialize_context_dependent_entries es context
  end.

Definition materialize_additional_permissions_with_context (p : AdditionalPermissionProfile)
    (context : FileSystemSandboxPolicyContext) : res rstring AdditionalPermissionProfile :=
  let? p :=
    match ap_file_system p with
    | Some fs =>
        let? es := ok_or (str "unable to resolve permission path in `" ++ to_string (cwd context) ++ str "`")
          (materialize_context_dependent_entries (fs_entries fs) context) in
        Ok {| ap_network := ap_network p;
              ap_file_system := Some {| fs_entries := es; fs_glob_depth := fs_glob_depth fs |} |}
    | None => Ok p
    end in
  normalize_additional_permissions_with_context p context.

(** ** Merging *)

Definition merge_permission_entries (base permissions : list FileSystemSandboxEntry) : list FileSystemSandboxEntry :=
  foldl push_missing [] (base ++ permissions).

Definition network_enabled (n : option NetworkPermissions) : bool :=
  match n with Some {| enabled := Some true |} => true | _ => false end.

Definition merge_permission_profiles (base permissions : option AdditionalPermissionProfile)
    : option AdditionalPermissionProfile :=
  match permissions, base with
  | None, _ => base
  | Some permissions, None => option_filter (λ p, negb (ap_is_empty p)) (Some permissions)
  | Some permissions, Some base =>
      let network :=
        if network_enabled (ap_network base) || network_enabled (ap_network permissions)
        then Some {| enabled := Some true |} else None in
      let file_system :=
        match ap_file_system base, ap_file_system permissions with
        | Some b, Some p =>
            option_filter (λ fs, negb (fs_is_empty fs)) (Some
              {| fs_entries := merge_permission_entries (fs_entries b) (fs_entries p);
                 fs_glob_depth := merge_glob_scan_max_depth (fs_entries b) (Npos <$> fs_glob_depth b)
                   (fs_entries p) (Npos <$> fs_glob_depth p) ≫= non_zero |})
        | Some b, None => Some b
        | None, o => o
        end in
      option_filter (λ p, negb (ap_is_empty p)) (Some {| ap_network := network; ap_file_system := file_system |})
  end.

(** ** Intersecting *)

Definition glob_static_prefix_path (pattern : rstring) (context : FileSystemSandboxPolicyContext) : option Url :=
  let is_windows := bool_decide (infer_path_convention (cwd context) = Some Windows) in
  match before_wildcard pattern with
  | Some [] => None
  | Some prefix =>
      path ← res_ok (uri_join (cwd context) prefix);
      if ends_with prefix [SLASH] || is_windows && ends_with prefix [BACKSLASH] then Some path else parent path
  | None => res_ok (uri_join (cwd context) pattern)
  end.

Definition paths_overlap (l r : Url) : bool := default true (overlaps l r).

(** A grant that a denial may reach into. *)
Definition deny_constrains (deny : FileSystemSandboxEntry) (context : FileSystemSandboxPolicyContext)
    (e : FileSystemSandboxEntry) : bool :=
  if is_root_entry e then true
  else
    match resolve_permission_path (entry_path e) context with
    | None => true
    | Some grant_path =>
        match match entry_path deny with
              | GlobPattern pattern => glob_static_prefix_path pattern context
              | path => resolve_permission_path path context
              end with
        | None => true
        | Some deny_path => paths_overlap deny_path grant_path
        end
    end.

Definition deny_entry_constrains_accepted_grant (deny : FileSystemSandboxEntry)
    (accepted_entries : list FileSystemSandboxEntry) (context : FileSystemSandboxPolicyContext) : bool :=
  existsb (λ e, can_read (entry_access e) && deny_constrains deny context e) accepted_entries.

(** The entries that [retain_constraining_deny_entries] returns, and pushes where they are missing. *)
Definition retained_deny_entries (source accepted_entries : list FileSystemSandboxEntry)
    (context : FileSystemSandboxPolicyContext) : list FileSystemSandboxEntry :=
  filter (λ e, entry_access e = Deny ∧ deny_entry_constrains_accepted_grant e accepted_entries context = true) source.

Context {Glob : Type}.
Context (glob_build : rstring → bool → bool → rstring + Glob) (glob_is_match : Glob → list N → bool).

Definition granted_file_system_entry_within_request (requested : FileSystemPermissions)
    (requested_policy : FileSystemSandboxPolicy) (matcher : option (@PreparedReadDenyMatcher Glob))
    (context : FileSystemSandboxPolicyContext) (e : FileSystemSandboxEntry) : bool :=
  let convention := infer_path_convention (cwd context) in
  if negb (can_read (entry_access e)) ||
     match entry_path e with Special SlashTmp => bool_decide (convention ≠ Some Posix) | _ => false end then false
  else if bool_decide (convention = Some Windows) && is_root_entry e &&
          negb (existsb (λ r, is_root_entry r && access_covers (entry_access r) (entry_access e)) (fs_entries requested))
  then false
  else
    match resolve_permission_path (entry_path e) context with
    | Some path =>
        if bool_decide (infer_path_convention path ≠ convention) ||
           match matcher with
           | Some m => matches_prepared_read_deny glob_is_match path context m
           | None => false
           end
        then false
        else access_covers (resolve_access requested_policy path context) (entry_access e)
    | None =>
        existsb (λ r, access_covers (entry_access r) (entry_access e) && path_eq (entry_path r) (entry_path e))
          (fs_entries requested)
    end.

Definition no_permissions : FileSystemPermissions := {| fs_entries := []; fs_glob_depth := None |}.

(** The part of [intersect_permission_profiles_with_context] on files. *)
Definition intersect_file_systems (requested granted : FileSystemPermissions) (context : FileSystemSandboxPolicyContext)
    : option FileSystemPermissions :=
  requested_entries ← materialize_context_dependent_entries (fs_entries requested) context;
  granted_entries ← materialize_context_dependent_entries (fs_entries granted) context;
  let requested_policy := restricted requested_entries in
  let matcher := from_context glob_build requested_policy context in
  let accepted := foldl push_missing []
    (filter (λ e, granted_file_system_entry_within_request requested requested_policy matcher context e = true)
      granted_entries) in
  let requested_retained := retained_deny_entries requested_entries accepted context in
  let granted_retained := retained_deny_entries granted_entries accepted context in
  Some {| fs_entries := foldl push_missing accepted (requested_retained ++ granted_retained);
          fs_glob_depth := merge_glob_scan_max_depth requested_retained (Npos <$> fs_glob_depth requested)
            granted_retained (Npos <$> fs_glob_depth granted) ≫= non_zero |}.

Definition intersect_permission_profiles_with_context (requested granted : AdditionalPermissionProfile)
    (context : FileSystemSandboxPolicyContext) : AdditionalPermissionProfile :=
  {| ap_network :=
       if network_enabled (ap_network requested) && network_enabled (ap_network granted)
       then Some {| enabled := Some true |} else None;
     ap_file_system := option_filter (λ fs, negb (fs_is_empty fs))
       (fs ← ap_file_system requested;
        intersect_file_systems fs (default no_permissions (ap_file_system granted)) context) |}.

(** ** The policy in force *)

Definition merge_file_system_policy_with_additional_permissions (p : FileSystemSandboxPolicy)
    (additional : FileSystemPermissions) : FileSystemSandboxPolicy :=
  match kind p with
  | Restricted =>
      {| kind := kind p;
         glob_scan_max_depth := merge_glob_scan_max_depth (entries p) (glob_scan_max_depth p)
           (fs_entries additional) (Npos <$> fs_glob_depth additional);
         entries := foldl push_missing (entries p) (fs_entries additional) |}
  | Unrestricted | ExternalSandbox => p
  end.

Definition effective_file_system_sandbox_policy (p : FileSystemSandboxPolicy)
    (additional : option AdditionalPermissionProfile) : FileSystemSandboxPolicy :=
  match additional ≫= ap_file_system with
  | Some fs => if fs_is_empty fs then p else merge_file_system_policy_with_additional_permissions p fs
  | None => p
  end.

Definition merge_network_access (base : bool) (additional : AdditionalPermissionProfile) : bool :=
  base || default false (ap_network additional ≫= enabled).

Definition effective_network_sandbox_policy (network : NetworkSandboxPolicy)
    (additional : option AdditionalPermissionProfile) : NetworkSandboxPolicy :=
  match additional with
  | Some p => if merge_network_access (network_is_enabled network) p then NetworkEnabled else NetworkRestricted
  | None => network
  end.

Definition effective_permission_profile (p : PermissionProfile) (additional : option AdditionalPermissionProfile)
    : res unit PermissionProfile :=
  let '(fs, network) := to_runtime_permissions p in
  from_runtime_permissions_with_enforcement (enforcement p)
    (effective_file_system_sandbox_policy fs additional) (effective_network_sandbox_policy network additional).

Definition should_require_platform_sandbox (p : FileSystemSandboxPolicy) (network : NetworkSandboxPolicy)
    (has_managed_network_requirements : bool) : bool :=
  if has_managed_network_requirements then true
  else if negb (network_is_enabled network) then bool_decide (kind p ≠ ExternalSandbox)
  else
    match kind p with
    | Restricted => negb (has_full_disk_write_access p)
    | Unrestricted | ExternalSandbox => false
    end.
End profiles.

(** ** Materialised entries *)

Section materialized.
Context `{UrlLib}.

Lemma materialize_roots_resolved e context subpath roots l :
  entry_path e = Special (ProjectRoots subpath) → materialize_roots e context roots = Some l →
  concat (map (resolved_entry context) l) =
  map (λ path, (path, entry_access e))
    (filter (λ path, infer_path_convention path = infer_path_convention (cwd context))
      (omap (λ root, match subpath with
                     | Some subpath => res_ok (uri_join root subpath)
                     | None => Some root
                     end) roots)).
Proof.
  intros He. revert l. induction roots as [|root roots IH]; intros l; cbn [materialize_roots omap list_omap].
  { by intros [= <-]. }
  rewrite He. cbn [resolve_permission_path set_workspace_roots workspace_roots head mbind option_bind].
  destruct (match subpath with Some _ => _ | None => _ end) as [path|].
  - destruct (materialize_roots e context roots) as [l'|] eqn:E; intros [= <-].
    cbn [map concat]. rewrite (IH l' eq_refl). unfold resolved_entry at 1. cbn [entry_path set_path resolve_path].
    rewrite !filter_cons, filter_nil. case_decide; done.
  - case_decide; [done|]. apply IH.
Qed.

Lemma materialize_roots_paths e context roots l e' :
  materialize_roots e context roots = Some l → e' ∈ l → ∃ path, e' = set_path (Path path) e.
Proof.
  revert l. induction roots as [|root roots IH]; intros l; cbn [materialize_roots].
  { intros [= <-] []%elem_of_nil. }
  destruct (resolve_permission_path _ _) as [path|].
  - destruct (materialize_roots e context roots) as [l'|]; intros [= <-].
    intros [->|Hin]%elem_of_cons; [by eexists|by eapply IH].
  - case_decide; [done|]. apply IH.
Qed.

(** A materialised entry resolves to at most one place, the one that is compared. *)
Lemma materialized_resolves context e l e' r :
  materialize_context_entry context e = Some l → e' ∈ l → r ∈ resolve_path context (entry_path e') →
  resolve_permission_path (entry_path e') context = Some r.
Proof.
  unfold materialize_context_entry, materialize_cwd_dependent_entry. intros Hm Hin Hr.
  destruct (entry_path e) as [u|g|[]] eqn:Ep.
  - simplify_eq. apply list_elem_of_singleton in Hin as ->. rewrite Ep in *. apply list_elem_of_singleton in Hr as ->. done.
  - destruct (_ ≫= _) as [e''|] eqn:E in Hm; [|case_decide; simplify_eq; by apply elem_of_nil in Hin].
    simplify_eq. apply list_elem_of_singleton in Hin as ->. apply bind_Some in E as (t & _ & E).
    apply bind_Some in E as (q & _ & [= <-]). by apply elem_of_nil in Hr.
  - apply bind_Some in Hm as (q & Hq & [= <-]). apply list_elem_of_singleton in Hin as ->. rewrite Ep in *.
    cbn in *. rewrite Hq in *. apply list_elem_of_singleton in Hr as ->. done.
  - simplify_eq. apply list_elem_of_singleton in Hin as ->. rewrite Ep in Hr. by apply elem_of_nil in Hr.
  - apply bind_Some in Hm as (l' & Hl & Hm). destruct (_ && _); simplify_eq.
    destruct (materialize_roots_paths _ _ _ _ _ Hl Hin) as (q & ->). apply list_elem_of_singleton in Hr as ->. done.
  - destruct (temporary_directories context) as [dirs|] eqn:Ed.
    + simplify_eq. apply list_elem_of_In, in_map_iff in Hin as (q & <- & _).
      apply list_elem_of_singleton in Hr as ->. done.
    + case_decide; simplify_eq. apply list_elem_of_singleton in Hin as ->. rewrite Ep in Hr. cbn in Hr.
      rewrite Ed in Hr. by apply elem_of_nil in Hr.
  - simplify_eq. apply list_elem_of_singleton in Hin as ->. rewrite Ep in *. cbn in *. case_decide; [|by apply elem_of_nil in Hr].
    destruct (res_ok _); [|by apply elem_of_nil in Hr]. apply list_elem_of_singleton in Hr as ->. done.
  - simplify_eq. apply list_elem_of_singleton in Hin as ->. rewrite Ep in Hr. by apply elem_of_nil in Hr.
Qed.

(** Materialising an entry keeps where it resolves to. *)
Lemma materialized_entry_resolved context e l :
  materialize_context_entry context e = Some l → concat (map (resolved_entry context) l) = resolved_entry context e.
Proof.
  unfold materialize_context_entry, materialize_cwd_dependent_entry. intros Hm.
  destruct (entry_path e) as [u|g|[]] eqn:Ep;
    try (simplify_eq; cbn [map concat]; by rewrite app_nil_r).
  - unfold resolved_entry at 2. rewrite Ep. cbn [resolve_path].
    destruct (_ ≫= _) as [e''|] eqn:E in Hm; [|case_decide; by simplify_eq].
    simplify_eq. apply bind_Some in E as (t & _ & E). by apply bind_Some in E as (q & _ & [= <-]).
  - apply bind_Some in Hm as (q & _ & [= <-]). cbn [map concat]. by rewrite app_nil_r.
  - apply bind_Some in Hm as (l' & Hl & Hm). destruct (_ && _); simplify_eq.
    rewrite (materialize_roots_resolved _ _ _ _ _ Ep Hl). unfold resolved_entry. by rewrite Ep.
  - destruct (temporary_directories context) as [dirs|] eqn:Ed.
    + simplify_eq. unfold resolved_entry at 2. rewrite Ep. cbn [resolve_path resolve_special]. rewrite Ed. cbn [default id].
      clear Ed. induction dirs as [|d dirs IH]; [done|]. cbn [map concat]. rewrite IH. unfold resolved_entry.
      cbn [entry_path set_path resolve_path]. rewrite !filter_cons, filter_nil. case_decide; done.
    + case_decide; simplify_eq. cbn [map concat]. by rewrite app_nil_r.
Qed.

Lemma materialized_resolved context es es' :
  materialize_context_dependent_entries es context = Some es' →
  resolved_entries (restricted es') context = resolved_entries (restricted es) context.
Proof.
  unfold resolved_entries. cbn [entries restricted]. revert es'.
  induction es as [|e es IH]; intros es'; cbn [materialize_context_dependent_entries]; [by intros [= <-]|].
  intros (l & Hl & Hm)%bind_Some. apply fmap_Some in Hm as (l' & Hl' & ->).
  rewrite map_app, concat_app. cbn [map concat]. by rewrite (IH l' Hl'), (materialized_entry_resolved _ _ _ Hl).
Qed.

(** Materialising keeps the access of every path. *)
Lemma materialized_access context es es' path :
  materialize_context_dependent_entries es context = Some es' →
  resolve_access (restricted es') path context = resolve_access (restricted es) path context.
Proof. intros Hm. unfold resolve_access. by rewrite (materialized_resolved _ _ _ Hm). Qed.

Lemma materialized_elem context es es' e' r :
  materialize_context_dependent_entries es context = Some es' → e' ∈ es' →
  r ∈ resolve_path context (entry_path e') → resolve_permission_path (entry_path e') context = Some r.
Proof.
  revert es'. induction es as [|e es IH]; intros es'; cbn [materialize_context_dependent_entries].
  { intros [= <-] []%elem_of_nil. }
  intros (l & Hl & Hm)%bind_Some. apply fmap_Some in Hm as (l' & Hl' & ->).
  intros [Hin|Hin]%elem_of_app; [by eapply materialized_resolves|by eapply IH].
Qed.
End materialized.

(** The policy of the files of a partial profile. *)
Definition profile_policy (p : AdditionalPermissionProfile) : FileSystemSandboxPolicy :=
  restricted match ap_file_system p with Some fs => fs_entries fs | None => [] end.

(** ** Checking *)

Section normalize.
Context `{UrlLaws}.

(** What an entry of a partial profile must satisfy: a pattern denies, and a path has the
    convention of the executor and is not opaque. *)
Definition glob_denial (e : FileSystemSandboxEntry) : Prop :=
  match entry_path e with GlobPattern _ => entry_access e = Deny | _ => True end.

Definition path_fits (context : FileSystemSandboxPolicyContext) (e : FileSystemSandboxEntry) : Prop :=
  match entry_path e with
  | Path path =>
      is_Some (infer_path_convention path) ∧
      infer_path_convention path = infer_path_convention (cwd context) ∧ is_opaque path = false
  | _ => True
  end.

(** What every [PathUri] satisfies, since [TryFrom<Url>] refuses the others: only an opaque path has
    a NUL. *)
Definition uri_checked (u : Url) : Prop := 0%N ∈ decoded_path_bytes u → is_opaque u = true.

Definition entry_checked (e : FileSystemSandboxEntry) : Prop := ∀ u, entry_path e = Path u → uri_checked u.

Lemma join_trailing_empty segs :
  segs ≠ [] → join [SLASH] (segs ++ [[]]) = join [SLASH] segs ++ SLASH :: [].
Proof.
  induction segs as [|x segs IH]; [done|]. intros _. destruct segs as [|y segs]; [done|].
  cbn [app]. rewrite !(join_cons _ x) by done. cbn [app] in IH. rewrite IH by done. by rewrite <-!app_assoc.
Qed.

Lemma decoded_pop u :
  0%N ∉ decoded_path_bytes u →
  0%N ∉ decoded_path_bytes (set_segments (segments_pop_if_empty (url_segments u)) u).
Proof.
  unfold decoded_path_bytes, encoded_path. cbn [url_segments set_segments].
  rewrite segments_pop_if_empty_spec. case_decide as Hl; [|done]. destruct Hl as [Hlen Hlast].
  destruct (url_segments u) as [|x segs _] using rev_ind; [done|].
  rewrite last_snoc in Hlast. injection Hlast as ->. rewrite removelast_last.
  rewrite join_trailing_empty by (intros ->; simpl in Hlen; lia).
  rewrite app_comm_cons, decode_binary_slash. set_solver.
Qed.

(** Joining a dot tells whether a path is opaque. *)
Lemma join_dot u convention :
  infer_path_convention u = Some convention → uri_checked u →
  match uri_join u (str ".") with Ok _ => is_opaque u = false | _ => is_opaque u = true end.
Proof.
  intros Hc Hu. unfold uri_join. rewrite decide_False by (apply (bool_decide_unpack _); by vm_compute).
  rewrite decide_False by done. rewrite Hc. cbn [ok_or res_bind].
  assert (from_absolute_native_path (str ".") convention = None) as -> by by destruct convention; vm_compute.
  unfold join_relative.
  assert ((if decide (convention = Windows) then same_drive_rest u (str ".") else Ok (str ".")) =
    Ok (E := PathUriParseError) (str ".")) as -> by by case_decide.
  cbn [res_bind]. destruct (is_opaque u) eqn:Ho; [done|].
  rewrite decide_False by (intros [_ Hr]; by vm_compute in Hr).
  assert (path_segments convention (str ".") = [str "."]) as -> by by destruct convention; vm_compute.
  cbn [foldl join_component]. rewrite decide_True by by right.
  unfold try_from_url. rewrite bool_decide_eq_false_2; [done|]. apply decoded_pop. intros Hnul%Hu. congruence.
Qed.

Lemma path_mismatch_fits context u e :
  entry_path e = Path u → uri_checked u → path_mismatch context u = false ↔ path_fits context e.
Proof.
  intros He Hu. unfold path_fits, path_mismatch. rewrite He, !orb_false_iff.
  destruct (infer_path_convention u) as [convention|] eqn:Hc; cbn [is_none].
  2:{ split; [by intros [[? _] _]|by intros [[? ?] _]]. }
  pose proof (join_dot u convention Hc Hu) as Hj. rewrite bool_decide_eq_false.
  destruct (uri_join u (str ".")); rewrite Hj; split.
  - intros [[_ Hd] _]. split_and!; [by eexists| |done]. by destruct (decide (Some convention = infer_path_convention (cwd context))).
  - intros (_ & Hd & _). split_and!; [done| |done]. tauto.
  - by intros [_ ?].
  - by intros (_ & _ & ?).
  - by intros [_ ?].
  - by intros (_ & _ & ?).
Qed.

Lemma normalize_entries_cases es kept :
  match normalize_entries es kept with
  | Ok l => l = foldl push_missing kept es ∧ Forall glob_denial es
  | Err _ => ∃ e, e ∈ es ∧ ¬ glob_denial e
  | Panic => False
  end.
Proof.
  revert kept. induction es as [|e es IH]; intros kept; cbn [normalize_entries foldl]; [done|].
  assert (glob_denial e → match normalize_entries es (push_missing kept e) with
    | Ok l => l = foldl push_missing (push_missing kept e) es ∧ Forall glob_denial (e :: es)
    | Err _ => ∃ e0, e0 ∈ e :: es ∧ ¬ glob_denial e0
    | Panic => False
    end) as Hgo.
  { intros He. specialize (IH (push_missing kept e)). destruct (normalize_entries es _) as [l|m|]; [|destruct IH as (x & ? & ?)|done].
    - destruct IH. split; [done|by constructor].
    - exists x. split; [by right|done]. }
  unfold glob_denial at 1 in Hgo. destruct (entry_path e) eqn:Ep; [by apply Hgo| |by apply Hgo].
  case_decide as Hd; [|apply Hgo; by destruct (decide (entry_access e = Deny))].
  exists e. split; [by left|]. unfold glob_denial. by rewrite Ep.
Qed.

Lemma check_paths_cases context es :
  Forall entry_checked es →
  match check_paths context es with
  | Ok _ => Forall (path_fits context) es
  | Err _ => ∃ e, e ∈ es ∧ ¬ path_fits context e
  | Panic => False
  end.
Proof.
  induction 1 as [|e es Hch _ IH]; cbn [check_paths]; [done|].
  assert (path_fits context e → match check_paths context es with
    | Ok _ => Forall (path_fits context) (e :: es)
    | Err _ => ∃ e0, e0 ∈ e :: es ∧ ¬ path_fits context e0
    | Panic => False
    end) as Hgo.
  { intros He. destruct (check_paths context es) as [l|m|]; [by constructor| |done].
    destruct IH as (x & ? & ?). exists x. split; [by right|done]. }
  destruct (entry_path e) as [u| |] eqn:Ep; [|by apply Hgo; unfold path_fits; rewrite Ep..].
  pose proof (path_mismatch_fits context u e Ep (Hch u Ep)) as Hm.
  destruct (path_mismatch context u) eqn:Em; [|by apply Hgo, Hm].
  exists e. split; [by left|]. intros Hf%Hm. done.
Qed.

(** No entry equals an earlier one. *)
Fixpoint distinct (es : list FileSystemSandboxEntry) : Prop :=
  match es with
  | [] => True
  | e :: es => Forall (λ e', entry_eq e e' = false) es ∧ distinct es
  end.

Lemma distinct_snoc es e :
  distinct (es ++ [e]) ↔ distinct es ∧ existsb (λ entry, entry_eq entry e) es = false.
Proof.
  induction es as [|x es IH]; cbn [app distinct existsb]; [by rewrite Forall_nil|].
  rewrite Forall_app, Forall_singleton, IH, orb_false_iff. naive_solver.
Qed.

Lemma push_missing_distinct ds es : distinct es → distinct (foldl push_missing es ds).
Proof.
  revert es. induction ds as [|d ds IH]; intros es He; [done|]. cbn [foldl]. apply IH. unfold push_missing.
  destruct (existsb _ es) eqn:E; [done|]. by apply distinct_snoc.
Qed.

Lemma distinct_prefix l k : distinct (l ++ k) → distinct l.
Proof. induction l as [|x l IH]; [done|]. cbn. intros [Hx%Forall_app Hd]. split; [apply Hx|by apply IH]. Qed.

(** Collecting distinct entries changes nothing. *)
Lemma distinct_kept es kept : distinct (kept ++ es) → foldl push_missing kept es = kept ++ es.
Proof.
  revert kept. induction es as [|e es IH]; intros kept Hd; cbn [foldl]; [by rewrite app_nil_r|].
  rewrite cons_middle, app_assoc in Hd |- *. unfold push_missing at 2.
  pose proof (distinct_prefix _ _ Hd) as Hs. apply distinct_snoc in Hs as [_ ->]. by apply IH.
Qed.

Lemma push_missing_sublist es : foldl push_missing [] es `sublist_of` es.
Proof.
  assert (∀ kept, foldl push_missing kept es `sublist_of` kept ++ es) as Hgo; [|apply (Hgo [])].
  induction es as [|e es IH]; intros kept; cbn [foldl]; [by rewrite app_nil_r|].
  unfold push_missing at 2. destruct (existsb _ kept).
  - trans (kept ++ es); [apply IH|]. by apply sublist_app, sublist_cons.
  - specialize (IH (kept ++ [e])). by rewrite <-app_assoc in IH.
Qed.

Lemma push_missing_sub es e : e ∈ foldl push_missing [] es → e ∈ es.
Proof. destruct (push_missing_fold es []) as (extra & -> & Hin & _). apply Hin. Qed.

(** Checked entries pass the check unchanged. *)
Lemma normalize_entries_kept es :
  Forall glob_denial es → normalize_entries (foldl push_missing [] es) [] = Ok (foldl push_missing [] es).
Proof.
  intros Hes. rewrite Forall_forall in Hes. set (l := foldl push_missing [] es).
  pose proof (normalize_entries_cases l []) as Hc. destruct (normalize_entries l []) as [k|m|]; [| |done].
  - destruct Hc as [-> _]. f_equal. apply (distinct_kept l []). by apply push_missing_distinct.
  - destruct Hc as (e & He%push_missing_sub & Hn). by apply Hes in He.
Qed.

Lemma network_filtered (o : option NetworkPermissions) :
  let f := λ n, negb (network_is_empty n) in
  option_filter f o ≠ Some {| enabled := None |} ∧ option_filter f (option_filter f o) = option_filter f o.
Proof. by destruct o as [[[]]|]. Qed.

(** What the check returns, in terms of the loop that collects the entries. *)
Lemma normalize_collects p context :
  Forall entry_checked (entries (profile_policy p)) →
  match normalize_additional_permissions_with_context p context with
  | Ok n =>
      Forall glob_denial (entries (profile_policy p)) ∧ Forall (path_fits context) (entries (profile_policy n)) ∧
      entries (profile_policy n) = foldl push_missing [] (entries (profile_policy p)) ∧
      (∀ fs, ap_file_system n = Some fs → fs_entries fs ≠ []) ∧ ap_network n ≠ Some {| enabled := None |} ∧
      normalize_additional_permissions_with_context n context = Ok n
  | Err _ => ∃ e, e ∈ entries (profile_policy p) ∧ (¬ glob_denial e ∨ ¬ path_fits context e)
  | Panic => False
  end.
Proof.
  intros Hch. unfold normalize_additional_permissions_with_context, normalize_additional_permissions, profile_policy in *.
  destruct (network_filtered (ap_network p)) as [Hnet Hnet'].
  destruct (ap_file_system p) as [fs|]; cbn [entries restricted res_bind ap_file_system ap_network] in *;
    [|by rewrite Hnet'].
  pose proof (normalize_entries_cases (fs_entries fs) []) as Hn.
  destruct (normalize_entries (fs_entries fs) []) as [l|m|]; cbn [res_bind]; [|naive_solver|done].
  destruct Hn as [-> Hden]. pose proof (normalize_entries_kept _ Hden) as Hkept.
  set (l := foldl push_missing [] (fs_entries fs)) in *.
  destruct (decide (l = [])) as [El|El].
  { assert (option_filter (λ fs, negb (fs_is_empty fs)) (Some {| fs_entries := l; fs_glob_depth := fs_glob_depth fs |}) =
      None) as -> by by rewrite El.
    cbn [res_bind ap_file_system ap_network]. rewrite Hnet', El. by split_and!. }
  assert (∀ d, option_filter (λ fs, negb (fs_is_empty fs)) (Some {| fs_entries := l; fs_glob_depth := d |}) =
    Some {| fs_entries := l; fs_glob_depth := d |}) as Hf.
  { intros d. unfold option_filter, fs_is_empty. cbn [fs_entries]. rewrite bool_decide_eq_false_2; [done|].
    by rewrite length_zero_iff_nil. }
  rewrite Hf. cbn [ap_file_system ap_network fs_entries fs_glob_depth res_bind].
  assert (Forall entry_checked l) as Hchl.
  { rewrite Forall_forall in Hch |- *. intros e He%push_missing_sub. by apply Hch. }
  pose proof (check_paths_cases context l Hchl) as Hc. destruct (check_paths context l) as [[]|m|] eqn:Ec; cbn [res_bind];
    [| |done].
  - cbn [ap_file_system ap_network fs_entries fs_glob_depth]. rewrite Hkept. cbn [res_bind]. rewrite Hf, Hnet'.
    cbn [res_bind ap_file_system fs_entries]. rewrite Ec. cbn [res_bind]. split_and!; try done. by intros ? [= <-].
  - destruct Hc as (e & He%push_missing_sub & ?). eauto.
Qed.

(** C12: checking a partial profile, whose paths have no null byte unless they are opaque.  It
    fails only for a pattern that does not deny or for a path that is opaque or has another
    convention than the executor.  When it succeeds, every
    pattern denies; the entries that are returned are entries of the profile in their order, no two
    of them equal, one for each entry of the profile, and their paths fit; no part that is returned
    is empty; and checking the result again returns it unchanged. *)
Theorem normalize_exact p context :
  Forall entry_checked (entries (profile_policy p)) →
  match normalize_additional_permissions_with_context p context with
  | Ok n =>
      Forall glob_denial (entries (profile_policy p)) ∧ Forall (path_fits context) (entries (profile_policy n)) ∧
      entries (profile_policy n) `sublist_of` entries (profile_policy p) ∧ distinct (entries (profile_policy n)) ∧
      (∀ e, e ∈ entries (profile_policy p) → ∃ e', e' ∈ entries (profile_policy n) ∧ entry_eq e' e = true) ∧
      (∀ fs, ap_file_system n = Some fs → fs_entries fs ≠ []) ∧ ap_network n ≠ Some {| enabled := None |} ∧
      normalize_additional_permissions_with_context n context = Ok n
  | Err _ => ∃ e, e ∈ entries (profile_policy p) ∧ (¬ glob_denial e ∨ ¬ path_fits context e)
  | Panic => False
  end.
Proof.
  intros Hch. pose proof (normalize_collects p context Hch) as Hn.
  destruct (normalize_additional_permissions_with_context p context) as [n|m|]; [|done..].
  destruct Hn as (Hd & Hf & He & Hfs & Hnet & Hidem). split_and!; [done..| | | | |done|done].
  - rewrite He. apply push_missing_sublist.
  - rewrite He. by apply push_missing_distinct.
  - intros e Hin. rewrite He. destruct (push_missing_fold (entries (profile_policy p)) []) as (extra & Hx & _ & Hall).
    rewrite Hx. by apply Hall.
  - done.
Qed.
End normalize.

(** ** Profiles and the policies they stand for *)

(** A profile is determined by its enforcement and the policies it stands for. *)
Theorem profile_runtime_round_trip p :
  from_runtime_permissions_with_enforcement (enforcement p) (to_runtime_permissions p).1 (to_runtime_permissions p).2 =
  Ok p.
Proof. by destruct p as [[es [depth|]|] network| |network]. Qed.

Section read_only.
Context `{UrlLaws}.

Lemma demoted_resolved p context root access :
  (root, access) ∈ resolved_entries (set_entries (map demote_entry (entries p)) p) context ↔
  ∃ access', access = demote access' ∧ (root, access') ∈ resolved_entries p context.
Proof.
  rewrite elem_of_resolved_entries. cbn [entries set_entries]. split.
  - intros (e & He & Ha & Hr & Hc). apply list_elem_of_In, in_map_iff in He as (e' & <- & He'%list_elem_of_In).
    exists (entry_access e'). split; [done|]. apply elem_of_resolved_entries. eauto.
  - intros (a & -> & (e & He & <- & Hr & Hc)%elem_of_resolved_entries). exists (demote_entry e). split_and!; [|done..].
    apply list_elem_of_In, in_map. by apply list_elem_of_In.
Qed.

Lemma demoted_comparable p context path :
  comparable (set_entries (map demote_entry (entries p)) p) context path ↔ comparable p context path.
Proof.
  unfold comparable. split; intros (? & ? & ? & ? & Hr); split_and!; try done; intros root a Hin.
  - apply (Hr root (demote a)), demoted_resolved. eauto.
  - apply demoted_resolved in Hin as (a' & -> & Hin). by apply (Hr root a').
Qed.

(** Making every entry read-only makes every access read-only. *)
Lemma demoted_access p context path :
  kind p = Restricted →
  resolve_access (set_entries (map demote_entry (entries p)) p) path context = demote (resolve_access p path context).
Proof.
  intros Hk. apply decision_resolves.
  destruct (resolve_access_decides p path context) as [|_ Hn|_ Hcmp Hn|r a d _ Hcmp (Hin & Hd & Hs) Hm]; [done| | |].
  - apply decision_incomparable; [done|]. by rewrite demoted_comparable.
  - apply decision_uncovered; [done|by apply demoted_comparable|].
    intros r a d (Hin & Hd). apply demoted_resolved in Hin as (a' & _ & Hin). by apply (Hn r a' d).
  - apply (decision_entry _ _ _ r _ d); [done|by apply demoted_comparable| |].
    + split; [|done]. apply demoted_resolved. eauto.
    + intros r' a' d' (Hin' & Hd'). apply demoted_resolved in Hin' as (b & -> & Hin').
      destruct (Hm r' b d') as [?|[? Hle]]; [done|by left|]. right. split; [done|].
      destruct a, b; simpl in *; lia.
Qed.

Lemma root_read_access path context :
  posix_uri (cwd context) → posix_uri path → resolve_access read_only path context = Read.
Proof.
  intros Hc Hp. destruct (posix_fs_root context Hc) as (r & Hr & Hu & Hk).
  assert (∀ root a, (root, a) ∈ resolved_entries read_only context ↔ root = r ∧ a = Read) as Hres.
  { intros root a. rewrite elem_of_resolved_entries. cbn [entries read_only restricted]. split.
    - intros (e & ->%list_elem_of_singleton & <- & Hin & _). cbn in Hin. rewrite Hr in Hin. set_solver.
    - intros [-> ->]. exists (new_entry (Special Root) Read). cbn. rewrite Hr, !posix_convention by done. set_solver. }
  assert (posix_context read_only context) as Hctx.
  { split; [done|]. split; [by intros e u ->%list_elem_of_singleton|]. intros root a [-> _]%Hres. by left. }
  apply decision_resolves, (decision_entry _ _ _ r _ (length (key r))); [done|by apply posix_comparable| |].
  - apply posix_covers; [done..|]. rewrite Hk. split_and!; [by apply Hres|done..|apply prefix_nil].
  - intros r' a' d' ([-> ->]%Hres & _ & -> & _)%posix_covers; [|done..]. lia.
Qed.

(** C13: the read-only intersection of a profile that is not enforced elsewhere exists, restricts
    the network, and lets on a Unix executor be read exactly what the profile lets be read, and
    nothing be written. *)
Theorem read_only_exact p context path :
  kind (file_system_sandbox_policy p) ≠ ExternalSandbox → posix_uri (cwd context) → posix_uri path →
  ∃ q, intersect_with_read_only p = Ok (Some q) ∧ network_sandbox_policy q = NetworkRestricted ∧
    resolve_access (file_system_sandbox_policy q) path context =
      demote (resolve_access (file_system_sandbox_policy p) path context).
Proof.
  intros Hext Hc Hp. unfold intersect_with_read_only.
  assert (∀ pol, kind pol = Unrestricted → resolve_access pol path context = Write) as Hopen.
  { intros pol Hk. apply decision_resolves, decision_open. congruence. }
  destruct p as [[es depth|] network| |network]; [| | |done];
    (eexists; split_and!; [reflexivity|done|]); cbn [file_system_sandbox_policy managed_to_policy].
  - rewrite <-demoted_access by done. by destruct depth.
  - rewrite (Hopen Permissions.unrestricted) by done. by apply root_read_access.
  - rewrite (Hopen Permissions.unrestricted) by done. by apply root_read_access.
Qed.
End read_only.

(** ** Additional permissions *)

Section additional.
Context `{UrlLaws}.

(** The access of a path on a Unix executor, by the places that entries resolve to. *)
Lemma posix_access_decided p context path a :
  kind p = Restricted → posix_context p context → posix_uri path →
  resolve_access p path context = a ↔
  (a = Deny ∧ ∀ access place, resolves_to p context access place → ¬ place `prefix_of` key path) ∨
  ∃ place, resolves_to p context a place ∧ place `prefix_of` key path ∧
    ∀ access place', resolves_to p context access place' → place' `prefix_of` key path →
      length place' < length place ∨ length place' = length place ∧ access_rank access ≤ access_rank a.
Proof.
  intros Hk Hc Hp. split.
  - intros <-. destruct (resolve_access_decides p path context) as [|_ Hn|_ _ Hn|r a' d _ _ Hr Hm]; [done| | |].
    + exfalso. by apply Hn, posix_comparable.
    + left. split; [done|]. intros access place (r & Hin & Hu & <-) Hpre.
      apply (Hn r access (length (key r))). by apply posix_covers.
    + right. apply posix_covers in Hr as (Hin & Hu & -> & Hpre); [|done..]. exists (key r).
      split_and!; [by exists r|done|]. intros access place (r' & Hin' & Hu' & <-) Hpre'.
      apply (Hm r' access). by apply posix_covers.
  - intros Hd. apply decision_resolves. destruct Hd as [[-> Hn]|(place & (r & Hin & Hu & <-) & Hpre & Hm)].
    + apply decision_uncovered; [done|by apply posix_comparable|].
      intros r access d (Hin & Hu & -> & Hpre)%posix_covers; [|done..]. apply (Hn access (key r)); [by exists r|done].
    + apply (decision_entry _ _ _ r _ (length (key r))); [done|by apply posix_comparable|by apply posix_covers|].
      intros r' access d (Hin' & Hu' & -> & Hpre')%posix_covers; [|done..]. apply Hm; [by exists r'|done].
Qed.

(** The entries in force are those of the policy and the additional ones. *)
Lemma effective_places p additional context :
  kind p = Restricted → posix_context p context → posix_context (profile_policy additional) context →
  let effective := effective_file_system_sandbox_policy p (Some additional) in
  kind effective = Restricted ∧ posix_context effective context ∧
  ∀ access place, resolves_to effective context access place ↔
    resolves_to p context access place ∨ resolves_to (profile_policy additional) context access place.
Proof.
  intros Hk Hc Ha. unfold effective_file_system_sandbox_policy. cbn [mbind option_bind].
  assert (entries (profile_policy additional) = [] → ∀ access place,
    resolves_to p context access place ↔
    resolves_to p context access place ∨ resolves_to (profile_policy additional) context access place) as Hempty.
  { intros He access place. split; [by left|]. intros [?|(r & Hin & _)]; [done|].
    apply elem_of_resolved_entries in Hin as (e & Hin & _). rewrite He in Hin. by apply elem_of_nil in Hin. }
  destruct (ap_file_system additional) as [fs|] eqn:Ef; [|by split_and!; [..|apply Hempty; unfold profile_policy; rewrite Ef]].
  assert (entries (profile_policy additional) = fs_entries fs) as Hes by by unfold profile_policy; rewrite Ef.
  destruct (fs_is_empty fs) eqn:Ee.
  { split_and!; [done..|]. apply Hempty. rewrite Hes. by apply bool_decide_eq_true, nil_length_inv in Ee. }
  unfold merge_file_system_policy_with_additional_permissions. rewrite Hk.
  destruct (push_missing_fold (fs_entries fs) (entries p)) as (extra & Hfold & Hextra & Hall). rewrite Hfold.
  set (q := {| kind := Restricted; glob_scan_max_depth := _; entries := entries p ++ extra |}).
  assert (∀ e, e ∈ entries q → e ∈ entries p ∨ e ∈ entries (profile_policy additional)) as Hsub.
  { intros e [?|?%Hextra]%elem_of_app; [by left|right; by rewrite Hes]. }
  assert (posix_context q context) as Hq.
  { destruct Hc as (Hcwd & Hh & Hr), Ha as (_ & Hh' & Hr'). split_and!; [done|..].
    - intros e u [He|He]%Hsub Hu; [by eapply Hh|by eapply Hh'].
    - intros r a (e & [He|He]%Hsub & Hacc & Hrr & Hconv)%elem_of_resolved_entries;
        [apply (Hr r a)|apply (Hr' r a)]; apply elem_of_resolved_entries; eauto. }
  split_and!; [done|done|]. intros access place. split.
  - intros (r & (e & [He|He]%Hsub & Hacc & Hrr & Hconv)%elem_of_resolved_entries & Hu & Hkey); [left|right];
      exists r; (split; [|done]); apply elem_of_resolved_entries; eauto.
  - intros [(r & Hin & Hu & Hkey)|(r & Hin & Hu & Hkey)]; exists r; (split; [|done]);
      apply elem_of_resolved_entries in Hin as (e & He & <- & Hrr & Hconv); apply elem_of_resolved_entries.
    + exists e. split_and!; [apply elem_of_app; by left|done..].
    + rewrite Hes in He. destruct (Hall e He) as (e' & He' & Heq).
      destruct (entry_eq_resolves context e' e r) as [Hacc Hr']; [|done..|by exists e'].
      intros u Hu'. by eapply Hq.
Qed.

(** C14: additional permissions are added to the entries of a policy.  On a Unix executor, under a
    restricted policy with additional permissions, the paths of both being Unix paths or opaque,
    the access of a path is that of the deepest entry above it among the entries of the policy and
    the additional ones, of equally deep ones by deny before write before read, and the path is
    denied when neither has an entry above it. *)
Theorem additional_permissions_added p additional context path a :
  kind p = Restricted → posix_context p context → posix_context (profile_policy additional) context → posix_uri path →
  let either access place :=
    resolves_to p context access place ∨ resolves_to (profile_policy additional) context access place in
  resolve_access (effective_file_system_sandbox_policy p (Some additional)) path context = a ↔
  (a = Deny ∧ ∀ access place, either access place → ¬ place `prefix_of` key path) ∨
  ∃ place, either a place ∧ place `prefix_of` key path ∧
    ∀ access place', either access place' → place' `prefix_of` key path →
      length place' < length place ∨ length place' = length place ∧ access_rank access ≤ access_rank a.
Proof.
  intros Hk Hc Ha Hp either. destruct (effective_places p additional context Hk Hc Ha) as (Hk' & Hc' & Hpl).
  rewrite posix_access_decided by done. unfold either. setoid_rewrite Hpl. done.
Qed.
End additional.

(** ** Examples *)

Module ProfileExample.
Import Percent PercentText.

Definition uri (segments : list rstring) : Url := {| url_host := None; url_segments := segments |}.

Definition context : FileSystemSandboxPolicyContext :=
  {| cwd := uri [str "w"]; workspace_roots := [uri [str "w"]]; user_home_dir := Some (uri [str "home"]);
     temporary_directories := None |}.

Definition files (es : list FileSystemSandboxEntry) : AdditionalPermissionProfile :=
  {| ap_network := None; ap_file_system := Some {| fs_entries := es; fs_glob_depth := None |} |}.

Definition intersect (requested granted : AdditionalPermissionProfile) : AdditionalPermissionProfile :=
  intersect_permission_profiles_with_context ScopeExample.literal_build ScopeExample.literal_match
    requested granted context.

Definition workspace : FileSystemSandboxEntry := new_entry (Special (ProjectRoots None)) Write.

Definition given : AdditionalPermissionProfile := files [workspace].

Definition path : Url := uri [str "w"; str "notes"].

Definition profile : PermissionProfile :=
  Managed (ManagedRestricted [workspace] None) NetworkEnabled.

Definition repeated : AdditionalPermissionProfile :=
  files [workspace; new_entry (Path path) Read; workspace].

Lemma normalize_exact_witness :
  normalize_additional_permissions_with_context repeated context = Ok (files [workspace; new_entry (Path path) Read]) ∧
  match normalize_additional_permissions_with_context repeated context with
  | Ok n =>
      Forall glob_denial (entries (profile_policy repeated)) ∧ Forall (path_fits context) (entries (profile_policy n)) ∧
      entries (profile_policy n) `sublist_of` entries (profile_policy repeated) ∧ distinct (entries (profile_policy n)) ∧
      (∀ e, e ∈ entries (profile_policy repeated) → ∃ e', e' ∈ entries (profile_policy n) ∧ entry_eq e' e = true) ∧
      (∀ fs, ap_file_system n = Some fs → fs_entries fs ≠ []) ∧ ap_network n ≠ Some {| enabled := None |} ∧
      normalize_additional_permissions_with_context n context = Ok n
  | Err _ => ∃ e, e ∈ entries (profile_policy repeated) ∧ (¬ glob_denial e ∨ ¬ path_fits context e)
  | Panic => False
  end.
Proof.
  split; [by vm_compute|]. apply (normalize_exact repeated context).
  repeat apply Forall_cons_2; try apply Forall_nil_2; intros u Hu; try done.
  injection Hu as <-. unfold uri_checked. intros Hnul. exfalso. revert Hnul.
  apply (bool_decide_unpack _). by vm_compute.
Defined.

Lemma read_only_exact_witness :
  ∃ q, intersect_with_read_only profile = Ok (Some q) ∧ network_sandbox_policy q = NetworkRestricted ∧
    resolve_access (file_system_sandbox_policy q) path context =
      demote (resolve_access (file_system_sandbox_policy profile) path context).
Proof.
  apply (read_only_exact profile context path).
  - done.
  - apply posix_uri_checked. by vm_compute.
  - apply posix_uri_checked. by vm_compute.
Defined.

Definition extra : AdditionalPermissionProfile := files [new_entry (Path (uri [str "data"])) Read].

Lemma additional_permissions_added_witness :
  let p := restricted [workspace] in
  let either access place :=
    resolves_to p context access place ∨ resolves_to (profile_policy extra) context access place in
  resolve_access (effective_file_system_sandbox_policy p (Some extra)) (uri [str "data"; str "a"]) context = Read ↔
  (Read = Deny ∧ ∀ access place, either access place → ¬ place `prefix_of` key (uri [str "data"; str "a"])) ∨
  ∃ place, either Read place ∧ place `prefix_of` key (uri [str "data"; str "a"]) ∧
    ∀ access place', either access place' → place' `prefix_of` key (uri [str "data"; str "a"]) →
      length place' < length place ∨ length place' = length place ∧ access_rank access ≤ access_rank Read.
Proof.
  apply (additional_permissions_added (restricted [workspace]) extra context (uri [str "data"; str "a"]) Read).
  - done.
  - apply posix_context_checked; by vm_compute.
  - apply posix_context_checked; by vm_compute.
  - apply posix_uri_checked. by vm_compute.
Defined.

(** The intersection keeps the denials of a request and not what it may only read: a directory
    that the request reads below one that it writes may be written. *)
Lemma intersection_drops_read_only :
  let asked := files [workspace; new_entry (Path (uri [str "w"; str "docs"])) Read] in
  let path := uri [str "w"; str "docs"; str "a"] in
  resolve_access (profile_policy asked) path context = Read ∧
  resolve_access (profile_policy (intersect asked given)) path context = Write.
Proof. by vm_compute. Qed.

(** The pattern of the home directory alone is the home directory where a profile is
    materialised and a name below the working directory where a policy is matched. *)
Lemma home_pattern_read_two_ways :
  entry_path <$> materialize_cwd_dependent_entry (new_entry (GlobPattern (str "~")) Deny) context =
    Some (GlobPattern (str "/home")) ∧
  deny_read_glob context (str "~") = Ok (str "/w/~").
Proof. by vm_compute. Qed.
End ProfileExample.
