(* ===== verification/PermissionIntersection.v ===== *)
(** * Intersections of permissions ([sandboxing/src/policy_transforms.rs])

    What the intersection of a request and a grant lets be read and written: the denials of both,
    paths and patterns, that reach into an accepted grant are kept.

    Arguments: the glob library, of which [GlobPrefixLaws] states that a pattern matches its
    literal beginning as it is. *)

From S2P Require Import Prelude RustStr Utf8 AbsolutePath PathUri PathText Permissions SandboxPolicy PermissionScope PermissionProfile.

Local Open Scope nat_scope.

(** ** Texts of paths *)

(** A beginning of a joined text: some components, and the beginning of the next one. *)
Lemma prefix_of_join (segs : list rstring) lit :
  segs ≠ [] → lit `prefix_of` join [SLASH] segs →
  ∃ comps s more partial, segs = comps ++ s :: more ∧ partial `prefix_of` s ∧
    lit = join [SLASH] (comps ++ [partial]).
Proof.
  revert lit. induction segs as [|s segs IH]; intros lit Hne Hl; [done|].
  assert (lit `prefix_of` s → ∃ comps s' more partial, s :: segs = comps ++ s' :: more ∧
    partial `prefix_of` s' ∧ lit = join [SLASH] (comps ++ [partial])) as Hin.
  { intros Hs. by exists [], s, segs, lit. }
  destruct segs as [|s' segs]; [by apply Hin|]. rewrite join_cons in Hl by done.
  destruct Hl as [k Hk]. apply app_eq_inv in Hk as [(m & Hm & Hk)|(m & Hm & Hk)]; [by apply Hin; exists m|].
  destruct m as [|c m]; [apply Hin; exists []; by rewrite app_nil_r in *|].
  injection Hk as <- Hk. destruct (IH m) as (comps & s1 & more & partial & Hs & Hp & ->); [done|by exists k|].
  exists (s :: comps), s1, more, partial. rewrite Hs. split_and!; [done..|].
  rewrite Hm. cbn [app]. rewrite join_cons by by destruct comps. done.
Qed.

Lemma prefix_not_elem {A} (x : A) l k : l `prefix_of` k → x ∉ k → x ∉ l.
Proof. intros [m ->]. set_solver. Qed.

(** Components that begin a joined text are its first components. *)
Lemma join_prefix_components (comps ds : list rstring) partial :
  Forall (λ s, SLASH ∉ s) (comps ++ [partial]) → Forall (λ s, SLASH ∉ s) ds →
  join [SLASH] (comps ++ [partial]) `prefix_of` join [SLASH] ds → comps `prefix_of` ds.
Proof.
  intros Hc Hd Hp. destruct (decide (ds = [])) as [->|Hne].
  { apply prefix_nil_inv in Hp. destruct comps as [|c comps]; [done|].
    cbn [app] in Hp. rewrite join_cons in Hp by by destruct comps. by destruct c. }
  destruct (prefix_of_join ds _ Hne Hp) as (comps' & s & more & partial' & -> & Hs & Heq).
  apply Forall_app in Hd as [Hd1 [Hd2 _]%Forall_cons].
  apply (f_equal (split_char SLASH)) in Heq. rewrite !split_char_join in Heq;
    [|by destruct comps'|apply Forall_app; split; [done|]; apply Forall_singleton; by eapply prefix_not_elem
     |by destruct comps|done].
  apply app_inj_tail in Heq as [-> _]. by exists (s :: more).
Qed.

Lemma encode_join segs : encode (join [SLASH] segs) = join [SLASH] (encode <$> segs).
Proof.
  induction segs as [|s segs IH]; [done|]. destruct segs as [|s' segs]; [done|].
  change (encode (s ++ SLASH :: join [SLASH] (s' :: segs)) = encode s ++ SLASH :: join [SLASH] (encode <$> s' :: segs)).
  by rewrite encode_app, encode_cons, IH.
Qed.

Lemma ends_with_slash comps (partial : rstring) :
  SLASH ∉ partial → ends_with (abs_to_string (comps ++ [partial])) [SLASH] = true ↔ partial = [].
Proof.
  intros Hs. rewrite ends_with_spec. unfold abs_to_string.
  assert (∃ b, SLASH :: join [SLASH] (comps ++ [partial]) = b ++ SLASH :: partial) as [b ->].
  { induction comps as [|c comps [b IH]]; [by exists []|].
    cbn [app]. rewrite join_cons by by destruct comps. cbn [app].
    exists (SLASH :: c ++ b). rewrite IH, app_comm_cons, app_assoc. done. }
  split; [|intros ->; by exists b]. intros [r Hr]. destruct partial as [|c l _] using rev_ind; [done|exfalso].
  rewrite app_comm_cons, app_assoc in Hr. apply app_inj_tail in Hr as [_ ->]. set_solver.
Qed.

(** ** The directory of a pattern *)

(** Pushing an empty segment ends a path with a slash. *)
Class UrlSlashLaws `{UrlLib} : Prop := {
  slash_laws :: UrlTextLaws;
  segments_push_empty segments :
    segments_push segments [] = if decide (segments = [[]]) then [[]] else segments ++ [[]];
}.

(** A component does not begin like a drive. *)
Definition driveless (s : rstring) : Prop := ∀ c r, s ≠ c :: 58%N :: r.

Lemma driveless_prefix s p : driveless s → p `prefix_of` s → driveless p.
Proof. intros Hs [k ->] c r ->. by apply (Hs c (r ++ k)). Qed.

Lemma driveless_not_drive s : driveless s → ¬ is_drive s.
Proof. intros Hs (c & _ & ->). by apply (Hs c []). Qed.

Section static_prefix.
Context `{UrlSlashLaws}.

(** The URL of components, and of a directory with a final slash. *)
Definition text_url (norm : list rstring) (trailing : bool) : Url :=
  {| url_host := None;
     url_segments := foldl segments_push [[]] (if trailing then norm ++ [[]] else norm) |}.

Lemma posix_root_uri : posix_uri {| url_host := None; url_segments := [[]] |}.
Proof.
  split; [done|]. split; [done|]. apply Forall_singleton. rewrite decode_binary_nil. set_solver.
Qed.

Lemma text_url_posix norm trailing :
  Forall text_segment norm → (∀ s, head norm = Some s → ¬ is_drive s) →
  posix_uri (text_url norm trailing) ∧ key (text_url norm trailing) = encode <$> norm.
Proof.
  intros Hn Hd. destruct (decide (norm = [])) as [->|Hne].
  { assert (text_url [] trailing = {| url_host := None; url_segments := [[]] |}) as ->.
    { unfold text_url. destruct trailing; [|done]. simpl. by rewrite segments_push_empty. }
    split; [apply posix_root_uri|done]. }
  destruct (posix_text_url norm Hne Hn Hd) as [Hu Hk].
  destruct trailing; [|done]. unfold text_url. rewrite foldl_app. cbn [foldl].
  destruct (push_text_segments norm Hn Hne) as (es & Hes & Hn' & _). rewrite Hes in *.
  rewrite segments_push_empty, decide_False by done.
  assert (nonempty_segments {| url_host := None; url_segments := es ++ [[]] |} =
    nonempty_segments {| url_host := None; url_segments := es |}) as Hf.
  { unfold nonempty_segments. cbn [url_segments]. by rewrite filter_app, filter_cons_False, filter_nil, app_nil_r by auto. }
  destruct Hu as (_ & Hu1 & Hu2). unfold posix_uri, key in *. rewrite Hf. split_and!; [done..| |done].
  apply Forall_app. split; [done|]. apply Forall_singleton. rewrite decode_binary_nil. set_solver.
Qed.

(** The parent of a path without a final slash lacks its last component. *)
Lemma text_url_parent norm v :
  Forall text_segment norm → (∀ s, head norm = Some s → ¬ is_drive s) →
  parent (text_url norm false) = Some v → posix_uri v ∧ key v = encode <$> removelast norm.
Proof.
  intros Hn Hd Hv. destruct (text_url_posix norm false Hn Hd) as [Hu Hk].
  destruct (decide (norm = [])) as [->|Hne]; [by rewrite parent_root in Hv|].
  destruct (push_text_segments norm Hn Hne) as (es & Hes & Hn' & Hf & Hdec & _).
  unfold text_url in *. rewrite Hes in *. unfold parent in Hv.
  rewrite posix_is_opaque, posix_convention in Hv by done. simpl in Hv. case_decide; [done|]. injection Hv as <-.
  rewrite segments_pop_if_empty_spec, decide_False.
  2:{ intros [_ Hl]. rewrite last_Some in Hl. destruct Hl as [l ->]. apply Forall_app in Hf as [_ Hf].
      by rewrite Forall_singleton in Hf. }
  rewrite segments_pop_spec. destruct norm as [|s norm _] using rev_ind; [done|].
  rewrite removelast_last. rewrite fmap_app in Hdec. apply fmap_app_inv in Hdec as (es1 & es2 & Hd1 & Hd2 & ->).
  destruct es2 as [|e2 [|]]; try done. case_decide as Hl.
  - split; [apply posix_prefix; [done|left]; simpl; rewrite removelast_last; by exists [e2]|].
    unfold key, nonempty_segments. simpl. rewrite removelast_last.
    apply Forall_app in Hf as [Hf _]. by rewrite filter_nonempty_id.
  - split; [by apply posix_prefix; [|right]|]. rewrite length_app in Hl.
    destruct es1 as [|? es1]; [|simpl in Hl; lia]. by destruct norm.
Qed.

Lemma no_null_joined (l : list rstring) : Forall (λ s, (0%N ∉ s) ∧ (SLASH ∉ s)) l → 0%N ∉ join [SLASH] l.
Proof.
  induction 1 as [|s l [Hs _] _ IH]; [apply not_elem_of_nil|].
  destruct l as [|s' l]; [done|]. rewrite join_cons by done. set_solver.
Qed.

Lemma from_absolute_normalized l norm d trailing :
  l ≠ [] → Forall (λ s, (0%N ∉ s) ∧ (SLASH ∉ s)) l →
  foldl (normalize_segment Posix) ([], 0, false) l = (norm, d, trailing) →
  posix_uri (text_url norm trailing) →
  from_absolute_native_path (abs_to_string l) Posix = Some (text_url norm trailing).
Proof.
  intros Hne Hl Hf Hu. unfold from_absolute_native_path, parse_posix_path, abs_to_string.
  change (SLASH :: join [SLASH] l) with ([SLASH] ++ join [SLASH] l). rewrite strip_prefix_app. simpl.
  rewrite decide_False by by apply no_null_joined.
  rewrite split_char_join; [|done|eapply Forall_impl; [done|]; by intros s [_ ?]].
  unfold path_uri_from_segments. simpl. rewrite Hf, orb_false_r. fold (text_url norm trailing).
  rewrite posix_try_from by done. simpl. rewrite posix_convention by done. by rewrite decide_True.
Qed.

Lemma join_text_url base l norm d trailing :
  posix_uri base → l ≠ [] → Forall (λ s, (0%N ∉ s) ∧ (SLASH ∉ s)) l →
  foldl (normalize_segment Posix) ([], 0, false) l = (norm, d, trailing) →
  posix_uri (text_url norm trailing) →
  uri_join base (abs_to_string l) = Ok (text_url norm trailing).
Proof.
  intros Hb Hne Hl Hf Hu. unfold uri_join. rewrite decide_False.
  2:{ intros [?|Hin]%elem_of_cons; [done|]. by eapply no_null_joined. }
  rewrite decide_False, posix_convention by done. simpl. by rewrite (from_absolute_normalized l norm d trailing).
Qed.

(** Components and the beginning of the next one, normalised. *)
Lemma normalize_partial comps s partial :
  Forall text_segment comps → text_segment s → partial `prefix_of` s →
  ∃ norm d, foldl (normalize_segment Posix) ([], 0, false) (comps ++ [partial]) = (norm, d, bool_decide (partial = [])) ∧
    Forall text_segment norm ∧ (norm `prefix_of` comps ∨ norm = comps ++ [partial]) ∧ (partial = [] → norm = comps).
Proof.
  intros Hc Hs [k Hk]. rewrite foldl_app, normalize_text by done. simpl.
  case_decide as H1; [subst; eauto 10|]. rewrite bool_decide_eq_false_2 by done.
  case_decide as H2; [eauto 10|]. case_decide as H3; [case_decide; [|eauto 10]|].
  - pose proof (removelast_prefix comps) as [l Hl]. exists (removelast comps). eexists. split; [done|].
    split_and!; [|left; by exists l|done]. rewrite Hl in Hc. by apply Forall_app in Hc as [? _].
  - exists (comps ++ [partial]). eexists. split; [done|]. split_and!; [|by right|done].
    apply Forall_app. split; [done|]. apply Forall_singleton. destruct Hs as (Hv & _ & _ & _ & Hf). subst s.
    apply Forall_app in Hf as [Hf _]. apply Forall_app in Hv as [Hv _]. by split_and!.
Qed.

(** The directory that [glob_static_prefix_path] finds is within the first components. *)
Lemma static_prefix_path context comps s more partial rest P :
  posix_uri (cwd context) → Forall text_segment (comps ++ s :: more) →
  (∀ s', head (comps ++ s :: more) = Some s' → driveless s') → partial `prefix_of` s →
  before_wildcard rest = Some (abs_to_string (comps ++ [partial])) →
  glob_static_prefix_path rest context = Some P → posix_uri P ∧ key P `prefix_of` encode <$> comps.
Proof.
  intros Hc Ht Hd Hp Hw. unfold glob_static_prefix_path. rewrite Hw. unfold abs_to_string at 1.
  rewrite posix_convention by done.
  apply Forall_app in Ht as [Htc [Hts _]%Forall_cons].
  destruct (normalize_partial comps s partial Htc Hts Hp) as (norm & d & Hf & Hn & Hcase & Hempty).
  assert (∀ s', head norm = Some s' → ¬ is_drive s') as Hdr.
  { intros s' Hs'. apply driveless_not_drive. destruct Hcase as [[k ->]| ->].
    - apply Hd. by destruct norm.
    - destruct comps; simpl in *; [|by apply Hd]. injection Hs' as <-. eapply driveless_prefix; [by apply Hd|done]. }
  destruct (text_url_posix norm (bool_decide (partial = [])) Hn Hdr) as [Hu Hk].
  assert (SLASH ∉ partial) as Hsl.
  { eapply prefix_not_elem; [done|]. apply (text_segment_no s); [done|set_solver]. }
  rewrite (join_text_url _ _ norm d (bool_decide (partial = []))); [|done|by destruct comps| |done|done].
  2:{ apply Forall_app. split.
      - eapply Forall_impl; [done|]. intros s' Hs'. split; apply (text_segment_no s' _ Hs'); set_solver.
      - apply Forall_singleton. split; [|done]. eapply prefix_not_elem; [done|]. apply (text_segment_no s); [done|set_solver]. }
  cbn [res_ok mbind option_bind]. rewrite orb_false_r. pose proof (ends_with_slash comps partial Hsl) as He.
  destruct (ends_with _ _).
  - intros [= <-]. split; [done|]. by rewrite Hk, (Hempty (proj1 He eq_refl)).
  - assert (partial ≠ []) as Hne by (intros ->; by destruct He as [_ He]; specialize (He eq_refl)).
    rewrite bool_decide_eq_false_2 by done. intros [Hv ->]%text_url_parent; [|done..]. split; [done|].
    destruct Hcase as [Hpre| ->]; [|by rewrite removelast_last].
    assert (removelast norm `prefix_of` comps) as [l ->] by (etrans; [apply removelast_prefix|done]).
    rewrite fmap_app. by exists (encode <$> l).
Qed.
End static_prefix.

(** ** What a pattern can match *)

(** Characters with a meaning in a pattern: [*], [?], brackets, backslash and braces. *)
Definition glob_syntax : list char := [42; 63; 91; 93; 92; 123; 125]%N.

(** A Unix pattern matches its literal beginning as it is, and only itself when it is all literal. *)
Class GlobPrefixLaws {Glob} (glob_build : rstring → bool → bool → rstring + Glob)
    (glob_is_match : Glob → list N → bool) : Prop :=
  glob_literal lit rest g bytes :
    Forall (λ c, c ∉ glob_syntax) lit → glob_build (lit ++ rest) true false = inr g → glob_is_match g bytes = true →
    encode lit `prefix_of` bytes ∧ (rest = [] → bytes = encode lit).

(** An absolute pattern of ordinary components, without a backslash or a brace before its first
    wildcard. *)
Definition plain_glob (pattern : rstring) : Prop :=
  ∃ segs, segs ≠ [] ∧ pattern = abs_to_string segs ∧ Forall text_segment segs ∧
    (∀ s, head segs = Some s → driveless s) ∧
    Forall (λ c, c ∉ [92; 123; 125]%N) (default pattern (before_wildcard pattern)).

Lemma before_wildcard_spec pattern :
  default pattern (before_wildcard pattern) `prefix_of` pattern ∧
  Forall (λ c, c ∉ [42; 63; 91; 93]%N) (default pattern (before_wildcard pattern)).
Proof.
  induction pattern as [|c pattern [[k IH1] IH2]]; [done|]. cbn [before_wildcard].
  case_bool_decide as Hc; [split; [apply prefix_nil|constructor]|].
  assert (default (c :: pattern) (cons c <$> before_wildcard pattern) = c :: default pattern (before_wildcard pattern)) as ->.
  { by destruct (before_wildcard pattern). }
  split; [|by constructor]. exists k. cbn [app]. by f_equal.
Qed.

Section bytes.
Context `{UrlSlashLaws}.

Lemma decoded_join segs : decode_binary (join [SLASH] segs) = join [SLASH] (decode_binary <$> segs).
Proof.
  induction segs as [|s segs IH]; [apply decode_binary_nil|]. destruct segs as [|s' segs]; [done|].
  change (decode_binary (s ++ SLASH :: join [SLASH] (s' :: segs)) =
    decode_binary s ++ SLASH :: join [SLASH] (decode_binary <$> s' :: segs)).
  by rewrite decode_binary_slash, IH.
Qed.

Lemma decoded_path u : decoded_path_bytes u = SLASH :: join [SLASH] (decode_binary <$> url_segments u).
Proof.
  unfold decoded_path_bytes, encoded_path. change (SLASH :: ?l) with ([] ++ SLASH :: l) at 1.
  by rewrite decode_binary_slash, decode_binary_nil, decoded_join.
Qed.

Lemma key_components comps u ds :
  Forall text_segment comps → decode_binary <$> url_segments u = (encode <$> comps) ++ ds →
  encode <$> comps `prefix_of` key u.
Proof.
  intros Hc Hds. apply fmap_app_inv in Hds as (us & us' & Hus & -> & Hsegs). unfold key, nonempty_segments.
  rewrite Hsegs, filter_app, fmap_app, filter_nonempty_id; [rewrite <-Hus; by eexists|].
  clear -Hus Hc H0. revert comps Hus Hc. induction us as [|e us IH]; intros [|c comps] Hus Hc; try done.
  injection Hus as He Hus. apply Forall_cons in Hc as [(_ & Hc & _) Hcs]. constructor; [|by eapply IH].
  intros ->. rewrite decode_binary_nil in He. destruct c as [|x c]; [done|]. rewrite encode_cons in He.
  pose proof (encode_char_length x) as Hl. pose proof (len_utf8_pos x). destruct (encode_char x); simpl in *; [lia|done].
Qed.

Lemma encoded_slash_free segs : Forall text_segment segs → Forall (λ s, SLASH ∉ s) (encode <$> segs).
Proof.
  intros Hs. apply Forall_fmap. eapply Forall_impl; [done|]. intros; by apply text_utf8_no; [|set_solver].
Qed.

Lemma decoded_slash_free u : posix_uri u → Forall (λ s, SLASH ∉ s) (decode_binary <$> url_segments u).
Proof. intros (_ & _ & Hu). apply Forall_fmap. eapply Forall_impl; [done|]. by intros e [_ ?]. Qed.

(** Components that begin the bytes of a path are components of the path. *)
Lemma bytes_components comps s partial u :
  posix_uri u → Forall text_segment comps → text_segment s → partial `prefix_of` s →
  encode (abs_to_string (comps ++ [partial])) `prefix_of` decoded_path_bytes u →
  encode <$> comps `prefix_of` key u.
Proof.
  intros Hu Hc Hs Hp. rewrite decoded_path. unfold abs_to_string. rewrite encode_cons, encode_join.
  intros Hpre%prefix_cons_inv_2. rewrite fmap_app in Hpre. apply join_prefix_components in Hpre as [ds Hds].
  - by eapply key_components.
  - apply Forall_app. split; [by apply encoded_slash_free|].
    apply Forall_singleton. destruct Hp as [k ->]. pose proof (text_utf8_no _ SLASH Hs ltac:(set_solver)) as Hn.
    rewrite encode_app in Hn. set_solver.
  - by apply decoded_slash_free.
Qed.

Lemma bytes_equal segs u :
  posix_uri u → segs ≠ [] → Forall text_segment segs → decoded_path_bytes u = encode (abs_to_string segs) →
  encode <$> segs `prefix_of` key u.
Proof.
  intros Hu Hne Hs. rewrite decoded_path. unfold abs_to_string. rewrite encode_cons, encode_join.
  intros [= Heq]. apply (key_components _ _ []); [done|]. rewrite app_nil_r.
  destruct (url_segments u) as [|e es] eqn:Eu.
  { destruct segs as [|[|x s] segs]; [done|by apply Forall_cons in Hs as [(_ & ? & _) _]|exfalso].
    pose proof (encode_char_length x). pose proof (len_utf8_pos x). apply (f_equal length) in Heq.
    rewrite fmap_cons, encode_cons in Heq. destruct (encode_char x), segs; simpl in *; lia. }
  rewrite <-Eu in *. apply (f_equal (split_char SLASH)) in Heq. rewrite !split_char_join in Heq; [done|..].
  - by destruct segs.
  - by apply encoded_slash_free.
  - by rewrite Eu.
  - by apply decoded_slash_free.
Qed.

Lemma text_chars segs : Forall text_segment segs → Forall (λ s, (0%N ∉ s) ∧ (SLASH ∉ s)) segs.
Proof. intros Hs. eapply Forall_impl; [done|]. intros s' Hs'. split; apply (text_segment_no s' _ Hs'); set_solver. Qed.

Lemma join_text base segs :
  posix_uri base → segs ≠ [] → Forall text_segment segs → (∀ s, head segs = Some s → driveless s) →
  uri_join base (abs_to_string segs) = Ok (text_url segs false) ∧
  posix_uri (text_url segs false) ∧ key (text_url segs false) = encode <$> segs.
Proof.
  intros Hb Hne Hs Hd. destruct (text_url_posix segs false Hs) as [Hu Hk].
  { intros s ?. by apply driveless_not_drive, Hd. }
  split; [|done]. apply (join_text_url base segs segs (length segs) false); [done..|by apply text_chars| |done].
  by rewrite normalize_text.
Qed.

(** Such a pattern is its own absolute text. *)
Lemma plain_glob_text context pattern :
  posix_uri (cwd context) → plain_glob pattern → deny_read_glob context pattern = Ok pattern.
Proof.
  intros Hc (segs & Hne & -> & Hs & Hd & _). unfold deny_read_glob. rewrite posix_convention by done.
  rewrite (proj2 (strip_prefix_None (str "~/") (abs_to_string segs))) by done. simpl.
  destruct (join_text (cwd context) segs) as (-> & Hu & _); [done..|]. f_equal.
  unfold inferred_native_path_string, from_path_uri. rewrite posix_convention, posix_not_opaque by done. simpl.
  destruct (push_text_segments segs Hs Hne) as (es & Hes & _ & _ & Hde & _). rewrite Hes.
  by apply render_text_segments.
Qed.
End bytes.

Section match_prefix.
Context `{UrlSlashLaws} {Glob : Type} (glob_build : rstring → bool → bool → rstring + Glob).
Context (glob_is_match : Glob → list N → bool) `{!GlobPrefixLaws glob_build glob_is_match}.

(** A pattern matches only paths below the directory that [glob_static_prefix_path] finds. *)
Lemma static_prefix_sound context pattern g path P :
  posix_uri (cwd context) → posix_uri path → plain_glob pattern →
  glob_build pattern true false = inr g → glob_is_match g (decoded_path_bytes path) = true →
  glob_static_prefix_path pattern context = Some P → posix_uri P ∧ key P `prefix_of` key path.
Proof.
  intros Hc Hp (segs & Hne & Ht & Hs & Hd & Hl) Hb Hm HP.
  destruct (before_wildcard_spec pattern) as [[rest Hrest] Hw].
  assert (Forall (λ c, c ∉ glob_syntax) (default pattern (before_wildcard pattern))) as Hlit.
  { apply Forall_forall. intros c Hin. rewrite Forall_forall in Hl, Hw. specialize (Hl c Hin). specialize (Hw c Hin).
    unfold glob_syntax. set_solver. }
  rewrite Hrest in Hb. destruct (glob_literal _ _ _ _ Hlit Hb Hm) as [Hpre Heq].
  destruct (before_wildcard pattern) as [lit|] eqn:E; simpl in *.
  - assert (∃ lit', lit = SLASH :: lit' ∧ lit' `prefix_of` join [SLASH] segs) as (lit' & -> & Hl').
    { rewrite Ht in E, Hrest. cbn in E. destruct (before_wildcard (join [SLASH] segs)) as [l|]; [|done].
      injection E as <-. exists l. split; [done|]. injection Hrest as ?. by exists rest. }
    destruct (prefix_of_join segs lit' Hne Hl') as (comps & s & more & partial & -> & Hps & ->).
    destruct (static_prefix_path context comps s more partial pattern P) as [HuP HkP]; [done..|]. split; [done|].
    apply Forall_app in Hs as [Hsc [Hss _]%Forall_cons]. etrans; [exact HkP|].
    by apply (bytes_components comps s partial).
  - assert (rest = []) as -> by (apply (f_equal length) in Hrest; rewrite length_app in Hrest; destruct rest; simpl in *; [done|lia]).
    destruct (join_text (cwd context) segs) as (Hj & HuP & HkP); [done..|].
    unfold glob_static_prefix_path in HP. rewrite E, Ht, Hj in HP. injection HP as <-. split; [done|].
    rewrite HkP. apply bytes_equal; [done..|]. rewrite Heq by done. by rewrite Ht.
Qed.

End match_prefix.

(** ** What the intersection lets be read *)

Section intersection.
Context `{UrlSlashLaws} {Glob : Type} (glob_build : rstring → bool → bool → rstring + Glob).
Context (glob_is_match : Glob → list N → bool) `{!GlobPrefixLaws glob_build glob_is_match}.

Lemma nothing_resolved path context : resolve_access (restricted []) path context = Deny.
Proof.
  destruct (resolve_access_decides (restricted []) path context) as [| | |r a d _ _ Hc _]; [done..|].
  destruct Hc as (Hin & _). by apply elem_of_nil in Hin.
Qed.

Lemma readable_entry p path context :
  kind p = Restricted → can_read (resolve_access p path context) = true →
  ∃ r d, covers p context path r (resolve_access p path context) d ∧
    ∀ r' a' d', covers p context path r' a' d' →
      d' < d ∨ d' = d ∧ access_rank a' ≤ access_rank (resolve_access p path context).
Proof. intros Hk. destruct (resolve_access_decides p path context); [done..|eauto]. Qed.

(** A path that is denied below a readable one is denied by an entry in between. *)
Lemma denied_below p context r path :
  kind p = Restricted → posix_context p context → posix_uri r → posix_uri path → key r `prefix_of` key path →
  can_read (resolve_access p r context) = true → can_read (resolve_access p path context) = false →
  ∃ d, (d, Deny) ∈ resolved_entries p context ∧ posix_uri d ∧ key d `prefix_of` key path ∧
    key r `prefix_of` key d.
Proof.
  intros Hk Hc Hr Hp Hrp Hread Hden.
  destruct (readable_entry p r context Hk Hread) as (t & n & Ht & Hmax).
  set (a := resolve_access p r context) in *.
  apply posix_covers in Ht as (Htin & Htu & -> & Htp); [|done..].
  assert (covers p context path t a (length (key t))) as Htc.
  { apply posix_covers; [done..|]. split_and!; [done..|by trans (key r)]. }
  destruct (resolve_access_decides p path context) as [|_ Hn|_ _ Hn|d b m _ _ Hd Hm]; [done| | |].
  - exfalso. by apply Hn, posix_comparable.
  - by apply Hn in Htc.
  - assert (b = Deny) as -> by by destruct b.
    specialize (Hm _ _ _ Htc). apply posix_covers in Hd as (Hdin & Hdu & -> & Hdp); [|done..].
    exists d. split_and!; [done..|].
    destruct (prefix_weak_total (key d) (key r) (key path)) as [Hdr|]; [done..| |done].
    exfalso. destruct (Hmax d Deny (length (key d))) as [?|[? Hle]]; [by apply posix_covers|lia|].
    destruct a; simpl in *; lia || done.
Qed.

Lemma posix_overlap d r path :
  posix_uri d → posix_uri r → key d `prefix_of` key path → key r `prefix_of` key path → paths_overlap d r = true.
Proof.
  intros Hd Hr Hdp Hrp. unfold paths_overlap, overlaps. destruct (uri_eq d r); [done|].
  rewrite !posix_depth by done. simpl. apply orb_true_iff. rewrite !posix_starts_with by done.
  destruct (prefix_weak_total (key d) (key r) (key path)); auto.
Qed.

Lemma elem_of_deny_patterns p pattern :
  pattern ∈ deny_patterns p ↔ ∃ e, e ∈ entries p ∧ entry_access e = Deny ∧ entry_path e = GlobPattern pattern.
Proof.
  unfold deny_patterns. rewrite list_elem_of_omap. unfold deny_entries. setoid_rewrite list_elem_of_filter.
  split; [|by intros (e & ? & ? & He); exists e; rewrite He].
  intros (e & [? ?] & He). exists e. destruct (entry_path e); by simplify_eq.
Qed.

(** The reads that a policy denies on a Unix executor. *)
Lemma posix_read_denied p context path :
  posix_uri (cwd context) →
  (∀ root access, (root, access) ∈ resolved_entries p context → posix_uri root ∨ is_opaque root = true) →
  posix_uri path →
  read_denied glob_build glob_is_match p context path = true ↔
  (∃ root, (root, Deny) ∈ resolved_entries p context ∧ is_file_system_root context root = false ∧
     posix_uri root ∧ key root `prefix_of` key path) ∨
  ∃ pattern, pattern ∈ deny_patterns p ∧ glob_denies glob_build glob_is_match context path pattern.
Proof.
  intros Hc Hr Hp. assert (∀ root, (root, Deny) ∈ resolved_entries p context → uri_starts_with path root = true ↔
    posix_uri root ∧ key root `prefix_of` key path) as Hs.
  { intros root Hin. destruct (Hr root Deny Hin) as [Hu|Ho]; [rewrite posix_starts_with by done; split; [by split|by intros [_ ?]]|].
    split; [|by intros [Hu%posix_is_opaque _]; congruence]. unfold uri_starts_with. rewrite uri_eq_posix by done.
    destruct (url_eq path root) eqn:E; [|by rewrite Ho, orb_true_r]. exfalso.
    apply bool_decide_eq_true in E as [Eh Es]. apply posix_is_opaque in Hp.
    unfold is_opaque, decode_bad_path_uri in *. rewrite Eh, Es in Hp. congruence. }
  assert ((∃ e, e ∈ entries p ∧ entry_access e = Deny) →
    read_denied glob_build glob_is_match p context path = true ↔
    (∃ root, (root, Deny) ∈ resolved_entries p context ∧ is_file_system_root context root = false ∧
      uri_starts_with path root = true) ∨
    ∃ pattern, pattern ∈ deny_patterns p ∧ glob_denies glob_build glob_is_match context path pattern) as Hcases.
  { intros (m & Hm & Hiff)%(read_deny_cases glob_build glob_is_match p context path).
    unfold read_denied. rewrite Hm, Hiff. split; [|auto]. intros [Hl|?]; [|done]. exfalso.
    specialize (Hl Posix (posix_convention _ Hc)). unfold lexical_in_context in Hl.
    rewrite posix_convention, !posix_depth in Hl by done. done. }
  split.
  - intros Hden. assert (∃ e, e ∈ entries p ∧ entry_access e = Deny) as He.
    2:{ apply Hcases in Hden as [(root & Hin & Hf & Hst)|?]; [left|by right|done]. exists root. by apply Hs in Hst as [? ?]. }
    unfold read_denied, from_context in Hden. destruct (existsb _ _) eqn:E; [|done].
    apply existsb_true_elem in E as (e & He & Ha%bool_decide_eq_true). eauto.
  - intros Hd. apply Hcases.
    2:{ destruct Hd as [(root & Hin & Hf & ? & ?)|?]; [left|by right]. exists root. by rewrite Hs. }
    destruct Hd as [(root & Hin & _)|(pattern & Hin & _)].
    + apply elem_of_resolved_entries in Hin as (e & ? & ? & _). eauto.
    + apply elem_of_deny_patterns in Hin as (e & ? & ? & _). eauto.
Qed.

Lemma within_request requested policy matcher context e r :
  granted_file_system_entry_within_request glob_is_match requested policy matcher context e = true →
  resolve_permission_path (entry_path e) context = Some r →
  can_read (entry_access e) = true ∧ access_covers (resolve_access policy r context) (entry_access e) = true ∧
  match matcher with Some m => matches_prepared_read_deny glob_is_match r context m | None => false end = false.
Proof.
  unfold granted_file_system_entry_within_request. intros Hw Hr. rewrite Hr in Hw.
  destruct (can_read (entry_access e)); [|done].
  destruct (negb true || _); [done|]. destruct (_ && _ && _); [done|].
  destruct (_ || _) eqn:E; [done|]. by apply orb_false_iff in E as [_ ?].
Qed.

Context (requested granted : FileSystemPermissions) (context : FileSystemSandboxPolicyContext).
Context (req gr : list FileSystemSandboxEntry) (result : FileSystemPermissions).
Context (Hreq : materialize_context_dependent_entries (fs_entries requested) context = Some req).
Context (Hgr : materialize_context_dependent_entries (fs_entries granted) context = Some gr).
Context (Hreqc : posix_context (restricted req) context) (Hgrc : posix_context (restricted gr) context).
Context (Hres : intersect_file_systems glob_build glob_is_match requested granted context = Some result).

(** What the intersection consists of. *)
Lemma intersection_entries :
  ∃ accepted,
    (∀ e, e ∈ accepted → e ∈ gr ∧ granted_file_system_entry_within_request glob_is_match requested
      (restricted req) (from_context glob_build (restricted req) context) context e = true) ∧
    (∀ e, e ∈ fs_entries result → e ∈ accepted ∨ entry_access e = Deny ∧ (e ∈ req ∨ e ∈ gr)) ∧
    (∀ e, e ∈ req ∨ e ∈ gr → entry_access e = Deny →
      deny_entry_constrains_accepted_grant e accepted context = true →
      ∃ e', e' ∈ fs_entries result ∧ entry_eq e' e = true).
Proof.
  unfold intersect_file_systems in Hres. rewrite Hreq, Hgr in Hres. cbn [mbind option_bind] in Hres.
  set (accepted := foldl push_missing [] _) in Hres. injection Hres as <-. cbn [fs_entries].
  exists accepted. split.
  { intros e. unfold accepted. destruct (push_missing_fold (filter (λ e, granted_file_system_entry_within_request
      glob_is_match requested (restricted req) (from_context glob_build (restricted req) context) context e = true) gr) [])
      as (extra & -> & Hin & _). intros [Hw ?]%Hin%list_elem_of_filter. done. }
  destruct (push_missing_fold (retained_deny_entries req accepted context ++ retained_deny_entries gr accepted context)
    accepted) as (extra & -> & Hin & Hall). split.
  - intros e [?|He%Hin]%elem_of_app; [by left|]. right.
    apply elem_of_app in He as [[[? _] ?]%list_elem_of_filter|[[? _] ?]%list_elem_of_filter]; auto.
  - intros e He Ha Hc. apply Hall, elem_of_app.
    destruct He; [left|right]; by apply list_elem_of_filter.
Qed.

Lemma intersection_context : posix_context (restricted (fs_entries result)) context.
Proof.
  destruct intersection_entries as (accepted & Hacc & Hin & _).
  assert (∀ e, e ∈ fs_entries result → e ∈ req ∨ e ∈ gr) as Hsub.
  { intros e [He%Hacc|[_ He]]%Hin; [right; apply He|done]. }
  split; [apply Hreqc|]. split.
  - intros e u [He|He]%Hsub Hu; [by eapply Hreqc|by eapply Hgrc].
  - intros r a (e & [He|He]%Hsub & Ha & Hr & Hc)%elem_of_resolved_entries;
      [apply (proj2 (proj2 Hreqc) r a)|apply (proj2 (proj2 Hgrc) r a)]; apply elem_of_resolved_entries; eauto.
Qed.

(** A path that the intersection lets be read lies below a grant that it accepted. *)
Lemma accepted_above path :
  posix_uri path → can_read (resolve_access (restricted (fs_entries result)) path context) = true →
  ∃ g r, g ∈ gr ∧ can_read (entry_access g) = true ∧
    entry_access g = resolve_access (restricted (fs_entries result)) path context ∧
    r ∈ resolve_path context (entry_path g) ∧ infer_path_convention r = infer_path_convention (cwd context) ∧
    posix_uri r ∧ key r `prefix_of` key path ∧
    access_covers (resolve_access (restricted req) r context) (entry_access g) = true ∧
    read_denied glob_build glob_is_match (restricted req) context r = false ∧
    (∀ r' a' d', covers (restricted (fs_entries result)) context path r' a' d' →
      d' < length (key r) ∨ d' = length (key r) ∧ access_rank a' ≤ access_rank (entry_access g)) ∧
    ∀ e, e ∈ req ∨ e ∈ gr → entry_access e = Deny → deny_constrains e context g = true →
      ∃ e', e' ∈ fs_entries result ∧ entry_eq e' e = true.
Proof.
  intros Hp Hread. pose proof intersection_context as Hc.
  destruct intersection_entries as (accepted & Hacc & Hin & Hall).
  destruct (readable_entry (restricted (fs_entries result)) path context eq_refl Hread) as (r & n & Hcov & Hmax).
  set (a := resolve_access (restricted (fs_entries result)) path context) in *.
  apply posix_covers in Hcov as (Hr & Hu & -> & Hk); [|done..].
  apply elem_of_resolved_entries in Hr as (g & Hg & Ha & Hrg & Hconv).
  destruct (Hin g Hg) as [Hga|[Hd _]]; [|by rewrite <-Ha, Hd in Hread].
  destruct (Hacc g Hga) as [Hgg Hw].
  pose proof (materialized_elem _ _ _ _ _ Hgr Hgg Hrg) as Hrp.
  destruct (within_request _ _ _ _ _ _ Hw Hrp) as (Hgread & Hcovers & Hnot).
  exists g, r. rewrite Ha in *. split_and!; [done..|].
  intros e He Hden Hcons. apply Hall; [done..|]. apply existsb_exists. exists g.
  split; [by apply list_elem_of_In|]. by rewrite Ha, Hread, Hcons.
Qed.

(** A denial of a directory above the path is in the intersection. *)
Lemma intersection_denies g r es d path :
  (∀ e, e ∈ req ∨ e ∈ gr → entry_access e = Deny → deny_constrains e context g = true →
    ∃ e', e' ∈ fs_entries result ∧ entry_eq e' e = true) →
  es = req ∨ es = gr → g ∈ gr → r ∈ resolve_path context (entry_path g) → posix_uri r →
  key r `prefix_of` key path → (d, Deny) ∈ resolved_entries (restricted es) context → posix_uri d →
  key d `prefix_of` key path → (d, Deny) ∈ resolved_entries (restricted (fs_entries result)) context.
Proof.
  intros Hall Hes Hg Hrg Hr Hrp (e & He & Ha & Hd & Hconv)%elem_of_resolved_entries Hu Hk.
  pose proof (materialized_elem _ _ _ _ _ Hgr Hg Hrg) as Hgr'.
  assert (resolve_permission_path (entry_path e) context = Some d) as Hed.
  { destruct Hes as [-> | ->]; [by apply (materialized_elem _ _ _ _ _ Hreq)|by apply (materialized_elem _ _ _ _ _ Hgr)]. }
  destruct (Hall e) as (e' & He' & Heq).
  { destruct Hes as [-> | ->]; auto. }
  { done. }
  { unfold deny_constrains. destruct (is_root_entry g); [done|]. rewrite Hgr'.
    destruct (entry_path e); [|done|]; rewrite Hed; by apply (posix_overlap d r path). }
  destruct (entry_eq_resolves context e' e d) as [Hacc Hd']; [|done..|].
  { intros u Hu'. by eapply intersection_context. }
  apply elem_of_resolved_entries. exists e'. split_and!; [done|congruence|done..].
Qed.

Lemma intersection_within path :
  posix_uri path → can_read (resolve_access (restricted (fs_entries result)) path context) = true →
  can_read (resolve_access (restricted (fs_entries requested)) path context) = true ∧
  can_read (resolve_access (restricted (fs_entries granted)) path context) = true ∧
  ∃ r, posix_uri r ∧ key r `prefix_of` key path ∧
    (r, resolve_access (restricted (fs_entries result)) path context)
      ∈ resolved_entries (restricted (fs_entries granted)) context ∧
    access_covers (resolve_access (restricted (fs_entries requested)) r context)
      (resolve_access (restricted (fs_entries result)) path context) = true.
Proof.
  intros Hp Hread. pose proof intersection_context as Hc.
  destruct (accepted_above path Hp Hread) as (g & r & Hgg & Hgread & Ha & Hrg & Hconv & Hu & Hk & Hcovers & _ & Hmax & Hall).
  rewrite <-Ha. assert (∀ es d, es = req ∨ es = gr → (d, Deny) ∈ resolved_entries (restricted es) context → posix_uri d →
    key d `prefix_of` key path → key r `prefix_of` key d → False) as Hno.
  { intros es d Hes Hd Hud Hkd Hkr. pose proof (prefix_length _ _ Hkr).
    destruct (Hmax d Deny (length (key d))) as [?|[_ Hle]]; [|lia|destruct (entry_access g); simpl in *; lia || done].
    apply posix_covers; [done..|]. split_and!; [|done..]. by eapply intersection_denies. }
  assert (covers (restricted gr) context path r (entry_access g) (length (key r))) as Hgcov.
  { apply posix_covers; [done..|]. split_and!; [|done..]. apply elem_of_resolved_entries. eauto. }
  rewrite <-(materialized_access _ _ _ path Hreq), <-(materialized_access _ _ _ path Hgr),
    <-(materialized_resolved _ _ _ Hgr).
  split_and!; [| |exists r; rewrite <-(materialized_access _ _ _ r Hreq); by destruct Hgcov].
  - apply not_false_iff_true. intros Hden. destruct (denied_below (restricted req) context r path) as (d & Hd & Hud & ? & ?);
      [done..| |done|by eapply (Hno req); eauto].
    destruct (entry_access g); simpl in Hcovers; [done|by destruct (resolve_access (restricted req) r context)|done].
  - destruct (resolve_access_decides (restricted gr) path context) as [|_ Hn|_ _ Hn|d b m _ _ Hd Hm]; [done| | |].
    + exfalso. by apply Hn, posix_comparable.
    + by apply Hn in Hgcov.
    + destruct (decide (b = Deny)) as [->|]; [exfalso|by destruct b].
      specialize (Hm _ _ _ Hgcov). apply posix_covers in Hd as (Hdin & Hdu & -> & Hdp); [|done..].
      apply (Hno gr d); [auto|done..|].
      destruct (prefix_weak_total (key d) (key r) (key path)) as [Hdr|]; [done..| |done].
      pose proof (prefix_length _ _ Hdr). assert (key d = key r) as ->; [|done]. apply prefix_length_eq; [done|lia].
Qed.

(** A path whose read the request or the grant denies is denied by the intersection. *)
Lemma intersection_not_denied path es :
  (∀ pattern, pattern ∈ deny_patterns (restricted req) → plain_glob pattern) →
  (∀ pattern, pattern ∈ deny_patterns (restricted gr) →
    plain_glob pattern ∧ ∃ g, glob_build pattern true false = inr g) →
  posix_uri path → can_read (resolve_access (restricted (fs_entries result)) path context) = true →
  es = req ∨ es = gr → read_denied glob_build glob_is_match (restricted es) context path = true →
  read_denied glob_build glob_is_match (restricted (fs_entries result)) context path = true.
Proof.
  intros Hreqg Hgrg Hp Hread Hes Hden. pose proof intersection_context as (Hcwd & _ & Hroots).
  destruct (accepted_above path Hp Hread) as (g & r & Hgg & _ & _ & Hrg & _ & Hu & Hk & _ & Hnot & _ & Hall).
  apply posix_read_denied; [done..|]. apply posix_read_denied in Hden as [(d & Hd & Hroot & Hud & Hkd)|(pattern & Hin & Hglob)];
    [left|right|done|destruct Hes as [-> | ->]; [apply Hreqc|apply Hgrc]|done].
  { exists d. split_and!; [|done..]. by eapply (intersection_denies g r es d path). }
  exists pattern. split; [|done].
  assert (plain_glob pattern ∧ ∃ m, glob_build pattern true false = inr m) as (Hplain & m & Hm).
  { destruct Hes as [-> | ->]; [|by apply Hgrg]. specialize (Hreqg _ Hin). split; [done|].
    destruct (glob_build pattern true false) as [err|m] eqn:E; [exfalso|by exists m].
    apply not_true_iff_false in Hnot. apply Hnot. apply posix_read_denied; [done|apply Hreqc|done|]. right.
    exists pattern. split; [done|]. intros c t m. rewrite posix_convention, plain_glob_text by done.
    intros [= <-] [= <-]. simpl. congruence. }
  apply elem_of_deny_patterns in Hin as (e & He & Ha & Hpath).
  destruct (Hall e) as (e' & He' & Heq); [by destruct Hes as [-> | ->]; auto|done| |].
  - unfold deny_constrains. destruct (is_root_entry g); [done|].
    rewrite (materialized_elem _ _ _ _ _ Hgr Hgg Hrg), Hpath. destruct (glob_static_prefix_path pattern context) as [P|] eqn:EP; [|done].
    destruct (static_prefix_sound glob_build glob_is_match context pattern m path P) as [HuP HkP]; [done..| |done|].
    + by apply (Hglob Posix pattern m); [apply posix_convention|apply plain_glob_text|].
    + by apply (posix_overlap P r path).
  - apply elem_of_deny_patterns. exists e'. split; [done|]. unfold entry_eq in Heq.
    rewrite !andb_true_iff, !bool_decide_eq_true, Hpath in Heq. destruct Heq as [[Heq Hacc] _]. split; [congruence|].
    destruct (entry_path e'); try done. by apply bool_decide_eq_true in Heq as ->.
Qed.
End intersection.

(** ** Patterns of the profiles *)

Section patterns.
Context `{UrlSlashLaws}.

(** A pattern whose absolute text is plain; the home directory alone is read in two ways. *)
Definition plain_pattern (context : FileSystemSandboxPolicyContext) (pattern : rstring) : Prop :=
  pattern ≠ str "~" ∧ ∀ text, deny_read_glob context pattern = Ok text → plain_glob text.

Lemma materialize_glob context e pattern :
  posix_uri (cwd context) → entry_path e = GlobPattern pattern → pattern ≠ str "~" →
  materialize_cwd_dependent_entry e context =
    match deny_read_glob context pattern with Ok text => Some (set_path (GlobPattern text) e) | _ => None end.
Proof.
  intros Hc He Hne. unfold materialize_cwd_dependent_entry, deny_read_glob, home_relative.
  rewrite He, posix_convention by done. simpl. rewrite decide_False by done.
  destruct (strip_prefix (str "~/") pattern) as [suffix|]; simpl.
  - destruct (user_home_dir context) as [home|]; simpl; [|done]. by destruct (uri_join home _).
  - by destruct (uri_join (cwd context) pattern).
Qed.

(** The patterns of a materialised entry. *)
Lemma materialized_glob context e l text :
  posix_uri (cwd context) → (entry_access e = Deny → entry_path e ≠ GlobPattern (str "~")) →
  materialize_context_entry context e = Some l →
  (∃ e', e' ∈ l ∧ entry_access e' = Deny ∧ entry_path e' = GlobPattern text) ↔
  entry_access e = Deny ∧ ∃ pattern, entry_path e = GlobPattern pattern ∧ deny_read_glob context pattern = Ok text.
Proof.
  intros Hc Hne Hl. destruct (entry_path e) as [u|pattern|sp] eqn:Ee.
  2:{ unfold materialize_context_entry in Hl. rewrite Ee in Hl. destruct (decide (entry_access e = Deny)) as [Ha|Ha].
      2:{ split; [|by intros (? & _)]. intros (e' & He' & Ha' & _). unfold materialize_cwd_dependent_entry in Hl.
          rewrite Ee in Hl. destruct (_ ≫= _) as [e1|] eqn:E in Hl; injection Hl as <-; [|by apply elem_of_nil in He'].
          apply list_elem_of_singleton in He' as ->. apply bind_Some in E as (t & _ & E).
          by apply bind_Some in E as (q & _ & [= <-]). }
      rewrite (materialize_glob _ _ pattern) in Hl; [|done|done|intros ->; by apply Hne].
      destruct (deny_read_glob context pattern) as [t| |] eqn:Et; [|done..]. injection Hl as <-. split.
      - intros (e' & ->%list_elem_of_singleton & _ & [= ->]). eauto.
      - intros (_ & p & [= <-] & Ht). rewrite Et in Ht. injection Ht as ->. eexists. by split; [left|]. }
  all: split; [|by intros (_ & p & ? & _)]; intros (e' & He' & Ha & Hp); exfalso;
    unfold materialize_context_entry, materialize_cwd_dependent_entry in Hl; rewrite Ee in Hl.
  - injection Hl as <-. apply list_elem_of_singleton in He' as ->. congruence.
  - assert (∀ l', Some [e] = Some l' → e' ∈ l' → False) as Hself.
    { intros l' [= <-] ->%list_elem_of_singleton. congruence. }
    destruct sp; try by eapply Hself.
    + destruct (resolve_permission_path _ _); [|done]. by eapply Hself.
    + apply bind_Some in Hl as (rs & Hrs & Hl). destruct (_ && _); [done|]. injection Hl as <-.
      destruct (materialize_roots_paths _ _ _ _ _ Hrs He') as [u Hu]. by rewrite Hu in Hp.
    + destruct (temporary_directories context) as [dirs|]; [|case_decide; [done|by eapply Hself]].
      injection Hl as <-. apply list_elem_of_In, in_map_iff in He' as (u & <- & _). done.
Qed.

(** The patterns of materialised entries are the absolute texts of the patterns. *)
Lemma materialized_patterns context es es' text :
  posix_uri (cwd context) → str "~" ∉ deny_patterns (restricted es) →
  materialize_context_dependent_entries es context = Some es' →
  text ∈ deny_patterns (restricted es') ↔
  ∃ pattern, pattern ∈ deny_patterns (restricted es) ∧ deny_read_glob context pattern = Ok text.
Proof.
  intros Hc. setoid_rewrite elem_of_deny_patterns. cbn [entries restricted]. revert es'.
  induction es as [|e es IH]; intros es' Hne; cbn [materialize_context_dependent_entries].
  { intros [= <-]. split; [by intros (e & []%elem_of_nil & _)|by intros (p & (e & []%elem_of_nil & _) & _)]. }
  intros (l & Hl & Hm)%bind_Some. apply fmap_Some in Hm as (l' & Hl' & ->).
  assert (entry_access e = Deny → entry_path e ≠ GlobPattern (str "~")) as Hne1.
  { intros Ha Hp. apply Hne. exists e. by split; [left|]. }
  specialize (IH l' ltac:(intros (e1 & ? & ?); apply Hne; exists e1; by split; [right|]) Hl').
  pose proof (materialized_glob context e l text Hc Hne1 Hl) as Hg. setoid_rewrite elem_of_app. split.
  - intros (e' & [He'|He'] & Ha & Hp).
    + destruct (proj1 Hg) as (Hea & p & Hep & Ht); [by exists e'|]. exists p. split; [|done]. exists e. by split; [left|].
    + destruct (proj1 IH) as (p & (e1 & ? & ?) & ?); [by exists e'|]. exists p. split; [|done]. exists e1. by split; [right|].
  - intros (p & (e1 & [->|He1]%elem_of_cons & Ha & Hp) & Ht).
    + destruct (proj2 Hg) as (e' & ? & ?); [by split; [|exists p]|]. exists e'. auto.
    + destruct (proj2 IH) as (e' & ? & ?); [exists p; split; [|done]; by exists e1|]. exists e'. auto.
Qed.

Lemma materialized_pattern_text context es es' pattern :
  posix_uri (cwd context) → str "~" ∉ deny_patterns (restricted es) →
  materialize_context_dependent_entries es context = Some es' →
  pattern ∈ deny_patterns (restricted es) → ∃ text, deny_read_glob context pattern = Ok text.
Proof.
  intros Hc. setoid_rewrite elem_of_deny_patterns. cbn [entries restricted]. revert es'.
  induction es as [|e es IH]; intros es' Hne; cbn [materialize_context_dependent_entries].
  { by intros _ (e & []%elem_of_nil & _). }
  intros (l & Hl & Hm)%bind_Some (e1 & [->|He1]%elem_of_cons & Ha & Hp).
  - unfold materialize_context_entry in Hl. rewrite Hp, (materialize_glob _ _ pattern) in Hl; [|done..|].
    + destruct (deny_read_glob context pattern); [by eexists|by rewrite decide_True in Hl..].
    + intros ->. apply Hne. exists e. by split; [left|].
  - apply fmap_Some in Hm as (l' & Hl' & ->). apply (IH l'); [|done|by exists e1].
    intros (e2 & ? & ?). apply Hne. exists e2. by split; [right|].
Qed.

Lemma materialized_plain context es es' text :
  posix_uri (cwd context) → Forall (plain_pattern context) (deny_patterns (restricted es)) →
  materialize_context_dependent_entries es context = Some es' → text ∈ deny_patterns (restricted es') →
  plain_glob text ∧ ∃ pattern, pattern ∈ deny_patterns (restricted es) ∧ deny_read_glob context pattern = Ok text.
Proof.
  rewrite Forall_forall. intros Hc Hplain Hm Hin.
  apply (materialized_patterns context es es') in Hin as (pattern & Hin & Ht); [|done| |done].
  - split; [by apply (Hplain pattern)|by exists pattern].
  - intros Hh. by destruct (Hplain _ Hh).
Qed.
End patterns.

Section claims.
Context `{UrlSlashLaws} {Glob : Type} (glob_build : rstring → bool → bool → rstring + Glob).
Context (glob_is_match : Glob → list N → bool) `{!GlobPrefixLaws glob_build glob_is_match}.

(** Materialising a profile keeps the reads that it denies. *)
Lemma materialized_read_denied context es es' path :
  posix_context (restricted es') context → posix_uri path →
  Forall (plain_pattern context) (deny_patterns (restricted es)) →
  materialize_context_dependent_entries es context = Some es' →
  read_denied glob_build glob_is_match (restricted es) context path = true ↔
  read_denied glob_build glob_is_match (restricted es') context path = true.
Proof.
  intros (Hc & _ & Hroots) Hp Hplain Hm. pose proof (materialized_resolved _ _ _ Hm) as Hres.
  rewrite Forall_forall in Hplain.
  assert (str "~" ∉ deny_patterns (restricted es)) as Hne by (intros Hin; by destruct (Hplain _ Hin)).
  rewrite !posix_read_denied by (done || rewrite <-Hres; done). rewrite Hres.
  assert (∀ pattern text, pattern ∈ deny_patterns (restricted es) → deny_read_glob context pattern = Ok text →
    glob_denies glob_build glob_is_match context path pattern ↔ glob_denies glob_build glob_is_match context path text) as Hg.
  { intros pattern text Hin Ht. unfold glob_denies. rewrite Ht.
    rewrite (plain_glob_text context text); [done|done|]. by apply (Hplain pattern). }
  split; (intros [?|(x & Hx & Hd)]; [by left|right]).
  - destruct (materialized_pattern_text context es es' x) as [text Ht]; [done..|]. exists text.
    rewrite <-(Hg x text) by done. split; [|done]. apply (materialized_patterns context es es'); [done..|eauto].
  - apply (materialized_patterns context es es') in Hx as (pattern & Hin & Ht); [|done..]. exists pattern.
    by rewrite (Hg pattern x).
Qed.

(** The policy lets the path be read: an entry opens it, and the matcher does not deny it. *)
Definition may_read (p : FileSystemSandboxPolicy) (context : FileSystemSandboxPolicyContext) (path : Url) : Prop :=
  can_read (resolve_access p path context) = true ∧
  read_denied glob_build glob_is_match p context path = false.

(** C11: the intersection of a request and a grant is within both.  On a Unix executor a path
    that may be read under it, by its entries and by the matcher of its denials with their
    patterns, may be read under the request alone and under the grant alone, and a path that its
    entries let be written lies in a directory that an entry of the grant writes and that the
    request may write.  The paths of the materialised entries are Unix paths (or opaque ones).
    The absolute texts of the patterns have ordinary components, without a backslash or a brace
    before the first wildcard, none is the home directory alone, and those of the grant compile. *)
Theorem intersection_within_both requested granted context path :
  let request := profile_policy requested in
  let grant := profile_policy granted in
  let result := profile_policy
    (intersect_permission_profiles_with_context glob_build glob_is_match requested granted context) in
  (∀ es, materialize_context_dependent_entries (entries request) context = Some es →
    posix_context (restricted es) context) →
  (∀ es, materialize_context_dependent_entries (entries grant) context = Some es →
    posix_context (restricted es) context) →
  Forall (plain_pattern context) (deny_patterns request) → Forall (plain_pattern context) (deny_patterns grant) →
  (∀ pattern text, pattern ∈ deny_patterns grant → deny_read_glob context pattern = Ok text →
    ∃ g, build_glob_matcher glob_build text Posix = inr g) →
  posix_uri path → may_read result context path →
  may_read request context path ∧ may_read grant context path ∧
  (can_write (resolve_access result path context) = true →
    ∃ r, key r `prefix_of` key path ∧ (r, Write) ∈ resolved_entries grant context ∧
      can_write (resolve_access request r context) = true).
Proof.
  intros request grant result Hreqc Hgrc Hreqg Hgrg Hbuild Hp [Hread Hnot].
  unfold result, intersect_permission_profiles_with_context, request, grant, profile_policy in *.
  cbn [ap_file_system entries restricted] in *.
  destruct (ap_file_system requested) as [rfs|]; cbn [mbind option_bind option_filter] in *; [|by rewrite nothing_resolved in Hread].
  set (gfs := default no_permissions (ap_file_system granted)) in *.
  assert (match ap_file_system granted with Some fs => fs_entries fs | None => [] end = fs_entries gfs) as Hg.
  { unfold gfs. by destruct (ap_file_system granted). }
  rewrite Hg in *. clearbody gfs.
  destruct (intersect_file_systems _ _ _ _ _) as [out|] eqn:E; cbn [option_filter] in *; [|by rewrite nothing_resolved in Hread].
  destruct (negb (fs_is_empty out)); [|by rewrite nothing_resolved in Hread].
  pose proof E as E'. unfold intersect_file_systems in E'.
  apply bind_Some in E' as (req & Hreq & E'). apply bind_Some in E' as (gr & Hgr & _).
  specialize (Hreqc _ Hreq). specialize (Hgrc _ Hgr).
  destruct (intersection_within glob_build glob_is_match rfs gfs context req gr out Hreq Hgr Hreqc Hgrc E path Hp Hread)
    as (? & ? & r & _ & Hk & Hin & Hcov).
  assert (∀ es, es = req ∨ es = gr → read_denied glob_build glob_is_match (restricted es) context path ≠ true) as Hden.
  { intros es Hes Hd. apply not_true_iff_false in Hnot. apply Hnot.
    apply (intersection_not_denied glob_build glob_is_match rfs gfs context req gr out Hreq Hgr Hreqc Hgrc E path es);
      [intros text Hin'..|done|done|done|done].
    - by apply (materialized_plain context (fs_entries rfs) req); [apply Hreqc| | |].
    - destruct (materialized_plain context (fs_entries gfs) gr text) as (? & pattern & ? & ?); [apply Hgrc|done..|].
      split; [done|]. by apply (Hbuild pattern). }
  unfold may_read. rewrite <-!not_true_iff_false.
  rewrite (materialized_read_denied _ _ _ path Hreqc Hp Hreqg Hreq), (materialized_read_denied _ _ _ path Hgrc Hp Hgrg Hgr).
  split_and!; [done|by apply Hden; left|done|by apply Hden; right|]. intros Hw. exists r.
  destruct (resolve_access (restricted (fs_entries out)) path context); done.
Qed.
End claims.

(** ** Examples *)

Module IntersectionExample.
Import Percent PercentText ProfileExample.

#[export] Instance percent_slash_laws : UrlSlashLaws.
Proof. split; [apply _|]. intros segments. simpl. unfold push. by rewrite decide_False by naive_solver. Qed.

(** A library whose patterns match every text with their literal beginning. *)
Definition star_build (pattern : rstring) (_ _ : bool) : rstring + rstring := inr pattern.

Definition star_match (pattern : rstring) (bytes : list N) : bool :=
  match before_wildcard pattern with
  | Some lit => bool_decide (encode lit `prefix_of` bytes)
  | None => bool_decide (encode pattern = bytes)
  end.

Lemma before_wildcard_app lit rest :
  Forall (λ c, c ∉ glob_syntax) lit → before_wildcard (lit ++ rest) = app lit <$> before_wildcard rest.
Proof.
  induction 1 as [|c lit Hc _ IH]; simpl; [by destruct (before_wildcard rest)|].
  rewrite bool_decide_eq_false_2, IH by (unfold glob_syntax in Hc; set_solver). by destruct (before_wildcard rest).
Qed.

#[export] Instance star_laws : GlobPrefixLaws star_build star_match.
Proof.
  intros lit rest g bytes Hl [= <-]. unfold star_match. rewrite before_wildcard_app by done.
  destruct (before_wildcard rest) as [l|] eqn:E; simpl; intros Hm%bool_decide_eq_true.
  - rewrite encode_app in Hm. split; [etrans; [by eexists|done]|]. by intros ->.
  - subst bytes. rewrite encode_app. split; [by eexists|]. intros ->. by rewrite app_nil_r.
Qed.

Definition star_intersect (requested granted : AdditionalPermissionProfile) : AdditionalPermissionProfile :=
  intersect_permission_profiles_with_context star_build star_match requested granted context.

Definition glob_asked : AdditionalPermissionProfile :=
  files [workspace; new_entry (Path (uri [str "w"; str "keys"])) Deny; new_entry (GlobPattern (str "secret/*")) Deny].

Definition glob_given : AdditionalPermissionProfile :=
  files [workspace; new_entry (GlobPattern (str "/w/priv*")) Deny].

Lemma glob_example_plain (segs : list rstring) (pattern : rstring) :
  segs ≠ [] → deny_read_glob context pattern = Ok (abs_to_string segs) →
  pattern ≠ str "~" ∧ Forall text_segment segs ∧
    Forall (λ c, c ∉ [92; 123; 125]%N) (default (abs_to_string segs) (before_wildcard (abs_to_string segs))) →
  (∀ s, head segs = Some s → driveless s) → plain_pattern context pattern.
Proof.
  intros Hne Ht (? & ? & ?) Hd. split; [done|]. intros t. rewrite Ht. intros [= <-]. by exists segs.
Qed.

Lemma intersection_within_both_witness :
  may_read star_build star_match (profile_policy (star_intersect glob_asked glob_given)) context path ∧
  read_denied star_build star_match (profile_policy (star_intersect glob_asked glob_given)) context
    (uri [str "w"; str "secret"; str "a"]) = true ∧
  may_read star_build star_match (profile_policy glob_asked) context path ∧
  may_read star_build star_match (profile_policy glob_given) context path ∧
  (can_write (resolve_access (profile_policy (star_intersect glob_asked glob_given)) path context) = true →
    ∃ r, key r `prefix_of` key path ∧ (r, Write) ∈ resolved_entries (profile_policy glob_given) context ∧
      can_write (resolve_access (profile_policy glob_asked) r context) = true).
Proof.
  split; [by split; vm_compute|]. split; [by vm_compute|].
  apply (intersection_within_both star_build star_match glob_asked glob_given context path).
  - intros es Hes. vm_compute in Hes. injection Hes as <-. apply posix_context_checked; by vm_compute.
  - intros es Hes. vm_compute in Hes. injection Hes as <-. apply posix_context_checked; by vm_compute.
  - change (deny_patterns (profile_policy glob_asked)) with [str "secret/*"]. apply Forall_singleton.
    apply (glob_example_plain [str "w"; str "secret"; str "*"]); [done|by vm_compute| |].
    + unfold text_segment. apply (bool_decide_unpack _). by vm_compute.
    + intros s [= <-] c r. by vm_compute.
  - change (deny_patterns (profile_policy glob_given)) with [str "/w/priv*"]. apply Forall_singleton.
    apply (glob_example_plain [str "w"; str "priv*"]); [done|by vm_compute| |].
    + unfold text_segment. apply (bool_decide_unpack _). by vm_compute.
    + intros s [= <-] c r. by vm_compute.
  - intros pattern text _ _. by exists text.
  - apply posix_uri_checked. by vm_compute.
  - by split; vm_compute.
Defined.

(** A library with alternatives in braces: a pattern matches the texts that it expands to. *)
Definition expand_braces (pattern : rstring) : list rstring :=
  match find_split [123%N] pattern with
  | Some (before, _ :: rest) =>
      match find_split [125%N] rest with
      | Some (alternatives, _ :: rest) => map (λ alt, before ++ alt ++ rest) (split_char 44%N alternatives)
      | _ => [pattern]
      end
  | _ => [pattern]
  end.

Definition brace_match (pattern : rstring) (bytes : list N) : bool :=
  existsb (λ text, bool_decide (encode text = bytes)) (expand_braces pattern).

(** A brace before the first wildcard is read as a literal where denials are kept: the denial of
    the request is dropped, and a file that the request denies may be read. *)
Lemma brace_denial_dropped :
  let asked := files [workspace; new_entry (GlobPattern (str "/{w,etc}/secret")) Deny] in
  let path := uri [str "w"; str "secret"] in
  let result := profile_policy (intersect_permission_profiles_with_context star_build brace_match asked given context) in
  read_denied star_build brace_match (profile_policy asked) context path = true ∧
  may_read star_build brace_match result context path.
Proof. by vm_compute. Qed.
End IntersectionExample.
